(* ===== verification/_CoqProject ===== *)
-Q . S2P
Prelude.v
Gob.v
Persister.v
RaftTypes.v
RaftLog.v
RaftNode.v
RaftInv.v
RaftSafe.v
RaftSpec.v
RaftCluster.v
RaftElection.v
RaftRefine.v
RaftSim.v
RaftSteps.v
RaftLead.v
RaftFollow.v
RaftCommit.v
RaftSafety.v
RaftServices.v
RaftWitness.v
RaftRuns.v
RaftApi.v
RaftPromise.v
LabRpc.v
LabRpcSpec.v
LabRpcWitness.v
LabGob.v
RaftConfig.v
RaftWiring.v
RaftHarness.v
RaftLeaderCheck.v
RaftHarnessWitness.v
RaftAgree.v
ServiceConfig.v
ServiceWiring.v
ServicePartition.v
CtrlerConfig.v
ShardConfig.v
ShardWiring.v
KVSrvConfig.v
KVRaft.v
KVRaftSpec.v
KVRaftSys.v
Replica.v
KVRaftWitness.v
WaitCh.v
ShardCtrler.v
ShardCtrlerBal.v
ShardCtrlerSpec.v
ShardCtrlerWitness.v
ShardCtrlerCluster.v
ShardKV.v
ShardKVSpec.v
ShardKVCluster.v
ShardKVSys.v
ShardKVWitness.v
KVSrv.v
MapReduce.v
MapReduceSpec.v
MapReduceJob.v
MapReduceApps.v
MapReduceSeq.v
MapReduceWitness.v
Bitset.v
Porcupine.v
PorcupineHeap.v
PorcupineSearch.v
PorcupineSpec.v
PorcupineOps.v
PorcupineCheck.v
PorcupineViz.v
Models.v
KVLin.v
KVLinSpec.v
KVLinWitness.v
KVWorld.v
KVWorldSim.v
KVWorldWitness.v
PorcupineWitness.v
KVSrvLin.v
