(* ===== verification/Prelude.v ===== *)
(** Verification of the lab services of this repository: MapReduce, a single
    key/value server, the Raft consensus layer, a replicated key/value service, a
    shard controller and a sharded key/value service.

    ** The program and its parts

    [src/src/raft] is the consensus layer: [raft.go] (one peer) and
    [persister.go] (stable storage).  Three services run on top of a peer and talk
    to it through [Start], [GetState], [Snapshot], [Kill] and a channel of
    [ApplyMsg]: [src/src/kvraft] (a replicated key/value store), [src/src/shardctrler]
    (a replicated list of configurations that assign ten shards to groups) and
    [src/src/shardkv] (groups that store shards and move them when the
    configuration changes).  [src/src/kvsrv] is a single unreplicated server,
    [src/src/mr] the MapReduce master and worker.  All of them call each other over
    [src/src/labrpc], a simulated network, with [src/src/labgob] as codec.  The
    tests start clusters through [config.go] files, which rewire the network, crash
    servers and compare what they deliver, and judge histories of client calls with
    the linearizability checker [src/src/porcupine] and the model [src/src/models].

    ** Files

    - [Prelude]: Go slices, indices and panics, 64-bit wrap-around, outcomes of
      code that may block, lemmas on lists and majorities.
    - [Gob]: the serialisation interface ([labgob]); [Persister]: persister.go.
    - [RaftTypes], [RaftNode]: the data and every operation of raft.go; a handler is
      one function from the peer's state to its next state, its reply and its
      effects (goroutines started, messages to the service), [None] is a panic.
    - [RaftInv], [RaftSafe], [RaftSpec]: invariants of one peer, absence of panics,
      durability, votes, log merging, the commit rule, compaction.
    - [RaftCluster]: peers, RPCs in progress and what the services received, as a
      transition function [exec] over actions (timers, RPC delivery and loss,
      [Start], [Snapshot], [apply], kill, restart).  [RaftElection]: one leader per
      term.
    - [RaftLog]: the abstract replicated log (leaders' logs per term, what each
      peer stored, votes) with its safety argument.  [RaftRefine], [RaftSim],
      [RaftSteps], [RaftLead], [RaftFollow], [RaftCommit]: the simulation, action by
      action.  [RaftSafety]: state machine safety, leader completeness, absence of
      panics for whole clusters.  [RaftServices]: the contract with the services.
      [RaftWitness], [RaftRuns]: concrete runs, among them the run that breaks
      agreement through a goroutine of an old leadership.
    - [RaftApi]: the class through which the services use a peer, with the
      instance for [RaftNode].  [RaftPromise]: what the cluster promises its
      services, step by step.  [Replica]: any service whose servers run on the peers
      of a cluster, with their handlers, appliers, snapshots and crashes, and what it
      has to show of its operations to hold the states of one log.
    - [LabRpc], [LabRpcSpec], [LabRpcWitness]: the network (end points, servers,
      reliability, delays, the queue of requests) as a state machine, its
      refinement of a lossy channel, and runs.  [LabGob]: the checks of labgob.go.
    - [RaftConfig]: raft/config.go (applier, checkLogs, snapshots, connect and
      disconnect, crash and start, checkOneLeader, checkTerms, nCommitted);
      [RaftWiring]: which peers can talk; [RaftHarness]: the harness on a cluster;
      [RaftLeaderCheck]: the leader check; [RaftHarnessWitness]: runs;
      [RaftAgree]: the loops [one] and [wait], interleaved with the cluster.
    - [ServiceConfig]: kvraft/config.go; [ServiceWiring], [ServicePartition]: what
      restarts and partitions do.  [CtrlerConfig]: shardctrler/config.go, which
      repeats that text; [ShardConfig], [ShardWiring]: shardkv/config.go;
      [KVSrvConfig]: kvsrv/config.go.
    - [KVRaft], [KVRaftSpec], [KVRaftSys], [KVRaftWitness]: the replicated key/value
      service; its handlers phase by phase, the applier, the clerk; exactly-once
      execution; the interleaving of handlers, applier and Raft.
    - [KVLin], [KVLinSpec], [KVLinWitness]: many clerks and servers of kvraft over one
      log, and their history.  [KVWorld]: clerks, servers, RPCs and the Raft cluster
      in one executable system; [KVWorldSim]: it is simulated by [KVLin];
      [KVWorldWitness]: runs, among them one that loses a write because snapshots
      overtake each other on the channel.
    - [WaitCh]: the table of channels the other two services share.
    - [ShardCtrler], [ShardCtrlerBal], [ShardCtrlerSpec], [ShardCtrlerWitness]: the
      controller, its balancing loop, its configurations; [ShardCtrlerCluster]: the
      controllers on a cluster, as an instance of [Replica].
    - [ShardKV], [ShardKVSpec], [ShardKVSys], [ShardKVWitness]: a group, its
      commands, and the migration of shards between groups; [ShardKVCluster]: the
      servers of a group on a cluster, as an instance of [Replica].
    - [KVSrv]: kvsrv with its clerk; [KVSrvLin]: concurrent clerks and their history.
    - [MapReduce], [MapReduceSpec], [MapReduceJob], [MapReduceWitness]: master,
      worker tasks, and whole jobs.  [MapReduceApps]: applications of
      [src/src/mrapps] and the sequential program [main/mrsequential.go];
      [MapReduceSeq]: a job and the sequential program write the same lines.
    - [Bitset]: bitset.go.  [Porcupine]: model.go and checker.go, with the linked list
      of entries in a heap ([PorcupineHeap]); [PorcupineSearch], [PorcupineSpec]: the
      search and what it decides; [PorcupineOps], [PorcupineCheck]: from recorded
      operations to the verdict, with partitions run in parallel and a time limit;
      [PorcupineViz]: the data behind visualization.go; [Models]: models/kv.go;
      [PorcupineWitness]: histories.

    ** Conditions on runs

    Two things the code does break its own promises, and both are shown by concrete
    runs.  A goroutine that replicates under a term that is over ([RaftRuns]) makes
    services diverge; a run in which this does not happen, and in which services take
    snapshots only at indices they were handed, is admissible ([admissible_run],
    [finds_term], [goroutine_timely]).  [InstallSnapshot] and [apply] release the lock
    before they send to the service: the cluster posts the messages where the lock is
    released, and the service reads any posted message that the goroutines can send next
    ([sendable]: the commands of a peer come in order, a snapshot may overtake anything
    and be overtaken).  What needs more says so: [oldest_first] (messages are read as
    they were posted) for the history of kvraft, which loses a write otherwise
    ([KVWorldWitness]); [in_turn] (no command is read before a snapshot that was posted
    earlier) for the shard groups; [orderly] for the checks of the Raft tests, which also
    assumes that appliers of stopped instances read nothing more.  Election safety,
    durability and the other theorems on single peers hold of all runs.

    ** What the theorems show

    - Raft: in every admissible run the cluster refines the replicated log; whatever
      peers deliver at one index agrees; committed entries are in every later leader's
      log; nothing panics.  In every run there is at most one leader per term, and a
      restart restores term, vote and log.
    - Services: in every admissible run what a peer posts for its service moves along
      one log without gaps, by commands or by snapshots a service took at that index;
      in whatever order the sends let the service read it, commands come by
      increasing index and what is skipped is covered by a snapshot; [Start]'s index
      and term identify its command.  Duplicates take effect once.  No applier of
      kvraft is ever stuck, whatever it reads.  With any number of clerks, lost and
      repeated RPCs, leader changes, snapshots and crashes, the history of kvraft,
      completed by pending updates, is linearizable in admissible runs that read
      oldest first.
    - Network: every execution of [labrpc] is one of a channel that may lose, delay
      and reorder, runs a handler at most once per call, and answers only what the
      handler returned; a deleted server never acknowledges; a call that does not wait
      for a handler at a live server can always take its next step and has at most
      six to go.  labgob's walks over types and values end and report what they should.
    - Raft's harness: on orderly runs its checks never fail and [one] and [wait] return
      only an index the servers agree on; on admissible runs a round of its leader check
      finds the leader of the latest term; the wiring is what the connected flags say.
    - Harnesses of the services: a partition enables exactly the ends inside its
      sides; a server that is restarted starts from what was saved when it was shut
      down, and earlier instances can neither be reached nor change what is kept;
      the name of a server of a group leads to the instance that runs as it.
    - Controller: configurations are numbered consecutively and never change;
      loads differ by at most one after Join and Leave; replicas agree although Go
      iterates maps in any order: on their cluster they hold the configurations of
      the delivered operations, and no applier blocks; the clerk returns.
    - Sharded store: as long as no shard goes back to group 0, no two groups serve a
      shard at once, reads see every effective write across migrations, and a write
      takes effect once; what happens otherwise is shown by a run.  The servers of a
      group hold the state of the commands their cluster delivered, also after a
      restart from a snapshot, and their appliers neither panic nor block.
    - kvsrv: each request is executed once under retransmission, and every history
      of concurrent clerks, completed by pending calls, is linearizable.
    - Checker: it terminates, and answers yes exactly for linearizable histories;
      with a time limit its definite answers are right; judging key by key, as the
      key/value model does, is judging the whole store; drawing never indexes out
      of range; the parallel check of no partition at all blocks.
    - MapReduce: a job with timely workers that reports done has written the right
      output, which is that of the sequential program; what breaks when a timer fires
      while a worker still has the task.

    ** Bounds and fuel

    Terms, indices and request numbers are unbounded [Z]: they grow by one per
    election, entry or request.  The arithmetic that can overflow (the balancing
    loop starts from [math.MaxInt64]) is wrapped to 64 bits.  Loops over an index
    range recurse on the exact number of iterations left.  The balancing loop has
    221 rounds of fuel, which is proved to be more than it can use; the grouping
    loop of a reduce task has as much fuel as pairs.  Retry loops of clerks take
    the number of rounds as fuel, and the termination theorems give a number that
    is enough.  The search of the checker has fuel per iteration of its loop, and is
    proved to finish for some amount; the walk of labgob over a type has its number
    of types as depth.  Request numbers of kvraft and kvsrv clerks wrap at 64 bits,
    and the theorems on histories are about runs below that bound.

    ** Not modelled

    Logging; [encoding/gob] and JSON (parameters with their round-trip laws);
    mutexes and goroutine scheduling below the granularity of critical sections and
    of the sends that follow them; real time (timers are nondeterministic steps, and
    schedules say when the harness's timers run out; the time limit of a test is left
    out); random names and numbers, which are arguments; the HTML page of the
    visualization; the other command line programs, and the applications that need
    Unicode tables or probe the test machine.

    ** Plan

    Next: clerks of the controller and of the shard groups over [Replica], as [KVWorld]
    has them for kvraft, with migration between groups on clusters of their own. *)

From stdpp Require Export gmap strings list fin_maps numbers sorting relations.
From Stdlib Require Export ZArith Lia.

(** * Go slices, indices and panics *)

Declare Scope go_scope.
Delimit Scope go_scope with go.
Open Scope go_scope.

(** [len(l)] as a Go [int]. *)
Definition zlen {A} (l : list A) : Z := Z.of_nat (length l).

(** [l[i]]: [None] is the run-time panic of an index out of range. *)
Definition go_index {A} (l : list A) (i : Z) : option A :=
  if decide (0 <= i)%Z then l !! Z.to_nat i else None.

(** [l[i] = x]: panics out of range. *)
Definition go_store {A} (l : list A) (i : Z) (x : A) : option (list A) :=
  if decide (0 <= i < zlen l)%Z then Some (<[Z.to_nat i := x]> l) else None.

(** [l[i:]]: panics unless [0 <= i <= len(l)]. *)
Definition slice_from {A} (l : list A) (i : Z) : option (list A) :=
  if decide (0 <= i <= zlen l)%Z then Some (drop (Z.to_nat i) l) else None.

(** [l[:i]]: panics unless [0 <= i <= len(l)]. *)
Definition slice_to {A} (l : list A) (i : Z) : option (list A) :=
  if decide (0 <= i <= zlen l)%Z then Some (take (Z.to_nat i) l) else None.

(** [l[i:j]]: panics unless [0 <= i <= j <= len(l)]. *)
Definition slice_range {A} (l : list A) (i j : Z) : option (list A) :=
  if decide (0 <= i <= j /\ j <= zlen l)%Z
  then Some (drop (Z.to_nat i) (take (Z.to_nat j) l)) else None.

(** [make([]T, n)] panics on a negative length; [copy(dst, src)] overwrites
    the first [min(len(dst), len(src))] elements of [dst]. *)
Definition go_make {A} (n : Z) (zero : A) : option (list A) :=
  if decide (0 <= n)%Z then Some (replicate (Z.to_nat n) zero) else None.
Definition go_copy {A} (dst src : list A) : list A :=
  take (length dst) src ++ drop (length src) dst.

Notation "l .[ i ]" := (go_index l i)
  (at level 1, left associativity, format "l .[ i ]") : go_scope.
Notation "l .[ i :]" := (slice_from l i)
  (at level 1, left associativity, format "l .[ i :]") : go_scope.
Notation "l .[: i ]" := (slice_to l i)
  (at level 1, left associativity, format "l .[: i ]") : go_scope.
Notation "l .[ i ..< j ]" := (slice_range l i j)
  (at level 1, left associativity, format "l .[ i ..< j ]") : go_scope.

(** Signed 64-bit wrap-around, for the counters whose overflow is in play. *)
Definition int64_min : Z := (- 2 ^ 63)%Z.
Definition int64_max : Z := (2 ^ 63 - 1)%Z.
Definition wrap64 (z : Z) : Z := ((z + 2 ^ 63) mod 2 ^ 64 - 2 ^ 63)%Z.

Lemma wrap64_small (z : Z) : (int64_min <= z <= int64_max)%Z -> wrap64 z = z.
Proof. unfold wrap64, int64_min, int64_max. intros. rewrite Z.mod_small; lia. Qed.

(** * Outcomes of code that may also wait

    Most operations either return or panic and live in [option].  The services
    also send on bounded channels while they hold their mutex: [Block] is a
    step that cannot proceed in the current state. *)
Inductive Go (A : Type) := Ret (a : A) | Panic | Block.
Arguments Ret {A}. Arguments Panic {A}. Arguments Block {A}.

#[export] Instance go_mret : MRet Go := @Ret.
#[export] Instance go_mbind : MBind Go := fun A B f m =>
  match m with Ret a => f a | Panic => Panic | Block => Block end.

Definition of_opt {A} (o : option A) : Go A :=
  match o with Some a => Ret a | None => Panic end.

Definition go_opt {A} (x : Go A) : option A := match x with Ret a => Some a | _ => None end.

Lemma go_bind_Ret {A B} (f : A -> Go B) m b :
  m ≫= f = Ret b <-> exists a, m = Ret a /\ f a = Ret b.
Proof.
  destruct m; simpl; split; try (by intros (? & ? & ?)); try done.
  - eauto.
  - by intros (? & [= ->] & ?).
Qed.

(** All events [es] that [step] performs from [w] satisfy [ok] where they happen. *)
Fixpoint along {E W} (step : E -> W -> option W) (ok : E -> W -> bool) (es : list E) (w : W) : bool :=
  match es with
  | [] => true
  | e :: es => ok e w && match step e w with Some w' => along step ok es w' | None => false end
  end.

(** * Tactics *)

(** Splits every bind of an [option] computation that is known to succeed. *)
Ltac opt_inv :=
  repeat match goal with
  | H : mbind _ _ = Some _ |- _ => apply bind_Some in H as (? & ? & H)
  | H : Some _ = Some _ |- _ => injection H as H; subst
  | H : None = Some _ |- _ => discriminate H
  | H : Some _ = None |- _ => discriminate H
  | H : (_, _) = (_, _) |- _ => injection H as H; subst
  end.

(** The same for [Go]. *)
Ltac go_inv :=
  repeat match goal with
  | H : mbind _ _ = Ret _ |- _ => apply go_bind_Ret in H as (? & ? & H)
  | H : of_opt ?o = Ret _ |- _ =>
      let E := fresh "E" in destruct o eqn:E; simpl in H; [|discriminate H]
  | H : Ret _ = Ret _ |- _ => injection H as H; subst
  | H : Panic = Ret _ |- _ => discriminate H
  | H : Block = Ret _ |- _ => discriminate H
  | H : (_, _) = (_, _) |- _ => injection H as H; subst
  end.

Ltac opt_step :=
  repeat match goal with
  | |- mbind _ _ = Some _ => apply bind_Some; eexists; split
  end.

(** * Generic lemmas *)

Section slices.
Context {A : Type}.
Implicit Types (l : list A) (i j : Z).
Local Open Scope Z_scope.

Lemma zlen_nonneg l : 0 <= zlen l.
Proof. unfold zlen. lia. Qed.

Lemma zlen_app l1 l2 : zlen (l1 ++ l2) = zlen l1 + zlen l2.
Proof. unfold zlen. rewrite length_app. lia. Qed.
Lemma zlen_snoc l x : zlen (l ++ [x]) = zlen l + 1.
Proof. by rewrite zlen_app. Qed.

Lemma zlen_cons x l : zlen (x :: l) = 1 + zlen l.
Proof. unfold zlen. simpl. lia. Qed.

Lemma zlen_pos l : l <> [] -> 0 < zlen l.
Proof. destruct l; [done|]. rewrite zlen_cons. pose proof (zlen_nonneg l). lia. Qed.

Lemma go_index_Some_lt l i x : l.[i] = Some x -> 0 <= i < zlen l.
Proof.
  unfold go_index, zlen. case_decide; [|done].
  intros H0%lookup_lt_Some. lia.
Qed.

Lemma go_index_lookup l i : 0 <= i -> l.[i] = l !! Z.to_nat i.
Proof. intros. unfold go_index. by rewrite decide_True. Qed.

Lemma go_index_of_nat l (n : nat) : l.[Z.of_nat n] = l !! n.
Proof. rewrite go_index_lookup by lia. by rewrite Nat2Z.id. Qed.

Lemma go_index_is_Some l i : 0 <= i < zlen l -> exists x, l.[i] = Some x.
Proof.
  intros H. rewrite go_index_lookup by lia.
  apply lookup_lt_is_Some. unfold zlen in H. lia.
Qed.

Lemma go_index_nil i x : ([] : list A).[i] = Some x -> False.
Proof. unfold go_index. by case_decide. Qed.

Lemma go_index_neg l i : i < 0 -> l.[i] = None.
Proof. intros. unfold go_index. rewrite decide_False by lia. done. Qed.

Lemma go_index_oob l i : zlen l <= i -> l.[i] = None.
Proof.
  intros. unfold zlen in *. rewrite go_index_lookup by lia.
  apply lookup_ge_None_2. lia.
Qed.

Lemma go_index_app_l l1 l2 i : i < zlen l1 -> (l1 ++ l2).[i] = l1.[i].
Proof.
  intros. unfold go_index, zlen in *. case_decide; [|done].
  apply lookup_app_l. lia.
Qed.

Lemma go_index_app_r l1 l2 i :
  zlen l1 <= i -> (l1 ++ l2).[i] = l2.[i - zlen l1].
Proof.
  intros. unfold zlen in *. rewrite !go_index_lookup by lia.
  rewrite lookup_app_r by lia. f_equal. lia.
Qed.

Lemma go_index_cons_0 x l : (x :: l).[0] = Some x.
Proof. done. Qed.

Lemma go_index_cons_S x l i : 0 < i -> (x :: l).[i] = l.[i - 1].
Proof.
  intros. rewrite !go_index_lookup by lia.
  replace (Z.to_nat i) with (S (Z.to_nat (i - 1))) by lia. done.
Qed.

Lemma slice_from_Some l i :
  0 <= i <= zlen l -> l.[i:] = Some (drop (Z.to_nat i) l).
Proof. intros. unfold slice_from. by rewrite decide_True. Qed.

Lemma slice_to_Some l i :
  0 <= i <= zlen l -> l.[:i] = Some (take (Z.to_nat i) l).
Proof. intros. unfold slice_to. by rewrite decide_True. Qed.

Lemma slice_range_Some l i j :
  0 <= i <= j -> j <= zlen l ->
  l.[i ..< j] = Some (drop (Z.to_nat i) (take (Z.to_nat j) l)).
Proof. intros. unfold slice_range. by rewrite decide_True. Qed.

Lemma go_index_drop l i j :
  0 <= i -> 0 <= j -> (drop (Z.to_nat i) l).[j] = l.[i + j].
Proof.
  intros. rewrite !go_index_lookup by lia. rewrite lookup_drop.
  f_equal. lia.
Qed.

Lemma go_index_take l i j :
  j < i -> (take (Z.to_nat i) l).[j] = l.[j].
Proof.
  intros. unfold go_index. case_decide; [|done].
  apply lookup_take_lt. lia.
Qed.

Lemma zlen_drop l i : 0 <= i <= zlen l -> zlen (drop (Z.to_nat i) l) = zlen l - i.
Proof. unfold zlen. rewrite length_drop. lia. Qed.

Lemma zlen_take l i : 0 <= i <= zlen l -> zlen (take (Z.to_nat i) l) = i.
Proof. unfold zlen. rewrite length_take. lia. Qed.

Lemma go_store_Some l i x :
  0 <= i < zlen l -> go_store l i x = Some (<[Z.to_nat i := x]> l).
Proof. intros. unfold go_store. by rewrite decide_True. Qed.

Lemma zlen_insert l n x : zlen (<[n := x]> l) = zlen l.
Proof. unfold zlen. by rewrite length_insert. Qed.

Lemma go_index_store l i j x l' :
  go_store l i x = Some l' ->
  l'.[j] = (if decide (j = i) then Some x else l.[j]).
Proof.
  unfold go_store. case_decide as H0; [|done]. intros [= <-].
  unfold go_index, zlen in *. case_decide as H1.
  - destruct (decide (j = i)) as [->|Hne].
    + apply list_lookup_insert_eq. lia.
    + apply list_lookup_insert_ne. lia.
  - case_decide; [lia|done].
Qed.

Lemma go_store_inv l i x l' : go_store l i x = Some l' -> 0 <= i < zlen l /\ zlen l' = zlen l.
Proof. unfold go_store. case_decide; [|done]. intros [= <-]. by rewrite zlen_insert. Qed.

Lemma go_index_insert l i j x :
  0 <= i < zlen l ->
  (<[Z.to_nat i := x]> l).[j] = (if decide (j = i) then Some x else l.[j]).
Proof. intros. by apply go_index_store, go_store_Some. Qed.

(** [copy] between slices of the same length. *)
Lemma go_copy_full (dst src : list A) : length dst = length src -> go_copy dst src = src.
Proof.
  intros Hlen. unfold go_copy. rewrite take_ge by lia.
  rewrite (drop_ge dst) by lia. by rewrite app_nil_r.
Qed.

(** Two slices are equal when they have the same length and elements. *)
Lemma go_index_ext l1 l2 :
  zlen l1 = zlen l2 -> (forall i, 0 <= i < zlen l1 -> l1.[i] = l2.[i]) -> l1 = l2.
Proof.
  intros Hlen H. apply list_eq. intros k.
  destruct (decide (k < length l1)%nat) as [Hk|Hk].
  - rewrite <- !go_index_of_nat. apply H. unfold zlen. lia.
  - unfold zlen in Hlen. rewrite !lookup_ge_None_2 by lia. done.
Qed.
End slices.

(** * Filtered and sorted lists *)

Lemma filter_agree {A} (P Q : A -> Prop) `{forall x, Decision (P x), forall x, Decision (Q x)} l :
  Forall (fun x => P x <-> Q x) l -> filter P l = filter Q l.
Proof.
  induction 1 as [|x l Hx _ IH]; [done|]. rewrite !filter_cons, IH.
  destruct (decide (P x)), (decide (Q x)); tauto.
Qed.

Lemma filter_all {A} (P : A -> Prop) `{forall x, Decision (P x)} l : Forall P l -> filter P l = l.
Proof. induction 1 as [|x l Hx _ IH]; [done|]. by rewrite filter_cons, decide_True, IH. Qed.

Lemma StronglySorted_elem {A} (R R' : A -> A -> Prop) l :
  (forall x y, x ∈ l -> y ∈ l -> R x y -> R' x y) -> StronglySorted R l -> StronglySorted R' l.
Proof.
  intros H Hs. induction Hs as [|x l Hs IH Hall]; [constructor|]. constructor.
  - apply IH. intros y z Hy Hz. apply H; by right.
  - rewrite Forall_forall in Hall. apply Forall_forall. intros y Hy. apply H; [by left|by right|by apply Hall].
Qed.

Lemma StronglySorted_map {A B} (R : B -> B -> Prop) (f : A -> B) l :
  StronglySorted R (map f l) <-> StronglySorted (fun x y => R (f x) (f y)) l.
Proof.
  induction l as [|x l IH]; simpl; [split; constructor|]. split; intros [Hs Hall]%StronglySorted_inv.
  - constructor; [by apply IH|]. apply Forall_forall. intros y Hy.
    rewrite Forall_forall in Hall. apply Hall, list_elem_of_fmap. eauto.
  - constructor; [by apply IH|]. apply Forall_forall. intros z (y & -> & Hy)%list_elem_of_fmap.
    by apply (proj1 (Forall_forall _ _) Hall).
Qed.

(** * Strings *)

(** [sort.Strings]: equal strings cannot be told apart, so the sorted list does
    not depend on the algorithm. *)
Definition sort_Strings (l : list string) : list string := merge_sort String.le l.

Lemma sort_Strings_perm l1 l2 : l1 ≡ₚ l2 -> sort_Strings l1 = sort_Strings l2.
Proof.
  intros H. apply (StronglySorted_unique String.le).
  - apply StronglySorted_merge_sort; apply _.
  - apply StronglySorted_merge_sort; apply _.
  - unfold sort_Strings. by rewrite !merge_sort_Permutation.
Qed.

(** * Majorities *)

Local Open Scope Z_scope.

(** A majority of the peers [0..n-1]. *)
Definition quorum (n : nat) (Q : gset Z) : Prop :=
  (forall v, v ∈ Q -> 0 <= v < Z.of_nat n) /\ Z.of_nat n < 2 * Z.of_nat (size Q).

(** Two majorities share a member. *)
Lemma quorum_intersection (n : nat) (S1 S2 : gset Z) :
  (forall v, v ∈ S1 -> 0 <= v < Z.of_nat n) -> (forall v, v ∈ S2 -> 0 <= v < Z.of_nat n) ->
  Z.of_nat n < 2 * Z.of_nat (size S1) -> Z.of_nat n < 2 * Z.of_nat (size S2) ->
  exists v, v ∈ S1 /\ v ∈ S2.
Proof.
  intros H1 H2 Hs1 Hs2.
  destruct (decide (S1 ∩ S2 = ∅)) as [He|Hne].
  - exfalso. assert (Hd : S1 ## S2) by set_solver.
    pose proof (size_union S1 S2 Hd) as Hu.
    assert (Hsub : S1 ∪ S2 ⊆ list_to_set (seqZ 0 (Z.of_nat n))).
    { intros v Hv. apply elem_of_list_to_set, elem_of_seqZ.
      apply elem_of_union in Hv as [Hv|Hv]; [apply H1 in Hv|apply H2 in Hv]; lia. }
    apply subseteq_size in Hsub. rewrite size_list_to_set in Hsub by apply NoDup_seqZ.
    rewrite length_seqZ in Hsub. lia.
  - apply set_choose_L in Hne as [v Hv]. exists v. set_solver.
Qed.

Lemma quorum_meet n Q1 Q2 : quorum n Q1 -> quorum n Q2 -> exists v, v ∈ Q1 /\ v ∈ Q2.
Proof. intros [? ?] [? ?]. by apply (quorum_intersection n). Qed.

(** The hints and rewrites that discharge the routine slice side conditions. *)
Create HintDb golib.
Create Rewrite HintDb golib.
#[export] Hint Resolve zlen_nonneg : golib.
#[export] Hint Rewrite @zlen_app @zlen_cons @zlen_insert : golib.
