(* ===== verification/Gob.v ===== *)
(** The serialisation interface.

    [src/src/labgob/labgob.go] wraps Go's [encoding/gob], which is not part of
    the repository: encoders append a self-delimiting representation of a value
    to a byte stream and decoders consume one value from the front of a stream.
    The development is parametric in that codec ([Gob]) and uses it only through
    its documented round trip ([GobLaws]).  [countable_gob] is one concrete codec
    that satisfies the laws; witnesses are evaluated with it. *)

From S2P Require Import Prelude.

Abbreviation byte := Byte.byte.
Abbreviation bytes := (list Byte.byte).

Class Gob (A : Type) : Type := {
  gob_encode : A -> bytes;
  gob_decode : bytes -> option (A * bytes)
}.

Class GobLaws (A : Type) `{Gob A} : Prop := {
  gob_roundtrip : forall (a : A) (rest : bytes),
    gob_decode (gob_encode a ++ rest) = Some (a, rest);
  gob_nonempty : forall a : A, gob_encode a <> []
}.

#[export] Hint Rewrite @gob_roundtrip using typeclasses eauto : golib.

(** A stream that holds exactly one value. *)
Lemma gob_roundtrip_nil {A} `{GobLaws A} (a : A) :
  gob_decode (gob_encode a) = Some (a, []).
Proof. rewrite <- (app_nil_r (gob_encode a)). apply gob_roundtrip. Qed.

(** * A concrete codec *)

(** One byte per bit of the value's number, then a terminator. *)
Fixpoint pos_bytes (p : positive) : bytes :=
  match p with
  | xH => [Byte.x02]
  | xO p => Byte.x00 :: pos_bytes p
  | xI p => Byte.x01 :: pos_bytes p
  end.

Fixpoint bytes_pos (l : bytes) : option (positive * bytes) :=
  match l with
  | Byte.x00 :: l => '(p, r) ← bytes_pos l; Some (xO p, r)
  | Byte.x01 :: l => '(p, r) ← bytes_pos l; Some (xI p, r)
  | Byte.x02 :: l => Some (xH, l)
  | _ => None
  end.

Definition countable_gob {A} `{Countable A} : Gob A := {|
  gob_encode a := pos_bytes (encode a);
  gob_decode l := '(p, r) ← bytes_pos l; a ← decode p; Some (a, r)
|}.

Lemma bytes_pos_bytes p rest : bytes_pos (pos_bytes p ++ rest) = Some (p, rest).
Proof. induction p as [p IH|p IH|]; simpl; rewrite ?IH; done. Qed.

Lemma countable_gob_laws {A} `{Countable A} : @GobLaws A countable_gob.
Proof.
  split; simpl.
  - intros a rest. rewrite bytes_pos_bytes. simpl. by rewrite decode_encode.
  - intros a. by destruct (encode a).
Qed.
