(* ===== verification/Persister.v ===== *)
(** Stable storage, [src/src/raft/persister.go].

    A [Persister] holds the encoded Raft state and the service's snapshot; both
    are replaced together by [Save].  A byte slice is a list of bytes: [clone]
    copies, so a reader never shares memory with the store. *)

From S2P Require Import Prelude Gob.

Record Persister := mkPersister {
  raftstate : bytes;
  snapshot : bytes
}.

Definition MakePersister : Persister := {| raftstate := []; snapshot := [] |}.

Definition clone (orig : bytes) : bytes :=
  go_copy (replicate (length orig) Byte.x00) orig.

Definition Copy (ps : Persister) : Persister :=
  let np := MakePersister in
  {| raftstate := raftstate ps; snapshot := snapshot ps |}.

Definition ReadRaftState (ps : Persister) : bytes := clone (raftstate ps).
Definition RaftStateSize (ps : Persister) : Z := zlen (raftstate ps).

Definition Save (rs ss : bytes) (ps : Persister) : Persister :=
  {| raftstate := clone rs; snapshot := clone ss |}.

Definition ReadSnapshot (ps : Persister) : bytes := clone (snapshot ps).
Definition SnapshotSize (ps : Persister) : Z := zlen (snapshot ps).

Lemma clone_id l : clone l = l.
Proof.
  apply go_copy_full, length_replicate.
Qed.

Lemma ReadRaftState_Save rs ss ps : ReadRaftState (Save rs ss ps) = rs.
Proof. unfold ReadRaftState, Save. simpl. by rewrite !clone_id. Qed.

Lemma ReadSnapshot_Save rs ss ps : ReadSnapshot (Save rs ss ps) = ss.
Proof. unfold ReadSnapshot, Save. simpl. by rewrite !clone_id. Qed.

#[export] Hint Rewrite clone_id ReadRaftState_Save ReadSnapshot_Save : golib.
