(* ===== verification/RaftTypes.v ===== *)
(** The data of the Raft layer: the types of [src/src/raft/raft.go].

    [Cmd] is the type of the service commands carried as [interface{}]; a nil
    command is [None].  Go's [int] is modelled by [Z]: terms and indices grow by
    one per election or command and never reach the 64-bit bound.  [time.Time]
    is a [Z] supplied by the caller of a handler ([now]).  The fields of [Raft]
    that only carry Go run-time objects ([mu], [applyChan], [commitCond], the
    elements of [peers]) are not data: the mutex makes a handler one atomic
    step, sends and signals are returned as [Effect]s, and only [len(peers)] is
    kept. *)

From S2P Require Import Prelude Gob Persister.
Local Open Scope Z_scope.

Record ApplyMsg (Cmd : Type) := mkApplyMsg {
  CommandValid : bool;
  amCommand : option Cmd;
  CommandIndex : Z;
  CommandTerm : Z;
  SnapshotValid : bool;
  amSnapshot : bytes;
  SnapshotTerm : Z;
  SnapshotIndex : Z
}.
Arguments mkApplyMsg {Cmd}.
Arguments CommandValid {Cmd}. Arguments amCommand {Cmd}.
Arguments CommandIndex {Cmd}. Arguments CommandTerm {Cmd}.
Arguments SnapshotValid {Cmd}. Arguments amSnapshot {Cmd}.
Arguments SnapshotTerm {Cmd}. Arguments SnapshotIndex {Cmd}.

Inductive RuleState := Follower | Candidate | Leader | Dead.

#[export] Instance RuleState_eq_dec : EqDecision RuleState.
Proof. solve_decision. Defined.

Definition RuleState_String (s : RuleState) : string :=
  match s with
  | Follower => "Follower"
  | Candidate => "Candidate"
  | Leader => "Leader"
  | Dead => "Dead"
  end.

Record LogEntry (Cmd : Type) := mkLogEntry {
  Command : option Cmd;
  Term : Z;
  Index : Z
}.
Arguments mkLogEntry {Cmd}.
Arguments Command {Cmd}. Arguments Term {Cmd}. Arguments Index {Cmd}.

#[export] Instance LogEntry_eq_dec `{EqDecision Cmd} : EqDecision (LogEntry Cmd).
Proof. solve_decision. Defined.

#[export] Instance LogEntry_countable `{Countable Cmd} : Countable (LogEntry Cmd).
Proof.
  apply (inj_countable' (fun e => (Command e, Term e, Index e))
           (fun '(c, t, i) => mkLogEntry c t i)).
  by intros [].
Defined.

(** The zero value of a [LogEntry]. *)
Definition zeroEntry {Cmd} : LogEntry Cmd := mkLogEntry None 0 0.

Record Raft (Cmd : Type) := mkRaft {
  peers : nat;
  persister : Persister;
  me : Z;
  dead : Z;
  currentTerm : Z;
  voteFor : Z;
  log : list (LogEntry Cmd);
  state : RuleState;
  commitIndex : Z;
  lastApplied : Z;
  nextIndex : list Z;
  matchIndex : list Z;
  electionStartTime : Z
}.
Arguments mkRaft {Cmd}.
Arguments peers {Cmd}. Arguments persister {Cmd}. Arguments me {Cmd}.
Arguments dead {Cmd}. Arguments currentTerm {Cmd}. Arguments voteFor {Cmd}.
Arguments log {Cmd}. Arguments state {Cmd}. Arguments commitIndex {Cmd}.
Arguments lastApplied {Cmd}. Arguments nextIndex {Cmd}.
Arguments matchIndex {Cmd}. Arguments electionStartTime {Cmd}.

(** Field assignments [rf.f = x]. *)
Definition set_persister {Cmd} (x : Persister) (rf : Raft Cmd) : Raft Cmd := {|
  peers := peers rf; persister := x; me := me rf; dead := dead rf;
  currentTerm := currentTerm rf; voteFor := voteFor rf; log := log rf;
  state := state rf; commitIndex := commitIndex rf;
  lastApplied := lastApplied rf; nextIndex := nextIndex rf;
  matchIndex := matchIndex rf; electionStartTime := electionStartTime rf |}.

Definition set_dead {Cmd} (x : Z) (rf : Raft Cmd) : Raft Cmd := {|
  peers := peers rf; persister := persister rf; me := me rf; dead := x;
  currentTerm := currentTerm rf; voteFor := voteFor rf; log := log rf;
  state := state rf; commitIndex := commitIndex rf;
  lastApplied := lastApplied rf; nextIndex := nextIndex rf;
  matchIndex := matchIndex rf; electionStartTime := electionStartTime rf |}.

Definition set_currentTerm {Cmd} (x : Z) (rf : Raft Cmd) : Raft Cmd := {|
  peers := peers rf; persister := persister rf; me := me rf; dead := dead rf;
  currentTerm := x; voteFor := voteFor rf; log := log rf; state := state rf;
  commitIndex := commitIndex rf; lastApplied := lastApplied rf;
  nextIndex := nextIndex rf; matchIndex := matchIndex rf;
  electionStartTime := electionStartTime rf |}.

Definition set_voteFor {Cmd} (x : Z) (rf : Raft Cmd) : Raft Cmd := {|
  peers := peers rf; persister := persister rf; me := me rf; dead := dead rf;
  currentTerm := currentTerm rf; voteFor := x; log := log rf;
  state := state rf; commitIndex := commitIndex rf;
  lastApplied := lastApplied rf; nextIndex := nextIndex rf;
  matchIndex := matchIndex rf; electionStartTime := electionStartTime rf |}.

Definition set_log {Cmd} (x : list (LogEntry Cmd)) (rf : Raft Cmd) : Raft Cmd := {|
  peers := peers rf; persister := persister rf; me := me rf; dead := dead rf;
  currentTerm := currentTerm rf; voteFor := voteFor rf; log := x;
  state := state rf; commitIndex := commitIndex rf;
  lastApplied := lastApplied rf; nextIndex := nextIndex rf;
  matchIndex := matchIndex rf; electionStartTime := electionStartTime rf |}.

Definition set_state {Cmd} (x : RuleState) (rf : Raft Cmd) : Raft Cmd := {|
  peers := peers rf; persister := persister rf; me := me rf; dead := dead rf;
  currentTerm := currentTerm rf; voteFor := voteFor rf; log := log rf;
  state := x; commitIndex := commitIndex rf; lastApplied := lastApplied rf;
  nextIndex := nextIndex rf; matchIndex := matchIndex rf;
  electionStartTime := electionStartTime rf |}.

Definition set_commitIndex {Cmd} (x : Z) (rf : Raft Cmd) : Raft Cmd := {|
  peers := peers rf; persister := persister rf; me := me rf; dead := dead rf;
  currentTerm := currentTerm rf; voteFor := voteFor rf; log := log rf;
  state := state rf; commitIndex := x; lastApplied := lastApplied rf;
  nextIndex := nextIndex rf; matchIndex := matchIndex rf;
  electionStartTime := electionStartTime rf |}.

Definition set_lastApplied {Cmd} (x : Z) (rf : Raft Cmd) : Raft Cmd := {|
  peers := peers rf; persister := persister rf; me := me rf; dead := dead rf;
  currentTerm := currentTerm rf; voteFor := voteFor rf; log := log rf;
  state := state rf; commitIndex := commitIndex rf; lastApplied := x;
  nextIndex := nextIndex rf; matchIndex := matchIndex rf;
  electionStartTime := electionStartTime rf |}.

Definition set_nextIndex {Cmd} (x : list Z) (rf : Raft Cmd) : Raft Cmd := {|
  peers := peers rf; persister := persister rf; me := me rf; dead := dead rf;
  currentTerm := currentTerm rf; voteFor := voteFor rf; log := log rf;
  state := state rf; commitIndex := commitIndex rf;
  lastApplied := lastApplied rf; nextIndex := x; matchIndex := matchIndex rf;
  electionStartTime := electionStartTime rf |}.

Definition set_matchIndex {Cmd} (x : list Z) (rf : Raft Cmd) : Raft Cmd := {|
  peers := peers rf; persister := persister rf; me := me rf; dead := dead rf;
  currentTerm := currentTerm rf; voteFor := voteFor rf; log := log rf;
  state := state rf; commitIndex := commitIndex rf;
  lastApplied := lastApplied rf; nextIndex := nextIndex rf; matchIndex := x;
  electionStartTime := electionStartTime rf |}.

Definition set_electionStartTime {Cmd} (x : Z) (rf : Raft Cmd) : Raft Cmd := {|
  peers := peers rf; persister := persister rf; me := me rf; dead := dead rf;
  currentTerm := currentTerm rf; voteFor := voteFor rf; log := log rf;
  state := state rf; commitIndex := commitIndex rf;
  lastApplied := lastApplied rf; nextIndex := nextIndex rf;
  matchIndex := matchIndex rf; electionStartTime := x |}.
Record InstallSnapshotArgs := mkInstallSnapshotArgs {
  isTerm : Z;
  isLeaderId : Z;
  isLastIncludedIndex : Z;
  isLastIncludedTerm : Z;
  isSnapshot : bytes
}.

Record InstallSnapshotReply := mkInstallSnapshotReply { isrTerm : Z }.

Record RequestVoteArgs := mkRequestVoteArgs {
  rvTerm : Z;
  rvCandidateId : Z;
  rvLastLogIndex : Z;
  rvLastLogTerm : Z
}.

Record RequestVoteReply := mkRequestVoteReply {
  rvrTerm : Z;
  rvrVoteGranted : bool
}.

Record AppendEntriesArgs (Cmd : Type) := mkAppendEntriesArgs {
  aeTerm : Z;
  aeLeaderId : Z;
  aePrevLogIndex : Z;
  aePrevLogTerm : Z;
  aeEntries : list (LogEntry Cmd);
  aeLeaderCommit : Z
}.
Arguments mkAppendEntriesArgs {Cmd}.
Arguments aeTerm {Cmd}. Arguments aeLeaderId {Cmd}.
Arguments aePrevLogIndex {Cmd}. Arguments aePrevLogTerm {Cmd}.
Arguments aeEntries {Cmd}. Arguments aeLeaderCommit {Cmd}.

Record AppendEntriesReply := mkAppendEntriesReply {
  aerTerm : Z;
  aerSuccess : bool;
  aerConflictIndex : Z;
  aerConflictTerm : Z
}.

(** What a handler does besides updating its [Raft]: the goroutines it starts,
    the condition variable it signals, the message it sends to the service.  A
    message is sent after [rf.mu] is released: [EffApply m] leaves [m] with the
    goroutine that will send it. *)
Inductive Effect (Cmd : Type) :=
| EffTicker (s : RuleState)
| EffRequestVote (server : Z) (args : RequestVoteArgs)
| EffReplicate (server : Z) (term : Z)
| EffApplyLoop
| EffSignal
| EffApply (m : ApplyMsg Cmd).
Arguments EffTicker {Cmd}. Arguments EffRequestVote {Cmd}.
Arguments EffReplicate {Cmd}. Arguments EffApplyLoop {Cmd}.
Arguments EffSignal {Cmd}. Arguments EffApply {Cmd}.
