(* ===== verification/RaftLog.v ===== *)
(** The replicated log that raft.go maintains, as an abstract transition system.

    The system keeps what the safety argument of Raft is about and nothing of
    the code: for each peer its term and its log from index 1 on; for each term
    that has a leader the log of that leader and the peers that elected it; which
    prefix of a leader's log each peer has stored and acknowledged; and with which
    log a candidate stood.  [RaftRefine] shows that every action of the cluster
    of [RaftCluster] is a sequence of these steps.

    One detail comes from raft.go: [InstallSnapshot] keeps the entries behind the
    snapshot even when the entry at the snapshot's index conflicts with it.  The
    log of such a peer is a sound prefix [plog] followed by the tail of another
    log [pstale].  The invariant says such tails are harmless: they are older
    than a committed entry, so the peer cannot win an election with them. *)

From S2P Require Import Prelude RaftTypes.
Local Open Scope Z_scope.

(** * Prefixes of logs *)

Section prefixes.
Context {A : Type}.
Implicit Types (l x y : list A).

(** The entries with index at most [k]. *)
Definition upto l (k : Z) : list A := take (Z.to_nat k) l.

Lemma upto_prefix l k : upto l k `prefix_of` l.
Proof. apply prefix_take. Qed.

Lemma upto_upto l j k : j <= k -> upto (upto l k) j = upto l j.
Proof. intros. unfold upto. rewrite take_take. f_equal. lia. Qed.

Lemma upto_ge l k : zlen l <= k -> upto l k = l.
Proof. unfold zlen, upto. intros. apply take_ge. lia. Qed.

Lemma zlen_upto l k : 0 <= k <= zlen l -> zlen (upto l k) = k.
Proof. apply zlen_take. Qed.

Lemma zlen_prefix x y : x `prefix_of` y -> zlen x <= zlen y.
Proof. intros ?%prefix_length. unfold zlen. lia. Qed.

Lemma prefix_upto x y k : x `prefix_of` y -> zlen x <= k -> x `prefix_of` upto y k.
Proof.
  intros [z ->] Hk. unfold upto. rewrite take_app_ge by (unfold zlen in Hk; lia).
  by apply prefix_app_r.
Qed.

Lemma upto_of_prefix x y j : x `prefix_of` y -> j <= zlen x -> upto x j = upto y j.
Proof. intros [z ->] Hj. unfold upto. rewrite take_app_le; [done|unfold zlen in Hj; lia]. Qed.

Lemma prefix_is_upto x y : x `prefix_of` y -> x = upto y (zlen x).
Proof. intros H. rewrite <- (upto_of_prefix x y) by (done || lia). by rewrite upto_ge. Qed.

(** A shorter prefix of the same log is a prefix. *)
Lemma upto_prefix_of l j k x : j <= k -> upto l k `prefix_of` x -> upto l j `prefix_of` x.
Proof. intros Hj H. rewrite <- (upto_upto l j k) by done. etrans; [apply upto_prefix|done]. Qed.

Lemma index_prefix x y k : x `prefix_of` y -> k < zlen x -> x.[k] = y.[k].
Proof. intros [z ->] Hk. by rewrite go_index_app_l. Qed.

Lemma index_upto l k i : i < k -> (upto l k).[i] = l.[i].
Proof. apply go_index_take. Qed.
End prefixes.

Section terms.
Context {Cmd : Type}.
Implicit Types (l x y : list (LogEntry Cmd)).

(** The term of index [k], 0 where there is no entry. *)
Definition tm l (k : Z) : Z := default 0 (Term <$> l.[k - 1]).

Lemma tm_prefix x y k : x `prefix_of` y -> k <= zlen x -> tm x k = tm y k.
Proof. intros. unfold tm. by rewrite (index_prefix x y) by (done || lia). Qed.

Lemma tm_upto l j k : j <= k -> tm (upto l k) j = tm l j.
Proof. intros. unfold tm. by rewrite index_upto by lia. Qed.

Lemma tm_at l k e : l.[k] = Some e -> tm l (k + 1) = Term e.
Proof. intros H. unfold tm. replace (k + 1 - 1) with k by lia. by rewrite H. Qed.

Lemma tm_in l k : 1 <= k <= zlen l -> exists e, l.[k - 1] = Some e /\ tm l k = Term e.
Proof.
  intros. destruct (go_index_is_Some l (k - 1)) as [e He]; [lia|]. exists e. split; [done|].
  unfold tm. by rewrite He.
Qed.
End terms.

(** * States *)

Record Peer (Cmd : Type) := mkPeer {
  pterm : Z;
  plog : list (LogEntry Cmd);
  pstale : option (list (LogEntry Cmd))
}.
Arguments mkPeer {Cmd}. Arguments pterm {Cmd}. Arguments plog {Cmd}. Arguments pstale {Cmd}.

Record Spec (Cmd : Type) := mkSpec {
  peer : Z -> Peer Cmd;
  elog : gmap Z (list (LogEntry Cmd));
  voters : Z -> gset Z;
  ackd : Z -> Z -> Z;
  cand : gmap (Z * Z) (list (LogEntry Cmd) * option (list (LogEntry Cmd)));
  ballots : gset (Z * Z * Z)
}.
Arguments mkSpec {Cmd}. Arguments peer {Cmd}. Arguments elog {Cmd}. Arguments voters {Cmd}.
Arguments ackd {Cmd}. Arguments cand {Cmd}. Arguments ballots {Cmd}.

(** The update of a function at one point. *)
Definition fupd {A} (f : Z -> A) (i : Z) (x : A) : Z -> A :=
  fun j => if decide (j = i) then x else f j.

Lemma fupd_eq {A} (f : Z -> A) i x : fupd f i x i = x.
Proof. unfold fupd. by rewrite decide_True. Qed.
Lemma fupd_ne {A} (f : Z -> A) i x j : j <> i -> fupd f i x j = f j.
Proof. intros. unfold fupd. by rewrite decide_False. Qed.

Section spec.
Context {Cmd : Type} (n : nat).
Abbreviation elist := (list (LogEntry Cmd)).
Implicit Types (s : Spec Cmd) (l g x : elist) (o : option elist) (p : Peer Cmd).
Implicit Types (T t k v c L : Z) (Q : gset Z).

(** Last index and term of a log with a tail of [o], as [RequestVote] compares
    them. *)
Definition lastidx g o : Z := zlen (default g o).
Definition lastterm g o : Z := tm (default g o) (lastidx g o).

Definition set_peer v p s : Spec Cmd :=
  mkSpec (fupd (peer s) v p) (elog s) (voters s) (ackd s) (cand s) (ballots s).
Definition set_ack T v k s : Spec Cmd :=
  mkSpec (peer s) (elog s) (voters s) (fupd (ackd s) T (fupd (ackd s T) v (Z.max (ackd s T v) k)))
    (cand s) (ballots s).
Definition set_elog T l s : Spec Cmd :=
  mkSpec (peer s) (<[T := l]> (elog s)) (voters s) (ackd s) (cand s) (ballots s).
Definition set_voters T Q s : Spec Cmd :=
  mkSpec (peer s) (elog s) (fupd (voters s) T Q) (ackd s) (cand s) (ballots s).
Definition add_ballot b s : Spec Cmd :=
  mkSpec (peer s) (elog s) (voters s) (ackd s) (cand s) ({[b]} ∪ ballots s).
Definition set_cand (key : Z * Z) (go : elist * option elist) s : Spec Cmd :=
  mkSpec (peer s) (elog s) (voters s) (ackd s) (<[key := go]> (cand s)) (ballots s).

(** ** Predicates *)

(** Every entry of [l] was created by the leader of its term, and [l] agrees
    with that leader's log up to it. *)
Definition genuine s l : Prop := forall k e, l.[k] = Some e ->
  0 < Term e /\ Index e = k + 1 /\
  exists l', elog s !! Term e = Some l' /\ upto l (k + 1) `prefix_of` l'.

(** Index [k] of the log of leader [T] is an entry of term [T]. *)
Definition led s T k : Prop :=
  exists l, elog s !! T = Some l /\ 1 <= k <= zlen l /\ tm l k = T.

(** [x] contains the first [k] entries of leader [T]. *)
Definition holds s T k x : Prop :=
  exists l, elog s !! T = Some l /\ k <= zlen l /\ upto l k `prefix_of` x.

(** A majority stored index [k] in term [T]. *)
Definition chosen s T k : Prop :=
  led s T k /\ exists Q, quorum n Q /\ forall v, v ∈ Q -> k <= ackd s T v.

(** A majority has left term [T] without storing index [k]: it can never be
    chosen in term [T]. *)
Definition blocked s T k : Prop :=
  exists Q, quorum n Q /\ forall v, v ∈ Q -> T < pterm (peer s v) /\ ackd s T v < k.

(** What a peer keeps of what it stored. *)
Definition kept s T v k : Prop :=
  holds s T k (plog (peer s v)) /\
  forall x, pstale (peer s v) = Some x -> T <= tm x (zlen (plog (peer s v)) + 1).

(** A stale tail follows a chosen prefix it does not belong to. *)
Definition stale_ok s (t : Z) g x : Prop :=
  genuine s x /\ zlen g < zlen x /\ upto x (zlen g) <> g /\
  exists S k, chosen s S k /\ S <= t /\ zlen g <= k /\ holds s S (zlen g) g.

(** The candidate's log is at least as good as index [k] of leader [T]. *)
Definition covers g o T k : Prop :=
  T < lastterm g o \/ (T = lastterm g o /\ k <= lastidx g o).

(** ** Steps *)

Inductive spec_step : Spec Cmd -> Spec Cmd -> Prop :=
| s_term s v t :
    pterm (peer s v) <= t ->
    spec_step s (set_peer v (mkPeer t (plog (peer s v)) (pstale (peer s v))) s)
| s_stand s v :
    let p := peer s v in let t := pterm p + 1 in
    spec_step s (add_ballot (t, v, v) (set_cand (t, v) (plog p, pstale p)
      (set_peer v (mkPeer t (plog p) (pstale p)) s)))
| s_vote s v c g o :
    let p := peer s v in
    cand s !! (pterm p, c) = Some (g, o) ->
    lastterm (plog p) (pstale p) < lastterm g o \/
      (lastterm g o = lastterm (plog p) (pstale p) /\ lastidx (plog p) (pstale p) <= lastidx g o) ->
    spec_step s (add_ballot (pterm p, v, c) s)
| s_win s t c g o Q :
    elog s !! t = None -> cand s !! (t, c) = Some (g, o) ->
    quorum n Q -> (forall v, v ∈ Q -> (t, v, c) ∈ ballots s) ->
    spec_step s (set_voters t Q (set_elog t g s))
| s_append s c l e :
    let t := pterm (peer s c) in
    elog s !! t = Some l -> peer s c = mkPeer t l None ->
    Term e = t -> Index e = zlen l + 1 ->
    spec_step s (set_ack t c (zlen l + 1) (set_elog t (l ++ [e])
      (set_peer c (mkPeer t (l ++ [e]) None) s)))
| s_ack s v l m :
    let t := pterm (peer s v) in
    elog s !! t = Some l -> 0 <= m <= zlen l ->
    upto l m `prefix_of` plog (peer s v) -> pstale (peer s v) = None ->
    spec_step s (set_ack t v m s)
| s_adopt s v l m :
    let t := pterm (peer s v) in
    elog s !! t = Some l -> 0 <= m <= zlen l ->
    ~ upto l m `prefix_of` plog (peer s v) ->
    spec_step s (set_ack t v m (set_peer v (mkPeer t (upto l m) None) s))
| s_install s v S k l L o :
    let p := peer s v in let old := default (plog p) (pstale p) in
    chosen s S k -> S <= pterm p -> elog s !! S = Some l -> 1 <= L <= k ->
    ~ upto l L `prefix_of` plog p ->
    o = (if decide (zlen old <= L) then None else Some old) ->
    spec_step s (set_peer v (mkPeer (pterm p) (upto l L) o) s).

(** ** The invariant *)

Record spec_inv s : Prop := {
  v_pos : forall v, 0 <= pterm (peer s v);
  v_epos : forall T l, elog s !! T = Some l -> 0 < T;
  v_elog : forall T l, elog s !! T = Some l ->
    genuine s l /\ forall k e, l.[k] = Some e -> Term e <= T;
  v_plog : forall v, genuine s (plog (peer s v)) /\
    forall k e, (plog (peer s v)).[k] = Some e -> Term e <= pterm (peer s v);
  v_stale : forall v x, pstale (peer s v) = Some x ->
    stale_ok s (pterm (peer s v)) (plog (peer s v)) x;
  v_voters : forall T l, elog s !! T = Some l ->
    quorum n (voters s T) /\ forall v, v ∈ voters s T -> T <= pterm (peer s v);
  v_ack : forall T v, 0 < ackd s T v -> T <= pterm (peer s v) /\
    exists l, elog s !! T = Some l /\ ackd s T v <= zlen l;
  v_kept : forall T v k, led s T k -> k <= ackd s T v -> blocked s T k \/ kept s T v k;
  (* leader completeness: what may still be chosen is in every later leader's log *)
  v_lc : forall T T' k l', T < T' -> led s T k -> elog s !! T' = Some l' ->
    holds s T k l' \/ blocked s T k;
  v_cand : forall t c g o, cand s !! (t, c) = Some (g, o) ->
    0 < t <= pterm (peer s c) /\ genuine s g /\
    (forall k e, g.[k] = Some e -> Term e < t) /\
    (forall x, o = Some x -> stale_ok s (t - 1) g x);
  v_ballot : forall t v c, (t, v, c) ∈ ballots s -> t <= pterm (peer s v) /\
    exists g o, cand s !! (t, c) = Some (g, o) /\
    forall T k, T < t -> led s T k -> k <= ackd s T v -> blocked s T k \/ covers g o T k
}.

(** ** Growth

    Steps only add: terms and acknowledgements grow, leader logs are extended,
    and a peer never acknowledges in a term it has left. *)

Record grows s s' : Prop := {
  gr_term : forall v, pterm (peer s v) <= pterm (peer s' v);
  gr_elog : forall T l, elog s !! T = Some l -> exists l', elog s' !! T = Some l' /\ l `prefix_of` l';
  gr_ack : forall T v, ackd s T v <= ackd s' T v;
  gr_left : forall T v, T < pterm (peer s v) -> ackd s' T v = ackd s T v
}.

Section growth.
Context (s s' : Spec Cmd) (G : grows s s').

Lemma genuine_grows l : genuine s l -> genuine s' l.
Proof using G.
  intros H k e Hk. destruct (H k e Hk) as (? & ? & l' & Hl & Hp). split_and!; [done|done|].
  destruct (gr_elog _ _ G _ _ Hl) as (l'' & Hl' & Hp'). exists l''. split; [done|]. by etrans.
Qed.

Lemma led_grows T k : led s T k -> led s' T k.
Proof using G.
  intros (l & Hl & Hk & Ht). destruct (gr_elog _ _ G _ _ Hl) as (l' & Hl' & Hp).
  pose proof (zlen_prefix _ _ Hp). exists l'. split_and!; [done|lia|lia|].
  by rewrite <- (tm_prefix l l') by (done || lia).
Qed.

Lemma holds_grows T k x : holds s T k x -> holds s' T k x.
Proof using G.
  intros (l & Hl & Hk & Hp). destruct (gr_elog _ _ G _ _ Hl) as (l' & Hl' & Hp').
  pose proof (zlen_prefix _ _ Hp'). exists l'. split_and!; [done|lia|].
  by rewrite <- (upto_of_prefix l l').
Qed.

Lemma blocked_grows T k : blocked s T k -> blocked s' T k.
Proof using G.
  intros (Q & HQ & H). exists Q. split; [done|]. intros v Hv. destruct (H v Hv) as [H1 H2].
  pose proof (gr_term _ _ G v). rewrite (gr_left _ _ G) by done. split; lia.
Qed.

Lemma chosen_grows T k : chosen s T k -> chosen s' T k.
Proof using G.
  intros (Hl & Q & HQ & H). split; [by apply led_grows|]. exists Q. split; [done|].
  intros v Hv. specialize (H v Hv). pose proof (gr_ack _ _ G T v). lia.
Qed.

Lemma stale_ok_grows t g x : stale_ok s t g x -> stale_ok s' t g x.
Proof using G.
  intros (? & ? & ? & S & k & ? & ? & ? & ?).
  split_and!; [by apply genuine_grows|done|done|]. exists S, k.
  split_and!; [by apply chosen_grows|done|done|by apply holds_grows].
Qed.
End growth.

Lemma stale_ok_le s t t' g x : t <= t' -> stale_ok s t g x -> stale_ok s t' g x.
Proof.
  intros Ht (? & ? & ? & S & k & ? & ? & ? & ?). split_and!; try done. exists S, k.
  split_and!; try done. lia.
Qed.

(** ** Consequences of the invariant *)

Section facts.
Context (s : Spec Cmd) (I : spec_inv s).

Lemma led_in T k : led s T k -> exists l, elog s !! T = Some l /\ 1 <= k <= zlen l /\ tm l k = T /\ 0 < T.
Proof using I. intros (l & Hl & Hk & Ht). exists l. split_and!; try done; try lia. by eapply v_epos. Qed.

(** Terms grow along a log. *)
Lemma genuine_sorted l j k :
  genuine s l -> 1 <= j <= k -> k <= zlen l -> tm l j <= tm l k.
Proof using I.
  intros Hg Hj Hk. destruct (tm_in l k) as (e & He & ->); [lia|].
  destruct (Hg _ _ He) as (_ & _ & l' & Hl' & Hp).
  replace (k - 1 + 1) with k in Hp by lia.
  rewrite <- (tm_upto l j k) by lia.
  assert (zlen (upto l k) = k) as Hz by (apply zlen_upto; lia).
  rewrite (tm_prefix _ l' j Hp) by lia. pose proof (zlen_prefix _ _ Hp).
  destruct (tm_in l' j) as (e' & He' & ->); [lia|]. by eapply (proj2 (v_elog _ I _ _ Hl')).
Qed.

(** Log matching: two logs with the same term at an index agree up to it. *)
Lemma log_matching l1 l2 k :
  genuine s l1 -> genuine s l2 -> 1 <= k <= zlen l1 -> k <= zlen l2 -> tm l1 k = tm l2 k ->
  upto l1 k = upto l2 k.
Proof using I.
  intros G1 G2 Hk1 Hk2 Ht. destruct (tm_in l1 k) as (e1 & E1 & T1); [lia|].
  destruct (tm_in l2 k) as (e2 & E2 & T2); [lia|].
  destruct (G1 _ _ E1) as (_ & _ & l & Hl & P1). destruct (G2 _ _ E2) as (_ & _ & l' & Hl' & P2).
  assert (l' = l) as -> by congruence. replace (k - 1 + 1) with k in * by lia.
  apply prefix_is_upto in P1, P2. rewrite zlen_upto in P1, P2 by lia. congruence.
Qed.

Lemma chosen_not_blocked T k : chosen s T k -> blocked s T k -> False.
Proof using I.
  intros (_ & Q1 & HQ1 & H1) (Q2 & HQ2 & H2). destruct (quorum_meet _ _ _ HQ1 HQ2) as (v & V1 & V2).
  specialize (H1 v V1). destruct (H2 v V2). lia.
Qed.

(** Leader completeness. *)
Lemma chosen_in_leader T k T' l' :
  chosen s T k -> T <= T' -> elog s !! T' = Some l' -> holds s T k l'.
Proof using I.
  intros Hc HT Hl'. destruct (decide (T = T')) as [->|].
  - destruct (led_in _ _ (proj1 Hc)) as (l & Hl & Hk & _). assert (l' = l) as -> by congruence.
    exists l. split_and!; [done|lia|apply upto_prefix].
  - destruct (v_lc _ I T T' k l') as [H|H]; [lia|apply Hc|done|done|].
    by destruct (chosen_not_blocked T k).
Qed.

(** Two chosen indices belong to one log. *)
Lemma chosen_agree T k T' k' l l' j :
  chosen s T k -> chosen s T' k' -> elog s !! T = Some l -> elog s !! T' = Some l' ->
  j <= k -> j <= k' -> upto l j = upto l' j.
Proof using I.
  assert (forall T k T' k' l l', T <= T' -> chosen s T k -> elog s !! T = Some l ->
    elog s !! T' = Some l' -> j <= k -> upto l j = upto l' j) as Hle.
  { intros T0 k0 T1 k1 l0 l1 HT Hc H0 H1 Hj.
    destruct (chosen_in_leader T0 k0 T1 l1 Hc HT H1) as (l2 & H2 & Hk & Hp).
    assert (l2 = l0) as -> by congruence. destruct (led_in _ _ (proj1 Hc)) as (l2 & Hl2 & Hk2 & _).
    rewrite <- (upto_upto l0 j k0) by done. apply upto_of_prefix; [done|].
    rewrite zlen_upto by lia. done. }
  intros Hc Hc' Hl Hl' Hj Hj'. destruct (decide (T <= T')); [by eapply (Hle T k T')|].
  symmetry. eapply (Hle T' k' T); try done. lia.
Qed.

(** A stale tail is older than the term that chose its prefix. *)
Lemma stale_term t g x : stale_ok s t g x ->
  exists S k, chosen s S k /\ S <= t /\ tm x (zlen x) < S.
Proof using I.
  intros (Hx & Hlen & Hne & S & k & Hc & HS & Hk & l & Hl & Hlg & Hp).
  exists S, k. split_and!; try done. destruct (decide (tm x (zlen x) < S)) as [|Hge]; [done|].
  exfalso. apply Hne. pose proof (zlen_nonneg g).
  destruct (tm_in x (zlen x)) as (e & He & Ht); [lia|].
  destruct (Hx _ _ He) as (_ & _ & l' & Hl' & Hp'). replace (zlen x - 1 + 1) with (zlen x) in Hp' by lia.
  rewrite (upto_ge x) in Hp' by lia.
  destruct (chosen_in_leader S k (Term e) l' Hc ltac:(lia) Hl') as (l2 & H2 & _ & Hp2).
  assert (l2 = l) as -> by congruence.
  destruct (led_in _ _ (proj1 Hc)) as (l2 & Hl2 & Hk2 & _). assert (l2 = l) as -> by congruence.
  rewrite (upto_of_prefix x l') by (done || lia).
  rewrite <- (upto_of_prefix (upto l k) l') by (done || (rewrite zlen_upto by lia; lia)).
  rewrite upto_upto by lia. apply prefix_is_upto in Hp. rewrite zlen_upto in Hp by lia.
  by rewrite Hp, upto_ge by lia.
Qed.
End facts.

(** ** Steps of one peer that leave the leader logs alone *)

Definition cand_ok s t c g o : Prop :=
  0 < t <= pterm (peer s c) /\ genuine s g /\
  (forall k e, g.[k] = Some e -> Term e < t) /\
  (forall x, o = Some x -> stale_ok s (t - 1) g x).

Definition ballot_ok s t v c : Prop :=
  t <= pterm (peer s v) /\ exists g o, cand s !! (t, c) = Some (g, o) /\
    forall T k, T < t -> led s T k -> k <= ackd s T v -> blocked s T k \/ covers g o T k.

Lemma holds_same s s' T k x : elog s' = elog s -> holds s' T k x <-> holds s T k x.
Proof. unfold holds. by intros ->. Qed.
Lemma led_same s s' T k : elog s' = elog s -> led s' T k <-> led s T k.
Proof. unfold led. by intros ->. Qed.

Record local_step s s' v : Prop := {
  ls_elog : elog s' = elog s;
  ls_voters : voters s' = voters s;
  ls_peer : forall w, w <> v -> peer s' w = peer s w;
  ls_acks : forall T w, w <> v -> ackd s' T w = ackd s T w;
  ls_term : pterm (peer s v) <= pterm (peer s' v);
  ls_ack : forall T, ackd s T v <= ackd s' T v;
  ls_left : forall T, T <> pterm (peer s v) -> ackd s' T v = ackd s T v;
  ls_cand : cand s ⊆ cand s'
}.

Lemma local_grows s s' v : local_step s s' v -> grows s s'.
Proof.
  intros L. split.
  - intros w. destruct (decide (w = v)) as [->|]; [apply L|]. by rewrite (ls_peer _ _ _ L).
  - intros T l Hl. exists l. by rewrite (ls_elog _ _ _ L).
  - intros T w. destruct (decide (w = v)) as [->|]; [apply L|]. by rewrite (ls_acks _ _ _ L).
  - intros T w Hw. destruct (decide (w = v)) as [->|]; [|by apply L].
    apply (ls_left _ _ _ L). lia.
Qed.

Lemma inv_local s s' v :
  spec_inv s -> local_step s s' v ->
  genuine s (plog (peer s' v)) ->
  (forall k e, (plog (peer s' v)).[k] = Some e -> Term e <= pterm (peer s' v)) ->
  (forall x, pstale (peer s' v) = Some x -> stale_ok s (pterm (peer s' v)) (plog (peer s' v)) x) ->
  (forall T, 0 < ackd s' T v -> T <= pterm (peer s' v) /\
     exists l, elog s !! T = Some l /\ ackd s' T v <= zlen l) ->
  (forall T k, led s T k -> k <= ackd s' T v -> blocked s T k \/ kept s' T v k) ->
  (forall t c g o, cand s' !! (t, c) = Some (g, o) ->
     cand s !! (t, c) = Some (g, o) \/ cand_ok s' t c g o) ->
  (forall t w c, (t, w, c) ∈ ballots s' -> (t, w, c) ∈ ballots s \/ ballot_ok s' t w c) ->
  spec_inv s'.
Proof.
  intros I L Hg Ht Hst Hack Hk Hcand Hbal. pose proof (local_grows _ _ _ L) as G.
  pose proof (ls_elog _ _ _ L) as Ee.
  assert (Hoth : forall w, w <> v -> peer s' w = peer s w /\ forall T, ackd s' T w = ackd s T w)
    by (intros w Hw; split; [by apply L|intros; by apply L]).
  split.
  - intros w. pose proof (gr_term _ _ G w). pose proof (v_pos _ I w). lia.
  - rewrite Ee. apply I.
  - intros T l Hl. rewrite Ee in Hl. destruct (v_elog _ I _ _ Hl). split; [|done].
    by apply (genuine_grows s).
  - intros w. destruct (decide (w = v)) as [->|Hw].
    + split; [by apply (genuine_grows s)|done].
    + destruct (Hoth w Hw) as [-> _]. destruct (v_plog _ I w). split; [by apply (genuine_grows s)|done].
  - intros w x. destruct (decide (w = v)) as [->|Hw].
    + intros Hx. apply (stale_ok_grows s); auto.
    + destruct (Hoth w Hw) as [-> _]. intros Hx. apply (stale_ok_grows s); [done|]. by apply I.
  - intros T l Hl. rewrite Ee in Hl. rewrite (ls_voters _ _ _ L).
    destruct (v_voters _ I _ _ Hl) as [HQ Hv]. split; [done|].
    intros w Hw. specialize (Hv w Hw). pose proof (gr_term _ _ G w). lia.
  - intros T w. rewrite Ee. destruct (decide (w = v)) as [->|Hw]; [apply Hack|].
    destruct (Hoth w Hw) as [-> ->]. apply I.
  - intros T w k Hl Hkw. apply (led_same s) in Hl; [|done].
    assert (blocked s T k \/ kept s' T w k) as [|]; [|left; by apply (blocked_grows s)|by right].
    destruct (decide (w = v)) as [->|Hw]; [by apply Hk|].
    destruct (Hoth w Hw) as [Ew Ea]. rewrite Ea in Hkw.
    destruct (v_kept _ I T w k Hl Hkw) as [|[H1 H2]]; [by left|right].
    split; rewrite Ew; [by apply (holds_same s)|done].
  - intros T T' k l' HT Hl Hl'. rewrite Ee in Hl'. apply (led_same s) in Hl; [|done].
    destruct (v_lc _ I T T' k l' HT Hl Hl'); [left; by apply (holds_same s)|right; by apply (blocked_grows s)].
  - intros t c g o Hc. destruct (Hcand _ _ _ _ Hc) as [Hold|]; [|done].
    destruct (v_cand _ I _ _ _ _ Hold) as (? & ? & ? & ?). pose proof (gr_term _ _ G c).
    split_and!; [lia|lia|by apply (genuine_grows s)|done|].
    intros x Hx. apply (stale_ok_grows s); auto.
  - intros t w c Hb. destruct (Hbal _ _ _ Hb) as [Hold|]; [|done].
    destruct (v_ballot _ I _ _ _ Hold) as (Htw & g & o & Hc & Hcov).
    split; [pose proof (gr_term _ _ G w); lia|]. exists g, o.
    split; [by eapply lookup_weaken; [|apply L]|]. intros T k HT Hl Ha.
    rewrite (gr_left _ _ G) in Ha by lia. apply (led_same s) in Hl; [|done].
    destruct (Hcov T k HT Hl Ha); [left; by apply (blocked_grows s)|by right].
Qed.

(** A peer that only changes its term keeps everything it stored. *)
Lemma kept_log s s' v T k :
  elog s' = elog s -> plog (peer s' v) = plog (peer s v) -> pstale (peer s' v) = pstale (peer s v) ->
  kept s T v k -> kept s' T v k.
Proof. intros Ee El Es [H1 H2]. split; rewrite El; [by apply (holds_same s)|]. by rewrite Es. Qed.

Lemma kept_covers s v T k :
  spec_inv s -> led s T k -> kept s T v k -> covers (plog (peer s v)) (pstale (peer s v)) T k.
Proof.
  intros I Hl [(l & El & Hk & Hp) Hs]. destruct (led_in _ I _ _ Hl) as (l' & El' & Hk' & Htm & H0).
  assert (l' = l) as -> by congruence. pose proof (zlen_prefix _ _ Hp) as Hlen.
  rewrite zlen_upto in Hlen by lia. unfold covers, lastterm, lastidx.
  destruct (pstale (peer s v)) as [x|] eqn:Ex; simpl.
  - destruct (v_stale _ I _ _ Ex) as (Hg & Hgl & _). specialize (Hs x eq_refl).
    pose proof (genuine_sorted s I x (zlen (plog (peer s v)) + 1) (zlen x) Hg). lia.
  - pose proof (genuine_sorted s I _ k (zlen (plog (peer s v))) (proj1 (v_plog _ I v))) as Hm.
    rewrite <- (tm_prefix _ _ k Hp) in Hm by (rewrite zlen_upto; lia).
    rewrite tm_upto in Hm by lia. lia.
Qed.

Lemma peer_set v p s w : peer (set_peer v p s) w = if decide (w = v) then p else peer s w.
Proof. done. Qed.

(** Discharges the frame conditions of [local_step]. *)
Ltac local_frame := split; simpl; intros; unfold fupd;
  repeat (case_decide; simpl); subst; try done; try lia.

Lemma inv_term s v t :
  spec_inv s -> pterm (peer s v) <= t ->
  spec_inv (set_peer v (mkPeer t (plog (peer s v)) (pstale (peer s v))) s).
Proof.
  intros I Ht. set (s' := set_peer _ _ _).
  assert (peer s' v = mkPeer t (plog (peer s v)) (pstale (peer s v))) as E by apply fupd_eq.
  apply (inv_local s s' v I); rewrite ?E; simpl; try done.
  - subst s'. local_frame.
  - apply I.
  - intros k e He. pose proof (proj2 (v_plog _ I v) k e He). lia.
  - intros x Hx. eapply stale_ok_le; [done|]. by apply I.
  - intros T HT. destruct (v_ack _ I T v HT) as [? ?]. split; [lia|done].
  - intros T k Hl Hk. destruct (v_kept _ I T v k Hl Hk) as [|HK]; [by left|right].
    apply (kept_log s); try done; by rewrite E.
  - intros. by left.
  - intros. by left.
Qed.

Lemma inv_stand s v : spec_inv s ->
  spec_inv (add_ballot (pterm (peer s v) + 1, v, v)
    (set_cand (pterm (peer s v) + 1, v) (plog (peer s v), pstale (peer s v))
      (set_peer v (mkPeer (pterm (peer s v) + 1) (plog (peer s v)) (pstale (peer s v))) s))).
Proof.
  intros I. pose proof (inv_term s v (pterm (peer s v) + 1) I ltac:(lia)) as I1.
  set (p := peer s v) in *. set (s1 := set_peer _ _ _) in *. set (s' := add_ballot _ _).
  assert (peer s1 v = mkPeer (pterm p + 1) (plog p) (pstale p)) as E by apply fupd_eq.
  assert (cand s !! (pterm p + 1, v) = None) as Hnone.
  { destruct (cand s !! (pterm p + 1, v)) as [[g o]|] eqn:Ec; [|done].
    pose proof (v_cand _ I _ _ _ _ Ec) as [? _]. subst p. lia. }
  apply (inv_local s1 s' v I1); simpl; try done.
  - split; simpl; intros; try done. by apply insert_subseteq.
  - apply (v_plog _ I1 v).
  - apply (v_plog _ I1 v).
  - apply (v_stale _ I1 v).
  - intros T. apply (v_ack _ I1 T v).
  - intros T k. apply (v_kept _ I1).
  - intros t c g o Hc. apply lookup_insert_Some in Hc as [[[= <- <-] [= <- <-]]|[_ Hc]]; [right|by left].
    pose proof (v_pos _ I v). subst p. split_and!; simpl.
    + lia.
    + rewrite fupd_eq. simpl. lia.
    + apply (v_plog _ I v).
    + intros k e He. pose proof (proj2 (v_plog _ I v) k e He). lia.
    + intros x Hx. replace (pterm (peer s v) + 1 - 1) with (pterm (peer s v)) by lia.
      apply (stale_ok_grows s); [|by apply I].
      apply (local_grows s s' v). subst s' s1. local_frame. by apply insert_subseteq.
  - intros t w c [[= -> -> ->]%elem_of_singleton|Hb]%elem_of_union; [right|by left].
    split; [simpl; rewrite fupd_eq; simpl; lia|]. exists (plog p), (pstale p).
    split; [simpl; by rewrite lookup_insert_eq|]. intros T k HT Hl Hk.
    destruct (v_kept _ I1 T v k Hl Hk) as [|HK]; [by left|right].
    apply (kept_covers s1) in HK; [|done|done]. by rewrite E in HK.
Qed.

Lemma inv_vote s v c g o : spec_inv s ->
  cand s !! (pterm (peer s v), c) = Some (g, o) ->
  lastterm (plog (peer s v)) (pstale (peer s v)) < lastterm g o \/
    (lastterm g o = lastterm (plog (peer s v)) (pstale (peer s v)) /\
     lastidx (plog (peer s v)) (pstale (peer s v)) <= lastidx g o) ->
  spec_inv (add_ballot (pterm (peer s v), v, c) s).
Proof.
  intros I Hc Hup. set (s' := add_ballot _ _).
  apply (inv_local s s' v I); simpl; try done.
  - apply I.
  - apply (v_plog _ I v).
  - apply I.
  - intros T. apply (v_ack _ I T v).
  - intros T k. apply I.
  - intros. by left.
  - intros t w c' [[= -> -> ->]%elem_of_singleton|Hb]%elem_of_union; [right|by left].
    split; [simpl; lia|]. exists g, o. split; [done|]. intros T k HT Hl Hk.
    destruct (v_kept _ I T v k Hl Hk) as [|HK]; [by left|right].
    apply (kept_covers s) in HK; [|done|done]. unfold covers in *. lia.
Qed.

(** Storing entries of the leader of the current term. *)
Lemma ackd_set T v k s T' w :
  ackd (set_ack T v k s) T' w =
  if decide (T' = T /\ w = v) then Z.max (ackd s T v) k else ackd s T' w.
Proof.
  simpl. unfold fupd. destruct (decide (T' = T)) as [->|], (decide (w = v)) as [->|];
    case_decide; naive_solver.
Qed.

Lemma inv_store s s1 v l m p' : spec_inv s ->
  elog s1 = elog s -> voters s1 = voters s -> ackd s1 = ackd s -> cand s1 = cand s ->
  ballots s1 = ballots s -> (forall w, peer s1 w = fupd (peer s) v p' w) ->
  elog s !! pterm (peer s v) = Some l -> 0 <= m <= zlen l ->
  pterm p' = pterm (peer s v) -> pstale p' = None -> upto l m `prefix_of` plog p' ->
  genuine s (plog p') -> (forall k e, (plog p').[k] = Some e -> Term e <= pterm (peer s v)) ->
  (forall T k, led s T k -> T <= pterm (peer s v) -> holds s T k (plog (peer s v)) ->
     blocked s T k \/ holds s T k (plog p')) ->
  spec_inv (set_ack (pterm (peer s v)) v m s1).
Proof.
  intros I E1 E2 E3 E4 E5 E6 Hl Hm Et Es Hp Hg Hle Hkeep. set (t := pterm (peer s v)) in *.
  set (s' := set_ack _ _ _ _). assert (peer s' v = p') as E by (simpl; by rewrite E6, fupd_eq).
  assert (forall T w, ackd s' T w = if decide (T = t /\ w = v) then Z.max (ackd s t v) m else ackd s T w)
    as Ea by (intros; subst s'; by rewrite ackd_set, E3).
  apply (inv_local s s' v I); rewrite ?E; try done.
  - split; simpl; try done.
    + intros w Hw. by rewrite E6, fupd_ne.
    + intros T w Hw. change (ackd s' T w = ackd s T w). rewrite Ea. by rewrite decide_False by tauto.
    + change (pterm (peer s v) <= pterm (peer s' v)). by rewrite E, Et.
    + intros T. change (ackd s T v <= ackd s' T v). rewrite Ea. case_decide as H0; [destruct H0 as [-> _]; lia|done].
    + intros T HT. change (ackd s' T v = ackd s T v). rewrite Ea. by rewrite decide_False by tauto.
    + by rewrite E4.
  - by rewrite Et.
  - by rewrite Es.
  - intros T. rewrite Ea, Et. case_decide as H0.
    + destruct H0 as [-> _]. intros _. split; [done|]. exists l. split; [done|].
      destruct (decide (0 < ackd s t v)) as [Hpos|]; [|lia].
      destruct (v_ack _ I t v Hpos) as (_ & l' & Hl' & ?). assert (l' = l) as -> by congruence. lia.
    + intros HT. by apply (v_ack _ I T v).
  - intros T k HL Hk. destruct (led_in _ I _ _ HL) as (l' & El' & Hk' & Htm & H0).
    assert ((T = t /\ k <= m) \/ k <= ackd s T v) as [[-> Hkm]|Hold].
    { rewrite Ea in Hk. case_decide as HH; [destruct HH as [-> _]|]; [|by right].
      destruct (decide (k <= m)); [by left|right; lia]. }
    + right. split; rewrite E; [|by rewrite Es]. apply (holds_same s); [done|].
      assert (l' = l) as -> by congruence. exists l. split_and!; [done|lia|].
      by eapply upto_prefix_of.
    + destruct (v_kept _ I T v k HL Hold) as [|[HK _]]; [by left|].
      destruct (v_ack _ I T v) as [HT _]; [lia|].
      destruct (Hkeep T k HL HT HK) as [|HK']; [by left|right].
      split; rewrite E; [by apply (holds_same s)|by rewrite Es].
  - intros t' c g o Hc. left. simpl in Hc. by rewrite E4 in Hc.
  - intros t' w c Hc. left. simpl in Hc. by rewrite E5 in Hc.
Qed.

Lemma inv_ack s v l m : spec_inv s ->
  elog s !! pterm (peer s v) = Some l -> 0 <= m <= zlen l ->
  upto l m `prefix_of` plog (peer s v) -> pstale (peer s v) = None ->
  spec_inv (set_ack (pterm (peer s v)) v m s).
Proof.
  intros I Hl Hm Hp Hs. eapply (inv_store s s v l m (peer s v)); try done; [|apply I|apply (v_plog _ I v)|by auto].
  intros w. unfold fupd. by case_decide; subst.
Qed.

Lemma genuine_upto s l k : genuine s l -> genuine s (upto l k).
Proof.
  intros H i e Hi. pose proof (go_index_Some_lt _ _ _ Hi) as Hr.
  assert (i < k). { unfold upto, zlen in Hr. rewrite length_take in Hr. lia. }
  rewrite index_upto in Hi by done. destruct (H i e Hi) as (? & ? & l' & ? & ?).
  split_and!; [done|done|]. exists l'. split; [done|]. by rewrite upto_upto by lia.
Qed.

Lemma upto_entry l k i (e : LogEntry Cmd) : (upto l k).[i] = Some e -> l.[i] = Some e.
Proof.
  intros Hi. pose proof (go_index_Some_lt _ _ _ Hi) as Hr.
  assert (i < k). { unfold upto, zlen in Hr. rewrite length_take in Hr. lia. }
  by rewrite index_upto in Hi by done.
Qed.

Lemma inv_adopt s v l m : spec_inv s ->
  elog s !! pterm (peer s v) = Some l -> 0 <= m <= zlen l ->
  ~ upto l m `prefix_of` plog (peer s v) ->
  spec_inv (set_ack (pterm (peer s v)) v m
    (set_peer v (mkPeer (pterm (peer s v)) (upto l m) None) s)).
Proof.
  intros I Hl Hm Hn. destruct (v_elog _ I _ _ Hl) as [Hg Hle].
  eapply (inv_store s); try done.
  - by apply genuine_upto.
  - intros k e ?%upto_entry. by eapply Hle.
  - intros T k HL HT (l0 & Hl0 & Hk0 & Hp0). simpl.
    assert (blocked s T k \/ holds s T k l) as [|(l1 & Hl1 & _ & Hp1)]; [|by left|right].
    { destruct (decide (T = pterm (peer s v))) as [->|]; [right|].
      - exists l0. split_and!; [done|done|]. assert (l = l0) as -> by congruence. apply upto_prefix.
      - destruct (v_lc _ I T (pterm (peer s v)) k l); [lia|done|done|by right|by left]. }
    assert (l1 = l0) as -> by congruence. destruct (led_in _ I _ _ HL) as (l2 & Hl2 & Hk2 & _).
    assert (l2 = l0) as -> by congruence. assert (zlen (upto l0 k) = k) as Hz by (apply zlen_upto; lia).
    exists l0. split_and!; [done|done|]. destruct (decide (k <= m)).
    + apply prefix_upto; [done|lia].
    + exfalso. apply Hn. assert (upto l m = upto l0 m) as ->.
      { rewrite <- (upto_of_prefix (upto l0 k) l m) by (done || lia). by rewrite upto_upto by lia. }
      apply (upto_prefix_of _ _ k); [lia|done].
Qed.

(** ** Installing a snapshot of a chosen prefix *)

(** What is chosen and what a peer kept never contradict each other: a snapshot
    the peer does not already hold extends everything it kept. *)
Lemma install_holds s v S k l L T j : spec_inv s ->
  chosen s S k -> elog s !! S = Some l -> 1 <= L <= k ->
  ~ upto l L `prefix_of` plog (peer s v) -> led s T j -> holds s T j (plog (peer s v)) ->
  blocked s T j \/ (j <= L /\ holds s T j (upto l L)).
Proof.
  intros I Hc Hl HL Hn Hj (l0 & Hl0 & Hj0 & Hp0).
  destruct (led_in _ I _ _ (proj1 Hc)) as (l2 & Hl2 & Hk & _). assert (l2 = l) as -> by congruence.
  destruct (led_in _ I _ _ Hj) as (l2 & Hl2' & Hj1 & _). assert (l2 = l0) as -> by congruence.
  assert (zlen (upto l0 j) = j) as Hz by (apply zlen_upto; lia).
  assert (blocked s T j \/ upto l0 j `prefix_of` l \/ (S < T /\ upto l k `prefix_of` l0))
    as [|Hcase]; [|by left|right].
  { destruct (decide (T <= S)); [|right; right; split; [lia|]].
    - destruct (decide (T = S)) as [->|].
      + right; left. assert (l = l0) as -> by congruence. apply upto_prefix.
      + destruct (v_lc _ I T S j l) as [(l3 & ? & _ & ?)|]; [lia|done|done| |by left].
        right; left. by assert (l3 = l0) as -> by congruence.
    - destruct (chosen_in_leader s I S k T l0 Hc) as (l3 & ? & _ & ?); [lia|done|].
      by assert (l3 = l) as -> by congruence. }
  assert (forall i, i <= j -> i <= k -> upto l i = upto l0 i) as Hagree.
  { intros i Hi Hik. destruct Hcase as [Hp|[_ Hp]].
    - rewrite <- (upto_of_prefix (upto l0 j) l i) by (done || lia). by rewrite upto_upto.
    - rewrite <- (upto_of_prefix (upto l k) l0 i) by (done || (rewrite zlen_upto by lia; lia)).
      by rewrite upto_upto. }
  assert (j <= L) as HjL.
  { destruct (decide (j <= L)); [done|]. exfalso. apply Hn. rewrite (Hagree L) by lia.
    apply (upto_prefix_of _ _ j); [lia|done]. }
  split; [done|]. exists l0. split_and!; [done|done|].
  rewrite <- (Hagree j) by lia. apply prefix_upto; [apply upto_prefix|]. rewrite zlen_upto; lia.
Qed.

(** With a stale tail behind it, the sound prefix is shorter than the snapshot. *)
Lemma install_stale s v S k l L x : spec_inv s ->
  chosen s S k -> elog s !! S = Some l -> 1 <= L <= k ->
  ~ upto l L `prefix_of` plog (peer s v) -> pstale (peer s v) = Some x ->
  zlen (plog (peer s v)) <= L /\ upto l (zlen (plog (peer s v))) = plog (peer s v).
Proof.
  intros I Hc Hl HL Hn Hx.
  destruct (v_stale _ I _ _ Hx) as (_ & _ & _ & S1 & k1 & Hc1 & _ & Hk1 & l1 & Hl1 & Hlen & Hp).
  set (g := plog (peer s v)) in *. pose proof (zlen_nonneg g).
  assert (g = upto l1 (zlen g)) as Hg.
  { apply prefix_is_upto in Hp. rewrite zlen_upto in Hp by lia. rewrite Hp. by rewrite upto_ge. }
  assert (zlen g <= L) as Hle.
  { destruct (decide (zlen g <= L)); [done|]. exfalso. apply Hn.
    rewrite (chosen_agree s I S k S1 k1 l l1 L) by (done || lia).
    rewrite Hg. apply prefix_upto; [apply upto_prefix|].
    destruct (led_in _ I _ _ (proj1 Hc1)) as (l2 & Hl2 & Hk & _). assert (l2 = l1) as -> by congruence.
    rewrite zlen_upto; lia. }
  split; [done|]. rewrite Hg at 2. apply (chosen_agree s I S k S1 k1); try done. lia.
Qed.

Lemma inv_install s v S k l L : spec_inv s ->
  let p := peer s v in let old := default (plog p) (pstale p) in
  chosen s S k -> S <= pterm p -> elog s !! S = Some l -> 1 <= L <= k ->
  ~ upto l L `prefix_of` plog p ->
  spec_inv (set_peer v
    (mkPeer (pterm p) (upto l L) (if decide (zlen old <= L) then None else Some old)) s).
Proof.
  intros I p old Hc HS Hl HL Hn. set (s' := set_peer _ _ _).
  assert (peer s' v = mkPeer (pterm p) (upto l L) (if decide (zlen old <= L) then None else Some old))
    as E by apply fupd_eq.
  destruct (v_elog _ I _ _ Hl) as [Hg Hle].
  destruct (led_in _ I _ _ (proj1 Hc)) as (l2 & Hl2 & Hk & _). assert (l2 = l) as -> by congruence.
  assert (zlen (upto l L) = L) as Hz by (apply zlen_upto; lia).
  apply (inv_local s s' v I); rewrite ?E; simpl; try done.
  - subst s'. local_frame.
  - by apply genuine_upto.
  - intros i e He%upto_entry. pose proof (Hle _ _ He). subst p. lia.
  - intros x Hx. case_decide as Hd; [done|]. injection Hx as <-. unfold stale_ok. rewrite Hz. subst old p.
    split_and!; [|lia| |].
    + destruct (pstale (peer s v)) eqn:Ex; simpl; [by apply (v_stale _ I _ _ Ex)|apply I].
    + destruct (pstale (peer s v)) as [x|] eqn:Ex; simpl in *.
      * destruct (install_stale s v S k l L x) as [Hgl Hgu]; try done.
        destruct (v_stale _ I _ _ Ex) as (_ & _ & Hne & _). intros Heq. apply Hne.
        rewrite <- (upto_upto x (zlen (plog (peer s v))) L) by done. rewrite Heq.
        by rewrite upto_upto.
      * intros Heq. apply Hn. rewrite <- Heq. apply upto_prefix.
    + exists S, k. split_and!; [done|done|lia|]. exists l. split_and!; [done|lia|done].
  - intros T HT. by apply (v_ack _ I T v).
  - intros T j Hj Ha. destruct (v_kept _ I T v j Hj Ha) as [|[HK HS']]; [by left|].
    destruct (install_holds s v S k l L T j) as [|[HjL HK']]; try done; [by left|right].
    split; rewrite E; simpl; [by apply (holds_same s)|].
    intros x Hx. case_decide as Hd; [done|]. injection Hx as <-. rewrite Hz. subst old p.
    destruct (pstale (peer s v)) as [x|] eqn:Ex; simpl in *.
    + destruct (install_stale s v S k l L x) as [Hgl Hgu]; try done.
      specialize (HS' x eq_refl). destruct (v_stale _ I _ _ Ex) as (Hgx & _).
      pose proof (zlen_nonneg (plog (peer s v))).
      pose proof (genuine_sorted s I x (zlen (plog (peer s v)) + 1) (L + 1) Hgx). lia.
    + destruct HK as (l0 & Hl0 & Hj0 & Hp0).
      destruct (led_in _ I _ _ Hj) as (l3 & Hl3 & Hj3 & Htm & _). assert (l3 = l0) as -> by congruence.
      pose proof (genuine_sorted s I _ j (L + 1) (proj1 (v_plog _ I v)) ltac:(lia)) as Hm.
      rewrite <- (tm_prefix _ _ j Hp0), tm_upto in Hm by (rewrite ?zlen_upto; lia). lia.
  - intros. by left.
  - intros. by left.
Qed.

(** ** Winning an election *)

(** A candidate with a stale tail does not win: its voters include one that
    stored a newer entry. *)
Lemma win_clean s t c g o Q : spec_inv s ->
  cand s !! (t, c) = Some (g, o) -> quorum n Q -> (forall v, v ∈ Q -> (t, v, c) ∈ ballots s) ->
  o = None.
Proof.
  intros I Hc HQ Hb. destruct o as [x|]; [exfalso|done].
  destruct (v_cand _ I _ _ _ _ Hc) as (_ & _ & _ & Hst).
  destruct (stale_term s I _ _ _ (Hst x eq_refl)) as (S & k & Hch & HS & Hlt).
  pose proof (proj2 Hch) as (Q' & HQ' & Hk).
  destruct (quorum_meet _ _ _ HQ HQ') as (v & V1 & V2).
  destruct (v_ballot _ I _ _ _ (Hb v V1)) as (_ & g' & o' & Hc' & Hcov).
  rewrite Hc in Hc'. injection Hc' as <- <-.
  destruct (Hcov S k ltac:(lia) (proj1 Hch) (Hk v V2)) as [Hbl|Hcv].
  - by destruct (chosen_not_blocked s I S k).
  - unfold covers, lastterm, lastidx in Hcv. simpl in Hcv. lia.
Qed.

(** The new leader has whatever may still be chosen in an earlier term. *)
Lemma win_complete s t c g Q T k : spec_inv s ->
  cand s !! (t, c) = Some (g, None) -> quorum n Q -> (forall v, v ∈ Q -> (t, v, c) ∈ ballots s) ->
  T < t -> led s T k -> holds s T k g \/ blocked s T k.
Proof.
  intros I Hc HQ Hb HT Hl.
  destruct (decide (set_Exists (fun v => k <= ackd s T v) Q)) as [(v & Hv & Hk)|Hno].
  - destruct (v_ballot _ I _ _ _ (Hb v Hv)) as (_ & g' & o' & Hc' & Hcov).
    rewrite Hc in Hc'. injection Hc' as <- <-.
    destruct (Hcov T k HT Hl Hk) as [|Hcv]; [by right|].
    destruct (v_cand _ I _ _ _ _ Hc) as (_ & Hg & Hlt & _).
    destruct (led_in _ I _ _ Hl) as (l & El & Hkl & Htm & H0).
    unfold covers, lastterm, lastidx in Hcv. simpl in Hcv. pose proof (zlen_nonneg g).
    destruct (decide (zlen g = 0)) as [E0|].
    { unfold tm in Hcv. rewrite E0, go_index_neg in Hcv by lia. simpl in Hcv. lia. }
    destruct (tm_in g (zlen g)) as (e & He & Ht); [lia|].
    destruct (Hg _ _ He) as (_ & _ & l2 & Hl2 & Hp). replace (zlen g - 1 + 1) with (zlen g) in Hp by lia.
    rewrite upto_ge in Hp by lia. pose proof (zlen_prefix _ _ Hp).
    assert (holds s T k l2 \/ blocked s T k) as [(l3 & Hl3 & _ & Hp3)|]; [|left|by right].
    { destruct (decide (T = Term e)) as [->|].
      - left. exists l. split_and!; [done|lia|]. assert (l2 = l) as -> by congruence. apply upto_prefix.
      - apply (v_lc _ I T (Term e) k l2); [lia|done|done]. }
    assert (l3 = l) as -> by congruence. exists l. split_and!; [done|lia|].
    assert (zlen (upto l k) = k) as Hz by (apply zlen_upto; lia).
    assert (k <= zlen g) as Hkg.
    { destruct Hcv as [Hcv|[_ Hcv]]; [|done]. destruct (decide (k <= zlen g)); [done|].
      pose proof (genuine_sorted s I l2 (zlen g) k (proj1 (v_elog _ I _ _ Hl2)) ltac:(lia)) as Hm.
      pose proof (zlen_prefix _ _ Hp3). rewrite <- (tm_prefix g l2) in Hm by (done || lia).
      rewrite <- (tm_prefix _ l2 k Hp3), tm_upto in Hm by lia. lia. }
    rewrite (prefix_is_upto _ _ Hp3), Hz. rewrite <- (upto_of_prefix g l2) by done. apply upto_prefix.
  - right. exists Q. split; [done|]. intros v Hv.
    destruct (v_ballot _ I _ _ _ (Hb v Hv)) as (Ht & _). split; [lia|].
    destruct (decide (ackd s T v < k)); [done|]. exfalso. apply Hno. exists v. split; [done|]. lia.
Qed.

Lemma inv_win s t c g o Q : spec_inv s ->
  elog s !! t = None -> cand s !! (t, c) = Some (g, o) ->
  quorum n Q -> (forall v, v ∈ Q -> (t, v, c) ∈ ballots s) ->
  spec_inv (set_voters t Q (set_elog t g s)).
Proof.
  intros I Hnone Hc HQ Hb. assert (o = None) as -> by (by eapply win_clean). set (s' := set_voters _ _ _).
  assert (forall T l, elog s' !! T = Some l -> (T = t /\ l = g) \/ (T <> t /\ elog s !! T = Some l)) as Hel.
  { intros T l H. simpl in H. apply lookup_insert_Some in H as [[-> ->]|[? ?]]; auto. }
  assert (grows s s') as G.
  { split; simpl; try done. intros T l Hl. exists l. split; [|done].
    rewrite lookup_insert_ne by congruence. done. }
  destruct (v_cand _ I _ _ _ _ Hc) as (Ht0 & Hg & Hlt & _).
  assert (forall T k, led s' T k -> T <> t /\ led s T k) as Hled.
  { intros T k (l & Hl & Hk & Htm). destruct (Hel _ _ Hl) as [[-> ->]|[? ?]]; [exfalso|].
    - destruct (tm_in g k) as (e & He & Ht'); [lia|]. apply Hlt in He. lia.
    - split; [done|]. by exists l. }
  split; simpl.
  - apply I.
  - intros T l [[-> ->]|[_ H]]%Hel; [lia|by eapply v_epos].
  - intros T l [[-> ->]|[_ H]]%Hel.
    + split; [by apply (genuine_grows s)|]. intros k e He. apply Hlt in He. lia.
    + destruct (v_elog _ I _ _ H). split; [by apply (genuine_grows s)|done].
  - intros v. destruct (v_plog _ I v). split; [by apply (genuine_grows s)|done].
  - intros v x Hx. apply (stale_ok_grows s); [done|]. by apply I.
  - intros T l [[-> ->]|[Hne H]]%Hel.
    + rewrite fupd_eq. split; [done|]. intros v Hv. by apply (v_ballot _ I _ _ _ (Hb v Hv)).
    + rewrite fupd_ne by done. by apply (v_voters _ I _ l).
  - intros T v HT. destruct (v_ack _ I T v HT) as (? & l & Hl & ?). split; [done|]. exists l.
    rewrite lookup_insert_ne by congruence. done.
  - intros T v k [Hne Hl]%Hled Hk. destruct (v_kept _ I T v k Hl Hk) as [|[H1 H2]].
    + left. by apply (blocked_grows s).
    + right. split; [by apply (holds_grows s)|done].
  - intros T T' k l' HT [Hne Hl]%Hled [[-> ->]|[_ Hl']]%Hel.
    + destruct (win_complete s t c g Q T k); try done; [left; by apply (holds_grows s)|].
      right; by apply (blocked_grows s).
    + destruct (v_lc _ I T T' k l'); try done; [left; by apply (holds_grows s)|].
      right; by apply (blocked_grows s).
  - intros t' c' g' o' Hc'. destruct (v_cand _ I _ _ _ _ Hc') as (? & ? & ? & ?).
    split_and!; [lia|lia|by apply (genuine_grows s)|done|].
    intros x Hx. apply (stale_ok_grows s); auto.
  - intros t' v c' Hb'. destruct (v_ballot _ I _ _ _ Hb') as (Hle & g' & o' & Hc' & Hcov).
    split; [done|]. exists g', o'. split; [done|]. intros T k HT [_ Hl]%Hled Hk.
    destruct (Hcov T k HT Hl Hk); [left; by apply (blocked_grows s)|by right].
Qed.

(** ** A leader appends an entry *)

Section append.
Context (s : Spec Cmd) (c t : Z) (l : elist) (e : LogEntry Cmd) (I : spec_inv s).
Context (Hl : elog s !! t = Some l) (Hp : peer s c = mkPeer t l None).
Context (Het : Term e = t) (Hei : Index e = zlen l + 1).
Let s' : Spec Cmd :=
  set_ack t c (zlen l + 1) (set_elog t (l ++ [e]) (set_peer c (mkPeer t (l ++ [e]) None) s)).

Lemma append_peer w : peer s' w = if decide (w = c) then mkPeer t (l ++ [e]) None else peer s w.
Proof. done. Qed.

Lemma append_term w : pterm (peer s' w) = pterm (peer s w).
Proof. rewrite append_peer. case_decide as E; [by rewrite E, Hp|done]. Qed.

Lemma append_ackd T w : ackd s' T w =
  if decide (T = t /\ w = c) then Z.max (ackd s t c) (zlen l + 1) else ackd s T w.
Proof. apply (ackd_set t c (zlen l + 1) (set_elog t (l ++ [e]) (set_peer c _ s))). Qed.

Lemma ackd_bound w : ackd s t w <= zlen l.
Proof.
  destruct (decide (0 < ackd s t w)) as [Hpos|]; [|pose proof (zlen_nonneg l); lia].
  destruct (v_ack _ I t w Hpos) as (_ & l' & Hl' & ?). by assert (l' = l) as -> by congruence.
Qed.

Lemma append_elog T l' : elog s' !! T = Some l' ->
  (T = t /\ l' = l ++ [e]) \/ (T <> t /\ elog s !! T = Some l').
Proof. intros H. simpl in H. apply lookup_insert_Some in H as [[-> ->]|[? ?]]; auto. Qed.

Lemma snoc_prefix : l `prefix_of` l ++ [e].
Proof. by apply prefix_app_r. Qed.

Lemma append_grows : grows s s'.
Proof.
  split.
  - intros v. by rewrite append_term.
  - intros T l' Hl'. simpl. destruct (decide (T = t)) as [->|].
    + rewrite lookup_insert_eq. eexists. split; [done|]. rewrite Hl in Hl'. injection Hl' as <-.
      apply snoc_prefix.
    + rewrite lookup_insert_ne by done. eauto.
  - intros T v. rewrite append_ackd. case_decide as H; [destruct H as [-> ->]; lia|done].
  - intros T v HT. rewrite append_ackd, decide_False; [done|]. intros [-> ->]. rewrite Hp in HT. simpl in HT. lia.
Qed.

Lemma append_led T k : led s' T k -> led s T k \/ (T = t /\ k = zlen l + 1).
Proof.
  intros (l' & Hl' & Hk & Htm). destruct (append_elog _ _ Hl') as [[-> ->]|[? ?]]; [|left; by exists l'].
  rewrite zlen_snoc in Hk. destruct (decide (k = zlen l + 1)); [by right|left].
  exists l. split_and!; [done|lia|lia|]. rewrite <- Htm. apply tm_prefix; [apply snoc_prefix|lia].
Qed.

(** A peer acknowledged the new index only if it is the leader. *)
Lemma append_led_old T k v : led s' T k -> k <= ackd s T v -> led s T k.
Proof.
  intros [|[-> ->]]%append_led; [done|]. pose proof (ackd_bound v). lia.
Qed.

Lemma append_genuine :
  genuine s' (l ++ [e]) /\ forall k e', (l ++ [e]).[k] = Some e' -> Term e' <= t.
Proof.
  destruct (v_elog _ I _ _ Hl) as [Hg Hle].
  split; intros k x Hk; pose proof (go_index_Some_lt _ _ _ Hk) as Hr; rewrite zlen_snoc in Hr;
    (destruct (decide (k < zlen l)); [rewrite go_index_app_l in Hk by done|
      rewrite go_index_app_r in Hk by lia; replace (k - zlen l) with 0 in Hk by lia;
      injection Hk as <-]).
  - destruct (genuine_grows _ _ append_grows _ Hg k x Hk) as (? & ? & l' & ? & ?). split_and!; [done|done|].
    exists l'. split; [done|]. by rewrite <- (upto_of_prefix l) by (apply snoc_prefix || lia).
  - split_and!; [rewrite Het; by eapply v_epos|lia|]. exists (l ++ [e]). rewrite Het.
    split; [simpl; by rewrite lookup_insert_eq|apply upto_prefix].
  - by eapply Hle.
  - lia.
Qed.

Lemma append_kept T v k : led s' T k -> k <= ackd s' T v -> blocked s' T k \/ kept s' T v k.
Proof.
  intros HL Hk. destruct (decide (T = t /\ v = c)) as [[-> ->]|Hne].
  - right. split; rewrite append_peer, decide_True by done; simpl; [|done].
    exists (l ++ [e]). split; [simpl; by rewrite lookup_insert_eq|]. split; [|apply upto_prefix].
    destruct HL as (l' & Hl' & Hk' & _). destruct (append_elog _ _ Hl') as [[_ ->]|[? _]]; [lia|done].
  - rewrite append_ackd, decide_False in Hk by done.
    destruct (v_kept _ I T v k (append_led_old _ _ _ HL Hk) Hk) as [|[HK HS]];
      [left; by apply (blocked_grows s _ append_grows)|right].
    apply (holds_grows _ _ append_grows) in HK. split; rewrite append_peer; case_decide; try done; subst; simpl.
    destruct HK as (l2 & ? & ? & Hp2). exists l2. split_and!; [done|done|]. rewrite Hp in Hp2.
    simpl in Hp2. etrans; [done|apply snoc_prefix].
Qed.

Lemma append_lc T T' k l' :
  T < T' -> led s' T k -> elog s' !! T' = Some l' -> holds s' T k l' \/ blocked s' T k.
Proof.
  intros HT HL Hl'. destruct (append_led _ _ HL) as [HL'|[-> ->]].
  - assert (exists l0, elog s !! T' = Some l0 /\ l0 `prefix_of` l') as (l0 & Hl0 & Hp0).
    { destruct (append_elog _ _ Hl') as [[-> ->]|[_ ?]]; [exists l; split; [done|apply snoc_prefix]|eauto]. }
    destruct (v_lc _ I T T' k l0 HT HL' Hl0) as [HK|]; [left|right; by apply (blocked_grows s _ append_grows)].
    apply (holds_grows _ _ append_grows) in HK as (l2 & ? & ? & ?). exists l2. split_and!; [done|done|by etrans].
  - right. destruct (append_elog _ _ Hl') as [[-> _]|[_ Hl0]]; [lia|].
    destruct (v_voters _ I _ _ Hl0) as [HQ Hv]. exists (voters s T'). split; [done|].
    intros v Hvv. specialize (Hv v Hvv). rewrite append_term. split; [lia|].
    rewrite append_ackd, decide_False; [pose proof (ackd_bound v); lia|].
    intros [_ ->]. rewrite Hp in Hv. simpl in Hv. lia.
Qed.

Lemma inv_append : spec_inv s'.
Proof.
  pose proof append_grows as G. split.
  - intros v. rewrite append_term. apply I.
  - intros T l' [[-> _]|[_ H]]%append_elog; by eapply v_epos.
  - intros T l' [[-> ->]|[_ H]]%append_elog; [apply append_genuine|].
    destruct (v_elog _ I _ _ H). split; [by apply (genuine_grows s)|done].
  - intros v. rewrite append_peer. case_decide; [apply append_genuine|].
    destruct (v_plog _ I v). split; [by apply (genuine_grows s)|done].
  - intros v x. rewrite append_peer. case_decide; [done|].
    intros Hx. apply (stale_ok_grows s); [done|]. by apply I.
  - intros T l' Hl'. assert (exists l0, elog s !! T = Some l0) as [l0 Hl0]
      by (destruct (append_elog _ _ Hl') as [[-> _]|[_ ?]]; eauto).
    destruct (v_voters _ I _ _ Hl0) as [HQ Hv]. split; [done|]. intros v. rewrite append_term. apply Hv.
  - intros T v. rewrite append_ackd, append_term. case_decide as H.
    + destruct H as [-> ->]. intros _. rewrite Hp. split; [done|]. exists (l ++ [e]).
      split; [simpl; by rewrite lookup_insert_eq|]. rewrite zlen_snoc. pose proof (ackd_bound c). lia.
    + intros HT. destruct (v_ack _ I T v HT) as (? & l' & Hl' & ?). split; [done|].
      destruct (gr_elog _ _ G _ _ Hl') as (l2 & ? & Hp2). exists l2. split; [done|].
      pose proof (zlen_prefix _ _ Hp2). lia.
  - apply append_kept.
  - apply append_lc.
  - intros t' c' g' o' Hc'. destruct (v_cand _ I _ _ _ _ Hc') as (? & ? & ? & ?). rewrite append_term.
    split_and!; [lia|lia|by apply (genuine_grows s)|done|].
    intros x Hx. apply (stale_ok_grows s); auto.
  - intros t' v c' Hb'. destruct (v_ballot _ I _ _ _ Hb') as (Hle' & g' & o' & Hc' & Hcov).
    rewrite append_term. split; [done|]. exists g', o'. split; [done|]. intros T k HT HL Hk.
    rewrite (gr_left _ _ G) in Hk by lia.
    destruct (Hcov T k HT (append_led_old _ _ _ HL Hk) Hk); [left; by apply (blocked_grows s)|by right].
Qed.
End append.

(** ** Every step preserves the invariant *)

Lemma spec_step_inv s s' : spec_inv s -> spec_step s s' -> spec_inv s'.
Proof.
  intros I Hs. revert I. destruct Hs; intros I.
  - by apply inv_term.
  - by apply inv_stand.
  - by eapply inv_vote.
  - by eapply inv_win.
  - by apply inv_append.
  - by eapply inv_ack.
  - by apply inv_adopt.
  - subst o. by eapply inv_install.
Qed.

Lemma spec_steps_inv s s' : spec_inv s -> rtc spec_step s s' -> spec_inv s'.
Proof. intros I H. induction H; [done|]. eauto using spec_step_inv. Qed.

Definition spec_init : Spec Cmd := mkSpec (fun _ => mkPeer 0 [] None) ∅ (fun _ => ∅) (fun _ _ => 0) ∅ ∅.

Lemma genuine_nil s : genuine s [].
Proof. intros k e Hk. by apply go_index_nil in Hk. Qed.

Lemma spec_init_inv : spec_inv spec_init.
Proof.
  split; simpl; try done; try lia.
  - intros v. split; [apply genuine_nil|]. by intros k e ?%go_index_nil.
  - intros T v k (l & Hl & _). done.
Qed.
End spec.
