(* ===== verification/RaftNode.v ===== *)
(** One Raft peer: the operations of [src/src/raft/raft.go].

    Every handler runs under [rf.mu], so it is one function from the state of
    the peer to its next state, the reply and the effects.  [None] is a Go
    run-time panic (an index or slice bound out of range, a negative length).
    Loops of the source are structural recursions whose fuel is the exact number
    of iterations the loop's bounds allow. *)

From S2P Require Import Prelude Gob Persister RaftTypes.
Local Open Scope Z_scope.

(** [max] and [min] of raft.go. *)
Definition max (a b : Z) : Z := if decide (b < a) then a else b.
Definition min (a b : Z) : Z := if decide (a < b) then a else b.

(** The indices a [for i := range rf.peers] visits. *)
Definition range_peers {Cmd} (rf : Raft Cmd) : list Z := seqZ 0 (Z.of_nat (peers rf)).

(** [for i := range idx { l[i] = v }] *)
Fixpoint store_each (idx : list Z) (v : Z) (l : list Z) : option (list Z) :=
  match idx with
  | [] => Some l
  | i :: idx => l ← go_store l i v; store_each idx v l
  end.

(** [l[0] = f(l[0])] *)
Definition update_head {A} (f : A -> A) (l : list A) : option (list A) :=
  match l with
  | [] => None
  | x :: l => Some (f x :: l)
  end.

Section node.
Context {Cmd : Type} `{Gob Z} `{Gob (list (LogEntry Cmd))}.
Implicit Types (rf : Raft Cmd).

(** * Log accessors *)

Definition getLastIndex rf : option Z :=
  e ← (log rf).[zlen (log rf) - 1]; Some (Index e).

Definition getLastTerm rf : option Z :=
  e ← (log rf).[zlen (log rf) - 1]; Some (Term e).

Definition getFirstIndex rf : option Z :=
  e ← (log rf).[0]; Some (Index e).

Definition getFirstTerm rf : option Z :=
  e ← (log rf).[0]; Some (Term e).

Definition getTerm (index : Z) rf : option Z :=
  first ← getFirstIndex rf;
  e ← (log rf).[index - first]; Some (Term e).

Definition getNextIndex rf : option Z :=
  last ← getLastIndex rf; Some (last + 1).

Definition GetState rf : Z * bool :=
  (currentTerm rf, bool_decide (state rf = Leader)).

(** * Persistence *)

Definition encodeState rf : bytes :=
  gob_encode (currentTerm rf) ++ gob_encode (voteFor rf) ++ gob_encode (log rf).

Definition persist rf : Raft Cmd :=
  set_persister
    (Save (encodeState rf) (ReadSnapshot (persister rf)) (persister rf)) rf.

Definition decodeState (data : bytes) : option (Z * Z * list (LogEntry Cmd)) :=
  '(t, r) ← gob_decode (A := Z) data;
  '(v, r) ← gob_decode (A := Z) r;
  '(l, r) ← gob_decode (A := list (LogEntry Cmd)) r;
  Some (t, v, l).

Definition readPersist (data : bytes) rf : Raft Cmd :=
  if decide (zlen data < 1) then rf else
  match decodeState data with
  | None => rf
  | Some (t, v, l) => set_log l (set_voteFor v (set_currentTerm t rf))
  end.

(** * Changes of role *)

Definition becomeFollower (term : Z) rf : Raft Cmd * list (Effect Cmd) :=
  let rf := set_state Follower rf in
  let rf := set_currentTerm term rf in
  let rf := set_voteFor (-1) rf in
  (persist rf, [EffTicker Follower]).

Definition becomeLeader rf : option (Raft Cmd * list (Effect Cmd)) :=
  let rf := set_state Leader rf in
  next ← getNextIndex rf;
  ni ← store_each (range_peers rf) next (nextIndex rf);
  mi ← store_each (range_peers rf) 0 (matchIndex rf);
  Some (set_matchIndex mi (set_nextIndex ni rf), [EffTicker Leader]).

(** * Snapshots *)

Definition Snapshot (index : Z) (snap : bytes) rf : option (Raft Cmd) :=
  lastIndex ← getFirstIndex rf;
  if decide (index <= lastIndex) then Some rf else
  tail ← (log rf).[index - lastIndex :];
  l ← update_head (fun e => mkLogEntry None (Term e) (Index e)) tail;
  let rf := set_log l rf in
  Some (set_persister (Save (encodeState rf) snap (persister rf)) rf).

(** The snapshot goes to the service after [rf.mu] is released: [EffApply] is a send
    that other sends of the same peer may overtake ([RaftServices.sendable]). *)
Definition InstallSnapshot (now : Z) (args : InstallSnapshotArgs) rf :
    option (Raft Cmd * InstallSnapshotReply * list (Effect Cmd)) :=
  if decide (state rf = Dead) then Some (rf, mkInstallSnapshotReply 0, []) else
  let '(rf, eff) :=
    if decide (currentTerm rf < isTerm args) then
      let '(rf, eff) := becomeFollower (isTerm args) rf in
      (set_electionStartTime now rf, eff)
    else (rf, []) in
  let reply := mkInstallSnapshotReply (currentTerm rf) in
  if decide (isTerm args = currentTerm rf) then
    let rf := if decide (state rf <> Follower) then set_state Follower rf else rf in
    let rf := set_electionStartTime now rf in
    if decide (isLastIncludedIndex args <= commitIndex rf) then Some (rf, reply, eff)
    else
      last ← getLastIndex rf;
      l ← (if decide (last <= isLastIncludedIndex args) then Some [zeroEntry]
           else first ← getFirstIndex rf;
                (log rf).[isLastIncludedIndex args - first :]);
      l ← update_head
            (fun _ => mkLogEntry None (isLastIncludedTerm args)
                        (isLastIncludedIndex args)) l;
      let rf := set_log l rf in
      let rf := set_persister
        (Save (encodeState rf) (isSnapshot args) (persister rf)) rf in
      let rf := set_lastApplied (isLastIncludedIndex args) rf in
      let rf := set_commitIndex (isLastIncludedIndex args) rf in
      Some (rf, reply,
        eff ++ [EffApply (mkApplyMsg false None 0 0 true (isSnapshot args)
                  (isLastIncludedTerm args) (isLastIncludedIndex args))])
  else Some (rf, reply, eff).

(** * Elections *)

Definition RequestVote (now : Z) (args : RequestVoteArgs) rf :
    option (Raft Cmd * RequestVoteReply * list (Effect Cmd)) :=
  if decide (state rf = Dead) then Some (rf, mkRequestVoteReply 0 false, []) else
  let '(rf, eff) :=
    if decide (currentTerm rf < rvTerm args) then
      let rf := if decide (state rf <> Follower)
                then set_electionStartTime now rf else rf in
      becomeFollower (rvTerm args) rf
    else (rf, []) in
  lastLogIndex ← getLastIndex rf;
  lastLogTerm ← getLastTerm rf;
  let '(rf, voteGranted, need_persist) :=
    if decide (currentTerm rf = rvTerm args) then
      if decide (voteFor rf = -1 \/ voteFor rf = rvCandidateId args) then
        if decide (lastLogTerm < rvLastLogTerm args \/
                   (rvLastLogTerm args = lastLogTerm /\
                    lastLogIndex <= rvLastLogIndex args)) then
          let rf := set_electionStartTime now rf in
          if decide (voteFor rf = -1)
          then (set_voteFor (rvCandidateId args) rf, true, true)
          else (rf, true, false)
        else (rf, false, false)
      else (rf, false, false)
    else (rf, false, false) in
  let rf := if (need_persist : bool) then persist rf else rf in
  Some (rf, mkRequestVoteReply (currentTerm rf) voteGranted, eff).

(** Starts an election; [receivedVotes] of the closures starts at 1. *)
Definition startElection (now : Z) rf : option (Raft Cmd * list (Effect Cmd)) :=
  let rf := set_currentTerm (currentTerm rf + 1) rf in
  let rf := set_state Candidate rf in
  let rf := set_voteFor (me rf) rf in
  let rf := set_electionStartTime now rf in
  let rf := persist rf in
  lastLogIndex ← getLastIndex rf;
  lastLogTerm ← getLastTerm rf;
  let args := mkRequestVoteArgs (currentTerm rf) (me rf) lastLogIndex lastLogTerm in
  let calls := omap (fun server =>
    if decide (server = rvCandidateId args) then None
    else Some (EffRequestVote server args)) (range_peers rf) in
  Some (rf, calls ++ [EffTicker Follower]).

(** The closure of [startElection] once its RPC returned [reply];
    [receivedVotes] is the variable the closures of one election share. *)
Definition onRequestVoteReply (now : Z) (args : RequestVoteArgs)
    (reply : RequestVoteReply) (receivedVotes : Z) rf :
    option (Raft Cmd * Z * list (Effect Cmd)) :=
  if decide (state rf = Candidate /\ currentTerm rf = rvTerm args) then
    if rvrVoteGranted reply then
      let receivedVotes := receivedVotes + 1 in
      if decide (Z.of_nat (peers rf) + 1 <= receivedVotes * 2) then
        '(rf, eff) ← becomeLeader rf; Some (rf, receivedVotes, eff)
      else Some (rf, receivedVotes, [])
    else if decide (currentTerm rf < rvrTerm reply) then
      let '(rf, eff) := becomeFollower (rvrTerm reply) rf in
      Some (set_electionStartTime now rf, receivedVotes, eff)
    else Some (rf, receivedVotes, [])
  else Some (rf, receivedVotes, []).

(** * Replication, leader side *)

(** [runHeartBeats] starts one goroutine per follower; the term is captured. *)
Definition runHeartBeats rf : list (Effect Cmd) :=
  if decide (state rf <> Leader) then [] else
  omap (fun server => if decide (server = me rf) then None
                      else Some (EffReplicate server (currentTerm rf)))
       (range_peers rf).

Definition Start (command : Cmd) rf : option (Raft Cmd * (Z * Z * bool) * list (Effect Cmd)) :=
  if decide (state rf <> Leader) then Some (rf, (-1, currentTerm rf, false), []) else
  next ← getNextIndex rf;
  let rf := set_log (log rf ++ [mkLogEntry (Some command) (currentTerm rf) next]) rf in
  let rf := persist rf in
  let eff := runHeartBeats rf in
  last ← getLastIndex rf;
  Some (rf, (last, currentTerm rf, true), eff).

(** What a replication goroutine does between locking and its RPC. *)
Inductive ReplicateCall :=
| ReplStop
| ReplInstall (args : InstallSnapshotArgs)
| ReplAppend (args : AppendEntriesArgs Cmd).

Definition replicate_to (server term : Z) rf : option ReplicateCall :=
  if decide (dead rf = 1) then Some ReplStop else
  if decide (state rf <> Leader) then Some ReplStop else
  firstIndex ← getFirstIndex rf;
  next ← (nextIndex rf).[server];
  if decide (next <= firstIndex) then
    ft ← getFirstTerm rf;
    Some (ReplInstall (mkInstallSnapshotArgs term (me rf) firstIndex ft
                         (ReadSnapshot (persister rf))))
  else
    let prevLogIndex := next - 1 in
    let nowLogIndex := next in
    n ← getNextIndex rf;
    entries ← go_make (n - nowLogIndex) zeroEntry;
    tail ← (log rf).[nowLogIndex - firstIndex :];
    let entries := go_copy entries tail in
    pt ← getTerm prevLogIndex rf;
    Some (ReplAppend (mkAppendEntriesArgs term (me rf) prevLogIndex pt entries
                        (commitIndex rf))).

Definition handleInstallSnapshotRPCResponse (now server : Z)
    (args : InstallSnapshotArgs) (reply : InstallSnapshotReply) rf :
    option (Raft Cmd * list (Effect Cmd)) :=
  if decide (state rf = Leader /\ currentTerm rf = isTerm args) then
    if decide (isrTerm reply = currentTerm rf) then
      m ← (matchIndex rf).[server];
      mi ← go_store (matchIndex rf) server (max m (isLastIncludedIndex args));
      let rf := set_matchIndex mi rf in
      m ← (matchIndex rf).[server];
      ni ← go_store (nextIndex rf) server (m + 1);
      Some (set_nextIndex ni rf, [])
    else if decide (currentTerm rf < isrTerm reply) then
      let '(rf, eff) := becomeFollower (isrTerm reply) rf in
      Some (set_electionStartTime now rf, eff)
    else Some (rf, [])
  else Some (rf, []).

(** [count]: 1 plus the peers other than [me] with [matchIndex[j] >= i]. *)
Fixpoint count_match (js : list Z) (i : Z) (mi : list Z) (self : Z) : option Z :=
  match js with
  | [] => Some 1
  | j :: js =>
      c ← count_match js i mi self;
      if decide (j = self) then Some c else
      m ← mi.[j];
      Some (if decide (i <= m) then c + 1 else c)
  end.

(** [for i := ...; i < rf.getNextIndex(); i++] of the commit rule; [n] is the
    number of indices left. *)
Fixpoint commit_loop (n : nat) (i : Z) rf : option (Raft Cmd) :=
  match n with
  | O => Some rf
  | S n =>
      t ← getTerm i rf;
      if decide (t = currentTerm rf) then
        count ← count_match (range_peers rf) i (matchIndex rf) (me rf);
        if decide (Z.of_nat (peers rf) + 1 <= count * 2)
        then commit_loop n (i + 1) (set_commitIndex i rf)
        else Some rf
      else commit_loop n (i + 1) rf
  end.

(** [for i := args.PrevLogIndex - 1; i >= firstIndex; i--]: the last index whose
    term is the conflict term, or -1; [n] is the number of indices left. *)
Fixpoint find_conflict (n : nat) (i ct : Z) rf : option Z :=
  match n with
  | O => Some (-1)
  | S n =>
      t ← getTerm i rf;
      if decide (t = ct) then Some i
      else if decide (t < ct) then Some (-1)
      else find_conflict n (i - 1) ct rf
  end.

Definition handleAppendEntriesRPCResponse (now server : Z)
    (args : AppendEntriesArgs Cmd) (reply : AppendEntriesReply) rf :
    option (Raft Cmd * bool * list (Effect Cmd)) :=
  if decide (state rf = Leader /\ currentTerm rf = aeTerm args) then
    if decide (aerTerm reply = currentTerm rf) then
      if aerSuccess reply then
        m ← (matchIndex rf).[server];
        mi ← go_store (matchIndex rf) server
               (max m (aePrevLogIndex args + zlen (aeEntries args)));
        let rf := set_matchIndex mi rf in
        m ← (matchIndex rf).[server];
        ni ← go_store (nextIndex rf) server (m + 1);
        let rf := set_nextIndex ni rf in
        let savedCommitIndex := commitIndex rf in
        next ← getNextIndex rf;
        rf ← commit_loop (Z.to_nat (next - (commitIndex rf + 1)))
               (commitIndex rf + 1) rf;
        let eff := if decide (commitIndex rf <> savedCommitIndex)
                   then [EffSignal] else [] in
        Some (rf, false, eff)
      else
        let fallback := m ← (matchIndex rf).[server];
                        Some (max (aerConflictIndex reply) (m + 1)) in
        next ← (if decide (0 < aerConflictTerm reply) then
                  firstIndex ← getFirstIndex rf;
                  lastIndex ← find_conflict
                    (Z.to_nat (aePrevLogIndex args - firstIndex))
                    (aePrevLogIndex args - 1) (aerConflictTerm reply) rf;
                  if decide (0 < lastIndex) then Some (lastIndex + 1) else fallback
                else fallback);
        ni ← go_store (nextIndex rf) server next;
        Some (set_nextIndex ni rf, true, [])
    else if decide (currentTerm rf < aerTerm reply) then
      let '(rf, eff) := becomeFollower (aerTerm reply) rf in
      Some (set_electionStartTime now rf, false, eff)
    else Some (rf, false, [])
  else Some (rf, false, []).

(** * Replication, follower side *)

(** The [for] loop that skips the entries the log already holds; returns
    [insertIndex] and the entries from [argsLogIndex] on. *)
Fixpoint skip_matching (insertIndex : Z) (entries : list (LogEntry Cmd)) rf :
    option (Z * list (LogEntry Cmd)) :=
  next ← getNextIndex rf;
  if decide (next <= insertIndex) then Some (insertIndex, entries) else
  match entries with
  | [] => Some (insertIndex, [])
  | e :: rest =>
      t ← getTerm insertIndex rf;
      if decide (t <> Term e) then Some (insertIndex, e :: rest)
      else skip_matching (insertIndex + 1) rest rf
  end.

(** [for index = args.PrevLogIndex - 1; index >= rf.getFirstIndex(); index--]:
    the value of [index] after the loop. *)
Fixpoint conflict_scan (n : nat) (index ct : Z) rf : option Z :=
  match n with
  | O => Some index
  | S n =>
      t ← getTerm index rf;
      if decide (t <> ct) then Some index else conflict_scan n (index - 1) ct rf
  end.

Definition AppendEntries (now : Z) (args : AppendEntriesArgs Cmd) rf :
    option (Raft Cmd * AppendEntriesReply * list (Effect Cmd)) :=
  if decide (state rf = Dead) then Some (rf, mkAppendEntriesReply 0 false 0 0, []) else
  let '(rf, eff) :=
    if decide (currentTerm rf < aeTerm args) then
      let '(rf, eff) := becomeFollower (aeTerm args) rf in
      (set_electionStartTime now rf, eff)
    else (rf, []) in
  if decide (aeTerm args = currentTerm rf) then
    let rf := set_state Follower rf in
    let rf := set_electionStartTime now rf in
    first ← getFirstIndex rf;
    if decide (aePrevLogIndex args < first) then
      Some (rf, mkAppendEntriesReply 0 false 0 0, eff)
    else
      next ← getNextIndex rf;
      agree ← (if decide (aePrevLogIndex args < next) then
                 t ← getTerm (aePrevLogIndex args) rf;
                 Some (bool_decide (aePrevLogTerm args = t))
               else Some false);
      if (agree : bool) then
        '(insertIndex, rest) ← skip_matching (aePrevLogIndex args + 1) (aeEntries args) rf;
        '(rf, need_persist) ←
          (match rest with
           | [] => Some (rf, false)
           | _ => pre ← (log rf).[: insertIndex - first];
                  Some (set_log (pre ++ rest) rf, true)
           end);
        '(rf, sig) ←
          (if decide (commitIndex rf < aeLeaderCommit args) then
             next ← getNextIndex rf;
             Some (set_commitIndex (min (next - 1) (aeLeaderCommit args)) rf,
                   [EffSignal])
           else Some (rf, []));
        let rf := if (need_persist : bool) then persist rf else rf in
        Some (rf, mkAppendEntriesReply (currentTerm rf) true 0 0, eff ++ sig)
      else if decide (next <= aePrevLogIndex args) then
        Some (rf, mkAppendEntriesReply (currentTerm rf) false next (-1), eff)
      else
        ct ← getTerm (aePrevLogIndex args) rf;
        index ← conflict_scan (Z.to_nat (aePrevLogIndex args - first))
                  (aePrevLogIndex args - 1) ct rf;
        Some (rf, mkAppendEntriesReply (currentTerm rf) false (index + 1) ct, eff)
  else Some (rf, mkAppendEntriesReply (currentTerm rf) false 0 0, eff).

(** * Timers, application, life cycle *)

Definition Kill rf : Raft Cmd := set_state Dead (set_dead 1 rf).
Definition killed rf : bool := bool_decide (dead rf = 1).

(** [ticker(state)]: the loop the goroutine enters, if any. *)
Inductive TimerLoop := ElectionTimer | HeartBeatsTimer.

Definition ticker (s : RuleState) rf : option TimerLoop :=
  if killed rf then None else
  match s with
  | Follower => Some ElectionTimer
  | Candidate => Some ElectionTimer
  | Leader => Some HeartBeatsTimer
  | Dead => None
  end.

(** One tick of [heartBeatsTimer]; the [bool] says whether the loop goes on. *)
Definition heartBeatsTimer (nowTerm : Z) rf : bool * list (Effect Cmd) :=
  if killed rf then (false, []) else
  if decide (state rf <> Leader \/ currentTerm rf <> nowTerm) then (false, [])
  else (true, runHeartBeats rf).

(** The election timeout [250 + (rand.Int63() % 150)] milliseconds. *)
Definition electionTimeout (rnd : Z) : Z := 250 + rnd mod 150.

(** One tick of [runElectionTimer]. *)
Definition runElectionTimer (now timeout nowTerm : Z) rf :
    option (Raft Cmd * bool * list (Effect Cmd)) :=
  if killed rf then Some (rf, false, []) else
  if decide (state rf <> Candidate /\ state rf <> Follower) then Some (rf, false, []) else
  if decide (nowTerm <> currentTerm rf) then Some (rf, false, []) else
  if decide (timeout <= now - electionStartTime rf) then
    '(rf, eff) ← startElection now rf; Some (rf, true, eff)
  else Some (rf, true, []).

(** One round of [apply], its critical section: waits while nothing is to be
    applied, otherwise takes the entries; the messages of the result are sent one
    after the other once the lock is released. *)
Definition apply rf : option (Raft Cmd * list (ApplyMsg Cmd)) :=
  if killed rf then Some (rf, []) else
  if decide (commitIndex rf <= lastApplied rf) then Some (rf, []) else
  logEntries ← go_make (commitIndex rf - lastApplied rf) zeroEntry;
  firstIndex ← getFirstIndex rf;
  src ← (log rf).[lastApplied rf + 1 - firstIndex ..< commitIndex rf + 1 - firstIndex];
  let logEntries := go_copy logEntries src in
  let rf := set_lastApplied (max (lastApplied rf) (commitIndex rf)) rf in
  Some (rf, map (fun e => mkApplyMsg true (Command e) (Index e) (Term e)
                            false [] 0 0) logEntries).

Definition Make (npeers : nat) (self : Z) (ps : Persister) (now : Z) :
    option (Raft Cmd * list (Effect Cmd)) :=
  let rf := mkRaft npeers ps self 0 0 (-1) [zeroEntry] Follower 0 0 [] [] now in
  let rf := readPersist (ReadRaftState ps) rf in
  first ← getFirstIndex rf;
  let rf := set_lastApplied first (set_commitIndex first rf) in
  next ← getNextIndex rf;
  ni ← go_make (Z.of_nat npeers) 0;
  mi ← go_make (Z.of_nat npeers) 0;
  ni ← store_each (range_peers rf) next ni;
  mi ← store_each (range_peers rf) 0 mi;
  Some (set_matchIndex mi (set_nextIndex ni rf), [EffTicker Follower; EffApplyLoop]).
End node.

Arguments ReplStop {Cmd}. Arguments ReplInstall {Cmd}. Arguments ReplAppend {Cmd}.
