(* ===== verification/RaftSafe.v ===== *)
(** No operation of a well-formed peer panics.

    Completes the per-handler safety lemmas of [RaftInv] with the replication
    and snapshot handlers, and states the result for [run_op]: on a peer that
    satisfies [node_ok], every operation whose caller keeps its side of the
    contract ([op_ok]) returns, and the peer satisfies [node_ok] again. *)

From S2P Require Import Prelude Gob Persister RaftTypes RaftNode RaftInv.
Local Open Scope Z_scope.

Lemma min_Zmin a b : min a b = Z.min a b.
Proof. unfold min. case_decide; lia. Qed.

Lemma max_Zmax a b : max a b = Z.max a b.
Proof. unfold max. case_decide; lia. Qed.

Section safe.
Context {Cmd : Type} `{Gob Z} `{Gob (list (LogEntry Cmd))}.
Implicit Types (rf : Raft Cmd) (l es : list (LogEntry Cmd)).

(** [AppendEntries] when it does not accept: the log is untouched, and the
    reply says why. *)
Lemma AppendEntries_reject now args rf :
  state rf <> Dead -> currentTerm rf <= aeTerm args -> log_wf (log rf) ->
  term_at (log rf) (aePrevLogIndex args) <> Some (aePrevLogTerm args) ->
  exists rf' rep eff,
    AppendEntries now args rf = Some (rf', rep, eff) /\
    log rf' = log rf /\ commitIndex rf' = commitIndex rf /\
    currentTerm rf' = aeTerm args /\ state rf' = Follower /\
    lastApplied rf' = lastApplied rf /\ nextIndex rf' = nextIndex rf /\
    matchIndex rf' = matchIndex rf /\ peers rf' = peers rf /\
    aerSuccess rep = false /\
    ( (aePrevLogIndex args < firstIdx (log rf) /\
         aerTerm rep = 0 /\ aerConflictIndex rep = 0 /\ aerConflictTerm rep = 0)
    \/ (nextIdx (log rf) <= aePrevLogIndex args /\ aerTerm rep = aeTerm args /\
         aerConflictIndex rep = nextIdx (log rf) /\ aerConflictTerm rep = -1)
    \/ (firstIdx (log rf) <= aePrevLogIndex args < nextIdx (log rf) /\
         aerTerm rep = aeTerm args /\
         (forall i, aerConflictIndex rep <= i <= aePrevLogIndex args ->
            term_at (log rf) i = Some (aerConflictTerm rep)) /\
         firstIdx (log rf) <= aerConflictIndex rep <= aePrevLogIndex args /\
         (aerConflictIndex rep = firstIdx (log rf) \/
          term_at (log rf) (aerConflictIndex rep - 1) <> Some (aerConflictTerm rep)))).
Proof.
  intros Hdead Hterm Hwf Hprev. unfold AppendEntries. rewrite decide_False by done.
  assert (Hent : exists rf1 eff1,
    (if decide (currentTerm rf < aeTerm args)
     then let '(rf, eff) := becomeFollower (aeTerm args) rf in
          (set_electionStartTime now rf, eff) else (rf, [])) = (rf1, eff1) /\
    currentTerm rf1 = aeTerm args /\ log rf1 = log rf /\ commitIndex rf1 = commitIndex rf /\
    lastApplied rf1 = lastApplied rf /\ nextIndex rf1 = nextIndex rf /\
    matchIndex rf1 = matchIndex rf /\ peers rf1 = peers rf).
  { case_decide; simpl; eexists _, _; split_and!; try done. lia. }
  destruct Hent as (rf1 & eff1 & -> & Ht1 & Hl1 & Hc1 & Ha1 & Hn1 & Hm1 & Hp1).
  rewrite decide_True by done.
  set (rf2 := set_electionStartTime now (set_state Follower rf1)).
  assert (Hl2 : log rf2 = log rf) by done.
  rewrite getFirstIndex_wf by (rewrite Hl2; apply Hwf). simpl. rewrite Hl1.
  case_decide as Hfirst.
  { eexists _, _, _. split; [done|]. split_and!; try done. by left. }
  rewrite getNextIndex_wf by (by rewrite Hl2). simpl. rewrite Hl1.
  destruct (decide (aePrevLogIndex args < nextIdx (log rf))) as [Hnext|Hnext].
  - rewrite getTerm_wf by (rewrite Hl2; apply Hwf). rewrite Hl2.
    destruct (term_at_is_Some (log rf) (aePrevLogIndex args)) as [t Ht]; [lia|].
    rewrite Ht. simpl. rewrite bool_decide_false by congruence.
    rewrite decide_False by lia.
    destruct (conflict_scan_spec (Z.to_nat (aePrevLogIndex args - firstIdx (log rf)))
      (aePrevLogIndex args - 1) t rf2) as (r & -> & Hr & Hall & Hend).
    { rewrite Hl2. apply Hwf. } { rewrite Hl2. lia. } { rewrite Hl2. lia. }
    rewrite Hl2 in *. simpl. eexists _, _, _. split; [done|]. rewrite Ht1.
    split_and!; try done. right; right. simpl. split_and!; try done; try lia.
    + intros i Hi. destruct (decide (i = aePrevLogIndex args)) as [->|]; [done|].
      apply Hall. lia.
    + destruct Hend as [->|(t' & Ht' & Hne)]; [left; lia|right].
      replace (r + 1 - 1) with r by lia. rewrite Ht'. congruence.
  - simpl. rewrite decide_True by lia. eexists _, _, _. split; [done|]. rewrite Ht1.
    split_and!; try done. right; left. split_and!; try done. simpl. lia.
Qed.

Lemma AppendEntries_stale now args rf :
  state rf <> Dead -> aeTerm args < currentTerm rf ->
  AppendEntries now args rf =
    Some (rf, mkAppendEntriesReply (currentTerm rf) false 0 0, []).
Proof.
  intros Hdead Hlt. unfold AppendEntries. rewrite decide_False by done.
  rewrite decide_False by lia. by rewrite decide_False by lia.
Qed.

Lemma AppendEntries_dead now args rf :
  state rf = Dead ->
  AppendEntries now args rf = Some (rf, mkAppendEntriesReply 0 false 0 0, []).
Proof. intros. unfold AppendEntries. by rewrite decide_True. Qed.

Lemma firstIdx_log_before l i :
  l <> [] -> firstIdx l < i -> firstIdx (log_before l i) = firstIdx l.
Proof.
  intros Hne Hi. unfold log_before. destruct l as [|e l]; [done|].
  destruct (Z.to_nat (i - firstIdx (e :: l))) eqn:Hz; [lia|done].
Qed.

(** Entries that respect the committed prefix never shorten the log below the
    commit index. *)
Lemma merge_log_commit es prev l commit :
  log_wf l -> firstIdx l <= prev < nextIdx l -> commit < nextIdx l ->
  (forall k e t, es.[k] = Some e -> prev + 1 + k <= commit ->
     term_at l (prev + 1 + k) = Some t -> t = Term e) ->
  commit < nextIdx (merge_log (prev + 1) es l).
Proof.
  intros Hwf. revert prev. induction es as [|e es IH]; intros prev Hp Hc Hcompat; simpl; [done|].
  destruct (term_at l (prev + 1)) as [t|] eqn:Ht.
  - assert (Hr : prev + 1 < nextIdx l).
    { unfold term_at in Ht. destruct (entry_at l (prev + 1)) eqn:He; [|done].
      apply entry_at_Some_range in He. lia. }
    case_decide as Hte.
    + apply IH; [lia|done|]. intros k x t' Hk Hle Ht'.
      pose proof (go_index_Some_lt _ _ _ Hk).
      apply (Hcompat (k + 1) x t'); [|lia|by replace (prev + 1 + (k + 1)) with (prev + 1 + 1 + k) by lia].
      rewrite go_index_cons_S by lia. by replace (k + 1 - 1) with k by lia.
    + destruct (decide (prev + 1 <= commit)).
      { destruct Hte. apply (Hcompat 0 e t); [done|lia|].
        by replace (prev + 1 + 0) with (prev + 1) by lia. }
      pose proof (log_before_zlen l (prev + 1) ltac:(lia)) as Hlen.
      unfold nextIdx. rewrite firstIdx_app.
      2:{ destruct (log_before l (prev + 1)); [|done]. unfold zlen in Hlen; simpl in Hlen. lia. }
      assert (Hf : firstIdx (log_before l (prev + 1)) = firstIdx l).
      { apply firstIdx_log_before; [apply Hwf|lia]. }
      rewrite Hf, zlen_app, zlen_cons, Hlen. pose proof (zlen_nonneg es). lia.
  - unfold nextIdx in *. destruct Hwf as [Hne _]. rewrite firstIdx_app by done.
    rewrite zlen_app. pose proof (zlen_nonneg (e :: es)). lia.
Qed.

Lemma AppendEntries_ok now args rf :
  node_ok rf -> op_ok (OpAppendEntries now args) rf ->
  exists rf' r eff, AppendEntries now args rf = Some (rf', r, eff) /\ node_ok rf'.
Proof.
  intros Hok [Hix Hcompat]. pose proof (ok_log _ Hok) as Hwf.
  destruct (decide (state rf = Dead)) as [Hd|Hd].
  { rewrite AppendEntries_dead by done. eauto 10. }
  destruct (decide (aeTerm args < currentTerm rf)).
  { rewrite AppendEntries_stale by done. eauto 10. }
  destruct (decide (term_at (log rf) (aePrevLogIndex args) = Some (aePrevLogTerm args))) as [Hp|Hp].
  - destruct (AppendEntries_accept now args rf) as
      (rf' & eff & -> & Hl & Hc & _ & Hs & Ha & Hn & Hm & Hpe); try done; [lia|].
    eexists _, _, _. split; [done|].
    assert (Hr : firstIdx (log rf) <= aePrevLogIndex args < nextIdx (log rf)).
    { unfold term_at in Hp. destruct (entry_at _ _) eqn:He; [|done].
      by apply entry_at_Some_range in He. }
    destruct (merge_log_wf (aeEntries args) _ _ Hwf Hr Hix) as [Hwf' Hf'].
    pose proof (merge_log_commit (aeEntries args) _ _ (commitIndex rf) Hwf Hr
      (ok_commit _ Hok) Hcompat) as Hcm.
    destruct Hok as [_ ? Happ ? ? ? ?]. rewrite Hl in Hc.
    split; rewrite ?Hl, ?Hf', ?Ha, ?Hn, ?Hm, ?Hpe; try done; rewrite ?Hc; unfold ae_commit;
      try (case_decide; rewrite ?min_Zmin; lia).
    by rewrite Hs.
  - destruct (AppendEntries_reject now args rf) as
      (rf' & rep & eff & -> & Hl & Hc & _ & Hs & Ha & Hn & Hm & Hpe & _); try done; [lia|].
    eexists _, _, _. split; [done|]. apply (node_ok_frame rf); try done. by rewrite Hs.
Qed.

Lemma InstallSnapshot_ok now args rf :
  node_ok rf ->
  exists rf' r eff, InstallSnapshot now args rf = Some (rf', r, eff) /\ node_ok rf'.
Proof.
  intros Hok. unfold InstallSnapshot. case_decide; [eauto 10|].
  assert (Hent : exists rf1 eff1,
    (if decide (currentTerm rf < isTerm args)
     then let '(rf, eff) := becomeFollower (isTerm args) rf in
          (set_electionStartTime now rf, eff) else (rf, [])) = (rf1, eff1) /\ node_ok rf1).
  { case_decide; simpl; eexists _, _; (split; [done|]); [by apply (node_ok_frame rf)|done]. }
  destruct Hent as (rf1 & eff1 & -> & Hok1). case_decide; [|eauto 10].
  set (rf2 := if decide (state rf1 <> Follower) then set_state Follower rf1 else rf1).
  assert (Hok2 : node_ok rf2 /\ state rf2 = Follower).
  { subst rf2. case_decide; split; try done. by apply (node_ok_frame rf1). }
  clearbody rf2. destruct Hok2 as [Hok2 Hs2]. simpl. case_decide as Hci.
  { eexists _, _, _. split; [done|]. by apply (node_ok_frame rf2). }
  pose proof (ok_log _ Hok2) as Hwf. destruct Hok2 as [_ Hf0 Ha Hc Hn Hm Hl].
  rewrite getLastIndex_wf by done. simpl.
  set (L := isLastIncludedIndex args) in *. case_decide as Hlast; simpl.
  - eexists _, _, _. split; [done|].
    destruct (log_wf_intro L [mkLogEntry None (isLastIncludedTerm args) L : LogEntry Cmd])
      as [Hw Hf]; [done|apply (indexed_from_singleton (mkLogEntry None _ L))|].
    split; simpl; rewrite ?Hf; try done; try lia; [unfold nextIdx; rewrite Hf; unfold zlen; simpl; lia|].
    by rewrite Hs2.
  - rewrite getFirstIndex_wf by apply Hwf. simpl.
    unfold nextIdx in *. set (f := firstIdx (log rf2)) in *.
    rewrite slice_from_Some by lia. simpl.
    destruct (drop (Z.to_nat (L - f)) (log rf2)) as [|e l] eqn:Hd.
    { apply (f_equal zlen) in Hd. rewrite zlen_drop in Hd by lia.
      unfold zlen at 2 in Hd. simpl in Hd. lia. }
    simpl. eexists _, _, _. split; [done|].
    pose proof (indexed_from_drop f (log rf2) (L - f) ltac:(lia) (proj2 Hwf)) as Hix.
    rewrite Hd in Hix. destruct (log_wf_intro _ (e :: l) ltac:(done) Hix) as [Hw Hf].
    apply (f_equal zlen) in Hd. rewrite zlen_drop, zlen_cons in Hd by lia.
    rewrite firstIdx_cons in Hf.
    split; simpl; unfold nextIdx; rewrite ?firstIdx_cons; simpl; rewrite ?zlen_cons; try lia.
    + eapply log_wf_head; [|exact Hw]. simpl. lia.
    + by rewrite Hs2.
Qed.

Lemma handleInstallSnapshot_ok now server args reply rf :
  node_ok rf -> op_ok (OpInstallReply now server args reply) rf ->
  exists rf' eff,
    handleInstallSnapshotRPCResponse now server args reply rf = Some (rf', eff) /\ node_ok rf'.
Proof.
  intros Hok [Hs Hlii]. unfold handleInstallSnapshotRPCResponse, becomeFollower.
  case_decide as Hst; [|eauto 10]. destruct Hst as [Hlead Hterm].
  specialize (Hlii Hlead Hterm).
  case_decide; [|case_decide; [|eauto 10]; eexists _, _; split; [done|]; by apply (node_ok_frame rf)].
  destruct (go_index_is_Some (matchIndex rf) server) as [m Hm]; [rewrite (ok_match _ Hok); lia|].
  rewrite Hm. simpl. rewrite go_store_Some by (rewrite (ok_match _ Hok); lia). simpl.
  rewrite go_index_insert by (rewrite (ok_match _ Hok); lia).
  rewrite decide_True by done. simpl.
  rewrite go_store_Some by (rewrite (ok_next _ Hok); lia). simpl.
  eexists _, _. split; [done|]. destruct Hok as [? ? ? ? Hn Hmi Hl].
  destruct (Hl Hlead) as [Hl1 Hl2]. pose proof (Hl2 _ _ Hm).
  split; simpl; rewrite ?zlen_insert; try done. intros _. split; intros j x Hx.
  - rewrite go_index_insert in Hx by lia.
    case_decide; [injection Hx as <-; rewrite max_Zmax; lia|by eapply Hl1].
  - rewrite go_index_insert in Hx by lia.
    case_decide; [injection Hx as <-; rewrite max_Zmax; lia|by eapply Hl2].
Qed.

(** The index a leader retries from lies in its log. *)
Lemma retry_next (args : AppendEntriesArgs Cmd) reply rf fb :
  log_wf (log rf) -> aePrevLogIndex args <= nextIdx (log rf) -> fb <= nextIdx (log rf) ->
  exists nx, nx <= nextIdx (log rf) /\
    (if decide (0 < aerConflictTerm reply) then
       firstIndex ← getFirstIndex rf;
       lastIndex ← find_conflict (Z.to_nat (aePrevLogIndex args - firstIndex))
         (aePrevLogIndex args - 1) (aerConflictTerm reply) rf;
       (if decide (0 < lastIndex) then Some (lastIndex + 1) else Some fb)
     else Some fb) = Some nx.
Proof.
  intros Hwf Hprev Hfb. case_decide; [|by exists fb].
  rewrite getFirstIndex_wf by apply Hwf. simpl.
  destruct (decide (firstIdx (log rf) <= aePrevLogIndex args)).
  - destruct (find_conflict_spec (Z.to_nat (aePrevLogIndex args - firstIdx (log rf)))
      (aePrevLogIndex args - 1) (aerConflictTerm reply) rf) as (r & -> & Hr);
      [apply Hwf|lia|lia|]. simpl. case_decide; eexists; (split; [|done]); lia.
  - replace (Z.to_nat _) with O by lia. simpl. by exists fb.
Qed.

Lemma handleAppendEntries_ok now server args reply rf :
  node_ok rf -> op_ok (OpAppendReply now server args reply) rf ->
  exists rf' c eff,
    handleAppendEntriesRPCResponse now server args reply rf = Some (rf', c, eff) /\ node_ok rf'.
Proof.
  intros Hok [Hs Hargs]. unfold handleAppendEntriesRPCResponse, becomeFollower.
  case_decide as Hst; [|eauto 10]. destruct Hst as [Hlead Hterm].
  destruct (Hargs Hlead Hterm) as [Hlen Hci].
  case_decide; [|case_decide; [|eauto 10]; eexists _, _, _; split; [done|]; by apply (node_ok_frame rf)].
  pose proof (ok_log _ Hok) as Hwf. destruct Hok as [_ Hf Ha Hc Hn Hmi Hl].
  destruct (Hl Hlead) as [Hl1 Hl2].
  destruct (go_index_is_Some (matchIndex rf) server) as [m Hm]; [lia|].
  pose proof (Hl2 _ _ Hm). pose proof (zlen_nonneg (aeEntries args)).
  rewrite Hm. simpl. destruct (aerSuccess reply).
  - set (m' := max m (aePrevLogIndex args + zlen (aeEntries args))).
    rewrite (go_store_Some (matchIndex rf)) by lia. simpl.
    rewrite go_index_insert by lia.
    rewrite decide_True by done. simpl. rewrite go_store_Some by lia. simpl.
    set (rf1 := set_nextIndex _ _). rewrite getNextIndex_wf by done. simpl.
    destruct (commit_loop_spec (Z.to_nat (nextIdx (log rf) - (commitIndex rf + 1)))
      (commitIndex rf + 1) rf1) as (rf' & Hcl & Hcr); simpl; try done; try lia.
    { apply Hwf. } { by rewrite zlen_insert. }
    rewrite Hcl. simpl. eexists _, _, _. split; [done|].
    apply commit_loop_frame in Hcl. rewrite Hcl. simpl in Hcr. subst m'.
    split; simpl; rewrite ?zlen_insert; try done; try lia.
    intros _. split; intros j x Hx.
    + rewrite go_index_insert in Hx by lia.
      case_decide; [injection Hx as <-; rewrite max_Zmax; lia|by eapply Hl1].
    + rewrite go_index_insert in Hx by lia.
      case_decide; [injection Hx as <-; rewrite max_Zmax; lia|by eapply Hl2].
  - set (fb := max (aerConflictIndex reply) (m + 1)).
    destruct (retry_next args reply rf fb) as (nx & Hle & Hnx);
      [done|lia|subst fb; rewrite max_Zmax; lia|]. rewrite Hnx.
    simpl. rewrite go_store_Some by lia. simpl.
    eexists _, _, _. split; [done|]. split; simpl; rewrite ?zlen_insert; try done.
    intros _. split; intros j x Hx; [|by eapply Hl2].
    rewrite go_index_insert in Hx by lia.
    case_decide; [injection Hx as <-; lia|by eapply Hl1].
Qed.

(** [apply] hands over exactly the entries after [lastApplied] up to
    [commitIndex], in order. *)
Lemma apply_spec rf :
  node_ok rf -> dead rf <> 1 ->
  exists es,
    apply rf = Some (set_lastApplied (commitIndex rf) rf,
      map (fun e => mkApplyMsg true (Command e) (Index e) (Term e) false [] 0 0) es) /\
    zlen es = commitIndex rf - lastApplied rf /\
    forall k, 0 <= k < zlen es -> es.[k] = entry_at (log rf) (lastApplied rf + 1 + k).
Proof.
  intros Hok Hk. pose proof (ok_log _ Hok) as Hwf. destruct Hok as [_ Hf Ha Hc _ _ _].
  unfold apply, killed. rewrite bool_decide_false by done.
  destruct (decide (commitIndex rf <= lastApplied rf)).
  { exists []. assert (commitIndex rf = lastApplied rf) as -> by lia.
    split_and!; [by destruct rf|unfold zlen; simpl; lia|unfold zlen; simpl; lia]. }
  set (la := lastApplied rf) in *. set (ci := commitIndex rf) in *.
  set (f := firstIdx (log rf)) in *.
  set (es := drop (Z.to_nat (la + 1 - f)) (take (Z.to_nat (ci + 1 - f)) (log rf))).
  assert (Hes : zlen es = ci - la).
  { subst es. unfold nextIdx in Hc. unfold zlen in *. rewrite length_drop, length_take. lia. }
  exists es. split_and!; [|done|].
  - unfold go_make. rewrite decide_True by lia. simpl.
    rewrite getFirstIndex_wf by apply Hwf. simpl. fold la ci f.
    unfold nextIdx in Hc. rewrite slice_range_Some by lia. simpl. fold es.
    rewrite go_copy_full by (rewrite length_replicate; unfold zlen in Hes; lia).
    rewrite max_Zmax. by replace (Z.max la ci) with ci by lia.
  - intros k Hk'. subst es. unfold entry_at. fold f. rewrite go_index_drop by lia.
    rewrite go_index_take by lia. f_equal. lia.
Qed.

Lemma apply_ok rf : node_ok rf -> exists rf' ms, apply rf = Some (rf', ms) /\ node_ok rf'.
Proof.
  intros Hok. destruct (decide (dead rf = 1)).
  { unfold apply, killed. rewrite bool_decide_true by done. eauto. }
  destruct (apply_spec rf Hok) as (es & -> & _); [done|].
  eexists _, _. split; [done|]. destruct Hok. split; simpl; try done. lia.
Qed.

Lemma run_op_ok op rf :
  node_ok rf -> op_ok op rf -> exists rf', run_op op rf = Some rf' /\ node_ok rf'.
Proof.
  intros Hok Hop. destruct op; simpl.
  - destruct (RequestVote_ok now args rf Hok) as (? & ? & ? & -> & ?). eauto.
  - destruct (onRequestVoteReply_ok now args reply votes rf Hok) as (? & ? & ? & -> & ?). eauto.
  - destruct (runElectionTimer_ok now timeout nowTerm rf Hok) as (? & ? & ? & -> & ?). eauto.
  - destruct (AppendEntries_ok now args rf Hok Hop) as (? & ? & ? & -> & ?). eauto.
  - destruct (handleAppendEntries_ok now server args reply rf Hok Hop) as (? & ? & ? & -> & ?). eauto.
  - destruct (InstallSnapshot_ok now args rf Hok) as (? & ? & ? & -> & ?). eauto.
  - destruct (handleInstallSnapshot_ok now server args reply rf Hok Hop) as (? & ? & -> & ?). eauto.
  - destruct (Start_ok command rf Hok) as (? & ? & ? & -> & ?). eauto.
  - by apply Snapshot_ok.
  - destruct (apply_ok rf Hok) as (? & ? & -> & ?). eauto.
  - eexists. split; [done|]. by apply (node_ok_frame rf).
Qed.

(** The RPC a replication goroutine builds. *)
Lemma replicate_to_ok server term rf :
  node_ok rf -> 0 <= server < Z.of_nat (peers rf) ->
  exists call, replicate_to server term rf = Some call /\
    match call with
    | ReplStop => dead rf = 1 \/ state rf <> Leader
    | ReplInstall args =>
        isLastIncludedIndex args = firstIdx (log rf) /\ isTerm args = term
    | ReplAppend args =>
        aeTerm args = term /\ firstIdx (log rf) <= aePrevLogIndex args /\
        term_at (log rf) (aePrevLogIndex args) = Some (aePrevLogTerm args) /\
        aeEntries args = drop (Z.to_nat (aePrevLogIndex args + 1 - firstIdx (log rf))) (log rf) /\
        indexed_from (aePrevLogIndex args + 1) (aeEntries args) /\
        aePrevLogIndex args + zlen (aeEntries args) = nextIdx (log rf) - 1 /\
        aeLeaderCommit args = commitIndex rf
    end.
Proof.
  intros Hok Hs. pose proof (ok_log _ Hok) as Hwf. destruct Hok as [_ Hf Ha Hc Hn Hm Hl].
  unfold replicate_to. case_decide; [by exists ReplStop; auto|].
  destruct (decide (state rf <> Leader)) as [|Hlead%dec_stable]; [by exists ReplStop; auto|].
  rewrite getFirstIndex_wf by apply Hwf. simpl.
  destruct (go_index_is_Some (nextIndex rf) server) as [nx Hnx]; [lia|]. rewrite Hnx. simpl.
  destruct (Hl Hlead) as [Hl1 _]. pose proof (Hl1 _ _ Hnx).
  assert (Hft : exists ft, getFirstTerm rf = Some ft).
  { unfold getFirstTerm. destruct Hwf as [Hne _]. destruct (log rf); [done|]. simpl. eauto. }
  case_decide.
  { destruct Hft as [ft ->]. simpl. eexists. split; [done|]. done. }
  rewrite getNextIndex_wf by done. simpl. unfold nextIdx in *.
  set (f := firstIdx (log rf)) in *.
  unfold go_make. rewrite decide_True by lia. simpl. rewrite slice_from_Some by lia. simpl.
  rewrite getTerm_wf by apply Hwf.
  destruct (term_at_is_Some (log rf) (nx - 1)) as [pt Hpt]; [unfold nextIdx; fold f; lia|].
  rewrite Hpt. simpl. eexists. split; [done|]. simpl.
  assert (Hcp : go_copy (replicate (Z.to_nat (f + zlen (log rf) - nx)) zeroEntry)
    (drop (Z.to_nat (nx - f)) (log rf)) = drop (Z.to_nat (nx - f)) (log rf)).
  { apply go_copy_full. rewrite length_replicate, length_drop. unfold zlen in *. lia. }
  rewrite Hcp. replace (nx - 1 + 1) with nx by lia.
  split_and!; try done; try lia.
  - pose proof (indexed_from_drop f (log rf) (nx - f) ltac:(lia) (proj2 Hwf)) as Hix.
    by replace (f + (nx - f)) with nx in Hix by lia.
  - rewrite zlen_drop by lia. lia.
Qed.
End safe.
