(* ===== verification/RaftSpec.v ===== *)
(** What the handlers of one Raft peer guarantee.

    Properties of raft.go at the level of single peers and of one
    leader/follower exchange: durability across restarts, votes, log merging,
    conflict hints, the commit rule, application order and log compaction. *)

From S2P Require Import Prelude Gob Persister RaftTypes RaftNode RaftInv RaftSafe.
Local Open Scope Z_scope.

(** A sequence of operations on one peer. *)
Fixpoint run_ops {Cmd} `{Gob Z} `{Gob (list (LogEntry Cmd))}
    (ops : list (node_op Cmd)) (rf : Raft Cmd) : option (Raft Cmd) :=
  match ops with
  | [] => Some rf
  | op :: ops => rf ← run_op op rf; run_ops ops rf
  end.

(** Peers known to store index [i]: the leader and those with [matchIndex >= i]. *)
Definition replicas {Cmd} (i : Z) (rf : Raft Cmd) : list Z :=
  filter (fun j => j <> me rf /\ i <= default (i - 1) (matchIndex rf).[j]) (range_peers rf).

(** Scan order of votes and log comparison of section 5.4.1 of the paper. *)
Definition up_to_date (lastTerm lastIndex term index : Z) : Prop :=
  lastTerm < term \/ (term = lastTerm /\ lastIndex <= index).

(** * Merging and looking up *)

Section lookup.
Context {Cmd : Type}.
Implicit Types (l es : list (LogEntry Cmd)) (rf : Raft Cmd).

Lemma entry_at_app_l l es i :
  l <> [] -> i < nextIdx l -> entry_at (l ++ es) i = entry_at l i.
Proof.
  intros Hne Hi. unfold entry_at, nextIdx in *. rewrite firstIdx_app by done.
  by rewrite go_index_app_l by lia.
Qed.

Lemma entry_at_log_before l i j :
  l <> [] -> firstIdx l < i -> j < i -> entry_at (log_before l i) j = entry_at l j.
Proof.
  intros Hne Hi Hj. unfold entry_at. rewrite firstIdx_log_before by done.
  unfold log_before. by rewrite go_index_take by lia.
Qed.

Lemma entry_at_app_new l es i k :
  l <> [] -> nextIdx l = i -> 0 <= k -> entry_at (l ++ es) (i + k) = es.[k].
Proof.
  intros Hne <- Hk. unfold entry_at, nextIdx. rewrite firstIdx_app by done.
  rewrite go_index_app_r by lia. f_equal. lia.
Qed.

Lemma log_before_ne l i : l <> [] -> firstIdx l < i -> log_before l i <> [].
Proof.
  intros Hne Hi. unfold log_before. destruct l as [|e l]; [done|].
  destruct (Z.to_nat (i - firstIdx (e :: l))) eqn:Hz; [lia|done].
Qed.

Lemma nextIdx_log_before l i :
  l <> [] -> firstIdx l < i <= nextIdx l -> nextIdx (log_before l i) = i.
Proof.
  intros Hne Hi. unfold nextIdx at 1. rewrite firstIdx_log_before by (done || lia).
  rewrite log_before_zlen by lia. lia.
Qed.

(** Up to [PrevLogIndex] the merged log is the old one. *)
Lemma merge_log_old es prev l i :
  log_wf l -> firstIdx l <= prev < nextIdx l -> i <= prev ->
  entry_at (merge_log (prev + 1) es l) i = entry_at l i.
Proof.
  intros Hwf. revert prev. induction es as [|e es IH]; intros prev Hp Hi; simpl; [done|].
  pose proof (proj1 Hwf) as Hne.
  destruct (term_at l (prev + 1)) as [t|] eqn:Ht.
  - assert (Hr : prev + 1 < nextIdx l).
    { unfold term_at in Ht. destruct (entry_at l (prev + 1)) eqn:He; [|done].
      apply entry_at_Some_range in He. lia. }
    case_decide; [apply IH; lia|].
    rewrite entry_at_app_l; [by apply entry_at_log_before; [done|lia..]| |].
    + apply log_before_ne; [done|lia].
    + rewrite nextIdx_log_before by (done || lia). lia.
  - apply entry_at_app_l; [done|lia].
Qed.

(** After it, the merged log agrees with the new entries. *)
Lemma merge_log_new es prev l k e :
  log_wf l -> firstIdx l <= prev < nextIdx l -> es.[k] = Some e ->
  term_at (merge_log (prev + 1) es l) (prev + 1 + k) = Some (Term e).
Proof.
  intros Hwf. revert prev k. induction es as [|e0 es IH]; intros prev k Hp Hk;
    [by apply go_index_nil in Hk|].
  pose proof (go_index_Some_lt _ _ _ Hk) as Hk0. pose proof (proj1 Hwf) as Hne. simpl.
  destruct (term_at l (prev + 1)) as [t|] eqn:Ht.
  - assert (Hr : prev + 1 < nextIdx l).
    { unfold term_at in Ht. destruct (entry_at l (prev + 1)) eqn:He; [|done].
      apply entry_at_Some_range in He. lia. }
    case_decide as Hte.
    + destruct (decide (k = 0)) as [->|].
      * rewrite go_index_cons_0 in Hk. injection Hk as <-. rewrite Z.add_0_r.
        unfold term_at. rewrite merge_log_old by (done || lia). by rewrite <- Hte.
      * rewrite go_index_cons_S in Hk by lia.
        replace (prev + 1 + k) with (prev + 1 + 1 + (k - 1)) by lia. apply IH; [lia|done].
    + unfold term_at. rewrite entry_at_app_new; [by rewrite Hk|by apply log_before_ne; [|lia]| |lia].
      by apply nextIdx_log_before; [|lia].
  - assert (nextIdx l = prev + 1) as Hn.
    { destruct (decide (prev + 1 < nextIdx l)); [|lia].
      destruct (term_at_is_Some l (prev + 1)); [lia|congruence]. }
    unfold term_at. rewrite entry_at_app_new by (done || lia). by rewrite Hk.
Qed.

Lemma merge_log_nextIdx es prev l :
  log_wf l -> firstIdx l <= prev < nextIdx l ->
  prev + zlen es < nextIdx (merge_log (prev + 1) es l).
Proof.
  intros Hwf Hp. destruct es as [|e0 es'] eqn:Hes; [unfold zlen; simpl; lia|].
  rewrite <- Hes. assert (Hz : 0 < zlen es) by (subst; apply zlen_pos; done).
  destruct (go_index_is_Some es (zlen es - 1)) as [e He]; [lia|].
  pose proof (merge_log_new es prev l _ e Hwf Hp He) as Hm. unfold term_at in Hm.
  destruct (entry_at _ _) eqn:Hent; [|done]. apply entry_at_Some_range in Hent. lia.
Qed.

Lemma count_match_filter js i mi self c :
  count_match js i mi self = Some c ->
  c = 1 + zlen (filter (fun j => j <> self /\ i <= default (i - 1) mi.[j]) js).
Proof.
  revert c. induction js as [|j js IH]; intros c Hc; simpl in Hc.
  - by injection Hc as <-.
  - apply bind_Some in Hc as (c' & Hc' & Hc). apply IH in Hc'. rewrite filter_cons.
    destruct (decide (j = self)) as [->|].
    { injection Hc as <-. rewrite decide_False by naive_solver. done. }
    destruct (mi.[j]) as [m|]; [|done]. simpl in *. injection Hc as <-.
    case_decide; case_decide; rewrite ?zlen_cons; naive_solver lia.
Qed.
End lookup.

(** * Properties *)

Section properties.
Context {Cmd : Type} `{Gob Z} `{Gob (list (LogEntry Cmd))}.
Context `{!GobLaws Z} `{!GobLaws (list (LogEntry Cmd))}.
Implicit Types (rf : Raft Cmd).

Lemma run_ops_durable ops rf rf' : run_ops ops rf = Some rf' -> durable rf -> durable rf'.
Proof.
  revert rf. induction ops as [|op ops IH]; intros rf Hr Hd; simpl in Hr.
  - by injection Hr as <-.
  - apply bind_Some in Hr as (rf1 & Hop & Hr). eapply IH; [done|].
    by eapply run_op_durable.
Qed.

Lemma Make_durable n self ps now rf eff : Make n self ps now = Some (rf, eff) -> durable rf.
Proof.
  intros (Hr & Hp & _)%Make_recovers. unfold durable. rewrite Hp. by rewrite Hr.
Qed.

(** C11. Crash recovery: whatever a peer has done since [Make], a restart from
    its persister rebuilds exactly the current term, vote and log it had, and
    starts as a follower that considers only the snapshot as applied. *)
Theorem restart_restores n self ps now now' ops rf0 eff0 rf :
  Make n self ps now = Some (rf0, eff0) -> run_ops ops rf0 = Some rf ->
  log_wf (log rf) ->
  exists rf' eff', Make n self (persister rf) now' = Some (rf', eff') /\
    currentTerm rf' = currentTerm rf /\ voteFor rf' = voteFor rf /\ log rf' = log rf /\
    state rf' = Follower /\ commitIndex rf' = firstIdx (log rf) /\
    lastApplied rf' = firstIdx (log rf).
Proof.
  intros Hmk Hops Hwf.
  pose proof (run_ops_durable _ _ _ Hops (Make_durable _ _ _ _ _ _ Hmk)) as Hd.
  unfold durable in Hd.
  destruct (Make_is_Some n self (persister rf) now') as (rf' & eff' & Hmk').
  { by rewrite Hd. }
  exists rf', eff'. split; [done|].
  apply Make_recovers in Hmk' as (Hr & _ & _ & _ & Hs & Hc & Ha).
  rewrite Hd in Hr. injection Hr as -> -> Hl. by rewrite Hc, Ha, Hl.
Qed.

(** Votes are final: no operation lowers the current term, and within a
    term a vote once cast is never changed. *)
Theorem vote_final op rf rf' :
  run_op op rf = Some rf' ->
  currentTerm rf <= currentTerm rf' /\
  (currentTerm rf' = currentTerm rf -> voteFor rf <> -1 -> voteFor rf' = voteFor rf).
Proof. apply run_op_term_vote. Qed.

(** No panic: every operation of a well-formed peer whose caller keeps the
    contract returns, and the peer is well-formed afterwards. *)
Theorem operations_never_panic op rf :
  node_ok rf -> op_ok op rf -> exists rf', run_op op rf = Some rf' /\ node_ok rf'.
Proof. apply run_op_ok. Qed.

(** [RequestVote] on a live peer grants exactly when the candidate's term
    is not stale, no other candidate has the vote of that term and the
    candidate's log is at least as up to date; a granted vote is recorded in
    memory and on stable storage. *)
Theorem RequestVote_grants now args rf e :
  state rf <> Dead -> log_wf (log rf) -> (log rf).[zlen (log rf) - 1] = Some e ->
  exists rf' rep eff, RequestVote now args rf = Some (rf', rep, eff) /\
    rvrTerm rep = currentTerm rf' /\ currentTerm rf' = Z.max (currentTerm rf) (rvTerm args) /\
    (rvrVoteGranted rep = true <->
       currentTerm rf <= rvTerm args /\
       (currentTerm rf < rvTerm args \/ voteFor rf = -1 \/ voteFor rf = rvCandidateId args) /\
       up_to_date (Term e) (Index e) (rvLastLogTerm args) (rvLastLogIndex args)) /\
    (rvrVoteGranted rep = true -> rvCandidateId args <> -1 ->
       voteFor rf' = rvCandidateId args /\
       (durable rf -> durable rf')).
Proof.
  intros Hd Hwf He.
  assert (Hdur : forall rf' rep eff, RequestVote now args rf = Some (rf', rep, eff) ->
    durable rf -> durable rf').
  { intros rf' rep eff Hr. apply (run_op_durable (OpRequestVote now args)).
    simpl. by rewrite Hr. }
  unfold RequestVote, becomeFollower, getLastIndex, getLastTerm, up_to_date in *.
  rewrite decide_False by done. rewrite decide_False in Hdur by done.
  destruct (decide (currentTerm rf < rvTerm args)) as [Hlt|Hlt]; simpl in *;
    [destruct (decide (state rf <> Follower)); simpl in *|];
    rewrite He in *; simpl in *; repeat (case_decide; simpl in * );
    eexists _, _, _; (split; [done|]); simpl; (split; [done|]); (split; [lia|]);
    (split; [naive_solver lia|]); intros Hg Hc; try done;
    (split; [naive_solver lia|by apply (Hdur _ _ _ eq_refl)]).
Qed.

Lemma AppendEntries_cases now args rf :
  log_wf (log rf) -> indexed_from (aePrevLogIndex args + 1) (aeEntries args) ->
  exists rf' rep eff, AppendEntries now args rf = Some (rf', rep, eff) /\
    (aerSuccess rep = true <->
       state rf <> Dead /\ currentTerm rf <= aeTerm args /\
       term_at (log rf) (aePrevLogIndex args) = Some (aePrevLogTerm args)) /\
    (aerSuccess rep = true ->
       log rf' = merge_log (aePrevLogIndex args + 1) (aeEntries args) (log rf) /\
       commitIndex rf' =
         ae_commit (commitIndex rf) (aeLeaderCommit args) (nextIdx (log rf'))) /\
    (aerSuccess rep = false ->
       log rf' = log rf /\ commitIndex rf' = commitIndex rf).
Proof.
  intros Hwf Hix. destruct (decide (state rf = Dead)).
  { rewrite AppendEntries_dead by done. eexists _, _, _. split; [done|]. simpl. naive_solver. }
  destruct (decide (aeTerm args < currentTerm rf)).
  { rewrite AppendEntries_stale by done. eexists _, _, _. split; [done|]. simpl. naive_solver lia. }
  destruct (decide (term_at (log rf) (aePrevLogIndex args) = Some (aePrevLogTerm args))) as [Hp|Hp].
  - destruct (AppendEntries_accept now args rf) as (rf' & eff & -> & Hl & Hc & _);
      try done; [lia|]. eexists _, _, _. split; [done|]. simpl. rewrite Hl in Hc. rewrite Hl.
    naive_solver lia.
  - destruct (AppendEntries_reject now args rf) as
      (rf' & rep & eff & -> & Hl & Hc & _ & _ & _ & _ & _ & _ & Hs & _); try done; [lia|].
    eexists _, _, _. split; [done|]. rewrite Hs. naive_solver.
Qed.

(** C12. [AppendEntries] implements the receiver rules of the paper: it succeeds
    exactly when the peer is live, the term is not stale and the log holds
    [PrevLogTerm] at [PrevLogIndex]; then the log is the paper's merge of the
    old log with the entries, otherwise log and commit index are untouched. *)
Theorem AppendEntries_merges now args rf :
  log_wf (log rf) -> indexed_from (aePrevLogIndex args + 1) (aeEntries args) ->
  exists rf' rep eff, AppendEntries now args rf = Some (rf', rep, eff) /\
    (aerSuccess rep = true <->
       state rf <> Dead /\ currentTerm rf <= aeTerm args /\
       term_at (log rf) (aePrevLogIndex args) = Some (aePrevLogTerm args)) /\
    (aerSuccess rep = true ->
       log rf' = merge_log (aePrevLogIndex args + 1) (aeEntries args) (log rf) /\
       commitIndex rf' =
         ae_commit (commitIndex rf) (aeLeaderCommit args) (nextIdx (log rf'))) /\
    (aerSuccess rep = false ->
       log rf' = log rf /\ commitIndex rf' = commitIndex rf).
Proof. apply AppendEntries_cases. Qed.

(** Conflict hints: a live, up-to-date follower that rejects reports either
    that its log is too short (the first missing index, term -1) or the first
    index of the run of entries of the conflicting term that ends at
    [PrevLogIndex] (or the start of its log). *)
Theorem AppendEntries_conflict_hint now args rf rf' rep eff :
  state rf <> Dead -> currentTerm rf <= aeTerm args -> log_wf (log rf) ->
  firstIdx (log rf) <= aePrevLogIndex args ->
  AppendEntries now args rf = Some (rf', rep, eff) -> aerSuccess rep = false ->
  indexed_from (aePrevLogIndex args + 1) (aeEntries args) ->
  aerTerm rep = aeTerm args /\ aerConflictIndex rep <= aePrevLogIndex args /\
  ( (aerConflictTerm rep = -1 /\ aerConflictIndex rep = nextIdx (log rf))
  \/ ((forall i, aerConflictIndex rep <= i <= aePrevLogIndex args ->
          term_at (log rf) i = Some (aerConflictTerm rep)) /\
      (aerConflictIndex rep = firstIdx (log rf) \/
       term_at (log rf) (aerConflictIndex rep - 1) <> Some (aerConflictTerm rep)))).
Proof.
  intros Hd Ht Hwf Hf Hae Hsf Hix.
  destruct (decide (term_at (log rf) (aePrevLogIndex args) = Some (aePrevLogTerm args))) as [Hp|Hp].
  { destruct (AppendEntries_accept now args rf Hd Ht Hwf Hix Hp) as (rf1 & eff1 & Hacc & _).
    rewrite Hae in Hacc. injection Hacc as -> -> ->. done. }
  destruct (AppendEntries_reject now args rf Hd Ht Hwf Hp) as
    (rf1 & rep1 & eff1 & Hrej & _ & _ & _ & _ & _ & _ & _ & _ & _ & Hcase).
  rewrite Hae in Hrej. injection Hrej as <- <- <-.
  destruct Hcase as [[? _]|[(? & ? & ? & ?)|(? & ? & ? & ? & ?)]];
    [lia|split_and!; [done|lia|by left]|split_and!; [done|lia|by right]].
Qed.

(** Replication: when a follower accepts the RPC a leader built with its
    current log, the follower's log agrees with the leader's from
    [PrevLogIndex] to the leader's last index, and its commit index becomes
    the larger of its own and the leader's (never an index the leader did not
    send). *)
Theorem replication_agreement now server term ldr flw args flw' rep eff :
  node_ok ldr -> 0 <= server < Z.of_nat (peers ldr) -> log_wf (log flw) ->
  replicate_to server term ldr = Some (ReplAppend args) ->
  AppendEntries now args flw = Some (flw', rep, eff) -> aerSuccess rep = true ->
  (forall i e, aePrevLogIndex args <= i -> entry_at (log ldr) i = Some e ->
     term_at (log flw') i = Some (Term e)) /\
  commitIndex flw' = Z.max (commitIndex flw) (commitIndex ldr) /\
  (commitIndex flw < commitIndex flw' ->
     commitIndex flw' <= aePrevLogIndex args + zlen (aeEntries args)).
Proof.
  intros Hok Hs Hwf Hrep Hae Hsucc.
  destruct (replicate_to_ok server term ldr Hok Hs) as (call & Hc & Hcall).
  rewrite Hrep in Hc. injection Hc as <-.
  destruct Hcall as (Ht & Hf & Hpt & Hes & Hix & Hlen & Hlc).
  destruct (AppendEntries_cases now args flw Hwf Hix) as (rf1 & rep1 & eff1 & Hm & Hiff & Hyes & _).
  rewrite Hae in Hm. injection Hm as <- <- <-.
  destruct (proj1 Hiff Hsucc) as (_ & _ & Hprev). destruct (Hyes Hsucc) as [Hl Hci].
  assert (Hp : firstIdx (log flw) <= aePrevLogIndex args < nextIdx (log flw)).
  { unfold term_at in Hprev. destruct (entry_at _ _) eqn:He; [|done].
    by apply entry_at_Some_range in He. }
  pose proof (merge_log_nextIdx (aeEntries args) _ _ Hwf Hp) as Hnext.
  pose proof (ok_commit _ Hok) as Hcm. rewrite <- Hl in Hnext.
  split_and!.
  - intros i e Hi He. destruct (decide (i = aePrevLogIndex args)) as [->|].
    + unfold term_at in Hpt. rewrite He in Hpt. injection Hpt as ->.
      rewrite Hl. unfold term_at. rewrite merge_log_old by (done || lia). done.
    + pose proof (entry_at_Some_range _ _ _ He).
      rewrite Hl. replace i with (aePrevLogIndex args + 1 + (i - (aePrevLogIndex args + 1))) by lia.
      apply merge_log_new; [done|done|]. rewrite Hes, go_index_drop by lia.
      unfold entry_at in He. rewrite <- He. f_equal. lia.
  - rewrite Hci, Hlc. unfold ae_commit. case_decide; rewrite ?min_Zmin; lia.
  - rewrite Hci, Hlc. unfold ae_commit. case_decide; rewrite ?min_Zmin; lia.
Qed.

Lemma commit_loop_quorum n i rf rf' :
  log rf <> [] -> commit_loop n i rf = Some rf' -> commitIndex rf < i ->
  commitIndex rf' = commitIndex rf \/
  (i <= commitIndex rf' /\
   term_at (log rf) (commitIndex rf') = Some (currentTerm rf) /\
   Z.of_nat (peers rf) < 2 * (1 + zlen (replicas (commitIndex rf') rf))).
Proof.
  intros Hne. revert i rf Hne. induction n as [|n IH]; intros i rf Hne Hr Hc; simpl in Hr.
  - injection Hr as <-. by left.
  - apply bind_Some in Hr as (t & Ht & Hr). rewrite getTerm_wf in Ht by done.
    case_decide as Htc.
    + apply bind_Some in Hr as (c & Hcm & Hr). apply count_match_filter in Hcm.
      case_decide as Hq; [|injection Hr as <-; by left].
      destruct (IH (i + 1) (set_commitIndex i rf)) as [Heq|(Hle & Hterm & Hquo)];
        simpl in *; try done; try lia.
      * right. rewrite Heq. split_and!; [lia|congruence|].
        unfold replicas. rewrite Hcm in Hq. lia.
      * right. split_and!; [lia|done|]. exact Hquo.
    + destruct (IH (i + 1) rf Hne Hr ltac:(lia)) as [?|(? & ? & ?)]; [by left|].
      right. split_and!; [lia|done|done].
Qed.

(** The commit rule of section 5.4.2: a reply can only raise the leader's
    commit index, and only to an index whose entry is of the leader's own term
    and which a majority of the peers (the leader included) is known to store. *)
Theorem commit_rule now server args reply rf rf' c eff :
  node_ok rf ->
  handleAppendEntriesRPCResponse now server args reply rf = Some (rf', c, eff) ->
  commitIndex rf' = commitIndex rf \/
  (commitIndex rf < commitIndex rf' /\ state rf' = Leader /\
   term_at (log rf') (commitIndex rf') = Some (currentTerm rf') /\
   Z.of_nat (peers rf') < 2 * (1 + zlen (replicas (commitIndex rf') rf'))).
Proof.
  intros Hok Hh. pose proof (proj1 (ok_log _ Hok)) as Hne.
  unfold handleAppendEntriesRPCResponse, becomeFollower in Hh.
  case_decide as Hst; [|handler_cases; by left].
  case_decide; [|handler_cases; by left].
  destruct (aerSuccess reply); [|handler_cases; by left].
  apply bind_Some in Hh as (m & _ & Hh). apply bind_Some in Hh as (mi & Hmi & Hh).
  apply bind_Some in Hh as (m' & _ & Hh). apply bind_Some in Hh as (ni & Hni & Hh).
  apply bind_Some in Hh as (nx & _ & Hh). apply bind_Some in Hh as (rf1 & Hcl & Hh).
  injection Hh as <- <- <-.
  set (rf0 := set_nextIndex ni (set_matchIndex mi rf)) in *.
  pose proof (commit_loop_frame _ _ _ _ Hcl) as Hfr.
  destruct (commit_loop_quorum _ _ rf0 rf1 Hne Hcl) as [?|(Hle & Ht & Hq)];
    [simpl; lia|by left|right].
  assert (Hr : replicas (commitIndex rf1) rf1 = replicas (commitIndex rf1) rf0).
  { rewrite Hfr at 2. unfold replicas, range_peers. simpl. done. }
  rewrite Hr. rewrite Hfr. simpl in *. split_and!; [lia|naive_solver|done|done].
Qed.

(** The retry loop makes progress: a rejection for a reason other than a
    newer term makes the leader resend from a strictly smaller [nextIndex], as
    long as the follower has not already acknowledged [PrevLogIndex]. *)
Theorem retry_decreases now server args reply rf m :
  node_ok rf -> op_ok (OpAppendReply now server args reply) rf ->
  state rf = Leader -> currentTerm rf = aeTerm args -> aerTerm reply = currentTerm rf ->
  aerSuccess reply = false -> (matchIndex rf).[server] = Some m ->
  m < aePrevLogIndex args -> aerConflictIndex reply <= aePrevLogIndex args ->
  (nextIndex rf).[server] = Some (aePrevLogIndex args + 1) ->
  exists rf' next,
    handleAppendEntriesRPCResponse now server args reply rf = Some (rf', true, []) /\
    (nextIndex rf').[server] = Some next /\ next < aePrevLogIndex args + 1 /\
    rf' = set_nextIndex (nextIndex rf') rf.
Proof.
  intros Hok [Hs Hop] Hl Ht Hrt Hsf Hm Hlt Hci Hnx. specialize (Hop Hl Ht).
  pose proof (ok_log _ Hok) as Hwf. destruct Hok as [_ Hf Ha Hc Hn Hmi _].
  unfold handleAppendEntriesRPCResponse.
  rewrite decide_True by done. rewrite decide_True by done. rewrite Hsf, Hm. simpl.
  set (fb := max (aerConflictIndex reply) (m + 1)).
  assert (Hfb : fb < aePrevLogIndex args + 1) by (subst fb; rewrite max_Zmax; lia).
  assert (Hnext : exists nx, nx < aePrevLogIndex args + 1 /\
    (if decide (0 < aerConflictTerm reply) then
       firstIndex ← getFirstIndex rf;
       lastIndex ← find_conflict (Z.to_nat (aePrevLogIndex args - firstIndex))
         (aePrevLogIndex args - 1) (aerConflictTerm reply) rf;
       (if decide (0 < lastIndex) then Some (lastIndex + 1) else Some fb)
     else Some fb) = Some nx).
  { case_decide; [|eauto]. rewrite getFirstIndex_wf by apply Hwf. simpl.
    pose proof (zlen_nonneg (aeEntries args)).
    destruct (decide (firstIdx (log rf) <= aePrevLogIndex args)).
    - destruct (find_conflict_spec (Z.to_nat (aePrevLogIndex args - firstIdx (log rf)))
        (aePrevLogIndex args - 1) (aerConflictTerm reply) rf) as (r & -> & Hr);
        [apply Hwf|lia|lia|]. simpl.
      case_decide; eexists; (split; [|done]); lia.
    - replace (Z.to_nat _) with O by lia. simpl. eauto. }
  destruct Hnext as (nx & Hle & ->). simpl. rewrite go_store_Some by lia. simpl.
  eexists _, nx. split; [done|]. simpl. rewrite go_index_insert by lia.
  rewrite decide_True by done. split_and!; [done|done|by destruct rf].
Qed.

(** A follower whose log starts after [PrevLogIndex] (it compacted entries
    the leader has not seen acknowledged) answers with term 0, and a leader
    ignores that answer: its state, [nextIndex] included, does not change, so
    its next attempt carries the same [PrevLogIndex]. *)
Theorem compacted_prefix_ignored now now' server term ldr flw args :
  node_ok ldr -> 0 < currentTerm ldr -> state flw <> Dead ->
  currentTerm flw <= aeTerm args -> log_wf (log flw) ->
  replicate_to server term ldr = Some (ReplAppend args) ->
  aePrevLogIndex args < firstIdx (log flw) ->
  exists flw' rep eff,
    AppendEntries now args flw = Some (flw', rep, eff) /\ log flw' = log flw /\
    handleAppendEntriesRPCResponse now' server args rep ldr = Some (ldr, false, []).
Proof.
  intros Hok Hct Hd Ht Hwf Hrep Hp.
  destruct (AppendEntries_reject now args flw Hd Ht Hwf) as
    (flw' & rep & eff & Hae & Hl & _ & _ & _ & _ & _ & _ & _ & _ & Hcase).
  { unfold term_at, entry_at. by rewrite go_index_neg by lia. }
  exists flw', rep, eff. split_and!; [done|done|].
  destruct Hcase as [(_ & H0' & _)|[(? & _)|(? & _)]];
    [|pose proof (log_wf_zlen _ Hwf); unfold nextIdx in *; lia|lia].
  unfold handleAppendEntriesRPCResponse. case_decide; [|done].
  rewrite decide_False by lia. by rewrite decide_False by lia.
Qed.

(** The service receives committed entries in log order: one round of
    [apply] sends exactly the entries after [lastApplied] up to [commitIndex],
    each with its own index and term, and records them as applied. *)
Theorem apply_in_order rf :
  node_ok rf -> dead rf <> 1 ->
  exists msgs,
    apply rf = Some (set_lastApplied (commitIndex rf) rf, msgs) /\
    zlen msgs = commitIndex rf - lastApplied rf /\
    forall k m, msgs.[k] = Some m ->
      CommandValid m = true /\ CommandIndex m = lastApplied rf + 1 + k /\
      exists e, entry_at (log rf) (CommandIndex m) = Some e /\
        amCommand m = Command e /\ CommandTerm m = Term e.
Proof.
  intros Hok Hk. destruct (apply_spec rf Hok Hk) as (es & -> & Hlen & Hes).
  eexists. split; [done|]. split; [unfold zlen in *; by rewrite length_map|].
  intros k m Hm. pose proof (go_index_Some_lt _ _ _ Hm) as Hlt.
  unfold zlen in Hlt. rewrite length_map in Hlt.
  destruct (go_index_is_Some es k) as [e He]; [unfold zlen; lia|].
  pose proof He as He'. rewrite Hes in He' by (unfold zlen; lia).
  rewrite go_index_lookup in Hm by lia. rewrite go_index_lookup in He by lia.
  rewrite list_lookup_fmap, He in Hm.
  injection Hm as <-. simpl.
  rewrite (entry_at_Index _ _ _ (ok_log _ Hok) He'). split_and!; [done|done|].
  by exists e.
Qed.

(** Log compaction keeps what it must: after [Snapshot index], the log
    starts with an empty entry for [index] that carries its term, every later
    entry is unchanged, and storage holds the new log together with the
    snapshot. *)
Theorem Snapshot_compacts index snap rf :
  node_ok rf -> firstIdx (log rf) < index <= lastApplied rf ->
  exists rf', Snapshot index snap rf = Some rf' /\
    firstIdx (log rf') = index /\ nextIdx (log rf') = nextIdx (log rf) /\
    (forall i, index < i -> entry_at (log rf') i = entry_at (log rf) i) /\
    term_at (log rf') index = term_at (log rf) index /\
    Command <$> entry_at (log rf') index = Some None /\
    ReadSnapshot (persister rf') = snap /\ durable rf'.
Proof.
  intros Hok Hi. pose proof (ok_log _ Hok) as Hwf. pose proof (ok_commit _ Hok) as Hc.
  pose proof (ok_applied _ Hok) as Ha.
  unfold Snapshot. rewrite getFirstIndex_wf by apply Hwf. simpl.
  rewrite decide_False by lia. unfold nextIdx in *.
  set (f := firstIdx (log rf)) in *. rewrite slice_from_Some by lia. simpl.
  destruct (drop (Z.to_nat (index - f)) (log rf)) as [|e l] eqn:Hd.
  { apply (f_equal zlen) in Hd. rewrite zlen_drop in Hd by lia.
    unfold zlen at 2 in Hd. simpl in Hd. lia. }
  assert (Hnth : forall j, 0 <= j -> (e :: l).[j] = (log rf).[index - f + j]).
  { intros j Hj. rewrite <- Hd. by rewrite go_index_drop by lia. }
  pose proof (Hnth 0 ltac:(lia)) as H0'. rewrite go_index_cons_0, Z.add_0_r in H0'.
  assert (HI : Index e = index).
  { symmetry in H0'. apply (proj2 Hwf) in H0'. fold f in H0'. lia. }
  apply (f_equal zlen) in Hd. rewrite zlen_drop, zlen_cons in Hd by lia.
  simpl. eexists. split; [done|]. simpl. unfold entry_at, term_at, entry_at. simpl.
  rewrite ?firstIdx_cons. simpl. rewrite ?zlen_cons. fold f. split_and!.
  - done.
  - lia.
  - intros i Hlt. rewrite HI, go_index_cons_S by lia.
    pose proof (Hnth (i - index) ltac:(lia)) as Hj. rewrite go_index_cons_S in Hj by lia.
    rewrite Hj. f_equal. lia.
  - rewrite HI, Z.sub_diag, go_index_cons_0. simpl. by rewrite <- H0'.
  - rewrite HI, Z.sub_diag. done.
  - apply ReadSnapshot_Save.
  - apply saved_durable. unfold saved. simpl. by rewrite clone_id.
Qed.
End properties.
