(* ===== verification/RaftCluster.v ===== *)
(** A Raft cluster: peers running raft.go over the RPC layer.

    The network is the list of RPCs in progress.  As in labrpc, a request is
    executed at most once and its reply is handed over at most once, after any
    delay and in any order, and either may be lost; a lost RPC is dropped
    ([ADrop]).  A replication goroutine that is about to lock is a [Repl] token
    carrying the term captured by [runHeartBeats].  [receivedVotes] is the
    variable the vote closures of one election share, keyed by candidate and
    term.  A peer may crash and restart from its persister at any time; timers
    may fire at any time.  An action whose handler panics is not enabled.

    [delivered] are the messages for the services, in the order of the critical
    sections that posted them.  They are sent later, without the lock, by the
    goroutine of the RPC or of [apply], and a service may read them in another order:
    [sendable] of [RaftServices] says which. *)

From S2P Require Import Prelude Gob Persister RaftTypes RaftNode RaftInv.
Local Open Scope Z_scope.

Inductive Rpc (Cmd : Type) :=
| RVReq (src dst : Z) (args : RequestVoteArgs)
| RVRep (src dst : Z) (args : RequestVoteArgs) (reply : RequestVoteReply)
| Repl (src dst : Z) (term : Z)
| AEReq (src dst : Z) (args : AppendEntriesArgs Cmd)
| AERep (src dst : Z) (args : AppendEntriesArgs Cmd) (reply : AppendEntriesReply)
| ISReq (src dst : Z) (args : InstallSnapshotArgs)
| ISRep (src dst : Z) (args : InstallSnapshotArgs) (reply : InstallSnapshotReply).
Arguments RVReq {Cmd}. Arguments RVRep {Cmd}. Arguments Repl {Cmd}.
Arguments AEReq {Cmd}. Arguments AERep {Cmd}.
Arguments ISReq {Cmd}. Arguments ISRep {Cmd}.

Record Cluster (Cmd : Type) := mkCluster {
  nodes : gmap Z (Raft Cmd);
  rpcs : list (Rpc Cmd);
  receivedVotes : gmap (Z * Z) Z;
  delivered : list (Z * ApplyMsg Cmd)
}.
Arguments mkCluster {Cmd}.
Arguments nodes {Cmd}. Arguments rpcs {Cmd}.
Arguments receivedVotes {Cmd}. Arguments delivered {Cmd}.

Inductive Action (Cmd : Type) :=
| ATimer (i now timeout nowTerm : Z)
| AHeartBeat (i nowTerm : Z)
| ADeliver (k : nat) (now : Z)
| ADrop (k : nat)
| AStart (i : Z) (command : Cmd)
| ASnapshot (i index : Z) (snap : bytes)
| AApply (i : Z)
| AKill (i : Z)
| ARestart (i now : Z).
Arguments ATimer {Cmd}. Arguments AHeartBeat {Cmd}. Arguments ADeliver {Cmd}.
Arguments ADrop {Cmd}. Arguments AStart {Cmd}. Arguments ASnapshot {Cmd}.
Arguments AApply {Cmd}. Arguments AKill {Cmd}. Arguments ARestart {Cmd}.

Section cluster.
Context {Cmd : Type} `{Gob Z} `{Gob (list (LogEntry Cmd))}.
Implicit Types (c : Cluster Cmd) (rf : Raft Cmd) (eff : list (Effect Cmd)).

(** The RPC goroutines a handler of peer [i] starts. *)
Definition emit (i : Z) eff : list (Rpc Cmd) :=
  omap (fun e => match e with
                 | EffRequestVote s args => Some (RVReq i s args)
                 | EffReplicate s term => Some (Repl i s term)
                 | _ => None
                 end) eff.

(** The messages it posts for the service of peer [i]. *)
Definition emit_apply (i : Z) eff : list (Z * ApplyMsg Cmd) :=
  omap (fun e => match e with EffApply m => Some (i, m) | _ => None end) eff.

(** Peer [i] becomes [rf] with effects [eff]; [ms] is what is in progress. *)
Definition update_node (i : Z) rf eff (ms : list (Rpc Cmd)) c : Cluster Cmd :=
  mkCluster (<[i := rf]> (nodes c)) (ms ++ emit i eff) (receivedVotes c)
    (delivered c ++ emit_apply i eff).

Definition set_votes (key : Z * Z) (v : Z) c : Cluster Cmd :=
  mkCluster (nodes c) (rpcs c) (<[key := v]> (receivedVotes c)) (delivered c).

Definition deliver (m : Rpc Cmd) (ms : list (Rpc Cmd)) (now : Z) c : option (Cluster Cmd) :=
  match m with
  | RVReq src dst args =>
      rf ← nodes c !! dst;
      '(rf, reply, eff) ← RequestVote now args rf;
      Some (update_node dst rf eff (RVRep src dst args reply :: ms) c)
  | RVRep src dst args reply =>
      rf ← nodes c !! src;
      votes ← receivedVotes c !! (src, rvTerm args);
      '(rf, votes, eff) ← onRequestVoteReply now args reply votes rf;
      Some (set_votes (src, rvTerm args) votes (update_node src rf eff ms c))
  | Repl src dst term =>
      rf ← nodes c !! src;
      call ← replicate_to dst term rf;
      Some (update_node src rf []
        (match call with
         | ReplStop => ms
         | ReplInstall args => ISReq src dst args :: ms
         | ReplAppend args => AEReq src dst args :: ms
         end) c)
  | AEReq src dst args =>
      rf ← nodes c !! dst;
      '(rf, reply, eff) ← AppendEntries now args rf;
      Some (update_node dst rf eff (AERep src dst args reply :: ms) c)
  | AERep src dst args reply =>
      rf ← nodes c !! src;
      '(rf, again, eff) ← handleAppendEntriesRPCResponse now dst args reply rf;
      Some (update_node src rf eff
        (if (again : bool) then Repl src dst (aeTerm args) :: ms else ms) c)
  | ISReq src dst args =>
      rf ← nodes c !! dst;
      '(rf, reply, eff) ← InstallSnapshot now args rf;
      Some (update_node dst rf eff (ISRep src dst args reply :: ms) c)
  | ISRep src dst args reply =>
      rf ← nodes c !! src;
      '(rf, eff) ← handleInstallSnapshotRPCResponse now dst args reply rf;
      Some (update_node src rf eff ms c)
  end.

Definition exec (a : Action Cmd) c : option (Cluster Cmd) :=
  match a with
  | ATimer i now timeout nowTerm =>
      rf ← nodes c !! i;
      '(rf', _, eff) ← runElectionTimer now timeout nowTerm rf;
      let c' := update_node i rf' eff (rpcs c) c in
      Some (if decide (currentTerm rf < currentTerm rf')
            then set_votes (i, currentTerm rf') 1 c' else c')
  | AHeartBeat i nowTerm =>
      rf ← nodes c !! i;
      Some (update_node i rf (heartBeatsTimer nowTerm rf).2 (rpcs c) c)
  | ADeliver k now =>
      m ← rpcs c !! k;
      deliver m (delete k (rpcs c)) now c
  | ADrop k =>
      Some (mkCluster (nodes c) (delete k (rpcs c)) (receivedVotes c) (delivered c))
  | AStart i command =>
      rf ← nodes c !! i;
      '(rf, _, eff) ← Start command rf;
      Some (update_node i rf eff (rpcs c) c)
  | ASnapshot i index snap =>
      rf ← nodes c !! i;
      rf ← Snapshot index snap rf;
      Some (update_node i rf [] (rpcs c) c)
  | AApply i =>
      rf ← nodes c !! i;
      '(rf, ms) ← apply rf;
      Some (update_node i rf (EffApply <$> ms) (rpcs c) c)
  | AKill i =>
      rf ← nodes c !! i;
      Some (update_node i (Kill rf) [] (rpcs c) c)
  | ARestart i now =>
      rf ← nodes c !! i;
      '(rf, eff) ← Make (peers rf) i (persister rf) now;
      Some (update_node i rf eff (rpcs c) c)
  end.

Fixpoint run (acts : list (Action Cmd)) c : option (Cluster Cmd) :=
  match acts with
  | [] => Some c
  | a :: acts => c ← exec a c; run acts c
  end.

(** [n] peers started on empty persisters. *)
Definition cluster_init (n : nat) (now : Z) : Cluster Cmd :=
  mkCluster
    (list_to_map (omap (fun i => '(rf, _) ← Make n i MakePersister now; Some (i, rf))
                   (seqZ 0 (Z.of_nat n))))
    [] ∅ [].

(** ** The election invariant *)

(** Destinations of the vote RPCs of candidate [src] in term [t]. *)
Definition vote_dst (src t : Z) (m : Rpc Cmd) : option Z :=
  match m with
  | RVReq s d args => if decide (s = src /\ rvTerm args = t) then Some d else None
  | RVRep s d args _ => if decide (s = src /\ rvTerm args = t) then Some d else None
  | _ => None
  end.
Definition pending (src t : Z) (ms : list (Rpc Cmd)) : list Z := omap (vote_dst src t) ms.

(** A vote: [(term, voter, candidate)]. *)
Abbreviation votes := (gset (Z * Z * Z)).

Definition rpc_ok c (V : votes) (m : Rpc Cmd) : Prop :=
  match m with
  | RVReq src dst args =>
      rvCandidateId args = src /\ 0 <= src /\
      exists rf, nodes c !! src = Some rf /\ rvTerm args <= currentTerm rf
  | RVRep src dst args reply =>
      rvCandidateId args = src /\ 0 <= src /\
      (exists rf, nodes c !! src = Some rf /\ rvTerm args <= currentTerm rf) /\
      (rvrVoteGranted reply = true -> (rvTerm args, dst, src) ∈ V)
  | _ => True
  end.

(** Node [v] and the votes it has cast. *)
Definition voter_ok (V : votes) (v : Z) rf : Prop :=
  (forall t x, (t, v, x) ∈ V -> x <> -1 /\
     (t < currentTerm rf \/ (t = currentTerm rf /\ voteFor rf = x))) /\
  (voteFor rf <> -1 -> (currentTerm rf, v, voteFor rf) ∈ V).

Definition role_ok (n : nat) c (V : votes) (i : Z) rf : Prop :=
  (state rf = Candidate -> exists S : gset Z,
     receivedVotes c !! (i, currentTerm rf) = Some (Z.of_nat (size S)) /\
     (forall v, v ∈ S -> (currentTerm rf, v, i) ∈ V) /\
     NoDup (pending i (currentTerm rf) (rpcs c)) /\
     (forall v, v ∈ pending i (currentTerm rf) (rpcs c) -> v ∉ S)) /\
  (state rf = Leader -> exists S : gset Z,
     Z.of_nat n < 2 * Z.of_nat (size S) /\ forall v, v ∈ S -> (currentTerm rf, v, i) ∈ V).

Record election_inv (n : nat) c (V : votes) : Prop := {
  ei_node : forall i rf, nodes c !! i = Some rf ->
    me rf = i /\ peers rf = n /\ 0 <= i < Z.of_nat n /\ durable rf;
  ei_fun : forall t v x y, (t, v, x) ∈ V -> (t, v, y) ∈ V -> x = y;
  ei_dom : forall t v x, (t, v, x) ∈ V -> is_Some (nodes c !! v);
  ei_voter : forall v rf, nodes c !! v = Some rf -> voter_ok V v rf;
  ei_rpc : Forall (rpc_ok c V) (rpcs c);
  ei_role : forall i rf, nodes c !! i = Some rf -> role_ok n c V i rf
}.
End cluster.
