(* ===== verification/RaftElection.v ===== *)
(** Election safety of the cluster of [RaftCluster]: two peers are never leaders
    of the same term, whatever the network loses, delays or reorders and however
    often peers crash and restart.

    The proof follows the votes: a vote is on stable storage before it is
    reported, so it survives restarts and is unique per voter and term
    ([voter_ok]); the tally of an election counts distinct voters because each
    vote RPC is answered at most once ([role_ok]); and two majorities meet. *)

From S2P Require Import Prelude Gob Persister RaftTypes RaftNode RaftInv RaftCluster.
Local Open Scope Z_scope.

Section election.
Context {Cmd : Type} `{Gob Z} `{Gob (list (LogEntry Cmd))}.
Context `{!GobLaws Z} `{!GobLaws (list (LogEntry Cmd))}.
Implicit Types (c : Cluster Cmd) (rf : Raft Cmd) (eff : list (Effect Cmd)).
Implicit Types (V : gset (Z * Z * Z)) (ms : list (Rpc Cmd)).

(** ** What handlers do to roles and which RPCs they start *)

Definition starts_vote (e : Effect Cmd) : Prop :=
  match e with EffRequestVote _ _ => True | _ => False end.
Definition quiet eff : Prop := Forall (fun e => ~ starts_vote e) eff.

Ltac quiet_effects :=
  unfold quiet; repeat case_decide; rewrite ?Forall_app, ?Forall_cons, ?Forall_nil; simpl; tauto.

Lemma emit_quiet i eff : quiet eff -> forall src t, pending src t (emit i eff) = [].
Proof.
  intros Hq src t. induction Hq as [|e eff He Hq IH]; [done|].
  destruct e; simpl in *; done.
Qed.

Lemma runHeartBeats_quiet rf : quiet (runHeartBeats rf).
Proof.
  unfold runHeartBeats, quiet. case_decide; [constructor|].
  apply Forall_forall. intros e (s & _ & He)%list_elem_of_omap.
  case_decide; [done|]. injection He as <-. simpl. tauto.
Qed.

Lemma RequestVote_quiet now args rf rf' r eff :
  RequestVote now args rf = Some (rf', r, eff) -> quiet eff.
Proof.
  intros Hr. unfold_handlers; handler_cases; quiet_effects.
Qed.

Lemma AppendEntries_quiet now args rf rf' r eff :
  AppendEntries now args rf = Some (rf', r, eff) -> quiet eff.
Proof.
  intros Hr. unfold_handlers; handler_cases; quiet_effects.
Qed.

Lemma InstallSnapshot_quiet now args rf rf' r eff :
  InstallSnapshot now args rf = Some (rf', r, eff) -> quiet eff.
Proof.
  intros Hr. unfold_handlers; handler_cases; quiet_effects.
Qed.

Lemma handleAppendEntries_quiet now s args reply rf rf' b eff :
  handleAppendEntriesRPCResponse now s args reply rf = Some (rf', b, eff) -> quiet eff.
Proof.
  intros Hr. unfold_handlers; handler_cases; quiet_effects.
Qed.

Lemma handleInstallSnapshot_quiet now s args reply rf rf' eff :
  handleInstallSnapshotRPCResponse now s args reply rf = Some (rf', eff) -> quiet eff.
Proof.
  intros Hr. unfold_handlers; handler_cases; quiet_effects.
Qed.

Lemma onRequestVoteReply_quiet now args reply v rf rf' v' eff :
  onRequestVoteReply now args reply v rf = Some (rf', v', eff) -> quiet eff.
Proof.
  intros Hr. unfold_handlers; handler_cases; quiet_effects.
Qed.

Lemma Start_quiet cmd rf rf' r eff : Start cmd rf = Some (rf', r, eff) -> quiet eff.
Proof.
  intros Hr. unfold Start in Hr. handler_cases; [constructor|apply runHeartBeats_quiet].
Qed.

Definition role_kept rf rf' : Prop :=
  (state rf' = Candidate -> state rf = Candidate /\ currentTerm rf' = currentTerm rf) /\
  (state rf' = Leader -> state rf = Leader /\ currentTerm rf' = currentTerm rf).

(** Only an election timeout makes a candidate, only a vote reply a leader. *)
Lemma run_op_role op rf rf' :
  run_op op rf = Some rf' ->
  match op with OpElectionTimer _ _ _ | OpRequestVoteReply _ _ _ _ => True
  | _ => role_kept rf rf' end.
Proof.
  intros Hop. destruct op; simpl in Hop; try done; unfold role_kept;
    unfold_handlers; handler_cases;
    try match goal with
        | H : commit_loop _ _ _ = Some _ |- _ => apply commit_loop_frame in H as ->
        end; simpl in *; naive_solver.
Qed.

Lemma runElectionTimer_cases now timeout nowTerm rf rf' b eff :
  runElectionTimer now timeout nowTerm rf = Some (rf', b, eff) ->
  (rf' = rf /\ eff = []) \/
  (currentTerm rf' = currentTerm rf + 1 /\ state rf' = Candidate /\ voteFor rf' = me rf /\
   exists args, rvTerm args = currentTerm rf' /\ rvCandidateId args = me rf /\
     eff = omap (fun s => if decide (s = me rf) then None
                          else Some (EffRequestVote s args)) (range_peers rf)
           ++ [EffTicker Follower]).
Proof.
  intros Hr. unfold_handlers; handler_cases; auto.
  right. split_and!; try done. eexists. split_and!; [| |done]; done.
Qed.

Lemma onRequestVoteReply_cases now args reply v rf rf' v' eff :
  onRequestVoteReply now args reply v rf = Some (rf', v', eff) ->
  (role_kept rf rf' /\ v' = v) \/
  (state rf = Candidate /\ currentTerm rf = rvTerm args /\ rvrVoteGranted reply = true /\
   v' = v + 1 /\ currentTerm rf' = currentTerm rf /\
   (state rf' = Candidate \/
    (state rf' = Leader /\ Z.of_nat (peers rf) + 1 <= v' * 2))).
Proof.
  intros Hr. unfold role_kept. unfold_handlers; handler_cases; simpl in *; naive_solver.
Qed.

(** ** Votes *)

(** The votes after peer [i] moved to [rf]. *)
Definition cast (i : Z) rf V : gset (Z * Z * Z) :=
  if decide (voteFor rf = -1) then V else {[(currentTerm rf, i, voteFor rf)]} ∪ V.

Lemma cast_mono i rf V : V ⊆ cast i rf V.
Proof. unfold cast. case_decide; set_solver. Qed.

Lemma elem_of_cast i rf V t v x :
  (t, v, x) ∈ cast i rf V ->
  (t, v, x) ∈ V \/ (t = currentTerm rf /\ v = i /\ x = voteFor rf).
Proof. unfold cast. case_decide; [by left|]. set_solver. Qed.

(** A step of peer [i] as far as terms and votes are concerned. *)
Record peer_step rf rf' : Prop := {
  ps_me : me rf' = me rf;
  ps_peers : peers rf' = peers rf;
  ps_durable : durable rf -> durable rf';
  ps_term : currentTerm rf <= currentTerm rf';
  ps_vote : currentTerm rf' = currentTerm rf -> voteFor rf <> -1 -> voteFor rf' = voteFor rf
}.

Lemma run_op_peer_step op rf rf' : run_op op rf = Some rf' -> peer_step rf rf'.
Proof.
  intros Hop. pose proof (run_op_frame _ _ _ Hop) as [? ?].
  pose proof (run_op_term_vote _ _ _ Hop) as [? ?].
  pose proof (run_op_durable _ _ _ Hop). by split.
Qed.

Lemma peer_step_refl rf : peer_step rf rf.
Proof. split; try done. Qed.

Lemma rpc_ok_mono c c' V V' i rf rf' m :
  nodes c !! i = Some rf -> nodes c' = <[i := rf']> (nodes c) -> V ⊆ V' ->
  currentTerm rf <= currentTerm rf' -> rpc_ok c V m -> rpc_ok c' V' m.
Proof.
  intros Hi Hn HV Ht.
  assert (Hex : forall src t, (exists rf0, nodes c !! src = Some rf0 /\ t <= currentTerm rf0) ->
    exists rf0, nodes c' !! src = Some rf0 /\ t <= currentTerm rf0).
  { intros src t (rf0 & Hsrc & Hle). rewrite Hn. destruct (decide (i = src)) as [->|].
    - rewrite lookup_insert_eq. exists rf'. split; [done|]. simplify_eq. lia.
    - rewrite lookup_insert_ne by done. eauto. }
  destruct m; simpl; naive_solver.
Qed.

Lemma voter_ok_cast V i rf rf' :
  (forall t v x y, (t, v, x) ∈ V -> (t, v, y) ∈ V -> x = y) ->
  voter_ok V i rf -> peer_step rf rf' ->
  voter_ok (cast i rf' V) i rf' /\
  (forall t v x y, (t, v, x) ∈ cast i rf' V -> (t, v, y) ∈ cast i rf' V -> x = y).
Proof.
  intros Hfun [Hold Hcur] [_ _ _ Ht Hv].
  assert (Hnew : forall t x, (t, i, x) ∈ V -> x <> -1 /\
    (t < currentTerm rf' \/ (t = currentTerm rf' /\ voteFor rf' = x))).
  { intros t x HV. pose proof (Hold _ _ HV) as [Hx1 [Hlt|[-> Hx]]]; (split; [done|]); [left; lia|].
    destruct (decide (currentTerm rf' = currentTerm rf)) as [He|]; [|left; lia].
    right. split; [lia|]. rewrite Hv; congruence. }
  split; [split|].
  - intros t x HV. unfold cast in HV. case_decide; [by apply Hnew|].
    apply elem_of_union in HV as [HV%elem_of_singleton|HV]; [|by apply Hnew].
    injection HV as -> ->. split; [done|by right].
  - intros Hne. unfold cast. rewrite decide_False by done. set_solver.
  - intros t v x y [Hx|(-> & -> & ->)]%elem_of_cast [Hy|(Ht' & Hvi & Hy)]%elem_of_cast;
      [by eapply Hfun|subst| |by subst].
    + apply Hnew in Hx as [_ [?|[_ ?]]]; [lia|done].
    + apply Hnew in Hy as [_ [?|[_ ?]]]; [lia|done].
Qed.

(** ** The invariant is preserved *)

(** The vote RPCs in progress after a step are among those before it. *)
Definition fewer_pending (ms ms' : list (Rpc Cmd)) : Prop :=
  forall j t, exists k, pending j t ms ≡ₚ k ++ pending j t ms'.

Lemma role_ok_kept n c c' V V' i rf rf' :
  role_ok n c V i rf -> role_kept rf rf' -> V ⊆ V' ->
  (state rf' = Candidate ->
   receivedVotes c' !! (i, currentTerm rf') = receivedVotes c !! (i, currentTerm rf')) ->
  (exists k, pending i (currentTerm rf') (rpcs c) ≡ₚ k ++ pending i (currentTerm rf') (rpcs c')) ->
  role_ok n c' V' i rf'.
Proof.
  intros [Hcand Hlead] [Hkc Hkl] HV Hrv (k & Hk). split.
  - intros Hs. destruct (Hkc Hs) as [Hs0 Ht]. destruct (Hcand Hs0) as (S & Hsz & HS & Hnd & Hdj).
    rewrite <- Ht in *. exists S. rewrite Hrv by done. split_and!; [done|set_solver| |].
    + rewrite Hk in Hnd. by apply NoDup_app in Hnd as (_ & _ & ?).
    + intros v Hv. apply Hdj. rewrite Hk. set_solver.
  - intros Hs. destruct (Hkl Hs) as [Hs0 Ht]. destruct (Hlead Hs0) as (S & Hsz & HS).
    rewrite <- Ht in *. exists S. split; [done|set_solver].
Qed.

Lemma inv_step n c c' V i rf rf' :
  election_inv n c V -> nodes c !! i = Some rf -> nodes c' = <[i := rf']> (nodes c) ->
  peer_step rf rf' -> Forall (rpc_ok c' (cast i rf' V)) (rpcs c') ->
  (forall j t, j <> i -> receivedVotes c' !! (j, t) = receivedVotes c !! (j, t)) ->
  (forall j t, j <> i -> exists k, pending j t (rpcs c) ≡ₚ k ++ pending j t (rpcs c')) ->
  role_ok n c' (cast i rf' V) i rf' ->
  election_inv n c' (cast i rf' V).
Proof.
  intros [Hnode Hfun Hdom Hvoter Hrpc Hrole] Hi Hn Hps Hrpc' Hrv Hpend Hrole'.
  destruct (voter_ok_cast V i rf rf' Hfun (Hvoter _ _ Hi) Hps) as [Hvi Hfun'].
  split; try done.
  - intros j rfj Hj. rewrite Hn in Hj. destruct (decide (i = j)) as [->|Hne].
    + rewrite lookup_insert_eq in Hj. injection Hj as <-.
      destruct (Hnode _ _ Hi) as (? & ? & ? & ?). destruct Hps as [Hm Hp Hd _ _].
      rewrite Hm, Hp. auto.
    + rewrite lookup_insert_ne in Hj by done. by apply Hnode.
  - intros t v x Hx. rewrite Hn. destruct (decide (i = v)) as [->|Hne].
    + rewrite lookup_insert_eq. done.
    + rewrite lookup_insert_ne by done.
      apply elem_of_cast in Hx as [Hx|(_ & -> & _)]; [by eapply Hdom|done].
  - intros j rfj Hj. rewrite Hn in Hj. destruct (decide (i = j)) as [->|Hne].
    + rewrite lookup_insert_eq in Hj. by injection Hj as <-.
    + rewrite lookup_insert_ne in Hj by done. destruct (Hvoter _ _ Hj) as [Hv1 Hv2]. split.
      * intros t x [Hx|(_ & -> & _)]%elem_of_cast; [by apply Hv1|done].
      * intros Hv. apply cast_mono. auto.
  - intros j rfj Hj. rewrite Hn in Hj. destruct (decide (i = j)) as [->|Hne].
    + rewrite lookup_insert_eq in Hj. by injection Hj as <-.
    + rewrite lookup_insert_ne in Hj by done.
      eapply (role_ok_kept n c c' V); [by apply Hrole|done|apply cast_mono| |].
      * intros _. by apply Hrv.
      * by apply Hpend.
Qed.

Lemma rpc_ok_quiet c V i eff : quiet eff -> Forall (rpc_ok c V) (emit i eff).
Proof.
  intros Hq. induction Hq as [|e eff He Hq IH]; [constructor|].
  destruct e; simpl in *; try done. by constructor.
Qed.

Lemma pending_app j t ms (ms' : list (Rpc Cmd)) : pending j t (ms ++ ms') = pending j t ms ++ pending j t ms'.
Proof. apply omap_app. Qed.

(** Steps that start no election and count no vote. *)
Lemma inv_quiet n c V i rf rf' eff ms :
  election_inv n c V -> nodes c !! i = Some rf -> peer_step rf rf' -> role_kept rf rf' ->
  quiet eff -> Forall (rpc_ok (update_node i rf' eff ms c) (cast i rf' V)) ms ->
  fewer_pending (rpcs c) ms ->
  election_inv n (update_node i rf' eff ms c) (cast i rf' V).
Proof.
  intros Hinv Hi Hps Hrk Hq Hms Hf.
  assert (Hp : forall j t, exists k, pending j t (rpcs c) ≡ₚ k ++ pending j t (ms ++ emit i eff)).
  { intros j t. rewrite pending_app, emit_quiet by done. rewrite app_nil_r. apply Hf. }
  apply (inv_step n c (update_node i rf' eff ms c) V i rf rf' Hinv Hi eq_refl Hps).
  - simpl. apply Forall_app. split; [done|by apply rpc_ok_quiet].
  - done.
  - intros j t _. apply Hp.
  - eapply (role_ok_kept n c); [by eapply ei_role|done|apply cast_mono|done|apply Hp].
Qed.

Lemma rpcs_mono n c V i rf rf' eff ms :
  election_inv n c V -> nodes c !! i = Some rf -> peer_step rf rf' ->
  Forall (rpc_ok (update_node i rf' eff ms c) (cast i rf' V)) (rpcs c).
Proof.
  intros Hinv Hi Hps. eapply Forall_impl; [apply (ei_rpc _ _ _ Hinv)|].
  intros m. apply (rpc_ok_mono c _ V _ i rf rf'); try done; [apply cast_mono|apply Hps].
Qed.

Lemma fewer_delete k ms : fewer_pending ms (delete k ms).
Proof.
  intros j t. destruct (ms !! k) as [m|] eqn:Hk.
  - exists (pending j t [m]). rewrite <- pending_app. simpl.
    unfold pending. by rewrite (delete_Permutation ms k m Hk) at 1.
  - exists []. apply lookup_ge_None in Hk. rewrite delete_take_drop.
    rewrite take_ge, drop_ge by lia. by rewrite app_nil_r.
Qed.

Lemma fewer_refl ms : fewer_pending ms ms.
Proof. intros j t. by exists []. Qed.

(** Replacing a request by its reply keeps what is pending. *)
Lemma fewer_replace k ms m m' :
  ms !! k = Some m -> (forall j t, vote_dst j t m' = vote_dst j t m \/ vote_dst j t m' = None) ->
  fewer_pending ms (m' :: delete k ms).
Proof.
  intros Hk Hd j t. destruct (fewer_delete k ms j t) as [l Hl].
  pose proof (delete_Permutation ms k m Hk) as Hperm. unfold pending in *. simpl.
  destruct (Hd j t) as [He|He]; rewrite He.
  - exists []. rewrite Hperm at 1. simpl. by destruct (vote_dst j t m).
  - eauto.
Qed.

(** Executing a vote request. *)
Lemma RequestVote_vote now args rf rf' reply eff :
  RequestVote now args rf = Some (rf', reply, eff) -> rvrVoteGranted reply = true ->
  rvCandidateId args <> -1 ->
  currentTerm rf' = rvTerm args /\ voteFor rf' = rvCandidateId args.
Proof.
  intros Hr Hg Hc. unfold_handlers; handler_cases; simpl in *; try done;
    split; try lia; destruct_or?; congruence.
Qed.

Lemma inv_RVReq n c V src dst args rf rf' reply eff k now :
  election_inv n c V -> rpcs c !! k = Some (RVReq src dst args) ->
  nodes c !! dst = Some rf -> RequestVote now args rf = Some (rf', reply, eff) ->
  election_inv n (update_node dst rf' eff (RVRep src dst args reply :: delete k (rpcs c)) c)
    (cast dst rf' V).
Proof.
  intros Hinv Hk Hdst Hrv.
  assert (Hop : run_op (OpRequestVote now args) rf = Some rf') by (simpl; by rewrite Hrv).
  pose proof (run_op_peer_step _ _ _ Hop) as Hps. pose proof (run_op_role _ _ _ Hop) as Hrole.
  pose proof (ei_rpc _ _ _ Hinv) as Hrpc. rewrite Forall_forall in Hrpc.
  pose proof (Hrpc _ (list_elem_of_lookup_2 _ _ _ Hk)) as (Hcid & H0' & Hsrc).
  apply (inv_quiet n c V dst rf); try done.
  - by eapply RequestVote_quiet.
  - constructor.
    + split_and!; [done|done| |].
      * destruct Hsrc as (rfs & Hs & Hle). simpl. destruct (decide (dst = src)) as [->|].
        -- rewrite lookup_insert_eq. exists rf'. split; [done|].
           simplify_eq. pose proof (ps_term _ _ Hps). lia.
        -- rewrite lookup_insert_ne by done. eauto.
      * intros Hg. destruct (RequestVote_vote _ _ _ _ _ _ Hrv Hg) as [Ht Hv]; [lia|].
        unfold cast. rewrite decide_False by lia. rewrite Ht, Hv, Hcid. set_solver.
    + apply Forall_delete. by eapply rpcs_mono.
  - apply (fewer_replace k _ _ _ Hk). intros j t. by left.
Qed.

(** Counting a vote reply. *)
Lemma inv_RVRep n c V src dst args reply rf rf' v v' eff k now :
  election_inv n c V -> rpcs c !! k = Some (RVRep src dst args reply) ->
  nodes c !! src = Some rf -> receivedVotes c !! (src, rvTerm args) = Some v ->
  onRequestVoteReply now args reply v rf = Some (rf', v', eff) ->
  election_inv n (set_votes (src, rvTerm args) v' (update_node src rf' eff (delete k (rpcs c)) c))
    (cast src rf' V).
Proof.
  intros Hinv Hk Hsrc Hv Hon.
  assert (Hop : run_op (OpRequestVoteReply now args reply v) rf = Some rf') by (simpl; by rewrite Hon).
  pose proof (run_op_peer_step _ _ _ Hop) as Hps.
  pose proof (onRequestVoteReply_quiet _ _ _ _ _ _ _ _ Hon) as Hq.
  pose proof (ei_rpc _ _ _ Hinv) as Hrpc. rewrite Forall_forall in Hrpc.
  pose proof (Hrpc _ (list_elem_of_lookup_2 _ _ _ Hk)) as (Hcid & H0' & _ & Hgrant).
  set (c' := set_votes _ _ _).
  assert (Hpend : forall j t, pending j t (rpcs c') = pending j t (delete k (rpcs c))).
  { intros j t. simpl. rewrite pending_app, emit_quiet by done. apply app_nil_r. }
  apply (inv_step n c c' V src rf rf' Hinv Hsrc eq_refl Hps).
  - simpl. apply Forall_app. split; [|by apply rpc_ok_quiet].
    apply Forall_delete. eapply Forall_impl; [apply (ei_rpc _ _ _ Hinv)|].
    intros m. apply (rpc_ok_mono c _ V _ src rf rf'); try done; [apply cast_mono|apply Hps].
  - intros j t Hne. simpl. rewrite lookup_insert_ne by congruence. done.
  - intros j t _. rewrite Hpend. apply fewer_delete.
  - destruct (onRequestVoteReply_cases _ _ _ _ _ _ _ _ Hon) as
      [[Hrk ->]|(Hcand & Hterm & Hg & -> & Ht' & Hst)].
    { eapply (role_ok_kept n c); [by eapply ei_role|done|apply cast_mono| |].
      - intros _. simpl. destruct (decide (rvTerm args = currentTerm rf')) as [<-|].
        + by rewrite lookup_insert_eq.
        + rewrite lookup_insert_ne by congruence. done.
      - rewrite Hpend. apply fewer_delete. }
    destruct (ei_role _ _ _ Hinv _ _ Hsrc) as [Hc _].
    destruct (Hc Hcand) as (S & Hsz & HS & Hnd & Hdj). rewrite Hterm in *.
    rewrite Hv in Hsz. injection Hsz as ->.
    pose proof (delete_Permutation _ _ _ Hk) as Hperm.
    assert (Hpp : pending src (rvTerm args) (rpcs c) ≡ₚ dst :: pending src (rvTerm args) (delete k (rpcs c))).
    { unfold pending. rewrite Hperm at 1. simpl. by rewrite decide_True. }
    rewrite Hpp in Hnd. apply NoDup_cons in Hnd as [Hnin Hnd].
    assert (Hd : dst ∉ S) by (apply Hdj; rewrite Hpp; set_solver).
    assert (HV' : forall w, w ∈ {[dst]} ∪ S -> (rvTerm args, w, src) ∈ cast src rf' V).
    { intros w Hw. apply cast_mono. apply elem_of_union in Hw as [->%elem_of_singleton|Hw]; auto. }
    assert (Hsize : Z.of_nat (size ({[dst]} ∪ S)) = Z.of_nat (size S) + 1).
    { rewrite size_union by set_solver. rewrite size_singleton. lia. }
    destruct (ei_node _ _ _ Hinv _ _ Hsrc) as (_ & Hpeers & _).
    split; intros Hs; destruct Hst as [Hst|[Hst Hquo]]; try congruence; rewrite Ht'.
    + exists ({[dst]} ∪ S). split_and!; [|done| |].
      * simpl. rewrite lookup_insert_eq. by rewrite Hsize.
      * by rewrite Hpend.
      * intros w Hw. rewrite Hpend in Hw. intros Hin.
        apply elem_of_union in Hin as [->%elem_of_singleton|Hin]; [done|].
        revert Hin. apply Hdj. rewrite Hpp. set_solver.
    + exists ({[dst]} ∪ S). split; [|done]. rewrite Hpeers in Hquo. lia.
Qed.

(** Starting an election. *)
Definition vote_calls (i : Z) (args : RequestVoteArgs) (servers : list Z) : list (Effect Cmd) :=
  omap (fun s => if decide (s = i) then None else Some (EffRequestVote s args)) servers.

Lemma emit_vote_calls i args servers :
  emit i (vote_calls i args servers ++ [EffTicker Follower]) =
  map (fun s => RVReq i s args) (filter (fun s => s <> i) servers).
Proof.
  unfold emit. rewrite omap_app. change (omap _ [_]) with (@nil (Rpc Cmd)).
  rewrite app_nil_r. induction servers as [|s servers IH]; [done|].
  rewrite filter_cons. unfold vote_calls. cbn [omap list_omap].
  destruct (decide (s = i)) as [->|Hne].
  - rewrite decide_False by tauto. apply IH.
  - rewrite decide_True by done. cbn [omap list_omap map]. f_equal. apply IH.
Qed.

Lemma pending_vote_calls j t i args servers :
  pending j t (map (fun s => RVReq i s args : Rpc Cmd) servers) =
  if decide (i = j /\ rvTerm args = t) then servers else [].
Proof.
  induction servers as [|s servers IH]; [by case_decide|]. simpl. rewrite IH.
  by case_decide.
Qed.

Lemma pending_later n c V i rf t :
  election_inv n c V -> nodes c !! i = Some rf -> currentTerm rf < t ->
  pending i t (rpcs c) = [].
Proof.
  intros Hinv Hi Ht. pose proof (ei_rpc _ _ _ Hinv) as Hrpc.
  induction Hrpc as [|m ms Hm Hms IH]; [done|].
  change (pending i t (m :: ms)) with
    (match vote_dst i t m with Some d => d :: pending i t ms | None => pending i t ms end).
  rewrite IH.
  destruct m; simpl in *; try done; case_decide as Hd; try done; destruct Hd as [-> <-].
  - destruct Hm as (_ & _ & rfs & Hs & Hle). simplify_eq. lia.
  - destruct Hm as (_ & _ & (rfs & Hs & Hle) & _). simplify_eq. lia.
Qed.

Lemma inv_election n c V i rf rf' args :
  election_inv n c V -> nodes c !! i = Some rf -> peer_step rf rf' ->
  currentTerm rf' = currentTerm rf + 1 -> state rf' = Candidate -> voteFor rf' = i ->
  rvTerm args = currentTerm rf' -> rvCandidateId args = i ->
  let eff := vote_calls i args (range_peers rf) ++ [EffTicker Follower] in
  election_inv n (set_votes (i, currentTerm rf') 1 (update_node i rf' eff (rpcs c) c))
    (cast i rf' V).
Proof.
  intros Hinv Hi Hps Ht Hst Hvf Hat Hac eff.
  destruct (ei_node _ _ _ Hinv _ _ Hi) as (_ & _ & Hrange & _).
  set (c' := set_votes _ _ _).
  assert (Hpend : forall j t, pending j t (rpcs c') = pending j t (rpcs c) ++
    if decide (i = j /\ currentTerm rf' = t) then filter (fun s => s <> i) (range_peers rf) else []).
  { intros j t. simpl. rewrite pending_app. subst eff.
    by rewrite emit_vote_calls, pending_vote_calls, Hat. }
  apply (inv_step n c c' V i rf rf' Hinv Hi eq_refl Hps).
  - simpl. apply Forall_app. split.
    + eapply Forall_impl; [apply (ei_rpc _ _ _ Hinv)|]. intros m.
      apply (rpc_ok_mono c _ V _ i rf rf'); try done; [apply cast_mono|apply Hps].
    + subst eff. rewrite emit_vote_calls. apply Forall_map, Forall_forall.
      intros s _. simpl. split_and!; [done|lia|]. rewrite lookup_insert_eq.
      exists rf'. split; [done|lia].
  - intros j t Hne. simpl. rewrite lookup_insert_ne by congruence. done.
  - intros j t Hne. exists []. rewrite Hpend, decide_False by naive_solver. by rewrite app_nil_r.
  - split; [|congruence]. intros _. exists {[i]}. rewrite Hpend, decide_True by done.
    rewrite (pending_later n c V i rf) by (done || lia). rewrite app_nil_l. split_and!.
    + rewrite size_singleton. subst c'. simpl. by rewrite lookup_insert_eq.
    + intros v ->%elem_of_singleton. unfold cast. rewrite Hvf, decide_False by lia. set_solver.
    + apply NoDup_filter. apply NoDup_seqZ.
    + intros v [Hv _]%list_elem_of_filter. set_solver.
Qed.

Lemma inv_restart n c V i rf rf' eff now :
  election_inv n c V -> nodes c !! i = Some rf ->
  Make (peers rf) i (persister rf) now = Some (rf', eff) ->
  election_inv n (update_node i rf' eff (rpcs c) c) (cast i rf' V).
Proof.
  intros Hinv Hi Hmk. destruct (ei_node _ _ _ Hinv _ _ Hi) as (Hme & Hp & _ & Hd).
  assert (Heff : eff = [EffTicker Follower; EffApplyLoop])
    by (unfold Make in Hmk; handler_cases; done).
  apply Make_recovers in Hmk as (Hr & Hps & Hpe & Hm & Hs & _).
  unfold durable in Hd. rewrite Hd in Hr. injection Hr as Ht Hv Hl.
  assert (Hstep : peer_step rf rf').
  { split; [congruence|done| |lia|congruence].
    intros _. unfold durable. by rewrite Hps, Hd, Ht, Hv, Hl. }
  apply (inv_quiet n c V i rf); try done.
  - split; congruence.
  - subst eff. repeat constructor; simpl; tauto.
  - by eapply rpcs_mono.
  - apply fewer_refl.
Qed.

(** A peer operation that starts no election and counts no vote, with RPCs
    [ms] left in progress. *)
Lemma inv_op n c V i rf rf' eff ms op :
  election_inv n c V -> nodes c !! i = Some rf -> run_op op rf = Some rf' ->
  (match op with OpElectionTimer _ _ _ | OpRequestVoteReply _ _ _ _ => False | _ => True end) ->
  quiet eff -> Forall (rpc_ok (update_node i rf' eff ms c) (cast i rf' V)) ms ->
  fewer_pending (rpcs c) ms ->
  election_inv n (update_node i rf' eff ms c) (cast i rf' V).
Proof.
  intros Hinv Hi Hop Hne Hq Hms Hf. apply (inv_quiet n c V i rf); try done.
  - by eapply run_op_peer_step.
  - pose proof (run_op_role _ _ _ Hop). by destruct op.
Qed.

(** The same for an operation that consumes RPC [k] and leaves [extra], RPCs
    that are not about votes. *)
Lemma inv_op_rpc n c V i rf rf' eff op k extra :
  election_inv n c V -> nodes c !! i = Some rf -> run_op op rf = Some rf' ->
  (match op with OpElectionTimer _ _ _ | OpRequestVoteReply _ _ _ _ => False | _ => True end) ->
  quiet eff -> (forall j t m, m ∈ extra -> vote_dst j t m = None) ->
  (forall c V m, m ∈ extra -> rpc_ok c V m) ->
  election_inv n (update_node i rf' eff (extra ++ delete k (rpcs c)) c) (cast i rf' V).
Proof.
  intros Hinv Hi Hop Hne Hq Hv Hx. apply (inv_op n c V i rf rf' eff _ op); try done.
  - apply Forall_app. split; [apply Forall_forall; intros; by apply Hx|].
    apply Forall_delete. eapply rpcs_mono; [done..|]. by eapply run_op_peer_step.
  - intros j t. destruct (fewer_delete k (rpcs c) j t) as [l Hl]. exists l.
    rewrite pending_app. assert (pending j t extra = []) as ->; [|done].
    clear -Hv. induction extra as [|m extra IH]; [done|]. unfold pending. simpl.
    rewrite (Hv j t m) by set_solver. apply IH. intros. apply Hv. set_solver.
Qed.

(** The votes a step adds are those recorded by a peer. *)
Definition new_votes c' V V' : Prop :=
  V ⊆ V' /\ forall t v x, (t, v, x) ∈ V' -> (t, v, x) ∈ V \/
    exists rf, nodes c' !! v = Some rf /\ voteFor rf <> -1 /\ t = currentTerm rf /\ x = voteFor rf.

Lemma cast_new n c' V i rf' :
  election_inv n c' (cast i rf' V) -> nodes c' !! i = Some rf' ->
  exists V', election_inv n c' V' /\ new_votes c' V V'.
Proof.
  intros Hinv Hi. exists (cast i rf' V). split; [done|]. split; [apply cast_mono|].
  intros t v x Hx. unfold cast in Hx. case_decide; [by left|].
  apply elem_of_union in Hx as [Hx%elem_of_singleton|Hx]; [right|by left].
  injection Hx as -> -> ->. by exists rf'.
Qed.

Lemma deliver_inv n c c' V k m now :
  election_inv n c V -> rpcs c !! k = Some m -> deliver m (delete k (rpcs c)) now c = Some c' ->
  exists V', election_inv n c' V' /\ new_votes c' V V'.
Proof.
  intros Hinv Hk Hd. destruct m; simpl in Hd; apply bind_Some in Hd as (rf & Hi & Hd).
  - apply bind_Some in Hd as ([[rf' r] eff] & Hr & [= <-]). eapply cast_new; [by eapply inv_RVReq|apply lookup_insert_eq].
  - apply bind_Some in Hd as (v & Hv & Hd).
    apply bind_Some in Hd as ([[rf' v'] eff] & Hr & [= <-]). eapply cast_new; [by eapply inv_RVRep|apply lookup_insert_eq].
  - apply bind_Some in Hd as (call & Hr & [= <-]).
    apply (cast_new n _ V src rf); [|apply lookup_insert_eq].
    apply (inv_quiet n c V src rf rf [] _ Hinv Hi (peer_step_refl rf)); [by split|constructor| |].
    + pose proof (rpcs_mono n c V src rf rf [] (delete k (rpcs c)) Hinv Hi (peer_step_refl _)) as Hm.
      destruct call; repeat constructor; by apply Forall_delete.
    + destruct call; [apply fewer_delete|..];
        (eapply (fewer_replace k); [done|]; intros j t; by right).
  - apply bind_Some in Hd as ([[rf' r] eff] & Hr & [= <-]). eapply cast_new; [|apply lookup_insert_eq].
    eapply (inv_op_rpc n c V dst rf rf' eff (OpAppendEntries now args) k [AERep src dst args r]);
      simpl; try done; [by rewrite Hr|by eapply AppendEntries_quiet| |];
      [by intros ?? ? ->%list_elem_of_singleton|by intros ?? ? ->%list_elem_of_singleton].
  - apply bind_Some in Hd as ([[rf' r] eff] & Hr & [= <-]). eapply cast_new; [|apply lookup_insert_eq].
    pose proof (inv_op_rpc n c V src rf rf' eff (OpAppendReply now dst args reply) k
      (if r then [Repl src dst (aeTerm args)] else [])) as Hx.
    destruct r; apply Hx; simpl; try done; try (by rewrite Hr);
      try (by eapply handleAppendEntries_quiet); try (by intros ?? ? ->%list_elem_of_singleton);
      by intros ??? ?%not_elem_of_nil.
  - apply bind_Some in Hd as ([[rf' r] eff] & Hr & [= <-]). eapply cast_new; [|apply lookup_insert_eq].
    eapply (inv_op_rpc n c V dst rf rf' eff (OpInstallSnapshot now args) k [ISRep src dst args r]);
      simpl; try done; [by rewrite Hr|by eapply InstallSnapshot_quiet| |];
      [by intros ?? ? ->%list_elem_of_singleton|by intros ?? ? ->%list_elem_of_singleton].
  - apply bind_Some in Hd as ([rf' eff] & Hr & [= <-]). eapply cast_new; [|apply lookup_insert_eq].
    eapply (inv_op_rpc n c V src rf rf' eff (OpInstallReply now dst args reply) k []);
      simpl; try done; [by rewrite Hr|by eapply handleInstallSnapshot_quiet| |];
      by intros ??? ?%not_elem_of_nil.
Qed.

Lemma inv_drop n c V k :
  election_inv n c V ->
  election_inv n (mkCluster (nodes c) (delete k (rpcs c)) (receivedVotes c) (delivered c)) V.
Proof.
  intros [Hnode Hfun Hdom Hvoter Hrpc Hrole]. split; try done.
  - simpl. apply Forall_delete. eapply Forall_impl; [exact Hrpc|]. by intros [].
  - intros i rf Hi. eapply (role_ok_kept n c); [by apply Hrole|by split|done|done|].
    apply fewer_delete.
Qed.

Lemma exec_inv n c c' V a :
  election_inv n c V -> exec a c = Some c' ->
  exists V', election_inv n c' V' /\ new_votes c' V V'.
Proof.
  intros Hinv Ha. destruct a; simpl in Ha.
  - apply bind_Some in Ha as (rf & Hi & Ha).
    apply bind_Some in Ha as ([[rf' b] eff] & Hr & [= <-]).
    assert (Hop : run_op (OpElectionTimer now timeout nowTerm) rf = Some rf') by (simpl; by rewrite Hr).
    pose proof (run_op_peer_step _ _ _ Hop) as Hps.
    destruct (runElectionTimer_cases _ _ _ _ _ _ _ Hr) as
      [[-> ->]|(Ht & Hs & Hv & args & Hat & Hac & ->)].
    + rewrite decide_False by lia. eapply cast_new; [|apply lookup_insert_eq].
      apply (inv_quiet n c V i rf rf _ _ Hinv Hi (peer_step_refl rf));
        [by split|constructor|by eapply rpcs_mono|apply fewer_refl].
    + rewrite decide_True by lia. destruct (ei_node _ _ _ Hinv _ _ Hi) as (Hme & _).
      rewrite Hme in *. eapply cast_new; [by eapply inv_election|apply lookup_insert_eq].
  - apply bind_Some in Ha as (rf & Hi & [= <-]). eapply cast_new; [|apply lookup_insert_eq].
    apply (inv_quiet n c V i rf rf _ _ Hinv Hi (peer_step_refl rf));
      [by split| |by eapply rpcs_mono, peer_step_refl|apply fewer_refl].
    unfold heartBeatsTimer. destruct (killed rf); [constructor|].
    case_decide; [constructor|apply runHeartBeats_quiet].
  - apply bind_Some in Ha as (m & Hk & Ha). by eapply deliver_inv.
  - injection Ha as <-. exists V. split; [by apply inv_drop|split; auto].
  - apply bind_Some in Ha as (rf & Hi & Ha).
    apply bind_Some in Ha as ([[rf' b] eff] & Hr & [= <-]). eapply cast_new; [|apply lookup_insert_eq].
    assert (Hop : run_op (OpStart command) rf = Some rf') by (simpl; by rewrite Hr).
    eapply (inv_op n c V i rf); try done; [by eapply Start_quiet| |apply fewer_refl].
    eapply rpcs_mono; [done..|]. by eapply run_op_peer_step.
  - apply bind_Some in Ha as (rf & Hi & Ha). apply bind_Some in Ha as (rf' & Hr & [= <-]). eapply cast_new; [|apply lookup_insert_eq].
    assert (Hop : run_op (OpSnapshot index snap) rf = Some rf') by done.
    eapply (inv_op n c V i rf); try done; [constructor| |apply fewer_refl].
    eapply rpcs_mono; [done..|]. by eapply run_op_peer_step.
  - apply bind_Some in Ha as (rf & Hi & Ha).
    apply bind_Some in Ha as ([rf' ms] & Hr & [= <-]). eapply cast_new; [|apply lookup_insert_eq].
    assert (Hop : run_op OpApply rf = Some rf') by (simpl; by rewrite Hr).
    eapply (inv_op n c V i rf); try done; [| |apply fewer_refl].
    + unfold quiet. apply Forall_forall. intros e (m & -> & _)%list_elem_of_fmap. simpl. tauto.
    + eapply rpcs_mono; [done..|]. by eapply run_op_peer_step.
  - apply bind_Some in Ha as (rf & Hi & [= <-]). eapply cast_new; [|apply lookup_insert_eq].
    assert (Hop : run_op OpKill rf = Some (Kill rf)) by done.
    eapply (inv_op n c V i rf); try done; [constructor| |apply fewer_refl].
    eapply rpcs_mono; [done..|]. by eapply run_op_peer_step.
  - apply bind_Some in Ha as (rf & Hi & Ha).
    apply bind_Some in Ha as ([rf' eff] & Hr & [= <-]). eapply cast_new; [by eapply inv_restart|apply lookup_insert_eq].
Qed.

Lemma recovered_empty : recovered (ReadRaftState MakePersister) = (0, -1, [zeroEntry (Cmd := Cmd)]).
Proof. unfold recovered. by rewrite decide_True. Qed.

Lemma init_node n now i rf :
  nodes (cluster_init n now : Cluster Cmd) !! i = Some rf ->
  exists eff, Make n i MakePersister now = Some (rf, eff) /\ 0 <= i < Z.of_nat n.
Proof.
  intros Hi. simpl in Hi. apply elem_of_list_to_map_2, list_elem_of_omap in Hi.
  destruct Hi as (j & Hj & Hm). apply bind_Some in Hm as ([rf' eff] & Hm & [= -> ->]).
  exists eff. split; [done|]. rewrite elem_of_seqZ in Hj. lia.
Qed.

Lemma cluster_init_inv n now : election_inv n (cluster_init n now : Cluster Cmd) ∅.
Proof.
  pose proof (init_node n now) as Hn.
  split; simpl; try set_solver.
  - intros i rf (eff & Hm & Hi)%Hn. apply Make_recovers in Hm as (Hr & Hp & Hpe & Hme & _).
    unfold durable. rewrite Hp. by rewrite Hr.
  - intros v rf (eff & Hm & Hi)%Hn. apply Make_recovers in Hm as (Hr & _).
    split; [set_solver|]. rewrite recovered_empty in Hr. by injection Hr as -> -> _.
  - intros i rf (eff & Hm & Hi)%Hn. apply Make_recovers in Hm as (_ & _ & _ & _ & Hs & _).
    split; congruence.
Qed.

Lemma run_votes n c c' V acts :
  election_inv n c V -> run acts c = Some c' -> exists V', election_inv n c' V' /\ V ⊆ V'.
Proof.
  revert c V. induction acts as [|a acts IH]; intros c V Hinv Hr; simpl in Hr.
  - injection Hr as <-. eauto.
  - apply bind_Some in Hr as (c1 & Ha & Hr).
    destruct (exec_inv n c c1 V a Hinv Ha) as (V1 & Hinv1 & Hnew & _).
    destruct (IH c1 V1 Hinv1 Hr) as (V2 & Hinv2 & Hsub). exists V2. split; [done|]. by etrans.
Qed.

(** Peer [i] has the votes of a majority for term [t]. *)
Definition won (n : nat) V (i t : Z) : Prop :=
  exists S : gset Z, Z.of_nat n < 2 * Z.of_nat (size S) /\ forall v, v ∈ S -> (t, v, i) ∈ V.

Lemma leader_won n c V i rf :
  election_inv n c V -> nodes c !! i = Some rf -> state rf = Leader -> won n V i (currentTerm rf).
Proof. intros Hinv Hi Hs. exact (proj2 (ei_role _ _ _ Hinv _ _ Hi) Hs). Qed.

Lemma won_mono n V V' i t : V ⊆ V' -> won n V i t -> won n V' i t.
Proof. intros HV (S & Hq & HS). exists S. split; [done|]. intros v Hv. by apply HV, HS. Qed.

Lemma won_unique n c V i j t : election_inv n c V -> won n V i t -> won n V j t -> i = j.
Proof.
  intros Hinv (S1 & Hq1 & HS1) (S2 & Hq2 & HS2).
  assert (Hrange : forall t v x, (t, v, x) ∈ V -> 0 <= v < Z.of_nat n).
  { intros t' v x Hx. destruct (ei_dom _ _ _ Hinv _ _ _ Hx) as [rf Hrf].
    by apply (ei_node _ _ _ Hinv) in Hrf as (_ & _ & ? & _). }
  destruct (quorum_intersection n S1 S2) as (v & Hv1 & Hv2); try done; [by eauto..|].
  apply HS1 in Hv1. apply HS2 in Hv2. by apply (ei_fun _ _ _ Hinv _ _ _ _ Hv1).
Qed.

(** C6. Election safety: in every state a cluster of [n] peers can reach from
    its start, through elections, replication, losses, delays, reordering,
    crashes and restarts, two peers that are leaders of the same term are the
    same peer. *)
Theorem election_safety n now acts c i j rfi rfj :
  run acts (cluster_init n now) = Some c ->
  nodes c !! i = Some rfi -> nodes c !! j = Some rfj ->
  state rfi = Leader -> state rfj = Leader -> currentTerm rfi = currentTerm rfj ->
  i = j.
Proof.
  intros Hr Hi Hj Hsi Hsj Ht. destruct (run_votes n _ _ _ _ (cluster_init_inv n now) Hr) as (V & Hinv & _).
  pose proof (leader_won n c V i rfi Hinv Hi Hsi) as Hwi. rewrite Ht in Hwi.
  exact (won_unique n c V i j _ Hinv Hwi (leader_won n c V j rfj Hinv Hj Hsj)).
Qed.
End election.
