(* ===== verification/RaftRefine.v ===== *)
(** The cluster of [RaftCluster] refines the replicated log of [RaftLog].

    [Rel n c s V L] relates a cluster state to a state [s] of the specification:
    the log in the memory of a peer is its specification log behind the snapshot
    point ([rep]), its commit index marks a chosen prefix, leaders own the log
    of their term, and every RPC in progress carries a piece of a leader's log.
    [V] is the set of votes of the election invariant, [L] the leader of each
    term. *)

From S2P Require Import Prelude Gob Persister RaftTypes RaftNode RaftInv RaftSafe RaftSpec.
From S2P Require Import RaftCluster RaftElection RaftLog.
Local Open Scope Z_scope.

(** * How specification states evolve *)

Section evolution.
Context {Cmd : Type} (n : nat).
Implicit Types (s : Spec Cmd) (l x : list (LogEntry Cmd)).

Record evolves s s' : Prop := {
  ev_grows : grows s s';
  ev_voters : forall T l, elog s !! T = Some l -> voters s' T = voters s T;
  ev_cand : cand s ⊆ cand s';
  ev_ballots : ballots s ⊆ ballots s'
}.

Lemma grows_refl s : grows s s.
Proof. split; eauto; lia. Qed.

Lemma grows_trans s1 s2 s3 : grows s1 s2 -> grows s2 s3 -> grows s1 s3.
Proof.
  intros [A1 A2 A3 A4] [B1 B2 B3 B4]. split.
  - intros v. specialize (A1 v). specialize (B1 v). lia.
  - intros T l Hl. destruct (A2 T l Hl) as (l2 & H2 & P2). destruct (B2 T l2 H2) as (l3 & H3 & P3).
    exists l3. split; [done|by etrans].
  - intros T v. specialize (A3 T v). specialize (B3 T v). lia.
  - intros T v HT. rewrite B4; [by apply A4|]. specialize (A1 v). lia.
Qed.

Lemma evolves_refl s : evolves s s.
Proof. split; [apply grows_refl|done..]. Qed.

Lemma evolves_trans s1 s2 s3 : evolves s1 s2 -> evolves s2 s3 -> evolves s1 s3.
Proof.
  intros [A1 A2 A3 A4] [B1 B2 B3 B4]. split; [by eapply grows_trans| |by etrans|by etrans].
  intros T l Hl. destruct (gr_elog _ _ A1 _ _ Hl) as (l2 & H2 & _).
  rewrite (B2 T l2 H2). by eapply A2.
Qed.

Lemma evolves_peer s v p :
  pterm (peer s v) <= pterm p -> evolves s (set_peer v p s).
Proof.
  intros Hp. split; [split|..]; simpl; try done; eauto; try lia.
  intros w. unfold fupd. case_decide; [by subst|lia].
Qed.

Lemma evolves_ack s s' m v :
  evolves s s' -> ackd s' = ackd s -> evolves s (set_ack (pterm (peer s v)) v m s').
Proof.
  intros [[A1 A2 A3 A4] B1 B2 B3] E. split; [split|..]; try done.
  - intros T w. rewrite ackd_set, E. case_decide as H; [destruct H as [-> ->]; lia|lia].
  - intros T w HT. rewrite ackd_set, E, decide_False; [done|]. intros [-> ->]. lia.
Qed.

Lemma spec_step_evolves s s' : spec_inv n s -> spec_step n s s' -> evolves s s'.
Proof.
  intros I Hs. revert I. destruct Hs; intros I.
  - by apply evolves_peer.
  - destruct (evolves_peer s v (mkPeer t (plog p) (pstale p))) as [[A1 A2 A3 A4] _ _ _]; [subst t p; simpl; lia|].
    split; [by split|done| |set_solver].
    simpl. apply insert_subseteq. destruct (cand s !! (t, v)) as [[g o]|] eqn:Ec; [|done].
    pose proof (v_cand _ _ I _ _ _ _ Ec) as [? _]. subst t p. lia.
  - split; [by destruct (grows_refl s); split|done|done|set_solver].
  - split; [split|..]; simpl; try done; try lia.
    + intros T l Hl. exists l. rewrite lookup_insert_ne by congruence. done.
    + intros T l Hl. rewrite fupd_ne by congruence. done.
  - split; [by eapply append_grows|done..].
  - apply evolves_ack; [apply evolves_refl|done].
  - apply evolves_ack; [by apply evolves_peer|done].
  - by apply evolves_peer.
Qed.

Lemma spec_steps_evolve s s' : spec_inv n s -> rtc (spec_step n) s s' -> evolves s s'.
Proof.
  intros I H. induction H as [|s1 s2 s3 Hs H IH]; [apply evolves_refl|].
  eapply evolves_trans; [by apply spec_step_evolves|]. apply IH. by eapply spec_step_inv.
Qed.
End evolution.

(** * Logs in memory *)

Section rep.
Context {Cmd : Type} (n : nat).
Implicit Types (s : Spec Cmd) (l x lg es : list (LogEntry Cmd)) (p : Peer Cmd).

(** The entries of a peer, from index 1. *)
Definition real p : list (LogEntry Cmd) :=
  match pstale p with
  | None => plog p
  | Some x => plog p ++ drop (length (plog p)) x
  end.

(** The log [lg] in memory: an entry for the snapshot, then what follows it. *)
Definition rep_at (first : Z) lg p : Prop :=
  0 <= first <= zlen (plog p) /\
  lg = mkLogEntry None (tm (plog p) first) first :: drop (Z.to_nat first) (real p).
Definition rep lg p : Prop := exists first, rep_at first lg p.

Lemma real_prefix p : plog p `prefix_of` real p.
Proof. unfold real. destruct (pstale p); [by apply prefix_app_r|done]. Qed.

(** What the invariant says about the entries of one peer. *)
Record peer_ok s p : Prop := {
  po_log : genuine s (plog p);
  po_stale : forall x, pstale p = Some x -> stale_ok n s (pterm p) (plog p) x
}.

Lemma inv_peer_ok s v : spec_inv n s -> peer_ok s (peer s v).
Proof. intros I. split; [apply I|]. intros x. apply I. Qed.

Lemma real_len s p : peer_ok s p -> zlen (real p) = lastidx (plog p) (pstale p).
Proof.
  intros [_ Hs]. unfold real, lastidx. destruct (pstale p) as [x|]; [|done]. simpl.
  destruct (Hs x eq_refl) as (_ & Hl & _). rewrite zlen_app. unfold zlen in *.
  rewrite length_drop. lia.
Qed.

Lemma real_index_stale p x k :
  pstale p = Some x -> zlen (plog p) <= k -> (real p).[k] = x.[k].
Proof.
  intros E Hk. unfold real. rewrite E. rewrite go_index_app_r by done.
  assert (length (plog p) = Z.to_nat (zlen (plog p))) as -> by (unfold zlen; lia).
  pose proof (zlen_nonneg (plog p)). rewrite go_index_drop by lia. f_equal. lia.
Qed.

Lemma real_Index s p k e : peer_ok s p -> (real p).[k] = Some e -> Index e = k + 1.
Proof.
  intros [Hg Hs] Hk. destruct (decide (k < zlen (plog p))).
  - rewrite <- (index_prefix _ _ k (real_prefix p)) in Hk by done. by apply (Hg k e).
  - destruct (pstale p) as [x|] eqn:E.
    + rewrite (real_index_stale p x) in Hk by (done || lia). destruct (Hs x eq_refl) as (Hx & _).
      by apply (Hx k e).
    + unfold real in Hk. rewrite E in Hk. by apply (Hg k e).
Qed.

Lemma real_lastterm s p : peer_ok s p -> tm (real p) (zlen (real p)) = lastterm (plog p) (pstale p).
Proof.
  intros Hp. rewrite (real_len s) by done. unfold lastterm. destruct (pstale p) as [x|] eqn:E; simpl.
  - unfold lastidx, tm. simpl. destruct (po_stale _ _ Hp x E) as (_ & Hl & _).
    by rewrite (real_index_stale p x) by (done || lia).
  - unfold real. by rewrite E.
Qed.

Section at_first.
Context (s : Spec Cmd) (p : Peer Cmd) (first : Z) (lg : list (LogEntry Cmd)).
Context (P : peer_ok s p) (R : rep_at first lg p).

Lemma first_real : 0 <= first <= zlen (real p).
Proof. destruct R as [? _]. pose proof (zlen_prefix _ _ (real_prefix p)). lia. Qed.

Lemma rep_first : firstIdx lg = first.
Proof. destruct R as [_ ->]. done. Qed.

Lemma rep_next : nextIdx lg = zlen (real p) + 1.
Proof.
  unfold nextIdx. rewrite rep_first. pose proof first_real. destruct R as [_ ->].
  rewrite zlen_cons, zlen_drop by done. lia.
Qed.

Lemma rep_entry i : first < i -> entry_at lg i = (real p).[i - 1].
Proof.
  intros Hi. unfold entry_at. rewrite rep_first. pose proof first_real. destruct R as [_ ->].
  rewrite go_index_cons_S by lia. rewrite go_index_drop by lia. f_equal. lia.
Qed.

Lemma rep_term i : first <= i <= zlen (real p) -> term_at lg i = Some (tm (real p) i).
Proof.
  intros Hi. unfold term_at. destruct (decide (i = first)) as [->|].
  - unfold entry_at. rewrite rep_first. replace (first - first) with 0 by lia.
    destruct R as [Hf ->]. simpl. f_equal. apply tm_prefix; [apply real_prefix|lia].
  - rewrite rep_entry by lia. destruct (tm_in (real p) i) as (e & -> & ->); [pose proof first_real; lia|done].
Qed.

Lemma rep_wf : log_wf lg.
Proof.
  pose proof first_real as Hf. split; [by destruct R as [_ ->]|]. rewrite rep_first.
  destruct R as [_ ->]. intros i e Hi. pose proof (go_index_Some_lt _ _ _ Hi).
  destruct (decide (i = 0)) as [->|]; [injection Hi as <-; simpl; lia|].
  rewrite go_index_cons_S, go_index_drop in Hi by lia. apply (real_Index s) in Hi; [lia|done].
Qed.

(** The log up to index [i] and the entries after it. *)
Lemma rep_before i : first <= i <= zlen (real p) ->
  log_before lg (i + 1) = mkLogEntry None (tm (plog p) first) first :: drop (Z.to_nat first) (upto (real p) i).
Proof.
  intros Hi. unfold log_before. rewrite rep_first. destruct R as [_ ->].
  replace (Z.to_nat (i + 1 - first)) with (S (Z.to_nat (i - first))) by (destruct R; lia). simpl. f_equal.
  unfold upto. rewrite skipn_firstn_comm. f_equal. destruct R. lia.
Qed.

Lemma rep_drop i : first <= i <= zlen (real p) ->
  drop (Z.to_nat (i + 1 - first)) lg = drop (Z.to_nat i) (real p).
Proof.
  intros Hi. destruct R as [? ->].
  replace (Z.to_nat (i + 1 - first)) with (S (Z.to_nat (i - first))) by lia. simpl.
  rewrite drop_drop. f_equal. lia.
Qed.
End at_first.
End rep.

(** * Merging a piece of a leader's log *)

Section merging.
Context {Cmd : Type} (n : nat) (s : Spec Cmd) (p : Peer Cmd) (I : spec_inv n s) (P : peer_ok n s p).
Implicit Types (l x lg Y : list (LogEntry Cmd)).

(** A log that matches a stale tail is not a continuation of the sound prefix. *)
Lemma stale_no_match x Y i :
  pstale p = Some x -> genuine s Y -> zlen (plog p) < i <= zlen Y -> i <= zlen x ->
  tm x i = tm Y i -> upto Y (zlen (plog p)) <> plog p.
Proof using I P.
  intros E HY Hi Hx Ht Heq. destruct (po_stale _ _ _ P x E) as (Hg & _ & Hne & _).
  pose proof (zlen_nonneg (plog p)). apply Hne. etrans; [|exact Heq].
  pose proof (log_matching n s I x Y i Hg HY ltac:(lia) ltac:(lia) Ht) as Hu.
  rewrite <- (upto_upto x (zlen (plog p)) i) by lia.
  rewrite <- (upto_upto Y (zlen (plog p)) i) by lia. by rewrite Hu.
Qed.

Lemma real_stale x i : pstale p = Some x -> zlen (plog p) < i ->
  tm (real p) i = tm x i /\ zlen (real p) = zlen x.
Proof using P.
  intros E Hi. split; [unfold tm; by rewrite (real_index_stale p x) by (done || lia)|].
  rewrite (real_len n s) by done. unfold lastidx. by rewrite E.
Qed.

Lemma real_match Y i :
  genuine s Y -> 1 <= i <= zlen Y -> i <= zlen (real p) ->
  upto (real p) (i - 1) = upto Y (i - 1) -> tm (real p) i = tm Y i ->
  upto (real p) i = upto Y i.
Proof using I P.
  intros HY Hi Hr Hu Ht. destruct (decide (i <= zlen (plog p))) as [Hle|Hgt].
  - rewrite <- (upto_of_prefix _ _ i (real_prefix p)) by done.
    rewrite <- (tm_prefix _ _ i (real_prefix p)) in Ht by done.
    apply (log_matching n s I); [apply P|done|lia|lia|done].
  - destruct (pstale p) as [x|] eqn:E.
    + destruct (real_stale x i E) as [Hx Hxl]; [lia|].
      exfalso. apply (stale_no_match x Y i); try done; [lia|lia|congruence|].
      rewrite <- (upto_upto Y (zlen (plog p)) (i - 1)) by lia. rewrite <- Hu, upto_upto by lia.
      rewrite <- (upto_of_prefix _ _ _ (real_prefix p)) by lia. by rewrite upto_ge.
    + unfold real in Hr. rewrite E in Hr. lia.
Qed.

(** The consistency check of [AppendEntries]. *)
Lemma real_prev l prev :
  elog s !! pterm p = Some l -> 0 <= prev <= zlen (real p) -> prev <= zlen l ->
  tm (real p) prev = tm l prev -> upto (real p) prev = upto l prev.
Proof using I P.
  intros Hl Hp Hpl Ht. destruct (decide (prev = 0)) as [->|]; [done|].
  destruct (v_elog _ _ I _ _ Hl) as [Hg _].
  destruct (decide (prev <= zlen (plog p))) as [Hle|Hgt].
  - rewrite <- (upto_of_prefix _ _ _ (real_prefix p)) by done.
    rewrite <- (tm_prefix _ _ _ (real_prefix p)) in Ht by done.
    apply (log_matching n s I); [apply P|done|lia|lia|done].
  - destruct (pstale p) as [x|] eqn:E; [|unfold real in Hp; rewrite E in Hp; lia].
    destruct (real_stale x prev E) as [Hx Hxl]; [lia|].
    exfalso. apply (stale_no_match x l prev); try done; [lia|lia|congruence|].
    destruct (po_stale _ _ _ P x E) as (_ & _ & _ & S & k & Hc & HS & Hk & lS & HlS & HSl & Hpre).
    destruct (chosen_in_leader n s I S k _ l Hc HS Hl) as (l' & Hl' & Hkl & Hpl').
    assert (l' = lS) as -> by congruence. pose proof (zlen_nonneg (plog p)).
    rewrite <- (upto_of_prefix (upto lS k) l) by (done || (rewrite zlen_upto; lia)).
    rewrite upto_upto by done. apply prefix_is_upto in Hpre. rewrite zlen_upto in Hpre by lia.
    rewrite Hpre. by rewrite upto_ge by lia.
Qed.

Lemma real_prefix_sound Y : genuine s Y -> Y `prefix_of` real p -> Y `prefix_of` plog p.
Proof using I P.
  intros HY Hp. pose proof (zlen_prefix _ _ Hp). destruct (decide (zlen Y <= zlen (plog p))).
  - rewrite (prefix_is_upto _ _ Hp). rewrite <- (upto_of_prefix _ _ _ (real_prefix p)) by done.
    apply upto_prefix.
  - destruct (pstale p) as [x|] eqn:E; [|unfold real in *; by rewrite E in *].
    pose proof (zlen_nonneg (plog p)).
    destruct (real_stale x (zlen (plog p) + 1) E) as [Hx Hxl]; [lia|].
    exfalso. apply (stale_no_match x Y (zlen (plog p) + 1)); try done; [lia|lia| |].
    + rewrite <- Hx. symmetry. apply tm_prefix; [done|lia].
    + rewrite (upto_of_prefix Y (real p)) by (done || lia).
      rewrite <- (upto_of_prefix _ _ _ (real_prefix p)) by lia. by rewrite upto_ge.
Qed.

Context (first : Z) (lg : list (LogEntry Cmd)) (R : rep_at first lg p).

(** [merge_log] keeps the log when it already has the entries, and otherwise
    makes it end with them. *)
Lemma merge_rep Y : genuine s Y ->
  forall d prev, Z.to_nat (zlen Y - prev) = d -> first <= prev <= zlen (real p) -> prev <= zlen Y ->
  upto (real p) prev = upto Y prev ->
  (Y `prefix_of` real p /\ merge_log (prev + 1) (drop (Z.to_nat prev) Y) lg = lg) \/
  (~ Y `prefix_of` real p /\ merge_log (prev + 1) (drop (Z.to_nat prev) Y) lg =
     mkLogEntry None (tm (plog p) first) first :: drop (Z.to_nat first) Y).
Proof using I P R.
  intros HY. pose proof (first_real p first lg R) as Hf.
  induction d as [|d IH]; intros prev Hd Hp Hpy Hu.
  { left. assert (zlen Y = prev) as HYl by lia. split.
    - rewrite <- (upto_ge Y prev) by lia. rewrite <- Hu. apply upto_prefix.
    - rewrite drop_ge by (unfold zlen in HYl; lia). done. }
  destruct (tm_in Y (prev + 1)) as (e & He & Hte); [lia|]. replace (prev + 1 - 1) with prev in He by lia.
  assert (drop (Z.to_nat prev) Y = e :: drop (Z.to_nat (prev + 1)) Y) as Hdrop.
  { rewrite go_index_lookup in He by lia. rewrite (drop_S _ _ _ He). do 2 f_equal. lia. }
  rewrite Hdrop. simpl. destruct (decide (prev + 1 <= zlen (real p))) as [Hin|Hout].
  - rewrite (rep_term p first lg R) by lia. case_decide as Hdt.
    + apply IH; try lia. apply real_match; try done; [lia| |by rewrite Hte].
      by replace (prev + 1 - 1) with prev by lia.
    + right. assert (~ Y `prefix_of` real p) as Hn.
      { intros HYp. apply Hdt. rewrite <- Hte. symmetry. apply tm_prefix; [done|lia]. }
      split; [done|]. rewrite (rep_before p first lg R) by lia. rewrite <- Hdrop. simpl. f_equal.
      rewrite Hu. rewrite <- (take_drop (Z.to_nat prev) Y) at 3. fold (upto Y prev).
      rewrite drop_app_le; [done|]. unfold upto. rewrite length_take. unfold zlen in *. lia.
  - right. assert (~ Y `prefix_of` real p) as Hn by (intros HYp%zlen_prefix; lia). split; [done|].
    assert (zlen (real p) = prev) as Hrl by lia.
    assert (term_at lg (prev + 1) = None) as ->.
    { rewrite <- Hrl, <- (rep_next p first lg R). apply term_at_nextIdx. }
    rewrite <- Hdrop. destruct R as [_ ->]. simpl. f_equal.
    assert (real p = upto Y prev) as -> by (rewrite <- Hu; by rewrite upto_ge by lia).
    rewrite <- (take_drop (Z.to_nat prev) Y) at 3. fold (upto Y prev).
    rewrite drop_app_le; [done|]. unfold upto. rewrite length_take. unfold zlen in *. lia.
Qed.
End merging.
