(* ===== verification/RaftSim.v ===== *)
(** The simulation relation between the cluster and the replicated log, and how
    a step of one peer preserves what is known about the others. *)

From S2P Require Import Prelude Gob Persister RaftTypes RaftNode RaftInv RaftSafe RaftSpec.
From S2P Require Import RaftCluster RaftElection RaftLog RaftRefine.
Local Open Scope Z_scope.

Section relation.
Context {Cmd : Type} `{Gob Z} `{Gob (list (LogEntry Cmd))} (n : nat).
Implicit Types (c : Cluster Cmd) (rf : Raft Cmd) (s : Spec Cmd) (l : list (LogEntry Cmd)).
Implicit Types (V : gset (Z * Z * Z)) (L : gmap Z Z).

(** The first [k] entries of [l] are chosen, in terms up to [t]. *)
Definition committed s (t : Z) l (k : Z) : Prop :=
  0 <= k <= zlen l /\
  (k = 0 \/ exists S j lS, chosen n s S j /\ S <= t /\ k <= j /\
              elog s !! S = Some lS /\ upto l k = upto lS k).

(** Peer [d] has stored the entries of term [T] up to index [m], or they are
    chosen without it. *)
Definition stored s (T d m : Z) : Prop :=
  exists l, elog s !! T = Some l /\ m <= zlen l /\
    forall k, led s T k -> k <= m -> k <= ackd s T d \/ exists k', k <= k' /\ chosen n s T k'.

Record node_rel s L (i : Z) rf : Prop := {
  n_term : pterm (peer s i) = currentTerm rf;
  n_log : rep (log rf) (peer s i);
  n_ok : node_ok rf;
  n_commit : committed s (currentTerm rf) (plog (peer s i)) (commitIndex rf);
  n_vote : voteFor rf <> -1 -> (currentTerm rf, i, voteFor rf) ∈ ballots s;
  n_cand : state rf = Candidate ->
    cand s !! (currentTerm rf, i) = Some (plog (peer s i), pstale (peer s i)) /\
    L !! currentTerm rf <> Some i;
  n_leader : state rf = Leader ->
    L !! currentTerm rf = Some i /\ pstale (peer s i) = None /\
    elog s !! currentTerm rf = Some (plog (peer s i)) /\
    (forall k, led s (currentTerm rf) k -> k <= ackd s (currentTerm rf) i) /\
    (forall d m, d <> i -> (matchIndex rf).[d] = Some m -> stored s (currentTerm rf) d m)
}.

(** An AppendEntries RPC of term [T]: indices [prev + 1 .. m] of the leader's log. *)
Definition sent s (T : Z) (args : AppendEntriesArgs Cmd) : Prop :=
  let prev := aePrevLogIndex args in let m := prev + zlen (aeEntries args) in
  exists l, elog s !! T = Some l /\ 0 <= prev /\ m <= zlen l /\
    aePrevLogTerm args = tm l prev /\ aeEntries args = drop (Z.to_nat prev) (upto l m) /\
    aeLeaderCommit args <= m /\ committed s T l (aeLeaderCommit args).

(** An InstallSnapshot RPC of term [T]: a chosen prefix of the leader's log. *)
Definition sent_snapshot s (T : Z) (args : InstallSnapshotArgs) : Prop :=
  exists l, elog s !! T = Some l /\ committed s T l (isLastIncludedIndex args) /\
    isLastIncludedTerm args = tm l (isLastIncludedIndex args).

(** Calls of the leader of term [T] to another peer. *)
Definition call_of L (T src dst : Z) : Prop :=
  L !! T = Some src /\ (dst <> src /\ 0 <= src < Z.of_nat n) /\ 0 <= dst < Z.of_nat n.

Definition rpc_rel s L (m : Rpc Cmd) : Prop :=
  match m with
  | RVReq src dst args => exists g o, cand s !! (rvTerm args, src) = Some (g, o) /\
      rvLastLogTerm args = lastterm g o /\ rvLastLogIndex args = lastidx g o
  | RVRep _ _ _ _ => True
  | Repl src dst term => call_of L term src dst
  | AEReq src dst args => call_of L (aeTerm args) src dst /\ sent s (aeTerm args) args
  | AERep src dst args reply =>
      call_of L (aeTerm args) src dst /\ sent s (aeTerm args) args /\
      aerConflictIndex reply <= aePrevLogIndex args + 1 /\
      (aerSuccess reply = true -> aerTerm reply = aeTerm args ->
       stored s (aeTerm args) dst (aePrevLogIndex args + zlen (aeEntries args)))
  | ISReq src dst args => call_of L (isTerm args) src dst /\ sent_snapshot s (isTerm args) args
  | ISRep src dst args reply => call_of L (isTerm args) src dst /\ sent_snapshot s (isTerm args) args
  end.

(** What has been handed to the services is chosen. *)
Definition chosen_at s (i : Z) (f : list (LogEntry Cmd) -> Prop) : Prop :=
  exists S j lS, chosen n s S j /\ elog s !! S = Some lS /\ 1 <= i <= j /\ f (upto lS j).

Definition msg_rel s (im : Z * ApplyMsg Cmd) : Prop :=
  let m := im.2 in
  (CommandValid m = true -> chosen_at s (CommandIndex m) (fun l =>
     exists e, l.[CommandIndex m - 1] = Some e /\ amCommand m = Command e /\ CommandTerm m = Term e)) /\
  (SnapshotValid m = true -> chosen_at s (SnapshotIndex m) (fun l =>
     SnapshotTerm m = tm l (SnapshotIndex m))).

Record Rel c s V L : Prop := {
  r_el : election_inv n c V;
  r_spec : spec_inv n s;
  r_votes : V ⊆ ballots s;
  r_dom : forall T, is_Some (L !! T) <-> is_Some (elog s !! T);
  r_ldr : forall T j, L !! T = Some j -> forall v, v ∈ voters s T -> (T, v, j) ∈ V;
  r_node : forall i rf, nodes c !! i = Some rf -> node_rel s L i rf;
  r_rpc : forall m, m ∈ rpcs c -> rpc_rel s L m;
  r_msgs : forall im, im ∈ delivered c -> msg_rel s im
}.

(** ** Stability *)

Lemma committed_le s t t' l k k' :
  committed s t l k -> t <= t' -> 0 <= k' <= k -> committed s t' l k'.
Proof.
  intros [Hk Hc] Ht Hk'. split; [lia|]. destruct Hc as [->|(S & j & lS & ? & ? & ? & ? & Hu)]; [left; lia|].
  right. exists S, j, lS. split_and!; try done; try lia.
  rewrite <- (upto_upto l k' k), <- (upto_upto lS k' k) by lia. by rewrite Hu.
Qed.

Lemma committed_prefix s t l l' k : l `prefix_of` l' -> committed s t l k -> committed s t l' k.
Proof.
  intros Hp [Hk Hc]. pose proof (zlen_prefix _ _ Hp). split; [lia|].
  destruct Hc as [->|(S & j & lS & ? & ? & ? & ? & Hu)]; [by left|right].
  exists S, j, lS. split_and!; try done. by rewrite <- (upto_of_prefix l l') by (done || lia).
Qed.

(** Only the entries up to [k] matter. *)
Lemma committed_upto s t l l' k :
  upto l k = upto l' k -> k <= zlen l' -> committed s t l k -> committed s t l' k.
Proof.
  intros Hu Hl [Hk Hc]. split; [lia|].
  destruct Hc as [->|(S & j & lS & ? & ? & ? & ? & Hu')]; [by left|right].
  exists S, j, lS. split_and!; try done. congruence.
Qed.

Section grow.
Context (s s' : Spec Cmd) (E : evolves s s').

Lemma committed_grows t l k : spec_inv n s -> committed s t l k -> committed s' t l k.
Proof using E.
  intros I [Hk Hc]. split; [done|].
  destruct Hc as [->|(S & j & lS & Hc & ? & ? & HlS & Hu)]; [by left|right].
  destruct (gr_elog _ _ (ev_grows _ _ E) _ _ HlS) as (lS' & HlS' & Hp).
  destruct (led_in n s I _ _ (proj1 Hc)) as (l0 & Hl0 & Hj & _). assert (l0 = lS) as -> by congruence.
  exists S, j, lS'. split_and!; try done; [by apply (chosen_grows n s _ (ev_grows _ _ E))|].
  by rewrite <- (upto_of_prefix lS lS') by (done || lia).
Qed.

Lemma stored_grows T d m : stored s T d m -> stored s' T d m.
Proof using E.
  intros (l & Hl & Hm & Hs). destruct (gr_elog _ _ (ev_grows _ _ E) _ _ Hl) as (l' & Hl' & Hp).
  pose proof (zlen_prefix _ _ Hp). exists l'. split_and!; [done|lia|]. intros k (l0 & Hl0 & Hk & Ht) Hkm.
  assert (l0 = l') as -> by congruence.
  destruct (Hs k) as [Ha|(k' & ? & ?)]; [|done|..].
  - exists l. split_and!; [done|lia|lia|]. rewrite <- Ht. apply tm_prefix; [done|lia].
  - left. pose proof (gr_ack _ _ (ev_grows _ _ E) T d). lia.
  - right. exists k'. split; [done|]. by apply (chosen_grows n s _ (ev_grows _ _ E)).
Qed.

Lemma sent_grows T args : spec_inv n s -> sent s T args -> sent s' T args.
Proof using E.
  intros I (l & Hl & ? & Hm & ? & Hes & ? & Hc). destruct (gr_elog _ _ (ev_grows _ _ E) _ _ Hl) as (l' & Hl' & Hp).
  pose proof (zlen_prefix _ _ Hp). pose proof (zlen_nonneg (aeEntries args)).
  exists l'. split_and!; try done; try lia.
  - by rewrite <- (tm_prefix l l') by (done || lia).
  - by rewrite <- (upto_of_prefix l l') by (done || lia).
  - apply (committed_prefix _ _ l); [done|]. by apply committed_grows.
Qed.

Lemma sent_snapshot_grows T args : spec_inv n s -> sent_snapshot s T args -> sent_snapshot s' T args.
Proof using E.
  intros I (l & Hl & Hc & Ht). destruct (gr_elog _ _ (ev_grows _ _ E) _ _ Hl) as (l' & Hl' & Hp).
  exists l'. split_and!; [done| |].
  - apply (committed_prefix _ _ l); [done|]. by apply committed_grows.
  - rewrite <- (tm_prefix l l'); [done|done|]. destruct Hc. lia.
Qed.

Lemma rpc_rel_grows L L' m : spec_inv n s -> L ⊆ L' -> rpc_rel s L m -> rpc_rel s' L' m.
Proof using E.
  intros I HL. assert (forall T src dst, call_of L T src dst -> call_of L' T src dst) as Hcall.
  { intros T src dst (? & ? & ?). split_and!; try done; try lia. by eapply lookup_weaken. }
  destruct m; simpl; auto.
  - intros (g & o & Hc & ? & ?). exists g, o. split_and!; try done.
    eapply lookup_weaken; [done|apply E].
  - intros [? ?]. auto using sent_grows.
  - intros (? & ? & ? & ?). split_and!; auto using sent_grows, stored_grows.
  - intros [? ?]. auto using sent_snapshot_grows.
  - intros [? ?]. auto using sent_snapshot_grows.
Qed.

Lemma chosen_at_grows i f : spec_inv n s -> chosen_at s i f -> chosen_at s' i f.
Proof using E.
  intros I (S & j & lS & Hc & HlS & Hi & Hf).
  destruct (gr_elog _ _ (ev_grows _ _ E) _ _ HlS) as (lS' & HlS' & Hp).
  destruct (led_in n s I _ _ (proj1 Hc)) as (l0 & Hl0 & Hj & _). assert (l0 = lS) as -> by congruence.
  exists S, j, lS'. split_and!; try done; try lia; [by apply (chosen_grows n s _ (ev_grows _ _ E))|].
  by rewrite <- (upto_of_prefix lS lS') by (done || lia).
Qed.

Lemma msg_rel_grows im : spec_inv n s -> msg_rel s im -> msg_rel s' im.
Proof using E. intros I [H1 H2]. split; intros Hv; apply chosen_at_grows; auto. Qed.

(** What is known about a peer that does not move. *)
Lemma node_rel_frame L L' j rf : spec_inv n s ->
  peer s' j = peer s j -> L ⊆ L' ->
  (forall T x, L' !! T = Some x -> L !! T = Some x \/ x <> j) ->
  (forall T, L !! T = Some j -> elog s' !! T = elog s !! T) ->
  node_rel s L j rf -> node_rel s' L' j rf.
Proof using E.
  intros I Ep HL Hnew Hel [Ht Hl Hok Hc Hv Hcand Hlead].
  split; rewrite ?Ep; try done.
  - by apply committed_grows.
  - intros Hx. apply (ev_ballots _ _ E). auto.
  - intros Hs. destruct (Hcand Hs) as [Hc1 Hc2]. split.
    + eapply lookup_weaken; [done|apply E].
    + intros [|]%Hnew; done.
  - intros Hs. destruct (Hlead Hs) as (H1 & H2 & H3 & H4 & H5). specialize (Hel _ H1).
    split_and!; [by eapply lookup_weaken|done|by rewrite Hel| |].
    + intros k Hk. pose proof (gr_ack _ _ (ev_grows _ _ E) (currentTerm rf) j).
      specialize (H4 k). unfold led in *. rewrite Hel in Hk. specialize (H4 Hk). lia.
    + intros d m Hd Hm. apply stored_grows. eauto.
Qed.
End grow.

(** ** One peer moves *)

Lemma rel_step c s V L c' s' V' L' i rf rf' :
  Rel c s V L -> nodes c !! i = Some rf -> nodes c' = <[i := rf']> (nodes c) ->
  election_inv n c' V' -> new_votes c' V V' ->
  rtc (spec_step n) s s' -> (forall j, j <> i -> peer s' j = peer s j) ->
  L ⊆ L' -> (forall T, is_Some (L' !! T) <-> is_Some (elog s' !! T)) ->
  (forall T x, L' !! T = Some x -> L !! T = Some x \/
     (x = i /\ forall v, v ∈ voters s' T -> (T, v, i) ∈ V')) ->
  (forall T j, L !! T = Some j -> j <> i -> elog s' !! T = elog s !! T) ->
  node_rel s' L' i rf' ->
  (forall m, m ∈ rpcs c' -> m ∈ rpcs c \/ rpc_rel s' L' m) ->
  (forall im, im ∈ delivered c' -> im ∈ delivered c \/ msg_rel s' im) ->
  Rel c' s' V' L'.
Proof.
  intros R Hi Hn Hel' Hnv Hs Hpeer HL Hdom Hnew Helog Hnode Hrpc Hmsg.
  pose proof (r_spec _ _ _ _ R) as I. pose proof (spec_steps_evolve n s s' I Hs) as E.
  assert (forall j rfj, nodes c' !! j = Some rfj -> node_rel s' L' j rfj) as Hnodes.
  { intros j rfj Hj. rewrite Hn in Hj. destruct (decide (j = i)) as [->|Hne].
    - rewrite lookup_insert_eq in Hj. by injection Hj as <-.
    - rewrite lookup_insert_ne in Hj by done.
      eapply (node_rel_frame s s' E L); [done|by apply Hpeer|done| | |by apply (r_node _ _ _ _ R)].
      + intros T x Hx. destruct (Hnew T x Hx) as [|[-> _]]; [by left|by right].
      + intros T HT. by apply (Helog T j). }
  split; try done.
  - by eapply spec_steps_inv.
  - intros [[t v] x] Hx. destruct (proj2 Hnv t v x Hx) as [Hold|(rfv & Hv & Hvf & -> & ->)].
    + apply (ev_ballots _ _ E). by apply (r_votes _ _ _ _ R).
    + by apply (n_vote _ _ _ _ (Hnodes v rfv Hv)).
  - intros T j Hj v Hv. destruct (Hnew T j Hj) as [Hold|[-> Hx]]; [|by apply Hx].
    apply Hnv. apply (r_ldr _ _ _ _ R T j Hold).
    destruct (proj1 (r_dom _ _ _ _ R T) (mk_is_Some _ _ Hold)) as [l Hl].
    by rewrite (ev_voters _ _ E T l Hl) in Hv.
  - intros m Hm. destruct (Hrpc m Hm) as [Hold|]; [|done].
    apply (rpc_rel_grows s s' E L); [done|done|]. by apply (r_rpc _ _ _ _ R).
  - intros im Him. destruct (Hmsg im Him) as [Hold|]; [|done].
    apply (msg_rel_grows s s' E); [done|]. by apply (r_msgs _ _ _ _ R).
Qed.

(** The common case: no leader is elected and no leader's log grows. *)
Lemma rel_step_same c s V L c' s' V' i rf rf' :
  Rel c s V L -> nodes c !! i = Some rf -> nodes c' = <[i := rf']> (nodes c) ->
  election_inv n c' V' -> new_votes c' V V' ->
  rtc (spec_step n) s s' -> (forall j, j <> i -> peer s' j = peer s j) -> elog s' = elog s ->
  node_rel s' L i rf' ->
  (forall m, m ∈ rpcs c' -> m ∈ rpcs c \/ rpc_rel s' L m) ->
  (forall im, im ∈ delivered c' -> im ∈ delivered c \/ msg_rel s' im) ->
  Rel c' s' V' L.
Proof.
  intros R Hi Hn Hel' Hnv Hs Hpeer Helog Hnode Hrpc Hmsg.
  eapply (rel_step c s V L); try done.
  - intros T. rewrite Helog. apply R.
  - intros T x Hx. by left.
  - intros T j _ _. by rewrite Helog.
Qed.

(** A peer whose term, log, role and commit index stay. *)
Lemma node_rel_ext s L i rf rf' :
  node_rel s L i rf -> node_ok rf' -> currentTerm rf' = currentTerm rf -> log rf' = log rf ->
  commitIndex rf' = commitIndex rf -> voteFor rf' = voteFor rf -> state rf' = state rf ->
  matchIndex rf' = matchIndex rf -> node_rel s L i rf'.
Proof.
  intros [] Hok Ht Hl Hc Hv Hs Hm. split; rewrite ?Ht, ?Hl, ?Hc, ?Hv, ?Hs, ?Hm; auto.
Qed.

(** A peer that is, or becomes, a follower (or is killed), in the same or a
    later term, with the same log. *)
Lemma node_rel_passive s s' L L' i rf rf' :
  spec_inv n s -> evolves s s' -> node_rel s L i rf ->
  peer s' i = mkPeer (currentTerm rf') (plog (peer s i)) (pstale (peer s i)) ->
  currentTerm rf <= currentTerm rf' -> log rf' = log rf -> 0 <= commitIndex rf' <= commitIndex rf ->
  node_ok rf' -> (voteFor rf' <> -1 -> (currentTerm rf', i, voteFor rf') ∈ ballots s') ->
  state rf' <> Candidate -> state rf' <> Leader -> node_rel s' L' i rf'.
Proof.
  intros I E [Ht Hl Hok Hc Hv Hcand Hlead] Ep Hle Elog Eci Hok' Hv' Hnc Hnl.
  split; rewrite ?Ep; simpl; try done.
  - rewrite Elog. destruct Hl as (f & Hf & Hlg). exists f. by split.
  - apply (committed_grows s); [done|done|]. by eapply committed_le.
Qed.

Lemma update_node_rpcs i rf eff ms c m :
  m ∈ rpcs (update_node i rf eff ms c) -> m ∈ ms \/ m ∈ emit i eff.
Proof. simpl. by intros ?%elem_of_app. Qed.

Lemma update_node_delivered i rf eff ms c im :
  im ∈ delivered (update_node i rf eff ms c) -> im ∈ delivered c \/ im ∈ emit_apply i eff.
Proof. simpl. by intros ?%elem_of_app. Qed.

Lemma elem_of_delete_rpc k (ms : list (Rpc Cmd)) m : m ∈ delete k ms -> m ∈ ms.
Proof.
  intros Hm. destruct (ms !! k) as [x|] eqn:E.
  - rewrite (delete_Permutation ms k x E). by right.
  - apply lookup_ge_None in E. rewrite delete_take_drop in Hm.
    apply elem_of_app in Hm as [Hm|Hm].
    + eapply (elem_of_prefix); [|apply prefix_take]. done.
    + rewrite drop_ge in Hm by lia. by apply elem_of_nil in Hm.
Qed.
End relation.
