(* ===== verification/RaftSteps.v ===== *)
(** Every action of the cluster is a sequence of steps of the replicated log:
    elections, life cycle and the leader's side of replication. *)

From S2P Require Import Prelude Gob Persister RaftTypes RaftNode RaftInv RaftSafe RaftSpec.
From S2P Require Import RaftCluster RaftElection RaftLog RaftRefine RaftSim.
Local Open Scope Z_scope.

Section steps.
Context {Cmd : Type} `{Gob Z} `{Gob (list (LogEntry Cmd))}.
Context `{!GobLaws Z} `{!GobLaws (list (LogEntry Cmd))} (n : nat).
Implicit Types (c : Cluster Cmd) (rf : Raft Cmd) (s : Spec Cmd) (eff : list (Effect Cmd)).
Implicit Types (V : gset (Z * Z * Z)) (L : gmap Z Z).

(** Effects that start no RPC and hand nothing to the service. *)
Definition silent eff : Prop := forall i, emit i eff = [] /\ emit_apply i eff = [].

(** The rest of the peer is untouched. *)
Definition same_rest rf rf' : Prop :=
  log rf' = log rf /\ commitIndex rf' = commitIndex rf /\ lastApplied rf' = lastApplied rf /\
  matchIndex rf' = matchIndex rf.

(** ** Votes *)

Lemma RequestVote_cases now args rf rf' reply eff :
  RequestVote now args rf = Some (rf', reply, eff) ->
  silent eff /\ same_rest rf rf' /\
  ( (currentTerm rf' = currentTerm rf /\ voteFor rf' = voteFor rf /\ state rf' = state rf)
  \/ (currentTerm rf < currentTerm rf' /\ voteFor rf' = -1 /\ state rf' = Follower)
  \/ (currentTerm rf <= currentTerm rf' /\ currentTerm rf' = rvTerm args /\
      voteFor rf' = rvCandidateId args /\
      (state rf' = Follower \/ (currentTerm rf' = currentTerm rf /\ state rf' = state rf)) /\
      exists lt li, getLastTerm rf = Some lt /\ getLastIndex rf = Some li /\
        up_to_date lt li (rvLastLogTerm args) (rvLastLogIndex args))).
Proof.
  intros Hr. unfold up_to_date, same_rest, silent. unfold_handlers. unfold getLastIndex, getLastTerm in *.
  handler_cases; split_and!; try done; try (by left);
    try (right; left; split_and!; simpl; (done || lia));
    try (right; right; split_and!; simpl; try (done || lia || (by left) || (by right));
         [simplify_option_eq; eauto 10]).
Qed.

(** What remains to be shown for an action of peer [i]. *)
Definition acts c i rf' eff (ms : list (Rpc Cmd)) c' : Prop :=
  nodes c' = <[i := rf']> (nodes c) /\ rpcs c' = ms ++ emit i eff /\
  delivered c' = delivered c ++ emit_apply i eff.

Lemma acts_update c i rf' eff ms : acts c i rf' eff ms (update_node i rf' eff ms c).
Proof. done. Qed.
Lemma acts_votes c i rf' eff ms key v : acts c i rf' eff ms (set_votes key v (update_node i rf' eff ms c)).
Proof. done. Qed.

(** The step of the cluster to [c'] is a sequence of steps of the replicated log
    from [s]. *)
Definition simulated c' s V' : Prop :=
  exists s' L', rtc (spec_step n) s s' /\ Rel n c' s' V' L'.

Lemma finish c s V L c' V' i rf rf' eff ms s' :
  Rel n c s V L -> nodes c !! i = Some rf -> acts c i rf' eff ms c' ->
  election_inv n c' V' -> new_votes c' V V' ->
  rtc (spec_step n) s s' -> (forall j, j <> i -> peer s' j = peer s j) -> elog s' = elog s ->
  node_rel n s' L i rf' ->
  (forall m, m ∈ ms -> m ∈ rpcs c \/ rpc_rel n s' L m) ->
  (forall m, m ∈ emit i eff -> rpc_rel n s' L m) ->
  (forall im, im ∈ emit_apply i eff -> msg_rel n s' im) ->
  simulated c' s V'.
Proof.
  intros R Hi (Hn & Hr & Hd) Hel Hnv Hs Hp He Hnode Hms Hem Hap. exists s', L. split; [done|].
  eapply (rel_step_same n c s V L); try done.
  - intros m. rewrite Hr. intros [|]%elem_of_app; auto.
  - intros im. rewrite Hd. intros [|]%elem_of_app; auto.
Qed.

(** The same when the effects are silent. *)
Lemma finish_silent c s V L c' V' i rf rf' eff ms s' :
  Rel n c s V L -> nodes c !! i = Some rf -> acts c i rf' eff ms c' ->
  election_inv n c' V' -> new_votes c' V V' -> silent eff ->
  rtc (spec_step n) s s' -> (forall j, j <> i -> peer s' j = peer s j) -> elog s' = elog s ->
  node_rel n s' L i rf' -> (forall m, m ∈ ms -> m ∈ rpcs c \/ rpc_rel n s' L m) ->
  simulated c' s V'.
Proof.
  intros R Hi Ha Hel Hnv Hsil Hs Hp He Hnode Hx. destruct (Hsil i) as [E1 E2].
  eapply (finish c s V L c' V' i rf rf' eff ms s'); try done.
  - rewrite E1. by intros m ?%elem_of_nil.
  - rewrite E2. by intros m ?%elem_of_nil.
Qed.

(** The RPCs in progress after RPC [k] was replaced by [m']. *)
Lemma replaced k (ms : list (Rpc Cmd)) m' m : m ∈ m' :: delete k ms -> m ∈ ms \/ m = m'.
Proof. intros [->|?]%elem_of_cons; [by right|left]. by eapply elem_of_delete_rpc. Qed.

Lemma rep_last s p rf :
  peer_ok n s p -> rep (log rf) p ->
  getLastIndex rf = Some (lastidx (plog p) (pstale p)) /\
  getLastTerm rf = Some (lastterm (plog p) (pstale p)).
Proof.
  intros P (f & R). pose proof (first_real p f _ R) as Hf.
  destruct (getLastEntry_wf rf (rep_wf n s p f _ P R)) as (e & He & -> & ->).
  rewrite (rep_next p f _ R), (real_len n s p P). split; [f_equal; lia|]. f_equal.
  rewrite <- (real_lastterm n s p P).
  pose proof (rep_term p f _ R (zlen (real p)) ltac:(lia)) as Ht. unfold term_at, entry_at in Ht.
  rewrite (rep_first p f _ R) in Ht.
  assert (zlen (log rf) - 1 = zlen (real p) - f) as Hz.
  { pose proof (rep_next p f _ R) as Hn. unfold nextIdx in Hn. rewrite (rep_first p f _ R) in Hn. lia. }
  rewrite Hz in He. rewrite He in Ht. by injection Ht.
Qed.

(** One term step, or none. *)
Lemma term_steps s v t : spec_inv n s -> pterm (peer s v) <= t ->
  let s' := set_peer v (mkPeer t (plog (peer s v)) (pstale (peer s v))) s in
  rtc (spec_step n) s s' /\ evolves s s' /\ spec_inv n s' /\ elog s' = elog s /\
  (forall j, j <> v -> peer s' j = peer s j) /\
  peer s' v = mkPeer t (plog (peer s v)) (pstale (peer s v)).
Proof.
  intros I Ht s'. assert (rtc (spec_step n) s s') as Hs by (apply rtc_once; by apply s_term).
  split_and!; [done|by eapply spec_steps_evolve|by eapply spec_steps_inv|done| |].
  - intros j Hj. simpl. by apply fupd_ne.
  - apply fupd_eq.
Qed.

Lemma run_op_node_ok op rf rf' : node_ok rf -> op_ok op rf -> run_op op rf = Some rf' -> node_ok rf'.
Proof. intros Hok Hop Hr. destruct (run_op_ok op rf Hok Hop) as (rf2 & Hr2 & ?). congruence. Qed.

Lemma step_RVReq c s V L c' V' k src dst args now rf rf' reply eff :
  Rel n c s V L -> rpcs c !! k = Some (RVReq src dst args) -> nodes c !! dst = Some rf ->
  RequestVote now args rf = Some (rf', reply, eff) ->
  acts c dst rf' eff (RVRep src dst args reply :: delete k (rpcs c)) c' ->
  election_inv n c' V' -> new_votes c' V V' -> simulated c' s V'.
Proof.
  intros R Hk Hi Hr Ha Hel Hnv. pose proof (r_spec _ _ _ _ _ R) as I.
  pose proof (r_node _ _ _ _ _ R dst rf Hi) as N.
  assert (node_ok rf') as Hok.
  { apply (run_op_node_ok (OpRequestVote now args) rf); [apply N|done|]. simpl. by rewrite Hr. }
  destruct (RequestVote_cases _ _ _ _ _ _ Hr) as (Hsil & (El & Ec & Ea & Em) & Hcase).
  pose proof (fun s' => finish_silent c s V L c' V' dst rf rf' eff _ s' R Hi Ha Hel Hnv) as F.
  assert (forall s m, m ∈ RVRep src dst args reply :: delete k (rpcs c) -> m ∈ rpcs c \/ rpc_rel n s L m)
    as Hx by (intros s1 m [| ->]%replaced; [by left|by right]).
  assert (0 <= commitIndex rf) as Hc0 by (apply (n_commit _ _ _ _ _ N)).
  destruct Hcase as [(Et & Ev & Es)|[(Hlt & Ev & Es)|(Hle & Et & Ev & Es & lt & li & Hlt & Hli & Hup)]].
  - apply (F s); try done; [by eapply node_rel_ext|]. apply Hx.
  - destruct (term_steps s dst (currentTerm rf') I) as (S1 & E1 & I1 & El1 & P1 & Pd1);
      [rewrite (n_term _ _ _ _ _ N); lia|].
    eapply F; try done; [|apply Hx].
    eapply (node_rel_passive n s); try done; try lia; congruence.
  - destruct (term_steps s dst (currentTerm rf') I) as (S1 & E1 & I1 & El1 & P1 & Pd1);
      [rewrite (n_term _ _ _ _ _ N); lia|].
    set (s1 := set_peer _ _ _) in *.
    destruct (r_rpc _ _ _ _ _ R _ (list_elem_of_lookup_2 _ _ _ Hk)) as (g & o & Hc & Hgt & Hgi).
    assert (rvCandidateId args = src) as Hsrc.
    { pose proof (proj1 (Forall_forall _ _) (ei_rpc _ _ _ (r_el _ _ _ _ _ R)) _
        (list_elem_of_lookup_2 _ _ _ Hk)) as Hrpc. by destruct Hrpc. }
    destruct (rep_last s (peer s dst) rf (inv_peer_ok n s dst I) (n_log _ _ _ _ _ N)) as [HLi HLt].
    set (s2 := add_ballot (pterm (peer s1 dst), dst, src) s1).
    assert (spec_step n s1 s2) as S2.
    { apply (s_vote n s1 dst src g o); rewrite Pd1; simpl; [by rewrite Et|].
      rewrite <- Hgt, <- Hgi. rewrite HLi in Hli. rewrite HLt in Hlt. injection Hli as <-. injection Hlt as <-.
      destruct Hup as [?|[? ?]]; [by left|right; lia]. }
    pose proof (evolves_trans _ _ _ E1 (spec_step_evolves n _ _ I1 S2)) as E2.
    apply (F s2); try done; [by eapply rtc_r| |apply Hx].
    assert ((currentTerm rf', dst, voteFor rf') ∈ ballots s2) as Hb.
    { subst s2. cbn [add_ballot ballots]. rewrite Pd1, Ev, Hsrc. set_solver. }
    destruct Es as [Es|[Et' Es]].
    + eapply (node_rel_passive n s); try done; try lia; try congruence.
    + destruct (node_rel_frame n s _ E2 L L dst rf I) as [? ? ? ? ? ? ?]; try done.
      { change (peer s2 dst) with (peer s1 dst). rewrite Pd1, Et'. rewrite <- (n_term _ _ _ _ _ N). by destruct (peer s dst). }
      { intros. by left. }
      split; rewrite ?Et', ?El, ?Ec, ?Es, ?Em; try done. by rewrite <- Et'.
Qed.
(** A peer that falls back, is killed or restarts: same log, same or later term. *)
Lemma step_passive c s V L c' V' i rf rf' eff ms :
  Rel n c s V L -> nodes c !! i = Some rf -> acts c i rf' eff ms c' ->
  election_inv n c' V' -> new_votes c' V V' -> silent eff ->
  currentTerm rf <= currentTerm rf' -> log rf' = log rf ->
  0 <= commitIndex rf' <= commitIndex rf -> node_ok rf' ->
  (voteFor rf' = -1 \/ (currentTerm rf' = currentTerm rf /\ voteFor rf' = voteFor rf)) ->
  state rf' = Follower \/ state rf' = Dead ->
  (forall m, m ∈ ms -> m ∈ rpcs c \/ forall s', evolves s s' -> rpc_rel n s' L m) ->
  simulated c' s V'.
Proof.
  intros R Hi Ha Hel Hnv Hsil Hle El Hc Hok Hv Hs Hms.
  pose proof (r_spec _ _ _ _ _ R) as I. pose proof (r_node _ _ _ _ _ R i rf Hi) as N.
  destruct (term_steps s i (currentTerm rf') I) as (S1 & E1 & I1 & El1 & P1 & Pd1);
    [rewrite (n_term _ _ _ _ _ N); lia|].
  eapply (finish_silent c s V L c' V' i rf rf'); try done.
  - eapply (node_rel_passive n s); try done; [|naive_solver congruence..].
    intros Hne. destruct Hv as [|[Et Ev]]; [done|]. apply (ev_ballots _ _ E1).
    rewrite Et, Ev. apply (n_vote _ _ _ _ _ N). congruence.
  - intros m Hm. destruct (Hms m Hm); auto.
Qed.

(** A peer of which nothing relevant changes. *)
Lemma step_still c s V L c' V' i rf rf' eff ms :
  Rel n c s V L -> nodes c !! i = Some rf -> acts c i rf' eff ms c' ->
  election_inv n c' V' -> new_votes c' V V' ->
  node_rel n s L i rf' ->
  (forall m, m ∈ ms -> m ∈ rpcs c \/ rpc_rel n s L m) ->
  (forall m, m ∈ emit i eff -> rpc_rel n s L m) ->
  (forall im, im ∈ emit_apply i eff -> msg_rel n s im) ->
  simulated c' s V'.
Proof. intros. by eapply (finish c s V L c' V' i rf rf'). Qed.

(** ** Elections *)

Lemma leader_term c s V L T j : Rel n c s V L -> L !! T = Some j -> T <= pterm (peer s j).
Proof.
  intros R Hj. pose proof (r_spec _ _ _ _ _ R) as I.
  destruct (proj1 (r_dom _ _ _ _ _ R T) (mk_is_Some _ _ Hj)) as [l Hl].
  destruct (v_voters _ _ I _ _ Hl) as [HQ _]. destruct (quorum_meet _ _ _ HQ HQ) as (v & Hv & _).
  pose proof (r_votes _ _ _ _ _ R _ (r_ldr _ _ _ _ _ R T j Hj v Hv)) as Hb.
  destruct (v_ballot _ _ I _ _ _ Hb) as (_ & g & o & Hc & _).
  by apply (v_cand _ _ I _ _ _ _ Hc).
Qed.

Lemma startElection_cases now timeout nowTerm rf rf' b eff :
  runElectionTimer now timeout nowTerm rf = Some (rf', b, eff) ->
  (rf' = rf /\ eff = []) \/
  (currentTerm rf' = currentTerm rf + 1 /\ state rf' = Candidate /\ voteFor rf' = me rf /\
   same_rest rf rf' /\ exists li lt, getLastIndex rf = Some li /\ getLastTerm rf = Some lt /\
     eff = vote_calls (me rf) (mkRequestVoteArgs (currentTerm rf') (me rf) li lt) (range_peers rf)
           ++ [EffTicker Follower]).
Proof.
  intros Hr. unfold same_rest. unfold_handlers. unfold getLastIndex, getLastTerm in *.
  handler_cases; auto. right. split_and!; try done. simplify_option_eq. eauto 10.
Qed.

Lemma step_timer c s V L c' V' i now timeout nowTerm rf rf' b eff :
  Rel n c s V L -> nodes c !! i = Some rf ->
  runElectionTimer now timeout nowTerm rf = Some (rf', b, eff) ->
  acts c i rf' eff (rpcs c) c' ->
  election_inv n c' V' -> new_votes c' V V' -> simulated c' s V'.
Proof.
  intros R Hi Hr Ha Hel Hnv. pose proof (r_spec _ _ _ _ _ R) as I.
  pose proof (r_node _ _ _ _ _ R i rf Hi) as N.
  assert (node_ok rf') as Hok.
  { apply (run_op_node_ok (OpElectionTimer now timeout nowTerm) rf); [apply N|done|]. simpl. by rewrite Hr. }
  destruct (startElection_cases _ _ _ _ _ _ _ Hr) as
    [[-> ->]|(Et & Es & Ev & (El & Ec & Ea & Em) & li & lt & Hli & Hlt & ->)].
  { eapply (step_still c s V L c' V' i rf rf); try done; [auto|by intros m ?%elem_of_nil..]. }
  destruct (ei_node _ _ _ (r_el _ _ _ _ _ R) _ _ Hi) as (Hme & _). rewrite Hme in *.
  pose proof (s_stand n s i) as S1. cbn zeta in S1. set (s1 := add_ballot _ _) in S1.
  pose proof (spec_step_evolves n _ _ I S1) as E1. pose proof (n_term _ _ _ _ _ N) as Ht.
  assert (peer s1 i = mkPeer (currentTerm rf') (plog (peer s i)) (pstale (peer s i))) as P1.
  { subst s1. cbn [add_ballot set_cand set_peer peer]. rewrite fupd_eq. by rewrite Et, Ht. }
  assert (cand s1 !! (currentTerm rf', i) = Some (plog (peer s i), pstale (peer s i))) as C1.
  { subst s1. cbn [add_ballot set_cand set_peer cand]. rewrite Et, <- Ht. apply lookup_insert_eq. }
  destruct (rep_last s (peer s i) rf (inv_peer_ok n s i I) (n_log _ _ _ _ _ N)) as [HLi HLt].
  rewrite HLi in Hli. rewrite HLt in Hlt. injection Hli as <-. injection Hlt as <-.
  eapply (finish c s V L c' V' i rf rf' _ _ s1); try done.
  - by apply rtc_once.
  - intros j Hj. subst s1. cbn [add_ballot set_cand set_peer peer]. by apply fupd_ne.
  - split; rewrite ?P1; simpl; try done.
    + rewrite El. destruct (n_log _ _ _ _ _ N) as (f & Hf & Hlg). exists f. by split.
    + rewrite Ec. apply (committed_grows n s); [done|done|].
      apply (committed_le n s (currentTerm rf) _ _ (commitIndex rf)); [apply N|lia|].
      pose proof (n_commit _ _ _ _ _ N) as [? _]. lia.
    + intros _. subst s1. cbn [add_ballot ballots]. rewrite Et, Ev, <- Ht. set_solver.
    + intros _. split; [done|]. intros HL. pose proof (leader_term _ _ _ _ _ _ R HL). lia.
    + congruence.
  - auto.
  - rewrite emit_vote_calls. intros m (d & -> & _)%list_elem_of_fmap. simpl.
    exists (plog (peer s i)), (pstale (peer s i)). by split_and!.
  - unfold emit_apply. intros im Him. exfalso. revert Him. rewrite omap_app.
    intros [Him|Him]%elem_of_app; [|by apply elem_of_nil in Him].
    apply list_elem_of_omap in Him as (e & He & Hm). unfold vote_calls in He.
    apply list_elem_of_omap in He as (d & _ & Hd). case_decide; [done|]. injection Hd as <-. done.
Qed.

Lemma onRequestVoteReply_outcome now args reply v rf rf' v' eff :
  node_ok rf -> onRequestVoteReply now args reply v rf = Some (rf', v', eff) ->
  silent eff /\
  ( rf' = rf
  \/ (currentTerm rf < currentTerm rf' /\ voteFor rf' = -1 /\ state rf' = Follower /\ same_rest rf rf')
  \/ (state rf = Candidate /\ state rf' = Leader /\ currentTerm rf' = currentTerm rf /\
      voteFor rf' = voteFor rf /\ log rf' = log rf /\ commitIndex rf' = commitIndex rf /\
      forall d m, (matchIndex rf').[d] = Some m -> m = 0)).
Proof.
  intros Hok Hr. unfold same_rest, silent.
  assert (forall d m mi, store_each (range_peers rf) 0 (matchIndex rf) = Some mi ->
    mi.[d] = Some m -> m = 0) as Hz.
  { intros d m mi Hmi Hd. unfold range_peers in Hmi.
    rewrite store_each_range in Hmi by apply Hok. injection Hmi as <-.
    unfold go_index in Hd. case_decide; [|done]. by apply lookup_replicate in Hd as [-> _]. }
  unfold_handlers. handler_cases; split_and!; try done; try (by left); try (right; left; split_and!; (done || lia)).
  all: right; right; destruct_and?; split_and!; try done; intros d m Hd; by eapply Hz.
Qed.

(** The majority that made peer [i] leader. *)
Lemma leader_quorum c V i rf : election_inv n c V -> nodes c !! i = Some rf -> state rf = Leader ->
  exists Q, quorum n Q /\ forall v, v ∈ Q -> (currentTerm rf, v, i) ∈ V.
Proof.
  intros Hel Hi Hs. destruct (proj2 (ei_role _ _ _ Hel _ _ Hi) Hs) as (Q & HQ & Hv).
  exists Q. split; [|done]. split; [|done]. intros v Hvv.
  destruct (ei_dom _ _ _ Hel _ _ _ (Hv v Hvv)) as [rfv Hrfv].
  by apply (ei_node _ _ _ Hel) in Hrfv as (_ & _ & ? & _).
Qed.

(** A candidate's term has no leader yet when the candidate wins it. *)
Lemma term_open c s V L c' V' i rf rf' :
  Rel n c s V L -> nodes c !! i = Some rf -> nodes c' !! i = Some rf' ->
  election_inv n c' V' -> V ⊆ V' -> state rf = Candidate -> state rf' = Leader ->
  currentTerm rf' = currentTerm rf -> L !! currentTerm rf = None.
Proof.
  intros R Hi Hi' Hel HV Hc Hl Et. destruct (L !! currentTerm rf) as [j|] eqn:Hj; [exfalso|done].
  pose proof (r_node _ _ _ _ _ R i rf Hi) as N. destruct (n_cand _ _ _ _ _ N Hc) as [_ Hnot].
  destruct (proj1 (r_dom _ _ _ _ _ R _) (mk_is_Some _ _ Hj)) as [l Hl'].
  destruct (v_voters _ _ (r_spec _ _ _ _ _ R) _ _ Hl') as [HQ1 _].
  destruct (leader_quorum c' V' i rf' Hel Hi' Hl) as (Q2 & HQ2 & Hv2).
  destruct (quorum_meet _ _ _ HQ1 HQ2) as (v & V1 & V2).
  pose proof (HV _ (r_ldr _ _ _ _ _ R _ _ Hj v V1)) as B1. specialize (Hv2 v V2). rewrite Et in Hv2.
  pose proof (ei_fun _ _ _ Hel _ _ _ _ B1 Hv2). congruence.
Qed.

Lemma step_win c s V L c' V' i rf rf' eff ms :
  Rel n c s V L -> nodes c !! i = Some rf -> acts c i rf' eff ms c' ->
  election_inv n c' V' -> new_votes c' V V' -> silent eff -> node_ok rf' ->
  state rf = Candidate -> state rf' = Leader -> currentTerm rf' = currentTerm rf ->
  voteFor rf' = voteFor rf -> log rf' = log rf -> commitIndex rf' = commitIndex rf ->
  (forall d m, (matchIndex rf').[d] = Some m -> m = 0) ->
  (forall m, m ∈ ms -> m ∈ rpcs c) -> simulated c' s V'.
Proof.
  intros R Hi (Hn & Hr & Hd) Hel Hnv Hsil Hok Hsc Hsl Et Ev El Ec Hmi Hms.
  pose proof (r_spec _ _ _ _ _ R) as I. pose proof (r_node _ _ _ _ _ R i rf Hi) as N.
  assert (nodes c' !! i = Some rf') as Hi' by (rewrite Hn; apply lookup_insert_eq).
  pose proof (term_open c s V L c' V' i rf rf' R Hi Hi' Hel (proj1 Hnv) Hsc Hsl Et) as Hopen.
  assert (elog s !! currentTerm rf = None) as Hnone.
  { destruct (elog s !! currentTerm rf) eqn:E; [|done].
    destruct (proj2 (r_dom _ _ _ _ _ R (currentTerm rf))) as [? ?]; [by rewrite E|congruence]. }
  destruct (leader_quorum c' V' i rf' Hel Hi' Hsl) as (Q & HQ & HvQ). rewrite Et in HvQ.
  assert (forall v, v ∈ Q -> (currentTerm rf, v, i) ∈ ballots s) as HbQ.
  { intros v Hv. destruct (proj2 Hnv _ _ _ (HvQ v Hv)) as [Hold|(rfv & Hrfv & Hne & Htv & Hxv)].
    - by apply (r_votes _ _ _ _ _ R).
    - rewrite Hn in Hrfv. destruct (decide (v = i)) as [->|].
      + rewrite lookup_insert_eq in Hrfv. injection Hrfv as <-.
        pose proof (n_vote _ _ _ _ _ N ltac:(congruence)) as Hb. by rewrite <- Ev, <- Hxv in Hb.
      + rewrite lookup_insert_ne in Hrfv by done. rewrite Htv, Hxv.
        by apply (n_vote _ _ _ _ _ (r_node _ _ _ _ _ R v rfv Hrfv)). }
  destruct (n_cand _ _ _ _ _ N Hsc) as [Hcand _].
  set (g := plog (peer s i)) in *. set (s1 := set_voters (currentTerm rf) Q (set_elog (currentTerm rf) g s)).
  assert (spec_step n s s1) as S1 by (by eapply (s_win n s)).
  pose proof (spec_step_evolves n _ _ I S1) as E1.
  assert (pstale (peer s i) = None) as Hst by (by eapply (win_clean n s)).
  assert (elog s1 !! currentTerm rf = Some g) as Hel1 by apply lookup_insert_eq.
  assert (rtc (spec_step n) s s1) as Hsteps by (by apply rtc_once).
  exists s1, (<[currentTerm rf := i]> L). destruct (Hsil i) as [Em1 Em2]. split; [done|].
  eapply (rel_step n c s V L); try done.
  - by apply insert_subseteq.
  - intros T. destruct (decide (T = currentTerm rf)) as [->|].
    + rewrite Hel1, lookup_insert_eq. done.
    + subst s1. cbn [set_voters set_elog elog]. rewrite !lookup_insert_ne by done. apply R.
  - intros T x Hx. apply lookup_insert_Some in Hx as [[<- <-]|[_ Hx]]; [right|by left].
    split; [done|]. intros v Hv. apply HvQ. subst s1. cbn [set_voters voters] in Hv.
    by rewrite fupd_eq in Hv.
  - intros T j Hj _. subst s1. cbn [set_voters set_elog elog]. rewrite lookup_insert_ne by congruence. done.
  - destruct (node_rel_frame n s s1 E1 L L i rf I) as [? ? _ ? ? _ _]; try done; [by left|by intros; simpl; rewrite lookup_insert_ne by congruence|].
    split; rewrite ?Et, ?El, ?Ec, ?Ev; try done; [congruence|]. intros _. split_and!; try done.
    + apply lookup_insert_eq.
    + intros k (l & Hl & Hk & Htm). exfalso. assert (l = g) as -> by congruence.
      destruct (v_cand _ _ I _ _ _ _ Hcand) as (_ & _ & Hlt & _).
      destruct (tm_in g k) as (e & He & Ht'); [lia|]. apply Hlt in He. lia.
    + intros d m _ Hm. apply Hmi in Hm as ->. exists g. split_and!; [done|apply zlen_nonneg|].
      intros k (? & ? & ? & ?) ?. lia.
  - intros m. rewrite Hr, Em1, app_nil_r. auto.
  - intros im. rewrite Hd, Em2, app_nil_r. auto.
Qed.

Lemma step_RVRep c s V L c' V' k src dst args reply v v' now rf rf' eff :
  Rel n c s V L -> rpcs c !! k = Some (RVRep src dst args reply) -> nodes c !! src = Some rf ->
  onRequestVoteReply now args reply v rf = Some (rf', v', eff) ->
  acts c src rf' eff (delete k (rpcs c)) c' ->
  election_inv n c' V' -> new_votes c' V V' -> simulated c' s V'.
Proof.
  intros R Hk Hi Hr Ha Hel Hnv. pose proof (r_node _ _ _ _ _ R src rf Hi) as N.
  assert (node_ok rf') as Hok.
  { apply (run_op_node_ok (OpRequestVoteReply now args reply v) rf); [apply N|done|]. simpl. by rewrite Hr. }
  pose proof (fun m => elem_of_delete_rpc k (rpcs c) m) as Hdel.
  pose proof (n_commit _ _ _ _ _ N) as [Hc0 _].
  destruct (onRequestVoteReply_outcome _ _ _ _ _ _ _ _ (n_ok _ _ _ _ _ N) Hr) as
    (Hsil & [->|[(Hlt & Ev & Es & El & Ec & _)|(Hsc & Hsl & Et & Ev & El & Ec & Hm)]]).
  - eapply (finish_silent c s V L c' V' src rf rf); try done. eauto.
  - eapply (step_passive c s V L c' V' src rf rf'); try done; try lia; eauto.
  - by eapply (step_win c s V L c' V' src rf rf').
Qed.
End steps.
