(* ===== verification/RaftLead.v ===== *)
(** Every action of the cluster is a sequence of steps of the replicated log:
    heartbeats, what a leader sends, new commands, snapshots of the service,
    delivery to the service, kill and restart. *)

From S2P Require Import Prelude Gob Persister RaftTypes RaftNode RaftInv RaftSafe RaftSpec.
From S2P Require Import RaftCluster RaftElection RaftLog RaftRefine RaftSim RaftSteps.
Local Open Scope Z_scope.

Section lead.
Context {Cmd : Type} `{Gob Z} `{Gob (list (LogEntry Cmd))}.
Context `{!GobLaws Z} `{!GobLaws (list (LogEntry Cmd))} (n : nat).
Implicit Types (c : Cluster Cmd) (rf : Raft Cmd) (s : Spec Cmd) (eff : list (Effect Cmd)).
Implicit Types (V : gset (Z * Z * Z)) (L : gmap Z Z).

(** ** Heartbeats *)

Lemma runHeartBeats_emit i rf :
  emit_apply i (runHeartBeats rf) = [] /\
  forall m, m ∈ emit i (runHeartBeats rf) ->
    state rf = Leader /\ exists d, m = Repl i d (currentTerm rf) /\ d <> me rf /\
      0 <= d < Z.of_nat (peers rf).
Proof.
  unfold runHeartBeats, emit, emit_apply. case_decide as Hs; [split; [done|by intros m ?%elem_of_nil]|].
  split.
  - induction (range_peers rf) as [|d ds IH]; [done|]. simpl. case_decide; simpl; done.
  - intros m Hm. split; [by destruct (state rf)|].
    apply list_elem_of_omap in Hm as (e & He & Hm). apply list_elem_of_omap in He as (d & Hd & He).
    case_decide; [done|]. injection He as <-. injection Hm as <-. exists d. split_and!; try done;
      apply elem_of_seqZ in Hd; lia.
Qed.

Lemma leader_call c s V L i rf d :
  Rel n c s V L -> nodes c !! i = Some rf -> state rf = Leader -> d <> me rf ->
  0 <= d < Z.of_nat (peers rf) -> call_of n L (currentTerm rf) i d.
Proof.
  intros R Hi Hs Hd Hr. destruct (n_leader _ _ _ _ _ (r_node _ _ _ _ _ R i rf Hi) Hs) as (HL & _).
  destruct (ei_node _ _ _ (r_el _ _ _ _ _ R) _ _ Hi) as (Hm & Hp & Hin & _).
  rewrite Hm in Hd. rewrite Hp in Hr. unfold call_of. split_and!; done || lia.
Qed.

Lemma step_heartbeat c s V L c' V' i nowTerm rf :
  Rel n c s V L -> nodes c !! i = Some rf ->
  acts c i rf (heartBeatsTimer nowTerm rf).2 (rpcs c) c' ->
  election_inv n c' V' -> new_votes c' V V' -> simulated n c' s V'.
Proof.
  intros R Hi Ha Hel Hnv. destruct (runHeartBeats_emit i rf) as [H1 H2].
  assert (heartBeatsTimer nowTerm rf = (false, []) \/ (heartBeatsTimer nowTerm rf).2 = runHeartBeats rf)
    as [E|E] by (unfold heartBeatsTimer; destruct (killed rf); [by left|]; case_decide; auto);
    rewrite E in Ha.
  - eapply (step_still n c s V L c' V' i rf rf); try done; [by apply R|auto|by intros m ?%elem_of_nil..].
  - eapply (step_still n c s V L c' V' i rf rf); try done; [by apply R|auto| |].
    + intros m (Hs & d & -> & Hd & Hr)%H2. by eapply leader_call.
    + rewrite H1. by intros m ?%elem_of_nil.
Qed.

(** ** What the leader sends *)

Lemma replicate_to_leader server term rf call :
  replicate_to server term rf = Some call ->
  match call with
  | ReplStop => True
  | ReplInstall args => state rf = Leader /\ getFirstTerm rf = Some (isLastIncludedTerm args)
  | ReplAppend args => state rf = Leader
  end.
Proof.
  unfold replicate_to. intros Hr. handler_cases; try done.
  all: assert (state rf = Leader) by (by destruct (decide (state rf = Leader))); done.
Qed.

Lemma leader_rep s L i rf : spec_inv n s -> node_rel n s L i rf -> state rf = Leader ->
  exists first, rep_at first (log rf) (peer s i) /\ real (peer s i) = plog (peer s i) /\
    elog s !! currentTerm rf = Some (plog (peer s i)) /\
    0 <= first <= commitIndex rf /\ commitIndex rf <= zlen (plog (peer s i)) /\
    firstIdx (log rf) = first /\ nextIdx (log rf) = zlen (plog (peer s i)) + 1.
Proof.
  intros I N Hs. destruct (n_leader _ _ _ _ _ N Hs) as (_ & Hst & Hl & _).
  destruct (n_log _ _ _ _ _ N) as (f & Hf). exists f.
  assert (real (peer s i) = plog (peer s i)) as Hreal by (unfold real; by rewrite Hst).
  pose proof (rep_first _ _ _ Hf) as E1. pose proof (rep_next _ _ _ Hf) as E2. rewrite Hreal in E2.
  destruct (n_ok _ _ _ _ _ N) as [_ ? ? ? _ _ _]. split_and!; try done; lia.
Qed.

Lemma leader_sends_entries s L i rf args :
  spec_inv n s -> node_rel n s L i rf -> state rf = Leader ->
  firstIdx (log rf) <= aePrevLogIndex args ->
  term_at (log rf) (aePrevLogIndex args) = Some (aePrevLogTerm args) ->
  aeEntries args = drop (Z.to_nat (aePrevLogIndex args + 1 - firstIdx (log rf))) (log rf) ->
  aePrevLogIndex args + zlen (aeEntries args) = nextIdx (log rf) - 1 ->
  aeLeaderCommit args = commitIndex rf -> sent n s (currentTerm rf) args.
Proof.
  intros I N Hs Hp Ht He Hlen Hc. destruct (leader_rep s L i rf I N Hs) as (f & Hf & Hreal & Hl & ? & ? & E1 & E2).
  pose proof (zlen_nonneg (aeEntries args)).
  exists (plog (peer s i)). split_and!; try done; try lia.
  - rewrite (rep_term _ _ _ Hf) in Ht by (rewrite Hreal; lia). rewrite Hreal in Ht. by injection Ht.
  - rewrite upto_ge by lia. rewrite He, E1, (rep_drop _ _ _ Hf) by (rewrite Hreal; lia). by rewrite Hreal.
  - rewrite Hc. apply N.
Qed.

Lemma leader_sends_snapshot s L i rf args :
  spec_inv n s -> node_rel n s L i rf -> state rf = Leader ->
  isLastIncludedIndex args = firstIdx (log rf) ->
  getFirstTerm rf = Some (isLastIncludedTerm args) -> sent_snapshot n s (currentTerm rf) args.
Proof.
  intros I N Hs Hi Ht. destruct (leader_rep s L i rf I N Hs) as (f & Hf & Hreal & Hl & ? & ? & E1 & E2).
  exists (plog (peer s i)). split_and!; [done| |].
  - rewrite Hi, E1. apply (committed_le n s (currentTerm rf) _ _ (commitIndex rf)); [apply N|lia|lia].
  - rewrite Hi, E1. unfold getFirstTerm in Ht. destruct Hf as [_ Hf]. rewrite Hf in Ht.
    simpl in Ht. by injection Ht.
Qed.

Lemma step_Repl c s V L c' V' k src dst term rf call :
  Rel n c s V L -> rpcs c !! k = Some (Repl src dst term) -> nodes c !! src = Some rf ->
  replicate_to dst term rf = Some call -> (state rf = Leader -> currentTerm rf = term) ->
  acts c src rf [] (match call with
    | ReplStop => delete k (rpcs c)
    | ReplInstall args => ISReq src dst args :: delete k (rpcs c)
    | ReplAppend args => AEReq src dst args :: delete k (rpcs c)
    end) c' ->
  election_inv n c' V' -> new_votes c' V V' -> simulated n c' s V'.
Proof.
  intros R Hk Hi Hr Hadm Ha Hel Hnv. pose proof (r_node _ _ _ _ _ R src rf Hi) as N.
  pose proof (r_spec _ _ _ _ _ R) as I.
  pose proof (r_rpc _ _ _ _ _ R _ (list_elem_of_lookup_2 _ _ _ Hk)) as Hcall. simpl in Hcall.
  destruct (ei_node _ _ _ (r_el _ _ _ _ _ R) _ _ Hi) as (_ & Hpe & _).
  destruct (replicate_to_ok dst term rf) as (call' & Hr' & Hspec);
    [apply N|rewrite Hpe; by apply Hcall|]. rewrite Hr in Hr'. injection Hr' as <-.
  pose proof (replicate_to_leader _ _ _ _ Hr) as Hlead.
  eapply (step_still n c s V L c' V' src rf rf); try done; [|by intros m ?%elem_of_nil..].
  intros m Hm. destruct call as [|args|args].
  - left. by eapply elem_of_delete_rpc.
  - apply replaced in Hm as [| ->]; [by left|right]. destruct Hlead as [Hs Hft], Hspec as [Hli Hte].
    specialize (Hadm Hs). subst term. simpl. rewrite Hte. split; [done|].
    by eapply leader_sends_snapshot.
  - apply replaced in Hm as [| ->]; [by left|right].
    destruct Hspec as (Hte & ? & ? & ? & _ & ? & ?). specialize (Hadm Hlead). subst term. simpl. rewrite Hte.
    split; [done|]. by eapply leader_sends_entries.
Qed.

(** ** New commands *)

Lemma Start_leader command rf rf' r eff :
  node_ok rf -> Start command rf = Some (rf', r, eff) ->
  (rf' = rf /\ eff = []) \/
  (state rf = Leader /\ eff = runHeartBeats rf' /\ rf' = persist (set_log
     (log rf ++ [mkLogEntry (Some command) (currentTerm rf) (nextIdx (log rf))]) rf)).
Proof.
  intros Hok Hs. unfold Start in Hs. case_decide as Hst; [injection Hs as <- <- <-; by left|right].
  assert (state rf = Leader) by (by destruct (decide (state rf = Leader))).
  rewrite getNextIndex_wf in Hs by apply Hok. simpl in Hs.
  apply bind_Some in Hs as (last & _ & Hs). by injection Hs as <- <- <-.
Qed.

Lemma step_Start c s V L c' V' i command rf rf' r eff :
  Rel n c s V L -> nodes c !! i = Some rf -> Start command rf = Some (rf', r, eff) ->
  acts c i rf' eff (rpcs c) c' ->
  election_inv n c' V' -> new_votes c' V V' -> simulated n c' s V'.
Proof.
  intros R Hi Hr Ha Hel Hnv. pose proof (r_spec _ _ _ _ _ R) as I.
  pose proof (r_node _ _ _ _ _ R i rf Hi) as N.
  assert (node_ok rf') as Hok.
  { apply (run_op_node_ok (OpStart command) rf); [apply N|done|]. simpl. by rewrite Hr. }
  destruct (Start_leader _ _ _ _ _ (n_ok _ _ _ _ _ N) Hr) as [[-> ->]|(Hs & -> & E)].
  { eapply (step_still n c s V L c' V' i rf rf); try done; [auto|by intros m ?%elem_of_nil..]. }
  destruct (leader_rep s L i rf I N Hs) as (f & Hf & Hreal & Hl & ? & ? & E1 & E2).
  destruct (n_leader _ _ _ _ _ N Hs) as (HL & Hst & _ & Hack & Hmatch).
  set (T := currentTerm rf) in *. set (l := plog (peer s i)) in *.
  set (e := mkLogEntry (Some command) T (nextIdx (log rf))) in *.
  assert (peer s i = mkPeer T l None) as Hpeer.
  { pose proof (n_term _ _ _ _ _ N). destruct (peer s i); simpl in *. by subst. }
  set (s1 := set_ack T i (zlen l + 1) (set_elog T (l ++ [e]) (set_peer i (mkPeer T (l ++ [e]) None) s))).
  assert (spec_step n s s1) as S1.
  { subst s1. pose proof (s_append n s i l e) as Hstep. cbn zeta in Hstep. rewrite (n_term _ _ _ _ _ N) in Hstep.
    apply Hstep; done || (simpl; lia). }
  pose proof (spec_step_evolves n _ _ I S1) as Ev.
  assert (zlen (l ++ [e]) = zlen l + 1) as Hzl by apply zlen_snoc.
  destruct Ha as (Hn & Hrp & Hd). destruct (runHeartBeats_emit i rf') as [Em1 Em2].
  assert (elog s1 = <[T := l ++ [e]]> (elog s)) as Hel1 by done.
  assert (peer s1 i = mkPeer T (l ++ [e]) None) as Hp1 by apply fupd_eq.
  assert (rtc (spec_step n) s s1) as Hsteps by (by apply rtc_once).
  exists s1, L. split; [done|]. eapply (rel_step n c s V L); try done.
  - intros j Hj. by apply fupd_ne.
  - intros T'. rewrite Hel1, (r_dom _ _ _ _ _ R), lookup_insert_is_Some.
    destruct (decide (T = T')) as [<-|]; [|naive_solver]. rewrite Hl. naive_solver.
  - intros T' x Hx. by left.
  - intros T' j Hj Hne. rewrite Hel1, lookup_insert_ne; congruence.
  - subst rf'. split; rewrite ?Hp1; simpl; try done.
    + exists f. split; simpl; [rewrite Hzl; lia|]. destruct Hf as [Hf Hlg]. rewrite Hlg. fold l. rewrite Hreal. fold l.
      unfold real. simpl. rewrite <- (tm_prefix l (l ++ [e])) by (by apply prefix_app_r || lia).
      rewrite drop_app_le; [done|]. unfold zlen in *. lia.
    + apply (committed_prefix n _ _ l); [by apply prefix_app_r|]. apply (committed_grows n s); [done|done|apply N].
    + intros Hv. apply (ev_ballots _ _ Ev). by apply (n_vote _ _ _ _ _ N).
    + congruence.
    + intros _. split_and!; try done.
      * apply lookup_insert_eq.
      * intros k (l' & Hl' & Hk & _). rewrite Hel1, lookup_insert_eq in Hl'. injection Hl' as <-.
        change (k <= ackd s1 T i). unfold s1. rewrite ackd_set, decide_True by done. lia.
      * intros d m Hd' Hm. apply (stored_grows n s); [done|]. by apply Hmatch.
  - intros m. rewrite Hrp. intros [|(Hs' & d & -> & Hd1 & Hd2)%Em2]%elem_of_app; [by left|right].
    subst rf'. by apply (leader_call c s V L i rf).
  - intros im. rewrite Hd, Em1, app_nil_r. auto.
Qed.

(** ** Snapshots of the service *)

Lemma Snapshot_rep s p rf index snap rf' f :
  peer_ok n s p -> rep_at f (log rf) p -> f < index <= zlen (plog p) ->
  Snapshot index snap rf = Some rf' ->
  rf' = set_persister (persister rf') (set_log (log rf') rf) /\ rep_at index (log rf') p.
Proof.
  intros P Hf Hi Hs. pose proof (rep_first _ _ _ Hf) as E1. pose proof (first_real _ _ _ Hf).
  unfold Snapshot in Hs. rewrite getFirstIndex_wf in Hs by (by destruct Hf as [_ ->]).
  simpl in Hs. rewrite E1, decide_False in Hs by lia.
  pose proof (zlen_prefix _ _ (real_prefix p)). pose proof (rep_drop _ _ _ Hf (index - 1) ltac:(lia)) as Hd.
  replace (index - 1 + 1 - f) with (index - f) in Hd by lia.
  apply bind_Some in Hs as (tl & Htl & Hs). apply bind_Some in Hs as (l & Hl & Hs). injection Hs as <-.
  assert (tl = drop (Z.to_nat (index - 1)) (real p)) as ->.
  { unfold slice_from in Htl. case_decide; [|done]. by injection Htl as <-. }
  destruct (tm_in (real p) index) as (e & He & Hte); [lia|].
  rewrite go_index_lookup in He by lia. rewrite (drop_S _ _ _ He) in Hl. injection Hl as <-.
  split; [done|]. split; [lia|]. simpl.
  rewrite (tm_prefix (plog p) (real p)), Hte by (apply real_prefix || lia).
  assert (Index e = index) as ->.
  { rewrite <- go_index_lookup in He by lia. apply (real_Index n s) in He; [lia|done]. }
  do 2 f_equal. lia.
Qed.

Lemma step_Snapshot c s V L c' V' i index snap rf rf' :
  Rel n c s V L -> nodes c !! i = Some rf -> Snapshot index snap rf = Some rf' ->
  index <= lastApplied rf -> acts c i rf' [] (rpcs c) c' ->
  election_inv n c' V' -> new_votes c' V V' -> simulated n c' s V'.
Proof.
  intros R Hi Hr Hidx Ha Hel Hnv. pose proof (r_spec _ _ _ _ _ R) as I.
  pose proof (r_node _ _ _ _ _ R i rf Hi) as N. pose proof (n_ok _ _ _ _ _ N) as Ok.
  assert (node_ok rf') as Hok by (by apply (run_op_node_ok (OpSnapshot index snap) rf)).
  eapply (step_still n c s V L c' V' i rf rf'); try done; [|auto|by intros m ?%elem_of_nil..].
  destruct (n_log _ _ _ _ _ N) as (f & Hf). pose proof (rep_first _ _ _ Hf) as E1.
  destruct (decide (index <= f)) as [Hle|Hgt].
  - unfold Snapshot in Hr. rewrite getFirstIndex_wf in Hr by apply Ok. simpl in Hr.
    rewrite E1, decide_True in Hr by lia. by injection Hr as <-.
  - destruct (n_commit _ _ _ _ _ N) as [Hc _]. pose proof (ok_applied _ Ok).
    destruct (Snapshot_rep s (peer s i) rf index snap rf' f) as [E Hrep];
      [by apply inv_peer_ok|done|lia|done|].
    destruct N as [? ? ? ? ? ? ?]. rewrite E. split; try done; [by exists index|by rewrite <- E].
Qed.

(** ** Delivery to the service *)

Lemma committed_msg s t p lg f i e j :
  peer_ok n s p -> rep_at f lg p -> committed n s t (plog p) i ->
  f < j <= i -> entry_at lg j = Some e ->
  msg_rel n s (0, mkApplyMsg true (Command e) (Index e) (Term e) false [] 0 0).
Proof.
  intros P Hf [Hi Hc] Hj He. pose proof (zlen_prefix _ _ (real_prefix p)). pose proof (first_real _ _ _ Hf).
  rewrite (rep_entry _ _ _ Hf) in He by lia.
  assert (Index e = j) as Hje by (apply (real_Index n s) in He; [lia|done]).
  rewrite <- (index_prefix _ _ _ (real_prefix p)) in He by lia.
  split; simpl; [|done]. intros _. rewrite Hje.
  destruct Hc as [->|(S & k & lS & Hch & _ & Hk & HlS & Hu)]; [lia|].
  exists S, k, lS. split_and!; try done; try lia. exists e. split_and!; try done.
  rewrite index_upto by lia. rewrite <- (index_upto _ i) by lia. rewrite <- Hu.
  by rewrite index_upto by lia.
Qed.

Lemma step_apply c s V L c' V' i rf rf' ms :
  Rel n c s V L -> nodes c !! i = Some rf -> apply rf = Some (rf', ms) ->
  acts c i rf' (EffApply <$> ms) (rpcs c) c' ->
  election_inv n c' V' -> new_votes c' V V' -> simulated n c' s V'.
Proof.
  intros R Hi Hr Ha Hel Hnv. pose proof (r_spec _ _ _ _ _ R) as I.
  pose proof (r_node _ _ _ _ _ R i rf Hi) as N. pose proof (n_ok _ _ _ _ _ N) as Ok.
  assert (node_ok rf') as Hok.
  { apply (run_op_node_ok OpApply rf); [done|done|]. simpl. by rewrite Hr. }
  assert (emit i (EffApply <$> ms) = []) as Hem by (clear; induction ms; [done|by simpl]).
  assert (emit_apply i (EffApply <$> ms) = (fun m => (i, m)) <$> ms) as Hea.
  { clear. unfold emit_apply. induction ms; [done|]. simpl. by f_equal. }
  eapply (step_still n c s V L c' V' i rf rf'); try done; [|auto|rewrite Hem; by intros m ?%elem_of_nil|].
  - unfold apply in Hr. handler_cases; try done. all: eapply node_rel_ext; try done.
  - rewrite Hea. intros im (m & -> & Hm)%list_elem_of_fmap.
    destruct (decide (dead rf = 1)) as [Hd|Hd].
    { unfold apply, killed in Hr. rewrite bool_decide_true in Hr by done. injection Hr as <- <-.
      by apply elem_of_nil in Hm. }
    destruct (apply_spec rf Ok Hd) as (es & Hes & Hlen & Hat). rewrite Hes in Hr. injection Hr as <- <-.
    apply list_elem_of_fmap in Hm as (e & -> & [k Hk]%list_elem_of_lookup).
    assert (es.[Z.of_nat k] = Some e) as Hk' by (rewrite go_index_lookup by lia; by rewrite Nat2Z.id).
    pose proof (go_index_Some_lt _ _ _ Hk') as Hkr. rewrite Hat in Hk' by done.
    destruct (n_log _ _ _ _ _ N) as (f & Hf). pose proof (rep_first _ _ _ Hf) as E1.
    pose proof (ok_applied _ Ok).
    apply (committed_msg s (currentTerm rf) (peer s i) (log rf) f (commitIndex rf) e
      (lastApplied rf + 1 + Z.of_nat k)); try done; [by apply inv_peer_ok|apply N|lia].
Qed.

(** ** Life cycle *)

Lemma step_kill c s V L c' V' i rf :
  Rel n c s V L -> nodes c !! i = Some rf -> acts c i (Kill rf) [] (rpcs c) c' ->
  election_inv n c' V' -> new_votes c' V V' -> simulated n c' s V'.
Proof.
  intros R Hi Ha Hel Hnv. pose proof (r_node _ _ _ _ _ R i rf Hi) as N.
  assert (node_ok (Kill rf)) as Hok by (by apply (run_op_node_ok OpKill rf); [apply N|..]).
  pose proof (n_commit _ _ _ _ _ N) as [? _].
  eapply (step_passive n c s V L c' V' i rf (Kill rf)); try done; simpl; auto; lia.
Qed.

Lemma make_store (m : nat) (v : Z) x y :
  go_make (Z.of_nat m) 0 = Some x -> store_each (seqZ 0 (Z.of_nat m)) v x = Some y -> zlen y = Z.of_nat m.
Proof.
  unfold go_make. rewrite decide_True by lia. intros [= <-] Hs.
  rewrite store_each_range in Hs by (unfold zlen; rewrite length_replicate; lia). injection Hs as <-.
  unfold zlen. by rewrite length_replicate.
Qed.

Lemma Make_tables npeers self ps now rf eff :
  Make npeers self ps now = Some (rf, eff) ->
  zlen (nextIndex rf) = Z.of_nat npeers /\ zlen (matchIndex rf) = Z.of_nat npeers /\
  eff = [EffTicker Follower; EffApplyLoop].
Proof.
  unfold Make. set (rf0 := readPersist _ _). intros Hm.
  assert (peers rf0 = npeers) as Hp.
  { subst rf0. unfold readPersist. case_decide; [done|]. by destruct (decodeState _) as [[[? ?] ?]|]. }
  repeat (apply bind_Some in Hm as (? & ? & Hm)). injection Hm as <- <-. unfold range_peers in *.
  simpl in *. rewrite Hp in *. split_and!; [by (eapply make_store; [|done])..|done].
Qed.

Lemma Make_node_ok npeers self ps now rf eff :
  Make npeers self ps now = Some (rf, eff) -> log_wf (log rf) -> 0 <= firstIdx (log rf) ->
  node_ok rf /\ silent eff.
Proof.
  intros Hm Hwf Hf. destruct (Make_recovers _ _ _ _ _ _ Hm) as (_ & _ & Hp & _ & Hs & Hc & Ha).
  pose proof (log_wf_zlen _ Hwf). destruct (Make_tables _ _ _ _ _ _ Hm) as (E1 & E2 & ->).
  split; [|done]. split; rewrite ?Hp; try done; rewrite ?Hc, ?Ha; unfold nextIdx; try lia. by rewrite Hs.
Qed.

Lemma step_restart c s V L c' V' i now rf rf' eff :
  Rel n c s V L -> nodes c !! i = Some rf -> Make (peers rf) i (persister rf) now = Some (rf', eff) ->
  acts c i rf' eff (rpcs c) c' ->
  election_inv n c' V' -> new_votes c' V V' -> simulated n c' s V'.
Proof.
  intros R Hi Hm Ha Hel Hnv. pose proof (r_node _ _ _ _ _ R i rf Hi) as N.
  pose proof (n_ok _ _ _ _ _ N) as Ok. pose proof (n_commit _ _ _ _ _ N) as [Hc0 _].
  destruct (ei_node _ _ _ (r_el _ _ _ _ _ R) _ _ Hi) as (_ & _ & _ & Hdur).
  destruct (Make_recovers _ _ _ _ _ _ Hm) as (Hrec & _ & _ & _ & Hs & Hc & Hap).
  unfold durable in Hdur. rewrite Hdur in Hrec. injection Hrec as Et Ev El.
  destruct (Make_node_ok _ _ _ _ _ _ Hm) as [Hok Hsil]; rewrite ?El; [apply Ok..|].
  pose proof (ok_first _ Ok). pose proof (ok_applied _ Ok).
  eapply (step_passive n c s V L c' V' i rf rf'); try done; auto; try lia. rewrite Hc, El. lia.
Qed.

Lemma step_drop c s V L k : Rel n c s V L ->
  Rel n (mkCluster (nodes c) (delete k (rpcs c)) (receivedVotes c) (delivered c)) s V L.
Proof.
  intros [? ? ? ? ? ? Hrpc ?]. split; try done; [by apply inv_drop|].
  intros m Hm%elem_of_delete_rpc. by apply Hrpc.
Qed.
End lead.
