(* ===== verification/RaftFollow.v ===== *)
(** Every action of the cluster is a sequence of steps of the replicated log:
    the follower's side of replication, [AppendEntries] and [InstallSnapshot]. *)

From S2P Require Import Prelude Gob Persister RaftTypes RaftNode RaftInv RaftSafe RaftSpec.
From S2P Require Import RaftCluster RaftElection RaftLog RaftRefine RaftSim RaftSteps.
Local Open Scope Z_scope.

Section follow.
Context {Cmd : Type} `{Gob Z} `{Gob (list (LogEntry Cmd))}.
Context `{!GobLaws Z} `{!GobLaws (list (LogEntry Cmd))} (n : nat).
Implicit Types (c : Cluster Cmd) (rf : Raft Cmd) (s : Spec Cmd) (eff : list (Effect Cmd)).
Implicit Types (V : gset (Z * Z * Z)) (L : gmap Z Z) (l : list (LogEntry Cmd)).

(** A chosen prefix is in the log of every leader of that or a later term. *)
Lemma committed_leader s t T g l k :
  spec_inv n s -> committed n s t g k -> t <= T -> elog s !! T = Some l ->
  k <= zlen l /\ upto g k = upto l k.
Proof.
  intros I [Hk Hc] Ht Hl. destruct Hc as [->|(S & j & lS & Hch & HS & Hj & HlS & Hu)].
  { split; [apply zlen_nonneg|done]. }
  destruct (chosen_in_leader n s I S j T l Hch ltac:(lia) Hl) as (l' & Hl' & Hjl & Hp).
  assert (l' = lS) as -> by congruence. pose proof (zlen_prefix _ _ Hp) as Hz.
  rewrite zlen_upto in Hz by lia. split; [lia|]. rewrite Hu.
  rewrite <- (upto_of_prefix _ _ k Hp) by (rewrite zlen_upto; lia). by rewrite upto_upto by lia.
Qed.

Lemma sent_indexed s T args : spec_inv n s -> sent n s T args ->
  indexed_from (aePrevLogIndex args + 1) (aeEntries args).
Proof.
  intros I (l & Hl & Hp & Hm & _ & He & _) k e Hk. rewrite He in Hk.
  pose proof (go_index_Some_lt _ _ _ Hk). rewrite go_index_drop in Hk by lia.
  apply upto_entry in Hk. destruct (v_elog _ _ I _ _ Hl) as [Hg _].
  destruct (Hg _ _ Hk) as (_ & Hi & _). lia.
Qed.

Lemma sent_compatible s L i rf args : spec_inv n s -> node_rel n s L i rf ->
  currentTerm rf <= aeTerm args -> sent n s (aeTerm args) args -> entries_compatible args rf.
Proof.
  intros I N Ht (l & Hl & Hp & Hm & _ & He & _) k e t Hk Hc Hta.
  destruct (committed_leader _ _ _ _ _ _ I (n_commit _ _ _ _ _ N) Ht Hl) as [_ Hu].
  pose proof (go_index_Some_lt _ _ _ Hk). destruct (n_commit _ _ _ _ _ N) as [Hcl _].
  destruct (n_log _ _ _ _ _ N) as (f & Hf).
  pose proof (zlen_prefix _ _ (real_prefix (peer s i))).
  assert (f <= aePrevLogIndex args + 1 + k) as Hfr.
  { unfold term_at in Hta. destruct (entry_at (log rf) _) eqn:E; [|done].
    apply entry_at_Some_range in E. rewrite (rep_first _ _ _ Hf) in E. lia. }
  rewrite (rep_term _ _ _ Hf) in Hta by lia. injection Hta as <-.
  rewrite <- (tm_prefix _ _ _ (real_prefix _)) by lia.
  rewrite <- (tm_upto _ _ (commitIndex rf)) by lia. rewrite Hu, tm_upto by lia.
  rewrite He, go_index_drop in Hk by lia. apply upto_entry, tm_at in Hk. rewrite <- Hk. f_equal. lia.
Qed.

Lemma AppendEntries_side now args rf rf' r eff :
  AppendEntries now args rf = Some (rf', r, eff) -> silent eff /\
  (voteFor rf' = -1 \/ (currentTerm rf' = currentTerm rf /\ voteFor rf' = voteFor rf)).
Proof.
  intros Hr. unfold silent. unfold_handlers.
  handler_cases; split; auto; intros; unfold emit, emit_apply; rewrite ?omap_app; try done.
Qed.

(** ** Accepting entries *)

(** A peer with a stale tail that holds entries of leader [T] holds chosen ones. *)
Lemma stored_stale s v T l m x :
  spec_inv n s -> elog s !! T = Some l -> pterm (peer s v) = T -> pstale (peer s v) = Some x ->
  0 <= m <= zlen l -> upto l m `prefix_of` plog (peer s v) -> stored n s T v m.
Proof.
  intros I Hl Ht Ex Hm Hpre. set (p := peer s v) in *.
  exists l. split_and!; [done|lia|]. intros k (l0 & Hl0 & Hk & Hkt) Hkm. right.
  assert (l0 = l) as -> by congruence.
  destruct (po_stale _ _ _ (inv_peer_ok n s v I) x Ex) as (_ & _ & _ & S & j & Hch & HS & Hj & lS & HlS & HSl & HpS).
  fold p in HS, Hj, HSl, HpS. pose proof (zlen_nonneg (plog p)). pose proof (zlen_prefix _ _ Hpre) as Hz.
  rewrite zlen_upto in Hz by lia. assert (S = T) as ->; [|exists j; split; [lia|done]].
  destruct (v_elog _ _ I _ _ HlS) as [_ Hle].
  assert (tm lS k = T) as HtS.
  { rewrite <- (tm_upto lS k (zlen (plog p))) by lia.
    rewrite (tm_prefix _ _ _ HpS) by (rewrite zlen_upto; lia).
    rewrite <- (tm_prefix _ _ _ Hpre) by (rewrite zlen_upto; lia). by rewrite tm_upto by lia. }
  destruct (tm_in lS k) as (e & He & Hte); [lia|]. apply Hle in He. lia.
Qed.

(** The specification log after the entries up to [m] of leader [T] arrived. *)
Lemma accept_steps s v T l m f lg prev :
  spec_inv n s -> pterm (peer s v) <= T -> elog s !! T = Some l ->
  rep_at f lg (peer s v) -> f <= prev <= zlen (real (peer s v)) -> prev <= m <= zlen l ->
  tm (real (peer s v)) prev = tm l prev ->
  exists s', rtc (spec_step n) s s' /\ elog s' = elog s /\
    (forall j, j <> v -> peer s' j = peer s j) /\ pterm (peer s' v) = T /\
    rep_at f (merge_log (prev + 1) (drop (Z.to_nat prev) (upto l m)) lg) (peer s' v) /\
    stored n s' T v m /\ upto l m `prefix_of` plog (peer s' v) /\
    (plog (peer s' v) = plog (peer s v) \/
     (plog (peer s' v) = upto l m /\ real (peer s' v) = upto l m)).
Proof.
  intros I Ht Hl Hf Hp Hm Htm.
  destruct (term_steps n s v T I Ht) as (S1 & E1 & I1 & El1 & P1 & Pd1).
  set (s1 := set_peer _ _ _) in *. set (p := peer s1 v) in *.
  assert (peer s1 v = mkPeer T (plog (peer s v)) (pstale (peer s v))) as Pd by exact Pd1.
  assert (peer_ok n s1 p) as P by (by apply inv_peer_ok).
  assert (real p = real (peer s v)) as Hreal by (by rewrite Pd1).
  assert (rep_at f lg p) as Hf1 by (rewrite Pd1; exact Hf).
  assert (elog s1 !! pterm p = Some l) as Hl1 by (rewrite Pd1, El1; exact Hl).
  rewrite <- Hreal in Hp, Htm. pose proof (proj1 Hf1) as Hf0.
  pose proof (real_prev n s1 p I1 P l prev Hl1 ltac:(lia) ltac:(lia) Htm) as Hu.
  destruct (v_elog _ _ I1 _ _ Hl1) as [Hg _].
  assert (zlen (upto l m) = m) as Hz by (apply zlen_upto; lia).
  destruct (merge_rep n s1 p I1 P f lg Hf1 (upto l m) (genuine_upto s1 l m Hg) _ prev eq_refl) as
    [[Hpre ->]|[Hn ->]]; [lia|lia|by rewrite upto_upto by lia|..].
  - apply (real_prefix_sound n s1 p I1 P _ (genuine_upto s1 l m Hg)) in Hpre.
    destruct (pstale p) as [x|] eqn:Ex.
    + exists s1. split_and!; try done; [by rewrite Pd| |left; by rewrite Pd].
      by apply (stored_stale s1 v T l m x); rewrite ?El1; try lia; try done; rewrite Pd.
    + set (s2 := set_ack (pterm p) v m s1).
      assert (spec_step n s1 s2) as S2 by (apply (s_ack n s1 v l m); (done || lia)).
      exists s2. split_and!; try done; [by eapply rtc_r|change (pterm p = T); by rewrite Pd1| |left; change (plog p = plog (peer s v)); by rewrite Pd1].
      exists l. split_and!; [by rewrite <- Hl, <- El1|lia|]. intros k _ Hk. left. unfold s2.
      rewrite ackd_set, decide_True by (split; [by rewrite Pd1|done]). lia.
  - assert (~ upto l m `prefix_of` plog p) as Hn' by (intros Hx; apply Hn; by etrans; [|apply real_prefix]).
    set (s2 := set_ack (pterm p) v m (set_peer v (mkPeer (pterm p) (upto l m) None) s1)).
    assert (spec_step n s1 s2) as S2 by (apply (s_adopt n s1 v l m); (done || lia)).
    assert (peer s2 v = mkPeer T (upto l m) None) as P2.
    { subst s2. cbn [set_ack set_peer peer]. rewrite fupd_eq. by rewrite Pd1. }
    exists s2. rewrite P2. split_and!; simpl; try done; [by eapply rtc_r| | | |by right].
    + intros j Hj. rewrite fupd_ne by done. by apply P1.
    + split; simpl; [lia|]. unfold real. simpl. do 2 f_equal.
      rewrite (tm_prefix _ _ _ (real_prefix p)) by lia.
      rewrite <- (tm_upto _ _ prev), Hu, !tm_upto by lia. done.
    + exists l. split_and!; [by rewrite <- Hl, <- El1|lia|]. intros k _ Hk. left.
      change (k <= ackd s2 T v). unfold s2.
      rewrite ackd_set, decide_True by (split; [by rewrite Pd1|done]). lia.
Qed.

(** The commit index after the entries arrived. *)
Lemma accept_commit s T l m lc g g' k k' next :
  spec_inv n s -> elog s !! T = Some l -> committed n s T g k -> committed n s T l lc ->
  lc <= m <= zlen l -> upto l m `prefix_of` g' -> (g' = g \/ (g' = upto l m /\ k' <= m)) ->
  k' = ae_commit k lc next -> 0 < next -> committed n s T g' k'.
Proof.
  intros I Hl Hk Hlc Hm Hp Hg -> Hn. pose proof (proj1 Hlc). unfold ae_commit in *.
  assert (zlen (upto l m) = m) as Hz by (apply zlen_upto; lia).
  pose proof (zlen_prefix _ _ Hp). case_decide as Hd.
  - rewrite min_Zmin in *. apply (committed_upto n s T (upto l m)); [apply upto_of_prefix; [done|lia]|lia|].
    pose proof (proj1 Hk). apply (committed_upto n s T l); [by rewrite upto_upto by lia|lia|].
    apply (committed_le n s T T l lc); [done|lia|lia].
  - destruct Hg as [->|[-> Hle]]; [done|]. apply (committed_upto n s T g); [|lia|done].
    destruct (committed_leader _ _ _ _ _ _ I Hk (Z.le_refl T) Hl) as [_ ->].
    by rewrite upto_upto by lia.
Qed.

(** A reply that reports no success. *)
Lemma refused_reply s s' L src dst args reply :
  spec_inv n s -> evolves s s' -> rpc_rel n s L (AEReq src dst args) ->
  aerSuccess reply = false -> aerConflictIndex reply <= aePrevLogIndex args + 1 ->
  rpc_rel n s' L (AERep src dst args reply).
Proof.
  intros I E [Hcall Hsent] Hs Hc. simpl. split_and!; try done; [by apply (sent_grows n s)|].
  by rewrite Hs.
Qed.

Lemma step_refused c s V L c' V' k src dst args rf rf' reply eff :
  Rel n c s V L -> rpcs c !! k = Some (AEReq src dst args) -> nodes c !! dst = Some rf ->
  acts c dst rf' eff (AERep src dst args reply :: delete k (rpcs c)) c' ->
  election_inv n c' V' -> new_votes c' V V' -> silent eff -> node_ok rf' ->
  (rf' = rf \/ (currentTerm rf <= currentTerm rf' /\ log rf' = log rf /\
     commitIndex rf' = commitIndex rf /\ state rf' = Follower /\
     (voteFor rf' = -1 \/ (currentTerm rf' = currentTerm rf /\ voteFor rf' = voteFor rf)))) ->
  aerSuccess reply = false -> aerConflictIndex reply <= aePrevLogIndex args + 1 ->
  simulated n c' s V'.
Proof.
  intros R Hk Hi Ha Hel Hnv Hsil Hok Hcase Hf Hci. pose proof (r_spec _ _ _ _ _ R) as I.
  pose proof (r_node _ _ _ _ _ R dst rf Hi) as N. pose proof (n_commit _ _ _ _ _ N) as [? _].
  pose proof (r_rpc _ _ _ _ _ R _ (list_elem_of_lookup_2 _ _ _ Hk)) as Hrpc.
  assert (forall m s', evolves s s' -> m ∈ AERep src dst args reply :: delete k (rpcs c) ->
    m ∈ rpcs c \/ rpc_rel n s' L m) as Hx.
  { intros m s' E [| ->]%replaced; [by left|right]. by eapply refused_reply. }
  destruct Hcase as [->|(Hle & El & Ec & Es & Ev)].
  - eapply (finish_silent n c s V L c' V' dst rf rf); try done.
    intros m. apply Hx, evolves_refl.
  - eapply (step_passive n c s V L c' V' dst rf rf'); try done; [lia|by left|].
    intros m [| ->]%replaced; [by left|right]. intros s' E. by eapply refused_reply.
Qed.

Lemma step_accepted c s V L c' V' k src dst args now rf rf' reply eff :
  Rel n c s V L -> rpcs c !! k = Some (AEReq src dst args) -> nodes c !! dst = Some rf ->
  AppendEntries now args rf = Some (rf', reply, eff) ->
  acts c dst rf' eff (AERep src dst args reply :: delete k (rpcs c)) c' ->
  election_inv n c' V' -> new_votes c' V V' ->
  state rf <> Dead -> currentTerm rf <= aeTerm args ->
  term_at (log rf) (aePrevLogIndex args) = Some (aePrevLogTerm args) ->
  simulated n c' s V'.
Proof.
  intros R Hk Hi Hr Ha Hel Hnv Hdead Hle Hterm. pose proof (r_spec _ _ _ _ _ R) as I.
  pose proof (r_node _ _ _ _ _ R dst rf Hi) as N. pose proof (n_ok _ _ _ _ _ N) as Ok.
  destruct (r_rpc _ _ _ _ _ R _ (list_elem_of_lookup_2 _ _ _ Hk)) as [Hcall Hsent].
  pose proof (sent_indexed _ _ _ I Hsent) as Hidx.
  assert (node_ok rf') as Hok.
  { apply (run_op_node_ok (OpAppendEntries now args) rf); [done| |simpl; by rewrite Hr].
    split; [done|]. by eapply sent_compatible. }
  destruct (AppendEntries_side _ _ _ _ _ _ Hr) as [Hsil Hvote].
  destruct (AppendEntries_accept now args rf Hdead Hle (ok_log _ Ok) Hidx Hterm)
    as (rf2 & eff2 & Hr2 & Elog & Eci & Et & Es & _).
  rewrite Hr in Hr2. injection Hr2 as <- -> <-.
  pose proof Hsent as (l & Hl & Hp & Hm & Hpt & Hes & Hlcm & Hlc).
  destruct (n_log _ _ _ _ _ N) as (f & Hf). pose proof (zlen_nonneg (aeEntries args)).
  assert (f <= aePrevLogIndex args <= zlen (real (peer s dst))) as Hpr.
  { pose proof (rep_first _ _ _ Hf). pose proof (rep_next _ _ _ Hf). unfold term_at in Hterm.
    destruct (entry_at (log rf) _) eqn:E; [|done]. apply entry_at_Some_range in E. lia. }
  rewrite (rep_term _ _ _ Hf) in Hterm by lia. injection Hterm as Hterm. rewrite Hpt in Hterm.
  destruct (accept_steps s dst (aeTerm args) l (aePrevLogIndex args + zlen (aeEntries args)) f (log rf)
    (aePrevLogIndex args)) as (s' & Hs' & El' & Hpeer & Ht' & Hrep & Hsto & Hpre & Hlog'); try done.
  { rewrite (n_term _ _ _ _ _ N). lia. }
  { lia. }
  pose proof (spec_steps_evolve n s s' I Hs') as E.
  rewrite <- Hes, <- Elog in Hrep.
  pose proof (ok_commit _ Hok) as Hcommit. pose proof (log_wf_zlen _ (ok_log _ Hok)).
  pose proof (rep_next _ _ _ Hrep) as Hnext.
  eapply (finish_silent n c s V L c' V' dst rf rf'); try done.
  - split; rewrite ?Et, ?Es; try done.
    + by exists f.
    + eapply (accept_commit s' _ l (aePrevLogIndex args + zlen (aeEntries args)) (aeLeaderCommit args)
        (plog (peer s dst)) _ (commitIndex rf)); try done; try lia.
      * by eapply spec_steps_inv.
      * by rewrite El'.
      * apply (committed_grows n s); [done|done|].
        apply (committed_le n s (currentTerm rf) _ _ (commitIndex rf)); [apply N|done|].
        pose proof (n_commit _ _ _ _ _ N) as [? _]. lia.
      * by apply (committed_grows n s).
      * destruct Hlog' as [|[? Hreal']]; [by left|right]. split; [done|].
        rewrite Hreal', zlen_upto in Hnext by lia. lia.
      * pose proof (first_real _ _ _ Hrep). lia.
    + intros Hv. destruct Hvote as [|[Et' Ev]]; [done|]. apply (ev_ballots _ _ E).
      rewrite Ev, <- Et, Et'. apply (n_vote _ _ _ _ _ N). congruence.
  - intros m [| ->]%replaced; [by left|right]. simpl. split_and!; try done; [by apply (sent_grows n s)|lia].
Qed.

Lemma step_AEReq c s V L c' V' k src dst args now rf rf' reply eff :
  Rel n c s V L -> rpcs c !! k = Some (AEReq src dst args) -> nodes c !! dst = Some rf ->
  AppendEntries now args rf = Some (rf', reply, eff) ->
  acts c dst rf' eff (AERep src dst args reply :: delete k (rpcs c)) c' ->
  election_inv n c' V' -> new_votes c' V V' -> simulated n c' s V'.
Proof.
  intros R Hk Hi Hr Ha Hel Hnv. pose proof (r_spec _ _ _ _ _ R) as I.
  pose proof (r_node _ _ _ _ _ R dst rf Hi) as N. pose proof (n_ok _ _ _ _ _ N) as Ok.
  destruct (r_rpc _ _ _ _ _ R _ (list_elem_of_lookup_2 _ _ _ Hk)) as [_ Hsent].
  pose proof Hsent as (_ & _ & Hp & _).
  pose proof (fun H1 H2 H3 H4 => step_refused c s V L c' V' k src dst args rf rf' reply eff R Hk Hi Ha Hel Hnv
    (proj1 (AppendEntries_side _ _ _ _ _ _ Hr)) H1 H2 H3 H4) as F.
  destruct (decide (state rf = Dead)) as [Hd|Hd].
  { rewrite AppendEntries_dead in Hr by done. injection Hr as <- <- <-.
    apply F; [done|by left|done|simpl; lia]. }
  destruct (decide (currentTerm rf <= aeTerm args)) as [Ht|Ht].
  2: { rewrite AppendEntries_stale in Hr by (done || lia). injection Hr as <- <- <-.
    apply F; [done|by left|done|simpl; lia]. }
  destruct (decide (term_at (log rf) (aePrevLogIndex args) = Some (aePrevLogTerm args))) as [Hx|Hx].
  { by eapply step_accepted. }
  destruct (AppendEntries_side _ _ _ _ _ _ Hr) as [_ Hv].
  destruct (AppendEntries_reject now args rf Hd Ht (ok_log _ Ok) Hx) as
    (rf2 & r2 & eff2 & Hr2 & El & Ec & Et & Es & Ea & En & Em & Epe & Hf & Hci).
  rewrite Hr in Hr2. injection Hr2 as <- <- <-. apply F; try done.
  - apply (node_ok_frame rf); try done. by rewrite Es.
  - right. split_and!; try done. lia.
  - destruct Hci as [(? & _ & -> & _)|[(? & _ & -> & _)|(_ & _ & _ & ? & _)]]; lia.
Qed.

(** ** Installing a snapshot *)

(** The log of [InstallSnapshot]. *)
Definition installed args rf : option (list (LogEntry Cmd)) :=
  last ← getLastIndex rf;
  l ← (if decide (last <= isLastIncludedIndex args) then Some [zeroEntry]
       else first ← getFirstIndex rf; (log rf).[isLastIncludedIndex args - first :]);
  update_head (fun _ => mkLogEntry None (isLastIncludedTerm args) (isLastIncludedIndex args)) l.

Lemma installed_log args rf :
  node_ok rf -> commitIndex rf < isLastIncludedIndex args ->
  installed args rf = Some (mkLogEntry None (isLastIncludedTerm args) (isLastIncludedIndex args)
       :: drop (Z.to_nat (isLastIncludedIndex args + 1 - firstIdx (log rf))) (log rf)).
Proof.
  intros [Hwf Hf Ha Hc _ _ _] Hlt. unfold installed. rewrite getLastIndex_wf by done. simpl.
  unfold nextIdx in *. case_decide as Hl.
  - simpl. do 2 f_equal. rewrite drop_ge; [done|]. unfold zlen in *. lia.
  - rewrite getFirstIndex_wf by apply Hwf. simpl. unfold slice_from. rewrite decide_True by lia. simpl.
    replace (Z.to_nat (isLastIncludedIndex args + 1 - firstIdx (log rf)))
      with (S (Z.to_nat (isLastIncludedIndex args - firstIdx (log rf)))) by lia.
    destruct (lookup_lt_is_Some_2 (log rf) (Z.to_nat (isLastIncludedIndex args - firstIdx (log rf)))) as [e He];
      [unfold zlen in *; lia|]. by rewrite (drop_S _ _ _ He).
Qed.

Lemma InstallSnapshot_outcome now args rf rf' r eff :
  node_ok rf -> InstallSnapshot now args rf = Some (rf', r, eff) ->
  (rf' = rf /\ silent eff) \/
  (currentTerm rf <= isTerm args /\ currentTerm rf' = isTerm args /\ state rf' = Follower /\
   (voteFor rf' = -1 \/ (currentTerm rf' = currentTerm rf /\ voteFor rf' = voteFor rf)) /\
   ((log rf' = log rf /\ commitIndex rf' = commitIndex rf /\ silent eff) \/
    (commitIndex rf < isLastIncludedIndex args /\ commitIndex rf' = isLastIncludedIndex args /\
     log rf' = mkLogEntry None (isLastIncludedTerm args) (isLastIncludedIndex args)
       :: drop (Z.to_nat (isLastIncludedIndex args + 1 - firstIdx (log rf))) (log rf) /\
     forall i, emit i eff = [] /\ emit_apply i eff =
       [(i, mkApplyMsg false None 0 0 true (isSnapshot args) (isLastIncludedTerm args)
              (isLastIncludedIndex args))]))).
Proof.
  intros Hok Hr. unfold InstallSnapshot in Hr. case_decide as Hd; [injection Hr as <- <- <-; by left|].
  assert (exists rf1 eff1, (if decide (currentTerm rf < isTerm args)
     then let '(rf, eff) := becomeFollower (isTerm args) rf in
          (set_electionStartTime now rf, eff) else (rf, [])) = (rf1, eff1) /\ node_ok rf1 /\
    silent eff1 /\ log rf1 = log rf /\ commitIndex rf1 = commitIndex rf /\
    ((currentTerm rf < isTerm args /\ currentTerm rf1 = isTerm args /\ voteFor rf1 = -1) \/ (isTerm args <= currentTerm rf /\ rf1 = rf)))
    as (rf1 & eff1 & E1 & Ok1 & Hs1 & El1 & Ec1 & H1).
  { case_decide; simpl; eexists _, _; (split; [done|]); split_and!; try done; [by apply (node_ok_frame rf)|left|right];
      split_and!; done || lia. }
  rewrite E1 in Hr. clear E1. case_decide as Ht.
  2: { injection Hr as <- <- <-. destruct H1 as [(? & ? & _)|[? ->]]; [lia|by left]. }
  right. set (rf2 := if decide (state rf1 <> Follower) then set_state Follower rf1 else rf1) in Hr.
  assert (node_ok rf2 /\ state rf2 = Follower /\ log rf2 = log rf /\ commitIndex rf2 = commitIndex rf /\
    currentTerm rf2 = isTerm args /\ voteFor rf2 = voteFor rf1) as (Ok2 & Es2 & El2 & Ec2 & Et2 & Ev2).
  { subst rf2. destruct (decide (state rf1 <> Follower)) as [Hf|Hf].
    - split_and!; simpl; try done. by apply (node_ok_frame rf1).
    - assert (state rf1 = Follower) by (by destruct (decide (state rf1 = Follower))). by split_and!. }
  clearbody rf2. simpl in Hr.
  assert (currentTerm rf <= isTerm args /\
    (voteFor rf2 = -1 \/ (isTerm args = currentTerm rf /\ voteFor rf2 = voteFor rf))) as [Hle Hv].
  { destruct H1 as [(? & ? & ?)|[? ->]]; (split; [lia|]); [left; congruence|right; split; [lia|done]]. }
  case_decide as Hci.
  { injection Hr as <- <- <-. simpl. rewrite Et2. auto 10. }
  pose proof (installed_log args rf2 Ok2 ltac:(lia)) as Hin. unfold installed in Hin.
  change (getLastIndex (set_electionStartTime now rf2)) with (getLastIndex rf2) in Hr.
  change (getFirstIndex (set_electionStartTime now rf2)) with (getFirstIndex rf2) in Hr.
  destruct (getLastIndex rf2) as [last|]; [|done]. simpl in Hr, Hin.
  apply bind_Some in Hr as (l1 & Hl1 & Hr). rewrite Hl1 in Hin. simpl in Hin. rewrite Hin in Hr. simpl in Hr.
  injection Hr as <- <- <-. simpl. rewrite Et2, El2, <- Ec2. split_and!; try done. right.
  split_and!; try done; [lia|]. intros i. destruct (Hs1 i) as [A B]. unfold emit, emit_apply in *.
  rewrite !omap_app, A, B. done.
Qed.

(** The specification log after a chosen prefix was installed. *)
Lemma install_steps s v T S k lS idx f lg lt :
  spec_inv n s -> pterm (peer s v) <= T -> chosen n s S k -> S <= T -> elog s !! S = Some lS ->
  1 <= idx <= k -> lt = tm lS idx -> rep_at f lg (peer s v) -> f < idx ->
  exists s', rtc (spec_step n) s s' /\ elog s' = elog s /\
    (forall j, j <> v -> peer s' j = peer s j) /\ pterm (peer s' v) = T /\
    rep_at idx (mkLogEntry None lt idx :: drop (Z.to_nat (idx + 1 - f)) lg) (peer s' v) /\
    upto (plog (peer s' v)) idx = upto lS idx /\ idx <= zlen (plog (peer s' v)).
Proof.
  intros I Ht Hch HS HlS Hidx -> Hf Hfi.
  destruct (term_steps n s v T I Ht) as (S1 & E1 & I1 & El1 & P1 & Pd1).
  set (s1 := set_peer _ _ _) in *. set (p := peer s1 v) in *.
  assert (rep_at f lg p) as Hf1 by (rewrite Pd1; exact Hf).
  assert (drop (Z.to_nat (idx + 1 - f)) lg = drop (Z.to_nat idx) (real p)) as ->.
  { pose proof (proj1 Hf1). destruct Hf1 as [_ ->].
    replace (Z.to_nat (idx + 1 - f)) with (Datatypes.S (Z.to_nat (idx - f))) by lia. simpl.
    rewrite drop_drop. f_equal. lia. }
  apply (chosen_grows n s s1 (ev_grows _ _ E1)) in Hch. rewrite <- El1 in HlS.
  destruct (led_in n s1 I1 _ _ (proj1 Hch)) as (l0 & Hl0 & Hk & _). assert (l0 = lS) as -> by congruence.
  assert (zlen (upto lS idx) = idx) as Hz by (apply zlen_upto; lia).
  destruct (decide (idx <= zlen (plog p) /\ tm (plog p) idx = tm lS idx)) as [[Hil Htm]|Hno].
  - exists s1. change (peer s1 v) with p. split_and!; try done; [by rewrite Pd1|split; [lia|by rewrite Htm]|].
    destruct (v_elog _ _ I1 _ _ HlS) as [Hg _].
    apply (log_matching n s1 I1); [by apply I1|done|lia|lia|done].
  - assert (~ upto lS idx `prefix_of` plog p) as Hn.
    { intros Hpre. apply Hno. pose proof (zlen_prefix _ _ Hpre). split; [lia|].
      rewrite <- (tm_prefix _ _ _ Hpre) by lia. by rewrite tm_upto by lia. }
    set (o := if decide (zlen (default (plog p) (pstale p)) <= idx) then None else Some (default (plog p) (pstale p))).
    set (s2 := set_peer v (mkPeer (pterm p) (upto lS idx) o) s1).
    assert (spec_step n s1 s2) as S2 by (eapply (s_install n s1 v S k lS idx o); try done; fold p; by rewrite Pd1).
    assert (peer s2 v = mkPeer T (upto lS idx) o) as P2.
    { subst s2. cbn [set_peer peer]. rewrite fupd_eq. by rewrite Pd1. }
    exists s2. rewrite P2. simpl. split_and!; try done; [by eapply rtc_r| |split; [simpl; lia|]|by rewrite upto_upto|lia].
    + intros j Hj. rewrite fupd_ne by done. by apply P1.
    + simpl. rewrite tm_upto by lia. f_equal.
      assert (peer_ok n s1 p) as P by (by apply inv_peer_ok).
      pose proof (real_len n s1 p P) as Hrl. unfold lastidx in Hrl.
      subst o. unfold real at 2. simpl. case_decide as Hc.
      * rewrite !drop_ge; [done|unfold zlen in *; lia..].
      * rewrite drop_app_ge, drop_drop by (unfold zlen in *; lia).
        replace (_ + (_ - _))%nat with (Z.to_nat idx) by (unfold zlen in *; lia).
        unfold real. destruct (pstale p) as [x|] eqn:Ex; [|done]. simpl.
        destruct (install_stale n s1 v S k lS idx x I1 Hch HlS Hidx Hn Ex) as [Hle _]. fold p in Hle.
        rewrite drop_app_ge, drop_drop by (unfold zlen in *; lia). f_equal. unfold zlen in *. lia.
Qed.

Lemma step_installed c s V L c' V' k src dst args rf rf' reply eff :
  Rel n c s V L -> rpcs c !! k = Some (ISReq src dst args) -> nodes c !! dst = Some rf ->
  acts c dst rf' eff (ISRep src dst args reply :: delete k (rpcs c)) c' ->
  election_inv n c' V' -> new_votes c' V V' -> node_ok rf' ->
  currentTerm rf <= isTerm args -> currentTerm rf' = isTerm args -> state rf' = Follower ->
  (voteFor rf' = -1 \/ (currentTerm rf' = currentTerm rf /\ voteFor rf' = voteFor rf)) ->
  commitIndex rf < isLastIncludedIndex args -> commitIndex rf' = isLastIncludedIndex args ->
  log rf' = mkLogEntry None (isLastIncludedTerm args) (isLastIncludedIndex args)
       :: drop (Z.to_nat (isLastIncludedIndex args + 1 - firstIdx (log rf))) (log rf) ->
  emit dst eff = [] /\ emit_apply dst eff =
    [(dst, mkApplyMsg false None 0 0 true (isSnapshot args) (isLastIncludedTerm args)
             (isLastIncludedIndex args))] ->
  simulated n c' s V'.
Proof.
  intros R Hk Hi Ha Hel Hnv Hok Hle Et Es Hvote Hlt Eci Elog [Em1 Em2].
  pose proof (r_spec _ _ _ _ _ R) as I. pose proof (r_node _ _ _ _ _ R dst rf Hi) as N.
  pose proof (n_ok _ _ _ _ _ N) as Ok. pose proof (ok_first _ Ok). pose proof (ok_applied _ Ok).
  destruct (r_rpc _ _ _ _ _ R _ (list_elem_of_lookup_2 _ _ _ Hk)) as [Hcall Hsent].
  pose proof Hsent as (l & Hl & [Hil Hc] & Hlt').
  destruct Hc as [?|(S & j & lS & Hch & HS & Hj & HlS & Hu)]; [lia|].
  destruct (n_log _ _ _ _ _ N) as (f & Hf). pose proof (rep_first _ _ _ Hf) as Ef.
  assert (isLastIncludedTerm args = tm lS (isLastIncludedIndex args)) as HtS.
  { rewrite Hlt'. rewrite <- (tm_upto l _ (isLastIncludedIndex args)), Hu by lia. by rewrite tm_upto by lia. }
  destruct (install_steps s dst (isTerm args) S j lS (isLastIncludedIndex args) f (log rf)
    (isLastIncludedTerm args)) as (s' & Hs' & El' & Hpeer & Ht' & Hrep & Hu' & Hz'); try done; try lia.
  { rewrite (n_term _ _ _ _ _ N). lia. }
  pose proof (spec_steps_evolve n s s' I Hs') as E.
  apply (chosen_grows n s s' (ev_grows _ _ E)) in Hch. rewrite <- El' in HlS.
  eapply (finish n c s V L c' V' dst rf rf'); try done.
  - split; rewrite ?Et, ?Es, ?Eci; try done.
    + exists (isLastIncludedIndex args). by rewrite Elog, Ef.
    + split; [lia|]. right. exists S, j, lS. by split_and!.
    + intros Hv. destruct Hvote as [|[Et' Ev]]; [done|]. apply (ev_ballots _ _ E).
      rewrite Ev, <- Et, Et'. apply (n_vote _ _ _ _ _ N). congruence.
  - intros m [| ->]%replaced; [by left|right]. split; [done|]. by apply (sent_snapshot_grows n s).
  - rewrite Em1. by intros m ?%elem_of_nil.
  - rewrite Em2. intros im ->%list_elem_of_singleton. split; simpl; [done|]. intros _.
    exists S, j, lS. split_and!; try done; try lia. rewrite HtS. by rewrite tm_upto by lia.
Qed.

Lemma step_ISReq c s V L c' V' k src dst args now rf rf' reply eff :
  Rel n c s V L -> rpcs c !! k = Some (ISReq src dst args) -> nodes c !! dst = Some rf ->
  InstallSnapshot now args rf = Some (rf', reply, eff) ->
  acts c dst rf' eff (ISRep src dst args reply :: delete k (rpcs c)) c' ->
  election_inv n c' V' -> new_votes c' V V' -> simulated n c' s V'.
Proof.
  intros R Hk Hi Hr Ha Hel Hnv. pose proof (r_node _ _ _ _ _ R dst rf Hi) as N.
  pose proof (n_ok _ _ _ _ _ N) as Ok. pose proof (n_commit _ _ _ _ _ N) as [? _].
  assert (node_ok rf') as Hok.
  { apply (run_op_node_ok (OpInstallSnapshot now args) rf); [done|done|]. simpl. by rewrite Hr. }
  destruct (r_rpc _ _ _ _ _ R _ (list_elem_of_lookup_2 _ _ _ Hk)) as [Hcall Hsent].
  assert (forall s', evolves s s' -> rpc_rel n s' L (ISRep src dst args reply)) as Hrep.
  { intros s' E. split; [done|]. apply (sent_snapshot_grows n s); [done|apply R|done]. }
  destruct (InstallSnapshot_outcome _ _ _ _ _ _ Ok Hr) as
    [[-> Hsil]|(Hle & Et & Es & Hv & [(El & Ec & Hsil)|(Hlt & Ec & El & Hem)])].
  - eapply (finish_silent n c s V L c' V' dst rf rf); try done.
    intros m [| ->]%replaced; [by left|right]. apply Hrep, evolves_refl.
  - eapply (step_passive n c s V L c' V' dst rf rf'); try done; [lia|lia|by left|].
    intros m [| ->]%replaced; [by left|by right].
  - by eapply (step_installed c s V L c' V' k src dst args rf rf' reply eff).
Qed.
End follow.
