(* ===== verification/RaftCommit.v ===== *)
(** Every action of the cluster is a sequence of steps of the replicated log:
    the replies a leader receives, and the commit rule. *)

From S2P Require Import Prelude Gob Persister RaftTypes RaftNode RaftInv RaftSafe RaftSpec.
From S2P Require Import RaftCluster RaftElection RaftLog RaftRefine RaftSim RaftSteps RaftLead RaftFollow.
Local Open Scope Z_scope.

Section commit.
Context {Cmd : Type} `{Gob Z} `{Gob (list (LogEntry Cmd))}.
Context `{!GobLaws Z} `{!GobLaws (list (LogEntry Cmd))} (n : nat).
Implicit Types (c : Cluster Cmd) (rf : Raft Cmd) (s : Spec Cmd) (eff : list (Effect Cmd)).
Implicit Types (V : gset (Z * Z * Z)) (L : gmap Z Z) (l : list (LogEntry Cmd)).

(** ** What the replies do *)

(** [matchIndex[server]] is raised to [m]; the other entries stay. *)
Definition match_raised rf rf' (server m : Z) : Prop :=
  forall d x, (matchIndex rf').[d] = Some x -> (matchIndex rf).[d] = Some x \/ (d = server /\ x = m).

Lemma store_max (mi mi' : list Z) server m x :
  mi.[server] = Some m -> go_store mi server (max m x) = Some mi' ->
  forall d y, mi'.[d] = Some y -> mi.[d] = Some y \/ (d = server /\ y = x).
Proof.
  intros Hm Hs d y Hd. rewrite (go_index_store _ _ _ _ _ Hs) in Hd. case_decide as E; [subst|by left].
  injection Hd as <-. rewrite max_Zmax. destruct (Z.max_spec m x) as [[_ ->]|[_ ->]]; auto.
Qed.

Definition fell_back rf rf' : Prop :=
  currentTerm rf < currentTerm rf' /\ voteFor rf' = -1 /\ state rf' = Follower /\ same_rest rf rf'.

Lemma append_reply_outcome now server args reply rf rf' again eff :
  node_ok rf -> handleAppendEntriesRPCResponse now server args reply rf = Some (rf', again, eff) ->
  silent eff /\
  ( (rf' = rf /\ again = false) \/ (fell_back rf rf' /\ again = false)
  \/ (state rf = Leader /\ currentTerm rf = aeTerm args /\ rf' = set_nextIndex (nextIndex rf') rf)
  \/ (state rf = Leader /\ currentTerm rf = aeTerm args /\ again = false /\
      aerSuccess reply = true /\ aerTerm reply = aeTerm args /\
      rf' = set_commitIndex (commitIndex rf') (set_nextIndex (nextIndex rf') (set_matchIndex (matchIndex rf') rf)) /\
      match_raised rf rf' server (aePrevLogIndex args + zlen (aeEntries args)) /\
      (commitIndex rf' = commitIndex rf \/
       (commitIndex rf < commitIndex rf' /\
        term_at (log rf) (commitIndex rf') = Some (currentTerm rf) /\
        Z.of_nat (peers rf) < 2 * (1 + zlen (replicas (commitIndex rf') rf')))))).
Proof.
  intros Hok Hh. pose proof (proj1 (ok_log _ Hok)) as Hne. unfold fell_back, same_rest.
  unfold handleAppendEntriesRPCResponse, becomeFollower in Hh.
  case_decide as Hst; [|injection Hh as <- <- <-; split; [done|]; by auto].
  case_decide as Hrt; [|case_decide; injection Hh as <- <- <-; (split; [done|]); simpl; by auto 10].
  destruct (aerSuccess reply) eqn:Hsuc.
  - apply bind_Some in Hh as (m & Hm & Hh). apply bind_Some in Hh as (mi & Hmi & Hh).
    apply bind_Some in Hh as (m' & _ & Hh). apply bind_Some in Hh as (ni & Hni & Hh).
    apply bind_Some in Hh as (nx & _ & Hh). apply bind_Some in Hh as (rf1 & Hcl & Hh).
    injection Hh as <- <- <-. set (rf0 := set_nextIndex ni (set_matchIndex mi rf)) in *.
    split; [by case_decide|]. right; right; right. destruct Hst as [Hl Ht].
    pose proof (commit_loop_frame _ _ _ _ Hcl) as Hfr.
    split_and!; try done; [congruence|rewrite Hfr; done| |].
    + intros d x. rewrite Hfr. by eapply store_max.
    + destruct (commit_loop_quorum _ _ rf0 rf1 Hne Hcl) as [?|(Hle & Htm & Hq)];
        [simpl; lia|by left|right].
      assert (replicas (commitIndex rf1) rf1 = replicas (commitIndex rf1) rf0) as ->.
      { rewrite Hfr at 2. done. }
      simpl in *. split_and!; try done. lia.
  - apply bind_Some in Hh as (nx & _ & Hh). apply bind_Some in Hh as (ni & _ & Hh).
    injection Hh as <- <- <-. split; [done|]. right; right; left. destruct Hst. by split_and!.
Qed.

Lemma install_reply_outcome now server args reply rf rf' eff :
  handleInstallSnapshotRPCResponse now server args reply rf = Some (rf', eff) ->
  silent eff /\
  ( rf' = rf \/ fell_back rf rf'
  \/ (state rf = Leader /\ currentTerm rf = isTerm args /\
      rf' = set_nextIndex (nextIndex rf') (set_matchIndex (matchIndex rf') rf) /\
      match_raised rf rf' server (isLastIncludedIndex args))).
Proof.
  intros Hh. unfold fell_back, same_rest. unfold handleInstallSnapshotRPCResponse, becomeFollower in Hh.
  case_decide as Hst; [|injection Hh as <- <-; split; [done|]; by auto].
  case_decide as Hrt; [|case_decide; injection Hh as <- <-; (split; [done|]); simpl; by auto 10].
  apply bind_Some in Hh as (m & Hm & Hh). apply bind_Some in Hh as (mi & Hmi & Hh).
  apply bind_Some in Hh as (m' & _ & Hh). apply bind_Some in Hh as (ni & Hni & Hh).
  injection Hh as <- <-. split; [done|]. right; right. destruct Hst. split_and!; try done.
  intros d x. by eapply store_max.
Qed.

(** ** The commit rule *)

Lemma replica_quorum i rf k : me rf = i -> peers rf = n -> 0 <= i < Z.of_nat n ->
  Z.of_nat n < 2 * (1 + zlen (replicas k rf)) ->
  quorum n ({[i]} ∪ list_to_set (replicas k rf) : gset Z).
Proof.
  intros Hme Hp Hi Hq. unfold replicas, range_peers in *. rewrite Hp, Hme in *. set (ds := filter _ _) in *.
  assert (forall v, v ∈ ds -> v <> i /\ 0 <= v < Z.of_nat n) as Hds.
  { intros v [[? _] Hv%elem_of_seqZ]%list_elem_of_filter. split; [done|lia]. }
  assert (NoDup ds) as Hnd by (apply NoDup_filter, NoDup_seqZ).
  split.
  - intros v [->%elem_of_singleton|[_ ?]%elem_of_list_to_set%Hds]%elem_of_union; lia.
  - rewrite size_union, size_singleton, size_list_to_set by (done || set_solver). unfold zlen in Hq. lia.
Qed.

Lemma leader_commits s L i rf rf' :
  spec_inv n s -> node_rel n s L i rf -> state rf = Leader -> me rf = i -> peers rf = n -> 0 <= i < Z.of_nat n ->
  rf' = set_commitIndex (commitIndex rf') (set_nextIndex (nextIndex rf') (set_matchIndex (matchIndex rf') rf)) ->
  (forall d m, d <> i -> (matchIndex rf').[d] = Some m -> stored n s (currentTerm rf) d m) ->
  commitIndex rf < commitIndex rf' -> term_at (log rf) (commitIndex rf') = Some (currentTerm rf) ->
  Z.of_nat (peers rf) < 2 * (1 + zlen (replicas (commitIndex rf') rf')) ->
  committed n s (currentTerm rf) (plog (peer s i)) (commitIndex rf').
Proof.
  intros I N Hs Hme Hp Hi Erf Hmatch Hlt Hterm Hq. rewrite Hp in Hq.
  destruct (leader_rep n s L i rf I N Hs) as (f & Hf & Hreal & Hl & ? & ? & E1 & E2).
  destruct (n_leader _ _ _ _ _ N Hs) as (_ & _ & _ & Hack & _).
  set (T := currentTerm rf) in *. set (l := plog (peer s i)) in *. set (k := commitIndex rf') in *.
  assert (f <= k <= zlen l) as Hk.
  { unfold term_at in Hterm. destruct (entry_at (log rf) k) eqn:E; [|done].
    apply entry_at_Some_range in E. lia. }
  rewrite (rep_term _ _ _ Hf) in Hterm by (rewrite Hreal; lia). rewrite Hreal in Hterm. fold l in Hterm.
  injection Hterm as Htm.
  assert (led s T k) as Hled by (exists l; split_and!; try done; lia).
  assert (exists k', k <= k' /\ chosen n s T k') as (k' & Hkk & Hch).
  { assert (quorum n ({[i]} ∪ list_to_set (replicas k rf'))) as HQ.
    { apply replica_quorum; try done; by rewrite Erf. }
    set (Q := _ ∪ _) in HQ. destruct (decide (set_Exists (fun v => ~ k <= ackd s T v) Q)) as [(v & Hv & Hna)|Hall].
    - apply elem_of_union in Hv as [->%elem_of_singleton|Hv%elem_of_list_to_set]; [by destruct Hna; apply Hack|].
      unfold replicas in Hv. apply list_elem_of_filter in Hv as [[Hne Hm] _].
      destruct ((matchIndex rf').[v]) as [m|] eqn:Ev; simpl in Hm; [|lia].
      assert (me rf' = i) as Hme' by (rewrite Erf; done).
      destruct (Hmatch v m ltac:(congruence) Ev) as (_ & _ & _ & Hst).
      destruct (Hst k Hled Hm) as [|(k' & ? & ?)]; [done|by exists k'].
    - exists k. split; [lia|]. split; [done|]. exists Q. split; [done|]. intros v Hv.
      destruct (decide (k <= ackd s T v)); [done|]. destruct Hall. by exists v. }
  split; [lia|]. right. exists T, k', l. split_and!; done || lia.
Qed.

(** ** Replies to AppendEntries *)

Lemma stored_snapshot s T l d m :
  spec_inv n s -> elog s !! T = Some l -> committed n s T l m -> stored n s T d m.
Proof.
  intros I Hl [Hm Hc]. exists l. split_and!; [done|lia|]. intros k (l0 & Hl0 & Hk & Ht) Hkm. right.
  assert (l0 = l) as -> by congruence.
  destruct Hc as [->|(S & j & lS & Hch & HS & Hj & HlS & Hu)]; [lia|].
  exists j. split; [lia|]. assert (S = T) as ->; [|done].
  destruct (led_in n s I _ _ (proj1 Hch)) as (l0 & Hl0' & Hj' & _). assert (l0 = lS) as -> by congruence.
  rewrite <- (tm_upto l k m), Hu, tm_upto in Ht by lia.
  destruct (tm_in lS k) as (e & He & Hte); [lia|].
  destruct (v_elog _ _ I _ _ HlS) as [_ Hle]. apply Hle in He. lia.
Qed.

(** A leader whose [matchIndex], [nextIndex] and commit index changed. *)
Lemma node_rel_leader s L i rf rf' :
  node_rel n s L i rf -> node_ok rf' -> state rf = Leader ->
  rf' = set_commitIndex (commitIndex rf') (set_nextIndex (nextIndex rf') (set_matchIndex (matchIndex rf') rf)) ->
  committed n s (currentTerm rf) (plog (peer s i)) (commitIndex rf') ->
  (forall d m, d <> i -> (matchIndex rf').[d] = Some m -> stored n s (currentTerm rf) d m) ->
  node_rel n s L i rf'.
Proof.
  intros [? ? ? ? ? ? Hlead] Hok Hs E Hc Hm. destruct (Hlead Hs) as (? & ? & ? & ? & ?).
  split; try done; rewrite E; simpl; try done.
Qed.

Lemma append_reply_ok c s V L k src dst args reply rf now :
  Rel n c s V L -> rpcs c !! k = Some (AERep src dst args reply) -> nodes c !! src = Some rf ->
  op_ok (OpAppendReply now dst args reply) rf.
Proof.
  intros R Hk Hi. pose proof (r_node _ _ _ _ _ R src rf Hi) as N.
  destruct (ei_node _ _ _ (r_el _ _ _ _ _ R) _ _ Hi) as (_ & Hp & _).
  destruct (r_rpc _ _ _ _ _ R _ (list_elem_of_lookup_2 _ _ _ Hk)) as ((_ & _ & ?) & Hsent & Hci & _).
  split; [by rewrite Hp|]. intros Hs Ht. destruct Hsent as (l & Hl & ? & Hm & _).
  destruct (leader_rep n s L src rf (r_spec _ _ _ _ _ R) N Hs) as (f & _ & _ & Hl' & _ & _ & _ & En).
  assert (l = plog (peer s src)) as -> by congruence. pose proof (zlen_nonneg (aeEntries args)). lia.
Qed.

Lemma step_AERep c s V L c' V' k src dst args reply now rf rf' again eff :
  Rel n c s V L -> rpcs c !! k = Some (AERep src dst args reply) -> nodes c !! src = Some rf ->
  handleAppendEntriesRPCResponse now dst args reply rf = Some (rf', again, eff) ->
  acts c src rf' eff (if (again : bool) then Repl src dst (aeTerm args) :: delete k (rpcs c)
                      else delete k (rpcs c)) c' ->
  election_inv n c' V' -> new_votes c' V V' -> simulated n c' s V'.
Proof.
  intros R Hk Hi Hr Ha Hel Hnv. pose proof (r_spec _ _ _ _ _ R) as I.
  pose proof (r_node _ _ _ _ _ R src rf Hi) as N. pose proof (n_ok _ _ _ _ _ N) as Ok.
  destruct (ei_node _ _ _ (r_el _ _ _ _ _ R) _ _ Hi) as (Hme & Hpe & Hin & _).
  pose proof (n_commit _ _ _ _ _ N) as [Hc0 _].
  assert (node_ok rf') as Hok.
  { apply (run_op_node_ok (OpAppendReply now dst args reply) rf); [done| |simpl; by rewrite Hr].
    by eapply append_reply_ok. }
  destruct (r_rpc _ _ _ _ _ R _ (list_elem_of_lookup_2 _ _ _ Hk)) as (Hcall & Hsent & _ & Hsto).
  assert (forall m s', m ∈ (if (again : bool) then Repl src dst (aeTerm args) :: delete k (rpcs c)
    else delete k (rpcs c)) -> m ∈ rpcs c \/ rpc_rel n s' L m) as Hms.
  { intros m s' Hm. destruct again; [|left; by eapply elem_of_delete_rpc].
    apply replaced in Hm as [| ->]; [by left|by right]. }
  destruct (append_reply_outcome _ _ _ _ _ _ _ _ Ok Hr) as (Hsil &
    [[-> ->]|[[(Hlt & Ev & Es & El & Ec & _) ->]|[(Hs & Ht & E)|(Hs & Ht & -> & Hsuc & Hrt & E & Hmr & Hci)]]]).
  - eapply (finish_silent n c s V L c' V' src rf rf); try done. auto.
  - eapply (step_passive n c s V L c' V' src rf rf'); try done; try lia; auto.
    intros m Hm. left. by eapply elem_of_delete_rpc.
  - eapply (finish_silent n c s V L c' V' src rf rf'); try done; [|auto]. rewrite E in *. by eapply node_rel_ext.
  - eapply (finish_silent n c s V L c' V' src rf rf'); try done; [|auto].
    assert (forall d m, d <> src -> (matchIndex rf').[d] = Some m -> stored n s (currentTerm rf) d m) as Hmatch.
    { intros d m Hd Hm. destruct (Hmr d m Hm) as [Hold|[-> ->]]; [|rewrite Ht; by apply Hsto].
      destruct (n_leader _ _ _ _ _ N Hs) as (_ & _ & _ & _ & Hmi). by apply Hmi. }
    apply (node_rel_leader s L src rf); try done.
    destruct Hci as [->|(Hlt & Htm & Hq)]; [apply N|]. by eapply leader_commits.
Qed.

(** ** Replies to InstallSnapshot *)

Lemma install_reply_ok c s V L k src dst args reply rf now :
  Rel n c s V L -> rpcs c !! k = Some (ISRep src dst args reply) -> nodes c !! src = Some rf ->
  op_ok (OpInstallReply now dst args reply) rf.
Proof.
  intros R Hk Hi. pose proof (r_node _ _ _ _ _ R src rf Hi) as N.
  destruct (ei_node _ _ _ (r_el _ _ _ _ _ R) _ _ Hi) as (_ & Hp & _).
  destruct (r_rpc _ _ _ _ _ R _ (list_elem_of_lookup_2 _ _ _ Hk)) as ((_ & _ & ?) & (l & Hl & [Hm _] & _)).
  split; [by rewrite Hp|]. intros Hs Ht.
  destruct (leader_rep n s L src rf (r_spec _ _ _ _ _ R) N Hs) as (f & _ & _ & Hl' & _ & _ & _ & En).
  assert (l = plog (peer s src)) as -> by congruence. lia.
Qed.

Lemma step_ISRep c s V L c' V' k src dst args reply now rf rf' eff :
  Rel n c s V L -> rpcs c !! k = Some (ISRep src dst args reply) -> nodes c !! src = Some rf ->
  handleInstallSnapshotRPCResponse now dst args reply rf = Some (rf', eff) ->
  acts c src rf' eff (delete k (rpcs c)) c' ->
  election_inv n c' V' -> new_votes c' V V' -> simulated n c' s V'.
Proof.
  intros R Hk Hi Hr Ha Hel Hnv. pose proof (r_spec _ _ _ _ _ R) as I.
  pose proof (r_node _ _ _ _ _ R src rf Hi) as N. pose proof (n_ok _ _ _ _ _ N) as Ok.
  pose proof (n_commit _ _ _ _ _ N) as [Hc0 _].
  assert (node_ok rf') as Hok.
  { apply (run_op_node_ok (OpInstallReply now dst args reply) rf); [done| |simpl; by rewrite Hr].
    by eapply install_reply_ok. }
  destruct (r_rpc _ _ _ _ _ R _ (list_elem_of_lookup_2 _ _ _ Hk)) as (Hcall & (l & Hl & Hcm & _)).
  pose proof (fun m => elem_of_delete_rpc k (rpcs c) m) as Hms.
  destruct (install_reply_outcome _ _ _ _ _ _ _ Hr) as (Hsil &
    [->|[(Hlt & Ev & Es & El & Ec & _)|(Hs & Ht & E & Hmr)]]).
  - eapply (finish_silent n c s V L c' V' src rf rf); try done. eauto.
  - eapply (step_passive n c s V L c' V' src rf rf'); try done; try lia; eauto.
  - eapply (finish_silent n c s V L c' V' src rf rf'); try done; [|eauto].
    apply (node_rel_leader s L src rf); try done; [by rewrite E|rewrite E; apply N|].
    intros d m Hd Hm. destruct (n_leader _ _ _ _ _ N Hs) as (_ & _ & _ & _ & Hmi).
    destruct (Hmr d m Hm) as [Hold|[-> ->]]; [by apply Hmi|]. rewrite Ht. by eapply stored_snapshot.
Qed.
End commit.
