(* ===== verification/RaftSafety.v ===== *)
(** Safety of the cluster.

    A run is [admissible] when two things the code leaves to its environment
    hold.  A service only hands [Snapshot] an index it has applied.  And a
    goroutine of [runHeartBeats] that finds its peer leader finds it in the term
    it captured: raft.go checks only [rf.state], so a goroutine delayed across
    two elections sends the log of the new leadership under the old term.
    [RaftRuns] runs the cluster into that case and shows that it breaks the
    agreement of the services; everything here is proved for the other runs. *)

From S2P Require Import Prelude Gob Persister RaftTypes RaftNode RaftInv RaftSafe RaftSpec.
From S2P Require Import RaftCluster RaftElection RaftLog RaftRefine RaftSim RaftSteps.
From S2P Require Import RaftLead RaftFollow RaftCommit.
Local Open Scope Z_scope.

Section safety.
Context {Cmd : Type} `{Gob Z} `{Gob (list (LogEntry Cmd))}.
Implicit Types (c : Cluster Cmd) (rf : Raft Cmd) (s : Spec Cmd).
Implicit Types (V : gset (Z * Z * Z)) (L : gmap Z Z).

Definition admissible (a : Action Cmd) c : bool :=
  match a with
  | ADeliver k _ =>
      match rpcs c !! k with
      | Some (Repl src dst term) =>
          match nodes c !! src with
          | Some rf => bool_decide (state rf = Leader -> currentTerm rf = term)
          | None => true
          end
      | _ => true
      end
  | ASnapshot i index _ =>
      match nodes c !! i with
      | Some rf => bool_decide (index <= lastApplied rf)
      | None => true
      end
  | _ => true
  end.

Fixpoint admissible_run (acts : list (Action Cmd)) c : bool :=
  match acts with
  | [] => true
  | a :: acts => admissible a c &&
      match exec a c with Some c' => admissible_run acts c' | None => false end
  end.

Context `{!GobLaws Z} `{!GobLaws (list (LogEntry Cmd))} (n : nat).

(** ** The simulation *)

Lemma deliver_simulated c s V L c' V' k m now :
  Rel n c s V L -> rpcs c !! k = Some m -> admissible (ADeliver k now) c = true ->
  deliver m (delete k (rpcs c)) now c = Some c' ->
  election_inv n c' V' -> new_votes c' V V' -> simulated n c' s V'.
Proof.
  intros R Hk Hadm Hd Hel Hnv. simpl in Hadm. rewrite Hk in Hadm.
  destruct m as [src dst args|src dst args reply|src dst term|src dst args|src dst args reply
    |src dst args|src dst args reply]; simpl in Hd; apply bind_Some in Hd as (rf & Hi & Hd).
  - apply bind_Some in Hd as ([[rf' r] eff] & Hh & Hd). injection Hd as <-.
    eapply step_RVReq; try done; apply acts_update.
  - apply bind_Some in Hd as (v & _ & Hd). apply bind_Some in Hd as ([[rf' v'] eff] & Hh & Hd).
    injection Hd as <-. eapply step_RVRep; try done; apply acts_votes.
  - apply bind_Some in Hd as (call & Hh & Hd). injection Hd as <-.
    rewrite Hi in Hadm. apply bool_decide_eq_true in Hadm.
    eapply step_Repl; try done; apply acts_update.
  - apply bind_Some in Hd as ([[rf' r] eff] & Hh & Hd). injection Hd as <-.
    eapply step_AEReq; try done; apply acts_update.
  - apply bind_Some in Hd as ([[rf' again] eff] & Hh & Hd). injection Hd as <-.
    eapply step_AERep; try done; apply acts_update.
  - apply bind_Some in Hd as ([[rf' r] eff] & Hh & Hd). injection Hd as <-.
    eapply step_ISReq; try done; apply acts_update.
  - apply bind_Some in Hd as ([rf' eff] & Hh & Hd). injection Hd as <-.
    eapply step_ISRep; try done; apply acts_update.
Qed.

Lemma exec_simulated c s V L a c' :
  Rel n c s V L -> admissible a c = true -> exec a c = Some c' ->
  exists s' V' L', rtc (spec_step n) s s' /\ Rel n c' s' V' L'.
Proof.
  intros R Hadm He. destruct (exec_inv n c c' V a (r_el _ _ _ _ _ R) He) as (V' & Hel & Hnv).
  cut (simulated n c' s V' \/ exists V, Rel n c' s V L).
  { intros [(s' & L' & ? & ?)|(V1 & ?)]; [by exists s', V', L'|by exists s, V1, L]. }
  destruct a as [i now timeout nowTerm|i nowTerm|k now|k|i command|i index snap|i|i|i now];
    simpl in He; try (apply bind_Some in He as (rf & Hi & He)).
  - left. apply bind_Some in He as ([[rf' b] eff] & Hh & He). injection He as <-.
    eapply step_timer; try done. case_decide; [apply acts_votes|apply acts_update].
  - left. injection He as <-. eapply step_heartbeat; try done; apply acts_update.
  - left. by eapply deliver_simulated.
  - right. injection He as <-. exists V. by apply step_drop.
  - left. apply bind_Some in He as ([[rf' r] eff] & Hh & He). injection He as <-.
    eapply step_Start; try done; apply acts_update.
  - left. apply bind_Some in He as (rf' & Hh & He). injection He as <-.
    simpl in Hadm. rewrite Hi in Hadm. apply bool_decide_eq_true in Hadm.
    eapply step_Snapshot; try done; apply acts_update.
  - left. apply bind_Some in He as ([rf' ms] & Hh & He). injection He as <-.
    eapply step_apply; try done; apply acts_update.
  - left. injection He as <-. eapply step_kill; try done; apply acts_update.
  - left. apply bind_Some in He as ([rf' eff] & Hh & He). injection He as <-.
    eapply step_restart; try done; apply acts_update.
Qed.

Lemma run_simulated acts : forall c s V L c',
  Rel n c s V L -> admissible_run acts c = true -> run acts c = Some c' ->
  exists s' V' L', rtc (spec_step n) s s' /\ Rel n c' s' V' L'.
Proof.
  induction acts as [|a acts IH]; intros c s V L c' R Hadm Hr; simpl in *.
  { injection Hr as <-. by exists s, V, L. }
  apply andb_prop in Hadm as [Ha Hadm]. apply bind_Some in Hr as (c1 & He & Hr). rewrite He in Hadm.
  destruct (exec_simulated c s V L a c1 R Ha He) as (s1 & V1 & L1 & Hs1 & R1).
  destruct (IH c1 s1 V1 L1 c' R1 Hadm Hr) as (s2 & V2 & L2 & Hs2 & R2).
  exists s2, V2, L2. split; [by etrans|done].
Qed.

Lemma init_rel now : Rel n (cluster_init n now : Cluster Cmd) spec_init ∅ ∅.
Proof.
  split; try done.
  - apply cluster_init_inv.
  - apply spec_init_inv.
  - intros T. simpl. by rewrite !lookup_empty.
  - intros i rf Hi. destruct (init_node n now i rf Hi) as (eff & Hm & _).
    destruct (Make_recovers _ _ _ _ _ _ Hm) as (Hrec & _ & _ & _ & Hs & Hc & _).
    rewrite recovered_empty in Hrec. injection Hrec as Et Ev El.
    destruct (Make_node_ok _ _ _ _ _ _ Hm) as [Hok _]; rewrite ?El; [split; [done|]|done|].
    { apply (indexed_from_singleton zeroEntry). }
    split; simpl; rewrite ?Et, ?Ev, ?El, ?Hs, ?Hc; try done.
    + exists 0. by split.
    + rewrite El. split; [done|by left].
  - by intros m ?%elem_of_nil.
  - by intros m ?%elem_of_nil.
Qed.

(** The states admissible runs lead to. *)
Definition reachable c : Prop :=
  exists now acts, admissible_run acts (cluster_init n now) = true /\
    run acts (cluster_init n now) = Some c.

Lemma reachable_rel c : reachable c ->
  exists s V L, rtc (spec_step n) spec_init s /\ Rel n c s V L.
Proof. intros (now & acts & Ha & Hr). eapply run_simulated; [apply init_rel|done|done]. Qed.

(** ** Every enabled action returns *)

(** What an RPC of an election needs in order to be answered. *)
Definition net_msg c (m : Rpc Cmd) : Prop :=
  match m with
  | RVReq src dst args =>
      0 <= dst < Z.of_nat n /\ is_Some (receivedVotes c !! (src, rvTerm args))
  | RVRep src dst args _ => is_Some (receivedVotes c !! (src, rvTerm args))
  | _ => True
  end.

Record net_ok c : Prop := {
  net_peers : forall i, 0 <= i < Z.of_nat n -> is_Some (nodes c !! i);
  net_msgs : forall m, m ∈ rpcs c -> net_msg c m
}.

Lemma emit_quiet_msg c i eff m : quiet eff -> m ∈ emit i eff -> net_msg c m.
Proof.
  intros Hq (e & He & Hm)%list_elem_of_omap. unfold quiet in Hq. rewrite Forall_forall in Hq.
  specialize (Hq e He). by destruct e; simplify_eq/=.
Qed.

Lemma net_update c i rf rf' eff ms :
  net_ok c -> nodes c !! i = Some rf -> (forall m, m ∈ emit i eff -> net_msg c m) ->
  (forall m, m ∈ ms -> m ∈ rpcs c \/ net_msg c m) -> net_ok (update_node i rf' eff ms c).
Proof.
  intros [Hp Hm] Hi He Hms. split; simpl.
  - intros j Hj. rewrite lookup_insert_is_Some. destruct (decide (i = j)); [by left|right]. by split; [|apply Hp].
  - intros m [[|]%Hms|]%elem_of_app; [by apply Hm|done|by apply He].
Qed.

Lemma net_msg_votes c key v m : net_msg c m -> net_msg (set_votes key v c) m.
Proof.
  assert (forall k, is_Some (receivedVotes c !! k) -> is_Some (receivedVotes (set_votes key v c) !! k)) as Hk.
  { intros k Hk. simpl. rewrite lookup_insert_is_Some. destruct (decide (key = k)); auto. }
  destruct m; simpl; naive_solver.
Qed.

Lemma net_votes c key v : net_ok c -> net_ok (set_votes key v c).
Proof. intros [Hp Hm]. split; [done|]. intros m ?%Hm. by apply net_msg_votes. Qed.

Lemma deliver_net c c' k m now :
  net_ok c -> rpcs c !! k = Some m -> deliver m (delete k (rpcs c)) now c = Some c' -> net_ok c'.
Proof.
  intros N Hk Hd. pose proof (net_msgs _ N _ (list_elem_of_lookup_2 _ _ _ Hk)) as Hm.
  pose proof (fun x => elem_of_delete_rpc k (rpcs c) x) as Hdel.
  assert (forall i eff m, quiet eff -> m ∈ emit i eff -> net_msg c m) as Hq by eauto using emit_quiet_msg.
  destruct m as [src dst args|src dst args reply|src dst term|src dst args|src dst args reply
    |src dst args|src dst args reply]; simpl in Hd, Hm; apply bind_Some in Hd as (rf & Hi & Hd).
  - apply bind_Some in Hd as ([[rf' r] eff] & Hh & Hd). injection Hd as <-. apply RequestVote_quiet in Hh.
    eapply net_update; eauto. intros m [| ->]%replaced; [by left|right]. apply Hm.
  - apply bind_Some in Hd as (v & _ & Hd). apply bind_Some in Hd as ([[rf' v'] eff] & Hh & Hd).
    injection Hd as <-. apply onRequestVoteReply_quiet in Hh. apply net_votes. eapply net_update; eauto.
  - apply bind_Some in Hd as (call & Hh & Hd). injection Hd as <-.
    eapply net_update; eauto; [by intros m ?%elem_of_nil|].
    destruct call; [eauto|intros m [| ->]%replaced; [by left|by right]..].
  - apply bind_Some in Hd as ([[rf' r] eff] & Hh & Hd). injection Hd as <-. apply AppendEntries_quiet in Hh.
    eapply net_update; eauto. intros m [| ->]%replaced; [by left|by right].
  - apply bind_Some in Hd as ([[rf' again] eff] & Hh & Hd). injection Hd as <-.
    apply handleAppendEntries_quiet in Hh. eapply net_update; eauto.
    destruct again; [intros m [| ->]%replaced; [by left|by right]|eauto].
  - apply bind_Some in Hd as ([[rf' r] eff] & Hh & Hd). injection Hd as <-. apply InstallSnapshot_quiet in Hh.
    eapply net_update; eauto. intros m [| ->]%replaced; [by left|by right].
  - apply bind_Some in Hd as ([rf' eff] & Hh & Hd). injection Hd as <-.
    apply handleInstallSnapshot_quiet in Hh. eapply net_update; eauto.
Qed.

Lemma timer_net c s V L i now timeout nowTerm rf rf' b eff :
  Rel n c s V L -> net_ok c -> nodes c !! i = Some rf ->
  runElectionTimer now timeout nowTerm rf = Some (rf', b, eff) ->
  net_ok (if decide (currentTerm rf < currentTerm rf')
          then set_votes (i, currentTerm rf') 1 (update_node i rf' eff (rpcs c) c)
          else update_node i rf' eff (rpcs c) c).
Proof.
  intros R N Hi Hr. destruct (ei_node _ _ _ (r_el _ _ _ _ _ R) _ _ Hi) as (Hme & Hp & _).
  destruct (startElection_cases _ _ _ _ _ _ _ Hr) as [[-> ->]|(Et & _ & _ & _ & li & lt & _ & _ & ->)].
  { rewrite decide_False by lia. eapply net_update; eauto. by intros m ?%elem_of_nil. }
  rewrite decide_True by lia. rewrite Hme.
  change (net_ok (update_node i rf' (vote_calls i (mkRequestVoteArgs (currentTerm rf') i li lt) (range_peers rf)
    ++ [EffTicker Follower]) (rpcs c) (set_votes (i, currentTerm rf') 1 c))).
  apply (net_update _ i rf); [by apply net_votes|done| |by left].
  rewrite emit_vote_calls. intros m (d & -> & Hd)%list_elem_of_fmap. simpl.
  apply list_elem_of_filter in Hd as [_ Hd%elem_of_seqZ]. rewrite Hp in Hd.
  split; [lia|]. rewrite lookup_insert_eq. done.
Qed.

Lemma exec_net c s V L a c' : Rel n c s V L -> net_ok c -> exec a c = Some c' -> net_ok c'.
Proof.
  intros R N He.
  assert (forall i eff m, quiet eff -> m ∈ emit i eff -> net_msg c m) as Hq by eauto using emit_quiet_msg.
  destruct a as [i now timeout nowTerm|i nowTerm|k now|k|i command|i index snap|i|i|i now];
    simpl in He; try (apply bind_Some in He as (rf & Hi & He)).
  - apply bind_Some in He as ([[rf' b] eff] & Hh & He). injection He as <-. by eapply timer_net.
  - injection He as <-. eapply net_update; eauto. intros m. apply Hq.
    unfold heartBeatsTimer. destruct (killed rf); [by apply Forall_nil|].
    case_decide; [by apply Forall_nil|apply runHeartBeats_quiet].
  - by eapply deliver_net.
  - injection He as <-. destruct N as [Hp Hm]. split; [done|]. intros m Hx%elem_of_delete_rpc. by apply Hm.
  - apply bind_Some in He as ([[rf' r] eff] & Hh & He). injection He as <-. apply Start_quiet in Hh.
    eapply net_update; eauto.
  - apply bind_Some in He as (rf' & Hh & He). injection He as <-.
    eapply net_update; eauto. by intros m ?%elem_of_nil.
  - apply bind_Some in He as ([rf' ms] & Hh & He). injection He as <-. eapply net_update; eauto.
    intros m. apply Hq. apply Forall_fmap, Forall_forall. intros x _. simpl. tauto.
  - injection He as <-. eapply net_update; eauto. by intros m ?%elem_of_nil.
  - apply bind_Some in He as ([rf' eff] & Hh & He). injection He as <-.
    destruct (Make_tables _ _ _ _ _ _ Hh) as (_ & _ & ->). eapply net_update; eauto. by intros m ?%elem_of_nil.
Qed.

Lemma init_net now : net_ok (cluster_init n now : Cluster Cmd).
Proof.
  split; [|by intros m ?%elem_of_nil]. intros i Hi. unfold cluster_init. simpl.
  destruct (Make_is_Some n i MakePersister now) as (rf & eff & Hm).
  { rewrite recovered_empty. split; [done|]. apply (indexed_from_singleton zeroEntry). }
  destruct (list_to_map _ !! i) as [x|] eqn:E; [done|]. apply not_elem_of_list_to_map_2 in E. destruct E.
  apply list_elem_of_fmap. exists (i, rf). split; [done|]. apply list_elem_of_omap. exists i.
  rewrite Hm. split; [|done]. apply elem_of_seqZ. lia.
Qed.

Lemma run_net acts : forall c s V L c', Rel n c s V L -> net_ok c ->
  admissible_run acts c = true -> run acts c = Some c' -> net_ok c'.
Proof.
  induction acts as [|a acts IH]; intros c s V L c' R N Hadm Hr; simpl in *.
  { by injection Hr as <-. }
  apply andb_prop in Hadm as [Ha Hadm]. apply bind_Some in Hr as (c1 & He & Hr). rewrite He in Hadm.
  destruct (exec_simulated c s V L a c1 R Ha He) as (s1 & V1 & L1 & _ & R1).
  by apply (IH c1 s1 V1 L1); [|apply (exec_net c s V L a)|..].
Qed.

Lemma reachable_net c : reachable c -> net_ok c.
Proof. intros (now & acts & Ha & Hr). by eapply run_net; [apply init_rel|apply init_net|..]. Qed.

(** The peer exists, or the RPC is in progress. *)
Definition enabled (a : Action Cmd) c : bool :=
  match a with
  | ATimer i _ _ _ | AHeartBeat i _ | AStart i _ | ASnapshot i _ _ | AApply i | AKill i | ARestart i _ =>
      bool_decide (0 <= i < Z.of_nat n)
  | ADeliver k _ => bool_decide (is_Some (rpcs c !! k))
  | ADrop _ => true
  end.

Lemma op_returns c s V L i rf op : Rel n c s V L -> nodes c !! i = Some rf -> op_ok op rf ->
  exists rf', run_op op rf = Some rf'.
Proof.
  intros R Hi Hop. destruct (run_op_ok op rf) as (rf' & ? & _); [by apply (r_node _ _ _ _ _ R i)|done|].
  by exists rf'.
Qed.

Lemma deliver_returns c s V L k m now :
  Rel n c s V L -> net_ok c -> rpcs c !! k = Some m ->
  exists c', deliver m (delete k (rpcs c)) now c = Some c'.
Proof.
  intros R N Hk. pose proof (list_elem_of_lookup_2 _ _ _ Hk) as Hin.
  pose proof (net_msgs _ N _ Hin) as Hm. pose proof (r_rpc _ _ _ _ _ R _ Hin) as Hrel.
  pose proof (proj1 (Forall_forall _ _) (ei_rpc _ _ _ (r_el _ _ _ _ _ R)) _ Hin) as Hrpc.
  assert (forall T src dst, call_of n L T src dst -> is_Some (nodes c !! src) /\ is_Some (nodes c !! dst)) as Hcall.
  { intros T src dst (HL & [_ ?] & ?). split; apply N; naive_solver. }
  pose proof (op_returns c s V L) as Hop.
  destruct m as [src dst args|src dst args reply|src dst term|src dst args|src dst args reply
    |src dst args|src dst args reply]; simpl in *.
  - destruct (net_peers _ N dst ltac:(apply Hm)) as [rf Hi].
    destruct (Hop dst rf (OpRequestVote now args) R Hi I) as [rf' Hr].
    simpl in Hr. apply bind_Some in Hr as ([[rf1 r] eff] & Hr & _). rewrite Hi. simpl. rewrite Hr. simpl. eauto.
  - destruct Hrpc as (_ & _ & (rf & Hi & _) & _). destruct Hm as [v Hv].
    destruct (Hop src rf (OpRequestVoteReply now args reply v) R Hi I) as [rf' Hr].
    simpl in Hr. apply bind_Some in Hr as ([[rf1 r] eff] & Hr & _). rewrite Hi. simpl. rewrite Hv. simpl.
    rewrite Hr. simpl. eauto.
  - destruct (Hcall _ _ _ Hrel) as [[rf Hi] _]. destruct (ei_node _ _ _ (r_el _ _ _ _ _ R) _ _ Hi) as (_ & Hp & _).
    destruct (replicate_to_ok dst term rf) as (call & Hr & _);
      [by apply (r_node _ _ _ _ _ R src)|rewrite Hp; apply Hrel|]. rewrite Hi. simpl. rewrite Hr. simpl. eauto.
  - destruct (Hcall _ _ _ (proj1 Hrel)) as [_ [rf Hi]]. rewrite Hi. simpl.
    destruct (AppendEntries_cases now args rf) as (rf' & r & eff & -> & _);
      [apply (r_node _ _ _ _ _ R dst _ Hi)|by eapply sent_indexed; [apply R|apply Hrel]|]. simpl. eauto.
  - destruct (Hcall _ _ _ (proj1 Hrel)) as [[rf Hi] _].
    destruct (Hop src rf (OpAppendReply now dst args reply) R Hi) as [rf' Hr]; [by eapply append_reply_ok|].
    simpl in Hr. apply bind_Some in Hr as ([[rf1 r] eff] & Hr & _). rewrite Hi. simpl. rewrite Hr. simpl. eauto.
  - destruct (Hcall _ _ _ (proj1 Hrel)) as [_ [rf Hi]].
    destruct (Hop dst rf (OpInstallSnapshot now args) R Hi I) as [rf' Hr].
    simpl in Hr. apply bind_Some in Hr as ([[rf1 r] eff] & Hr & _). rewrite Hi. simpl. rewrite Hr. simpl. eauto.
  - destruct (Hcall _ _ _ (proj1 Hrel)) as [[rf Hi] _].
    destruct (Hop src rf (OpInstallReply now dst args reply) R Hi) as [rf' Hr]; [by eapply install_reply_ok|].
    simpl in Hr. apply bind_Some in Hr as ([rf1 eff] & Hr & _). rewrite Hi. simpl. rewrite Hr. simpl. eauto.
Qed.

Lemma exec_returns c s V L a :
  Rel n c s V L -> net_ok c -> enabled a c = true -> admissible a c = true ->
  exists c', exec a c = Some c'.
Proof.
  intros R N Hen Hadm. pose proof (op_returns c s V L) as Hop. pose proof (net_peers _ N) as Hnet.
  destruct a as [i now timeout nowTerm|i nowTerm|k now|k|i command|i index snap|i|i|i now];
    simpl in Hen; try (apply bool_decide_eq_true in Hen); try (destruct (Hnet i Hen) as [rf Hi]; simpl; rewrite Hi; simpl).
  - destruct (Hop i rf (OpElectionTimer now timeout nowTerm) R Hi I) as [rf' Hr].
    simpl in Hr. apply bind_Some in Hr as ([[rf1 b] eff] & -> & _). simpl. eauto.
  - eauto.
  - destruct Hen as [m Hm]. simpl. rewrite Hm. simpl. by eapply deliver_returns.
  - simpl. eauto.
  - destruct (Hop i rf (OpStart command) R Hi I) as [rf' Hr].
    simpl in Hr. apply bind_Some in Hr as ([[rf1 b] eff] & -> & _). simpl. eauto.
  - simpl in Hadm. rewrite Hi in Hadm. apply bool_decide_eq_true in Hadm.
    destruct (Hop i rf (OpSnapshot index snap) R Hi Hadm) as [rf' Hr]. simpl in Hr. rewrite Hr. simpl. eauto.
  - destruct (Hop i rf OpApply R Hi I) as [rf' Hr].
    simpl in Hr. apply bind_Some in Hr as ([rf1 ms] & -> & _). simpl. eauto.
  - eauto.
  - destruct (ei_node _ _ _ (r_el _ _ _ _ _ R) _ _ Hi) as (_ & _ & _ & Hdur).
    destruct (Make_is_Some (peers rf) i (persister rf) now) as (rf' & eff & ->); [|simpl; eauto].
    rewrite Hdur. apply (n_ok _ _ _ _ _ (r_node _ _ _ _ _ R i rf Hi)).
Qed.

(** ** What has been handed to the services agrees *)

Lemma chosen_at_agree s i (P1 P2 : list (LogEntry Cmd) -> Prop) :
  spec_inv n s -> chosen_at n s i P1 -> chosen_at n s i P2 ->
  exists l1 l2, P1 l1 /\ P2 l2 /\ i <= zlen l1 /\ i <= zlen l2 /\ upto l1 i = upto l2 i.
Proof.
  intros I (S1 & j1 & lS1 & Hc1 & Hl1 & Hi1 & HP1) (S2 & j2 & lS2 & Hc2 & Hl2 & Hi2 & HP2).
  destruct (led_in n s I _ _ (proj1 Hc1)) as (x1 & Hx1 & Hz1 & _). assert (x1 = lS1) as -> by congruence.
  destruct (led_in n s I _ _ (proj1 Hc2)) as (x2 & Hx2 & Hz2 & _). assert (x2 = lS2) as -> by congruence.
  exists (upto lS1 j1), (upto lS2 j2). rewrite !zlen_upto, !upto_upto by lia. split_and!; try done; try lia.
  by eapply (chosen_agree n s I S1 j1 S2 j2); try done; lia.
Qed.

(** The position in the log a message stands for, and its term. *)
Definition msg_index (m : ApplyMsg Cmd) : Z := if CommandValid m then CommandIndex m else SnapshotIndex m.
Definition msg_term (m : ApplyMsg Cmd) : Z := if CommandValid m then CommandTerm m else SnapshotTerm m.

Lemma msg_chosen s (im : Z * ApplyMsg Cmd) : msg_rel n s im ->
  CommandValid im.2 = true \/ SnapshotValid im.2 = true ->
  chosen_at n s (msg_index im.2) (fun l => msg_term im.2 = tm l (msg_index im.2) /\
    (CommandValid im.2 = true -> exists e, l.[CommandIndex im.2 - 1] = Some e /\ amCommand im.2 = Command e)).
Proof.
  intros [Hc Hs] Hv. unfold msg_index, msg_term. destruct (CommandValid im.2).
  - destruct (Hc eq_refl) as (S & j & lS & ? & ? & ? & e & He & ? & ?). exists S, j, lS.
    split_and!; try done; try lia; [|eauto]. unfold tm. rewrite He. done.
  - destruct Hv as [|Hv]; [done|]. destruct (Hs Hv) as (S & j & lS & ? & ? & ? & ?).
    exists S, j, lS. split_and!; try done; lia.
Qed.

(** What a cluster that is related to the replicated log has delivered. *)
Lemma deliveries_agree c s V L i j m1 m2 :
  Rel n c s V L -> (i, m1) ∈ delivered c -> (j, m2) ∈ delivered c ->
  CommandValid m1 = true \/ SnapshotValid m1 = true ->
  CommandValid m2 = true \/ SnapshotValid m2 = true ->
  msg_index m1 = msg_index m2 ->
  msg_term m1 = msg_term m2 /\
  (CommandValid m1 = true -> CommandValid m2 = true -> amCommand m1 = amCommand m2).
Proof.
  intros R H1 H2 V1 V2 Hidx.
  pose proof (msg_chosen s _ (r_msgs _ _ _ _ _ R _ H1) V1) as C1.
  pose proof (msg_chosen s _ (r_msgs _ _ _ _ _ R _ H2) V2) as C2. simpl in C1, C2.
  rewrite <- Hidx in C2.
  destruct (chosen_at_agree s _ _ _ (r_spec _ _ _ _ _ R) C1 C2) as (l1 & l2 & [T1 A1] & [T2 A2] & L1 & L2 & Hu).
  assert (forall k, k <= msg_index m1 -> l1.[k - 1] = l2.[k - 1]) as Heq.
  { intros k Hk. rewrite <- (index_upto l1 (msg_index m1)), Hu, index_upto by lia. done. }
  split.
  - rewrite T1, T2. unfold tm. by rewrite Heq by lia.
  - intros E1 E2. destruct (A1 E1) as (e1 & He1 & ->), (A2 E2) as (e2 & He2 & ->).
    unfold msg_index in *. rewrite E1, E2 in *. rewrite <- Hidx in He2.
    rewrite (Heq (CommandIndex m1)) in He1 by lia. congruence.
Qed.

(** C1. State machine safety: whatever two peers hand to their services at one
    index of the log, at any time of an admissible run and across crashes, it is
    of the same term, and if both are commands it is the same command.  This
    covers entries applied from the log and snapshots installed by a leader. *)
Theorem state_machine_safety c i j m1 m2 :
  reachable c -> (i, m1) ∈ delivered c -> (j, m2) ∈ delivered c ->
  CommandValid m1 = true \/ SnapshotValid m1 = true ->
  CommandValid m2 = true \/ SnapshotValid m2 = true ->
  msg_index m1 = msg_index m2 ->
  msg_term m1 = msg_term m2 /\
  (CommandValid m1 = true -> CommandValid m2 = true -> amCommand m1 = amCommand m2).
Proof. intros (s & V & L & _ & R)%reachable_rel. by eapply deliveries_agree. Qed.

(** C5. Leader completeness: in every state of an admissible run (replication
    goroutines find the term they captured, [reachable]), once a peer has marked an
    index as committed, the log of every leader of that peer's term or a later one
    reaches beyond that index and, where neither of the two logs has replaced the index
    by a snapshot, carries the same entry there. *)
Theorem leader_completeness c i j rfi rfj k :
  reachable c -> nodes c !! i = Some rfi -> nodes c !! j = Some rfj ->
  state rfj = Leader -> currentTerm rfi <= currentTerm rfj -> k <= commitIndex rfi ->
  k < nextIdx (log rfj) /\
  (firstIdx (log rfi) < k -> firstIdx (log rfj) < k -> entry_at (log rfj) k = entry_at (log rfi) k).
Proof.
  intros (s & V & L & _ & R)%reachable_rel Hi Hj Hs Ht Hk. pose proof (r_spec _ _ _ _ _ R) as I.
  pose proof (r_node _ _ _ _ _ R i rfi Hi) as Ni. pose proof (r_node _ _ _ _ _ R j rfj Hj) as Nj.
  destruct (leader_rep n s L j rfj I Nj Hs) as (fj & Hfj & Hreal & Hl & ? & ? & Ej & En).
  destruct (committed_leader n _ _ _ _ _ _ I (n_commit _ _ _ _ _ Ni) Ht Hl) as [Hlen Hu].
  destruct (n_commit _ _ _ _ _ Ni) as [Hc _].
  split; [lia|]. destruct (n_log _ _ _ _ _ Ni) as (fi & Hfi). pose proof (rep_first _ _ _ Hfi) as Ei.
  intros Hki Hkj. rewrite (rep_entry _ _ _ Hfj), (rep_entry _ _ _ Hfi), Hreal by lia.
  rewrite <- (index_prefix _ _ _ (real_prefix (peer s i))) by lia.
  rewrite <- (index_upto (plog (peer s i)) (commitIndex rfi)), Hu, index_upto by lia. done.
Qed.

(** C4. The cluster refines the replicated log: the state of every admissible run
    is the image of a run of the transition system [spec_step], in which each
    peer's term is its [currentTerm], its log in memory is its abstract log
    behind the snapshot, its commit index marks entries chosen by a majority, and
    the log of a leader is the log of its term. *)
Theorem cluster_refines_log c : reachable c ->
  exists s, rtc (spec_step n) spec_init s /\ forall i rf, nodes c !! i = Some rf ->
    pterm (peer s i) = currentTerm rf /\ rep (log rf) (peer s i) /\
    committed n s (currentTerm rf) (plog (peer s i)) (commitIndex rf) /\
    (state rf = Leader -> elog s !! currentTerm rf = Some (plog (peer s i))).
Proof.
  intros (s & V & L & Hs & R)%reachable_rel. exists s. split; [done|]. intros i rf Hi.
  destruct (r_node _ _ _ _ _ R i rf Hi) as [? ? _ ? _ _ Hl]. split_and!; try done.
  intros Hst. by destruct (Hl Hst) as (_ & _ & ? & _).
Qed.

(** C9. Nothing panics: in every state of an admissible run, every handler, timer,
    goroutine, [Start], [Snapshot], [apply], crash and restart that can occur
    returns; no slice or index is out of range. *)
Theorem cluster_never_panics c a :
  reachable c -> enabled a c = true -> admissible a c = true -> exists c', exec a c = Some c'.
Proof.
  intros Hr He Ha. pose proof (reachable_net c Hr) as N. apply reachable_rel in Hr as (s & V & L & _ & R).
  by eapply exec_returns.
Qed.
End safety.
