(* ===== verification/RaftServices.v ===== *)
(** What the cluster promises to the services on top of it.

    The services of all peers are fed from one log: what a peer posts on its channel
    are, from the point where it started, the commands of that log in order and
    without gaps, or a snapshot of a longer prefix that some service took at that
    index.  The messages are sent after the lock is released; [sendable] says which
    of those that wait a service can read next.  This is the contract that the
    key/value server is verified against. *)

From S2P Require Import Prelude Gob Persister RaftTypes RaftNode RaftInv RaftSafe RaftSpec.
From S2P Require Import RaftCluster RaftElection RaftLog RaftRefine RaftSim RaftSteps.
From S2P Require Import RaftLead RaftFollow RaftCommit RaftSafety.
Local Open Scope Z_scope.

Section services.
Context {Cmd : Type} `{Gob Z} `{Gob (list (LogEntry Cmd))}.
Implicit Types (c : Cluster Cmd) (rf : Raft Cmd) (s : Spec Cmd) (eff : list (Effect Cmd)).

(** * Where commands and snapshots come from *)

(** The snapshots services have taken. *)
Definition taken_by (a : Action Cmd) : list (Z * bytes) :=
  match a with ASnapshot _ index snap => [(index, snap)] | _ => [] end.

Abbreviation snaps := (list (Z * bytes)).

(** Entries are commands of [Start] with their index and term, the compacted
    prefix is a taken snapshot. *)
Abbreviation asks := (list (Z * Z * Cmd)).
Definition commands (P : asks) (es : list (LogEntry Cmd)) : Prop :=
  forall e, e ∈ es -> exists cmd, Command e = Some cmd /\ (Index e, Term e, cmd) ∈ P.
Definition stems (P : asks) (K : snaps) rf : Prop :=
  commands P (tail (log rf)) /\
  ((firstIdx (log rf) = 0 /\ ReadSnapshot (persister rf) = []) \/
   (firstIdx (log rf), ReadSnapshot (persister rf)) ∈ K).

Definition rpc_stems (P : asks) (K : snaps) (m : Rpc Cmd) : Prop :=
  match m with
  | AEReq _ _ args => commands P (aeEntries args)
  | ISReq _ _ args => isLastIncludedIndex args = 0 \/ (isLastIncludedIndex args, isSnapshot args) ∈ K
  | _ => True
  end.

Definition msg_stems (P : asks) (K : snaps) (m : ApplyMsg Cmd) : Prop :=
  (exists cmd i t, m = mkApplyMsg true (Some cmd) i t false [] 0 0 /\ (i, t, cmd) ∈ P) \/
  (exists data t j, m = mkApplyMsg false None 0 0 true data t j /\ (j, data) ∈ K).

Record origin c (P : asks) (K : snaps) : Prop := {
  or_node : forall i rf, nodes c !! i = Some rf -> stems P K rf;
  or_rpc : forall m, m ∈ rpcs c -> rpc_stems P K m;
  or_msg : forall im, im ∈ delivered c -> msg_stems P K im.2
}.

Lemma commands_mono P P' es : P ⊆ P' -> commands P es -> commands P' es.
Proof. intros HP Hes e He. destruct (Hes e He) as (cmd & ? & ?). exists cmd. auto. Qed.
Lemma stems_mono P P' K K' rf : P ⊆ P' -> K ⊆ K' -> stems P K rf -> stems P' K' rf.
Proof. intros HP HK [? [?|?]]; split; auto; by eapply commands_mono. Qed.
Lemma rpc_stems_mono P P' K K' m : P ⊆ P' -> K ⊆ K' -> rpc_stems P K m -> rpc_stems P' K' m.
Proof. intros HP HK. destruct m; simpl; try done; [by apply commands_mono|naive_solver]. Qed.
Lemma msg_stems_mono P P' K K' m : P ⊆ P' -> K ⊆ K' -> msg_stems P K m -> msg_stems P' K' m.
Proof. intros HP HK [(cmd & i & t & -> & ?)|(? & ? & ? & ? & ?)]; [left|right]; eauto 10. Qed.

Lemma stems_frame P K rf rf' :
  log rf' = log rf -> ReadSnapshot (persister rf') = ReadSnapshot (persister rf) -> stems P K rf -> stems P K rf'.
Proof. intros El Es. unfold stems. by rewrite El, Es. Qed.

(** ** The handlers *)

Lemma persist_snapshot rf : ReadSnapshot (persister (persist rf)) = ReadSnapshot (persister rf).
Proof. apply ReadSnapshot_Save. Qed.
Lemma persist_log rf : log (persist rf) = log rf.
Proof. done. Qed.
Lemma persist_applied rf : lastApplied (persist rf) = lastApplied rf.
Proof. done. Qed.
Lemma persist_commit rf : commitIndex (persist rf) = commitIndex rf.
Proof. done. Qed.
#[local] Hint Rewrite persist_snapshot persist_log persist_applied persist_commit : golib.
#[local] Arguments persist : simpl never.
#[local] Opaque persist.

(** Reduces a projection of a peer that went through assignments and [persist]. *)
Ltac project := repeat (progress (autorewrite with golib in *; simpl in * )).

Definition eff_msgs eff : list (ApplyMsg Cmd) :=
  omap (fun e => match e with EffApply m => Some m | _ => None end) eff.

Lemma emit_apply_msgs i eff : emit_apply i eff = (fun m => (i, m)) <$> eff_msgs eff.
Proof.
  unfold emit_apply, eff_msgs. induction eff as [|e eff IH]; [done|]. destruct e; csimpl; by rewrite ?IH.
Qed.

(** A handler that touches neither log nor snapshot and hands over nothing. *)
Definition inert rf rf' eff : Prop :=
  log rf' = log rf /\ ReadSnapshot (persister rf') = ReadSnapshot (persister rf) /\
  eff_msgs eff = [] /\ lastApplied rf' = lastApplied rf.

Lemma RequestVote_inert now args rf rf' r eff : RequestVote now args rf = Some (rf', r, eff) -> inert rf rf' eff.
Proof. intros Hr. unfold inert. unfold_handlers. handler_cases; split_and!; project; done. Qed.

Lemma onRequestVoteReply_inert now args reply v rf rf' v' eff :
  onRequestVoteReply now args reply v rf = Some (rf', v', eff) -> inert rf rf' eff.
Proof. intros Hr. unfold inert. unfold_handlers. handler_cases; split_and!; project; done. Qed.

Lemma vote_calls_msgs i args servers : eff_msgs (vote_calls i args servers ++ [EffTicker Follower]) = [].
Proof.
  unfold vote_calls. induction servers as [|x xs IH]; [done|]. simpl. case_decide; simpl; done.
Qed.

Lemma timer_inert now timeout nowTerm rf rf' b eff :
  runElectionTimer now timeout nowTerm rf = Some (rf', b, eff) -> inert rf rf' eff.
Proof.
  intros Hr. assert (ReadSnapshot (persister rf') = ReadSnapshot (persister rf)) as Es.
  { unfold_handlers. handler_cases; project; done. }
  destruct (startElection_cases _ _ _ _ _ _ _ Hr) as
    [[-> ->]|(_ & _ & _ & (El & _ & Ea & _) & li & lt & _ & _ & ->)]; [done|].
  by split_and!; [..|apply vote_calls_msgs|].
Qed.

Lemma append_reply_inert now server args reply rf rf' b eff :
  handleAppendEntriesRPCResponse now server args reply rf = Some (rf', b, eff) -> inert rf rf' eff.
Proof.
  intros Hr. unfold inert. unfold_handlers. handler_cases;
    repeat match goal with Hc : commit_loop _ _ _ = Some _ |- _ => apply commit_loop_frame in Hc; rewrite Hc end;
    simpl; split_and!; project; try done; by repeat case_decide.
Qed.

Lemma install_reply_inert now server args reply rf rf' eff :
  handleInstallSnapshotRPCResponse now server args reply rf = Some (rf', eff) -> inert rf rf' eff.
Proof. intros Hr. unfold inert. unfold_handlers. handler_cases; split_and!; project; done. Qed.

Lemma runHeartBeats_msgs rf : eff_msgs (runHeartBeats rf) = [].
Proof.
  destruct (runHeartBeats_emit 0 rf) as [Hm _]. rewrite emit_apply_msgs in Hm. by destruct (eff_msgs _).
Qed.

Lemma inert_stems P K rf rf' eff : inert rf rf' eff -> stems P K rf -> stems P K rf'.
Proof. intros (El & Es & _). by apply stems_frame. Qed.

Lemma tail_drop {A} (l : list A) k : 0 < k -> forall x, x ∈ drop (Z.to_nat k) l -> x ∈ tail l.
Proof.
  intros Hk x Hx. destruct l as [|y l]; [by rewrite drop_nil in Hx|].
  replace (Z.to_nat k) with (S (Z.to_nat (k - 1))) in Hx by lia. simpl in *.
  rewrite <- (take_drop (Z.to_nat (k - 1)) l). apply elem_of_app. by right.
Qed.

Lemma tail_app_elem {A} (l es : list A) x : l <> [] -> x ∈ tail (l ++ es) -> x ∈ tail l \/ x ∈ es.
Proof. destruct l; [done|]. simpl. by intros _ ?%elem_of_app. Qed.

Lemma tail_take_elem {A} (l : list A) k x : x ∈ tail (take k l) -> x ∈ tail l.
Proof.
  destruct l as [|y l], k as [|k]; simpl; try done; [by intros ?%elem_of_nil|].
  intros Hx. rewrite <- (take_drop k l). apply elem_of_app. by left.
Qed.

(** Merging only brings in entries of the RPC. *)
Lemma merge_log_tail (es : list (LogEntry Cmd)) : forall i l x, firstIdx l < i ->
  l <> [] -> x ∈ tail (merge_log i es l) -> x ∈ tail l \/ x ∈ es.
Proof.
  induction es as [|e es IH]; intros i l x Hi Hne Hx; simpl in Hx; [by left|].
  destruct (term_at l i) as [t|]; [case_decide|].
  - destruct (IH (i + 1) l x ltac:(lia) Hne Hx); [by left|right]. by right.
  - apply tail_app_elem in Hx as [Hx%tail_take_elem|]; [by left|by right|by apply log_before_ne].
  - by apply tail_app_elem in Hx.
Qed.

Lemma AppendEntries_stems P K now args rf rf' r eff :
  log_wf (log rf) -> indexed_from (aePrevLogIndex args + 1) (aeEntries args) ->
  AppendEntries now args rf = Some (rf', r, eff) -> commands P (aeEntries args) -> stems P K rf -> stems P K rf'.
Proof.
  intros Hwf Hix Hr Hes [Hc Hk].
  assert (ReadSnapshot (persister rf') = ReadSnapshot (persister rf)) as Es.
  { clear Hwf Hix Hes Hc Hk. unfold_handlers. handler_cases; project; done. }
  destruct (AppendEntries_cases now args rf Hwf Hix) as (rf2 & r2 & eff2 & Hr2 & Hiff & Hyes & Hno).
  rewrite Hr in Hr2. injection Hr2 as <- <- <-. destruct (aerSuccess r) eqn:Er.
  - destruct (Hyes eq_refl) as [El _]. destruct (proj1 Hiff eq_refl) as (_ & _ & Hta).
    assert (firstIdx (log rf) <= aePrevLogIndex args < nextIdx (log rf)) as Hr2.
    { unfold term_at in Hta. destruct (entry_at _ _) eqn:E; [|done]. by eapply entry_at_Some_range. }
    destruct (merge_log_wf (aeEntries args) (aePrevLogIndex args) (log rf) Hwf Hr2 Hix) as [_ Hf].
    split; rewrite El; [|by rewrite Hf, Es].
    intros e [He|He]%merge_log_tail; [by apply Hc|by apply Hes|lia|apply Hwf].
  - destruct (Hno eq_refl) as [El _]. by apply (stems_frame P K rf).
Qed.

Lemma AppendEntries_msgs now args rf rf' r eff :
  AppendEntries now args rf = Some (rf', r, eff) -> eff_msgs eff = [] /\ lastApplied rf' = lastApplied rf.
Proof.
  intros Hr. unfold_handlers. handler_cases; split; try done; unfold eff_msgs; by rewrite ?omap_app.
Qed.

(** What [Start] is asked to append. *)
Definition asked command rf : asks :=
  if decide (state rf = Leader) then [(nextIdx (log rf), currentTerm rf, command)] else [].

Lemma Start_stems P K command rf rf' r eff :
  node_ok rf -> Start command rf = Some (rf', r, eff) -> stems P K rf ->
  stems (asked command rf ++ P) K rf' /\ eff_msgs eff = [] /\ lastApplied rf' = lastApplied rf.
Proof.
  intros Hok Hs Hst. assert (P ⊆ asked command rf ++ P) as HP by set_solver.
  apply (stems_mono _ _ K K _ HP ltac:(done)) in Hst as [Hc Hk].
  destruct (Start_leader _ _ _ _ _ Hok Hs) as [[-> ->]|(Hl & -> & ->)]; [done|].
  pose proof (proj1 (ok_log _ Hok)) as Hne.
  split_and!; [split; simpl|apply runHeartBeats_msgs|done].
  - rewrite persist_log. intros e [He|He]%tail_app_elem; [by apply Hc| |done]. apply list_elem_of_singleton in He as ->.
    exists command. split; [done|]. unfold asked. rewrite decide_True by done. by left.
  - rewrite persist_log, persist_snapshot. simpl. rewrite firstIdx_app by done. destruct Hk; [by left|by right].
Qed.

Lemma Snapshot_stems P K index snap rf rf' :
  log_wf (log rf) -> Snapshot index snap rf = Some rf' -> stems P K rf ->
  stems P ((index, snap) :: K) rf' /\ lastApplied rf' = lastApplied rf.
Proof.
  intros [Hne Hix] Hs Hst. assert (K ⊆ (index, snap) :: K) as HK by set_solver.
  unfold Snapshot in Hs. rewrite getFirstIndex_wf in Hs by done. simpl in Hs.
  case_decide as Hi; [injection Hs as <-; split; [by eapply (stems_mono P P)|done]|].
  apply bind_Some in Hs as (tl & Htl & Hs). apply bind_Some in Hs as (l & Hl & Hs). injection Hs as <-.
  split; [|done]. unfold slice_from in Htl. case_decide as Hr; [|done]. injection Htl as <-.
  destruct (drop (Z.to_nat (index - firstIdx (log rf))) (log rf)) as [|e es] eqn:E; [done|].
  injection Hl as <-. split; simpl.
  - intros x Hx. apply (proj1 Hst). apply (tail_drop _ (index - firstIdx (log rf)) ltac:(lia)).
    rewrite E. by right.
  - right. rewrite firstIdx_cons. simpl. rewrite ReadSnapshot_Save.
    assert ((log rf).[index - firstIdx (log rf)] = Some e) as He%Hix.
    { rewrite go_index_lookup by lia. rewrite <- (Nat.add_0_r (Z.to_nat _)), <- lookup_drop. by rewrite E. }
    replace (Index e) with index by lia. by left.
Qed.

Lemma InstallSnapshot_stored now args rf rf' r eff :
  InstallSnapshot now args rf = Some (rf', r, eff) ->
  (ReadSnapshot (persister rf') = ReadSnapshot (persister rf) /\ commitIndex rf' = commitIndex rf /\
   eff_msgs eff = [] /\ lastApplied rf' = lastApplied rf) \/
  (ReadSnapshot (persister rf') = isSnapshot args /\ commitIndex rf < isLastIncludedIndex args /\
   commitIndex rf' = isLastIncludedIndex args /\ eff_msgs eff = [mkApplyMsg false None 0 0 true (isSnapshot args) (isLastIncludedTerm args)
                     (isLastIncludedIndex args)] /\
   lastApplied rf' = isLastIncludedIndex args).
Proof.
  intros Hr. unfold_handlers. handler_cases; project;
    (left; split_and!; done) || (right; split_and!; project; try done; lia).
Qed.

Lemma InstallSnapshot_stems P K now args rf rf' r eff :
  node_ok rf -> InstallSnapshot now args rf = Some (rf', r, eff) ->
  isLastIncludedIndex args = 0 \/ (isLastIncludedIndex args, isSnapshot args) ∈ K ->
  stems P K rf -> stems P K rf' /\ Forall (msg_stems P K) (eff_msgs eff).
Proof.
  intros Hok Hr Hk [Hc Hs]. pose proof (ok_first _ Hok). pose proof (ok_applied _ Hok).
  destruct (InstallSnapshot_outcome _ _ _ _ _ _ Hok Hr) as [[-> _]|(_ & _ & _ & _ & [(El & Ec & _)|(Hlt & Ec & El & _)])],
    (InstallSnapshot_stored _ _ _ _ _ _ Hr) as [(Es & Ec' & Em & _)|(Es & Hlt' & Ec' & Em & _)]; rewrite Em; try lia.
  - by split; [|apply Forall_nil].
  - split; [|by apply Forall_nil]. by apply (stems_frame P K rf).
  - destruct Hk as [?|Hk]; [lia|]. split; [split|].
    + rewrite El. simpl. intros e He. apply Hc. eapply tail_drop; [|exact He]. lia.
    + right. rewrite El, Es. done.
    + apply Forall_singleton. right. eauto 10.
Qed.

Lemma entry_in_tail rf i e : entry_at (log rf) i = Some e -> firstIdx (log rf) < i -> e ∈ tail (log rf).
Proof.
  intros He Hi. unfold entry_at in He. destruct (log rf) as [|x l] eqn:E; [by apply go_index_nil in He|].
  rewrite go_index_cons_S in He by lia. rewrite go_index_lookup in He by lia. simpl. by eapply list_elem_of_lookup_2.
Qed.

Lemma apply_msgs rf rf' ms :
  node_ok rf -> apply rf = Some (rf', ms) ->
  log rf' = log rf /\ persister rf' = persister rf /\
  ((ms = [] /\ lastApplied rf' = lastApplied rf) \/
   (lastApplied rf' = commitIndex rf /\ zlen ms = commitIndex rf - lastApplied rf /\
    forall k, 0 <= k < zlen ms -> exists e, entry_at (log rf) (lastApplied rf + 1 + k) = Some e /\
      ms.[k] = Some (mkApplyMsg true (Command e) (lastApplied rf + 1 + k) (Term e) false [] 0 0))).
Proof.
  intros Hok Hr. destruct (decide (dead rf = 1)) as [Hd|Hd].
  { unfold apply, killed in Hr. rewrite bool_decide_true in Hr by done. injection Hr as <- <-. auto 10. }
  destruct (apply_spec rf Hok Hd) as (es & Hes & Hlen & Hat). rewrite Hes in Hr. injection Hr as <- <-.
  split_and!; try done. right. assert (forall (f : LogEntry Cmd -> ApplyMsg Cmd), zlen (map f es) = zlen es) as Hz
    by (intros f; unfold zlen; by rewrite length_map).
  rewrite Hz. split_and!; try done. intros k Hk. specialize (Hat k Hk).
  destruct (go_index_is_Some es k Hk) as [e He]. exists e. rewrite He in Hat.
  split; [done|]. rewrite go_index_lookup, list_lookup_fmap, <- go_index_lookup, He by lia. simpl.
  symmetry in Hat. by rewrite (entry_at_Index _ _ _ (ok_log _ Hok) Hat).
Qed.

Lemma apply_stems P K rf rf' ms :
  node_ok rf -> apply rf = Some (rf', ms) -> stems P K rf -> stems P K rf' /\ Forall (msg_stems P K) ms.
Proof.
  intros Hok Hr Hst. destruct (apply_msgs _ _ _ Hok Hr) as (El & Ep & Hms).
  split; [apply (stems_frame P K rf); by rewrite ?Ep|].
  destruct Hms as [[-> _]|(_ & _ & Hms)]; [by apply Forall_nil|].
  apply Forall_forall. intros m [k Hk]%list_elem_of_lookup.
  pose proof (lookup_lt_Some _ _ _ Hk). destruct (Hms (Z.of_nat k)) as (e & He & Hm); [unfold zlen; lia|].
  rewrite go_index_of_nat, Hk in Hm. injection Hm as ->.
  pose proof (ok_applied _ Hok). left. destruct (proj1 Hst e) as (cmd & -> & Hin); [eapply entry_in_tail; [done|lia]|].
  eexists _, _, _. split; [done|]. by rewrite <- (entry_at_Index _ _ _ (ok_log _ Hok) He).
Qed.

Lemma replicate_to_stems P K server term rf call :
  node_ok rf -> 0 <= server < Z.of_nat (peers rf) -> stems P K rf ->
  replicate_to server term rf = Some call ->
  match call with
  | ReplStop => True
  | ReplInstall args => isLastIncludedIndex args = 0 \/ (isLastIncludedIndex args, isSnapshot args) ∈ K
  | ReplAppend args => commands P (aeEntries args)
  end.
Proof.
  intros Hok Hs [Hc Hk] Hr. destruct (replicate_to_ok server term rf Hok Hs) as (call' & Hr' & Hspec).
  rewrite Hr in Hr'. injection Hr' as <-. destruct call as [|args|args]; [done| |].
  - destruct Hspec as [-> _]. assert (isSnapshot args = ReadSnapshot (persister rf)) as ->; [|naive_solver].
    unfold replicate_to in Hr. handler_cases; done.
  - destruct Hspec as (_ & ? & _ & -> & _). intros e He. apply Hc. eapply tail_drop; [|exact He]. lia.
Qed.

(** ** Every action *)

Lemma emit_stems P K i eff m : m ∈ emit i eff -> rpc_stems P K m.
Proof. intros (e & _ & Hm)%list_elem_of_omap. by destruct e; simplify_eq/=. Qed.

Lemma origin_update c P P' K K' i rf rf' eff ms :
  origin c P K -> P ⊆ P' -> K ⊆ K' -> nodes c !! i = Some rf -> stems P' K' rf' ->
  Forall (msg_stems P' K') (eff_msgs eff) -> (forall m, m ∈ ms -> m ∈ rpcs c \/ rpc_stems P' K' m) ->
  origin (update_node i rf' eff ms c) P' K'.
Proof.
  intros [Hn Hr Hm] HP HK Hi Hst Heff Hms. split; simpl.
  - intros j rfj [[<- <-]|[_ Hj]]%lookup_insert_Some; [done|]. eapply stems_mono; [done|done|]. by eapply Hn.
  - intros m [[Hx|]%Hms|Hx]%elem_of_app; [|done|by eapply emit_stems].
    eapply rpc_stems_mono; [done|done|]. by apply Hr.
  - intros im [Hx|Hx]%elem_of_app; [eapply msg_stems_mono; [done|done|]; by apply Hm|].
    rewrite emit_apply_msgs in Hx. apply list_elem_of_fmap in Hx as (m & -> & Hx). simpl.
    by apply (proj1 (Forall_forall _ _) Heff).
Qed.

Lemma origin_votes c P K key v : origin c P K -> origin (set_votes key v c) P K.
Proof. intros []. by split. Qed.

Lemma origin_inert c P K i rf rf' eff ms :
  origin c P K -> nodes c !! i = Some rf -> inert rf rf' eff ->
  (forall m, m ∈ ms -> m ∈ rpcs c \/ rpc_stems P K m) -> origin (update_node i rf' eff ms c) P K.
Proof.
  intros O Hi Hin Hms. eapply (origin_update c P P K K); try done.
  - eapply inert_stems; [done|]. by apply (or_node _ _ _ O i).
  - destruct Hin as (_ & _ & -> & _). apply Forall_nil_2.
Qed.

Context `{!GobLaws Z} `{!GobLaws (list (LogEntry Cmd))} (n : nat).

Lemma deliver_origin c s V L P K k m now c' :
  Rel n c s V L -> origin c P K -> rpcs c !! k = Some m ->
  deliver m (delete k (rpcs c)) now c = Some c' -> origin c' P K.
Proof.
  intros R O Hk Hd. pose proof (list_elem_of_lookup_2 _ _ _ Hk) as Hin.
  pose proof (or_rpc _ _ _ O _ Hin) as Hm. pose proof (r_rpc _ _ _ _ _ R _ Hin) as Hrel.
  pose proof (fun x => elem_of_delete_rpc k (rpcs c) x) as Hdel.
  assert (forall i rf, nodes c !! i = Some rf -> node_ok rf) as Hok by (intros i rf Hi; by apply (r_node _ _ _ _ _ R i)).
  destruct m as [src dst args|src dst args reply|src dst term|src dst args|src dst args reply
    |src dst args|src dst args reply]; simpl in Hd, Hm; apply bind_Some in Hd as (rf & Hi & Hd).
  - apply bind_Some in Hd as ([[rf' r] eff] & Hh & Hd). injection Hd as <-.
    eapply origin_inert; [done..|by eapply RequestVote_inert|]. intros m [| ->]%replaced; [by left|by right].
  - apply bind_Some in Hd as (v & _ & Hd). apply bind_Some in Hd as ([[rf' v'] eff] & Hh & Hd). injection Hd as <-.
    apply origin_votes.
    eapply origin_inert; [done..|by eapply onRequestVoteReply_inert|]. eauto.
  - apply bind_Some in Hd as (call & Hh & Hd). injection Hd as <-.
    destruct (ei_node _ _ _ (r_el _ _ _ _ _ R) _ _ Hi) as (_ & Hp & _).
    apply (replicate_to_stems P K) in Hh; [|by eapply Hok|rewrite Hp; apply Hrel|by apply (or_node _ _ _ O src)].
    eapply origin_inert; [done..|]. destruct call; [eauto|intros m [| ->]%replaced; [by left|by right]..].
  - apply bind_Some in Hd as ([[rf' r] eff] & Hh & Hd). injection Hd as <-.
    destruct (AppendEntries_msgs _ _ _ _ _ _ Hh) as [Em _].
    eapply (origin_update c P P K K); try done; [|by rewrite Em; apply Forall_nil_2|intros m [| ->]%replaced; [by left|by right]].
    eapply AppendEntries_stems; [apply (ok_log _ (Hok _ _ Hi))|by eapply sent_indexed; [apply R|apply Hrel]|done|done|].
    by apply (or_node _ _ _ O dst).
  - apply bind_Some in Hd as ([[rf' again] eff] & Hh & Hd). injection Hd as <-.
    eapply origin_inert; [done..|by eapply append_reply_inert|].
    destruct again; [intros m [| ->]%replaced; [by left|by right]|eauto].
  - apply bind_Some in Hd as ([[rf' r] eff] & Hh & Hd). injection Hd as <-.
    destruct (InstallSnapshot_stems P K _ _ _ _ _ _ (Hok _ _ Hi) Hh Hm (or_node _ _ _ O _ _ Hi)) as [Hst Hms].
    eapply (origin_update c P P K K); try done. intros m [| ->]%replaced; [by left|by right].
  - apply bind_Some in Hd as ([rf' eff] & Hh & Hd). injection Hd as <-.
    eapply origin_inert; [done..|by eapply install_reply_inert|]. eauto.
Qed.

(** The commands an action asks a leader for. *)
Definition asked_by (a : Action Cmd) c : asks :=
  match a with
  | AStart i command => match nodes c !! i with Some rf => asked command rf | None => [] end
  | _ => []
  end.

Lemma exec_origin c s V L P K a c' :
  Rel n c s V L -> origin c P K -> exec a c = Some c' -> origin c' (asked_by a c ++ P) (taken_by a ++ K).
Proof.
  intros R O He.
  assert (forall i rf, nodes c !! i = Some rf -> node_ok rf) as Hok by (intros i rf Hi; by apply (r_node _ _ _ _ _ R i)).
  destruct a as [i now timeout nowTerm|i nowTerm|k now|k|i command|i index snap|i|i|i now];
    simpl in He; try (apply bind_Some in He as (rf & Hi & He)); simpl.
  - apply bind_Some in He as ([[rf' b] eff] & Hh & He). injection He as <-.
    assert (origin (update_node i rf' eff (rpcs c) c) P K) as O'.
    { eapply origin_inert; [done..|by eapply timer_inert|]. by left. }
    case_decide; [by apply origin_votes|done].
  - injection He as <-. eapply origin_inert; [done..| |by left]. split_and!; try done.
    unfold heartBeatsTimer. destruct (killed rf); [done|]. case_decide; [done|apply runHeartBeats_msgs].
  - by eapply deliver_origin.
  - injection He as <-. destruct O as [? Hr ?]. split; try done. intros m Hx%elem_of_delete_rpc. by apply Hr.
  - apply bind_Some in He as ([[rf' r] eff] & Hh & He). injection He as <-.
    destruct (Start_stems P K _ _ _ _ _ (Hok _ _ Hi) Hh (or_node _ _ _ O _ _ Hi)) as (Hst & Em & _).
    rewrite Hi. eapply (origin_update c P _ K K); try done; [set_solver|by rewrite Em; apply Forall_nil_2|by left].
  - apply bind_Some in He as (rf' & Hh & He). injection He as <-.
    destruct (Snapshot_stems P K _ _ _ _ (ok_log _ (Hok _ _ Hi)) Hh (or_node _ _ _ O _ _ Hi)) as [Hst _].
    eapply (origin_update c P P K); try done; [set_solver|by left].
  - apply bind_Some in He as ([rf' ms] & Hh & He). injection He as <-.
    destruct (apply_stems P K _ _ _ (Hok _ _ Hi) Hh (or_node _ _ _ O _ _ Hi)) as [Hst Hms].
    eapply (origin_update c P P K K); try done; [|by left].
    assert (eff_msgs (EffApply <$> ms) = ms) as -> by (clear; induction ms; csimpl; by f_equal). done.
  - injection He as <-. by eapply origin_inert; [..|left].
  - apply bind_Some in He as ([rf' eff] & Hh & He). injection He as <-.
    destruct (ei_node _ _ _ (r_el _ _ _ _ _ R) _ _ Hi) as (_ & _ & _ & Hdur).
    destruct (Make_recovers _ _ _ _ _ _ Hh) as (Hrec & Ep & _). rewrite Hdur in Hrec. injection Hrec as _ _ El.
    destruct (Make_tables _ _ _ _ _ _ Hh) as (_ & _ & ->).
    eapply (origin_update c P P K K); try done; [|by left].
    apply (stems_frame P K rf); [done|by rewrite Ep|by apply (or_node _ _ _ O i)].
Qed.

Lemma init_origin now : origin (cluster_init n now : Cluster Cmd) [] [].
Proof.
  split; [|by intros m ?%elem_of_nil..]. intros i rf Hi. destruct (init_node n now i rf Hi) as (eff & Hm & _).
  destruct (Make_recovers _ _ _ _ _ _ Hm) as (Hrec & Ep & _). rewrite recovered_empty in Hrec. injection Hrec as _ _ El.
  split; rewrite El; [by intros e ?%elem_of_nil|left]. by rewrite Ep.
Qed.

(** * The order of delivery *)

(** Messages that take a service from position [a] of the log to position [b]. *)
Inductive in_order : Z -> list (ApplyMsg Cmd) -> Z -> Prop :=
| io_nil a : in_order a [] a
| io_cmd a cmd t ms b :
    in_order (a + 1) ms b -> in_order a (mkApplyMsg true cmd (a + 1) t false [] 0 0 :: ms) b
| io_snap a data t j ms b :
    a < j -> in_order j ms b -> in_order a (mkApplyMsg false None 0 0 true data t j :: ms) b.

Lemma in_order_app a b d ms ms' : in_order a ms b -> in_order b ms' d -> in_order a (ms ++ ms') d.
Proof. intros H1 H2. induction H1; simpl; [done|constructor; auto..]. Qed.

Lemma in_order_le a ms b : in_order a ms b -> a <= b.
Proof. induction 1; lia. Qed.

Definition received (i : Z) c : list (ApplyMsg Cmd) :=
  omap (fun '(j, m) => if decide (j = i) then Some m else None) (delivered c).

Lemma in_order_commands ms : forall a,
  (forall k, 0 <= k < zlen ms -> exists cmd t,
     ms.[k] = Some (mkApplyMsg true cmd (a + 1 + k) t false [] 0 0)) ->
  in_order a ms (a + zlen ms).
Proof.
  induction ms as [|m ms IH]; intros a Hk.
  { replace (a + zlen (@nil (ApplyMsg Cmd))) with a by (unfold zlen; simpl; lia). constructor. }
  pose proof (zlen_nonneg ms). rewrite zlen_cons in *. destruct (Hk 0) as (cmd & t & Hm); [lia|].
  injection Hm as ->. replace (a + 1 + 0) with (a + 1) by lia.
  replace (a + (1 + zlen ms)) with (a + 1 + zlen ms) by lia. constructor. apply IH.
  intros k Hr. destruct (Hk (k + 1)) as (cmd' & t' & Hm); [lia|]. exists cmd', t'.
  rewrite go_index_cons_S in Hm by lia. replace (k + 1 - 1) with k in Hm by lia.
  by replace (a + 1 + 1 + k) with (a + 1 + (k + 1)) by lia.
Qed.

(** One action of peer [j] moves the service of peer [j] along the log. *)
Definition fed_by c (j : Z) rf rf' eff (ms : list (Rpc Cmd)) c' : Prop :=
  nodes c !! j = Some rf /\ acts c j rf' eff ms c' /\
  in_order (lastApplied rf) (eff_msgs eff) (lastApplied rf').

Lemma received_acts c j rf' eff ms c' i : acts c j rf' eff ms c' ->
  received i c' = received i c ++ (if decide (j = i) then eff_msgs eff else []).
Proof.
  intros (_ & _ & Hd). unfold received. rewrite Hd, emit_apply_msgs, omap_app. f_equal.
  induction (eff_msgs eff) as [|m xs IH]; csimpl; [by case_decide|]. rewrite IH. by case_decide.
Qed.

Lemma inert_in_order rf rf' eff : inert rf rf' eff -> in_order (lastApplied rf) (eff_msgs eff) (lastApplied rf').
Proof. intros (_ & _ & -> & ->). constructor. Qed.

Lemma deliver_fed c s V L k m now c' :
  Rel n c s V L -> rpcs c !! k = Some m -> deliver m (delete k (rpcs c)) now c = Some c' ->
  exists j rf rf' eff ms, fed_by c j rf rf' eff ms c'.
Proof.
  intros R Hk Hd.
  assert (forall i rf, nodes c !! i = Some rf -> node_ok rf) as Hok by (intros i rf Hi; by apply (r_node _ _ _ _ _ R i)).
  destruct m as [src dst args|src dst args reply|src dst term|src dst args|src dst args reply
    |src dst args|src dst args reply]; simpl in Hd; apply bind_Some in Hd as (rf & Hi & Hd).
  - apply bind_Some in Hd as ([[rf' r] eff] & Hh & Hd). injection Hd as <-.
    exists dst, rf, rf', eff. eexists. split_and!; [done|apply acts_update|]. by eapply inert_in_order, RequestVote_inert.
  - apply bind_Some in Hd as (v & _ & Hd). apply bind_Some in Hd as ([[rf' v'] eff] & Hh & Hd). injection Hd as <-.
    exists src, rf, rf', eff. eexists. split_and!; [done|apply acts_votes|]. by eapply inert_in_order, onRequestVoteReply_inert.
  - apply bind_Some in Hd as (call & Hh & Hd). injection Hd as <-.
    exists src, rf, rf, []. eexists. split_and!; [done|apply acts_update|]. constructor.
  - apply bind_Some in Hd as ([[rf' r] eff] & Hh & Hd). injection Hd as <-.
    destruct (AppendEntries_msgs _ _ _ _ _ _ Hh) as [Em Ea].
    exists dst, rf, rf', eff. eexists. split_and!; [done|apply acts_update|]. rewrite Em, Ea. constructor.
  - apply bind_Some in Hd as ([[rf' again] eff] & Hh & Hd). injection Hd as <-.
    exists src, rf, rf', eff. eexists. split_and!; [done|apply acts_update|]. by eapply inert_in_order, append_reply_inert.
  - apply bind_Some in Hd as ([[rf' r] eff] & Hh & Hd). injection Hd as <-.
    exists dst, rf, rf', eff. eexists. split_and!; [done|apply acts_update|]. pose proof (ok_applied _ (Hok _ _ Hi)).
    destruct (InstallSnapshot_stored _ _ _ _ _ _ Hh) as [(_ & _ & -> & ->)|(_ & ? & _ & -> & ->)];
      [constructor|]. constructor; [lia|constructor].
  - apply bind_Some in Hd as ([rf' eff] & Hh & Hd). injection Hd as <-.
    exists src, rf, rf', eff. eexists. split_and!; [done|apply acts_update|]. by eapply inert_in_order, install_reply_inert.
Qed.

(** The actions that restart the service of a peer. *)
Definition restarts (i : Z) (a : Action Cmd) : bool :=
  match a with ARestart j _ => bool_decide (j = i) | _ => false end.

Lemma exec_fed c s V L a c' :
  Rel n c s V L -> exec a c = Some c' ->
  (exists j rf rf' eff ms, fed_by c j rf rf' eff ms c') \/
  (nodes c' = nodes c /\ delivered c' = delivered c) \/
  (exists j rf' eff ms, restarts j a = true /\ acts c j rf' eff ms c').
Proof.
  intros R He.
  assert (forall i rf, nodes c !! i = Some rf -> node_ok rf) as Hok by (intros i rf Hi; by apply (r_node _ _ _ _ _ R i)).
  destruct a as [i now timeout nowTerm|i nowTerm|k now|k|i command|i index snap|i|i|i now];
    simpl in He; try (apply bind_Some in He as (rf & Hi & He)).
  - left. apply bind_Some in He as ([[rf' b] eff] & Hh & He). injection He as <-.
    exists i, rf, rf', eff, (rpcs c). split_and!; [done| |by eapply inert_in_order, timer_inert].
    case_decide; [apply acts_votes|apply acts_update].
  - left. injection He as <-. exists i, rf, rf, (heartBeatsTimer nowTerm rf).2, (rpcs c).
    split_and!; [done|apply acts_update|]. assert (eff_msgs (heartBeatsTimer nowTerm rf).2 = []) as ->; [|constructor].
    unfold heartBeatsTimer. destruct (killed rf); [done|]. case_decide; [done|apply runHeartBeats_msgs].
  - left. by eapply deliver_fed.
  - right; left. by injection He as <-.
  - left. apply bind_Some in He as ([[rf' r] eff] & Hh & He). injection He as <-.
    exists i, rf, rf', eff, (rpcs c). split_and!; [done|apply acts_update|].
    destruct (Start_leader _ _ _ _ _ (Hok _ _ Hi) Hh) as [[-> ->]|(_ & -> & ->)]; [constructor|].
    rewrite runHeartBeats_msgs. constructor.
  - left. apply bind_Some in He as (rf' & Hh & He). injection He as <-.
    exists i, rf, rf', [], (rpcs c). split_and!; [done|apply acts_update|].
    assert (lastApplied rf' = lastApplied rf) as ->; [|constructor].
    unfold Snapshot in Hh. handler_cases; done.
  - left. apply bind_Some in He as ([rf' ms] & Hh & He). injection He as <-.
    exists i, rf, rf', (EffApply <$> ms), (rpcs c). split_and!; [done|apply acts_update|].
    assert (eff_msgs (EffApply <$> ms) = ms) as -> by (clear; induction ms; csimpl; by f_equal).
    destruct (apply_msgs _ _ _ (Hok _ _ Hi) Hh) as (_ & _ & [[-> ->]|(-> & Hz & Hms)]); [constructor|].
    replace (commitIndex rf) with (lastApplied rf + zlen ms) by lia. apply in_order_commands.
    intros k Hk. destruct (Hms k Hk) as (e & _ & ->). eauto.
  - left. injection He as <-. exists i, rf, (Kill rf), [], (rpcs c). split_and!; [done|apply acts_update|constructor].
  - right; right. apply bind_Some in He as ([rf' eff] & Hh & He). injection He as <-.
    exists i, rf', eff, (rpcs c). split; [by apply bool_decide_eq_true|apply acts_update].
Qed.

Lemma exec_delivered c s V L a c' : Rel n c s V L -> exec a c = Some c' -> exists l, delivered c' = delivered c ++ l.
Proof.
  intros R He. destruct (exec_fed c s V L a c' R He) as
    [(j & rf & rf' & eff & ms & _ & (_ & _ & Hd) & _)|[[_ Hd]|(j & rf' & eff & ms & _ & (_ & _ & Hd))]].
  - by eexists.
  - exists []. by rewrite app_nil_r.
  - by eexists.
Qed.

(** The node of a server before a step, and what it was handed in it. *)
Lemma exec_queue c s V L a c' i rf' : Rel n c s V L -> exec a c = Some c' -> restarts i a = false ->
  nodes c' !! i = Some rf' ->
  exists rf ms, nodes c !! i = Some rf /\ received i c' = received i c ++ ms /\ in_order (lastApplied rf) ms (lastApplied rf').
Proof.
  intros R He Hre Hi. destruct (exec_fed c s V L a c' R He) as
    [(j & rfj & rfj' & eff & ms & Hj & Hacts & Hio)|[[Hn Hd]|(j & rfj' & eff & ms & Hj & Hacts)]].
  - pose proof (received_acts _ _ _ _ _ _ i Hacts) as Hrec. destruct Hacts as (Hn & _). rewrite Hn in Hi.
    apply lookup_insert_Some in Hi as [[-> ->]|[Hne Hi]].
    + exists rfj, (eff_msgs eff). rewrite decide_True in Hrec by done. done.
    + exists rf', []. rewrite decide_False in Hrec by done. split_and!; [done|done|constructor].
  - exists rf', []. unfold received. rewrite Hd, app_nil_r, <- Hn. split_and!; [done|done|constructor].
  - pose proof (received_acts _ _ _ _ _ _ i Hacts) as Hrec. destruct Hacts as (Hn & _). rewrite Hn in Hi.
    assert (j <> i) as Hne by (intros ->; congruence). rewrite lookup_insert_ne in Hi by done.
    exists rf', []. rewrite decide_False in Hrec by done. split_and!; [done|done|constructor].
Qed.

Lemma run_fed acts i : forall c s V L c' rf,
  Rel n c s V L -> admissible_run acts c = true -> run acts c = Some c' ->
  forallb (fun a => negb (restarts i a)) acts = true -> nodes c !! i = Some rf ->
  exists rf' ms, nodes c' !! i = Some rf' /\ received i c' = received i c ++ ms /\
    in_order (lastApplied rf) ms (lastApplied rf').
Proof.
  induction acts as [|a acts IH]; intros c s V L c' rf R Hadm Hr Hnr Hi; simpl in *.
  { injection Hr as <-. exists rf, []. rewrite app_nil_r. split_and!; try done. constructor. }
  apply andb_prop in Hadm as [Ha Hadm]. apply andb_prop in Hnr as [Hna Hnr].
  apply bind_Some in Hr as (c1 & He & Hr). rewrite He in Hadm.
  destruct (exec_simulated n c s V L a c1 R Ha He) as (s1 & V1 & L1 & _ & R1).
  assert (exists rf1 ms1, nodes c1 !! i = Some rf1 /\ received i c1 = received i c ++ ms1 /\
    in_order (lastApplied rf) ms1 (lastApplied rf1)) as (rf1 & ms1 & Hi1 & Hms1 & Hio1).
  { destruct (exec_fed c s V L a c1 R He) as
      [(j & rfj & rfj' & eff & ms & Hj & Hacts & Hio)|[[En Ed]|(j & rfj' & eff & ms & Hre & Hacts)]].
    - pose proof (received_acts _ _ _ _ _ _ i Hacts) as Hrec. pose proof (proj1 Hacts) as Hn.
      destruct (decide (j = i)) as [->|Hne].
      + rewrite Hi in Hj. injection Hj as <-. exists rfj', (eff_msgs eff). split_and!; try done.
        rewrite Hn. apply lookup_insert_eq.
      + exists rf, []. split_and!; [by rewrite Hn, lookup_insert_ne|done|constructor].
    - exists rf, []. unfold received. rewrite En, Ed, app_nil_r. split_and!; try done. constructor.
    - pose proof (received_acts _ _ _ _ _ _ i Hacts) as Hrec. pose proof (proj1 Hacts) as Hn.
      destruct (decide (j = i)) as [->|Hne]; [by rewrite Hre in Hna|].
      exists rf, []. split_and!; [by rewrite Hn, lookup_insert_ne|done|constructor]. }
  destruct (IH c1 s1 V1 L1 c' rf1 R1 Hadm Hr Hnr Hi1) as (rf2 & ms2 & Hi2 & Hms2 & Hio2).
  exists rf2, (ms1 ++ ms2). split_and!; [done|by rewrite Hms2, Hms1, app_assoc|by eapply in_order_app].
Qed.

(** * Reading the channel

    The handlers release [rf.mu] before they send.  A snapshot is sent by the
    goroutine of its own RPC, commands are sent one after the other by the goroutine
    of [apply].  Of the messages [q] that were handed to these goroutines and not yet
    read, oldest first, the service may therefore read a snapshot at any time, and a
    command when all older commands have been read. *)
Definition sendable (q : list (ApplyMsg Cmd)) (k : nat) : bool :=
  match q !! k with
  | Some m => SnapshotValid m || forallb SnapshotValid (take k q)
  | None => false
  end.

(** The service reads the [k]-th unread message, for each [k] of [ks] in turn: what
    it has read and what is left. *)
Fixpoint read_all (ks : list nat) (q : list (ApplyMsg Cmd)) : option (list (ApplyMsg Cmd) * list (ApplyMsg Cmd)) :=
  match ks with
  | [] => Some ([], q)
  | k :: ks =>
      if sendable q k then
        m ← q !! k;
        '(rd, rest) ← read_all ks (delete k q);
        Some (m :: rd, rest)
      else None
  end.

(** The indices of the commands among messages. *)
Definition cmd_indices (ms : list (ApplyMsg Cmd)) : list Z :=
  omap (fun m => if CommandValid m then Some (CommandIndex m) else None) ms.

Lemma cmd_indices_app ms ms' : cmd_indices (ms ++ ms') = cmd_indices ms ++ cmd_indices ms'.
Proof. apply omap_app. Qed.

Lemma elem_of_cmd_indices x ms : x ∈ cmd_indices ms <-> exists m, m ∈ ms /\ CommandValid m = true /\ CommandIndex m = x.
Proof.
  unfold cmd_indices. rewrite list_elem_of_omap. split.
  - intros (m & Hm & Hx). exists m. destruct (CommandValid m); [|done]. by injection Hx.
  - intros (m & Hm & Hv & <-). exists m. by rewrite Hv.
Qed.

(** A message is a command or a snapshot. *)
Definition proper (m : ApplyMsg Cmd) : Prop := CommandValid m = negb (SnapshotValid m).

Lemma in_order_proper a ms b : in_order a ms b -> Forall proper ms.
Proof. induction 1; by constructor. Qed.

Lemma snapshots_no_commands ms : Forall proper ms -> forallb SnapshotValid ms = true -> cmd_indices ms = [].
Proof.
  induction 1 as [|m ms Hm _ IH]; [done|]. simpl. intros [Hs Hr]%andb_prop. unfold cmd_indices in *. simpl.
  rewrite Hm, Hs. simpl. auto.
Qed.

(** A read takes the first command or leaves the commands alone. *)
Lemma sendable_commands q k m : Forall proper q -> sendable q k = true -> q !! k = Some m ->
  cmd_indices q = cmd_indices [m] ++ cmd_indices (delete k q).
Proof.
  intros Hp Hs Hm. unfold sendable in Hs. rewrite Hm in Hs.
  rewrite <- (take_drop_middle q k m Hm) in Hp |- * at 1. rewrite delete_take_drop, !cmd_indices_app.
  apply Forall_app in Hp as [Hp1 Hp2]. change (m :: drop (S k) q) with ([m] ++ drop (S k) q). rewrite cmd_indices_app.
  apply orb_prop in Hs as [Hs|Hs].
  - apply Forall_cons in Hp2 as [Hm' _]. unfold cmd_indices at 2 4. simpl. by rewrite Hm', Hs.
  - by rewrite (snapshots_no_commands _ Hp1 Hs).
Qed.

Lemma read_all_commands ks : forall q rd rest, Forall proper q -> read_all ks q = Some (rd, rest) ->
  rd ++ rest ≡ₚ q /\ cmd_indices q = cmd_indices rd ++ cmd_indices rest.
Proof.
  induction ks as [|k ks IH]; intros q rd rest Hp Hr; simpl in Hr; [by injection Hr as <- <-|].
  destruct (sendable q k) eqn:Hs; [|done]. apply bind_Some in Hr as (m & Hm & Hr).
  apply bind_Some in Hr as ([rd' rest'] & Hr & E). injection E as <- <-.
  pose proof (delete_Permutation q k m Hm) as HP.
  destruct (IH (delete k q) rd' rest') as [IH1 IH2]; [rewrite HP in Hp; by apply Forall_cons in Hp as [_ ?]|done|].
  split; [by rewrite HP; simpl; constructor|].
  rewrite (sendable_commands q k m Hp Hs Hm), IH2. change (m :: rd') with ([m] ++ rd'). by rewrite cmd_indices_app, app_assoc.
Qed.

(** Reading the oldest message each time. *)
Lemma read_all_in_order len : forall q rd rest, read_all (replicate len 0%nat) q = Some (rd, rest) -> q = rd ++ rest.
Proof.
  induction len as [|len IH]; intros q rd rest Hr; simpl in Hr; [by injection Hr as <- <-|].
  destruct (sendable q 0); [|done]. apply bind_Some in Hr as (m & Hm & Hr). apply bind_Some in Hr as ([rd' rest'] & Hr & E).
  injection E as <- <-. destruct q as [|m' q]; [done|]. injection Hm as ->. simpl in *. f_equal. by apply IH.
Qed.

Lemma in_order_index a ms b m : in_order a ms b -> m ∈ ms -> a < msg_index m <= b.
Proof.
  induction 1 as [a|a cmd t ms b Hio IH|a data t j ms b Hj Hio IH]; intros Hm; [by apply elem_of_nil in Hm|..];
    pose proof (in_order_le _ _ _ Hio); apply elem_of_cons in Hm as [->|Hm]; unfold msg_index in *; simpl in *; try lia;
    specialize (IH Hm); lia.
Qed.

(** In messages in order the indices of the commands increase, and what is missing
    before a command is covered by an earlier snapshot. *)
Lemma in_order_indices a ms b : in_order a ms b ->
  StronglySorted Z.lt (cmd_indices ms) /\ Forall (fun k => a < k <= b) (cmd_indices ms).
Proof.
  induction 1 as [a|a cmd t ms b Hio [IH1 IH2]|a data t j ms b Hj Hio [IH1 IH2]]; [split; constructor|..].
  - pose proof (in_order_le _ _ _ Hio). unfold cmd_indices in *. simpl. split; constructor; try done; try lia.
    all: eapply Forall_impl; [done|intros; simpl in *; lia].
  - split; [done|]. eapply Forall_impl; [done|intros; simpl in *; lia].
Qed.

Lemma in_order_gap a ms b : in_order a ms b -> forall x k, a < x -> x < k -> k ∈ cmd_indices ms ->
  x ∈ cmd_indices ms \/ exists m, m ∈ ms /\ SnapshotValid m = true /\ x <= SnapshotIndex m.
Proof.
  induction 1 as [a|a cmd t ms b Hio IH|a data t j ms b Hj Hio IH]; intros x k Hx Hk Hin; [by apply elem_of_nil in Hin|..].
  - unfold cmd_indices in *. simpl in *. apply elem_of_cons in Hin as [->|Hin]; [lia|].
    destruct (decide (x = a + 1)) as [->|Hne]; [left; by left|].
    destruct (IH x k) as [?|(m & ? & ?)]; [lia|lia|done|left; by right|right; exists m; split; [by right|done]].
  - destruct (decide (x <= j)) as [Hle|Hgt]; [right; eexists; split; [by left|done]|].
    destruct (IH x k) as [?|(m & ? & ?)]; [lia|lia|done|by left|right; exists m; split; [by right|done]].
Qed.

(** * One log for all services *)

Definition taken (acts : list (Action Cmd)) : snaps := concat (taken_by <$> acts).

Lemma origin_mono c P P' K K' : P ⊆ P' -> K ⊆ K' -> origin c P K -> origin c P' K'.
Proof.
  intros HP HK [Hn Hr Hm]. split.
  - intros i rf Hi. eapply stems_mono; [done|done|]. by eapply Hn.
  - intros m Hx. eapply rpc_stems_mono; [done|done|]. by apply Hr.
  - intros m Hx. eapply msg_stems_mono; [done|done|]. by apply Hm.
Qed.

Lemma run_origin acts : forall c s V L P K c',
  Rel n c s V L -> origin c P K -> admissible_run acts c = true -> run acts c = Some c' ->
  exists P', origin c' P' (K ++ taken acts).
Proof.
  induction acts as [|a acts IH]; intros c s V L P K c' R O Hadm Hr; simpl in *.
  { injection Hr as <-. exists P. eapply origin_mono; [done| |done]. set_solver. }
  apply andb_prop in Hadm as [Ha Hadm]. apply bind_Some in Hr as (c1 & He & Hr). rewrite He in Hadm.
  destruct (exec_simulated n c s V L a c1 R Ha He) as (s1 & V1 & L1 & _ & R1).
  destruct (IH c1 s1 V1 L1 _ _ c' R1 (exec_origin c s V L P K a c1 R O He) Hadm Hr) as [P' O'].
  exists P'. eapply origin_mono; [done| |done]. unfold taken. csimpl. set_solver.
Qed.

Lemma admissible_split acts1 acts2 : forall c c1,
  admissible_run (acts1 ++ acts2) c = true -> run acts1 c = Some c1 ->
  admissible_run acts1 c = true /\ admissible_run acts2 c1 = true.
Proof.
  induction acts1 as [|a acts1 IH]; intros c c1 Hadm Hr; simpl in *; [by injection Hr as <-|].
  apply andb_prop in Hadm as [Ha Hadm]. apply bind_Some in Hr as (c0 & He & Hr). rewrite He in *.
  destruct (IH c0 c1 Hadm Hr) as [H1 H2]. by rewrite Ha, H1.
Qed.

(** Chosen prefixes of leaders' logs. *)
Definition chosen_log s l : Prop :=
  l = [] \/ exists S j lS, chosen n s S j /\ elog s !! S = Some lS /\ l = upto lS j.
Definition chosen_to s (x : Z) : Prop := x <= 0 \/ exists S j, chosen n s S j /\ x <= j.

Lemma chosen_log_cover s (xs : list Z) : spec_inv n s -> (forall x, x ∈ xs -> chosen_to s x) ->
  exists l, chosen_log s l /\ forall x, x ∈ xs -> x <= zlen l.
Proof.
  intros I. induction xs as [|x xs IH]; intros Hxs.
  { exists []. split; [by left|]. by intros x ?%elem_of_nil. }
  destruct IH as (l & Hl & Hle); [intros y Hy; apply Hxs; by right|]. pose proof (zlen_nonneg l).
  destruct (decide (x <= zlen l)) as [Hx|Hx].
  { exists l. split; [done|]. intros y [->|Hy]%elem_of_cons; [done|by apply Hle]. }
  destruct (Hxs x) as [?|(S & j & Hch & Hj)]; [by left|lia|].
  destruct (led_in n s I _ _ (proj1 Hch)) as (lS & HlS & Hz & _).
  exists (upto lS j). split; [right; by exists S, j, lS|]. rewrite zlen_upto by lia.
  intros y [->|Hy%Hle]%elem_of_cons; lia.
Qed.

Lemma chosen_log_agree s l S j lS i : spec_inv n s -> chosen_log s l ->
  chosen n s S j -> elog s !! S = Some lS -> i <= j -> i <= zlen l -> upto l i = upto lS i.
Proof.
  intros I [->|(S' & j' & lS' & Hch' & HlS' & ->)] Hch HlS Hj Hi.
  { change (zlen []) with 0 in Hi. unfold upto. by replace (Z.to_nat i) with O by lia. }
  destruct (led_in n s I _ _ (proj1 Hch')) as (l0 & Hl0 & Hz & _). assert (l0 = lS') as -> by congruence.
  rewrite zlen_upto in Hi by lia. rewrite upto_upto by lia. by apply (chosen_agree n s I S' j' S j); try done; lia.
Qed.

(** What a service at position [a] of the log [l] may be fed; [K] are the
    snapshots that have been taken. *)
Inductive fed (l : list (LogEntry Cmd)) (K : snaps) : Z -> list (ApplyMsg Cmd) -> Z -> Prop :=
| fed_nil a : fed l K a [] a
| fed_cmd a e cmd ms b :
    l.[a] = Some e -> Command e = Some cmd -> fed l K (a + 1) ms b ->
    fed l K a (mkApplyMsg true (Some cmd) (a + 1) (Term e) false [] 0 0 :: ms) b
| fed_snap a data j ms b :
    a < j <= zlen l -> (j, data) ∈ K -> fed l K j ms b ->
    fed l K a (mkApplyMsg false None 0 0 true data (tm l j) j :: ms) b.

Lemma in_order_fed s l P K a ms b : spec_inv n s -> chosen_log s l ->
  in_order a ms b -> 0 <= a ->
  (forall m, m ∈ ms -> msg_stems P K m /\ msg_index m <= zlen l /\ exists i, msg_rel n s (i, m)) ->
  fed l K a ms b.
Proof.
  intros I Hl Hio. induction Hio as [a|a cmd t ms b _ IH|a data t j ms b Haj _ IH]; intros Ha Hms; [constructor|..].
  - destruct (Hms (mkApplyMsg true cmd (a + 1) t false [] 0 0)) as (Hst & Hidx & i & Hrel & _); [by left|].
    unfold msg_index in Hidx. simpl in Hidx. destruct (Hrel eq_refl) as (S & j & lS & Hch & HlS & Hj & e & He & Ec & Et).
    simpl in Et, Hj, He, Ec. replace (a + 1 - 1) with a in He by lia.
    assert (l.[a] = Some e) as Hle.
    { rewrite <- He, index_upto by lia. rewrite <- (index_upto l (a + 1)), <- (index_upto lS (a + 1)) by lia.
      by rewrite (chosen_log_agree s l S j lS) by (done || lia). }
    destruct Hst as [(cmd' & ? & ? & E & _)|(? & ? & ? & E & _)]; [|done]. injection E as -> _ _. rewrite Et.
    apply (fed_cmd l K a e); [done|congruence|]. apply IH; [lia|]. intros m Hm. apply Hms. by right.
  - destruct (Hms (mkApplyMsg false None 0 0 true data t j)) as (Hst & Hidx & i & _ & Hrel); [by left|].
    unfold msg_index in Hidx. simpl in Hidx. destruct (Hrel eq_refl) as (S & k & lS & Hch & HlS & Hj & Ht).
    simpl in Ht, Hj. assert (t = tm l j) as ->.
    { rewrite Ht, tm_upto by lia. rewrite <- (tm_upto lS j j), <- (tm_upto l j j) by lia.
      by rewrite (chosen_log_agree s l S k lS) by (done || lia). }
    destruct Hst as [(? & ? & ? & E & _)|(data' & t' & j' & E & HK)]; [done|]. injection E as <- _ <-.
    apply fed_snap; [lia|done|]. apply IH; [lia|]. intros m Hm. apply Hms. by right.
Qed.

Lemma msg_chosen_to s i m : msg_rel n s (i, m) -> CommandValid m = true \/ SnapshotValid m = true ->
  chosen_to s (msg_index m).
Proof.
  intros Hm Hv. destruct (msg_chosen n s (i, m) Hm Hv) as (S & j & lS & ? & _ & ? & _).
  right. exists S, j. simpl in *. split; [done|lia].
Qed.

Lemma msg_stems_valid P K m : msg_stems P K m -> CommandValid m = true \/ SnapshotValid m = true.
Proof. intros [(? & ? & ? & -> & _)|(? & ? & ? & -> & _)]; [by left|by right]. Qed.

Lemma one_log c s V L P K : Rel n c s V L -> origin c P K ->
  exists l, chosen_log s l /\ (forall im, im ∈ delivered c -> msg_index im.2 <= zlen l) /\
    (forall i rf, nodes c !! i = Some rf -> commitIndex rf <= zlen l).
Proof.
  intros R O. destruct (chosen_log_cover s (((fun im => msg_index im.2) <$> delivered c) ++
    ((fun p => commitIndex p.2) <$> map_to_list (nodes c)))) as (l & Hl & Hcov); [apply R| |].
  - intros x [(im & -> & Him)%list_elem_of_fmap|(p & -> & Hp)%list_elem_of_fmap]%elem_of_app.
    + destruct im as [i m]. apply (msg_chosen_to s i); [by apply R|]. eapply msg_stems_valid. by apply (or_msg _ _ _ O (i, m)).
    + destruct p as [i rf]. apply elem_of_map_to_list in Hp.
      destruct (n_commit _ _ _ _ _ (r_node _ _ _ _ _ R i rf Hp)) as [_ [E|(S & j & lS & ? & _ & ? & _)]];
        [left; simpl; lia|right; by exists S, j].
  - exists l. split_and!; [done|intros im Him|intros i rf Hi]; apply Hcov, elem_of_app; [left|right].
    + apply list_elem_of_fmap. by exists im.
    + apply list_elem_of_fmap. exists (i, rf). split; [done|]. by apply elem_of_map_to_list.
Qed.

Lemma elem_of_received i c m : m ∈ received i c -> (i, m) ∈ delivered c.
Proof. intros ([j m'] & Hd & Hm)%list_elem_of_omap. case_decide; [|done]. by simplify_eq. Qed.

Lemma elem_of_received' i c m : (i, m) ∈ delivered c -> m ∈ received i c.
Proof. intros Hd. apply list_elem_of_omap. exists (i, m). split; [done|]. by rewrite decide_True. Qed.

(** ** The queue of a channel

    Of the messages peer [i] has posted, [q_seen] are accounted for, and [q_left] of
    these have not been read. *)
Record Queue := mkQueue { q_seen : nat; q_left : list (ApplyMsg Cmd) }.

Definition unread (i : Z) (q : Queue) c : list (ApplyMsg Cmd) := q_left q ++ drop (q_seen q) (received i c).
(** The queue of a new instance, and after the [k]-th unread message was read. *)
Definition new_queue (i : Z) c : Queue := mkQueue (length (received i c)) [].
Definition read_queue (i : Z) (q : Queue) (k : nat) c : Queue :=
  mkQueue (length (received i c)) (delete k (unread i q c)).

Definition queue_ok (i : Z) (q : Queue) c : Prop :=
  (q_seen q <= length (received i c))%nat /\ forall m, m ∈ unread i q c -> m ∈ received i c.

(** What is posted comes last. *)
Lemma queue_posted i q c c' ms : queue_ok i q c -> received i c' = received i c ++ ms ->
  queue_ok i q c' /\ unread i q c' = unread i q c ++ ms.
Proof.
  intros [Hle Hin] Hr. assert (unread i q c' = unread i q c ++ ms) as Hu by (unfold unread; by rewrite Hr, drop_app_le, app_assoc).
  split; [|done]. split; [rewrite Hr, length_app; lia|]. intros m. rewrite Hu, Hr, !elem_of_app. intros [?|?]; auto.
Qed.

Lemma queue_same i q c c' : queue_ok i q c -> received i c' = received i c -> queue_ok i q c' /\ unread i q c' = unread i q c.
Proof. intros Hq Hr. unfold queue_ok, unread in *. by rewrite Hr. Qed.

Lemma unread_read i q k c : unread i (read_queue i q k c) c = delete k (unread i q c).
Proof. unfold unread at 1. simpl. by rewrite drop_all, app_nil_r. Qed.
Lemma unread_new i c : unread i (new_queue i c) c = [].
Proof. unfold unread. simpl. by rewrite drop_all. Qed.

Lemma queue_read i q k c : queue_ok i q c -> queue_ok i (read_queue i q k c) c.
Proof.
  intros [_ Hin]. split; [done|]. rewrite unread_read. intros m Hm. by eapply Hin, list_elem_of_delete_inv.
Qed.
Lemma queue_new i c : queue_ok i (new_queue i c) c.
Proof. split; [done|]. rewrite unread_new. by intros m ?%elem_of_nil. Qed.

(** The contract between the states [c1] and [c2] of a run in which the snapshots
    [K] were taken and the actions [acts] lead from [c1] to [c2]. *)
Definition contract (acts : list (Action Cmd)) (K : snaps) c1 c2 l : Prop :=
  forall i rf1, nodes c1 !! i = Some rf1 ->
    forallb (fun a => negb (restarts i a)) acts = true ->
    exists rf2 ms, nodes c2 !! i = Some rf2 /\ received i c2 = received i c1 ++ ms /\
      fed l K (lastApplied rf1) ms (lastApplied rf2) /\
      0 <= lastApplied rf1 <= lastApplied rf2 /\ lastApplied rf2 <= zlen l /\
      (firstIdx (log rf1) = 0 /\ ReadSnapshot (persister rf1) = [] \/
       (firstIdx (log rf1), ReadSnapshot (persister rf1)) ∈ K).

Lemma contract_holds now acts1 acts2 c1 c2 :
  admissible_run (acts1 ++ acts2) (cluster_init n now) = true ->
  run acts1 (cluster_init n now) = Some c1 -> run acts2 c1 = Some c2 ->
  exists l, contract acts2 (taken (acts1 ++ acts2)) c1 c2 l.
Proof.
  intros Hadm Hr1 Hr2. destruct (admissible_split _ _ _ _ Hadm Hr1) as [Ha1 Ha2].
  destruct (run_simulated n acts1 _ _ _ _ c1 (init_rel n now) Ha1 Hr1) as (s1 & V1 & L1 & _ & R1).
  destruct (run_simulated n acts2 _ _ _ _ c2 R1 Ha2 Hr2) as (s2 & V2 & L2 & _ & R2).
  destruct (run_origin acts1 _ _ _ _ _ _ c1 (init_rel n now) (init_origin now) Ha1 Hr1) as [P1 O1].
  destruct (run_origin acts2 _ _ _ _ _ _ c2 R1 O1 Ha2 Hr2) as [P2 O2]. simpl in O1, O2.
  assert (taken (acts1 ++ acts2) = taken acts1 ++ taken acts2) as EK.
  { unfold taken. by rewrite fmap_app, concat_app. }
  rewrite <- EK in O2.
  destruct (one_log c2 s2 V2 L2 _ _ R2 O2) as (l & Hl & Hmsg & Hcom).
  exists l. intros i rf1 Hi Hnr.
  destruct (run_fed acts2 i c1 s1 V1 L1 c2 rf1 R1 Ha2 Hr2 Hnr Hi) as (rf2 & ms & Hi2 & Hms & Hio).
  exists rf2, ms. pose proof (n_ok _ _ _ _ _ (r_node _ _ _ _ _ R1 i rf1 Hi)) as Ok1.
  pose proof (ok_applied _ (n_ok _ _ _ _ _ (r_node _ _ _ _ _ R2 i rf2 Hi2))). pose proof (Hcom i rf2 Hi2).
  pose proof (ok_first _ Ok1). pose proof (ok_applied _ Ok1). pose proof (in_order_le _ _ _ Hio).
  split_and!; try done; try lia.
  - apply (in_order_fed s2 l P2); [apply R2|done|done|lia|].
    intros m Hm. assert ((i, m) ∈ delivered c2) as Hd.
    { apply elem_of_received. rewrite Hms. apply elem_of_app. by right. }
    split_and!; [by apply (or_msg _ _ _ O2 (i, m))|by apply (Hmsg (i, m))|exists i; by apply R2].
  - destruct (or_node _ _ _ O1 i rf1 Hi) as [_ [?|?]]; [by left|right]. rewrite EK. set_solver.
Qed.

(** ** What a service reads *)

Lemma fed_in_order l K a ms b : fed l K a ms b -> in_order a ms b.
Proof. induction 1; constructor; (done || lia). Qed.

Lemma fed_prefix l K a ms1 ms2 b : fed l K a (ms1 ++ ms2) b -> exists b1, fed l K a ms1 b1.
Proof.
  revert a. induction ms1 as [|m ms1 IH]; intros a Hf; [exists a; constructor|].
  inversion Hf; subst; (edestruct IH as [b1 ?]; [done|exists b1; econstructor; done]).
Qed.

(** A command of the log at its index, or a snapshot that was taken at its index. *)
Definition from_log l (K : snaps) a (m : ApplyMsg Cmd) : Prop :=
  (exists e cmd, a < CommandIndex m /\ l.[CommandIndex m - 1] = Some e /\ Command e = Some cmd /\
     m = mkApplyMsg true (Some cmd) (CommandIndex m) (Term e) false [] 0 0) \/
  (exists data, a < SnapshotIndex m <= zlen l /\ (SnapshotIndex m, data) ∈ K /\
     m = mkApplyMsg false None 0 0 true data (tm l (SnapshotIndex m)) (SnapshotIndex m)).

Lemma fed_from_log l K a ms b : fed l K a ms b -> Forall (from_log l K a) ms.
Proof.
  induction 1 as [a|a e cmd ms b He Hc Hf IH|a data j ms b Hj Hin Hf IH]; [constructor|..]; constructor.
  - left. exists e, cmd. simpl. replace (a + 1 - 1) with a by lia. split_and!; try done. lia.
  - eapply Forall_impl; [done|]. intros m [(e' & cmd' & ? & ?)|(data & ? & ?)]; [left|right]; [exists e', cmd'|exists data]; split; (done || lia).
  - right. by exists data.
  - eapply Forall_impl; [done|]. intros m [(e' & cmd' & ? & ?)|(data' & ? & ?)]; [left|right]; [exists e', cmd'|exists data']; split; (done || lia).
Qed.

(** A service has read [rd] of the messages [ms] its peer has posted since it was at
    position [a] of the log [l]. *)
Record served l (K : snaps) a (ms rd : list (ApplyMsg Cmd)) : Prop := {
  sv_content : Forall (from_log l K a) rd;
  sv_sorted : StronglySorted Z.lt (cmd_indices rd);
  sv_gap : forall k x, k ∈ cmd_indices rd -> a < x < k ->
    x ∈ cmd_indices rd \/ exists m, m ∈ ms /\ SnapshotValid m = true /\ x <= SnapshotIndex m
}.

Lemma sorted_app_l (xs ys : list Z) : StronglySorted Z.lt (xs ++ ys) ->
  StronglySorted Z.lt xs /\ forall x y, x ∈ xs -> y ∈ ys -> x < y.
Proof.
  induction xs as [|x xs IH]; simpl; intros Hs; [split; [constructor|by intros x y ?%elem_of_nil]|].
  apply StronglySorted_inv in Hs as [Hs Hx]. destruct (IH Hs) as [IH1 IH2]. apply Forall_app in Hx as [Hx1 Hx2].
  split; [by constructor|]. intros z y [->|Hz]%elem_of_cons Hy; [rewrite Forall_forall in Hx2; by apply Hx2|by apply IH2].
Qed.

Lemma sorted_app (xs ys : list Z) : StronglySorted Z.lt xs -> StronglySorted Z.lt ys ->
  (forall x y, x ∈ xs -> y ∈ ys -> x < y) -> StronglySorted Z.lt (xs ++ ys).
Proof.
  induction xs as [|x xs IH]; intros Hxs Hys Hlt; simpl; [done|]. apply StronglySorted_inv in Hxs as [Hxs Hx]. constructor.
  - apply IH; [done|done|]. intros y z Hy. apply Hlt. by right.
  - apply Forall_app. split; [done|]. apply Forall_forall. intros y. apply Hlt. by left.
Qed.

Lemma fed_served l K a ms b ks rd rest : fed l K a ms b -> read_all ks ms = Some (rd, rest) -> served l K a ms rd.
Proof.
  intros Hf Hr. pose proof (fed_in_order _ _ _ _ _ Hf) as Hio.
  destruct (read_all_commands ks ms rd rest (in_order_proper _ _ _ Hio) Hr) as [HP Hc].
  destruct (in_order_indices _ _ _ Hio) as [Hs _]. rewrite Hc in Hs. destruct (sorted_app_l _ _ Hs) as [Hs1 Hlt].
  split; [|done|].
  - pose proof (fed_from_log _ _ _ _ _ Hf) as Hall. rewrite <- HP in Hall. by apply Forall_app in Hall as [? _].
  - intros k x Hk Hx. destruct (in_order_gap _ _ _ Hio x k) as [Hin|?]; [lia|lia| |left|by right].
    { rewrite Hc. apply elem_of_app. by left. }
    rewrite Hc in Hin. apply elem_of_app in Hin as [?|Hin]; [done|]. specialize (Hlt k x Hk Hin). lia.
Qed.

(** C7. The contract with the services: the services of all peers are fed from one
    log.  Take two states of a run in which replication goroutines find the term they
    captured and services take snapshots at indices they were handed
    ([admissible_run]), and a peer that does not restart between them.  What
    the peer posts on its channel in between moves along that log, from the position
    it had applied: its commands at their indices without gaps, or jumps with a
    snapshot that a service handed to [Snapshot] at exactly that index; the snapshot
    the peer would restart from is such a snapshot too.  The messages are sent after
    [rf.mu] is released, and in whatever order the sends let the service read them,
    it reads only these commands and snapshots, the commands by increasing index and
    each at most once, and an index it skips is covered by a posted snapshot; if no
    send is overtaken, it reads them without gaps. *)
Theorem services_follow_one_log now acts1 acts2 c1 c2 :
  admissible_run (acts1 ++ acts2) (cluster_init n now) = true ->
  run acts1 (cluster_init n now) = Some c1 -> run acts2 c1 = Some c2 ->
  exists l, contract acts2 (taken (acts1 ++ acts2)) c1 c2 l /\
    forall i rf1 ms ks rd rest, nodes c1 !! i = Some rf1 -> forallb (fun a => negb (restarts i a)) acts2 = true ->
      received i c2 = received i c1 ++ ms -> read_all ks ms = Some (rd, rest) ->
      served l (taken (acts1 ++ acts2)) (lastApplied rf1) ms rd /\
      (Forall (eq 0%nat) ks -> exists b, fed l (taken (acts1 ++ acts2)) (lastApplied rf1) rd b).
Proof.
  intros Hadm Hr1 Hr2. destruct (contract_holds now acts1 acts2 c1 c2 Hadm Hr1 Hr2) as [l Hc]. exists l. split; [done|].
  intros i rf1 ms ks rd rest Hi Hnr Hms Hrd. destruct (Hc i rf1 Hi Hnr) as (rf2 & ms' & _ & Hms' & Hf & _).
  assert (ms' = ms) as -> by (rewrite Hms in Hms'; by apply app_inv_head in Hms'). split; [by eapply fed_served|].
  intros Hks. rewrite <- (replicate_as_Forall_2 0%nat _ ks eq_refl Hks) in Hrd. rewrite (read_all_in_order _ _ _ _ Hrd) in Hf. by eapply fed_prefix.
Qed.

(** * Entries are identified by index and term *)

(** A delivered command of term [t] is the entry of the leader of term [t]. *)
Lemma delivered_entry s im t l :
  spec_inv n s -> msg_rel n s im -> CommandValid im.2 = true -> CommandTerm im.2 = t -> elog s !! t = Some l ->
  exists e, l.[CommandIndex im.2 - 1] = Some e /\ amCommand im.2 = Command e.
Proof.
  intros I [Hm _] Hv Ht Hl. destruct (Hm Hv) as (S & j & lS & Hch & HlS & Hj & e & He & Hc & Hte).
  exists e. split; [|done]. apply upto_entry in He. destruct (v_elog _ _ I _ _ HlS) as [Hg _].
  destruct (Hg _ _ He) as (_ & _ & l' & Hl' & Hp). assert (l' = l) as -> by congruence.
  replace (CommandIndex im.2 - 1 + 1) with (CommandIndex im.2) in Hp by lia.
  pose proof (go_index_Some_lt _ _ _ He). rewrite <- (index_prefix _ _ _ Hp) by (rewrite zlen_upto; lia).
  by rewrite index_upto by lia.
Qed.

Lemma start_entry s L i rf rf' command eff idx t :
  spec_inv n s -> node_ok rf -> Start command rf = Some (rf', (idx, t, true), eff) -> node_rel n s L i rf' ->
  exists l, elog s !! t = Some l /\ l.[idx - 1] = Some (mkLogEntry (Some command) t idx).
Proof.
  intros I Hok Hs N. unfold Start in Hs.
  destruct (decide (state rf <> Leader)) as [|Hl%dec_stable]; [done|].
  rewrite getNextIndex_wf in Hs by apply Hok. simpl in Hs.
  apply bind_Some in Hs as (last & Hlast & Hs). injection Hs as <- -> <- <-.
  set (e := mkLogEntry (Some command) (currentTerm rf) (nextIdx (log rf))) in *.
  unfold getLastIndex in Hlast. simpl in Hlast. pose proof (zlen_nonneg (log rf)).
  assert (zlen (log rf ++ [e]) = zlen (log rf) + 1) as Hz by apply zlen_snoc.
  change (log (persist (set_log (log rf ++ [e]) rf))) with (log rf ++ [e]) in Hlast.
  assert ((log rf ++ [e]).[zlen (log rf ++ [e]) - 1] = Some e) as He.
  { rewrite go_index_app_r by lia. by replace (zlen (log rf ++ [e]) - 1 - zlen (log rf)) with 0 by lia. }
  rewrite He in Hlast. simpl in Hlast. injection Hlast as <-.
  destruct (leader_rep n s L i _ I N Hl) as (f & Hf & Hreal & Hel & _ & _ & _ & En).
  exists (plog (peer s i)). split; [done|].
  change (log (persist (set_log (log rf ++ [e]) rf))) with (log rf ++ [e]) in *.
  pose proof (rep_first _ _ _ Hf) as E1. pose proof (first_real _ _ _ Hf).
  rewrite <- Hreal, <- (rep_entry _ _ _ Hf).
  - unfold entry_at. unfold nextIdx at 1. rewrite firstIdx_app by apply Hok.
    replace (firstIdx (log rf) + zlen (log rf) - firstIdx (log rf)) with (zlen (log rf ++ [e]) - 1) by lia. done.
  - rewrite <- E1, firstIdx_app by apply Hok. unfold nextIdx. pose proof (log_wf_zlen _ (ok_log _ Hok)). lia.
Qed.

(** C8. [Start] identifies its command: when, in an admissible run, a leader answered
    [Start] with an index and a term, any command that any peer ever delivers with this
    index and term is that command.  This is what lets a handler that waits for the index
    recognise its own operation by the term alone. *)
Theorem start_identifies_command now acts1 acts2 c1 c2 i rf rf' command idx t eff j m :
  admissible_run (acts1 ++ AStart i command :: acts2) (cluster_init n now) = true ->
  run acts1 (cluster_init n now) = Some c1 -> nodes c1 !! i = Some rf ->
  Start command rf = Some (rf', (idx, t, true), eff) ->
  run (AStart i command :: acts2) c1 = Some c2 ->
  (j, m) ∈ delivered c2 -> CommandValid m = true -> CommandIndex m = idx -> CommandTerm m = t ->
  amCommand m = Some command.
Proof.
  intros Hadm Hr1 Hi Hs Hr2 Hd Hv Hidx Ht. destruct (admissible_split _ _ _ _ Hadm Hr1) as [Ha1 Ha2].
  destruct (run_simulated n acts1 _ _ _ _ c1 (init_rel n now) Ha1 Hr1) as (s1 & V1 & L1 & _ & R1).
  cbn [admissible_run] in Ha2. apply andb_prop in Ha2 as [_ Ha2].
  cbn [run] in Hr2. apply bind_Some in Hr2 as (c1' & He & Hr2). rewrite He in Ha2.
  destruct (exec_simulated n c1 s1 V1 L1 (AStart i command) c1' R1 eq_refl He) as (s1' & V1' & L1' & _ & R1').
  destruct (run_simulated n acts2 _ _ _ _ c2 R1' Ha2 Hr2) as (s2 & V2 & L2 & Hs2 & R2).
  assert (nodes c1' !! i = Some rf') as Hi'.
  { simpl in He. rewrite Hi in He. simpl in He. rewrite Hs in He. injection He as <-. apply lookup_insert_eq. }
  destruct (start_entry s1' L1' i rf rf' command eff idx t) as (l & Hl & Hcmd); try done;
    [apply R1'|by apply (r_node _ _ _ _ _ R1 i)|by apply R1'|].
  pose proof (spec_steps_evolve n s1' s2 (r_spec _ _ _ _ _ R1') Hs2) as E.
  destruct (gr_elog _ _ (ev_grows _ _ E) _ _ Hl) as (l2 & Hl2 & Hp).
  destruct (delivered_entry s2 (j, m) t l2) as (e & Hle & Hc); try done; [apply R2|by apply R2|].
  simpl in *. pose proof (go_index_Some_lt _ _ _ Hcmd).
  rewrite (index_prefix _ _ _ Hp) in Hcmd by lia. rewrite Hidx, Hcmd in Hle. injection Hle as <-. done.
Qed.
End services.
Arguments Queue : clear implicits.
