(* ===== verification/RaftWitness.v ===== *)
(** Concrete runs of the Raft layer: each hypothesis of the properties of
    [RaftSpec] and [RaftElection] holds in a state that a three-peer cluster
    reaches.  Commands are natural numbers and the codec is [countable_gob]. *)

From S2P Require Import Prelude Gob Persister RaftTypes RaftNode RaftInv RaftSafe.
From S2P Require Import RaftSpec RaftCluster RaftElection.
Local Open Scope Z_scope.

#[local] Instance wit_gob `{Countable A} : Gob A := countable_gob.
#[local] Instance wit_gob_laws `{Countable A} : GobLaws A := countable_gob_laws.

Definition the_node (c : Cluster nat) (i : Z) : Raft nat :=
  default (mkRaft 0 MakePersister 0 0 0 0 [] Dead 0 0 [] [] 0) (nodes c !! i).

(** Peer 0 times out, is elected by peer 1, and starts two commands. *)
Definition elect_acts : list (Action nat) :=
  [ATimer 0 1000 300 0; ADeliver 0 1001; ADeliver 0 1002].
Definition elected : Cluster nat :=
  default (cluster_init 3 0) (run elect_acts (cluster_init 3 0)).
Definition started : Cluster nat :=
  default elected (run [AStart 0 7%nat; AStart 0 8%nat] elected).
Definition ldr : Raft nat := the_node started 0.
Definition flw : Raft nat := the_node started 1.

(** The RPC the leader builds for peer 1 and the follower's answer. *)
Definition the_append (rf : Raft nat) (server : Z) : AppendEntriesArgs nat :=
  match replicate_to server (currentTerm rf) rf with
  | Some (ReplAppend args) => args
  | _ => mkAppendEntriesArgs 0 0 0 0 [] 0
  end.
Definition no_ae : Raft nat * AppendEntriesReply * list (Effect nat) :=
  (ldr, mkAppendEntriesReply 0 false 0 0, []).
Definition answer (args : AppendEntriesArgs nat) (rf : Raft nat) :=
  default no_ae (AppendEntries 1010 args rf).
Definition acked : Raft nat :=
  (default no_ae (r ← handleAppendEntriesRPCResponse 1020 1 (the_append ldr 1)
     (answer (the_append ldr 1) flw).1.2 ldr; Some (r.1.1, mkAppendEntriesReply 0 false 0 0, r.2))).1.1.

Example elected_leader :
  state (the_node elected 0) = Leader /\ currentTerm (the_node elected 0) = 1.
Proof. vm_compute. done. Qed.
Example acked_commit : commitIndex acked = 2.
Proof. vm_compute. done. Qed.

Ltac by_eval := vm_compute; reflexivity.
Ltac ok_eval := apply node_okb_sound; by_eval.
Ltac log_eval := apply log_wfb_sound; by_eval.

Definition fresh0 : Raft nat * list (Effect nat) :=
  default (ldr, []) (Make 3 0 MakePersister 0).
Definition timed_out : Raft nat :=
  default ldr (run_ops [OpElectionTimer 1000 300 0] (fresh0.1)).

Lemma restart_restores_witness :
  exists rf' eff', Make 3 0 (persister timed_out) 2000 = Some (rf', eff') /\
    currentTerm rf' = currentTerm timed_out /\ voteFor rf' = voteFor timed_out /\
    log rf' = log timed_out /\ state rf' = Follower /\
    commitIndex rf' = firstIdx (log timed_out) /\ lastApplied rf' = firstIdx (log timed_out).
Proof.
  apply (restart_restores 3 0 MakePersister 0 2000 [OpElectionTimer 1000 300 0]
           fresh0.1 fresh0.2 timed_out); [by_eval|by_eval|log_eval].
Defined.

Lemma vote_final_witness :
  currentTerm fresh0.1 <= currentTerm timed_out /\
  (currentTerm timed_out = currentTerm fresh0.1 -> voteFor fresh0.1 <> -1 ->
   voteFor timed_out = voteFor fresh0.1).
Proof. apply (vote_final (OpElectionTimer 1000 300 0)). by_eval. Defined.

Lemma operations_never_panic_witness :
  exists rf', run_op (OpAppendEntries 1010 (the_append ldr 1)) flw = Some rf' /\ node_ok rf'.
Proof.
  apply operations_never_panic; [ok_eval|]. split.
  - apply indexed_fromb_sound. by_eval.
  - intros k e t Hk Hle _. exfalso. pose proof (go_index_Some_lt _ _ _ Hk).
    assert (commitIndex flw = 0) as Hc by by_eval.
    assert (aePrevLogIndex (the_append ldr 1) = 0) as Hp by by_eval. lia.
Defined.

Lemma RequestVote_grants_witness :
  exists rf' rep eff,
    RequestVote 1001 (mkRequestVoteArgs 2 2 5 1) flw = Some (rf', rep, eff) /\
    rvrTerm rep = currentTerm rf' /\ currentTerm rf' = Z.max (currentTerm flw) 2 /\
    (rvrVoteGranted rep = true <->
       currentTerm flw <= 2 /\
       (currentTerm flw < 2 \/ voteFor flw = -1 \/ voteFor flw = 2) /\
       up_to_date 0 0 1 5) /\
    (rvrVoteGranted rep = true -> 2 <> -1 ->
       voteFor rf' = 2 /\ (durable flw -> durable rf')).
Proof.
  apply (RequestVote_grants 1001 (mkRequestVoteArgs 2 2 5 1) flw zeroEntry);
    [by_eval || discriminate|log_eval|by_eval].
Defined.

Lemma AppendEntries_merges_witness :
  exists rf' rep eff, AppendEntries 1010 (the_append ldr 1) flw = Some (rf', rep, eff) /\
    (aerSuccess rep = true <->
       state flw <> Dead /\ currentTerm flw <= aeTerm (the_append ldr 1) /\
       term_at (log flw) (aePrevLogIndex (the_append ldr 1)) = Some (aePrevLogTerm (the_append ldr 1))) /\
    (aerSuccess rep = true ->
       log rf' = merge_log (aePrevLogIndex (the_append ldr 1) + 1) (aeEntries (the_append ldr 1)) (log flw) /\
       commitIndex rf' =
         ae_commit (commitIndex flw) (aeLeaderCommit (the_append ldr 1)) (nextIdx (log rf'))) /\
    (aerSuccess rep = false -> log rf' = log flw /\ commitIndex rf' = commitIndex flw).
Proof.
  apply AppendEntries_merges; [log_eval|apply indexed_fromb_sound; by_eval].
Defined.

(** The leader asks a follower with an empty log for index 2. *)
Definition too_far : AppendEntriesArgs nat := mkAppendEntriesArgs 1 0 2 1 [] 0.

Lemma AppendEntries_conflict_hint_witness :
  aerTerm (answer too_far flw).1.2 = 1 /\ aerConflictIndex (answer too_far flw).1.2 <= 2 /\
  ( (aerConflictTerm (answer too_far flw).1.2 = -1 /\
     aerConflictIndex (answer too_far flw).1.2 = nextIdx (log flw))
  \/ ((forall i, aerConflictIndex (answer too_far flw).1.2 <= i <= 2 ->
          term_at (log flw) i = Some (aerConflictTerm (answer too_far flw).1.2)) /\
      (aerConflictIndex (answer too_far flw).1.2 = firstIdx (log flw) \/
       term_at (log flw) (aerConflictIndex (answer too_far flw).1.2 - 1) <>
         Some (aerConflictTerm (answer too_far flw).1.2)))).
Proof.
  apply (AppendEntries_conflict_hint 1010 too_far flw (answer too_far flw).1.1 _ (answer too_far flw).2);
    [discriminate|vm_compute; discriminate|log_eval|vm_compute; discriminate|by_eval|by_eval|].
  apply indexed_fromb_sound; by_eval.
Defined.

Lemma replication_agreement_witness :
  (forall i e, 0 <= i -> entry_at (log ldr) i = Some e ->
     term_at (log (answer (the_append ldr 1) flw).1.1) i = Some (Term e)) /\
  commitIndex (answer (the_append ldr 1) flw).1.1 = Z.max (commitIndex flw) (commitIndex ldr) /\
  (commitIndex flw < commitIndex (answer (the_append ldr 1) flw).1.1 ->
     commitIndex (answer (the_append ldr 1) flw).1.1 <= 0 + zlen (aeEntries (the_append ldr 1))).
Proof.
  apply (replication_agreement 1010 1 1 ldr flw (the_append ldr 1)
    (answer (the_append ldr 1) flw).1.1 (answer (the_append ldr 1) flw).1.2
    (answer (the_append ldr 1) flw).2);
    [ok_eval|vm_compute; split; [discriminate|reflexivity]|log_eval|by_eval|by_eval|by_eval].
Defined.

Lemma commit_rule_witness :
  commitIndex acked = commitIndex ldr \/
  (commitIndex ldr < commitIndex acked /\ state acked = Leader /\
   term_at (log acked) (commitIndex acked) = Some (currentTerm acked) /\
   Z.of_nat (peers acked) < 2 * (1 + zlen (replicas (commitIndex acked) acked))).
Proof.
  apply (commit_rule 1020 1 (the_append ldr 1) (answer (the_append ldr 1) flw).1.2 ldr acked
    false [EffSignal]); [ok_eval|by_eval].
Defined.

(** A leader that wrongly assumed its follower had entry 2. *)
Definition ahead : Raft nat := set_nextIndex [3; 3; 3] ldr.

Lemma retry_decreases_witness :
  exists rf' next,
    handleAppendEntriesRPCResponse 1030 1 (the_append ahead 1)
      (answer (the_append ahead 1) flw).1.2 ahead = Some (rf', true, []) /\
    (nextIndex rf').[1] = Some next /\ next < 3 /\ rf' = set_nextIndex (nextIndex rf') ahead.
Proof.
  apply (retry_decreases 1030 1 (the_append ahead 1) (answer (the_append ahead 1) flw).1.2 ahead 0);
    try by_eval; [ok_eval| |vm_compute; discriminate].
  split; [vm_compute; split; [discriminate|reflexivity]|].
  intros _ _. vm_compute. split; [reflexivity|discriminate].
Defined.

(** A follower that stored both entries, committed and compacted them, while its
    acknowledgements were lost. *)
Definition compacted : Raft nat :=
  default flw (run_ops [OpAppendEntries 1010 (the_append ldr 1);
                        OpAppendEntries 1030 (the_append (set_commitIndex 2 ldr) 1);
                        OpApply; OpSnapshot 2 [Byte.x01]] flw).

Lemma compacted_prefix_ignored_witness :
  exists flw' rep eff,
    AppendEntries 1040 (the_append ldr 1) compacted = Some (flw', rep, eff) /\
    log flw' = log compacted /\
    handleAppendEntriesRPCResponse 1050 1 (the_append ldr 1) rep ldr = Some (ldr, false, []).
Proof.
  apply (compacted_prefix_ignored 1040 1050 1 1 ldr compacted (the_append ldr 1));
    [ok_eval|by_eval|vm_compute; discriminate|vm_compute; discriminate|log_eval|by_eval|by_eval].
Defined.

Lemma apply_in_order_witness :
  exists msgs,
    apply acked = Some (set_lastApplied (commitIndex acked) acked, msgs) /\
    zlen msgs = commitIndex acked - lastApplied acked /\
    forall k m, msgs.[k] = Some m ->
      CommandValid m = true /\ CommandIndex m = lastApplied acked + 1 + k /\
      exists e, entry_at (log acked) (CommandIndex m) = Some e /\
        amCommand m = Command e /\ CommandTerm m = Term e.
Proof. apply apply_in_order; [ok_eval|vm_compute; discriminate]. Defined.

Definition applied2 : Raft nat := set_lastApplied 2 acked.

Lemma Snapshot_compacts_witness :
  exists rf', Snapshot 1 [Byte.x05] applied2 = Some rf' /\
    firstIdx (log rf') = 1 /\ nextIdx (log rf') = nextIdx (log applied2) /\
    (forall i, 1 < i -> entry_at (log rf') i = entry_at (log applied2) i) /\
    term_at (log rf') 1 = term_at (log applied2) 1 /\
    Command <$> entry_at (log rf') 1 = Some None /\
    ReadSnapshot (persister rf') = [Byte.x05] /\ durable rf'.
Proof.
  apply Snapshot_compacts; [ok_eval|vm_compute; split; [reflexivity|discriminate]].
Defined.

Lemma election_safety_witness :
  (run elect_acts (cluster_init 3 0) = Some elected /\
   state (the_node elected 0) = Leader) /\ 0 = 0.
Proof.
  split; [split; by_eval|].
  apply (election_safety (Cmd := nat) 3 0 elect_acts elected 0 0
           (the_node elected 0) (the_node elected 0)); by_eval.
Defined.
