(* ===== verification/RaftRuns.v ===== *)
(** Concrete runs of a whole cluster: states that admissible runs reach, in which
    the hypotheses of the theorems of [RaftSafety] hold, and the run that shows
    why [admissible] is needed.  A script names the RPC it delivers by kind,
    source, destination and term; [play] turns it into actions. *)

From S2P Require Import Prelude Gob Persister RaftTypes RaftNode RaftInv RaftSafe RaftSpec.
From S2P Require Import RaftCluster RaftElection RaftLog RaftRefine RaftSim RaftSafety RaftServices.
From S2P Require Import RaftWitness.
Local Open Scope Z_scope.

#[local] Instance run_gob `{Countable A} : Gob A := countable_gob.
#[local] Instance run_gob_laws `{Countable A} : GobLaws A := countable_gob_laws.

Inductive Kind := VoteReq | VoteRep | Goroutine | AppendReq | AppendRep | InstallReq | InstallRep.

#[local] Instance Kind_eq_dec : EqDecision Kind.
Proof. solve_decision. Defined.

Section scripts.
Context {Cmd : Type} `{Gob Z} `{Gob (list (LogEntry Cmd))}.

Definition label (m : Rpc Cmd) : Kind * Z * Z * Z :=
  match m with
  | RVReq s d args => (VoteReq, s, d, rvTerm args)
  | RVRep s d args _ => (VoteRep, s, d, rvTerm args)
  | Repl s d t => (Goroutine, s, d, t)
  | AEReq s d args => (AppendReq, s, d, aeTerm args)
  | AERep s d args _ => (AppendRep, s, d, aeTerm args)
  | ISReq s d args => (InstallReq, s, d, isTerm args)
  | ISRep s d args _ => (InstallRep, s, d, isTerm args)
  end.

Fixpoint position (x : Kind * Z * Z * Z) (ms : list (Rpc Cmd)) : nat :=
  match ms with
  | [] => 0
  | m :: ms => if decide (label m = x) then 0 else S (position x ms)
  end.

Inductive Move := Do (a : Action Cmd) | Hand (k : Kind) (src dst term : Z).

Fixpoint play (ms : list Move) (c : Cluster Cmd) : list (Action Cmd) :=
  match ms with
  | [] => []
  | m :: ms =>
      let a := match m with
               | Do a => a
               | Hand k src dst term => ADeliver (position (k, src, dst, term) (rpcs c)) 5000
               end in
      a :: match exec a c with Some c' => play ms c' | None => [] end
  end.

(** Peer [i] of term [t - 1] is elected for term [t] by [vs]. *)
Definition elect (i t : Z) (vs : list Z) : list Move :=
  Do (ATimer i (t * 10000) 300 (t - 1)) ::
  flat_map (fun v => [Hand VoteReq i v t; Hand VoteRep i v t]) vs.

(** Leader [i] of term [t] sends its log to [d] and receives the answer. *)
Definition push (i d t : Z) : list Move :=
  [Hand Goroutine i d t; Hand AppendReq i d t; Hand AppendRep i d t].
End scripts.
Arguments Move : clear implicits.

(** * A goroutine of an old leadership *)

(** Peer 0 leads term 1 and starts a heartbeat whose goroutine for peer 4 is
    delayed.  Peer 1 leads term 2; its AppendEntries to peer 4 is delayed.  Peer 0
    leads term 3 and commits a command.  Then the goroutine runs, the RPC of term 2
    arrives, and peers 0 and 4 apply index 1. *)
Definition stale_script : list (Move nat) :=
  elect 0 1 [1; 2; 3] ++ [Do (AHeartBeat 0 1)] ++
  elect 1 2 [0; 2; 3] ++ [Do (AStart 1 7%nat); Hand Goroutine 1 4 2] ++
  elect 0 3 [2; 3] ++ [Do (AStart 0 8%nat)] ++ push 0 2 3 ++ push 0 3 3 ++
  [Hand Goroutine 0 4 1; Hand AppendReq 0 4 1; Hand AppendReq 1 4 2; Do (AApply 0); Do (AApply 4)].

Definition stale_acts : list (Action nat) := play stale_script (cluster_init 5 0).

Definition stale_end : Cluster nat :=
  default (cluster_init 5 0) (run stale_acts (cluster_init 5 0)).

(** C10. raft.go captures the term of a heartbeat when it is started but, once the
    goroutine holds the lock, checks only that the peer is a leader.  When the
    goroutine is delayed until the peer leads again, it sends the log and commit
    index of the new term under the old term: five peers, no crash and no lost
    message are enough for two services to receive different commands at one
    index. *)
Theorem stale_goroutine_breaks_agreement :
  exists acts c m1 m2,
    run acts (cluster_init 5 0 : Cluster nat) = Some c /\
    (0, m1) ∈ delivered c /\ (4, m2) ∈ delivered c /\
    CommandValid m1 = true /\ CommandValid m2 = true /\
    CommandIndex m1 = CommandIndex m2 /\ amCommand m1 <> amCommand m2.
Proof.
  exists stale_acts, stale_end, (mkApplyMsg true (Some 8%nat) 1 3 false [] 0 0),
    (mkApplyMsg true (Some 7%nat) 1 2 false [] 0 0).
  assert (delivered stale_end = [(0, mkApplyMsg true (Some 8%nat) 1 3 false [] 0 0);
    (4, mkApplyMsg true (Some 7%nat) 1 2 false [] 0 0)]) as -> by by_eval.
  split; [by_eval|]. split_and!; [by left|by right; left|done..].
Qed.

(** The run is not admissible: the last goroutine is the one [admissible] excludes. *)
Example stale_not_admissible : admissible_run stale_acts (cluster_init 5 0) = false.
Proof. by_eval. Qed.

(** * Witnesses *)

(** Peer 0 is elected, commits a command with peer 1, compacts it, and brings
    peer 2 up to date with a snapshot; peers 0 and 1 apply the command. *)
Definition agree_script : list (Move nat) :=
  elect 0 1 [1; 2] ++ [Do (AStart 0 7%nat)] ++ push 0 1 1 ++ [Do (AApply 0)] ++
  [Do (AHeartBeat 0 1)] ++ push 0 1 1 ++ [Do (AApply 1); Do (ASnapshot 0 1 [Byte.x01])] ++
  [Hand Goroutine 0 2 1; Hand InstallReq 0 2 1; Hand InstallRep 0 2 1].

Definition agree_acts : list (Action nat) := play agree_script (cluster_init 3 0).
Definition agreed : Cluster nat := default (cluster_init 3 0) (run agree_acts (cluster_init 3 0)).

Definition entry1 : ApplyMsg nat := mkApplyMsg true (Some 7%nat) 1 1 false [] 0 0.
Definition snapshot1 : ApplyMsg nat := mkApplyMsg false None 0 0 true [Byte.x01] 1 1.

Lemma agreed_delivered : delivered agreed = [(0, entry1); (1, entry1); (2, snapshot1)].
Proof. by_eval. Qed.

Lemma agreed_reachable : reachable 3 agreed.
Proof. exists 0, agree_acts. split; by_eval. Qed.

Lemma state_machine_safety_witness :
  msg_term entry1 = msg_term snapshot1 /\
  (CommandValid entry1 = true -> CommandValid snapshot1 = true -> amCommand entry1 = amCommand snapshot1).
Proof.
  apply (state_machine_safety 3 agreed 1 2); [apply agreed_reachable| | |by left|by right|by_eval];
    rewrite agreed_delivered; [right; left|right; right; left].
Defined.

Lemma leader_completeness_witness :
  1 < nextIdx (log (the_node agreed 0)) /\
  (firstIdx (log (the_node agreed 1)) < 1 -> firstIdx (log (the_node agreed 0)) < 1 ->
   entry_at (log (the_node agreed 0)) 1 = entry_at (log (the_node agreed 1)) 1).
Proof.
  apply (leader_completeness 3 agreed 1 0); [apply agreed_reachable|by_eval|by_eval|by_eval|..];
    vm_compute; discriminate.
Defined.

Lemma cluster_refines_log_witness :
  exists s, rtc (spec_step 3) spec_init s /\ forall i rf, nodes agreed !! i = Some rf ->
    pterm (peer s i) = currentTerm rf /\ rep (log rf) (peer s i) /\
    committed 3 s (currentTerm rf) (plog (peer s i)) (commitIndex rf) /\
    (state rf = Leader -> elog s !! currentTerm rf = Some (plog (peer s i))).
Proof. apply cluster_refines_log, agreed_reachable. Defined.

Lemma cluster_never_panics_witness : exists c', exec (AApply 2) agreed = Some c'.
Proof. apply (cluster_never_panics 3); [apply agreed_reachable|by_eval|by_eval]. Defined.

(** Peer 2 applies the first command, then gets a snapshot with the second: the
    snapshot may overtake the command. *)
Definition overtake_script : list (Move nat) :=
  elect 0 1 [1; 2] ++ [Do (AStart 0 7%nat)] ++ push 0 1 1 ++ [Do (AApply 0); Do (AHeartBeat 0 1)] ++ push 0 2 1 ++
  [Do (AApply 2); Do (AStart 0 8%nat)] ++ push 0 1 1 ++ [Do (AApply 0); Do (ASnapshot 0 2 [Byte.x02]); Do (AHeartBeat 0 1)] ++
  [Hand Goroutine 0 2 1; Hand InstallReq 0 2 1; Hand InstallRep 0 2 1].
Definition overtake_acts : list (Action nat) := play overtake_script (cluster_init 3 0).
Definition overtaken : Cluster nat := default (cluster_init 3 0) (run overtake_acts (cluster_init 3 0)).
Definition snapshot2 : ApplyMsg nat := mkApplyMsg false None 0 0 true [Byte.x02] 1 2.

Example overtaken_received : length overtake_acts = length overtake_script /\
  received 2 overtaken = [entry1; snapshot2] /\ sendable [entry1; snapshot2] 1 = true /\
  sendable [entry1; entry1] 1 = false.
Proof. split_and!; by_eval. Qed.

Lemma services_follow_one_log_witness :
  exists l, contract overtake_acts (taken ([] ++ overtake_acts)) (cluster_init 3 0) overtaken l /\
    forall i rf1 ms ks rd rest, nodes (cluster_init 3 0 : Cluster nat) !! i = Some rf1 -> forallb (fun a => negb (restarts i a)) overtake_acts = true ->
      received i overtaken = received i (cluster_init 3 0) ++ ms -> read_all ks ms = Some (rd, rest) ->
      served l (taken ([] ++ overtake_acts)) (lastApplied rf1) ms rd /\
      (Forall (eq 0%nat) ks -> exists b, fed l (taken ([] ++ overtake_acts)) (lastApplied rf1) rd b).
Proof. apply (services_follow_one_log 3 0 [] overtake_acts); by_eval. Defined.

(** The state in which peer 0 has been elected, and its answer to [Start]. *)
Definition chosen_leader : Cluster nat :=
  default (cluster_init 3 0) (run (take 5 agree_acts) (cluster_init 3 0)).
Definition after_start : Raft nat * (Z * Z * bool) * list (Effect nat) :=
  default (the_node chosen_leader 0, (0, 0, false), []) (Start 7%nat (the_node chosen_leader 0)).

Lemma start_identifies_command_witness : amCommand entry1 = Some 7%nat.
Proof.
  apply (start_identifies_command 3 0 (take 5 agree_acts) (drop 6 agree_acts) chosen_leader agreed 0
    (the_node chosen_leader 0) after_start.1.1 7%nat 1 1 after_start.2 1 entry1); try by_eval.
  rewrite agreed_delivered. right. left.
Defined.

(** * A conflicting tail behind a snapshot *)

(** A follower with two entries of term 1 installs a snapshot of index 1 whose last
    entry is of term 2: the entry of index 2 conflicts with it but stays, and the
    terms of the log decrease. *)
Definition tail_follower : Raft nat :=
  mkRaft 3 MakePersister 2 0 1 (-1)
    [zeroEntry; mkLogEntry (Some 7%nat) 1 1; mkLogEntry (Some 8%nat) 1 2] Follower 0 0 [3; 3; 3] [0; 0; 0] 0.

Example snapshot_keeps_conflicting_tail :
  node_ok tail_follower /\
  (log ∘ fst ∘ fst <$> InstallSnapshot 5000 (mkInstallSnapshotArgs 2 0 1 2 [Byte.x01]) tail_follower) =
    Some [mkLogEntry None 2 1; mkLogEntry (Some 8%nat) 1 2].
Proof. split; [ok_eval|by_eval]. Qed.
