(* ===== verification/RaftApi.v ===== *)
(** The interface between Raft and the services built on it.

    [kvraft], [shardctrler] and [shardkv] use a Raft peer only through [Start],
    [GetState], [Snapshot], [Kill] and the persister they share with it.
    [RaftApi] is that interface, [RaftApiLaws] what the services rely on, and
    the instances at the end discharge it with the peer of [RaftNode]. *)

From S2P Require Import Prelude Gob Persister RaftTypes RaftNode RaftInv RaftSafe.
Local Open Scope Z_scope.

Class RaftApi (R Cmd : Type) := {
  rf_Start : Cmd -> R -> option (R * (Z * Z * bool));
  rf_GetState : R -> Z * bool;
  rf_Snapshot : Z -> bytes -> R -> option R;
  rf_Kill : R -> R;
  rf_persister : R -> Persister
}.

(** [rf_ok] is the peer's invariant and [rf_applied] the last index it has
    handed to the service. *)
Class RaftApiLaws (R Cmd : Type) `{RaftApi R Cmd} := {
  rf_ok : R -> Prop;
  rf_applied : R -> Z;
  rf_Start_spec : forall c r, rf_ok r ->
    exists r' i, rf_Start c r =
      Some (r', (i, fst (rf_GetState r), snd (rf_GetState r))) /\
    rf_ok r' /\ rf_GetState r' = rf_GetState r /\ rf_applied r' = rf_applied r /\
    (snd (rf_GetState r) = true -> rf_applied r < i) /\
    (snd (rf_GetState r) = false -> r' = r);
  rf_Snapshot_spec : forall i b r, rf_ok r -> i <= rf_applied r ->
    exists r', rf_Snapshot i b r = Some r' /\ rf_ok r' /\
    rf_GetState r' = rf_GetState r /\ rf_applied r' = rf_applied r
}.

(** * The Raft peer behind the interface

    The goroutines a call starts belong to the Raft layer; they are kept in the
    second component. *)
Section peer.
Context {Cmd : Type} `{Gob Z} `{Gob (list (LogEntry Cmd))}.

#[export] Instance raft_api : RaftApi (Raft Cmd * list (Effect Cmd)) Cmd := {
  rf_Start c r :=
    '(rf, res, eff) ← Start c (fst r); Some ((rf, snd r ++ eff), res);
  rf_GetState r := GetState (fst r);
  rf_Snapshot i b r := rf ← Snapshot i b (fst r); Some (rf, snd r);
  rf_Kill r := (Kill (fst r), snd r);
  rf_persister r := persister (fst r)
}.

(** The entry [Start] appends is the last one of the log. *)
Lemma getLastIndex_snoc (rf : Raft Cmd) l e :
  log rf = l ++ [e] -> getLastIndex rf = Some (Index e).
Proof.
  intros Hl. unfold getLastIndex. rewrite Hl, zlen_app, go_index_app_r.
  - replace (zlen l + zlen [e] - 1 - zlen l) with 0 by (unfold zlen; simpl; lia). done.
  - unfold zlen. simpl. lia.
Qed.

Lemma Start_result c (rf : Raft Cmd) rf' res eff :
  node_ok rf -> Start c rf = Some (rf', res, eff) ->
  res = (if decide (state rf = Leader) then nextIdx (log rf) else -1,
         currentTerm rf, bool_decide (state rf = Leader)) /\
  GetState rf' = GetState rf /\ lastApplied rf' = lastApplied rf /\
  (state rf <> Leader -> rf' = rf /\ eff = []).
Proof.
  intros Hok. unfold Start.
  destruct (decide (state rf <> Leader)) as [Hs|Hs%dec_stable].
  - intros [= <- <- <-]. rewrite decide_False, bool_decide_eq_false_2 by done. done.
  - rewrite getNextIndex_wf by apply Hok. simpl.
    erewrite getLastIndex_snoc by done. simpl. intros [= <- <- <-].
    rewrite decide_True, bool_decide_eq_true_2 by done. done.
Qed.

Lemma Snapshot_frame i b (rf rf' : Raft Cmd) :
  Snapshot i b rf = Some rf' ->
  GetState rf' = GetState rf /\ lastApplied rf' = lastApplied rf.
Proof. unfold Snapshot. intros Hs. opt_inv. case_decide; opt_inv; done. Qed.

#[export, refine] Instance raft_api_laws :
  RaftApiLaws (Raft Cmd * list (Effect Cmd)) Cmd := {
  rf_ok r := node_ok (fst r);
  rf_applied r := lastApplied (fst r)
}.
Proof.
  - intros c [rf pending] Hok. simpl in *.
    destruct (Start_ok c rf Hok) as (rf' & res & eff & Hs & Hok').
    destruct (Start_result _ _ _ _ _ Hok Hs) as (-> & Hg & Ha & Hf).
    rewrite Hs. simpl. eexists _, _. split; [done|]. simpl.
    split_and!; auto.
    + intros Hl%bool_decide_eq_true. rewrite decide_True by done.
      pose proof (ok_applied _ Hok). pose proof (ok_commit _ Hok). lia.
    + intros Hl%bool_decide_eq_false. destruct (Hf Hl) as [-> ->].
      by rewrite app_nil_r.
  - intros i b [rf pending] Hok Hi. simpl in *.
    destruct (Snapshot_ok i b rf Hok Hi) as (rf' & Hs & Hok').
    destruct (Snapshot_frame _ _ _ _ Hs) as [Hg Ha].
    rewrite Hs. simpl. eauto.
Defined.
End peer.
