(* ===== verification/RaftPromise.v ===== *)
(** What a running cluster promises to its services, step by step.

    [promised c P K] holds of every state an admissible run reaches: [P] are the
    commands leaders took in, with the index and term [Start] answered, and [K] the
    snapshots services took.  A leader never hands out an index and term twice;
    what is delivered was asked for with its index and term; what two services get
    at one index agrees; a step serves at most one peer. *)

From S2P Require Import Prelude Gob Persister RaftTypes RaftNode RaftInv RaftSafe RaftSpec.
From S2P Require Import RaftCluster RaftElection RaftLog RaftRefine RaftSim RaftSteps.
From S2P Require Import RaftLead RaftFollow RaftCommit RaftSafety RaftServices RaftApi.
Local Open Scope Z_scope.

Section promise.
Context {Cmd : Type} `{GobLaws Z} `{GobLaws (list (LogEntry Cmd))} (n : nat).
Implicit Types (c : Cluster Cmd) (rf : Raft Cmd) (s : Spec Cmd).

(** Every command taken in is in the log of the leader of its term. *)
Definition led_asks s (P : list (Z * Z * Cmd)) : Prop := forall k t cmd, (k, t, cmd) ∈ P ->
  exists l, elog s !! t = Some l /\ l.[k - 1] = Some (mkLogEntry (Some cmd) t k).

Definition promised c (P : list (Z * Z * Cmd)) (K : list (Z * bytes)) : Prop :=
  exists s V L, Rel n c s V L /\ origin c P K /\ led_asks s P.

Lemma promised_init now : promised (cluster_init n now) [] [].
Proof.
  eexists _, _, _. split_and!; [apply init_rel|apply init_origin|]. by intros k t cmd ?%elem_of_nil.
Qed.

Lemma led_asks_mono s s' P : evolves s s' -> led_asks s P -> led_asks s' P.
Proof.
  intros E HP k t cmd Hin. destruct (HP k t cmd Hin) as (l & Hl & Hk).
  destruct (gr_elog _ _ (ev_grows _ _ E) _ _ Hl) as (l' & Hl' & Hp). exists l'. split; [done|].
  pose proof (go_index_Some_lt _ _ _ Hk). by rewrite <- (index_prefix _ _ _ Hp) by lia.
Qed.

(** [Start] at a leader. *)
Lemma Start_asked c cmd rf : node_ok rf -> state rf = Leader -> exists rf' eff,
  Start cmd rf = Some (rf', (nextIdx (log rf), currentTerm rf, true), eff) /\
  asked cmd rf = [(nextIdx (log rf), currentTerm rf, cmd)].
Proof.
  intros Hok Hl. destruct (Start_ok cmd rf Hok) as (rf' & res & eff & Hs & _).
  destruct (Start_result _ _ _ _ _ Hok Hs) as (-> & _). rewrite decide_True, bool_decide_eq_true_2 in Hs by done.
  exists rf', eff. split; [done|]. unfold asked. by rewrite decide_True.
Qed.

Lemma promised_exec c P K a c' : promised c P K -> admissible a c = true -> exec a c = Some c' ->
  promised c' (asked_by a c ++ P) (taken_by a ++ K).
Proof.
  intros (s & V & L & R & O & HP) Ha He. destruct (exec_simulated n c s V L a c' R Ha He) as (s' & V' & L' & Hs & R').
  exists s', V', L'. split_and!; [done|by eapply exec_origin|].
  pose proof (led_asks_mono _ _ _ (spec_steps_evolve n s s' (r_spec _ _ _ _ _ R) Hs) HP) as HP'.
  intros k t cmd [Hin|Hin]%elem_of_app; [|by apply HP'].
  destruct a as [| | | |i command| | | |]; simpl in Hin; try by apply elem_of_nil in Hin.
  destruct (nodes c !! i) as [rf|] eqn:Hi; [|by apply elem_of_nil in Hin].
  pose proof (n_ok _ _ _ _ _ (r_node _ _ _ _ _ R i rf Hi)) as Hok.
  destruct (decide (state rf = Leader)) as [Hl|Hl].
  - destruct (Start_asked c command rf Hok Hl) as (rf' & eff & HS & Hask). rewrite Hask in Hin.
    apply list_elem_of_singleton in Hin as [= -> -> ->]. simpl in He. rewrite Hi in He. simpl in He. rewrite HS in He.
    injection He as <-. eapply (start_entry n s' L' i rf rf'); [apply R'|done|done|].
    apply (r_node _ _ _ _ _ R' i). apply lookup_insert_eq.
  - unfold asked in Hin. rewrite decide_False in Hin by done. by apply elem_of_nil in Hin.
Qed.

Lemma promised_node_ok c P K i rf : promised c P K -> nodes c !! i = Some rf -> node_ok rf.
Proof. intros (s & V & L & R & _ & _) Hi. apply (n_ok _ _ _ _ _ (r_node _ _ _ _ _ R i rf Hi)). Qed.

(** A leader's next index has not been handed out in its term. *)
Lemma promised_fresh c P K i rf cmd : promised c P K -> nodes c !! i = Some rf -> state rf = Leader ->
  (nextIdx (log rf), currentTerm rf, cmd) ∉ P.
Proof.
  intros (s & V & L & R & _ & HP) Hi Hl Hin. destruct (HP _ _ _ Hin) as (l & Hl' & Hk).
  destruct (leader_rep n s L i rf (r_spec _ _ _ _ _ R) (r_node _ _ _ _ _ R i rf Hi) Hl) as (f & _ & _ & Hel & _ & _ & _ & En).
  assert (l = plog (peer s i)) as -> by congruence. apply go_index_Some_lt in Hk. lia.
Qed.

(** An index and a term name one command. *)
Lemma promised_fun c P K k t cmd1 cmd2 : promised c P K -> (k, t, cmd1) ∈ P -> (k, t, cmd2) ∈ P -> cmd1 = cmd2.
Proof.
  intros (s & V & L & _ & _ & HP) Hin1 Hin2. destruct (HP _ _ _ Hin1) as (l & Hl & Hk1). destruct (HP _ _ _ Hin2) as (l' & Hl' & Hk2).
  assert (l' = l) as -> by congruence. rewrite Hk1 in Hk2. by injection Hk2.
Qed.

Lemma promised_msg c P K i m : promised c P K -> (i, m) ∈ delivered c -> msg_stems P K m.
Proof. intros (s & V & L & _ & O & _) Hd. by apply (or_msg _ _ _ O (i, m)). Qed.

Lemma promised_snapshot c P K i rf : promised c P K -> nodes c !! i = Some rf ->
  (firstIdx (log rf) = 0 /\ ReadSnapshot (persister rf) = []) \/ (firstIdx (log rf), ReadSnapshot (persister rf)) ∈ K.
Proof. intros (s & V & L & _ & O & _) Hi. by apply (or_node _ _ _ O i). Qed.

Lemma promised_agree c P K i j cmd1 cmd2 k t1 t2 : promised c P K ->
  (i, mkApplyMsg true (Some cmd1) k t1 false [] 0 0) ∈ delivered c ->
  (j, mkApplyMsg true (Some cmd2) k t2 false [] 0 0) ∈ delivered c -> t1 = t2 /\ cmd1 = cmd2.
Proof.
  intros (s & V & L & R & _) H1' H2'.
  destruct (deliveries_agree n c s V L i j _ _ R H1' H2') as [Ht Hc]; auto. split; [done|]. by injection (Hc eq_refl eq_refl).
Qed.

(** A step serves at most one peer, whose term and position only grow. *)
Lemma promised_step c P K a c' : promised c P K -> admissible a c = true -> exec a c = Some c' ->
  (forall i, restarts i a = false) ->
  (exists j rf rf' ms, nodes c !! j = Some rf /\ nodes c' = <[j := rf']> (nodes c) /\
     (forall i, received i c' = received i c ++ if decide (j = i) then ms else []) /\
     in_order (lastApplied rf) ms (lastApplied rf') /\ currentTerm rf <= currentTerm rf') \/
  (nodes c' = nodes c /\ forall i, received i c' = received i c).
Proof.
  intros (s & V & L & R & _) Ha He Hre.
  destruct (exec_fed n c s V L a c' R He) as
    [(j & rf & rf' & eff & ms & Hj & Hacts & Hio)|[[Hn Hd]|(j & rf' & eff & ms & Hj & _)]].
  - left. exists j, rf, rf', (eff_msgs eff). pose proof (proj1 Hacts) as Hn.
    split_and!; [done|done|intros i; by eapply received_acts|done|].
    destruct (exec_simulated n c s V L a c' R Ha He) as (s' & V' & L' & Hs & R').
    pose proof (spec_steps_evolve n s s' (r_spec _ _ _ _ _ R) Hs) as E.
    rewrite <- (n_term _ _ _ _ _ (r_node _ _ _ _ _ R j rf Hj)), <- (n_term n s' L' j rf').
    + apply (gr_term _ _ (ev_grows _ _ E)).
    + apply (r_node _ _ _ _ _ R'). rewrite Hn. apply lookup_insert_eq.
  - right. split; [done|]. intros i. unfold received. by rewrite Hd.
  - by rewrite (Hre j) in Hj.
Qed.

Lemma promised_delivered c P K a c' : promised c P K -> exec a c = Some c' -> exists l, delivered c' = delivered c ++ l.
Proof. intros (s & V & L & R & _) He. by eapply exec_delivered. Qed.
End promise.

(** A run that returns returns what it is evaluated to. *)
Lemma default_Some {A} (o : option A) d : bool_decide (is_Some o) = true -> o = Some (default d o).
Proof. by destruct o. Qed.
