(* ===== verification/LabRpc.v ===== *)
(** The RPC layer of the labs, [src/src/labrpc/labrpc.go].

    A network connects client ends to servers.  Each [Call] is served by a
    goroutine [processReq], which runs the handler in a goroutine of its own; the
    two, the caller and the operations that reconfigure the network interleave at
    every lock and every channel operation, one [Act] each.  Serialisation is the
    codec of [encoding/gob], a parameter.  What a handler does with its receiver is
    the business of the service: [AHandled] lets it return any value at any later
    time.  [Panic] also stands for [log.Fatalf], [Block] for an action that is not
    enabled. *)

From Stdlib Require Import Ascii.
From S2P Require Import Prelude Gob.
Local Open Scope Z_scope.

(** * Values and names *)

(** [interface{}] values used as names of ends and servers. *)
Inductive Iface := IInt (z : Z) | IStr (s : string).
#[export] Instance Iface_eq : EqDecision Iface.
Proof. solve_decision. Defined.
#[export] Instance Iface_countable : Countable Iface.
Proof.
  refine (inj_countable' (fun x => match x with IInt z => inl z | IStr s => inr s end)
    (fun x => match x with inl z => IInt z | inr s => IStr s end) _). by intros [].
Defined.

(** A [reflect.Type], by its name. *)
Abbreviation Ty := string.

(** [encoding/gob]: the bytes written and whether there was no error; the value
    of the variable decoded into and whether there was no error. *)
Class Codec (Val : Type) := {
  typeOf : Val -> Ty;
  zero : Ty -> Val;
  gobEncode : Val -> bytes * bool;
  gobDecode : bytes -> Val -> Val * bool
}.

(** A value that was encoded is read back by a decoder that starts from the zero
    value of its type. *)
Class CodecLaws (Val : Type) `{Codec Val} : Prop := {
  codec_roundtrip : forall v b, gobEncode v = (b, true) -> gobDecode b (zero (typeOf v)) = (v, true)
}.

Definition wrap32 (z : Z) : Z := (z + 2 ^ 31) mod 2 ^ 32 - 2 ^ 31.

(** * Messages, services and servers *)

Record reqMsg := mkReqMsg { req_endname : Iface; svcMeth : string; argsType : Ty; req_args : bytes }.
Record replyMsg := mkReplyMsg { ok : bool; reply : bytes }.
Record ClientEnd := mkClientEnd { endname : Iface }.

(** [reflect.Method]: the parameters, receiver first, with whether each is a
    pointer and the type it points to. *)
Record Method := mkMethod { mName : string; PkgPath : string; In : list (bool * Ty); NumOut : nat }.

Record Service := mkService { svc_name : string; methods : gmap string Method }.
Record Server := mkServer { services : gmap string Service; srv_count : Z }.

(** The test [MakeService] makes for each method, in its order. *)
Definition unsuitable (m : Method) : option bool :=
  if decide (PkgPath m <> ""%string) then Some true
  else if decide (length (In m) <> 3%nat) then Some true
  else
    in2 ← In m !! 2%nat;
    if decide (in2.1 = false) then Some true else Some (bool_decide (NumOut m <> 0%nat)).

Fixpoint collect_methods (ms : list Method) (acc : gmap string Method) : option (gmap string Method) :=
  match ms with
  | [] => Some acc
  | m :: ms =>
      bad ← unsuitable m;
      collect_methods ms (if (bad : bool) then acc else <[mName m := m]> acc)
  end.

Definition MakeService (name : string) (ms : list Method) : option Service :=
  methods ← collect_methods ms ∅; Some (mkService name methods).

Definition MakeServer : Server := mkServer ∅ 0.
Definition AddService (svc : Service) (rs : Server) : Server :=
  mkServer (<[svc_name svc := svc]> (services rs)) (srv_count rs).
Definition Server_GetCount (rs : Server) : Z := srv_count rs.

(** [strings.LastIndex(s, ".")] splits the name; [None] is -1, on which slicing
    panics. *)
Fixpoint split_svcMeth (s : string) : option (string * string) :=
  match s with
  | EmptyString => None
  | String c s' =>
      match split_svcMeth s' with
      | Some (svc, meth) => Some (String c svc, meth)
      | None => if decide (c = "."%char) then Some (EmptyString, s') else None
      end
  end.

Section dispatch.
Context {Val : Type} `{Codec Val}.

(** [Service.dispatch] up to the call of the method: the arguments it gets.  The
    error of [Decode] is not looked at. *)
Definition Service_dispatch (methname : string) (req : reqMsg) (svc : Service) : Go Val :=
  match methods svc !! methname with
  | Some _ => Ret (gobDecode (req_args req) (zero (argsType req))).1
  | None => Panic
  end.

(** The rest of it: the method has left [v] in the reply. *)
Definition Service_reply (v : Val) : replyMsg := mkReplyMsg true (gobEncode v).1.

(** The server counts the request before it looks at its name. *)
Definition Server_dispatch (req : reqMsg) (rs : Server) : Server * Go (string * string * Val) :=
  (mkServer (services rs) (srv_count rs + 1),
   '(serviceName, methodName) ← of_opt (split_svcMeth (svcMeth req));
   service ← of_opt (services rs !! serviceName);
   args ← Service_dispatch methodName req service;
   Ret (serviceName, methodName, args)).
End dispatch.

(** * The network *)

(** A pointer to a server is its address; [None] is [nil]. *)
Record Network := mkNetwork {
  reliable : bool;
  longDelays : bool;
  longReordering : bool;
  ends : gmap Iface ClientEnd;
  enabled : gmap Iface bool;
  servers : gmap Iface (option nat);
  connections : gmap Iface (option Iface);
  done : bool;
  count : Z;
  nbytes : Z
}.

Definition MakeNetwork : Network := mkNetwork true false false ∅ ∅ ∅ ∅ false 0 0.

Definition set_done (rn : Network) : Network :=
  mkNetwork (reliable rn) (longDelays rn) (longReordering rn) (ends rn) (enabled rn) (servers rn)
    (connections rn) true (count rn) (nbytes rn).
(** Closing a closed channel panics. *)
Definition Cleanup (rn : Network) : Go Network := if done rn then Panic else Ret (set_done rn).

Definition Reliable (yes : bool) (rn : Network) : Network :=
  mkNetwork yes (longDelays rn) (longReordering rn) (ends rn) (enabled rn) (servers rn)
    (connections rn) (done rn) (count rn) (nbytes rn).
Definition LongReordering (yes : bool) (rn : Network) : Network :=
  mkNetwork (reliable rn) (longDelays rn) yes (ends rn) (enabled rn) (servers rn)
    (connections rn) (done rn) (count rn) (nbytes rn).
Definition LongDelays (yes : bool) (rn : Network) : Network :=
  mkNetwork (reliable rn) yes (longReordering rn) (ends rn) (enabled rn) (servers rn)
    (connections rn) (done rn) (count rn) (nbytes rn).

(** The three maps of ends, and the servers. *)
Definition set_ends (es : gmap Iface ClientEnd) (en : gmap Iface bool) (cs : gmap Iface (option Iface))
    (rn : Network) : Network :=
  mkNetwork (reliable rn) (longDelays rn) (longReordering rn) es en (servers rn) cs (done rn)
    (count rn) (nbytes rn).
Definition set_servers (ss : gmap Iface (option nat)) (rn : Network) : Network :=
  mkNetwork (reliable rn) (longDelays rn) (longReordering rn) (ends rn) (enabled rn) ss (connections rn)
    (done rn) (count rn) (nbytes rn).

Definition MakeEnd (n : Iface) (rn : Network) : Go (ClientEnd * Network) :=
  match ends rn !! n with
  | Some _ => Panic
  | None =>
      let e := mkClientEnd n in
      Ret (e, set_ends (<[n := e]> (ends rn)) (<[n := false]> (enabled rn)) (<[n := None]> (connections rn)) rn)
  end.
Definition DeleteEnd (n : Iface) (rn : Network) : Go Network :=
  match ends rn !! n with
  | None => Panic
  | Some _ => Ret (set_ends (delete n (ends rn)) (delete n (enabled rn)) (delete n (connections rn)) rn)
  end.
Definition AddServer (sn : Iface) (p : nat) (rn : Network) : Network :=
  set_servers (<[sn := Some p]> (servers rn)) rn.
Definition DeleteServer (sn : Iface) (rn : Network) : Network :=
  set_servers (<[sn := None]> (servers rn)) rn.
Definition Connect (n sn : Iface) (rn : Network) : Network :=
  set_ends (ends rn) (enabled rn) (<[n := Some sn]> (connections rn)) rn.
Definition Enable (n : Iface) (b : bool) (rn : Network) : Network :=
  set_ends (ends rn) (<[n := b]> (enabled rn)) (connections rn) rn.

(** Reads of Go maps: a missing key gives the zero value. *)
Definition is_enabled (rn : Network) (n : Iface) : bool := default false (enabled rn !! n).
Definition connection (rn : Network) (n : Iface) : option Iface := default None (connections rn !! n).
Definition server_at (rn : Network) (sn : Iface) : option nat := default None (servers rn !! sn).

(** [GetCount] of a server that was deleted dereferences [nil]. *)
Definition GetCount (sn : Iface) (heap : gmap nat Server) (rn : Network) : Go Z :=
  p ← of_opt (server_at rn sn); rs ← of_opt (heap !! p); Ret (Server_GetCount rs).
Definition GetTotalCount (rn : Network) : Z := count rn.
Definition GetTotalBytes (rn : Network) : Z := nbytes rn.

Definition readEndnameInfo (n : Iface) (rn : Network) :
    bool * option Iface * option nat * bool * bool :=
  let servername := connection rn n in
  (is_enabled rn n, servername, servername ≫= server_at rn, reliable rn, longReordering rn).

Definition isServerDead (n sn : Iface) (p : nat) (rn : Network) : bool :=
  bool_decide (is_enabled rn n = false) || bool_decide (server_at rn sn <> Some p).

(** The counters of the network's goroutine and of the replies. *)
Definition count_request (req : reqMsg) (rn : Network) : Network :=
  mkNetwork (reliable rn) (longDelays rn) (longReordering rn) (ends rn) (enabled rn) (servers rn)
    (connections rn) (done rn) (wrap32 (count rn + 1)) (wrap64 (nbytes rn + zlen (req_args req))).
Definition count_reply (rep : replyMsg) (rn : Network) : Network :=
  mkNetwork (reliable rn) (longDelays rn) (longReordering rn) (ends rn) (enabled rn) (servers rn)
    (connections rn) (done rn) (count rn) (wrap64 (nbytes rn + zlen (reply rep))).

(** * Calls in progress *)

(** Where the caller and [processReq] are. *)
Inductive Stage :=
| SSending                                             (* the caller's select *)
| SAccepted                                            (* [processReq] starts *)
| SFound (sn : Iface) (p : nat) (rel longre : bool)    (* it knows the server *)
| SWaiting (sn : Iface) (p : nat) (rel longre : bool)  (* its loop *)
| SGot (sn : Iface) (p : nat) (rel longre : bool) (rep : option replyMsg) (* after the loop *)
| SReply (ms : Z) (counted : bool) (rep : replyMsg)    (* to be sent after [ms] *)
| SReturned.

(** The goroutine that runs the handler. *)
Inductive Handler := HNone | HStarted (p : nat) | HRunning | HReplied (rep : replyMsg).

Record Pending (Val : Type) := mkPending {
  req : reqMsg; reply_var : Val; stage : Stage; handler : Handler
}.
Arguments mkPending {Val}. Arguments req {Val}. Arguments reply_var {Val}.
Arguments stage {Val}. Arguments handler {Val}.

(** [listening]: the goroutine of [MakeNetwork] has not returned. *)
Record Sys (Val : Type) := mkSys {
  net : Network; heap : gmap nat Server; calls : gmap nat (Pending Val); listening : bool
}.
Arguments mkSys {Val}. Arguments net {Val}. Arguments heap {Val}.
Arguments calls {Val}. Arguments listening {Val}.

Inductive Act (Val : Type) :=
| AMakeEnd (n : Iface) | ADeleteEnd (n : Iface) | AConnect (n sn : Iface) | AEnable (n : Iface) (b : bool)
| AReliable (b : bool) | ALongReordering (b : bool) | ALongDelays (b : bool)
| AMakeServer (p : nat) | AAddService (p : nat) (svc : Service)
| AAddServer (sn : Iface) (p : nat) | ADeleteServer (sn : Iface)
| ACleanup | AListenerExits
| ACall (id : nat) (e : ClientEnd) (m : string) (args rep : Val)
| ACancel (id : nat)
| AAccept (id : nat)
| ARead (id : nat) (r : Z)
| AProceed (id : nat) (r : Z)
| ADispatch (id : nat)
| AHandled (id : nat) (v : Val)
| AReceive (id : nat)
| ATick (id : nat)
| AFinish (id : nat) (r1 r2 ra rb : Z)
| ASend (id : nat).
Arguments AMakeEnd {Val}. Arguments ADeleteEnd {Val}. Arguments AConnect {Val}. Arguments AEnable {Val}.
Arguments AReliable {Val}. Arguments ALongReordering {Val}. Arguments ALongDelays {Val}.
Arguments AMakeServer {Val}. Arguments AAddService {Val}. Arguments AAddServer {Val}.
Arguments ADeleteServer {Val}. Arguments ACleanup {Val}. Arguments AListenerExits {Val}.
Arguments ACall {Val}. Arguments ACancel {Val}. Arguments AAccept {Val}. Arguments ARead {Val}.
Arguments AProceed {Val}. Arguments ADispatch {Val}. Arguments AHandled {Val}. Arguments AReceive {Val}.
Arguments ATick {Val}. Arguments AFinish {Val}. Arguments ASend {Val}.

(** What can be observed of a call: it is made, its handler runs at a server with
    some arguments, the handler leaves a reply, the caller returns. *)
Inductive Event (Val : Type) :=
| EvCall (id : nat) (m : string) (args rep : Val)
| EvExec (id : nat) (p : nat) (svc meth : string) (args : Val)
| EvHandled (id : nat) (v : Val)
| EvReturn (id : nat) (r : option Val).
Arguments EvCall {Val}. Arguments EvExec {Val}. Arguments EvHandled {Val}. Arguments EvReturn {Val}.

(** ** The goroutines, piece by piece *)

(** After [readEndnameInfo]: the server, or no reply after a while. *)
Definition unreachable_delay (longDelays : bool) (r : Z) : Z := if longDelays then r mod 7000 else r mod 100.
Definition processReq_read (r : Z) (rq : reqMsg) (rn : Network) : Stage :=
  let '(en, servername, server, rel, longre) := readEndnameInfo (req_endname rq) rn in
  match en, servername, server with
  | true, Some sn, Some p => SFound sn p rel longre
  | _, _, _ => SReply (unreachable_delay (longDelays rn) r) false (mkReplyMsg false [])
  end.

(** An unreliable network drops one request in ten; otherwise the handler's
    goroutine is started. *)
Definition processReq_proceed (r : Z) (sn : Iface) (p : nat) (rel longre : bool) : Stage * Handler :=
  if negb rel && bool_decide (r mod 1000 < 100)
  then (SReply 0 false (mkReplyMsg false []), HNone)
  else (SWaiting sn p rel longre, HStarted p).

(** After the loop. *)
Definition processReq_finish (r1 r2 ra rb : Z) (rq : reqMsg) (sn : Iface) (p : nat) (rel longre : bool)
    (rep : option replyMsg) (rn : Network) : Stage :=
  let serverDead := isServerDead (req_endname rq) sn p rn in
  match rep with
  | None => SReply 0 false (mkReplyMsg false [])
  | Some rep =>
      if serverDead then SReply 0 false (mkReplyMsg false [])
      else if negb rel && bool_decide (r1 mod 1000 < 100) then SReply 0 false (mkReplyMsg false [])
      else if longre && bool_decide (r2 mod 900 < 600)
      then SReply (200 + rb mod (1 + ra mod 2000)) true rep
      else SReply 0 true rep
  end.

Section steps.
Context {Val : Type} `{Codec Val}.
Implicit Types (s : Sys Val) (pd : Pending Val).

(** [Call] up to its select. *)
Definition Call (e : ClientEnd) (m : string) (args rep : Val) : Go (Pending Val) :=
  let '(b, noerr) := gobEncode args in
  if (noerr : bool) then Ret (mkPending (mkReqMsg (endname e) m (typeOf args) b) rep SSending HNone) else Panic.

(** The end of [Call]: what the caller returns. *)
Definition Call_end (rep : replyMsg) (v : Val) : Go (option Val) :=
  if ok rep then
    let '(v, noerr) := gobDecode (reply rep) v in
    if (noerr : bool) then Ret (Some v) else Panic
  else Ret None.

Definition set_net (rn : Network) s : Sys Val := mkSys rn (heap s) (calls s) (listening s).
Definition set_heap (h : gmap nat Server) s : Sys Val := mkSys (net s) h (calls s) (listening s).
Definition set_call (id : nat) pd s : Sys Val := mkSys (net s) (heap s) (<[id := pd]> (calls s)) (listening s).
Definition set_stage (st : Stage) pd : Pending Val := mkPending (req pd) (reply_var pd) st (handler pd).
Definition set_handler (h : Handler) pd : Pending Val := mkPending (req pd) (reply_var pd) (stage pd) h.

(** The handler's goroutine: [dispatch] up to the method, and from its return. *)
Definition dispatch_step (id : nat) pd s : Go (Sys Val * list (Event Val)) :=
  match handler pd with
  | HStarted p =>
      rs ← of_opt (heap s !! p);
      let '(rs, out) := Server_dispatch (req pd) rs in
      '(svc, meth, args) ← out;
      Ret (set_call id (set_handler HRunning pd) (set_heap (<[p := rs]> (heap s)) s),
           [EvExec id p svc meth args])
  | _ => Block
  end.
Definition handled_step (id : nat) (v : Val) pd s : Go (Sys Val * list (Event Val)) :=
  match handler pd with
  | HRunning => Ret (set_call id (set_handler (HReplied (Service_reply v)) pd) s, [EvHandled id v])
  | _ => Block
  end.

(** One step of the caller or of [processReq]. *)
Definition call_step (a : Act Val) (id : nat) pd s : Go (Sys Val * list (Event Val)) :=
  match a, stage pd with
  | ACancel _, SSending =>
      if done (net s) then Ret (set_call id (set_stage SReturned pd) s, [EvReturn id None]) else Block
  | AAccept _, SSending =>
      if listening s
      then Ret (set_call id (set_stage SAccepted pd) (set_net (count_request (req pd) (net s)) s), [])
      else Block
  | ARead _ r, SAccepted => Ret (set_call id (set_stage (processReq_read r (req pd) (net s)) pd) s, [])
  | AProceed _ r, SFound sn p rel longre =>
      let '(st, h) := processReq_proceed r sn p rel longre in
      Ret (set_call id (set_handler h (set_stage st pd)) s, [])
  | AReceive _, SWaiting sn p rel longre =>
      match handler pd with
      | HReplied rep => Ret (set_call id (set_stage (SGot sn p rel longre (Some rep)) pd) s, [])
      | _ => Block
      end
  | ATick _, SWaiting sn p rel longre =>
      if isServerDead (req_endname (req pd)) sn p (net s)
      then Ret (set_call id (set_stage (SGot sn p rel longre None) pd) s, []) else Ret (s, [])
  | AFinish _ r1 r2 ra rb, SGot sn p rel longre rep =>
      Ret (set_call id (set_stage (processReq_finish r1 r2 ra rb (req pd) sn p rel longre rep (net s)) pd) s, [])
  | ASend _, SReply _ counted rep =>
      res ← Call_end rep (reply_var pd);
      let rn := if (counted : bool) then count_reply rep (net s) else net s in
      Ret (set_call id (set_stage SReturned pd) (set_net rn s), [EvReturn id res])
  | _, _ => Block
  end.

Definition act_call (a : Act Val) : option nat :=
  match a with
  | ACancel id | AAccept id | ARead id _ | AProceed id _ | AReceive id
  | ATick id | AFinish id _ _ _ _ | ASend id => Some id
  | _ => None
  end.

Definition step (a : Act Val) s : Go (Sys Val * list (Event Val)) :=
  match a with
  | AMakeEnd n => '(_, rn) ← MakeEnd n (net s); Ret (set_net rn s, [])
  | ADeleteEnd n => rn ← DeleteEnd n (net s); Ret (set_net rn s, [])
  | AConnect n sn => Ret (set_net (Connect n sn (net s)) s, [])
  | AEnable n b => Ret (set_net (Enable n b (net s)) s, [])
  | AReliable b => Ret (set_net (Reliable b (net s)) s, [])
  | ALongReordering b => Ret (set_net (LongReordering b (net s)) s, [])
  | ALongDelays b => Ret (set_net (LongDelays b (net s)) s, [])
  | AMakeServer p =>
      match heap s !! p with None => Ret (set_heap (<[p := MakeServer]> (heap s)) s, []) | Some _ => Block end
  | AAddService p svc =>
      rs ← of_opt (heap s !! p); Ret (set_heap (<[p := AddService svc rs]> (heap s)) s, [])
  | AAddServer sn p =>
      match heap s !! p with Some _ => Ret (set_net (AddServer sn p (net s)) s, []) | None => Block end
  | ADeleteServer sn => Ret (set_net (DeleteServer sn (net s)) s, [])
  | ACleanup => rn ← Cleanup (net s); Ret (set_net rn s, [])
  | AListenerExits =>
      if done (net s) then Ret (mkSys (net s) (heap s) (calls s) false, []) else Block
  | ACall id e m args rep =>
      match calls s !! id with
      | Some _ => Block
      | None => pd ← Call e m args rep; Ret (set_call id pd s, [EvCall id m args rep])
      end
  | ADispatch id => match calls s !! id with Some pd => dispatch_step id pd s | None => Block end
  | AHandled id v => match calls s !! id with Some pd => handled_step id v pd s | None => Block end
  | _ =>
      match act_call a with
      | Some id => match calls s !! id with Some pd => call_step a id pd s | None => Block end
      | None => Block
      end
  end.

Definition start : Sys Val := mkSys MakeNetwork ∅ ∅ true.

Fixpoint run (acts : list (Act Val)) s : Go (Sys Val * list (Event Val)) :=
  match acts with
  | [] => Ret (s, [])
  | a :: acts =>
      '(s, ev) ← step a s;
      '(s, tr) ← run acts s;
      Ret (s, ev ++ tr)
  end.
End steps.
