(* ===== verification/LabRpcSpec.v ===== *)
(** What a call over the network of [labrpc] promises.

    [chan_step] is the abstract channel that clients of the network rely on: a
    request is executed at most once, with the arguments and at the method it was
    made for, and a caller gets either the reply that execution left, or nothing.
    Every run of the network refines it, call by call. *)

From Stdlib Require Import Ascii.
From S2P Require Import Prelude Gob LabRpc.
Local Open Scope Z_scope.

(** * Names of methods *)

Fixpoint no_dot (s : string) : bool :=
  match s with
  | EmptyString => true
  | String c s => bool_decide (c <> "."%char) && no_dot s
  end.

Lemma split_none s : no_dot s = true -> split_svcMeth s = None.
Proof.
  induction s as [|c s IH]; simpl; [done|]. intros [Hc Hs]%andb_prop. apply bool_decide_eq_true in Hc.
  rewrite IH by done. by rewrite decide_False.
Qed.

Lemma split_join svc meth : no_dot meth = true ->
  split_svcMeth (svc +:+ "." +:+ meth) = Some (svc, meth).
Proof.
  intros Hm. induction svc as [|c svc IH]; simpl; [by rewrite split_none|].
  simpl in IH. by rewrite IH.
Qed.

Lemma split_inv s svc meth : split_svcMeth s = Some (svc, meth) -> s = svc +:+ "." +:+ meth /\ no_dot meth = true.
Proof.
  revert svc. induction s as [|c s IH]; simpl; intros svc; [done|].
  destruct (split_svcMeth s) as [[svc' meth']|] eqn:Hs.
  - intros [= <- <-]. destruct (IH svc' eq_refl) as [-> ?]. done.
  - case_decide as Hc; [|done]. intros [= <- <-]. subst c. split; [done|].
    clear IH. revert Hs. induction s as [|c s IH]; simpl; [done|].
    destruct (split_svcMeth s) as [[]|]; [done|]. case_decide; [done|]. intros _.
    rewrite bool_decide_eq_true_2 by done. by apply IH.
Qed.

(** * The channel *)

Inductive Exec (Val : Type) := NotExecuted | Executing | Executed (v : Val).
Arguments NotExecuted {Val}. Arguments Executing {Val}. Arguments Executed {Val}.

Record Chan (Val : Type) := mkChan { ch_meth : string; ch_args : Val; ch_exec : Exec Val; ch_returned : bool }.
Arguments mkChan {Val}. Arguments ch_meth {Val}. Arguments ch_args {Val}.
Arguments ch_exec {Val}. Arguments ch_returned {Val}.

Section channel.
Context {Val : Type}.

Inductive chan_step : option (Chan Val) -> Event Val -> option (Chan Val) -> Prop :=
| cs_call id m a rep :
    chan_step None (EvCall id m a rep) (Some (mkChan m a NotExecuted false))
| cs_exec id p svc meth m a r :
    m = svc +:+ "." +:+ meth ->
    chan_step (Some (mkChan m a NotExecuted r)) (EvExec id p svc meth a) (Some (mkChan m a Executing r))
| cs_handled id m a v r :
    chan_step (Some (mkChan m a Executing r)) (EvHandled id v) (Some (mkChan m a (Executed v) r))
| cs_lost id m a x :
    chan_step (Some (mkChan m a x false)) (EvReturn id None) (Some (mkChan m a x true))
| cs_reply id m a v :
    chan_step (Some (mkChan m a (Executed v) false)) (EvReturn id (Some v)) (Some (mkChan m a (Executed v) true)).

Inductive chan_run : option (Chan Val) -> list (Event Val) -> option (Chan Val) -> Prop :=
| cr_nil c : chan_run c [] c
| cr_cons c1 c2 c3 e l : chan_step c1 e c2 -> chan_run c2 l c3 -> chan_run c1 (e :: l) c3.

Definition ev_id (e : Event Val) : nat :=
  match e with EvCall id _ _ _ | EvExec id _ _ _ _ | EvHandled id _ | EvReturn id _ => id end.

(** The events of one call. *)
Definition events_of (id : nat) (l : list (Event Val)) : list (Event Val) := filter (fun e => ev_id e = id) l.
End channel.

(** * Refinement *)

Ltac go_pairs :=
  repeat (go_inv; match goal with
    | H : (let '(_, _) := ?x in _) = Ret _ |- _ => destruct x; simpl in H
    | H : (_ ≫= _) = Ret _ |- _ => progress simpl in H
    end); go_inv.

Section refinement.
Context {Val : Type} `{CodecLaws Val}.
Implicit Types (s : Sys Val) (pd : Pending Val).

(** Handlers leave replies that gob can encode, and callers pass a fresh reply
    variable of that type. *)
Definition replies_fit (l : list (Event Val)) : Prop :=
  forall id m a rep v, EvCall id m a rep ∈ l -> EvHandled id v ∈ l ->
    (gobEncode v).2 = true /\ rep = zero (typeOf v).

Definition exec_of (h : Handler) (x : Exec Val) (rep : Val) : Prop :=
  match h with
  | HNone | HStarted _ => x = NotExecuted
  | HRunning => x = Executing
  | HReplied r => exists v, x = Executed v /\ ok r = true /\ gobDecode (reply r) rep = (v, true)
  end.

Definition stage_ok pd (r : bool) : Prop :=
  match stage pd with
  | SSending | SAccepted | SFound _ _ _ _ => handler pd = HNone /\ r = false
  | SWaiting _ p _ _ => handler pd <> HNone /\ r = false
  | SGot _ _ _ _ (Some rep) => handler pd = HReplied rep /\ r = false
  | SGot _ _ _ _ None => r = false
  | SReply _ _ rep => (ok rep = true -> handler pd = HReplied rep) /\ r = false
  | SReturned => r = true
  end.

(** The call [pd] as a channel. *)
Definition pending_ok pd (c : Chan Val) : Prop :=
  ch_meth c = svcMeth (req pd) /\ req_args (req pd) = (gobEncode (ch_args c)).1 /\
  (gobEncode (ch_args c)).2 = true /\ argsType (req pd) = typeOf (ch_args c) /\
  exec_of (handler pd) (ch_exec c) (reply_var pd) /\ stage_ok pd (ch_returned c).

Definition sim (o : option (Pending Val)) (c : option (Chan Val)) : Prop :=
  match o, c with
  | None, None => True
  | Some pd, Some c => pending_ok pd c
  | _, _ => False
  end.

Lemma decode_args pd c : pending_ok pd c -> (gobDecode (req_args (req pd)) (zero (argsType (req pd)))).1 = ch_args c.
Proof.
  intros (_ & Ha & Hok & Ht & _). rewrite Ha, Ht. erewrite codec_roundtrip; [done|].
  destruct (gobEncode (ch_args c)) as [b x]; simpl in *; by subst.
Qed.

(** The stages a request can get to. *)
Lemma stage_of_read r rq rn : match processReq_read r rq rn with
  | SFound _ _ _ _ => True | SReply _ _ rep => ok rep = false | _ => False end.
Proof. unfold processReq_read. simpl. repeat case_match; simplify_eq; done. Qed.

Lemma stage_of_finish r1 r2 ra rb rq sn p rel longre rep rn :
  match processReq_finish r1 r2 ra rb rq sn p rel longre rep rn with
  | SReply _ _ x => ok x = true -> rep = Some x | _ => False end.
Proof. unfold processReq_finish. simpl. repeat case_match; simplify_eq; done. Qed.

(** A step of the call [id] from [pd] with the channel in [c]. *)
Definition step_ok (id : nat) pd (c : Chan Val) s s' (ev : list (Event Val)) : Prop :=
  exists c' pd', chan_run (Some c) ev (Some c') /\ calls s' = <[id := pd']> (calls s) /\
    reply_var pd' = reply_var pd /\ pending_ok pd' c' /\ Forall (fun e => ev_id e = id) ev.

(** No event: the channel stays as it is. *)
Lemma quiet_step id pd pd' c s s' :
  pending_ok pd c -> calls s' = <[id := pd']> (calls s) -> req pd' = req pd -> reply_var pd' = reply_var pd ->
  exec_of (handler pd') (ch_exec c) (reply_var pd) -> stage_ok pd' (ch_returned c) -> step_ok id pd c s s' [].
Proof.
  intros (? & ? & ? & ? & _) Hc Hreq Hrep Hx Hst. exists c, pd'.
  repeat split; try done; try (by constructor); by rewrite ?Hreq, ?Hrep.
Qed.

(** The caller returns. *)
Lemma return_step id pd c s s' r :
  pending_ok pd c -> calls s' = <[id := set_stage SReturned pd]> (calls s) -> ch_returned c = false ->
  (forall v, r = Some v -> ch_exec c = Executed v) -> step_ok id pd c s s' [EvReturn id r].
Proof.
  intros (? & ? & ? & ? & ? & _) Hc Hr Hv. destruct c as [m a x ?]. simpl in *. subst.
  exists (mkChan (svcMeth (req pd)) a x true), (set_stage SReturned pd). repeat split; try done.
  - econstructor; [|constructor]. destruct r as [v|]; [rewrite (Hv v eq_refl)|]; constructor.
  - by repeat constructor.
Qed.

(** The handler makes progress; the caller may have returned already. *)
Lemma handler_step id pd h c x s s' e :
  pending_ok pd c -> calls s' = <[id := set_handler h pd]> (calls s) -> ev_id e = id ->
  chan_step (Some c) e (Some (mkChan (ch_meth c) (ch_args c) x (ch_returned c))) ->
  exec_of h x (reply_var pd) -> (forall rep, handler pd <> HReplied rep) -> handler pd <> HNone -> h <> HNone ->
  step_ok id pd c s s' [e].
Proof.
  intros (? & ? & ? & ? & ? & Hst) Hc He Hstep Hx Hnr Hnn Hh.
  eexists _, (set_handler h pd). split_and!; [by econstructor; [|constructor]|done|done| |].
  - repeat split; try done. simpl. unfold stage_ok in *. simpl. destruct (stage pd) as [| | | |? ? ? ? []| |]; try (by destruct Hst); try done.
    + by destruct Hst as [Hst _]; destruct (Hnr _ Hst).
    + destruct Hst as [Hrep ?]. split; [|done]. intros Hok%Hrep. by destruct (Hnr _ Hok).
  - by repeat constructor.
Qed.

Lemma reply_decodes v rep : (gobEncode v).2 = true -> rep = zero (typeOf v) ->
  gobDecode (reply (Service_reply v)) rep = (v, true).
Proof.
  intros Hv ->. apply codec_roundtrip. unfold Service_reply. simpl.
  destruct (gobEncode v); simpl in *; by subst.
Qed.

Lemma dispatch_sim id pd c s s' ev : pending_ok pd c -> dispatch_step id pd s = Ret (s', ev) ->
  step_ok id pd c s s' ev.
Proof.
  intros Hok Hs. pose proof (decode_args pd c Hok) as Hdec. pose proof Hok as (Hm & _ & _ & _ & Hx & _).
  unfold dispatch_step in Hs. destruct (handler pd) as [|p| |] eqn:Hp; try done. simpl in Hx.
  unfold Server_dispatch, Service_dispatch in Hs. go_pairs. case_match; try done. go_inv. rewrite Hdec.
  eapply (handler_step _ _ HRunning _ Executing); try done; try (by rewrite Hp).
  match goal with E : split_svcMeth _ = Some _ |- _ => apply split_inv in E as [Hsp _] end.
  destruct c as [cm ca cx cr]; simpl in *. subst. by constructor.
Qed.

Lemma handled_sim id v pd c s s' ev : pending_ok pd c ->
  (gobEncode v).2 = true -> reply_var pd = zero (typeOf v) -> handled_step id v pd s = Ret (s', ev) ->
  step_ok id pd c s s' ev.
Proof.
  intros Hok Hv Hrep Hs. pose proof Hok as (_ & _ & _ & _ & Hx & _).
  unfold handled_step in Hs. destruct (handler pd) as [| | |] eqn:Hp; try done. simpl in Hx. go_inv.
  eapply (handler_step _ _ (HReplied (Service_reply v)) _ (Executed v)); try done; try (by rewrite Hp).
  - destruct c as [m a x r]; simpl in *. subst. constructor.
  - exists v. split_and!; [done|done|by apply reply_decodes].
Qed.

Lemma call_sim a id pd c s s' ev : pending_ok pd c -> calls s !! id = Some pd ->
  call_step a id pd s = Ret (s', ev) -> step_ok id pd c s s' ev.
Proof.
  intros Hok Hpd Hs. pose proof Hok as (_ & _ & _ & _ & Hx & Hst). unfold stage_ok in Hst.
  destruct a; simpl in Hs; try (by destruct (stage pd));
    destruct (stage pd) as [| |sn p rel lr|sn p rel lr|sn p rel lr rep|ms cnt rep|] eqn:E; try done.
  - case_match; go_inv. eapply return_step; [done|done|by apply Hst|done].
  - case_match; go_inv. by eapply quiet_step.
  - go_inv. eapply quiet_step; try done. unfold stage_ok. simpl.
    pose proof (stage_of_read r (req pd) (net s)) as Hr. destruct (processReq_read _ _ _); try done.
    destruct Hst. split; [congruence|done].
  - unfold processReq_proceed in Hs. destruct Hst as [Hh Hr]. rewrite Hh in Hx.
    destruct (negb rel && _); simpl in Hs; go_inv; by eapply quiet_step.
  - destruct (handler pd) as [| | |rep] eqn:Hh; try done. go_inv.
    eapply quiet_step; try done; [by simpl; rewrite Hh|]. unfold stage_ok; simpl. by destruct Hst.
  - destruct Hst. case_match; go_inv.
    + by eapply quiet_step.
    + eapply (quiet_step id pd pd); try done; [by rewrite insert_id|]. unfold stage_ok. by rewrite E.
  - go_inv. eapply quiet_step; try done. unfold stage_ok. simpl.
    pose proof (stage_of_finish r1 r2 ra rb (req pd) sn p rel lr rep (net s)) as Hf.
    destruct (processReq_finish _ _ _ _ _ _ _ _ _ _ _); try done. destruct rep as [rep|].
    + destruct Hst as [Hh Hr]. split; [|done]. intros Ho. specialize (Hf Ho). congruence.
    + split; [|done]. intros Ho. by specialize (Hf Ho).
  - destruct Hst as [Hh Hr]. unfold Call_end in Hs. destruct (ok rep) eqn:Hok'; simpl in Hs.
    + rewrite Hh in Hx by done. destruct Hx as (v & Hv & _ & Hdec). rewrite Hdec in Hs. simpl in Hs. go_inv.
      eapply return_step; [done|done|done|]. congruence.
    + go_inv. by eapply return_step.
Qed.

#[local] Arguments call_step : simpl never.

Lemma chan_run_app (c1 c2 c3 : option (Chan Val)) l1 l2 : chan_run c1 l1 c2 -> chan_run c2 l2 c3 -> chan_run c1 (l1 ++ l2) c3.
Proof. induction 1; simpl; eauto using chan_run. Qed.

Lemma events_of_same id (ev : list (Event Val)) : Forall (fun e => ev_id e = id) ev -> events_of id ev = ev.
Proof. intros HF. unfold events_of. induction HF; [done|]. by rewrite filter_cons_True, IHHF. Qed.

Lemma events_of_other id j (ev : list (Event Val)) : Forall (fun e => ev_id e = id) ev -> j <> id -> events_of j ev = [].
Proof.
  intros HF Hj. unfold events_of. induction HF as [|e l He _ IH]; [done|]. rewrite filter_cons_False; [done|].
  congruence.
Qed.

(** All calls, with what their callers passed for the reply. *)
Definition sys_ok s (cs : nat -> option (Chan Val)) : Prop := forall id, sim (calls s !! id) (cs id).

Definition handled_fits s (ev : list (Event Val)) : Prop :=
  forall id v pd, EvHandled id v ∈ ev -> calls s !! id = Some pd ->
    (gobEncode v).2 = true /\ reply_var pd = zero (typeOf v).

(** What a step does to the calls: a new one, a step of one, or nothing. *)
Definition step_effect s s' (ev : list (Event Val)) (cs cs' : nat -> option (Chan Val)) : Prop :=
  sys_ok s' cs' /\ forall id, chan_run (cs id) (events_of id ev) (cs' id).

Lemma effect_none s s' cs : sys_ok s cs -> calls s' = calls s -> step_effect s s' [] cs cs.
Proof. intros Hok Hc. split; [unfold sys_ok; by rewrite Hc|]. intros id. constructor. Qed.

Lemma effect_one id pd c s s' ev cs : sys_ok s cs -> cs id = Some c -> step_ok id pd c s s' ev ->
  exists c', step_effect s s' ev cs (fun j => if decide (j = id) then Some c' else cs j).
Proof.
  intros Hok Hc (c' & pd' & Hrun & Hcalls & _ & Hpd & HF). exists c'. split.
  - intros j. rewrite Hcalls. case_decide as Hj; [subst; by rewrite lookup_insert_eq|].
    rewrite lookup_insert_ne by done. apply Hok.
  - intros j. case_decide as Hj; [subst; by rewrite Hc, events_of_same|].
    rewrite (events_of_other id) by done. constructor.
Qed.

Lemma effect_call id e m args rep s s' ev cs : sys_ok s cs ->
  step (ACall id e m args rep) s = Ret (s', ev) -> exists cs', step_effect s s' ev cs cs'.
Proof.
  intros Hok Hs. simpl in Hs. destruct (calls s !! id) eqn:Hn; [done|]. unfold Call in Hs.
  destruct (gobEncode args) as [b noerr] eqn:He. destruct noerr; [|done]. simpl in Hs. go_inv.
  exists (fun j => if decide (j = id) then Some (mkChan m args NotExecuted false) else cs j).
  assert (cs id = None) as Hnone. { specialize (Hok id). rewrite Hn in Hok. by destruct (cs id). }
  split; intros j; simpl; (case_decide as Hj; [subst j|]).
  - rewrite lookup_insert_eq. unfold sim, pending_ok. simpl. rewrite He. done.
  - rewrite lookup_insert_ne by done. apply Hok.
  - rewrite events_of_same by (by repeat constructor). rewrite Hnone. econstructor; constructor.
  - rewrite (events_of_other id) by (done || by repeat constructor). constructor.
Qed.

Lemma effect_step a s s' ev cs : sys_ok s cs -> handled_fits s ev -> step a s = Ret (s', ev) ->
  exists cs', step_effect s s' ev cs cs'.
Proof.
  intros Hok Hfit Hs.
  assert (forall id pd, calls s !! id = Some pd -> exists c, cs id = Some c /\ pending_ok pd c) as Hc.
  { intros id pd Hpd. specialize (Hok id). rewrite Hpd in Hok. destruct (cs id); [eauto|done]. }
  destruct a; try (by eapply effect_call); simpl in Hs.
  all: try (unfold MakeEnd, DeleteEnd, Cleanup in Hs; repeat case_match; go_inv; simpl in *; go_inv;
    eexists; by apply effect_none).
  all: destruct (calls s !! id) as [pd|] eqn:Hpd; [|done]; destruct (Hc id pd Hpd) as (c & Hcc & Hp);
    (destruct (effect_one id pd c s s' ev cs) as [c' Hc']; [done|done| |by eexists]);
    try first [by eapply call_sim|by eapply dispatch_sim].
  pose proof Hs as Hs'. unfold handled_step in Hs. destruct (handler pd) eqn:Hh; try done. go_inv.
  eapply handled_sim; try done; eapply Hfit; try done; by left.
Qed.
(** The reply variables are those passed to [Call]. *)
Definition recorded s (l : list (Event Val)) : Prop :=
  forall id pd, calls s !! id = Some pd -> exists m a, EvCall id m a (reply_var pd) ∈ l.

Lemma call_step_var a id pd s s' ev : calls s !! id = Some pd -> call_step a id pd s = Ret (s', ev) ->
  exists pd', calls s' = <[id := pd']> (calls s) /\ reply_var pd' = reply_var pd.
Proof.
  intros Hpd Hs. unfold call_step in Hs.
  destruct a; try (by destruct (stage pd)); destruct (stage pd) eqn:E; try done; repeat case_match; go_inv;
    try (by eexists). exists pd. by rewrite insert_id.
Qed.

Lemma recorded_insert id pd pd' s s' l : recorded s l -> calls s !! id = Some pd ->
  calls s' = <[id := pd']> (calls s) -> reply_var pd' = reply_var pd -> recorded s' l.
Proof.
  intros Hrec Hpd Hc Hv j x. rewrite Hc. intros [[<- <-]|[_ Hx]]%lookup_insert_Some; [rewrite Hv|]; by apply Hrec.
Qed.

Lemma recorded_step a s s' ev l : recorded s l -> step a s = Ret (s', ev) -> recorded s' (l ++ ev).
Proof.
  intros Hrec Hs. assert (recorded s' l -> recorded s' (l ++ ev)) as Hmono.
  { intros Hr id pd Hpd. destruct (Hr id pd Hpd) as (m & a' & Hin). exists m, a'. apply elem_of_app. by left. }
  destruct a; simpl in Hs.
  all: try (apply Hmono; unfold MakeEnd, DeleteEnd, Cleanup in Hs; repeat case_match; go_inv; simpl in *; go_inv; done).
  all: destruct (calls s !! id) as [pd|] eqn:Hpd; try done.
  all: try (destruct (call_step_var _ _ _ _ _ _ Hpd Hs) as (pd' & ? & ?); apply Hmono; by eapply recorded_insert).
  - unfold Call in Hs. go_pairs. case_match; go_inv. intros j x. simpl. intros [[<- <-]|[_ Hx]]%lookup_insert_Some.
    + eexists _, _. apply elem_of_app. right. by left.
    + destruct (Hrec j x Hx) as (m' & a' & Hin). exists m', a'. apply elem_of_app. by left.
  - unfold dispatch_step in Hs. destruct (handler pd); try done. go_pairs. apply Hmono. by eapply recorded_insert.
  - unfold handled_step in Hs. destruct (handler pd); try done. go_pairs. apply Hmono. by eapply recorded_insert.
Qed.

Lemma events_of_app id (l1 l2 : list (Event Val)) : events_of id (l1 ++ l2) = events_of id l1 ++ events_of id l2.
Proof. apply filter_app. Qed.

Lemma run_refines acts : forall s s' past tr cs, sys_ok s cs -> recorded s past -> replies_fit (past ++ tr) ->
  run acts s = Ret (s', tr) -> exists cs', sys_ok s' cs' /\ forall id, chan_run (cs id) (events_of id tr) (cs' id).
Proof.
  induction acts as [|a acts IH]; intros s s' past tr cs Hok Hrec Hfit Hrun; simpl in Hrun.
  - go_inv. exists cs. split; [done|]. intros id. constructor.
  - apply go_bind_Ret in Hrun as ([s1 ev] & Hs & Hrun). apply go_bind_Ret in Hrun as ([s2 tr'] & Hr & Hrun). go_inv.
    destruct (effect_step a s s1 ev cs Hok) as (cs1 & Hok1 & Hrun1); [|done|].
    { intros id v pd Hv Hpd. destruct (Hrec id pd Hpd) as (m & a' & Hin).
      apply (Hfit id m a'); set_solver. }
    destruct (IH s1 s' (past ++ ev) tr' cs1) as (cs2 & Hok2 & Hrun2); try done.
    { by eapply recorded_step. } { by rewrite <- app_assoc. }
    exists cs2. split; [done|]. intros id. rewrite events_of_app. by eapply chan_run_app.
Qed.

(** C13. The network refines the channel: in every run of ends, servers, calls and
    handlers, with ends enabled and disabled and servers added and deleted at any
    time, each call is executed at most once, at the method and with the arguments
    it was made with, and returns at most once, with the reply of that execution or
    with none.  Handlers leave values that can be encoded and callers pass a fresh
    variable of the reply's type. *)
Theorem labrpc_refines_channel acts s tr : run acts start = Ret (s, tr) -> replies_fit tr ->
  forall id, exists c, chan_run None (events_of id tr) c.
Proof.
  intros Hrun Hfit id. destruct (run_refines acts start s [] tr (fun _ => None)) as (cs & _ & Hcs); try done.
  eauto.
Qed.
(** * Calls return

    How many steps of its caller and of [processReq] a call has to go. *)
Definition rank pd : nat :=
  match stage pd with
  | SSending => 6 | SAccepted => 5 | SFound _ _ _ _ => 4 | SWaiting _ _ _ _ => 3
  | SGot _ _ _ _ _ => 2 | SReply _ _ _ => 1 | SReturned => 0
  end.

(** The only thing a call waits for: a handler that has not returned, at a server that
    has neither been deleted nor replaced, over an end that is enabled. *)
Definition awaits_handler pd s : Prop :=
  exists sn p rel lr, stage pd = SWaiting sn p rel lr /\ (forall rep, handler pd <> HReplied rep) /\
    isServerDead (req_endname (req pd)) sn p (net s) = false.

(** The step that the call [id] takes next, with what [rand] draws. *)
Definition own_step (id : nat) pd s (r1 r2 ra rb : Z) : Act Val :=
  match stage pd with
  | SSending => if done (net s) then ACancel id else AAccept id
  | SAccepted => ARead id r1
  | SFound _ _ _ _ => AProceed id r1
  | SWaiting _ _ _ _ => match handler pd with HReplied _ => AReceive id | _ => ATick id end
  | SGot _ _ _ _ _ => AFinish id r1 r2 ra rb
  | SReply _ _ _ | SReturned => ASend id
  end.

(** The network's goroutine only returns after [Cleanup]. *)
Lemma listener_run acts : forall s s' tr, (listening s = false -> done (net s) = true) -> run acts s = Ret (s', tr) ->
  listening s' = false -> done (net s') = true.
Proof.
  induction acts as [|a acts IH]; intros s s' tr Hl Hrun; simpl in Hrun; [by go_inv|].
  apply go_bind_Ret in Hrun as ([s1 ev] & Hs & Hrun). apply go_bind_Ret in Hrun as ([s2 tr'] & Hr & Hrun). go_inv.
  eapply IH; [|exact Hr]. clear IH Hr. destruct a; simpl in Hs.
  all: try (unfold MakeEnd, DeleteEnd, Cleanup in Hs; repeat case_match; go_inv; simpl in *; go_inv; simpl; auto; done).
  all: destruct (calls s !! id) as [pd|]; try done.
  all: try (unfold call_step in Hs; destruct (stage pd); try done; repeat case_match; go_pairs; repeat case_match; simpl; auto; done).
  - unfold call_step in Hs. destruct (stage pd); try done. case_match; go_inv. simpl. congruence.
  - unfold dispatch_step in Hs. destruct (handler pd); try done. by go_pairs.
  - unfold handled_step in Hs. destruct (handler pd); try done. by go_inv.
Qed.

(** A step of a call is idle or brings it closer to its end. *)
Lemma call_step_rank a id pd s s' ev : calls s !! id = Some pd -> call_step a id pd s = Ret (s', ev) ->
  s' = s \/ exists pd', calls s' = <[id := pd']> (calls s) /\ (rank pd' < rank pd)%nat.
Proof.
  intros Hpd Hs. unfold call_step in Hs.
  destruct a; try (by destruct (stage pd)); destruct (stage pd) as [| |sn p rel lr|sn p rel lr|sn p rel lr rep|ms cnt rep|] eqn:E; try done;
    unfold rank; rewrite E.
  - case_match; go_inv. right. eexists. split; [done|]. simpl. lia.
  - case_match; go_inv. right. eexists. split; [done|]. simpl. lia.
  - go_inv. right. eexists. split; [done|]. simpl. pose proof (stage_of_read r (req pd) (net s)). destruct (processReq_read _ _ _); try done; lia.
  - unfold processReq_proceed in Hs. case_match; go_inv; right; eexists; (split; [done|]); simpl; repeat case_match; simplify_eq; lia.
  - case_match; go_inv. right. eexists. split; [done|]. simpl. lia.
  - case_match; go_inv; [|by left]. right. eexists. split; [done|]. simpl. lia.
  - go_inv. right. eexists. split; [done|]. simpl. pose proof (stage_of_finish r1 r2 ra rb (req pd) sn p rel lr rep (net s)).
    destruct (processReq_finish _ _ _ _ _ _ _ _ _ _ _); try done; lia.
  - go_pairs. right. eexists. split; [done|]. simpl. lia.
Qed.

(** Other steps leave it where it is. *)
Lemma other_step_rank a id pd s s' ev : calls s !! id = Some pd -> step a s = Ret (s', ev) -> act_call a <> Some id ->
  exists pd', calls s' !! id = Some pd' /\ stage pd' = stage pd.
Proof.
  intros Hpd Hs Hne. destruct a as [| | | | | | | | | | | | |j e m args rep|j|j|j r|j r|j|j v|j|j|j r1 r2 ra rb|j]; simpl in Hs, Hne.
  all: try (unfold MakeEnd, DeleteEnd, Cleanup in Hs; repeat case_match; go_inv; simpl in *; go_inv; by exists pd).
  { destruct (calls s !! j) eqn:Hj; [done|]. unfold Call in Hs. destruct (gobEncode args) as [b []]; simpl in Hs; go_inv.
    exists pd. split; [|done]. simpl. rewrite lookup_insert_ne; [done|]. congruence. }
  all: destruct (calls s !! j) as [x|] eqn:Hj; try done.
  all: try (destruct (call_step_rank _ _ _ _ _ _ Hj Hs) as [->|(pd' & -> & _)]; exists pd; [done|]; by rewrite lookup_insert_ne by congruence).
  - unfold dispatch_step in Hs. destruct (handler x); try done. go_pairs. simpl.
    destruct (decide (j = id)) as [->|]; [rewrite lookup_insert_eq; exists (set_handler HRunning x); naive_solver|].
    rewrite lookup_insert_ne by done. by exists pd.
  - unfold handled_step in Hs. destruct (handler x); try done. go_inv. simpl.
    destruct (decide (j = id)) as [->|]; [rewrite lookup_insert_eq; eexists; split; [done|]; naive_solver|].
    rewrite lookup_insert_ne by done. by exists pd.
Qed.

Lemma stage_returned pd : stage pd = SReturned \/ stage pd <> SReturned.
Proof. destruct (stage pd); by (left + right). Qed.

Lemma step_own a id pd s : act_call a = Some id -> calls s !! id = Some pd -> step a s = call_step a id pd s.
Proof. intros Ha Hpd. destruct a; try done; simpl in Ha; injection Ha as ->; simpl; by rewrite Hpd. Qed.

Lemma own_step_act id pd s r1 r2 ra rb : act_call (own_step id pd s r1 r2 ra rb) = Some id.
Proof. unfold own_step. by repeat case_match. Qed.

(** The next step of a call that does not wait is enabled and not idle. *)
Lemma own_step_enabled id pd s : calls s !! id = Some pd -> stage pd <> SReturned ->
  (listening s = false -> done (net s) = true) ->
  (forall ms cnt rep, stage pd = SReply ms cnt rep -> ok rep = true -> exists v, gobDecode (reply rep) (reply_var pd) = (v, true)) ->
  awaits_handler pd s \/ forall r1 r2 ra rb, exists s' pd' ev,
    call_step (own_step id pd s r1 r2 ra rb) id pd s = Ret (s', ev) /\ calls s' !! id = Some pd' /\ stage pd' <> stage pd.
Proof.
  intros Hpd Hnr Hl Hd. destruct (stage pd) as [| |sn p rel lr|sn p rel lr|sn p rel lr rep|ms cnt rep|] eqn:E; try done.
  4: destruct (handler pd) eqn:Eh, (isServerDead (req_endname (req pd)) sn p (net s)) eqn:Ed;
    try (left; exists sn, p, rel, lr; split_and!; [done|by rewrite Eh|done]).
  all: right; intros r1 r2 ra rb; unfold own_step, call_step; rewrite E, ?Eh, ?Ed.
  all: try (eexists _, _, _; split; [done|]; split; [apply lookup_insert_eq|done]).
  - destruct (done (net s)) eqn:Ed; [|destruct (listening s) eqn:El; [|by specialize (Hl eq_refl)]].
    all: eexists _, _, _; (split; [done|]); split; [apply lookup_insert_eq|done].
  - eexists _, _, _. split; [done|]. split; [apply lookup_insert_eq|]. simpl.
    pose proof (stage_of_read r1 (req pd) (net s)) as Hr. by destruct (processReq_read _ _ _).
  - unfold processReq_proceed. destruct (_ && _); (eexists _, _, _; split; [done|]; split; [apply lookup_insert_eq|done]).
  - eexists _, _, _. split; [done|]. split; [apply lookup_insert_eq|]. simpl.
    pose proof (stage_of_finish r1 r2 ra rb (req pd) sn p rel lr rep (net s)) as Hf. by destruct (processReq_finish _ _ _ _ _ _ _ _ _ _ _).
  - unfold Call_end. destruct (ok rep) eqn:Ho; simpl; [destruct (Hd ms cnt rep eq_refl Ho) as [v ->]; simpl|].
    all: eexists _, _, _; (split; [done|]); split; [apply lookup_insert_eq|done].
Qed.

(** C15. A call is never stuck but on its handler.  In every run whose handlers leave
    values that gob can encode and whose callers pass a fresh variable of the reply's
    type, a call that has been made and has not returned either waits for a handler that
    has not returned, at a server that is still there, or can take its next step,
    whatever the network draws; every such step brings it closer to its end, which is
    at most six steps away; any other step it takes is idle, and nothing else that
    happens in the network takes it back.  At rank 0 it has returned. *)
Theorem Call_returns acts s tr id pd : run acts start = Ret (s, tr) -> replies_fit tr -> calls s !! id = Some pd ->
  (rank pd <= 6)%nat /\ (rank pd = 0%nat <-> stage pd = SReturned) /\
  (stage pd = SReturned \/ awaits_handler pd s \/
   forall r1 r2 ra rb, exists s' ev pd', step (own_step id pd s r1 r2 ra rb) s = Ret (s', ev) /\
     calls s' !! id = Some pd' /\ (rank pd' < rank pd)%nat) /\
  forall a s' ev, step a s = Ret (s', ev) -> exists pd', calls s' !! id = Some pd' /\
    if decide (act_call a = Some id) then s' = s \/ (rank pd' < rank pd)%nat else rank pd' = rank pd.
Proof.
  intros Hrun Hfit Hpd. split_and!; [unfold rank; destruct (stage pd); lia|by unfold rank; destruct (stage pd)| |].
  - destruct (stage_returned pd) as [|Hnr]; [by left|right].
    destruct (run_refines acts start s [] tr (fun _ => None)) as (cs & Hcs & _); try done.
    specialize (Hcs id). rewrite Hpd in Hcs. destruct (cs id) as [c|]; [|done]. destruct Hcs as (_ & _ & _ & _ & Hx & Hst).
    destruct (own_step_enabled id pd s Hpd Hnr) as [?|Hen]; [eapply (listener_run acts start); [done|exact Hrun]| |by left|].
    + intros ms cnt rep Hs Hok. unfold stage_ok in Hst. rewrite Hs in Hst. rewrite (proj1 Hst Hok) in Hx. destruct Hx as (v & _ & _ & ?). eauto.
    + right. intros r1 r2 ra rb. destruct (Hen r1 r2 ra rb) as (s' & pd' & ev & Hs & Hc & Hne). exists s', ev, pd'.
      split; [by rewrite (step_own _ id pd) by (done || apply own_step_act)|]. split; [done|].
      destruct (call_step_rank _ _ _ _ _ _ Hpd Hs) as [->|(x & Hx' & Hr)]; [congruence|].
      rewrite Hx', lookup_insert_eq in Hc. by injection Hc as <-.
  - intros a s' ev Hs. case_decide as Ha.
    + rewrite (step_own a id pd s Ha Hpd) in Hs. destruct (call_step_rank _ _ _ _ _ _ Hpd Hs) as [->|(pd' & -> & Hr)]; [exists pd; auto|].
      exists pd'. rewrite lookup_insert_eq. auto.
    + destruct (other_step_rank _ _ _ _ _ _ Hpd Hs Ha) as (pd' & ? & He). exists pd'. split; [done|]. unfold rank. by rewrite He.
Qed.

(** * Deleted servers *)

Definition detached (p : nat) s : Prop := forall sn, server_at (net s) sn <> Some p.
Definition registers (p : nat) (a : Act Val) : bool :=
  match a with AAddServer _ q => bool_decide (q = p) | _ => false end.

(** The request reached the server [p], and no reply is on its way. *)
Definition unanswered (p : nat) pd : Prop :=
  match stage pd with
  | SSending | SAccepted => False
  | SFound _ q _ _ | SWaiting _ q _ _ | SGot _ q _ _ _ => q = p
  | SReply _ _ rep => ok rep = false
  | SReturned => True
  end.

Lemma server_at_insert rn sn x sn' : server_at (set_servers (<[sn := x]> (servers rn)) rn) sn' =
  if decide (sn = sn') then x else server_at rn sn'.
Proof.
  unfold server_at. simpl. case_decide; [subst; by rewrite lookup_insert_eq|by rewrite lookup_insert_ne].
Qed.

Lemma call_step_servers a id pd s s' ev : call_step a id pd s = Ret (s', ev) -> servers (net s') = servers (net s).
Proof.
  unfold call_step. intros Hs.
  destruct a; try (by destruct (stage pd)); destruct (stage pd); try done; repeat case_match; go_inv; done.
Qed.

Lemma detached_step p a s s' ev : detached p s -> registers p a = false -> step a s = Ret (s', ev) -> detached p s'.
Proof.
  intros Hd Hr Hs. assert (servers (net s') = servers (net s) -> detached p s') as Hsame.
  { intros E sn. unfold server_at. rewrite E. apply Hd. }
  destruct a; simpl in Hs.
  all: try (apply Hsame; unfold MakeEnd, DeleteEnd, Cleanup in Hs; repeat case_match; go_inv; simpl in *; go_inv; done).
  all: try (apply Hsame; destruct (calls s !! id); [by eapply call_step_servers|done]).
  - case_match; go_inv. simpl in *. intros sn'. unfold AddServer. simpl. rewrite server_at_insert.
    destruct (decide (sn = sn')); [|apply Hd]. apply bool_decide_eq_false in Hr. congruence.
  - go_inv. intros sn'. unfold DeleteServer. simpl. rewrite server_at_insert. case_decide; [done|apply Hd].
  - apply Hsame. unfold dispatch_step in Hs. repeat case_match; go_pairs. done.
  - apply Hsame. unfold handled_step in Hs. repeat case_match; go_pairs. done.
Qed.
Lemma call_step_local a id pd s s' ev : calls s !! id = Some pd -> call_step a id pd s = Ret (s', ev) ->
  Forall (fun e => ev_id e = id) ev.
Proof.
  intros Hpd Hs. unfold call_step in Hs.
  destruct a; try (by destruct (stage pd)); destruct (stage pd) eqn:E; try done; repeat case_match; go_inv;
    by repeat constructor.
Qed.

(** What a step can do to a call other than its own. *)
Lemma step_local a s s' ev id pd : calls s !! id = Some pd -> step a s = Ret (s', ev) ->
  (calls s' !! id = Some pd /\ forall v, EvReturn id v ∉ ev) \/
  (exists pd', calls s' !! id = Some pd' /\ stage pd' = stage pd /\ forall v, EvReturn id v ∉ ev) \/
  call_step a id pd s = Ret (s', ev).
Proof.
  intros Hpd Hs.
  assert (forall id' pd' (ev' : list (Event Val)), id' <> id -> calls s' = <[id' := pd']> (calls s) ->
    Forall (fun e => ev_id e = id') ev' -> calls s' !! id = Some pd /\ forall v, EvReturn id v ∉ ev') as Hoth.
  { intros id' pd' ev' Hne -> HF. rewrite lookup_insert_ne by done. split; [done|]. intros v Hv.
    rewrite Forall_forall in HF. by apply HF in Hv. }
  destruct a; simpl in Hs.
  all: try (left; unfold MakeEnd, DeleteEnd, Cleanup in Hs; repeat case_match; go_inv; simpl in *; go_inv;
    split; [done|set_solver]).
  all: rename id0 into id'; destruct (calls s !! id') as [pd'|] eqn:Hpd'; try done.
  all: try (destruct (decide (id' = id)) as [->|Hne]; [simplify_eq; by auto|left;
    destruct (call_step_var _ _ _ _ _ _ Hpd' Hs) as (pd2 & ? & ?); eapply Hoth; eauto using call_step_local]).
  - left. unfold Call in Hs. go_pairs. case_match; go_inv. assert (id' <> id) by congruence.
    eapply Hoth; [done|done|by repeat constructor].
  - unfold dispatch_step in Hs. destruct (handler pd'); try done. go_pairs. destruct (decide (id' = id)) as [->|Hne].
    + simplify_eq. right. left. eexists. split_and!; [apply lookup_insert_eq|done|set_solver].
    + left. eapply Hoth; [done|done|by repeat constructor].
  - unfold handled_step in Hs. destruct (handler pd'); try done. go_pairs. destruct (decide (id' = id)) as [->|Hne].
    + simplify_eq. right. left. eexists. split_and!; [apply lookup_insert_eq|done|set_solver].
    + left. eapply Hoth; [done|done|by repeat constructor].
Qed.

Lemma call_step_unanswered p a id pd s s' ev : detached p s -> calls s !! id = Some pd -> unanswered p pd ->
  call_step a id pd s = Ret (s', ev) ->
  (exists pd', calls s' !! id = Some pd' /\ unanswered p pd') /\ forall v, EvReturn id (Some v) ∉ ev.
Proof.
  intros Hd Hpd Hun Hs. unfold call_step in Hs. unfold unanswered in Hun.
  assert (forall st s1 (ev1 : list (Event Val)), match st with SWaiting _ q _ _ | SGot _ q _ _ _ => q = p | SReply _ _ rep => ok rep = false
      | SReturned => True | _ => False end -> calls s1 = <[id := set_stage st pd]> (calls s) ->
    (forall v, EvReturn id (Some v) ∉ ev1) ->
    (exists pd', calls s1 !! id = Some pd' /\ unanswered p pd') /\ forall v, EvReturn id (Some v) ∉ ev1) as Hgo.
  { intros st s1 ev1 Hst -> ?. split; [|done]. exists (set_stage st pd). rewrite lookup_insert_eq. split; [done|].
    unfold unanswered. simpl. by destruct st. }
  destruct a; try (by destruct (stage pd)); destruct (stage pd) as [| |sn q rel lr|sn q rel lr|sn q rel lr rep|ms cnt rep|] eqn:E;
    try done; subst.
  - unfold processReq_proceed in Hs. destruct (negb rel && _); simpl in Hs; go_inv;
      (split; [|set_solver]); eexists; (split; [apply lookup_insert_eq|done]).
  - destruct (handler pd); try done. go_inv. eapply Hgo; [|done|set_solver]; done.
  - case_match; go_inv; [eapply Hgo; [|done|set_solver]; done|]. split; [|set_solver]. exists pd. split; [done|].
    unfold unanswered. by rewrite E.
  - go_inv. eapply Hgo; [|done|set_solver]. unfold processReq_finish. destruct rep; [|done].
    assert (isServerDead (req_endname (req pd)) sn p (net s) = true) as ->; [|done].
    unfold isServerDead. apply orb_true_iff. right. apply bool_decide_eq_true. apply Hd.
  - unfold Call_end in Hs. rewrite Hun in Hs. simpl in Hs. go_inv. eapply Hgo; [|done|set_solver]; done.
Qed.

(** C14. A server that was deleted never acknowledges: once no name is bound to the
    server, a request that has reached it and whose reply is not already being sent
    returns without a reply, whatever its handler still does, unless the server is
    registered again. *)
Theorem deleted_server_never_acks p acts : forall s s' tr id pd,
  detached p s -> calls s !! id = Some pd -> unanswered p pd ->
  Forall (fun a => registers p a = false) acts -> run acts s = Ret (s', tr) ->
  forall v, EvReturn id (Some v) ∉ tr.
Proof.
  induction acts as [|a acts IH]; intros s s' tr id pd Hd Hpd Hun HF Hrun v; simpl in Hrun.
  - go_inv. set_solver.
  - apply go_bind_Ret in Hrun as ([s1 ev] & Hs & Hrun). apply go_bind_Ret in Hrun as ([s2 tr'] & Hr & Hrun). go_inv.
    apply Forall_cons in HF as [Ha HF].
    assert ((exists pd', calls s1 !! id = Some pd' /\ unanswered p pd') /\ forall v, EvReturn id (Some v) ∉ ev)
      as [(pd' & Hpd' & Hun') Hev].
    { destruct (step_local _ _ _ _ _ _ Hpd Hs) as [[? ?]|[(pd' & ? & Hst & ?)|Hc]]; [by eauto| |].
      - split; [|done]. exists pd'. split; [done|]. unfold unanswered in *. by rewrite Hst.
      - by eapply call_step_unanswered. }
    rewrite elem_of_app. intros [?|?]; [by eapply Hev|]. eapply (IH s1); eauto using detached_step.
Qed.
(** * Counting *)

Definition executed_at (p : nat) (e : Event Val) : Prop :=
  match e with EvExec _ q _ _ _ => q = p | _ => False end.
#[local] Instance executed_at_dec p e : Decision (executed_at p e).
Proof. destruct e; simpl; apply _. Defined.
Definition executions (p : nat) (l : list (Event Val)) : Z := zlen (filter (executed_at p) l).

Lemma executions_app p l1 l2 : executions p (l1 ++ l2) = executions p l1 + executions p l2.
Proof. unfold executions, zlen. rewrite filter_app, length_app. lia. Qed.

Lemma executions_other p q id svc meth v : p <> q -> executions q [EvExec id p svc meth v] = 0.
Proof. intros Hne. unfold executions. by rewrite filter_cons_False. Qed.

Lemma call_step_quiet a id pd s s' ev : call_step a id pd s = Ret (s', ev) ->
  heap s' = heap s /\ forall p, executions p ev = 0.
Proof.
  unfold call_step. intros Hs.
  destruct a; try (by destruct (stage pd)); destruct (stage pd); try done; repeat case_match; go_inv; done.
Qed.

Definition counts_ok s (l : list (Event Val)) : Prop :=
  forall p, match heap s !! p with Some rs => srv_count rs = executions p l | None => executions p l = 0 end.

Lemma counts_step a s s' ev l : counts_ok s l -> step a s = Ret (s', ev) -> counts_ok s' (l ++ ev).
Proof.
  intros Hc Hs.
  assert ((forall p, executions p ev = 0) -> (forall p, option_map srv_count (heap s' !! p) = option_map srv_count (heap s !! p) \/
     (heap s !! p = None /\ option_map srv_count (heap s' !! p) = Some 0)) -> counts_ok s' (l ++ ev)) as Hsame.
  { intros He Hh p. rewrite executions_app, He, Z.add_0_r. specialize (Hc p). specialize (Hh p).
    destruct (heap s' !! p), (heap s !! p); simpl in *; destruct Hh as [|[]]; simplify_eq; congruence. }
  destruct a; simpl in Hs.
  all: try (apply Hsame; unfold MakeEnd, DeleteEnd, Cleanup in Hs; repeat case_match; go_inv; simpl in *; go_inv;
    by auto).
  all: try (destruct (calls s !! id) as [pd|]; [|done]; destruct (call_step_quiet _ _ _ _ _ _ Hs) as [Hh ?];
    apply Hsame; [done|rewrite Hh; by left]).
  - destruct (heap s !! p) eqn:Hp; [done|]. go_inv. apply Hsame; [done|]. intros q. simpl.
    destruct (decide (p = q)) as [->|]; [rewrite lookup_insert_eq; by right|rewrite lookup_insert_ne by done; by left].
  - go_inv. apply Hsame; [done|]. intros q. simpl. left.
    destruct (decide (p = q)) as [->|]; [by rewrite lookup_insert_eq, E|by rewrite lookup_insert_ne].
  - destruct (calls s !! id) as [pd|]; [|done]. unfold dispatch_step, Server_dispatch in Hs.
    destruct (handler pd) as [|p| |]; try done. go_pairs. intros q. rewrite executions_app. specialize (Hc q). simpl.
    destruct (decide (p = q)) as [->|]; [rewrite lookup_insert_eq|rewrite lookup_insert_ne by done].
    + match goal with Eh : heap s !! q = Some _ |- _ => rewrite Eh in Hc end. unfold executions at 2. rewrite filter_cons_True by done. simpl. rewrite Hc. done.
    + rewrite executions_other by done. by rewrite Z.add_0_r.
  - destruct (calls s !! id) as [pd|]; [|done]. unfold handled_step in Hs. destruct (handler pd); try done.
    go_inv. apply Hsame; [done|by left].
Qed.

(** The count of a server is the number of requests its handlers were run for. *)
Lemma server_count acts : forall s s' l tr, counts_ok s l -> run acts s = Ret (s', tr) -> counts_ok s' (l ++ tr).
Proof.
  induction acts as [|a acts IH]; intros s s' l tr Hc Hrun; simpl in Hrun.
  - go_inv. by rewrite app_nil_r.
  - apply go_bind_Ret in Hrun as ([s1 ev] & Hs & Hrun). apply go_bind_Ret in Hrun as ([s2 tr'] & Hr & Hrun). go_inv.
    rewrite app_assoc. eapply IH; [|done]. by eapply counts_step.
Qed.
End refinement.
