(* ===== verification/LabRpcWitness.v ===== *)
(** Concrete runs of the network of [labrpc]. *)

From S2P Require Import Prelude Gob LabRpc LabRpcSpec.
Local Open Scope Z_scope.

(** Values are strings, encoded with the concrete codec of [Gob]. *)
#[export] Instance string_codec : Codec string := {|
  typeOf _ := "string"%string;
  zero _ := ""%string;
  gobEncode v := (@gob_encode string countable_gob v, true);
  gobDecode b old := match @gob_decode string countable_gob b with Some (v, _) => (v, true) | None => (old, false) end
|}.

#[export] Instance string_codec_laws : CodecLaws string.
Proof.
  split. intros v b [= <-]. simpl. pose proof (@gob_roundtrip_nil string _ countable_gob_laws v) as Hr.
  simpl in Hr. by rewrite Hr.
Qed.

(** A service with a handler, a method with a result and an unexported one. *)
Definition ex_service : Service := default (mkService "" ∅)
  (MakeService "KVServer"
     [mkMethod "Get" "" [(true, "KVServer"); (true, "GetArgs"); (true, "GetReply")]%string 0;
      mkMethod "Kill" "" [(true, "KVServer")]%string 0;
      mkMethod "rf" "kvraft" [(true, "KVServer"); (true, "x"); (true, "y")]%string 0;
      mkMethod "Size" "" [(true, "KVServer"); (true, "x"); (true, "y")]%string 1]).

Example ex_methods : map fst (map_to_list (methods ex_service)) = ["Get"%string].
Proof. vm_compute. reflexivity. Qed.

Example ex_no_dot : step (ADispatch 1) (mkSys MakeNetwork {[1%nat := MakeServer]}
  {[1%nat := mkPending (mkReqMsg (IInt 0) "Get" "string" []) ""%string SSending (HStarted 1%nat)]} true) = Panic.
Proof. vm_compute. reflexivity. Qed.

Definition c0 : ClientEnd := mkClientEnd (IStr "c0").

Definition ex_setup : list (Act string) :=
  [AMakeServer 1; AAddService 1 ex_service; AAddServer (IInt 0) 1; AMakeEnd (IStr "c0");
   AConnect (IStr "c0") (IInt 0); AEnable (IStr "c0") true].

(** The first call is answered; the reply of the second is lost, after its handler
    ran; the third finds the end disabled; the handler of the fourth is running. *)
Definition ex_acts : list (Act string) := ex_setup ++
  [ACall 1 c0 "KVServer.Get" "x" ""; AAccept 1; ARead 1 0; AProceed 1 500; ADispatch 1; ATick 1; AHandled 1 "vx"; AReceive 1;
   AFinish 1 500 0 0 0; ASend 1;
   AReliable false; ACall 2 c0 "KVServer.Get" "y" ""; AAccept 2; ARead 2 0; AProceed 2 500; ADispatch 2; AHandled 2 "vy";
   AReceive 2; AFinish 2 7 0 0 0; ASend 2;
   AEnable (IStr "c0") false; ACall 3 c0 "KVServer.Get" "z" ""; AAccept 3; ARead 3 5; ASend 3; AEnable (IStr "c0") true;
   ACall 4 c0 "KVServer.Get" "w" ""; AAccept 4; ARead 4 0; AProceed 4 500; ADispatch 4]%string.
Definition ex_result : Sys string * list (Event string) :=
  match run ex_acts start with Ret r => r | _ => (start, []) end.

Example ex_trace : ex_result.2 =
  [EvCall 1 "KVServer.Get" "x" ""; EvExec 1 1 "KVServer" "Get" "x"; EvHandled 1 "vx"; EvReturn 1 (Some "vx");
   EvCall 2 "KVServer.Get" "y" ""; EvExec 2 1 "KVServer" "Get" "y"; EvHandled 2 "vy"; EvReturn 2 None;
   EvCall 3 "KVServer.Get" "z" ""; EvReturn 3 None; EvCall 4 "KVServer.Get" "w" ""; EvExec 4 1 "KVServer" "Get" "w"]%string.
Proof. vm_compute. reflexivity. Qed.

Lemma ex_fits : replies_fit ex_result.2.
Proof.
  rewrite ex_trace. intros id m a rep v Hc _. split; [done|].
  repeat (apply elem_of_cons in Hc as [Hc|Hc]; [by try injection Hc as -> -> -> ->|]). set_solver.
Qed.

Lemma labrpc_refines_channel_witness : exists c, chan_run None (events_of 2 ex_result.2) c.
Proof.
  apply (labrpc_refines_channel ex_acts ex_result.1 ex_result.2); [vm_compute; reflexivity|apply ex_fits].
Defined.

(** The server is deleted while the handler of the fourth call runs. *)
Definition ex_deleted : Sys string := set_net (DeleteServer (IInt 0) (net ex_result.1)) ex_result.1.

Lemma Call_returns_witness : exists pd, calls ex_deleted !! 4%nat = Some pd /\ rank pd = 3%nat /\
  forall r1 r2 ra rb, exists s' ev pd', step (own_step 4 pd ex_deleted r1 r2 ra rb) ex_deleted = Ret (s', ev) /\
    calls s' !! 4%nat = Some pd' /\ (rank pd' < rank pd)%nat.
Proof.
  destruct (calls ex_deleted !! 4%nat) as [pd|] eqn:Hpd; [|exfalso; vm_compute in Hpd; discriminate Hpd].
  assert ((fun pd => (rank pd, match stage pd with SWaiting sn p _ _ => isServerDead (req_endname (req pd)) sn p (net ex_deleted) | _ => false end)) <$> calls ex_deleted !! 4%nat = Some (3%nat, true)) as He
    by (vm_compute; reflexivity). rewrite Hpd in He. injection He as Hr Hd.
  exists pd. split; [reflexivity|]. split; [exact Hr|].
  destruct (Call_returns (ex_acts ++ [ADeleteServer (IInt 0)]) ex_deleted ex_result.2 4 pd) as (_ & H0 & [Hret|[(sn & p & rel & lr & Hs & _ & Hn)|Hn]] & _).
  - vm_compute. reflexivity.
  - apply ex_fits.
  - exact Hpd.
  - apply H0 in Hret. rewrite Hr in Hret. discriminate Hret.
  - rewrite Hs in Hd. exfalso. exact (eq_true_false_abs _ Hd Hn).
  - exact Hn.
Defined.

(** The handler returns after that: its reply is dropped. *)
Definition ex_late : list (Act string) := [AHandled 4 "vw"%string; AReceive 4; AFinish 4 500 0 0 0; ASend 4].
Definition ex_late_result : Sys string * list (Event string) :=
  match run ex_late ex_deleted with Ret r => r | _ => (ex_deleted, []) end.

Lemma deleted_server_never_acks_witness :
  ex_late_result.2 = [EvHandled 4 "vw"%string; EvReturn 4 None] /\ EvReturn 4 (Some "vw"%string) ∉ ex_late_result.2.
Proof.
  split; [vm_compute; reflexivity|].
  eapply (deleted_server_never_acks 1 ex_late ex_deleted ex_late_result.1 ex_late_result.2 4).
  - intros sn. unfold ex_deleted, DeleteServer. simpl. rewrite server_at_insert. case_decide as Hd; [done|].
    unfold server_at. replace (servers (net ex_result.1)) with ({[IInt 0 := Some 1%nat]} : gmap Iface (option nat))
      by (vm_compute; reflexivity). by rewrite lookup_singleton_ne.
  - vm_compute. reflexivity.
  - vm_compute. reflexivity.
  - repeat constructor.
  - vm_compute. reflexivity.
Defined.
