(* ===== verification/LabGob.v ===== *)
(** The checks of [src/src/labgob/labgob.go].

    [labgob] wraps [encoding/gob] and warns about fields that gob would skip
    (names that start with a lower-case letter) and about variables decoded into
    that do not hold the zero value.  Types form a graph, possibly cyclic, which
    [checkType] walks once with the set [checked]; the graph of the program's
    types, the test for upper case and gob itself are parameters. *)

From S2P Require Import Prelude Gob.
Local Open Scope Z_scope.

(** * Types *)

Abbreviation Tid := positive.

(** A [reflect.Type], as far as the walk looks at it. *)
Inductive TypeDef :=
| DStruct (fields : list (string * Tid))
| DElem (elem : Tid)               (* slices, arrays and pointers *)
| DMap (elem key : Tid)
| DOther.

(** The package's variables: [checked] and [errorCount]. *)
Record Gobs := mkGobs { checked : gset Tid; errorCount : Z }.

Section types.
Context (types : gmap Tid TypeDef) (IsUpper : string -> bool).

(** [checkType] with a bound on the depth of the recursion; [None] is the bound,
    or a type that does not exist. *)
Fixpoint checkType (fuel : nat) (t : Tid) (g : Gobs) : option Gobs :=
  match fuel with
  | O => None
  | S fuel =>
      def ← types !! t;
      if decide (t ∈ checked g) then Some g
      else
        let g := mkGobs ({[t]} ∪ checked g) (errorCount g) in
        match def with
        | DStruct fields =>
            (fix go (fs : list (string * Tid)) (g : Gobs) : option Gobs :=
               match fs with
               | [] => Some g
               | (name, ft) :: fs =>
                   let g := if IsUpper name then g else mkGobs (checked g) (errorCount g + 1) in
                   g ← checkType fuel ft g;
                   go fs g
               end) fields g
        | DElem e => checkType fuel e g
        | DMap e k => g ← checkType fuel e g; checkType fuel k g
        | DOther => Some g
        end
  end.

(** The fields loop of [checkType], with the recursive call as an argument. *)
Fixpoint check_fields (rec : Tid -> Gobs -> option Gobs) (fs : list (string * Tid)) (g : Gobs) : option Gobs :=
  match fs with
  | [] => Some g
  | (name, ft) :: fs =>
      g ← rec ft (if IsUpper name then g else mkGobs (checked g) (errorCount g + 1));
      check_fields rec fs g
  end.

Lemma checkType_unfold fuel t g : checkType (S fuel) t g =
  def ← types !! t;
  if decide (t ∈ checked g) then Some g
  else
    let g := mkGobs ({[t]} ∪ checked g) (errorCount g) in
    match def with
    | DStruct fields => check_fields (checkType fuel) fields g
    | DElem e => checkType fuel e g
    | DMap e k => g ← checkType fuel e g; checkType fuel k g
    | DOther => Some g
    end.
Proof.
  simpl. destruct (types !! t) as [[fields|e|e k|]|]; simpl; try done. case_decide; [done|].
  generalize (mkGobs ({[t]} ∪ checked g) (errorCount g)) as g'.
  induction fields as [|[name ft] fs IH]; intros g'; simpl; [done|].
  destruct (checkType fuel ft _); simpl; [apply IH|done].
Qed.

(** The types a type refers to, and its lower-case fields. *)
Definition refs (d : TypeDef) : list Tid :=
  match d with DStruct fields => fields.*2 | DElem e => [e] | DMap e k => [e; k] | DOther => [] end.
Definition lower_fields (d : TypeDef) : Z :=
  match d with DStruct fields => zlen (filter (fun f => IsUpper f.1 = false) fields) | _ => 0 end.

Definition refs_of (t : Tid) : list Tid := default [] (refs <$> types !! t).
Definition lower_of (t : Tid) : Z := default 0 (lower_fields <$> types !! t).
Definition total_lower (C : gset Tid) : Z := foldr Z.add 0 (lower_of <$> elements C).

Definition refers (t u : Tid) : Prop := u ∈ refs_of t.
Definition reachable : Tid -> Tid -> Prop := rtc refers.

(** Every type a known type refers to is known. *)
Definition closed_types : Prop := forall t u, is_Some (types !! t) -> refers t u -> is_Some (types !! u).
(** ** The walk *)

Lemma total_lower_disj (A B : gset Tid) : A ## B -> total_lower (A ∪ B) = total_lower A + total_lower B.
Proof.
  intros Hd. unfold total_lower.
  assert (forall l1 l2, l1 ≡ₚ l2 -> foldr Z.add 0 l1 = foldr Z.add 0 l2) as Hp.
  { induction 1; simpl; lia. }
  rewrite (Hp _ (lower_of <$> (elements A ++ elements B))).
  - rewrite fmap_app. induction (lower_of <$> elements A); simpl; lia.
  - apply fmap_Permutation, elements_disj_union, Hd.
Qed.

Lemma total_lower_singleton t : total_lower {[t]} = lower_of t.
Proof. unfold total_lower. rewrite elements_singleton. simpl. lia. Qed.

Lemma total_lower_empty : total_lower ∅ = 0.
Proof. unfold total_lower. by rewrite elements_empty. Qed.

(** From [g] to [g'], the types reachable from [roots] were walked, and [k] other
    errors counted. *)
Record walked (roots : list Tid) (k : Z) (g g' : Gobs) : Prop := {
  w_sub : checked g ⊆ checked g';
  w_roots : forall r, r ∈ roots -> r ∈ checked g';
  w_refs : forall u v, u ∈ checked g' ∖ checked g -> refers u v -> v ∈ checked g';
  w_reach : forall u, u ∈ checked g' ∖ checked g -> exists r, r ∈ roots /\ reachable r u;
  w_count : errorCount g' = errorCount g + k + total_lower (checked g' ∖ checked g)
}.

Lemma walked_refl g : walked [] 0 g g.
Proof.
  split; try set_solver. replace (checked g ∖ checked g) with (∅ : gset Tid) by set_solver.
  rewrite total_lower_empty. lia.
Qed.

Lemma walked_app R1 R2 k1 k2 g1 g2 g3 : walked R1 k1 g1 g2 -> walked R2 k2 g2 g3 -> walked (R1 ++ R2) (k1 + k2) g1 g3.
Proof.
  intros [S1 Ro1 Re1 Rc1 C1] [S2 Ro2 Re2 Rc2 C2].
  assert (checked g3 ∖ checked g1 = (checked g2 ∖ checked g1) ∪ (checked g3 ∖ checked g2)) as Hd.
  { apply set_eq. intros x. destruct (decide (x ∈ checked g2)); set_solver. }
  split.
  - set_solver.
  - intros r [?|?]%elem_of_app; set_solver.
  - intros u v. rewrite Hd. intros [Hu|Hu]%elem_of_union Hr; [apply S2; eauto|eauto].
  - intros u. rewrite Hd. intros [Hu|Hu]%elem_of_union; [destruct (Rc1 u Hu) as (r & ? & ?)|destruct (Rc2 u Hu) as (r & ? & ?)];
      exists r; rewrite elem_of_app; auto.
  - rewrite Hd, total_lower_disj by set_solver. lia.
Qed.

(** A type and then what it refers to. *)
Lemma walked_node t d g g' : types !! t = Some d -> t ∉ checked g ->
  walked (refs d) (lower_fields d) (mkGobs ({[t]} ∪ checked g) (errorCount g)) g' -> walked [t] 0 g g'.
Proof.
  intros Ht Hn [S Ro Re Rc C]. simpl in *.
  assert (checked g' ∖ checked g = {[t]} ∪ checked g' ∖ ({[t]} ∪ checked g)) as Hd.
  { apply set_eq. intros x. destruct (decide (x = t)); set_solver. }
  assert (refs_of t = refs d) as Hrefs by (unfold refs_of; by rewrite Ht).
  split.
  - set_solver.
  - set_solver.
  - intros u v. rewrite Hd. intros [->%elem_of_singleton|Hu]%elem_of_union Hr; [|eauto].
    apply Ro. by rewrite <- Hrefs.
  - intros u. rewrite Hd. intros [->%elem_of_singleton|Hu]%elem_of_union; exists t.
    + split; [set_solver|apply rtc_refl].
    + destruct (Rc u Hu) as (r & Hr & Hreach). split; [set_solver|]. eapply rtc_l; [|done].
      unfold refers. by rewrite Hrefs.
  - rewrite Hd, total_lower_disj, total_lower_singleton by set_solver. unfold lower_of. rewrite Ht. simpl. lia.
Qed.

Lemma walked_error roots k g g' : walked roots k (mkGobs (checked g) (errorCount g + 1)) g' -> walked roots (1 + k) g g'.
Proof. intros [S Ro Re Rc C]. simpl in *. split; try done. lia. Qed.

(** The types that are not yet checked bound the depth. *)
Definition unchecked (g : Gobs) : nat := size (dom types ∖ checked g).

Lemma unchecked_mono g g' : checked g ⊆ checked g' -> (unchecked g' <= unchecked g)%nat.
Proof. intros Hs. unfold unchecked. apply subseteq_size. set_solver. Qed.

Lemma unchecked_mark t g : is_Some (types !! t) -> t ∉ checked g ->
  (unchecked (mkGobs ({[t]} ∪ checked g) (errorCount g)) < unchecked g)%nat.
Proof.
  intros Ht Hn. unfold unchecked. apply subset_size. simpl. apply elem_of_dom in Ht. split; [set_solver|].
  intros Hs. specialize (Hs t). set_solver.
Qed.

(** [rec] walks from any type when at most [n] types are unchecked. *)
Definition walks (n : nat) (rec : Tid -> Gobs -> option Gobs) : Prop :=
  forall t g, is_Some (types !! t) -> (unchecked g < n)%nat -> exists g', rec t g = Some g' /\ walked [t] 0 g g'.

Lemma check_fields_walks n rec fs : walks n rec -> forall g,
  (forall t, t ∈ fs.*2 -> is_Some (types !! t)) -> (unchecked g < n)%nat ->
  exists g', check_fields rec fs g = Some g' /\ walked fs.*2 (lower_fields (DStruct fs)) g g'.
Proof.
  intros Hrec. induction fs as [|[name ft] fs IH]; intros g Hfs Hn; simpl.
  - eexists. split; [done|]. apply walked_refl.
  - set (g0 := if IsUpper name then g else _).
    assert (checked g0 = checked g) as Hg0 by (subst g0; by destruct (IsUpper name)).
    destruct (Hrec ft g0) as (g1 & -> & Hw); [apply Hfs; by left|unfold unchecked; by rewrite Hg0|]. simpl.
    destruct (IH g1) as (g2 & -> & Hw2).
    { intros t Ht. apply Hfs. by right. }
    { eapply Nat.le_lt_trans; [|exact Hn]. apply unchecked_mono. rewrite <- Hg0. apply Hw. }
    eexists. split; [done|]. pose proof (walked_app _ _ _ _ _ _ _ Hw Hw2) as Hall.
    subst g0. unfold lower_fields in *. destruct (IsUpper name) eqn:Hup.
    + rewrite filter_cons_False by (simpl; congruence). done.
    + rewrite filter_cons_True by done. apply walked_error in Hall.
      replace (zlen _) with (1 + (0 + zlen (filter (fun f : string * Tid => IsUpper f.1 = false) fs)));
        [done|unfold zlen; simpl; lia].
Qed.

Lemma checkType_walks fuel : closed_types -> walks fuel (checkType fuel).
Proof.
  intros Hcl. induction fuel as [|n IH]; intros t g Ht Hn; [lia|]. rewrite checkType_unfold.
  destruct (types !! t) as [d|] eqn:Hd; [|by destruct Ht]. simpl. case_decide as Hc.
  - exists g. split; [done|]. destruct (walked_refl g). split; try done; set_solver.
  - assert (unchecked (mkGobs ({[t]} ∪ checked g) (errorCount g)) < n)%nat as Hlt.
    { pose proof (unchecked_mark t g ltac:(by rewrite Hd) Hc). lia. }
    assert (forall u, u ∈ refs d -> is_Some (types !! u)) as Hrefs.
    { intros u Hu. apply (Hcl t); [by rewrite Hd|]. unfold refers, refs_of. by rewrite Hd. }
    assert (exists g', match d with
      | DStruct fields => check_fields (checkType n) fields (mkGobs ({[t]} ∪ checked g) (errorCount g))
      | DElem e => checkType n e (mkGobs ({[t]} ∪ checked g) (errorCount g))
      | DMap e k => g ← checkType n e (mkGobs ({[t]} ∪ checked g) (errorCount g)); checkType n k g
      | DOther => Some (mkGobs ({[t]} ∪ checked g) (errorCount g))
      end = Some g' /\ walked (refs d) (lower_fields d) (mkGobs ({[t]} ∪ checked g) (errorCount g)) g') as (g' & -> & Hw).
    { destruct d as [fs|e|e k|]; simpl in *.
      - by apply (check_fields_walks n).
      - apply IH; [apply Hrefs; set_solver|done].
      - destruct (IH e (mkGobs ({[t]} ∪ checked g) (errorCount g))) as (g1 & -> & Hw1); [apply Hrefs; set_solver|done|]. simpl.
        destruct (IH k g1) as (g2 & -> & Hw2); [apply Hrefs; set_solver| |].
        { eapply Nat.le_lt_trans; [|exact Hlt]. apply unchecked_mono, Hw1. }
        eexists. split; [done|]. apply (walked_app [e] [k] 0 0 _ g1); done.
      - eexists. split; [done|]. apply walked_refl. }
    exists g'. split; [done|]. by eapply walked_node.
Qed.

(** What is known before a top-level call: closed under references. *)
Definition closed (C : gset Tid) : Prop := forall u v, u ∈ C -> refers u v -> v ∈ C.

Lemma closed_reachable C t u : closed C -> t ∈ C -> reachable t u -> u ∈ C.
Proof. intros Hc Ht Hr. revert Ht. induction Hr; eauto. Qed.

(** [checkValue] of a value of type [t]. *)
Definition checkValue (t : Tid) (g : Gobs) : option Gobs := checkType (S (size (dom types))) t g.

(** C16. The walk of [checkType] ends on every graph of types, recursive types
    included, and does its job: afterwards exactly the types reachable from the
    value's type have been added to those checked before, and the error count has
    grown by the number of lower-case fields of the types that were added; nothing
    is reported twice. *)
Theorem checkValue_reports t g : closed_types -> is_Some (types !! t) -> closed (checked g) ->
  exists g', checkValue t g = Some g' /\ closed (checked g') /\
    (forall u, u ∈ checked g' <-> u ∈ checked g \/ reachable t u) /\
    errorCount g' = errorCount g + total_lower (checked g' ∖ checked g).
Proof.
  intros Hcl Ht Hg. destruct (checkType_walks (S (size (dom types))) Hcl t g Ht) as (g' & Hrun & [S Ro Re Rc C]).
  { unfold unchecked. apply Nat.lt_succ_r, subseteq_size. set_solver. }
  assert (closed (checked g')) as Hg'.
  { intros u v Hu Hr. destruct (decide (u ∈ checked g)) as [Hold|]; [apply S; eauto|]. eapply Re; [|done]. set_solver. }
  exists g'. split_and!; [done|done| |lia]. intros u. split.
  - intros Hu. destruct (decide (u ∈ checked g)); [by left|right].
    destruct (Rc u) as (r & ->%list_elem_of_singleton & ?); [set_solver|done].
  - intros [?|Hr]; [set_solver|]. eapply closed_reachable; [done| |done]. apply Ro. set_solver.
Qed.
End types.

(** * Values *)

(** A [reflect.Value], as far as [checkDefault1] looks at it: basic values with
    the name of their type and whether they equal its zero value. *)
Inductive Value :=
| VStruct (fields : list (string * Value))
| VPtr (to : option Value)
| VBasic (tname : string) (default : bool)
| VOther.

(** [errorCount], and the messages printed. *)
Abbreviation Warned := (Z * list string)%type.

Definition warn (name tname : string) (w : Warned) : Warned :=
  let what := if decide (name = ""%string) then tname else name in
  (w.1 + 1, if decide (w.1 < 1) then w.2 ++ [what] else w.2).

Definition field_name (name f : string) : string :=
  if decide (name = ""%string) then f else (name +:+ "." +:+ f)%string.

Fixpoint checkDefault1 (value : Value) (depth : Z) (name : string) (w : Warned) : Warned :=
  if decide (depth > 3) then w
  else
    match value with
    | VStruct fields =>
        (fix go (fs : list (string * Value)) (w : Warned) : Warned :=
           match fs with
           | [] => w
           | (f, vv) :: fs => go fs (checkDefault1 vv (depth + 1) (field_name name f) w)
           end) fields w
    | VPtr None => w
    | VPtr (Some v) => checkDefault1 v (depth + 1) name w
    | VBasic tname d => if d then w else warn name tname w
    | VOther => w
    end.

Definition checkDefault (value : option Value) (w : Warned) : Warned :=
  match value with None => w | Some v => checkDefault1 v 1 "" w end.

(** The fields that hold basic values other than zero. *)
Definition direct_nonzero (fs : list (string * Value)) : list string :=
  omap (fun '(f, v) => match v with VBasic tname false => Some (if decide (f = ""%string) then tname else f) | _ => None end) fs.

Lemma checkDefault1_deep v depth name w : depth > 3 -> checkDefault1 v depth name w = w.
Proof. intros Hd. by destruct v; simpl; rewrite decide_True. Qed.

(** A field of the struct that is decoded into: what is below it is out of depth. *)
Lemma checkDefault1_field f v w : checkDefault1 v 3 f w =
  match v with VBasic tname false => warn f tname w | _ => w end.
Proof.
  destruct v as [fields|[v|]|tname []|]; simpl; try done.
  - induction fields as [|[f' v'] fs IH] in w |- *; [done|]. by rewrite checkDefault1_deep.
  - by rewrite checkDefault1_deep.
Qed.

Fixpoint warn_all (names : list string) (w : Warned) : Warned :=
  match names with
  | [] => w
  | n :: ns => warn_all ns (w.1 + 1, if decide (w.1 < 1) then w.2 ++ [n] else w.2)
  end.

Lemma warn_all_count ns w : 0 <= w.1 ->
  warn_all ns w = (w.1 + zlen ns, if decide (w.1 < 1) then w.2 ++ take 1 ns else w.2).
Proof.
  revert w. induction ns as [|n ns IH]; intros [c ms] Hc; simpl in *.
  - rewrite app_nil_r, Z.add_0_r. by case_decide.
  - rewrite IH by (simpl; lia). simpl. rewrite decide_False by lia. unfold zlen. simpl.
    f_equal. lia.
Qed.

Lemma checkDefault1_fields fs w : checkDefault1 (VStruct fs) 2 "" w = warn_all (direct_nonzero fs) w.
Proof.
  simpl. induction fs as [|[f v] fs IH] in w |- *; simpl; [done|].
  rewrite checkDefault1_field. unfold field_name. simpl. destruct v as [| |tname []|]; simpl; apply IH || done.
Qed.

(** Decoding into a pointer to a struct counts one error for each field of the
    struct that holds a basic value other than zero, and prints the first of them
    unless something was reported before.  Values below the fields are never looked at. *)
Theorem checkDefault_direct_fields fs c ms : 0 <= c ->
  checkDefault (Some (VPtr (Some (VStruct fs)))) (c, ms) =
  (c + zlen (direct_nonzero fs), if decide (c < 1) then ms ++ take 1 (direct_nonzero fs) else ms).
Proof.
  intros Hc. unfold checkDefault. simpl checkDefault1 at 1.
  change (checkDefault1 (VStruct fs) 2 "" (c, ms) = (c + zlen (direct_nonzero fs), if decide (c < 1) then ms ++ take 1 (direct_nonzero fs) else ms)).
  rewrite checkDefault1_fields, warn_all_count by done. done.
Qed.

(** * The codecs *)

(** The wrappers check first and then do what gob does; [gob] is its encoder or
    decoder, [view] the variable decoded into as [reflect] shows it. *)
Section codecs.
Context (types : gmap Tid TypeDef) (IsUpper : string -> bool).
Context {A : Type}.

Definition Encode (gob : A -> bytes * bool) (t : Tid) (e : A) (g : Gobs) : option (Gobs * (bytes * bool)) :=
  g ← checkValue types IsUpper t g; Some (g, gob e).

Definition Decode (gob : A -> A * bool) (t : Tid) (view : Value) (e : A) (g : Gobs) :
    option (Gobs * list string * (A * bool)) :=
  g ← checkValue types IsUpper t g;
  let '(c, messages) := checkDefault (Some view) (errorCount g, []) in
  Some (mkGobs (checked g) c, messages, gob e).

Definition Register (gob : A -> A) (t : Tid) (registry : A) (g : Gobs) : option (Gobs * A) :=
  g ← checkValue types IsUpper t g; Some (g, gob registry).
Definition RegisterName (gob : string -> A -> A) (name : string) (t : Tid) (registry : A) (g : Gobs) : option (Gobs * A) :=
  g ← checkValue types IsUpper t g; Some (g, gob name registry).
End codecs.

(** * A recursive type *)

(** [type Node struct { Next *Node; val int; Tags map[string]Node }] *)
Definition ex_types : gmap Tid TypeDef :=
  list_to_map [(1%positive, DStruct [("Next", 2%positive); ("val", 3%positive); ("Tags", 4%positive)]%string); (2%positive, DElem 1);
    (3%positive, DOther); (4%positive, DMap 1 5); (5%positive, DOther); (6%positive, DStruct [("other", 3%positive)]%string)].
Definition ascii_upper (s : string) : bool :=
  match s with
  | EmptyString => false
  | String c _ => let n := Ascii.nat_of_ascii c in (65 <=? n)%nat && (n <=? 90)%nat
  end.

Lemma ex_types_closed : closed_types ex_types.
Proof.
  intros t u Ht Hr. unfold refers, refs_of in Hr. apply elem_of_dom. apply elem_of_dom in Ht.
  replace (dom ex_types) with (list_to_set [1; 2; 3; 4; 5; 6]%positive : gset Tid) in * by (vm_compute; reflexivity).
  apply elem_of_list_to_set in Ht. apply elem_of_list_to_set.
  repeat (apply elem_of_cons in Ht as [->|Ht]); try by apply not_elem_of_nil in Ht.
  all: vm_compute in Hr; set_solver.
Qed.

Lemma checkValue_reports_witness : exists g', checkValue ex_types ascii_upper 2 (mkGobs ∅ 0) = Some g' /\ errorCount g' = 1.
Proof.
  destruct (checkValue_reports ex_types ascii_upper 2 (mkGobs ∅ 0)) as (g' & Hrun & _ & _ & _).
  - apply ex_types_closed.
  - by eexists.
  - intros u v Hu. simpl in Hu. set_solver.
  - exists g'. split; [done|]. vm_compute in Hrun. injection Hrun as <-. reflexivity.
Defined.
