(* ===== verification/RaftConfig.v ===== *)
(** The test harness of [src/src/raft/config.go].

    The harness starts the peers on a [labrpc] network, cuts and restores their
    connections, reads what they deliver and compares it.  This file has its
    operations: the checks of the appliers, snapshots, restarts, the checks on
    leaders and terms, and the wiring of the network.  [Panic] stands for
    [log.Fatalf] and for a failed test ([t.Fatal]). *)

From S2P Require Import Prelude Gob Persister RaftTypes RaftNode LabRpc.
Local Open Scope Z_scope.

(** * The appliers *)

(** [logs], [lastApplied] and [maxIndex]; an entry is an [interface{}], [None] is
    [nil]. *)
Record config (Cmd : Type) := mkConfig {
  logs : list (gmap Z (option Cmd));
  cfg_lastApplied : list Z;
  maxIndex : Z
}.
Arguments mkConfig {Cmd}. Arguments logs {Cmd}. Arguments cfg_lastApplied {Cmd}. Arguments maxIndex {Cmd}.

Section appliers.
Context {Cmd : Type} `{EqDecision Cmd} `{Gob Z} `{Gob (list (option Cmd))}.
Implicit Types (cfg : config Cmd) (m : ApplyMsg Cmd).

(** The loop of [checkLogs]: the last server with another value. *)
Fixpoint check_each (index : Z) (v : option Cmd) (j : Z) (ls : list (gmap Z (option Cmd)))
    (err : option Z) : option Z :=
  match ls with
  | [] => err
  | lg :: ls =>
      check_each index v (j + 1) ls
        (match lg !! index with
         | Some old => if decide (old <> v) then Some j else err
         | None => err
         end)
  end.

Definition checkLogs (i : Z) m cfg : option (option Z * bool * config Cmd) :=
  let v := amCommand m in
  let err_msg := check_each (CommandIndex m) v 0 (logs cfg) None in
  lg ← (logs cfg).[i];
  let prevok := bool_decide (is_Some (lg !! (CommandIndex m - 1))) in
  ls ← go_store (logs cfg) i (<[CommandIndex m := v]> lg);
  Some (err_msg, prevok,
    mkConfig ls (cfg_lastApplied cfg) (if decide (CommandIndex m > maxIndex cfg) then CommandIndex m else maxIndex cfg)).

(** [applier], one message. *)
Definition applier_msg (i : Z) m cfg : Go (config Cmd) :=
  if CommandValid m then
    '(err_msg, prevok, cfg) ← of_opt (checkLogs i m cfg);
    if decide (err_msg <> None \/ (CommandIndex m > 1 /\ prevok = false)) then Panic else Ret cfg
  else Ret cfg.

Definition snapshot_log (xlog : list (option Cmd)) : gmap Z (option Cmd) :=
  list_to_map (imap (fun j v => (Z.of_nat j, v)) xlog).

(** [ingestSnap]: [true] is the empty error string. *)
Definition ingestSnap (i : Z) (snapshot : bytes) (index : Z) cfg : Go (bool * config Cmd) :=
  if decide (snapshot = []) then Panic else
  '(lastIncludedIndex, rest) ← of_opt (gob_decode (A := Z) snapshot);
  '(xlog, _) ← of_opt (gob_decode (A := list (option Cmd)) rest);
  if decide (index <> -1 /\ index <> lastIncludedIndex) then Ret (false, cfg)
  else
    ls ← of_opt (go_store (logs cfg) i (snapshot_log xlog));
    la ← of_opt (go_store (cfg_lastApplied cfg) i lastIncludedIndex);
    Ret (true, mkConfig ls la (maxIndex cfg)).

Definition SnapShotInterval : Z := 10.

(** The snapshot an applier takes after the command at [index]. *)
Definition take_snapshot (index : Z) (lg : gmap Z (option Cmd)) : bytes :=
  gob_encode index ++ gob_encode ((fun j => default None (lg !! j)) <$> seqZ 0 (index + 1)).

(** [applierSnap], one message: the configuration and the call of [Snapshot]. *)
Definition applierSnap_msg (i : Z) m cfg : Go (config Cmd * option (Z * bytes)) :=
  if SnapshotValid m then
    '(fine, cfg) ← ingestSnap i (amSnapshot m) (SnapshotIndex m) cfg;
    if (fine : bool) then Ret (cfg, None) else Panic
  else if CommandValid m then
    applied ← of_opt (cfg_lastApplied cfg).[i];
    if decide (CommandIndex m <> applied + 1) then Panic
    else
      '(err_msg, prevok, cfg) ← of_opt (checkLogs i m cfg);
      if decide (err_msg <> None \/ (CommandIndex m > 1 /\ prevok = false)) then Panic
      else
        la ← of_opt (go_store (cfg_lastApplied cfg) i (CommandIndex m));
        lg ← of_opt (logs cfg).[i];
        Ret (mkConfig (logs cfg) la (maxIndex cfg),
          if decide ((CommandIndex m + 1) mod SnapShotInterval = 0)
          then Some (CommandIndex m, take_snapshot (CommandIndex m) lg) else None)
  else Ret (cfg, None).

(** The part of [start1] that prepares [logs] and [lastApplied] for the new
    instance, which starts with [snapshot]. *)
Definition start1_applied (i : Z) (snapshot : bytes) cfg : Go (config Cmd) :=
  la ← of_opt (go_store (cfg_lastApplied cfg) i 0);
  let cfg := mkConfig (logs cfg) la (maxIndex cfg) in
  if decide (0 < zlen snapshot) then
    '(fine, cfg) ← ingestSnap i snapshot (-1) cfg;
    if (fine : bool) then Ret cfg else Panic
  else Ret cfg.

(** [make_config]'s tables. *)
Definition make_tables (n : nat) : config Cmd := mkConfig (replicate n ∅) (replicate n 0) 0.

(** [nCommitted], with the loop over the logs; [applyErr] stays empty because the
    process exits before it is set. *)
Fixpoint count_committed (index : Z) (ls : list (gmap Z (option Cmd))) (count : Z) (cmd : option Cmd) :
    Go (Z * option Cmd) :=
  match ls with
  | [] => Ret (count, cmd)
  | lg :: ls =>
      match lg !! index with
      | Some cmd1 =>
          if decide (count > 0 /\ cmd <> cmd1) then Panic
          else count_committed index ls (count + 1) cmd1
      | None => count_committed index ls count cmd
      end
  end.
Definition nCommitted (index : Z) cfg : Go (Z * option Cmd) := count_committed index (logs cfg) 0 None.
End appliers.

(** * Leaders and terms *)

(** What [GetState] answered for each connected peer. *)
Abbreviation Answers := (list (Z * (Z * bool))).

Definition collect_leaders (answers : Answers) : gmap Z (list Z) :=
  foldl (fun leaders '(i, (term, leader)) =>
           if (leader : bool) then <[term := default [] (leaders !! term) ++ [i]]> leaders else leaders)
    ∅ answers.

(** One round of [checkOneLeader]: the leader of the last term with a leader,
    or another round.  The loop over the map comes in any order: it only fails or
    takes a maximum. *)
Definition last_term (leaders : gmap Z (list Z)) : Z := map_fold (fun t _ acc => Z.max t acc) (-1) leaders.
Definition checkOneLeader_round (answers : Answers) : Go (option Z) :=
  let leaders := collect_leaders answers in
  if decide (map_Exists (fun _ ls => (1 < length ls)%nat) leaders) then Panic
  else if decide (leaders = ∅) then Ret None
  else
    ls ← of_opt (leaders !! last_term leaders);
    l ← of_opt (ls.[0]);
    Ret (Some l).

Fixpoint leader_rounds (iters : nat) (answers : nat -> Answers) : Go Z :=
  match iters with
  | O => Panic
  | S iters =>
      o ← checkOneLeader_round (answers O);
      match o with Some l => Ret l | None => leader_rounds iters (fun k => answers (S k)) end
  end.
Definition checkOneLeader (answers : nat -> Answers) : Go Z := leader_rounds 10 answers.

Fixpoint check_terms (answers : Answers) (term : Z) : Go Z :=
  match answers with
  | [] => Ret term
  | (_, (xterm, _)) :: answers =>
      if decide (term = -1) then check_terms answers xterm
      else if decide (term <> xterm) then Panic else check_terms answers term
  end.
Definition checkTerms (answers : Answers) : Go Z := check_terms answers (-1).

Definition checkNoLeader (answers : Answers) : Go unit :=
  if existsb (fun a => a.2.2) answers then Panic else Ret tt.

(** * The network of the harness *)

(** [net], [connected] and [endnames]; the names of a server that was never
    started are [nil]. *)
Record wiring := mkWiring { cfg_net : Network; connected : list bool; endnames : list (list Iface) }.

Definition set_cfg_net (rn : Network) (w : wiring) : wiring := mkWiring rn (connected w) (endnames w).
Definition cfg_n (w : wiring) : Z := zlen (connected w).
Definition servers_of (w : wiring) : list Z := seqZ 0 (cfg_n w).

(** A loop that changes the network. *)
Fixpoint each (f : Z -> Network -> Go Network) (js : list Z) (rn : Network) : Go Network :=
  match js with
  | [] => Ret rn
  | j :: js => rn ← f j rn; each f js rn
  end.

Definition endname_of (w : wiring) (i j : Z) : option Iface := row ← (endnames w).[i]; row.[j].

(** [cfg.net.Enable(cfg.endnames[i][j], b)] *)
Definition enable_end (b : bool) (w : wiring) (i j : Z) (rn : Network) : Go Network :=
  e ← of_opt (endname_of w i j); Ret (Enable e b rn).

Definition if_connected (w : wiring) (j : Z) (k : Network -> Go Network) (rn : Network) : Go Network :=
  b ← of_opt (connected w).[j]; if (b : bool) then k rn else Ret rn.

Definition connect (i : Z) (w : wiring) : Go wiring :=
  cs ← of_opt (go_store (connected w) i true);
  let w := mkWiring (cfg_net w) cs (endnames w) in
  rn ← each (fun j => if_connected w j (enable_end true w i j)) (servers_of w) (cfg_net w);
  rn ← each (fun j => if_connected w j (enable_end true w j i)) (servers_of w) rn;
  Ret (set_cfg_net rn w).

Definition if_named (w : wiring) (i : Z) (k : Network -> Go Network) (rn : Network) : Go Network :=
  row ← of_opt (endnames w).[i]; if decide (row <> []) then k rn else Ret rn.

Definition disconnect (i : Z) (w : wiring) : Go wiring :=
  cs ← of_opt (go_store (connected w) i false);
  let w := mkWiring (cfg_net w) cs (endnames w) in
  rn ← each (fun j => if_named w i (enable_end false w i j)) (servers_of w) (cfg_net w);
  rn ← each (fun j => if_named w j (enable_end false w j i)) (servers_of w) rn;
  Ret (set_cfg_net rn w).

(** [crash1], as far as the network is concerned. *)
Definition crash1_net (i : Z) (w : wiring) : Go wiring :=
  w ← disconnect i w; Ret (set_cfg_net (DeleteServer (IInt i) (cfg_net w)) w).

(** [start1]: [names] are the random names of the new ends, [p] is the server
    object made for the new instance. *)
Definition make_end (names : list Iface) (j : Z) (rn : Network) : Go Network :=
  name ← of_opt names.[j];
  '(_, rn) ← MakeEnd name rn;
  Ret (Connect name (IInt j) rn).
Definition start1_net (i : Z) (names : list Iface) (p : nat) (w : wiring) : Go wiring :=
  w ← crash1_net i w;
  rows ← of_opt (go_store (endnames w) i names);
  rn ← each (make_end names) (servers_of w) (cfg_net w);
  Ret (mkWiring (AddServer (IInt i) p rn) (connected w) rows).

Definition setunreliable (unrel : bool) (w : wiring) : wiring := set_cfg_net (Reliable (negb unrel) (cfg_net w)) w.
Definition setlongreordering (longrel : bool) (w : wiring) : wiring := set_cfg_net (LongReordering longrel (cfg_net w)) w.

(** [make_config] before it starts the servers. *)
Definition make_wiring (n : nat) (unreliable : bool) : wiring :=
  let w := setunreliable unreliable (mkWiring MakeNetwork (replicate n false) (replicate n [])) in
  set_cfg_net (LongDelays true (cfg_net w)) w.

(** * Statistics *)

Definition rpcCount (server : Z) (heap : gmap nat Server) (w : wiring) : Go Z := GetCount (IInt server) heap (cfg_net w).
Definition rpcTotal (w : wiring) : Z := GetTotalCount (cfg_net w).
Definition bytesTotal (w : wiring) : Z := GetTotalBytes (cfg_net w).

(** What [begin] remembers. *)
Record stats := mkStats { rpcs0 : Z; cmds0 : Z; bytes0 : Z; maxIndex0 : Z }.
Definition begin {Cmd} (w : wiring) (cfg : config Cmd) : stats := mkStats (rpcTotal w) 0 (bytesTotal w) (maxIndex cfg).
(** What [end] prints: peers, RPCs, bytes, agreements. *)
Definition end_ {Cmd} (s : stats) (w : wiring) (cfg : config Cmd) : Z * Z * Z * Z :=
  (cfg_n w, wrap64 (rpcTotal w - rpcs0 s), wrap64 (bytesTotal w - bytes0 s), wrap64 (maxIndex cfg - maxIndex0 s)).

(** The largest log of the [saved] persisters; one that is [nil] is dereferenced. *)
Fixpoint largest_log (saved : list (option Persister)) (logsize : Z) : Go Z :=
  match saved with
  | [] => Ret logsize
  | p :: saved =>
      p ← of_opt p;
      largest_log saved (if decide (RaftStateSize p > logsize) then RaftStateSize p else logsize)
  end.
Definition LogSize (saved : list (option Persister)) : Go Z := largest_log saved 0.
