(* ===== verification/RaftWiring.v ===== *)
(** The network of the Raft harness: whom each server can call.

    [config.go] gives every instance of a server its own ends and enables and
    disables them as servers are connected, disconnected, crashed and restarted. *)

From S2P Require Import Prelude Gob LabRpc RaftConfig.
Local Open Scope Z_scope.

(** * Loops over the servers *)

(** Ends, connections and servers are as before. *)
Definition same_ends (rn rn' : Network) : Prop :=
  ends rn' = ends rn /\ connections rn' = connections rn /\ servers rn' = servers rn.

Lemma is_enabled_Enable e b rn x : is_enabled (Enable e b rn) x = if decide (x = e) then b else is_enabled rn x.
Proof.
  unfold is_enabled. simpl. case_decide; [subst; by rewrite lookup_insert_eq|by rewrite lookup_insert_ne by congruence].
Qed.

(** A loop that sets the ends [g j] to [b]. *)
Lemma each_enables f (g : Z -> option Iface) b js : forall rn,
  (forall j rn, j ∈ js -> f j rn = Ret (match g j with Some e => Enable e b rn | None => rn end)) ->
  exists rn', each f js rn = Ret rn' /\ same_ends rn rn' /\
    forall x, is_enabled rn' x = if decide (x ∈ omap g js) then b else is_enabled rn x.
Proof.
  induction js as [|j js IH]; intros rn Hf; simpl.
  { exists rn. split_and!; try done. }
  rewrite Hf by (by left). simpl.
  destruct (IH (match g j with Some e => Enable e b rn | None => rn end)) as (rn' & -> & (E1 & E2 & E3) & Hen).
  { intros k rn0 Hk. apply Hf. by right. }
  exists rn'. split_and!; [done|by destruct (g j); repeat split|].
  intros x. rewrite Hen. destruct (g j) as [e|]; [|done]. rewrite is_enabled_Enable.
  destruct (decide (x ∈ omap g js)) as [Hin|Hin].
  - by rewrite decide_True by (by right).
  - destruct (decide (x = e)) as [->|Hne]; [by rewrite decide_True by left|].
    rewrite decide_False; [done|]. by rewrite not_elem_of_cons.
Qed.

(** The loop of [start1]: ends that are new, disabled and connected. *)
Lemma each_make names js : forall rn rn', each (make_end names) js rn = Ret rn' -> NoDup js ->
  servers rn' = servers rn /\
  (forall j e, j ∈ js -> names.[j] = Some e ->
     ends rn !! e = None /\ is_Some (ends rn' !! e) /\ is_enabled rn' e = false /\ connection rn' e = Some (IInt j) /\
     forall j', j' ∈ js -> names.[j'] = Some e -> j' = j) /\
  (forall e, (forall j, j ∈ js -> names.[j] <> Some e) ->
     ends rn' !! e = ends rn !! e /\ is_enabled rn' e = is_enabled rn e /\ connection rn' e = connection rn e) /\
  (forall j, j ∈ js -> is_Some names.[j]).
Proof.
  induction js as [|j js IH]; intros rn rn' Hrun Hnd; simpl in Hrun.
  { go_inv. split_and!; try done; intros; by match goal with Hj : _ ∈ [] |- _ => apply elem_of_nil in Hj end. }
  apply NoDup_cons in Hnd as [Hj Hnd]. apply go_bind_Ret in Hrun as (rn1 & H1 & Hrun).
  unfold make_end in H1. destruct (names.[j]) as [e|] eqn:He; [|done]. simpl in H1. unfold MakeEnd in H1.
  destruct (ends rn !! e) eqn:Hfresh; [done|]. simpl in H1. go_inv.
  destruct (IH _ _ Hrun Hnd) as (Hsrv & Hnew & Hold & Hsome). simpl in *.
  assert (forall k, k ∈ js -> names.[k] <> Some e) as Hdist.
  { intros k Hk Hek. destruct (Hnew k e Hk Hek) as [Hn _]. by rewrite lookup_insert_eq in Hn. }
  destruct (Hold e Hdist) as (O1 & O2 & O3).
  split_and!; [done| | |].
  - intros k x [->|Hk]%elem_of_cons Hx.
    + rewrite He in Hx. injection Hx as <-. split_and!.
      * done.
      * rewrite O1, lookup_insert_eq. eauto.
      * rewrite O2. unfold is_enabled. simpl. by rewrite lookup_insert_eq.
      * rewrite O3. unfold connection. simpl. by rewrite lookup_insert_eq.
      * intros j' [->|Hj']%elem_of_cons Hx; [done|]. by destruct (Hdist j' Hj').
    + assert (x <> e) as Hxe by (intros ->; by apply (Hdist k)).
      destruct (Hnew k x Hk Hx) as (N1 & N2 & N3 & N4 & N5). rewrite lookup_insert_ne in N1 by congruence.
      split_and!; try done. intros j' [->|Hj']%elem_of_cons Hx'; [congruence|by apply N5].
  - intros x Hx. assert (x <> e) as Hxe by (intros ->; by apply (Hx j); [left|]).
    destruct (Hold x) as (P1 & P2 & P3); [intros k Hk; apply Hx; by right|].
    rewrite P1, P2, P3. unfold is_enabled, connection. simpl. by rewrite !lookup_insert_ne by congruence.
  - intros k [->|Hk]%elem_of_cons; [by rewrite He|by apply Hsome].
Qed.

(** * The invariant *)

Definition is_connected (w : wiring) (i : Z) : bool := default false (connected w).[i].

Record wired (w : wiring) : Prop := {
  wd_len : zlen (endnames w) = cfg_n w;
  wd_row : forall i row, (endnames w).[i] = Some row -> row = [] \/ zlen row = cfg_n w;
  wd_started : forall i, is_connected w i = true -> exists row, (endnames w).[i] = Some row /\ row <> [];
  wd_inj : forall i j i' j' e, endname_of w i j = Some e -> endname_of w i' j' = Some e -> i = i' /\ j = j';
  wd_end : forall i j e, endname_of w i j = Some e ->
    is_Some (ends (cfg_net w) !! e) /\ connection (cfg_net w) e = Some (IInt j) /\
    is_enabled (cfg_net w) e = is_connected w i && is_connected w j;
  wd_old : forall e, (forall i j, endname_of w i j <> Some e) -> is_enabled (cfg_net w) e = false
}.

Lemma elem_of_servers w j : j ∈ servers_of w <-> 0 <= j < cfg_n w.
Proof. unfold servers_of. rewrite elem_of_seqZ. pose proof (zlen_nonneg (connected w)). unfold cfg_n in *. lia. Qed.

Lemma endname_range w i j e : wired w -> endname_of w i j = Some e -> 0 <= i < cfg_n w /\ 0 <= j < cfg_n w.
Proof.
  intros W He. unfold endname_of in He. apply bind_Some in He as (row & Hrow & Hj).
  pose proof (go_index_Some_lt _ _ _ Hrow). pose proof (go_index_Some_lt _ _ _ Hj).
  rewrite (wd_len _ W) in *. destruct (wd_row _ W i row Hrow) as [->|Hz]; [|lia]. change (zlen []) with 0 in *. lia.
Qed.

(** Every end of a started server has a name. *)
Lemma endname_started w i row j : wired w -> (endnames w).[i] = Some row -> row <> [] -> 0 <= j < cfg_n w ->
  is_Some (endname_of w i j).
Proof.
  intros W Hrow Hne Hj. unfold endname_of. rewrite Hrow. simpl. apply go_index_is_Some.
  destruct (wd_row _ W i row Hrow); [done|lia].
Qed.

Lemma row_at w i : wired w -> 0 <= i < cfg_n w -> exists row, (endnames w).[i] = Some row.
Proof. intros W Hi. destruct (go_index_is_Some (endnames w) i) as [row ?]; [rewrite (wd_len _ W); lia|eauto]. Qed.

(** [connected[i] = b] *)
Lemma is_connected_store w cs i b : go_store (connected w) i b = Some cs ->
  forall j, default false cs.[j] = if decide (j = i) then b else is_connected w j.
Proof.
  intros Hcs j. unfold is_connected. rewrite (go_index_store _ _ j _ _ Hcs). by case_decide.
Qed.

(** A change of connections of [i] to [b] and of the ends of [i]. *)
Lemma wired_set w i b cs rn' : wired w -> go_store (connected w) i b = Some cs -> same_ends (cfg_net w) rn' ->
  (b = true -> exists row, (endnames w).[i] = Some row /\ row <> []) ->
  (forall x j e, endname_of w x j = Some e -> is_enabled rn' e =
     (if decide (x = i) then b else is_connected w x) && (if decide (j = i) then b else is_connected w j)) ->
  (forall e, (forall x j, endname_of w x j <> Some e) -> is_enabled rn' e = is_enabled (cfg_net w) e) ->
  wired (mkWiring rn' cs (endnames w)).
Proof.
  intros W Hcs (E1 & E2 & _) Hb Hen Hold. pose proof W as [Hl Hr Hst Hi He Ho].
  destruct (go_store_inv _ _ _ _ Hcs) as [_ Hz]. pose proof (is_connected_store w cs i b Hcs) as Hc.
  assert (forall x, is_connected (mkWiring rn' cs (endnames w)) x = if decide (x = i) then b else is_connected w x) as Hc'
    by (intros x; apply Hc).
  split; unfold cfg_n in *; simpl; rewrite ?Hz; try done.
  - intros x. rewrite Hc'. case_decide; [subst; by auto|by auto].
  - intros x j e Hx. destruct (He x j e Hx) as (? & Hconn & _). rewrite E1. split_and!; [done| |].
    + unfold connection in *. by rewrite E2.
    + rewrite !Hc'. by apply Hen.
  - intros e Hx. rewrite Hold by done. by apply Ho.
Qed.

Lemma each_all f js : forall rn rn' j, each f js rn = Ret rn' -> j ∈ js -> exists rn1 rn2, f j rn1 = Ret rn2.
Proof.
  induction js as [|k js IH]; intros rn rn' j Hrun Hj; [by apply elem_of_nil in Hj|]. simpl in Hrun.
  apply go_bind_Ret in Hrun as (rn1 & H1 & Hrun). apply elem_of_cons in Hj as [->|Hj]; eauto.
Qed.

(** The two loops of [connect] and of [disconnect]: the ends out of and into [i]
    for the servers in [P]. *)
Lemma loops_enable (P : Z -> bool) (b : bool) i w f g rn :
  wired w -> 0 <= i < cfg_n w ->
  (forall j rn, 0 <= j < cfg_n w -> f j rn = if P j then enable_end b w i j rn else Ret rn) ->
  (forall j rn, 0 <= j < cfg_n w -> g j rn = if P j then enable_end b w j i rn else Ret rn) ->
  (forall j, 0 <= j < cfg_n w -> P j = true -> is_Some (endname_of w i j) /\ is_Some (endname_of w j i)) ->
  exists rn1 rn2, each f (servers_of w) rn = Ret rn1 /\ each g (servers_of w) rn1 = Ret rn2 /\ same_ends rn rn2 /\
    (forall x j e, endname_of w x j = Some e -> is_enabled rn2 e =
       if decide ((x = i /\ P j = true) \/ (j = i /\ P x = true)) then b else is_enabled rn e) /\
    (forall e, (forall x j, endname_of w x j <> Some e) -> is_enabled rn2 e = is_enabled rn e).
Proof.
  intros W Hi Hf Hg HP.
  destruct (each_enables f (fun j => if P j then endname_of w i j else None) b (servers_of w) rn) as (rn1 & H1 & (A1 & A2 & A3) & En1).
  { intros j rn0 Hj%elem_of_servers. rewrite Hf by done. destruct (P j) eqn:Hp; [|done].
    destruct (HP j Hj Hp) as [[e He] _]. unfold enable_end. by rewrite He. }
  destruct (each_enables g (fun j => if P j then endname_of w j i else None) b (servers_of w) rn1) as (rn2 & H2 & (B1 & B2 & B3) & En2).
  { intros j rn0 Hj%elem_of_servers. rewrite Hg by done. destruct (P j) eqn:Hp; [|done].
    destruct (HP j Hj Hp) as [_ [e He]]. unfold enable_end. by rewrite He. }
  exists rn1, rn2. split_and!; [done|done|by repeat split; congruence| |].
  - intros x j e He. destruct (endname_range w x j e W He) as [Hx Hj]. rewrite En2, En1.
    destruct (decide (e ∈ omap _ _)) as [Hin|Hin].
    + apply list_elem_of_omap in Hin as (k & _ & Hk). destruct (P k) eqn:Hp; [|done].
      destruct (wd_inj _ W _ _ _ _ _ He Hk) as [-> ->]. by rewrite decide_True by auto.
    + destruct (decide (e ∈ omap _ _)) as [Hin2|Hin2].
      * apply list_elem_of_omap in Hin2 as (k & _ & Hk). destruct (P k) eqn:Hp; [|done].
        destruct (wd_inj _ W _ _ _ _ _ He Hk) as [-> ->]. by rewrite decide_True by auto.
      * rewrite decide_False; [done|]. intros [[-> Hp]|[-> Hp]]; [apply Hin2|apply Hin];
          apply list_elem_of_omap; eexists; rewrite elem_of_servers, Hp; done.
  - intros e He. rewrite En2, En1, !decide_False; [done|..];
      intros (k & _ & Hk)%list_elem_of_omap; destruct (P k); try done; by eapply He.
Qed.

Lemma connect_wired i w w' : wired w -> connect i w = Ret w' ->
  wired w' /\ forall j, is_connected w' j = if decide (j = i) then true else is_connected w j.
Proof.
  intros W Hc. unfold connect in Hc. apply go_bind_Ret in Hc as (cs & Hcs & Hc).
  destruct (go_store (connected w) i true) as [cs'|] eqn:Hst; [|done]. injection Hcs as ->.
  destruct (go_store_inv _ _ _ _ Hst) as [Hi Hz]. pose proof (is_connected_store w cs i true Hst) as Hcon.
  set (w1 := mkWiring (cfg_net w) cs (endnames w)) in *.
  assert (servers_of w1 = servers_of w) as Hsv by (unfold servers_of, cfg_n; simpl; by rewrite Hz).
  rewrite Hsv in Hc. apply go_bind_Ret in Hc as (rn1 & H1 & Hc). apply go_bind_Ret in Hc as (rn2 & H2 & Hc).
  injection Hc as <-. split; [|intros j; apply Hcon].
  set (P j := if decide (j = i) then true else is_connected w j).
  assert (forall j k rn, 0 <= j < cfg_n w -> if_connected w1 j k rn = if P j then k rn else Ret rn) as Hif.
  { intros j k rn Hj. unfold if_connected. simpl. destruct (go_index_is_Some cs j) as [b Hb]; [rewrite Hz; done|].
    specialize (Hcon j). rewrite Hb in *. simpl in *. by rewrite Hcon. }
  assert (exists row, (endnames w).[i] = Some row /\ row <> []) as (row & Hrow & Hne).
  { destruct (row_at w i W Hi) as [row Hrow]. exists row. split; [done|]. intros ->.
    destruct (each_all _ _ _ _ i H1) as (r1 & r2 & Hr); [by apply elem_of_servers|].
    rewrite Hif in Hr by done. unfold P in Hr. rewrite decide_True in Hr by done. unfold enable_end, endname_of in Hr.
    simpl in Hr. rewrite Hrow in Hr. simpl in Hr. destruct ([].[i]) eqn:E; [by apply go_index_nil in E|done]. }
  destruct (loops_enable P true i w (fun j => if_connected w1 j (enable_end true w1 i j))
    (fun j => if_connected w1 j (enable_end true w1 j i)) (cfg_net w) W Hi) as (r1 & r2 & L1 & L2 & Hse & Hen & Hold).
  { intros j rn Hj. by apply Hif. } { intros j rn Hj. by apply Hif. }
  { intros j Hj Hp. split; [by eapply endname_started|]. unfold P in Hp. case_decide as Hji.
    - subst. by eapply endname_started.
    - destruct (wd_started _ W j Hp) as (rj & ? & ?). by eapply endname_started. }
  change (cfg_net w1) with (cfg_net w) in H1. rewrite H1 in L1. injection L1 as <-. rewrite H2 in L2. injection L2 as <-.
  apply (wired_set w i true cs rn2 W Hst Hse); [eauto| |done].
  intros x j e He. rewrite (Hen x j e He). destruct (wd_end _ W x j e He) as (_ & _ & ->).
  change (is_connected w) with (fun k => is_connected w k). unfold P.
  destruct (decide (x = i)) as [->|Hx], (decide (j = i)) as [->|Hj]; simpl.
  - by rewrite decide_True by auto.
  - destruct (is_connected w j); [by rewrite decide_True by auto|]. rewrite decide_False by naive_solver. apply andb_false_r.
  - destruct (is_connected w x); [by rewrite decide_True by auto|]. by rewrite decide_False by naive_solver.
  - rewrite decide_False; [done|]. tauto.
Qed.

Definition named (w : wiring) (i : Z) : bool := bool_decide (default [] (endnames w).[i] <> []).

Lemma disconnect_wired i w w' : wired w -> disconnect i w = Ret w' ->
  wired w' /\ (forall j, is_connected w' j = if decide (j = i) then false else is_connected w j) /\
  same_ends (cfg_net w) (cfg_net w') /\ endnames w' = endnames w /\ cfg_n w' = cfg_n w.
Proof.
  intros W Hc. unfold disconnect in Hc. apply go_bind_Ret in Hc as (cs & Hcs & Hc).
  destruct (go_store (connected w) i false) as [cs'|] eqn:Hst; [|done]. injection Hcs as ->.
  destruct (go_store_inv _ _ _ _ Hst) as [Hi Hz]. pose proof (is_connected_store w cs i false Hst) as Hcon.
  set (w1 := mkWiring (cfg_net w) cs (endnames w)) in *.
  assert (servers_of w1 = servers_of w) as Hsv by (unfold servers_of, cfg_n; simpl; by rewrite Hz).
  rewrite Hsv in Hc. apply go_bind_Ret in Hc as (rn1 & H1 & Hc). apply go_bind_Ret in Hc as (rn2 & H2 & Hc).
  injection Hc as <-.
  assert (forall j k rn, 0 <= j < cfg_n w -> if_named w1 j k rn = if named w j then k rn else Ret rn) as Hif.
  { intros j k rn Hj. unfold if_named, named. simpl. destruct (row_at w j W Hj) as [row ->]. simpl.
    by destruct (decide (row <> [])); [rewrite bool_decide_eq_true_2|rewrite bool_decide_eq_false_2]. }
  assert (forall j k e, endname_of w j k = Some e -> named w j = true) as Hnamed.
  { intros j k e He. unfold named, endname_of in *. apply bind_Some in He as (row & -> & Hk). simpl.
    apply bool_decide_eq_true. intros ->. by apply go_index_nil in Hk. }
  assert (forall j k, 0 <= j < cfg_n w -> 0 <= k < cfg_n w -> named w j = true -> is_Some (endname_of w j k)) as Hsome.
  { intros j k Hj Hk Hn. destruct (row_at w j W Hj) as [row Hrow]. apply bool_decide_eq_true in Hn. rewrite Hrow in Hn.
    by eapply endname_started. }
  destruct (each_enables (fun j => if_named w1 i (enable_end false w1 i j)) (fun j => if named w i then endname_of w i j else None)
    false (servers_of w) (cfg_net w)) as (r1 & L1 & (A1 & A2 & A3) & En1).
  { intros j rn Hj%elem_of_servers. rewrite Hif by done. destruct (named w i) eqn:Hn; [|done].
    destruct (Hsome i j Hi Hj Hn) as [e He]. unfold enable_end. change (endname_of w1) with (endname_of w). by rewrite He. }
  destruct (each_enables (fun j => if_named w1 j (enable_end false w1 j i)) (fun j => if named w j then endname_of w j i else None)
    false (servers_of w) r1) as (r2 & L2 & (B1 & B2 & B3) & En2).
  { intros j rn Hj%elem_of_servers. rewrite Hif by done. destruct (named w j) eqn:Hn; [|done].
    destruct (Hsome j i Hj Hi Hn) as [e He]. unfold enable_end. change (endname_of w1) with (endname_of w). by rewrite He. }
  change (cfg_net w1) with (cfg_net w) in H1. rewrite H1 in L1. injection L1 as <-. rewrite H2 in L2. injection L2 as <-.
  assert (same_ends (cfg_net w) rn2) as Hse by (repeat split; congruence).
  split; [|split; [intros j; apply Hcon|split; [exact Hse|split; [done|by unfold cfg_n; simpl; rewrite Hz]]]].
  apply (wired_set w i false cs rn2 W Hst Hse); [done| |].
  - intros x j e He. destruct (endname_range w x j e W He) as [Hx Hj]. destruct (wd_end _ W x j e He) as (_ & _ & Hold).
    rewrite En2, En1.
    destruct (decide (x = i)) as [->|Hxi]; [|destruct (decide (j = i)) as [->|Hji]]; simpl.
    + case_decide; [done|]. rewrite decide_True; [done|]. apply list_elem_of_omap. exists j.
      rewrite (Hnamed _ _ _ He). by rewrite elem_of_servers.
    + rewrite decide_True, andb_false_r; [done|]. apply list_elem_of_omap. exists x.
      rewrite (Hnamed _ _ _ He). by rewrite elem_of_servers.
    + rewrite !decide_False, Hold; [done|..]; intros (k & _ & Hk)%list_elem_of_omap;
        match type of Hk with context [named w ?a] => destruct (named w a); [|done] end; destruct (wd_inj _ W _ _ _ _ _ He Hk); done.
  - intros e He. rewrite En2, En1, !decide_False; [done|..];
      intros (k & _ & Hk)%list_elem_of_omap; match type of Hk with context [named w ?a] => destruct (named w a); [|done] end; by eapply He.
Qed.

Lemma wired_servers ss w : wired w -> wired (set_cfg_net (set_servers ss (cfg_net w)) w).
Proof. intros []. by split. Qed.

(** A new instance of [i], after [crash1]: new ends, and the old ones are left
    disabled. *)
Lemma start_wired i names w w' rn' rows p : wired w -> is_connected w i = false -> zlen names = cfg_n w ->
  go_store (endnames w) i names = Some rows -> each (make_end names) (servers_of w) (cfg_net w) = Ret rn' ->
  w' = mkWiring (AddServer (IInt i) p rn') (connected w) rows -> wired w'.
Proof.
  intros W Hi Hlen Hrows Hrun ->. destruct (go_store_inv _ _ _ _ Hrows) as [Hri Hz].
  destruct (each_make names (servers_of w) (cfg_net w) rn' Hrun) as (_ & Hnew & Hold & _); [apply NoDup_seqZ|].
  assert (forall x j e, endname_of (mkWiring (AddServer (IInt i) p rn') (connected w) rows) x j = Some e ->
    (x = i /\ names.[j] = Some e /\ j ∈ servers_of w) \/ (x <> i /\ endname_of w x j = Some e)) as Hcases.
  { intros x j e He. unfold endname_of in He. simpl in He. rewrite (go_index_store _ _ x _ _ Hrows) in He.
    case_decide; [left|right; done]. simpl in He. split_and!; try done. rewrite elem_of_servers, <- Hlen. by eapply go_index_Some_lt. }
  assert (forall x j e, endname_of w x j = Some e -> forall k, k ∈ servers_of w -> names.[k] <> Some e) as Hdisj.
  { intros x j e He k Hk Hne. destruct (wd_end _ W x j e He) as ([? Hend] & _). destruct (Hnew k e Hk Hne) as [Hn _]. congruence. }
  split; unfold cfg_n in *; simpl.
  - rewrite Hz. apply W.
  - intros x row. rewrite (go_index_store _ _ x _ _ Hrows). case_decide; [intros [= <-]; by right|by apply (wd_row _ W)].
  - intros x Hx. change (is_connected w x = true) in Hx. rewrite (go_index_store _ _ x _ _ Hrows).
    rewrite decide_False by congruence. by apply (wd_started _ W).
  - intros x j x' j' e [(-> & He & Hj)|(Hx & He)]%Hcases [(-> & He' & Hj')|(Hx' & He')]%Hcases.
    + split; [done|]. by eapply Hnew.
    + by destruct (Hdisj x' j' e He' j Hj).
    + by destruct (Hdisj x j e He j' Hj').
    + by eapply (wd_inj _ W).
  - intros x j e [(-> & He & Hj)|(Hx & He)]%Hcases.
    + destruct (Hnew j e Hj He) as (_ & ? & Hen & ? & _). split_and!; [done|done|].
      change (is_enabled rn' e = is_connected w i && is_connected w j). by rewrite Hen, Hi.
    + destruct (wd_end _ W x j e He) as ([y Hend] & Hconn & Hen). destruct (Hold e) as (E1 & E2 & E3); [by eapply Hdisj|].
      split_and!; [rewrite E1, Hend; eauto|change (connection rn' e = Some (IInt j)); by rewrite E3|].
      change (is_enabled rn' e = is_connected w x && is_connected w j). by rewrite E2.
  - intros e He. change (is_enabled rn' e = false).
    assert (forall k, k ∈ servers_of w -> names.[k] <> Some e) as Hn.
    { intros k Hk Hke. apply (He i k). unfold endname_of. simpl. rewrite (go_index_store _ _ i _ _ Hrows).
      by rewrite decide_True. }
    destruct (Hold e Hn) as (_ & -> & _). destruct (row_at w i W) as [row Hrow]; [by rewrite <- (wd_len _ W)|].
    destruct (decide (e ∈ row)) as [[k Hk]%list_elem_of_lookup|Hno].
    { assert (endname_of w i (Z.of_nat k) = Some e) as Hj by (unfold endname_of; rewrite Hrow; simpl; by rewrite go_index_of_nat).
      destruct (wd_end _ W i _ e Hj) as (_ & _ & ->). by rewrite Hi. }
    apply (wd_old _ W). intros x j Hx. destruct (decide (x = i)) as [->|Hxi].
    { unfold endname_of in Hx. rewrite Hrow in Hx. simpl in Hx. apply Hno. pose proof (go_index_Some_lt _ _ _ Hx).
      rewrite go_index_lookup in Hx by lia. by eapply list_elem_of_lookup_2. }
    apply (He x j). unfold endname_of in *. simpl. rewrite (go_index_store _ _ x _ _ Hrows). by rewrite decide_False.
Qed.

(** * Whole tests *)

Inductive wire_op :=
| WStart (i : Z) (names : list Iface) (p : nat) | WConnect (i : Z) | WDisconnect (i : Z) | WCrash (i : Z)
| WUnreliable (b : bool) | WLongReordering (b : bool).

(** [start1] draws as many names as there are servers. *)
Definition wire_step (o : wire_op) (w : wiring) : Go wiring :=
  match o with
  | WStart i names p => if decide (zlen names = cfg_n w) then start1_net i names p w else Block
  | WConnect i => connect i w
  | WDisconnect i => disconnect i w
  | WCrash i => crash1_net i w
  | WUnreliable b => Ret (setunreliable b w)
  | WLongReordering b => Ret (setlongreordering b w)
  end.
Fixpoint wire_run (os : list wire_op) (w : wiring) : Go wiring :=
  match os with [] => Ret w | o :: os => w ← wire_step o w; wire_run os w end.

Lemma crash_wired i w w' : wired w -> crash1_net i w = Ret w' -> wired w' /\ is_connected w' i = false /\ cfg_n w' = cfg_n w.
Proof.
  intros W Hc. unfold crash1_net in Hc. apply go_bind_Ret in Hc as (w1 & H1 & Hc). injection Hc as <-.
  destruct (disconnect_wired i w w1 W H1) as (W1 & Hcon & _ & _ & Hn).
  split_and!; [by apply wired_servers| |done]. change (is_connected w1 i = false). rewrite Hcon. by rewrite decide_True.
Qed.

Lemma wire_step_wired o w w' : wired w -> wire_step o w = Ret w' -> wired w'.
Proof.
  intros W Hs. destruct o as [i names p|i|i|i|b|b]; simpl in Hs.
  - case_decide as Hlen; [|done]. unfold start1_net in Hs. apply go_bind_Ret in Hs as (w1 & H1 & Hs).
    destruct (crash_wired i w w1 W H1) as (W1 & Hi & Hn).
    destruct (go_store (endnames w1) i names) as [rows|] eqn:Hrows; [|done]. simpl in Hs.
    apply go_bind_Ret in Hs as (rn & Hrn & Hs). injection Hs as <-. eapply start_wired; try done. congruence.
  - by apply (connect_wired i w w').
  - by apply (disconnect_wired i w w').
  - by apply (crash_wired i w w').
  - injection Hs as <-. destruct W. by split.
  - injection Hs as <-. destruct W. by split.
Qed.

Lemma make_wired n unrel : wired (make_wiring n unrel).
Proof.
  assert (forall i row, (endnames (make_wiring n unrel)).[i] = Some row -> row = []) as Hnil.
  { intros i row Hrow. pose proof (go_index_Some_lt _ _ _ Hrow). rewrite go_index_lookup in Hrow by lia.
    by apply lookup_replicate in Hrow as [-> _]. }
  assert (forall i j e, endname_of (make_wiring n unrel) i j <> Some e) as Hno.
  { intros i j e He. unfold endname_of in He. apply bind_Some in He as (row & ->%Hnil & He). by apply go_index_nil in He. }
  split.
  - unfold cfg_n, zlen. simpl. by rewrite !length_replicate.
  - intros i row Hrow. left. by eapply Hnil.
  - intros i. unfold is_connected. simpl. destruct ((replicate n false).[i]) eqn:E; [|done]. simpl. intros ->.
    pose proof (go_index_Some_lt _ _ _ E). rewrite go_index_lookup in E by lia. by apply lookup_replicate in E as [? _].
  - intros i j i' j' e He. by destruct (Hno i j e).
  - intros i j e He. by destruct (Hno i j e).
  - done.
Qed.

Lemma wire_run_wired os : forall w w', wired w -> wire_run os w = Ret w' -> wired w'.
Proof.
  induction os as [|o os IH]; intros w w' W Hr; simpl in Hr; [by injection Hr as <-|].
  apply go_bind_Ret in Hr as (w1 & H1 & Hr). eauto using wire_step_wired.
Qed.

(** C19. Whom a server can call: after any sequence of starts, restarts, crashes,
    connects and disconnects of a test, a request sent on the end from server [i]
    to server [j] finds the end enabled exactly when both are connected and is
    addressed to [j]; and the ends of all earlier instances are disabled, so a
    crashed instance can no longer send. *)
Theorem harness_wiring os n unrel w : wire_run os (make_wiring n unrel) = Ret w ->
  (forall i j e, endname_of w i j = Some e ->
     readEndnameInfo e (cfg_net w) =
       (is_connected w i && is_connected w j, Some (IInt j), server_at (cfg_net w) (IInt j),
        reliable (cfg_net w), longReordering (cfg_net w))) /\
  (forall e, (forall i j, endname_of w i j <> Some e) -> is_enabled (cfg_net w) e = false).
Proof.
  intros Hr. pose proof (wire_run_wired os _ _ (make_wired n unrel) Hr) as W. split; [|apply W].
  intros i j e He. destruct (wd_end _ W i j e He) as (_ & Hconn & Hen). unfold readEndnameInfo. by rewrite Hconn, Hen.
Qed.

(** A test with three servers: one crashes and is restarted, one is cut off. *)
Definition ex_names (k : Z) : list Iface := (fun j => IInt (100 * k + j)) <$> [0; 1; 2].
Definition ex_ops : list wire_op :=
  [WStart 0 (ex_names 1) 1; WStart 1 (ex_names 2) 2; WStart 2 (ex_names 3) 3; WConnect 0; WConnect 1; WConnect 2;
   WCrash 1; WStart 1 (ex_names 4) 4; WConnect 1; WDisconnect 2].
Definition ex_wiring : wiring := match wire_run ex_ops (make_wiring 3 false) with Ret w => w | _ => make_wiring 3 false end.

Lemma harness_wiring_witness :
  readEndnameInfo (IInt 401) (cfg_net ex_wiring) = (true, Some (IInt 1), Some 4%nat, true, false) /\
  readEndnameInfo (IInt 402) (cfg_net ex_wiring) = (false, Some (IInt 2), Some 3%nat, true, false) /\
  is_enabled (cfg_net ex_wiring) (IInt 200) = false.
Proof.
  destruct (harness_wiring ex_ops 3 false ex_wiring) as [Hcur Hold]; [vm_compute; reflexivity|]. split_and!.
  - rewrite (Hcur 1 1) by (vm_compute; reflexivity). vm_compute. reflexivity.
  - rewrite (Hcur 1 2) by (vm_compute; reflexivity). vm_compute. reflexivity.
  - vm_compute. reflexivity.
Defined.
