(* ===== verification/RaftHarness.v ===== *)
(** The Raft test harness on top of a cluster.

    The appliers of [config.go] read the channels of the peers, compare every command
    with what the other servers applied at its index, insist on the order of the
    log, take a snapshot every ten entries and install the snapshots they are
    handed.  Here they run against [RaftCluster]: the harness makes the snapshots
    itself, so nothing is assumed about them.

    An applier reads any message that [sendable] allows.  The applier of an instance
    that was stopped goes on reading its own channel, and writes into the same tables.
    [hstep] does not restrict any of this; [orderly] is the predicate on runs under
    which the checks cannot fail, and [RaftHarnessWitness] has a run outside it in
    which a correct cluster fails the test.  What a handler of a stopped instance
    still posts after the restart is not modelled. *)

From S2P Require Import Prelude Gob Persister RaftTypes RaftNode RaftInv RaftSpec RaftCluster.
From S2P Require Import RaftElection RaftLog RaftRefine RaftSim RaftSteps RaftSafety RaftServices RaftConfig.
Local Open Scope Z_scope.

Section harness.
Context {Cmd : Type} `{EqDecision Cmd} `{GobLaws Z} `{GobLaws (list (LogEntry Cmd))} `{GobLaws (list (option Cmd))}.
Context (n : nat).
Implicit Types (c : Cluster Cmd) (cfg : config Cmd) (rf : Raft Cmd).

(** * The composed system *)

(** [queue]: the channels of the running instances.  [stopped]: the unread messages of
    instances that were stopped. *)
Record HSys := mkHSys {
  hc : Cluster Cmd; hcfg : config Cmd;
  queue : gmap Z (Queue Cmd); stopped : list (Z * list (ApplyMsg Cmd)) }.

Inductive HAct := HCluster (a : Action Cmd) | HConsume (i : Z) (k : nat) | HConsumeOld (g k : nat).

Definition queue_of (i : Z) (h : HSys) : Queue Cmd := default (mkQueue 0 []) (queue h !! i).
Definition pending_msgs (i : Z) (h : HSys) : list (ApplyMsg Cmd) := unread i (queue_of i h) (hc h).

(** Snapshots are only taken by the appliers. *)
Definition takes_snapshot (a : Action Cmd) : bool := match a with ASnapshot _ _ _ => true | _ => false end.

(** An action that is not enabled is [Block]. *)
Definition cluster_step (a : Action Cmd) (h : HSys) : Go HSys :=
  if takes_snapshot a then Block else
  match exec a (hc h) with
  | None => Block
  | Some c =>
      match a with
      | ARestart i _ =>
          rf ← of_opt (nodes c !! i);
          cfg ← start1_applied i (ReadSnapshot (persister rf)) (hcfg h);
          Ret (mkHSys c cfg (<[i := new_queue i c]> (queue h)) (stopped h ++ [(i, pending_msgs i h)]))
      | _ => Ret (mkHSys c (hcfg h) (queue h) (stopped h))
      end
  end.

Definition consume_step (i : Z) (k : nat) (h : HSys) : Go HSys :=
  match nodes (hc h) !! i, pending_msgs i h !! k with
  | Some _, Some m =>
      if sendable (pending_msgs i h) k then
        '(cfg, snap) ← applierSnap_msg i m (hcfg h);
        c ← match snap with
            | None => Ret (hc h)
            | Some (index, data) => of_opt (exec (ASnapshot i index data) (hc h))
            end;
        Ret (mkHSys c cfg (<[i := read_queue i (queue_of i h) k (hc h)]> (queue h)) (stopped h))
      else Block
  | _, _ => Block
  end.

(** The applier of a stopped instance; the snapshot it takes goes to its own peer,
    whose persister nobody reads any more. *)
Definition consume_old (g k : nat) (h : HSys) : Go HSys :=
  match stopped h !! g with
  | Some (i, q) =>
      match q !! k with
      | Some m =>
          if sendable q k then
            '(cfg, _) ← applierSnap_msg i m (hcfg h);
            Ret (mkHSys (hc h) cfg (queue h) (<[g := (i, delete k q)]> (stopped h)))
          else Block
      | None => Block
      end
  | None => Block
  end.

Definition hstep (a : HAct) (h : HSys) : Go HSys :=
  match a with
  | HCluster a => cluster_step a h
  | HConsume i k => consume_step i k h
  | HConsumeOld g k => consume_old g k h
  end.

Fixpoint hrun (acts : list HAct) (h : HSys) : Go HSys :=
  match acts with [] => Ret h | a :: acts => h ← hstep a h; hrun acts h end.

(** Replication goroutines find the term they captured, appliers read the messages in
    the order in which they were posted, and the appliers of stopped instances read
    nothing more. *)
Definition orderly_step (a : HAct) (h : HSys) : bool :=
  match a with
  | HCluster a => admissible a (hc h)
  | HConsume _ k => bool_decide (k = 0%nat)
  | HConsumeOld _ _ => false
  end.
Fixpoint orderly (acts : list HAct) (h : HSys) : bool :=
  match acts with
  | [] => true
  | a :: acts => orderly_step a h && match hstep a h with Ret h => orderly acts h | _ => true end
  end.

Definition hstart (now : Z) : HSys := mkHSys (cluster_init n now) (make_tables n) ∅ [].

(** * The log the servers agree on *)

(** Some service was handed [v] at index [k]. *)
Definition agreed c (k : Z) (v : option Cmd) : Prop :=
  exists j m, (j, m) ∈ delivered c /\ CommandValid m = true /\ CommandIndex m = k /\ amCommand m = v.

Lemma agreed_fun c s V L k v1 v2 : Rel n c s V L -> agreed c k v1 -> agreed c k v2 -> v1 = v2.
Proof.
  intros R (i & m1 & D1 & V1 & I1 & <-) (j & m2 & D2 & V2 & I2 & <-).
  eapply (deliveries_agree n c s V L i j m1 m2); auto. unfold msg_index. rewrite V1, V2. congruence.
Qed.

Lemma agreed_mono c c' l k v : delivered c' = delivered c ++ l -> agreed c k v -> agreed c' k v.
Proof. intros Hd (j & m & Hin & ?). exists j, m. rewrite Hd, elem_of_app. auto. Qed.

(** A snapshot of the harness: the commands up to its index. *)
Definition good_snap c (jd : Z * bytes) : Prop :=
  0 <= jd.1 /\ exists xlog, jd.2 = gob_encode jd.1 ++ gob_encode xlog /\ zlen xlog = jd.1 + 1 /\
    forall k, 0 < k <= jd.1 -> exists v, xlog.[k] = Some v /\ agreed c k v.

(** The log kept for one server. *)
Definition good_log c (lg : gmap Z (option Cmd)) (a : Z) : Prop :=
  (forall k v, 0 < k -> lg !! k = Some v -> agreed c k v) /\ (forall k, 0 < k <= a -> is_Some (lg !! k)).

Record hinv (h : HSys) (K : list (Z * bytes)) : Prop := {
  hi_rel : exists s V L, Rel n (hc h) s V L;
  hi_origin : exists P, origin (hc h) P K;
  hi_snaps : forall jd, jd ∈ K -> good_snap (hc h) jd;
  hi_len : zlen (logs (hcfg h)) = Z.of_nat n /\ zlen (cfg_lastApplied (hcfg h)) = Z.of_nat n;
  hi_logs : forall i, 0 <= i < Z.of_nat n -> exists lg a, (logs (hcfg h)).[i] = Some lg /\
    (cfg_lastApplied (hcfg h)).[i] = Some a /\ 0 <= a /\ good_log (hc h) lg a /\
    forall rf, nodes (hc h) !! i = Some rf -> in_order a (pending_msgs i h) (lastApplied rf) /\
      queue_ok i (queue_of i h) (hc h)
}.

Lemma queue_of_other h i j q c cfg st : i <> j -> queue_of j (mkHSys c cfg (<[i := q]> (queue h)) st) = queue_of j h.
Proof. intros Hne. unfold queue_of. simpl. by rewrite lookup_insert_ne. Qed.
Lemma queue_of_same h i q c cfg st : queue_of i (mkHSys c cfg (<[i := q]> (queue h)) st) = q.
Proof. unfold queue_of. simpl. by rewrite lookup_insert_eq. Qed.

(** ** The tables *)

Lemma snapshot_log_from (xlog : list (option Cmd)) (off : nat) k :
  (list_to_map (imap (fun j v => (Z.of_nat (off + j), v)) xlog) : gmap Z (option Cmd)) !! k =
  if decide (Z.of_nat off <= k) then xlog.[k - Z.of_nat off] else None.
Proof.
  revert off. induction xlog as [|v xlog IH]; intros off; simpl.
  - rewrite lookup_empty. case_decide; [|done]. unfold go_index. by case_decide.
  - rewrite Nat.add_0_r. destruct (decide (k = Z.of_nat off)) as [->|Hne].
    + rewrite lookup_insert_eq, decide_True, Z.sub_diag by lia. done.
    + rewrite lookup_insert_ne by congruence.
      rewrite (imap_ext _ (fun j v => (Z.of_nat (S off + j), v))) by (intros; simpl; do 2 f_equal; lia).
      rewrite IH. repeat case_decide; try lia; [|done]. rewrite go_index_cons_S by lia. f_equal. lia.
Qed.

Lemma snapshot_log_lookup (xlog : list (option Cmd)) k : 0 <= k -> snapshot_log xlog !! k = xlog.[k].
Proof.
  intros Hk. unfold snapshot_log.
  rewrite (imap_ext _ (fun j v => (Z.of_nat (0 + j), v))) by done.
  rewrite snapshot_log_from, decide_True by lia. f_equal. lia.
Qed.

Lemma check_each_none index (v : option Cmd) ls : forall j,
  (forall lg old, lg ∈ ls -> lg !! index = Some old -> old = v) -> check_each index v j ls None = None.
Proof.
  induction ls as [|lg ls IH]; intros j Hls; simpl; [done|].
  destruct (lg !! index) as [old|] eqn:Ho.
  - rewrite (Hls lg old) by (done || by left). rewrite decide_False by (intros Hd; by apply Hd).
    apply IH. intros. eapply Hls; [by right|done].
  - apply IH. intros. eapply Hls; [by right|done].
Qed.

(** Installing a snapshot of the harness. *)
Lemma ingest_good c i j data index cfg : good_snap c (j, data) -> index = -1 \/ index = j ->
  0 <= i < zlen (logs cfg) -> zlen (cfg_lastApplied cfg) = zlen (logs cfg) ->
  exists lg, ingestSnap i data index cfg =
      Ret (true, mkConfig (<[Z.to_nat i := lg]> (logs cfg)) (<[Z.to_nat i := j]> (cfg_lastApplied cfg)) (maxIndex cfg)) /\
    good_log c lg j.
Proof.
  intros (Hj & xlog & Hd & Hz & Hx) Hidx Hi Hlen. simpl in *. subst data. exists (snapshot_log xlog). split.
  - unfold ingestSnap. rewrite decide_False.
    2:{ intros [Hnil _]%app_eq_nil. by apply (gob_nonempty j). }
    rewrite gob_roundtrip. simpl. rewrite gob_roundtrip_nil. simpl. rewrite decide_False by naive_solver.
    rewrite !go_store_Some by lia. done.
  - split.
    + intros k v Hk Hv. rewrite snapshot_log_lookup in Hv by lia. pose proof (go_index_Some_lt _ _ _ Hv).
      destruct (Hx k) as (v' & Hv' & Ha); [lia|]. congruence.
    + intros k Hk. rewrite snapshot_log_lookup by lia. destruct (Hx k Hk) as (v & -> & _). eauto.
Qed.

Lemma good_log_mono c c' l lg a : delivered c' = delivered c ++ l -> good_log c lg a -> good_log c' lg a.
Proof. intros Hd [H1' H2']. split; [|done]. intros. eapply agreed_mono; eauto. Qed.
Lemma good_snap_mono c c' l jd : delivered c' = delivered c ++ l -> good_snap c jd -> good_snap c' jd.
Proof.
  intros Hd (Hj & xlog & He & Hz & Hx). split; [done|]. exists xlog. split_and!; try done.
  intros k Hk. destruct (Hx k Hk) as (v & Hv & Ha). exists v. split; [done|]. by eapply agreed_mono.
Qed.
(** ** Steps of the cluster *)

Lemma hinv_exec a h c' K : hinv h K -> admissible a (hc h) = true -> exec a (hc h) = Some c' ->
  (forall i, restarts i a = false) -> (forall jd, jd ∈ taken_by a -> good_snap (hc h) jd) ->
  hinv (mkHSys c' (hcfg h) (queue h) (stopped h)) (taken_by a ++ K).
Proof.
  intros [(s & V & L & R) [P O] Hsn Hlen Hlogs] Ha He Hre Hts.
  destruct (exec_simulated n _ s V L a c' R Ha He) as (s' & V' & L' & _ & R').
  destruct (exec_delivered n _ _ _ _ _ _ R He) as [l Hd].
  split; simpl; try done.
  - eauto.
  - eexists. by apply (exec_origin n _ _ _ _ P K a c' R O He).
  - intros jd [Hjd|Hjd]%elem_of_app; eapply good_snap_mono; eauto.
  - intros i Hi. destruct (Hlogs i Hi) as (lg & b & H1' & H2' & H3' & H4' & Hq). exists lg, b.
    split_and!; try done; [by eapply good_log_mono|]. intros rf' Hrf'.
    destruct (exec_queue n _ _ _ _ a c' i rf' R He (Hre i) Hrf') as (rf & ms & Hrf & Hrec & Hio).
    destruct (Hq rf Hrf) as (Hin & Hok). destruct (queue_posted _ _ _ _ _ Hok Hrec) as [Hok' Hu].
    unfold pending_msgs, queue_of in *. simpl. rewrite Hu. split; [by eapply in_order_app|done].
Qed.

(** A new instance starts where its snapshot ends. *)
Lemma start1_good c P K i rf cfg lg : stems P K rf -> (forall jd, jd ∈ K -> good_snap c jd) ->
  0 <= i < zlen (logs cfg) -> zlen (cfg_lastApplied cfg) = zlen (logs cfg) -> (logs cfg).[i] = Some lg -> good_log c lg 0 ->
  exists cfg' lg', start1_applied i (ReadSnapshot (persister rf)) cfg = Ret cfg' /\
    logs cfg' = <[Z.to_nat i := lg']> (logs cfg) /\
    cfg_lastApplied cfg' = <[Z.to_nat i := firstIdx (log rf)]> (cfg_lastApplied cfg) /\
    0 <= firstIdx (log rf) /\ good_log c lg' (firstIdx (log rf)).
Proof.
  intros [_ Hstem] Hsn Hi Hlen Hlg Hgl. unfold start1_applied. rewrite go_store_Some by lia. simpl.
  destruct Hstem as [[Hf ->]|Hin].
  - rewrite decide_False by done. eexists _, lg. split; [done|]. simpl. rewrite Hf. split_and!; [|done|lia|done].
    symmetry. apply list_insert_id. by rewrite <- go_index_lookup by lia.
  - pose proof (Hsn _ Hin) as Hg. pose proof Hg as (Hj & xlog & Hdata & _). simpl in Hj, Hdata.
    destruct (ingest_good c i _ _ (-1) (mkConfig (logs cfg) (<[Z.to_nat i := 0]> (cfg_lastApplied cfg)) (maxIndex cfg))
      Hg (or_introl eq_refl)) as (lg' & Hing & Hgl'); simpl; [lia|rewrite zlen_insert; lia|].
    rewrite decide_True.
    2:{ rewrite Hdata. unfold zlen. rewrite length_app.
        pose proof (gob_nonempty (firstIdx (log rf))) as Hne. destruct (gob_encode (firstIdx (log rf))); [done|simpl; lia]. }
    rewrite Hing. simpl. eexists _, lg'. split; [done|]. simpl. by rewrite list_insert_insert_eq.
Qed.

Lemma hinv_restart i now h c' K : hinv h K -> exec (ARestart i now) (hc h) = Some c' ->
  exists rf cfg, nodes c' !! i = Some rf /\ start1_applied i (ReadSnapshot (persister rf)) (hcfg h) = Ret cfg /\
    hinv (mkHSys c' cfg (<[i := new_queue i c']> (queue h)) (stopped h ++ [(i, pending_msgs i h)])) K.
Proof.
  intros [(s & V & L & R) [P O] Hsn [Hlen1 Hlen2] Hlogs] He. pose proof He as He'. simpl in He'.
  apply bind_Some in He' as (rf & Hi & He'). apply bind_Some in He' as ([rf' eff] & Hm & He'). injection He' as Hc'.
  destruct (exec_simulated n _ s V L (ARestart i now) c' R eq_refl He) as (s' & V' & L' & _ & R').
  destruct (exec_delivered n _ _ _ _ _ _ R He) as [l Hd].
  pose proof (exec_origin n _ _ _ _ P K _ c' R O He) as O'. simpl in O'.
  assert (nodes c' !! i = Some rf') as Hi' by (rewrite <- Hc'; apply lookup_insert_eq).
  destruct (ei_node _ _ _ (r_el _ _ _ _ _ R') i rf' Hi') as (_ & _ & Hri & _).
  destruct (Make_recovers _ _ _ _ _ _ Hm) as (_ & _ & _ & _ & _ & _ & Happ).
  assert (forall jd, jd ∈ K -> good_snap c' jd) as Hsn' by (intros; eapply good_snap_mono; eauto).
  destruct (Hlogs i Hri) as (lg & a & Hlg & Hla & Ha & Hgl & _).
  destruct (start1_good c' P K i rf' (hcfg h) lg) as (cfg & lg' & Hs & El & Ea & Hpos & Hgood); try done; try lia.
  { by eapply (or_node _ _ _ O'). } { apply (good_log_mono _ _ _ _ _ Hd). split; [apply Hgl|lia]. }
  exists rf', cfg. split_and!; [done|done|]. split; simpl; [by eauto|by eauto|done|by rewrite El, Ea, !zlen_insert|].
  intros k Hk. rewrite El, Ea, !go_index_insert by lia. destruct (decide (k = i)) as [->|Hne].
  - exists lg', (firstIdx (log rf')). split_and!; try done. intros rf2 Hrf2. assert (rf2 = rf') as -> by congruence.
    unfold pending_msgs. rewrite queue_of_same, Happ. simpl. rewrite unread_new. split; [constructor|apply queue_new].
  - destruct (Hlogs k Hk) as (lgk & b & ? & ? & ? & ? & Hq). exists lgk, b. split_and!; try done; [by eapply good_log_mono|].
    intros rfk Hrfk. destruct (exec_queue n _ _ _ _ (ARestart i now) c' k rfk R He) as (rf0 & ms & Hrf0 & Hrec & Hio);
      [by apply bool_decide_eq_false|done|].
    destruct (Hq rf0 Hrf0) as (Hin & Hok). destruct (queue_posted _ _ _ _ _ Hok Hrec) as [Hok' Hu].
    unfold pending_msgs. rewrite queue_of_other by done. simpl. rewrite Hu. split; [by eapply in_order_app|done].
Qed.

(** ** Steps of the appliers *)

(** The command at [a + 1] passes the checks. *)
Lemma command_passes c s V L K i lg a cmd t cfg h : hinv h K -> Rel n (hc h) s V L -> c = hc h -> cfg = hcfg h ->
  0 <= i < Z.of_nat n -> (logs cfg).[i] = Some lg -> (cfg_lastApplied cfg).[i] = Some a -> 0 <= a -> good_log c lg a ->
  agreed c (a + 1) cmd ->
  exists mx, applierSnap_msg i (mkApplyMsg true cmd (a + 1) t false [] 0 0) cfg =
    Ret (mkConfig (<[Z.to_nat i := <[a + 1 := cmd]> lg]> (logs cfg)) (<[Z.to_nat i := a + 1]> (cfg_lastApplied cfg)) mx,
      if decide ((a + 1 + 1) mod SnapShotInterval = 0)
      then Some (a + 1, take_snapshot (a + 1) (<[a + 1 := cmd]> lg)) else None).
Proof.
  intros Hinv R -> -> Hi Hlg Hla Ha [Hag Hdom] Hcmd. destruct (hi_len _ _ Hinv) as [Hl1 Hl2].
  unfold applierSnap_msg, checkLogs. simpl. rewrite Hla. simpl. rewrite decide_False by (intros Hd; by apply Hd).
  rewrite check_each_none.
  2:{ intros lg' old [k Hk]%list_elem_of_lookup Hold. pose proof (lookup_lt_Some _ _ _ Hk).
      destruct (hi_logs _ _ Hinv (Z.of_nat k)) as (lg2 & b & Hlg2 & _ & _ & [Hg _] & _); [unfold zlen in Hl1; lia|].
      rewrite go_index_of_nat, Hk in Hlg2. injection Hlg2 as <-.
      eapply agreed_fun; [done| |done]. apply Hg; [lia|done]. }
  rewrite Hlg. simpl. rewrite go_store_Some by lia. simpl.
  rewrite decide_False.
  2:{ intros [?|[Hgt Hf]]; [done|]. apply bool_decide_eq_false in Hf. apply Hf. replace (a + 1 - 1) with a by lia. apply Hdom. lia. }
  rewrite go_store_Some by lia. simpl. rewrite go_index_insert by lia. destruct (decide (i = i)); [|done]. simpl. by eexists.
Qed.

Lemma take_snapshot_good c lg a : 0 <= a -> good_log c lg a -> good_snap c (a, take_snapshot a lg).
Proof.
  intros Ha [Hag Hdom]. split; [done|]. eexists. split; [done|]. simpl. split.
  - unfold zlen. rewrite length_fmap, length_seqZ. lia.
  - intros k Hk. destruct (Hdom k Hk) as [v Hv]. exists v. split; [|apply Hag; [lia|done]].
    rewrite go_index_lookup, list_lookup_fmap by lia. rewrite lookup_seqZ_lt by lia. simpl.
    replace (0 + Z.of_nat (Z.to_nat k)) with k by lia. by rewrite Hv.
Qed.

Lemma good_log_next c lg a cmd : 0 <= a -> good_log c lg a -> agreed c (a + 1) cmd -> good_log c (<[a + 1 := cmd]> lg) (a + 1).
Proof.
  intros Ha [Hag Hdom] Hc. split.
  - intros k v Hk [[<- <-]|[_ Hv]]%lookup_insert_Some; [done|]. by apply Hag.
  - intros k Hk. apply lookup_insert_is_Some'. destruct (decide (a + 1 = k)); [by left|right]. apply Hdom. lia.
Qed.
(** The applier of [i] has read the oldest message. *)
Lemma hinv_read h K i rf m rest lg a mx : hinv h K -> nodes (hc h) !! i = Some rf -> pending_msgs i h = m :: rest ->
  in_order a rest (lastApplied rf) -> 0 <= a -> good_log (hc h) lg a ->
  hinv (mkHSys (hc h) (mkConfig (<[Z.to_nat i := lg]> (logs (hcfg h))) (<[Z.to_nat i := a]> (cfg_lastApplied (hcfg h))) mx)
          (<[i := read_queue i (queue_of i h) 0 (hc h)]> (queue h)) (stopped h)) K.
Proof.
  intros [(s & V & L & R) [P O] Hsn [Hlen1 Hlen2] Hlogs] Hi Hp Hio Ha Hg.
  destruct (ei_node _ _ _ (r_el _ _ _ _ _ R) i rf Hi) as (_ & _ & Hri & _).
  split; simpl; [by eauto|by eauto|done|by rewrite !zlen_insert|].
  intros k Hk. rewrite !go_index_insert by lia. destruct (decide (k = i)) as [->|Hne].
  - exists lg, a. split_and!; try done. intros rf' Hrf'. assert (rf' = rf) as -> by congruence.
    destruct (Hlogs i Hri) as (? & ? & _ & _ & _ & _ & Hq). destruct (Hq rf Hi) as (_ & Hok). unfold pending_msgs in *.
    rewrite queue_of_same. simpl. rewrite unread_read, Hp. split; [done|by apply queue_read].
  - destruct (Hlogs k Hk) as (lgk & b & ? & ? & ? & ? & Hq). exists lgk, b. split_and!; try done.
    intros rf' Hrf'. unfold pending_msgs. rewrite queue_of_other by done. by apply Hq.
Qed.

Lemma pending_delivered h K i rf m rest : hinv h K -> nodes (hc h) !! i = Some rf -> pending_msgs i h = m :: rest ->
  (i, m) ∈ delivered (hc h).
Proof.
  intros Hinv Hi Hp. destruct (hi_rel _ _ Hinv) as (s & V & L & R). destruct (ei_node _ _ _ (r_el _ _ _ _ _ R) i rf Hi) as (_ & _ & Hri & _).
  destruct (hi_logs _ _ Hinv i Hri) as (? & ? & _ & _ & _ & _ & Hq). destruct (Hq rf Hi) as (_ & _ & Hin).
  apply elem_of_received, Hin. unfold pending_msgs in Hp. rewrite Hp. by left.
Qed.

(** The snapshot an applier hands to its peer is accepted. *)
Lemma hinv_snapshot h K i rf index data : hinv h K -> nodes (hc h) !! i = Some rf -> index <= lastApplied rf ->
  good_snap (hc h) (index, data) ->
  exists c', exec (ASnapshot i index data) (hc h) = Some c' /\ hinv (mkHSys c' (hcfg h) (queue h) (stopped h)) ((index, data) :: K).
Proof.
  intros Hinv Hi Hle Hg. destruct (hi_rel _ _ Hinv) as (s & V & L & R).
  destruct (Snapshot_ok index data rf) as (rf' & Hs & _); [by apply (r_node _ _ _ _ _ R i)|done|].
  assert (exec (ASnapshot i index data) (hc h) = Some (update_node i rf' [] (rpcs (hc h)) (hc h))) as He.
  { simpl. rewrite Hi. simpl. by rewrite Hs. }
  eexists. split; [done|]. apply (hinv_exec (ASnapshot i index data) h); try done.
  - simpl. rewrite Hi. by apply bool_decide_eq_true.
  - intros jd ->%list_elem_of_singleton. done.
Qed.

Lemma hinv_consume i h K : hinv h K ->
  consume_step i 0 h = Block \/ exists h' K', consume_step i 0 h = Ret h' /\ hinv h' K'.
Proof.
  intros Hinv. unfold consume_step. destruct (nodes (hc h) !! i) as [rf|] eqn:Hi; [|by left].
  destruct (pending_msgs i h) as [|m rest] eqn:Hp; [by left|].
  change ((m :: rest) !! 0%nat) with (Some m).
  destruct (sendable (m :: rest) 0); [right|by left].
  destruct (hi_rel _ _ Hinv) as (s & V & L & R). destruct (ei_node _ _ _ (r_el _ _ _ _ _ R) i rf Hi) as (_ & _ & Hri & _).
  destruct (hi_logs _ _ Hinv i Hri) as (lg & a & Hlg & Hla & Ha & Hg & Hq). destruct (Hq rf Hi) as [Hio _]. rewrite Hp in Hio.
  pose proof (pending_delivered _ _ _ _ _ _ Hinv Hi Hp) as Hd. destruct (hi_len _ _ Hinv) as [Hl1 Hl2].
  inversion Hio as [|a0 cmd t ms b Hrest|a0 data t j ms b Hj Hrest]; subst.
  - assert (agreed (hc h) (a + 1) cmd) as Hag by (by eexists i, _).
    destruct (command_passes (hc h) s V L K i lg a cmd t (hcfg h) h) as (mx & ->); try done. cbn -[exec].
    pose proof (good_log_next _ _ _ _ Ha Hg Hag) as Hg'. pose proof (in_order_le _ _ _ Hrest) as Hle.
    pose proof (hinv_read h K i rf _ rest _ (a + 1) mx Hinv Hi Hp Hrest ltac:(lia) Hg') as Hinv'.
    destruct (decide ((a + 1 + 1) mod SnapShotInterval = 0)) as [_|_]; cbn -[exec]; [|by eauto].
    destruct (hinv_snapshot _ _ i rf (a + 1) (take_snapshot (a + 1) (<[a + 1 := cmd]> lg)) Hinv' Hi Hle) as (c' & He & Hinv2).
    { apply take_snapshot_good; [lia|done]. }
    cbn -[exec] in He. rewrite He. cbn -[exec]. eauto.
  - destruct (hi_origin _ _ Hinv) as [P O].
    destruct (or_msg _ _ _ O _ Hd) as [(? & ? & ? & E & _)|(data' & t' & j' & E & HK)]; simpl in E; [done|].
    injection E as <- <- <-. pose proof (hi_snaps _ _ Hinv _ HK) as Hs.
    destruct (ingest_good (hc h) i j data j (hcfg h) Hs) as (lg' & Hing & Hg'); [by right|lia|lia|].
    unfold applierSnap_msg. simpl. rewrite Hing. simpl. eexists _, K. split; [done|].
    eapply hinv_read; try done. lia.
Qed.

Lemma hinv_cluster a h K : hinv h K -> admissible a (hc h) = true ->
  cluster_step a h = Block \/ exists h' K', cluster_step a h = Ret h' /\ hinv h' K'.
Proof.
  intros Hinv Ha. unfold cluster_step. destruct (takes_snapshot a) eqn:Hts; [by left|].
  destruct (exec a (hc h)) as [c'|] eqn:He; [|by left]. right.
  assert ((exists i now, a = ARestart i now) \/ (forall i, restarts i a = false) /\ taken_by a = []) as [(i & now & ->)|[Hn Ht]].
  { destruct a; try done; by auto || eauto. }
  - destruct (hinv_restart i now h c' K Hinv He) as (rf & cfg & Hi & Hs & Hinv'). rewrite Hi. simpl. rewrite Hs. simpl. eauto.
  - exists (mkHSys c' (hcfg h) (queue h) (stopped h)), (taken_by a ++ K). split.
    + destruct a; try done. specialize (Hn i). simpl in Hn. by apply bool_decide_eq_false in Hn.
    + apply hinv_exec; try done. rewrite Ht. intros jd ?%elem_of_nil. done.
Qed.

Lemma hinv_start now : hinv (hstart now) [].
Proof.
  assert (forall k, (replicate n (∅ : gmap Z (option Cmd))).[k] = if decide (0 <= k < Z.of_nat n) then Some ∅ else None) as Hr1.
  { intros k. unfold go_index. repeat case_decide; try lia; try done; [by rewrite lookup_replicate_2 by lia|].
    apply lookup_replicate_None. lia. }
  split; simpl.
  - eexists _, _, _. apply init_rel.
  - eexists. apply init_origin.
  - intros jd ?%elem_of_nil. done.
  - unfold zlen. by rewrite !length_replicate.
  - intros i Hi. exists ∅, 0. rewrite Hr1, decide_True by done. split_and!; try done.
    + rewrite go_index_lookup by lia. by rewrite lookup_replicate_2 by lia.
    + split; [intros k v _ Hk; by rewrite lookup_empty in Hk|lia].
    + intros rf Hrf. split; [|split; [done|by intros m ?%elem_of_nil]]. unfold pending_msgs. simpl.
      destruct (init_node n now i rf Hrf) as (eff & Hm & _). destruct (Make_recovers _ _ _ _ _ _ Hm) as (Hrec & _ & _ & _ & _ & _ & ->).
      rewrite recovered_empty in Hrec. injection Hrec as _ _ ->. constructor.
Qed.

Lemma hrun_inv acts : forall h K, hinv h K -> orderly acts h = true -> hrun acts h = Block \/ exists h' K', hrun acts h = Ret h' /\ hinv h' K'.
Proof.
  induction acts as [|a acts IH]; intros h K Hinv Ho; simpl in *; [right; by eauto|]. apply andb_prop in Ho as [Ha Ho].
  assert (hstep a h = Block \/ exists h' K', hstep a h = Ret h' /\ hinv h' K') as [E|(h' & K' & E & Hinv')]; [|rewrite E; by left|].
  { destruct a as [a|i k|g k]; [by apply (hinv_cluster _ h K)|apply bool_decide_eq_true in Ha as ->; by apply (hinv_consume _ h K)|done]. }
  rewrite E in *. simpl. by apply (IH h' K').
Qed.

(** C17. The checks of the Raft tests do not fail on orderly runs: with elections, lost
    and delayed messages, crashes and restarts, snapshots taken every ten entries and
    shipped to lagging servers, as long as replication goroutines find the term they
    captured, the messages of a peer are read in the order in which they were posted,
    and the appliers of stopped instances read nothing more, the appliers never find a
    committed value that differs from another server's, an entry out of order, or a
    snapshot that does not decode or does not match its index; a restarted server
    resumes from its snapshot. *)
Theorem harness_never_fails now acts : orderly acts (hstart now) = true -> hrun acts (hstart now) <> Panic.
Proof. intros Ho. destruct (hrun_inv acts (hstart now) [] (hinv_start now) Ho) as [->|(h & K & -> & _)]; done. Qed.
End harness.
