(* ===== verification/RaftLeaderCheck.v ===== *)
(** [checkOneLeader] of the Raft harness never sees two leaders of one term.

    The harness asks the servers one after the other, and the cluster goes on
    between two answers: the answers come from different moments of a run. *)

From S2P Require Import Prelude Gob Persister RaftTypes RaftNode RaftInv RaftSafe RaftSpec.
From S2P Require Import RaftCluster RaftElection RaftLog RaftRefine RaftSim RaftSafety RaftConfig.
Local Open Scope Z_scope.

(** * What one round computes *)

(** The servers that answered as leaders of term [t]. *)
Definition leaders_of (t : Z) (answers : Answers) : list Z :=
  omap (fun '(i, (t', b)) => if decide (t' = t /\ b = true) then Some i else None) answers.

Lemma collect_leaders_lookup answers t : collect_leaders answers !! t =
  match leaders_of t answers with [] => None | l => Some l end.
Proof.
  unfold collect_leaders. induction answers as [|[i [t' b]] answers IH] using rev_ind; [done|].
  rewrite foldl_app. simpl. unfold leaders_of in *. rewrite omap_app. simpl.
  set (l := omap _ answers) in *. destruct b.
  - destruct (decide (t' = t)) as [->|Hne].
    + rewrite decide_True by done. rewrite lookup_insert_eq, IH. by destruct l.
    + rewrite decide_False by naive_solver. rewrite lookup_insert_ne, app_nil_r by done. done.
  - rewrite decide_False by naive_solver. by rewrite app_nil_r.
Qed.

Lemma elem_of_leaders_of t answers i : i ∈ leaders_of t answers <-> (i, (t, true)) ∈ answers.
Proof.
  unfold leaders_of. rewrite list_elem_of_omap. split.
  - intros ([j [t' b]] & Hin & Hd). case_decide as Hc; [|done]. destruct Hc as [-> ->]. by injection Hd as ->.
  - intros Hin. exists (i, (t, true)). by rewrite decide_True.
Qed.

Lemma last_term_spec (m : gmap Z (list Z)) :
  (forall t l, m !! t = Some l -> t <= last_term m) /\ (last_term m = -1 \/ is_Some (m !! last_term m)).
Proof.
  unfold last_term.
  apply (map_fold_weak_ind (fun r m => (forall t (l : list Z), m !! t = Some l -> t <= r) /\ (r = -1 \/ is_Some (m !! r)))).
  - split; [|by left]. intros t l Hl. by rewrite lookup_empty in Hl.
  - intros t l m' r Hn [Hmax Hr]. split.
    + intros t' l' [[<- _]|[_ Hl]]%lookup_insert_Some; [lia|]. specialize (Hmax t' l' Hl). lia.
    + destruct (Z.max_spec t r) as [[Hlt ->]|[Hle ->]].
      * destruct Hr as [?|Hr]; [by left|right]. apply lookup_insert_is_Some'. by right.
      * right. rewrite lookup_insert_eq. eauto.
Qed.

(** One leader per term: the round returns the leader of the last term. *)
Lemma round_one_leader answers :
  (forall i t, (i, (t, true)) ∈ answers -> 0 <= t) -> NoDup answers.*1 ->
  (forall i j t, (i, (t, true)) ∈ answers -> (j, (t, true)) ∈ answers -> i = j) ->
  (checkOneLeader_round answers = Ret None /\ forall i t, (i, (t, true)) ∉ answers) \/
  exists l t, checkOneLeader_round answers = Ret (Some l) /\ (l, (t, true)) ∈ answers /\
    forall i t', (i, (t', true)) ∈ answers -> t' <= t.
Proof.
  intros Hpos Hnd Huniq. unfold checkOneLeader_round.
  assert (forall t l, collect_leaders answers !! t = Some l -> exists i, l = [i] /\ (i, (t, true)) ∈ answers) as Hone.
  { intros t l Hl. rewrite collect_leaders_lookup in Hl.
    assert (NoDup (leaders_of t answers)) as Hnd'.
    { clear -Hnd. induction answers as [|[i [t' b]] answers IH]; [constructor|]. apply NoDup_cons in Hnd as [Hi Hnd].
      unfold leaders_of. simpl. case_decide; [|by apply IH]. apply NoDup_cons. split; [|by apply IH].
      intros Hin%elem_of_leaders_of. apply Hi. apply list_elem_of_fmap. by exists (i, (t, true)). }
    destruct (leaders_of t answers) as [|i [|j ls]] eqn:E; [done|..]; injection Hl as <-.
    - exists i. split; [done|]. apply elem_of_leaders_of. rewrite E. by left.
    - assert (i = j) as -> by (apply (Huniq i j t); apply elem_of_leaders_of; rewrite E; set_solver).
      apply NoDup_cons in Hnd' as [Hn _]. exfalso. apply Hn. by left. }
  rewrite decide_False.
  2:{ intros (t & l & Hl & Hlen). destruct (Hone t l Hl) as (i & -> & _). simpl in Hlen. lia. }
  case_decide as He.
  - left. split; [done|]. intros i t Hin%elem_of_leaders_of. assert (collect_leaders answers !! t = None) as Hn by (by rewrite He, lookup_empty).
    rewrite collect_leaders_lookup in Hn. destruct (leaders_of t answers); [by apply elem_of_nil in Hin|done].
  - right. destruct (last_term_spec (collect_leaders answers)) as [Hmax Hlast].
    destruct (map_choose _ He) as (t0 & l0 & Hl0). destruct (Hone t0 l0 Hl0) as (i0 & -> & Hi0).
    assert (is_Some (collect_leaders answers !! last_term (collect_leaders answers))) as [l Hl].
    { destruct Hlast as [Hm|]; [|done]. specialize (Hmax t0 _ Hl0). specialize (Hpos _ _ Hi0). lia. }
    destruct (Hone _ l Hl) as (i & -> & Hi). exists i, (last_term (collect_leaders answers)). rewrite Hl. simpl.
    split_and!; [done|done|]. intros j t Hj%elem_of_leaders_of.
    assert (exists l', collect_leaders answers !! t = Some l') as [l' Hl'].
    { rewrite collect_leaders_lookup. destruct (leaders_of t answers); [by apply elem_of_nil in Hj|eauto]. }
    by eapply Hmax.
Qed.

(** * Asking a running cluster *)

Section poll.
Context {Cmd : Type} `{GobLaws Z} `{GobLaws (list (LogEntry Cmd))} (n : nat).
Implicit Types (c : Cluster Cmd).

(** Before each question the cluster does some more actions. *)
Fixpoint poll (sched : list (list (Action Cmd) * Z)) c : option (Answers * Cluster Cmd) :=
  match sched with
  | [] => Some ([], c)
  | (acts, i) :: sched =>
      if admissible_run acts c then
        c ← run acts c;
        rf ← nodes c !! i;
        '(answers, c) ← poll sched c;
        Some ((i, GetState rf) :: answers, c)
      else None
  end.

Lemma poll_asked sched : forall c answers c', poll sched c = Some (answers, c') -> answers.*1 = sched.*2.
Proof.
  induction sched as [|[acts i] sched IH]; intros c answers c' Hp; simpl in Hp; [by injection Hp as <- <-|].
  case_match; [|done]. apply bind_Some in Hp as (c1 & _ & Hp). apply bind_Some in Hp as (rf & _ & Hp).
  apply bind_Some in Hp as ([as2 c2] & Hp2 & Hp). injection Hp as <- <-. csimpl. f_equal. by eapply IH.
Qed.

(** Who answered as a leader has won an election, in a term that is not negative. *)
Lemma poll_won sched : forall c V s Vs L answers c',
  election_inv n c V -> Rel n c s Vs L -> poll sched c = Some (answers, c') ->
  exists V', election_inv n c' V' /\ V ⊆ V' /\ forall i t, (i, (t, true)) ∈ answers -> won n V' i t /\ 0 <= t.
Proof.
  induction sched as [|[acts i] sched IH]; intros c V s Vs L answers c' Hinv R Hp; simpl in Hp.
  { injection Hp as <- <-. exists V. split_and!; try done. intros i t ?%elem_of_nil. done. }
  destruct (admissible_run acts c) eqn:Ha; [|done]. apply bind_Some in Hp as (c1 & Hr & Hp).
  apply bind_Some in Hp as (rf & Hi & Hp). apply bind_Some in Hp as ([as2 c2] & Hp2 & Hp). injection Hp as <- <-.
  destruct (run_votes n _ _ _ _ Hinv Hr) as (V1 & Hinv1 & HV1).
  destruct (run_simulated n acts _ _ _ _ c1 R Ha Hr) as (s1 & Vs1 & L1 & _ & R1).
  destruct (IH c1 V1 s1 Vs1 L1 as2 c2 Hinv1 R1 Hp2) as (V2 & Hinv2 & HV2 & Hwon). exists V2. split_and!; [done|by etrans|].
  intros j t [E|Hin]%elem_of_cons; [|by apply Hwon]. injection E as -> -> Hl. symmetry in Hl. apply bool_decide_eq_true in Hl. split.
  - eapply won_mono; [done|]. by eapply leader_won.
  - rewrite <- (n_term _ _ _ _ _ (r_node _ _ _ _ _ R1 i rf Hi)). apply (v_pos _ _ (r_spec _ _ _ _ _ R1)).
Qed.

(** C18. A round of [checkOneLeader] never fails the test: whatever the cluster does
    before it and between its questions, as long as replication goroutines find the
    term they captured, it finds at most one leader per term, and returns the leader of
    the latest term, or goes on when no server answered as a leader. *)
Theorem checkOneLeader_round_correct now acts c sched answers c' :
  admissible_run acts (cluster_init n now) = true -> run acts (cluster_init n now) = Some c ->
  poll sched c = Some (answers, c') -> NoDup sched.*2 ->
  (checkOneLeader_round answers = Ret None /\ forall i t, (i, (t, true)) ∉ answers) \/
  exists l t, checkOneLeader_round answers = Ret (Some l) /\ (l, (t, true)) ∈ answers /\
    forall i t', (i, (t', true)) ∈ answers -> t' <= t.
Proof.
  intros Ha Hr Hp Hnd. destruct (run_votes n _ _ _ _ (cluster_init_inv n now) Hr) as (V & Hinv & _).
  destruct (run_simulated n acts _ _ _ _ c (init_rel n now) Ha Hr) as (s & Vs & L & _ & R).
  destruct (poll_won sched c V s Vs L answers c' Hinv R Hp) as (V' & Hinv' & _ & Hwon).
  apply round_one_leader.
  - intros i t Hi. by apply (Hwon i t).
  - by rewrite (poll_asked _ _ _ _ Hp).
  - intros i j t Hi Hj. eapply won_unique; [done|apply Hwon; exact Hi|apply Hwon; exact Hj].
Qed.
End poll.
