(* ===== verification/RaftHarnessWitness.v ===== *)
(** A concrete test: the harness on a cluster of three. *)

From S2P Require Import Prelude Gob Persister RaftTypes RaftNode RaftCluster RaftServices RaftConfig RaftHarness RaftRuns.
From S2P Require Import RaftSafety RaftLeaderCheck.
Local Open Scope Z_scope.

#[local] Instance har_gob `{Countable A} : Gob A := countable_gob.
#[local] Instance har_gob_laws `{Countable A} : GobLaws A := countable_gob_laws.

(** Moves of the cluster as in [RaftRuns]; [inr i] lets the applier of [i] read. *)
Fixpoint hplay (ms : list (Move nat + Z)) (h : HSys) : list HAct :=
  match ms with
  | [] => []
  | m :: ms =>
      let a := match m with
               | inl (Do a) => HCluster a
               | inl (Hand k src dst term) => HCluster (ADeliver (position (k, src, dst, term) (rpcs (hc h))) 5000)
               | inr i => HConsume i 0
               end in
      a :: match hstep a h with Ret h => hplay ms h | _ => [] end
  end.

(** Peer 0 is elected and agrees on nine commands with peer 1; its applier takes a
    snapshot, with which peer 2 catches up; peer 0 is restarted from it and is
    elected again, and all three agree on a tenth command. *)
Definition test_script : list (Move nat + Z) :=
  (inl <$> (elect 0 1 [1; 2] ++ ((fun k => Do (AStart 0 k)) <$> seq 100 9) ++ push 0 1 1 ++ [Do (AApply 0)])) ++
  replicate 9 (inr 0) ++
  (inl <$> [Hand Goroutine 0 2 1; Hand InstallReq 0 2 1; Hand InstallRep 0 2 1]) ++ [inr 2] ++
  (inl <$> ([Do (ARestart 0 6000)] ++ elect 0 2 [1; 2] ++ [Do (AStart 0 200%nat)] ++ push 0 1 2 ++ push 0 2 2 ++
     [Do (AApply 0); Do (AHeartBeat 0 2)] ++ push 0 1 2 ++ push 0 2 2 ++ [Do (AApply 1); Do (AApply 2)])) ++
  [inr 0; inr 2] ++ replicate 10 (inr 1).

Definition test_acts : list HAct := hplay test_script (hstart 3 0).
Definition test_end : HSys := match hrun test_acts (hstart 3 0) with Ret h => h | _ => hstart 3 0 end.

(** All moves were made, and the three servers hold the ten commands. *)
Example test_agrees : length test_acts = length test_script /\ hrun test_acts (hstart 3 0) = Ret test_end /\
  cfg_lastApplied (hcfg test_end) = [10; 10; 10] /\
  (fun lg => (fun k => lg !! k) <$> [1; 9; 10]) <$> logs (hcfg test_end) =
    replicate 3 [Some (Some 100%nat); Some (Some 108%nat); Some (Some 200%nat)].
Proof. split_and!; vm_compute; reflexivity. Qed.

Lemma harness_never_fails_witness : hrun test_acts (hstart 3 0) <> Panic.
Proof. apply (harness_never_fails 3 0 test_acts). vm_compute. reflexivity. Defined.

(** Server 2 has applied one command and not sent it; a snapshot of nine commands
    overtakes it, and the test fails although the cluster did nothing wrong. *)
Definition overtaking_script : list (Move nat + Z) :=
  (inl <$> (elect 0 1 [1; 2] ++ [Do (AStart 0 100%nat)] ++ push 0 1 1 ++ [Do (AApply 0); Do (AHeartBeat 0 1)] ++ push 0 2 1 ++
     [Do (AApply 2)] ++ ((fun k => Do (AStart 0 k)) <$> seq 101 8) ++ push 0 1 1 ++ [Do (AApply 0)])) ++
  replicate 9 (inr 0) ++ (inl <$> [Do (AHeartBeat 0 1); Hand Goroutine 0 2 1; Hand InstallReq 0 2 1]).
Definition overtaking_acts : list HAct := hplay overtaking_script (hstart 3 0).
Example overtaken_snapshot_fails_test : length overtaking_acts = length overtaking_script /\
  orderly overtaking_acts (hstart 3 0) = true /\
  (exists h, hrun (overtaking_acts ++ [HConsume 2 0; HConsume 2 0]) (hstart 3 0) = Ret h) /\
  hrun (overtaking_acts ++ [HConsume 2 1; HConsume 2 0]) (hstart 3 0) = Panic.
Proof. split_and!; [vm_compute; reflexivity..| |vm_compute; reflexivity]. vm_compute. eexists. reflexivity. Qed.

(** Server 0 is asked as the leader of term 1, servers 1 and 2 after server 1 has
    been elected for term 2. *)
Definition two_leaders : list (Action nat) := play (elect 0 1 [1; 2]) (cluster_init 3 0).
Definition first_led : Cluster nat := default (cluster_init 3 0) (run two_leaders (cluster_init 3 0)).
Definition poll_sched : list (list (Action nat) * Z) := [([], 0); (play (elect 1 2 [2]) first_led, 1); ([], 2)].
Definition poll_result : Answers * Cluster nat := default ([], first_led) (poll poll_sched first_led).

Example poll_answers : poll_result.1 = [(0, (1, true)); (1, (2, true)); (2, (2, false))].
Proof. vm_compute. reflexivity. Qed.

Lemma checkOneLeader_round_correct_witness :
  checkOneLeader_round poll_result.1 = Ret (Some 1) /\
  ((checkOneLeader_round poll_result.1 = Ret None /\ forall i t, (i, (t, true)) ∉ poll_result.1) \/
  exists l t, checkOneLeader_round poll_result.1 = Ret (Some l) /\ (l, (t, true)) ∈ poll_result.1 /\
    forall i t', (i, (t', true)) ∈ poll_result.1 -> t' <= t).
Proof.
  split; [vm_compute; reflexivity|].
  apply (checkOneLeader_round_correct 3 0 two_leaders first_led poll_sched poll_result.1 poll_result.2).
  - vm_compute. reflexivity.
  - vm_compute. reflexivity.
  - vm_compute. reflexivity.
  - repeat constructor; set_solver.
Defined.
