(* ===== verification/RaftAgree.v ===== *)
(** [one] and [wait] of the Raft harness: agreement while the cluster goes on.

    The two loops of [config.go] submit a command and poll what the servers applied.
    Between any two of their steps the cluster and the appliers run; a schedule says
    what they do, which servers the harness finds connected and alive, and when its
    timers run out.  The loops are defined for any such environment [env]; the
    theorems are about orderly ones ([orderly] of [RaftHarness]).  [Panic] is a failed
    test. *)

From S2P Require Import Prelude Gob Persister RaftTypes RaftNode RaftInv RaftSpec RaftCluster RaftElection RaftLog RaftRefine.
From S2P Require Import RaftSim RaftSteps RaftSafety RaftServices RaftApi RaftRuns RaftConfig RaftHarness RaftHarnessWitness.
Local Open Scope Z_scope.

Section agreement.
Context {Cmd : Type} `{EqDecision Cmd} `{GobLaws Z} `{GobLaws (list (LogEntry Cmd))} `{GobLaws (list (option Cmd))}.
Context (n : nat).
Implicit Types (c : Cluster Cmd) (h : HSys (Cmd := Cmd)).

(** * The loops *)

Abbreviation Acts := (list (HAct (Cmd := Cmd))).
Section loops.
Context (env : Acts -> HSys (Cmd := Cmd) -> Go (HSys (Cmd := Cmd))).

(** The inner loop of [one]: what happens before each server is tried, and whether it
    is then connected and not nil.  The result: [starts] and [index]. *)
Fixpoint try_servers (cmd : Cmd) (tries : list (Acts * bool)) (starts : Z) h : Go (HSys * Z * Z) :=
  match tries with
  | [] => Ret (h, starts, -1)
  | (acts, up) :: tries =>
      let starts := (starts + 1) mod Z.of_nat n in
      h ← env acts h;
      if (up : bool) then
        rf ← of_opt (nodes (hc h) !! starts);
        '(_, (index1, _, ok), _) ← of_opt (Start cmd rf);
        h ← cluster_step (AStart starts cmd) h;
        if (ok : bool) then Ret (h, starts, index1) else try_servers cmd tries starts h
      else try_servers cmd tries starts h
  end.

(** Polling for two seconds: [true] is the return of [index]. *)
Fixpoint poll_committed (cmd : Cmd) (expectedServers index : Z) (polls : list Acts) h : Go (HSys * bool) :=
  match polls with
  | [] => Ret (h, false)
  | acts :: polls =>
      h ← env acts h;
      '(nd, cmd1) ← nCommitted index (hcfg h);
      if decide (nd > 0 /\ nd >= expectedServers /\ cmd1 = Some cmd) then Ret (h, true)
      else poll_committed cmd expectedServers index polls h
  end.

(** A round of the outer loop; every server is tried. *)
Record Round := mkRound { rd_tries : list (Acts * bool); rd_polls : list Acts }.

(** The outer loop: it ends when ten seconds are over or the test is [finished]. *)
Fixpoint one_loop (cmd : Cmd) (expectedServers : Z) (retry finished : bool) (rounds : list Round) (starts : Z) h : Go (HSys * Z) :=
  match rounds with
  | [] => if finished then Ret (h, -1) else Panic
  | rd :: rounds =>
      if decide (length (rd_tries rd) <> n) then Block else
      '(h, starts, index) ← try_servers cmd (rd_tries rd) starts h;
      if decide (index <> -1) then
        '(h, fine) ← poll_committed cmd expectedServers index (rd_polls rd) h;
        if (fine : bool) then Ret (h, index)
        else if (retry : bool) then one_loop cmd expectedServers retry finished rounds starts h else Panic
      else one_loop cmd expectedServers retry finished rounds starts h
  end.
Definition one (cmd : Cmd) (expectedServers : Z) (retry finished : bool) (rounds : list Round) h : Go (HSys * Z) :=
  one_loop cmd expectedServers retry finished rounds 0 h.

(** The loop of [wait] over the peers; a peer that is nil is dereferenced. *)
Fixpoint moved_on (startTerm : Z) (asks : list (Acts * bool)) (j : Z) h : Go (HSys * bool) :=
  match asks with
  | [] => Ret (h, false)
  | (acts, alive) :: asks =>
      h ← env acts h;
      rf ← of_opt (if (alive : bool) then nodes (hc h) !! j else None);
      if decide ((GetState rf).1 > startTerm) then Ret (h, true) else moved_on startTerm asks (j + 1) h
  end.

(** One turn of [wait]: what happens before the poll, and before each question. *)
Record Turn := mkTurn { tn_before : Acts; tn_asks : list (Acts * bool) }.
Fixpoint wait_loop (index k startTerm : Z) (turns : list Turn) h : Go (HSys * bool) :=
  match turns with
  | [] => Ret (h, false)
  | tn :: turns =>
      if decide (length (tn_asks tn) <> n) then Block else
      h ← env (tn_before tn) h;
      '(nd, _) ← nCommitted index (hcfg h);
      if decide (nd >= k) then Ret (h, false) else
      if decide (startTerm > -1) then
        '(h, moved) ← moved_on startTerm (tn_asks tn) 0 h;
        if (moved : bool) then Ret (h, true) else wait_loop index k startTerm turns h
      else wait_loop index k startTerm turns h
  end.

(** [wait]: [None] is the result -1, somebody has moved on. *)
Definition wait (index k startTerm : Z) (turns : list Turn) (last : Acts) h : Go (HSys * option (option Cmd)) :=
  if decide (length turns <> 30%nat) then Block else
  '(h, moved) ← wait_loop index k startTerm turns h;
  if (moved : bool) then Ret (h, None) else
  h ← env last h;
  '(nd, cmd) ← nCommitted index (hcfg h);
  if decide (nd < k) then Panic else Ret (h, Some cmd).

End loops.

(** An environment in which nothing but orderly steps happens. *)
Definition orderly_run (acts : Acts) h : Go (HSys (Cmd := Cmd)) := if orderly acts h then hrun acts h else Block.

(** * What they find *)

(** How many of the logs have an entry at [index]. *)
Definition holders (index : Z) (ls : list (gmap Z (option Cmd))) : list (gmap Z (option Cmd)) :=
  filter (fun lg => is_Some (lg !! index)) ls.

Lemma count_committed_agree index v ls : (forall lg v', lg ∈ ls -> lg !! index = Some v' -> v' = v) ->
  forall count cmd, (count > 0 -> cmd = v) -> 0 <= count ->
  count_committed index ls count cmd =
    Ret (count + zlen (holders index ls), if decide (holders index ls = []) then cmd else v).
Proof.
  induction ls as [|lg ls IH]; intros Hls count cmd Hc Hpos; simpl.
  - unfold holders. simpl. change (zlen []) with 0. by rewrite Z.add_0_r.
  - unfold holders in *. rewrite filter_cons. destruct (lg !! index) as [v1|] eqn:Hv.
    + rewrite (decide_True (P := is_Some (Some v1))) by (by eexists).
      rewrite decide_False by (intros [Hp Hne]; rewrite (Hls lg v1 ltac:(by left) Hv), (Hc Hp) in Hne; done).
      rewrite IH; [|intros; eapply Hls; [by right|done]|intros _; by apply (Hls lg); [left|]|lia].
      rewrite (decide_False (P := lg :: _ = [])) by done. rewrite zlen_cons. f_equal. f_equal; [lia|].
      case_decide; [|done]. by apply (Hls lg); [left|].
    + rewrite decide_False by (by intros [? ?]). apply IH; try done. intros. eapply Hls; [by right|done].
Qed.

(** Two logs of the harness agree. *)
Lemma logs_agree h K index : hinv n h K -> 0 < index ->
  (forall v v' lg lg', lg ∈ logs (hcfg h) -> lg' ∈ logs (hcfg h) -> lg !! index = Some v -> lg' !! index = Some v' -> v = v') /\
  (forall v lg, lg ∈ logs (hcfg h) -> lg !! index = Some v -> agreed (hc h) index v).
Proof.
  intros Hinv Hi. destruct (hi_rel _ _ _ Hinv) as (s & V & L & R). destruct (hi_len _ _ _ Hinv) as [Hl _].
  assert (forall v lg, lg ∈ logs (hcfg h) -> lg !! index = Some v -> agreed (hc h) index v) as Hag.
  { intros v lg [k Hk]%list_elem_of_lookup Hv. pose proof (lookup_lt_Some _ _ _ Hk).
    destruct (hi_logs _ _ _ Hinv (Z.of_nat k)) as (lg' & a & Hlg & _ & _ & [Hg _] & _); [unfold zlen in Hl; lia|].
    rewrite go_index_of_nat, Hk in Hlg. injection Hlg as <-. by apply Hg. }
  split; [|done]. intros v v' lg lg' Hin Hin' Hv Hv'. eapply agreed_fun; eauto.
Qed.

Lemma nCommitted_spec h K index : hinv n h K -> 0 < index -> exists v,
  nCommitted index (hcfg h) = Ret (zlen (holders index (logs (hcfg h))), v) /\
  (forall lg v', lg ∈ logs (hcfg h) -> lg !! index = Some v' -> v' = v).
Proof.
  intros Hinv Hi. destruct (logs_agree h K index Hinv Hi) as [Hag _].
  destruct (holders index (logs (hcfg h))) as [|lg0 l] eqn:Hh.
  - exists None. assert (forall lg v', lg ∈ logs (hcfg h) -> lg !! index = Some v' -> False) as Hno.
    { intros lg v' Hlg Hv. assert (lg ∈ holders index (logs (hcfg h))) as Hin by (apply list_elem_of_filter; eauto).
      rewrite Hh in Hin. by apply elem_of_nil in Hin. }
    split; [|intros; exfalso; eauto]. unfold nCommitted.
    rewrite (count_committed_agree index None); try done; [|intros; exfalso; eauto]. rewrite Hh. done.
  - assert (lg0 ∈ holders index (logs (hcfg h))) as [[v Hv] Hin]%list_elem_of_filter by (rewrite Hh; by left).
    exists v. assert (forall lg v', lg ∈ logs (hcfg h) -> lg !! index = Some v' -> v' = v) as Hall by (intros lg v' Hl Hv'; by apply (Hag v' v lg lg0)).
    split; [|done]. unfold nCommitted. rewrite (count_committed_agree index v); [by rewrite Hh|done|lia|done].
Qed.

(** ** Runs *)

Lemma hrun_Ret acts h K h' : hinv n h K -> orderly_run acts h = Ret h' -> exists K', hinv n h' K'.
Proof.
  intros Hinv Hr. unfold orderly_run in Hr. destruct (orderly acts h) eqn:Ho; [|done].
  destruct (hrun_inv n acts h K Hinv Ho) as [E|(h2 & K' & E & ?)]; [congruence|]. assert (h2 = h') as <- by congruence. eauto.
Qed.

Lemma try_servers_inv cmd tries : forall starts h K h' starts' index, hinv n h K ->
  try_servers orderly_run cmd tries starts h = Ret (h', starts', index) -> (exists K', hinv n h' K') /\ (index = -1 \/ 0 < index).
Proof.
  induction tries as [|[acts up] tries IH]; intros starts h K h' starts' index Hinv Hr; simpl in Hr.
  { injection Hr as <- <- <-. split; [by eauto|by left]. }
  apply go_bind_Ret in Hr as (h1 & H1' & Hr). destruct (hrun_Ret _ _ _ _ Hinv H1') as [K1 Hinv1].
  destruct up; [|by eapply IH]. apply go_bind_Ret in Hr as (rf & Hrf & Hr).
  destruct (nodes (hc h1) !! _) as [rf'|] eqn:Hn; [|done]. injection Hrf as ->.
  apply go_bind_Ret in Hr as ([[rf2 [[index1 t] ok]] eff] & Hs & Hr).
  destruct (Start cmd rf) as [[[rf3 r3] eff3]|] eqn:HS; [|done]. injection Hs as -> -> ->.
  apply go_bind_Ret in Hr as (h2 & H2' & Hr).
  destruct (hinv_cluster n (AStart ((starts + 1) mod Z.of_nat n) cmd) h1 K1 Hinv1 eq_refl) as [E|(h3 & K3 & E & Hinv3)]; [congruence|].
  assert (h3 = h2) as -> by congruence. destruct ok; [|by eapply IH]. injection Hr as <- <- <-. split; [by eauto|]. right.
  destruct (hi_rel _ _ _ Hinv1) as (s & V & L & R). pose proof (n_ok _ _ _ _ _ (r_node _ _ _ _ _ R _ rf Hn)) as Hok.
  destruct (Start_result _ _ _ _ _ Hok HS) as ([= -> _ Hb] & _). symmetry in Hb. apply bool_decide_eq_true in Hb.
  rewrite decide_True by done. unfold nextIdx. pose proof (ok_log _ Hok) as Hwf. pose proof (ok_first _ Hok).
  assert (0 < zlen (log rf)); [|lia]. apply zlen_pos, Hwf.
Qed.

(** The servers agree on [cmd] at [index]: [k] servers have applied it, no server has
    applied anything else, and no service was ever handed anything else. *)
Definition agreement (k index : Z) (cmd : option Cmd) h : Prop :=
  k <= zlen (holders index (logs (hcfg h))) /\
  (forall lg v, lg ∈ logs (hcfg h) -> lg !! index = Some v -> v = cmd) /\
  (0 < zlen (holders index (logs (hcfg h))) ->
     forall i m, (i, m) ∈ delivered (hc h) -> CommandValid m = true -> CommandIndex m = index -> amCommand m = cmd).

Lemma agreement_intro k index cmd h K : hinv n h K -> 0 < index -> k <= zlen (holders index (logs (hcfg h))) ->
  (forall lg v, lg ∈ logs (hcfg h) -> lg !! index = Some v -> v = cmd) -> agreement k index cmd h.
Proof.
  intros Hinv Hi Hk Hall. split_and!; try done. intros Hpos i m Hd Hv Hidx.
  destruct (logs_agree h K index Hinv Hi) as [_ Hag]. destruct (hi_rel _ _ _ Hinv) as (s & V & L & R).
  destruct (holders index (logs (hcfg h))) as [|lg l] eqn:Hh; [by change (zlen []) with 0 in Hpos|].
  assert (lg ∈ holders index (logs (hcfg h))) as [[v Hlv] Hin]%list_elem_of_filter by (rewrite Hh; by left).
  rewrite <- (Hall lg v Hin Hlv). eapply (agreed_fun n (hc h) s V L index); [done| |by eapply Hag]. by exists i, m.
Qed.

Lemma poll_committed_inv cmd k index polls : forall h K h' fine, hinv n h K -> 0 < index ->
  poll_committed orderly_run cmd k index polls h = Ret (h', fine) ->
  (exists K', hinv n h' K') /\ (fine = true -> agreement (Z.max 1 k) index (Some cmd) h').
Proof.
  induction polls as [|acts polls IH]; intros h K h' fine Hinv Hi Hr; simpl in Hr; [injection Hr as <- <-; by split; [eauto|]|].
  apply go_bind_Ret in Hr as (h1 & H1' & Hr). destruct (hrun_Ret _ _ _ _ Hinv H1') as [K1 Hinv1].
  destruct (nCommitted_spec h1 K1 index Hinv1 Hi) as (v & Hn & Hall). rewrite Hn in Hr. simpl in Hr.
  case_decide as Hd; [|by eapply IH]. destruct Hd as (Hd1 & Hd2 & ->). injection Hr as <- <-. split; [by eauto|]. intros _.
  eapply agreement_intro; [done|done|lia|]. intros lg w Hlg Hw. by eapply Hall.
Qed.

Lemma one_loop_agrees cmd k retry finished rounds : forall starts h K h' index, hinv n h K ->
  one_loop orderly_run cmd k retry finished rounds starts h = Ret (h', index) ->
  (exists K', hinv n h' K') /\ (index = -1 \/ 0 < index /\ agreement (Z.max 1 k) index (Some cmd) h').
Proof.
  induction rounds as [|rd rounds IH]; intros starts h K h' index Hinv Hr; simpl in Hr.
  { destruct finished; [|done]. injection Hr as <- <-. split; [by eauto|by left]. }
  case_decide; [done|]. apply go_bind_Ret in Hr as ([[h1 starts1] index1] & H1' & Hr).
  destruct (try_servers_inv _ _ _ _ _ _ _ _ Hinv H1') as [[K1 Hinv1] Hidx].
  case_decide as Hne; [|by eapply IH]. destruct Hidx as [?|Hpos]; [done|].
  apply go_bind_Ret in Hr as ([h2 fine] & H2' & Hr).
  destruct (poll_committed_inv _ _ _ _ _ _ _ _ Hinv1 Hpos H2') as [[K2 Hinv2] Hfine].
  destruct fine; [injection Hr as <- <-; split; [by eauto|right; by auto]|]. destruct retry; [|done]. by eapply IH.
Qed.

(** C20. [one] means agreement: from any point of an orderly run, and when the cluster
    and the appliers do only orderly steps between its steps (goroutines find the term
    they captured, messages are read in the order in which they were posted, appliers
    of stopped instances read nothing more), the index it returns is -1, when the test
    is over, or one at which at least the expected number of servers, and at least one, have applied the
    command, no server has applied another, and no service was handed another. *)
Theorem one_means_agreement now acts h cmd expectedServers retry finished rounds h' index :
  orderly_run acts (hstart n now) = Ret h -> one orderly_run cmd expectedServers retry finished rounds h = Ret (h', index) ->
  index = -1 \/ 0 < index /\ agreement (Z.max 1 expectedServers) index (Some cmd) h'.
Proof.
  intros Hh Hr. destruct (hrun_Ret _ _ _ _ (hinv_start n now) Hh) as [K Hinv].
  by destruct (one_loop_agrees _ _ _ _ _ _ _ _ _ _ Hinv Hr) as [_ ?].
Qed.

Lemma moved_on_inv startTerm asks : forall j h K h' moved, hinv n h K ->
  moved_on orderly_run startTerm asks j h = Ret (h', moved) -> exists K', hinv n h' K'.
Proof.
  induction asks as [|[acts alive] asks IH]; intros j h K h' moved Hinv Hr; simpl in Hr; [injection Hr as <- <-; by eauto|].
  apply go_bind_Ret in Hr as (h1 & H1' & Hr). destruct (hrun_Ret _ _ _ _ Hinv H1') as [K1 Hinv1].
  apply go_bind_Ret in Hr as (rf & _ & Hr). case_decide; [injection Hr as <- <-; by eauto|by eapply IH].
Qed.

Lemma wait_loop_inv index k startTerm turns : forall h K h' moved, hinv n h K ->
  wait_loop orderly_run index k startTerm turns h = Ret (h', moved) -> exists K', hinv n h' K'.
Proof.
  induction turns as [|tn turns IH]; intros h K h' moved Hinv Hr; simpl in Hr; [injection Hr as <- <-; by eauto|].
  case_decide; [done|]. apply go_bind_Ret in Hr as (h1 & H1' & Hr). destruct (hrun_Ret _ _ _ _ Hinv H1') as [K1 Hinv1].
  apply go_bind_Ret in Hr as ([nd v] & _ & Hr). case_decide; [injection Hr as <- <-; by eauto|].
  case_decide; [|by eapply IH]. apply go_bind_Ret in Hr as ([h2 mv] & H2' & Hr).
  destruct (moved_on_inv _ _ _ _ _ _ _ Hinv1 H2') as [K2 Hinv2].
  destruct mv; [injection Hr as <- <-; by eauto|by eapply IH].
Qed.

(** [wait] returns a command only when the servers agree on it. *)
Theorem wait_means_agreement now acts h index k startTerm turns last h' cmd :
  orderly_run acts (hstart n now) = Ret h -> 0 < index -> wait orderly_run index k startTerm turns last h = Ret (h', Some cmd) ->
  agreement k index cmd h'.
Proof.
  intros Hh Hi Hr. destruct (hrun_Ret _ _ _ _ (hinv_start n now) Hh) as [K Hinv]. unfold wait in Hr.
  case_decide; [done|]. apply go_bind_Ret in Hr as ([h1 moved] & H1' & Hr).
  destruct (wait_loop_inv _ _ _ _ _ _ _ _ Hinv H1') as [K1 Hinv1]. destruct moved; [done|].
  apply go_bind_Ret in Hr as (h2 & H2' & Hr). destruct (hrun_Ret _ _ _ _ Hinv1 H2') as [K2 Hinv2].
  destruct (nCommitted_spec h2 K2 index Hinv2 Hi) as (v & Hn & Hall). rewrite Hn in Hr. simpl in Hr.
  case_decide; [done|]. injection Hr as <- <-. eapply agreement_intro; [done|done|lia|done].
Qed.
End agreement.

(** * A concrete agreement *)

#[local] Instance agree_gob `{Countable A} : Gob A := countable_gob.
#[local] Instance agree_gob_laws `{Countable A} : GobLaws A := countable_gob_laws.

(** Peer 0 is the leader of term 1; it is the third that is tried. *)
Definition w_elect : list (HAct (Cmd := nat)) := hplay (inl <$> elect 0 1 [1; 2]) (hstart 3 0).
Definition w_led : HSys := match hrun w_elect (hstart 3 0) with Ret h => h | _ => hstart 3 0 end.
Definition w_tries : list (list (HAct (Cmd := nat)) * bool) := [([], false); ([], true); ([], true)].
Definition w_started : HSys :=
  match try_servers 3 orderly_run 100%nat w_tries 0 w_led with Ret (h, _, _) => h | _ => w_led end.
(** The command reaches peer 1, both apply it and the appliers read it. *)
Definition w_polls : list (list (HAct (Cmd := nat))) :=
  [[]; hplay ((inl <$> (push 0 1 1 ++ [Do (AApply 0); Do (AHeartBeat 0 1)] ++ push 0 1 1 ++ [Do (AApply 1)])) ++ [inr 0; inr 1]) w_started].
Definition w_rounds : list (Round (Cmd := nat)) := [mkRound w_tries w_polls].
Definition w_one : HSys * Z :=
  match one 3 orderly_run 100%nat 2 false false w_rounds w_led with Ret r => r | _ => (w_led, -1) end.

Lemma one_means_agreement_witness : w_one.2 = 1 /\ (1 = -1 \/ 0 < 1 /\ agreement (Z.max 1 2) 1 (Some 100%nat) w_one.1).
Proof.
  split; [vm_compute; reflexivity|].
  apply (one_means_agreement 3 0 w_elect w_led 100%nat 2 false false w_rounds w_one.1 1); vm_compute; reflexivity.
Defined.
