(* ===== verification/ServiceConfig.v ===== *)
(** The harness of the replicated services: [src/src/kvraft/config.go] and, from
    the same text, [src/src/shardctrler/config.go].

    The harness starts servers and clerks on a [labrpc] network, wires them into
    partitions, shuts servers down and starts them again on what they persisted.
    Servers, clerks and persisters are objects at addresses, since an old instance
    may go on using its persister after a new one was started.  Random names and
    random numbers are arguments.  [Panic] stands for a run-time panic and for a
    failed test. *)

From S2P Require Import Prelude Gob Persister LabRpc RaftConfig.
Local Open Scope Z_scope.

(** * Random handles *)

(** [sa[i], sa[j] = sa[j], sa[i]] *)
Definition swap {A} (i j : Z) (sa : list A) : option (list A) :=
  x ← sa.[i]; y ← sa.[j];
  sa ← go_store sa i y; go_store sa j x.

(** The loop of [random_handles]; [rnd i] is what [rand.Intn] reduces below [i + 1]. *)
Fixpoint shuffle_from {A} (rnd : Z -> Z) (js : list Z) (sa : list A) : option (list A) :=
  match js with
  | [] => Some sa
  | i :: js => sa ← swap i (rnd i mod (i + 1)) sa; shuffle_from rnd js sa
  end.
Definition random_handles {A} (rnd : Z -> Z) (kvh : list A) : option (list A) :=
  shuffle_from rnd (seqZ 0 (zlen kvh)) kvh.

(** * The configuration *)

(** A server object: what it was started with, and whether it was killed. *)
Record Instance := mkInstance {
  in_self : Z; in_ends : list ClientEnd; in_persister : nat; in_max : Z; in_killed : bool }.

Record config := mkConfig {
  net : Network;
  kvservers : list (option nat);
  saved : list (option nat);
  endnames : list (list string);
  clerks : gmap nat (list string);
  nextClientId : Z;
  maxraftstate : Z;
  rpcs0 : Z;
  ops : Z;
  instances : gmap nat Instance;
  persisters : gmap nat Persister;
  handles : gmap nat (list ClientEnd);
  nextAddr : nat
}.

Definition set_net (rn : Network) cfg : config :=
  mkConfig rn (kvservers cfg) (saved cfg) (endnames cfg) (clerks cfg) (nextClientId cfg) (maxraftstate cfg) (rpcs0 cfg)
    (ops cfg) (instances cfg) (persisters cfg) (handles cfg) (nextAddr cfg).
Definition set_servers (ks : list (option nat)) (insts : gmap nat Instance) cfg : config :=
  mkConfig (net cfg) ks (saved cfg) (endnames cfg) (clerks cfg) (nextClientId cfg) (maxraftstate cfg) (rpcs0 cfg)
    (ops cfg) insts (persisters cfg) (handles cfg) (nextAddr cfg).
Definition set_saved (sv : list (option nat)) (ps : gmap nat Persister) cfg : config :=
  mkConfig (net cfg) (kvservers cfg) sv (endnames cfg) (clerks cfg) (nextClientId cfg) (maxraftstate cfg) (rpcs0 cfg)
    (ops cfg) (instances cfg) ps (handles cfg) (nextAddr cfg).
Definition set_endnames (t : list (list string)) cfg : config :=
  mkConfig (net cfg) (kvservers cfg) (saved cfg) t (clerks cfg) (nextClientId cfg) (maxraftstate cfg) (rpcs0 cfg)
    (ops cfg) (instances cfg) (persisters cfg) (handles cfg) (nextAddr cfg).
Definition set_clerks (cs : gmap nat (list string)) (hs : gmap nat (list ClientEnd)) (id : Z) cfg : config :=
  mkConfig (net cfg) (kvservers cfg) (saved cfg) (endnames cfg) cs id (maxraftstate cfg) (rpcs0 cfg)
    (ops cfg) (instances cfg) (persisters cfg) hs (nextAddr cfg).
Definition set_stats (r o : Z) cfg : config :=
  mkConfig (net cfg) (kvservers cfg) (saved cfg) (endnames cfg) (clerks cfg) (nextClientId cfg) (maxraftstate cfg) r
    o (instances cfg) (persisters cfg) (handles cfg) (nextAddr cfg).
(** A fresh address. *)
Definition alloc cfg : nat * config :=
  (nextAddr cfg, mkConfig (net cfg) (kvservers cfg) (saved cfg) (endnames cfg) (clerks cfg) (nextClientId cfg)
    (maxraftstate cfg) (rpcs0 cfg) (ops cfg) (instances cfg) (persisters cfg) (handles cfg) (S (nextAddr cfg))).

Definition cfg_n cfg : Z := zlen (kvservers cfg).
Definition All cfg : list Z := seqZ 0 (cfg_n cfg).

(** * Wiring *)

Definition endname_at (t : list (list string)) (i j : Z) : option string := row ← t.[i]; row.[j].

(** [cfg.net.Enable(cfg.endnames[i][j], b)] *)
Definition enable_at (b : bool) (t : list (list string)) (i j : Z) (rn : Network) : Go Network :=
  e ← of_opt (endname_at t i j); Ret (Enable (IStr e) b rn).

Definition connectUnlocked (i : Z) (to : list Z) cfg : Go config :=
  rn ← each (fun t => enable_at true (endnames cfg) i t) to (net cfg);
  rn ← each (fun t => enable_at true (endnames cfg) t i) to rn;
  Ret (set_net rn cfg).
Definition connect := connectUnlocked.

Definition if_row (t : list (list string)) (i : Z) (k : Network -> Go Network) (rn : Network) : Go Network :=
  row ← of_opt t.[i]; if decide (row <> []) then k rn else Ret rn.

(** The second loop looks at [endnames[j]] before it uses [endnames[from[j]]]. *)
Definition disconnectUnlocked (i : Z) (from : list Z) cfg : Go config :=
  let t := endnames cfg in
  rn ← each (fun f => if_row t i (enable_at false t i f)) from (net cfg);
  rn ← each (fun j => if_row t j (fun rn => f ← of_opt from.[j]; enable_at false t f i rn)) (seqZ 0 (zlen from)) rn;
  Ret (set_net rn cfg).
Definition disconnect := disconnectUnlocked.

(** A loop over servers. *)
Fixpoint for_each (f : Z -> config -> Go config) (js : list Z) cfg : Go config :=
  match js with [] => Ret cfg | i :: js => cfg ← f i cfg; for_each f js cfg end.

Definition ConnectAll cfg : Go config := for_each (fun i cfg => connectUnlocked i (All cfg) cfg) (All cfg) cfg.

Definition partition (p1 p2 : list Z) cfg : Go config :=
  cfg ← for_each (fun i cfg => cfg ← disconnectUnlocked i p2 cfg; connectUnlocked i p1 cfg) p1 cfg;
  for_each (fun i cfg => cfg ← disconnectUnlocked i p1 cfg; connectUnlocked i p2 cfg) p2 cfg.

(** * Clerks *)

(** [make([]string, n)] filled with random strings: [rs j] is the [j]-th. *)
Definition fresh_names (rs : Z -> string) cfg : list string := rs <$> All cfg.

(** The loop that makes an end for each server. *)
Fixpoint make_ends (names : list string) (j : Z) (rn : Network) : Go (list ClientEnd * Network) :=
  match names with
  | [] => Ret ([], rn)
  | name :: names =>
      '(e, rn) ← MakeEnd (IStr name) rn;
      '(es, rn) ← make_ends names (j + 1) (Connect (IStr name) (IInt j) rn);
      Ret (e :: es, rn)
  end.

Definition ConnectClientUnlocked (ck : nat) (to : list Z) cfg : Go config :=
  let names := default [] (clerks cfg !! ck) in
  rn ← each (fun t rn => s ← of_opt names.[t]; Ret (Enable (IStr s) true rn)) to (net cfg);
  Ret (set_net rn cfg).
Definition ConnectClient := ConnectClientUnlocked.

Definition DisconnectClientUnlocked (ck : nat) (from : list Z) cfg : Go config :=
  let names := default [] (clerks cfg !! ck) in
  rn ← each (fun f rn => s ← of_opt names.[f]; Ret (Enable (IStr s) false rn)) from (net cfg);
  Ret (set_net rn cfg).
Definition DisconnectClient := DisconnectClientUnlocked.

Definition makeClient (rs : Z -> string) (rnd : Z -> Z) (to : list Z) cfg : Go (nat * config) :=
  let names := fresh_names rs cfg in
  '(es, rn) ← make_ends names 0 (net cfg);
  es ← of_opt (random_handles rnd es);
  let '(ck, cfg) := alloc (set_net rn cfg) in
  let cfg := set_clerks (<[ck := names]> (clerks cfg)) (<[ck := es]> (handles cfg)) (wrap64 (nextClientId cfg + 1)) cfg in
  cfg ← ConnectClientUnlocked ck to cfg;
  Ret (ck, cfg).

(** [os.Remove] of files that do not exist does nothing. *)
Definition deleteClient (ck : nat) cfg : config :=
  set_clerks (delete ck (clerks cfg)) (handles cfg) (nextClientId cfg) cfg.

(** * Servers *)

Definition Kill (a : nat) cfg : config :=
  set_servers (kvservers cfg) (alter (fun x => mkInstance (in_self x) (in_ends x) (in_persister x) (in_max x) true) a (instances cfg)) cfg.

(** [cfg.saved[i] = cfg.saved[i].Copy()]; [None] in the map never happens. *)
Definition copy_saved (i : Z) (a : nat) cfg : Go config :=
  ps ← of_opt (persisters cfg !! a);
  let '(b, cfg) := alloc cfg in
  sv ← of_opt (go_store (saved cfg) i (Some b));
  Ret (set_saved sv (<[b := Copy ps]> (persisters cfg)) cfg).

Definition ShutdownServer (i : Z) cfg : Go config :=
  cfg ← disconnectUnlocked i (All cfg) cfg;
  let cfg := set_net (DeleteServer (IInt i) (net cfg)) cfg in
  s ← of_opt (saved cfg).[i];
  cfg ← match s with Some a => copy_saved i a cfg | None => Ret cfg end;
  kv ← of_opt (kvservers cfg).[i];
  match kv with
  | Some a =>
      let cfg := Kill a cfg in
      ks ← of_opt (go_store (kvservers cfg) i None);
      Ret (set_servers ks (instances cfg) cfg)
  | None => Ret cfg
  end.

(** [StartKVServer] on the ends and the persister; the address of the object stands
    for the [labrpc] server made from its services as well. *)
Definition StartServer (i : Z) (rs : Z -> string) cfg : Go config :=
  let names := fresh_names rs cfg in
  t ← of_opt (go_store (endnames cfg) i names);
  let cfg := set_endnames t cfg in
  '(es, rn) ← make_ends names 0 (net cfg);
  let cfg := set_net rn cfg in
  s ← of_opt (saved cfg).[i];
  cfg ← match s with
        | Some a => copy_saved i a cfg
        | None =>
            let '(b, cfg) := alloc cfg in
            sv ← of_opt (go_store (saved cfg) i (Some b));
            Ret (set_saved sv (<[b := MakePersister]> (persisters cfg)) cfg)
        end;
  s ← of_opt (saved cfg).[i];
  p ← of_opt s;
  let '(a, cfg) := alloc cfg in
  ks ← of_opt (go_store (kvservers cfg) i (Some a));
  let cfg := set_servers ks (<[a := mkInstance i es p (maxraftstate cfg) false]> (instances cfg)) cfg in
  Ret (set_net (AddServer (IInt i) a (net cfg)) cfg).

(** [cleanup]: kill what runs, then close the network. *)
Definition cleanup cfg : Go config :=
  let cfg := foldl (fun cfg kv => match kv with Some a => Kill a cfg | None => cfg end) cfg (kvservers cfg) in
  rn ← Cleanup (net cfg); Ret (set_net rn cfg).

(** The largest [size] of the saved persisters; a [nil] one is dereferenced. *)
Fixpoint max_size (size : Persister -> Z) (ps : gmap nat Persister) (sv : list (option nat)) (acc : Z) : Go Z :=
  match sv with
  | [] => Ret acc
  | s :: sv =>
      a ← of_opt s; p ← of_opt (ps !! a);
      max_size size ps sv (if decide (size p > acc) then size p else acc)
  end.
Definition LogSize cfg : Go Z := max_size RaftStateSize (persisters cfg) (saved cfg) 0.
Definition SnapshotSize cfg : Go Z := max_size Persister.SnapshotSize (persisters cfg) (saved cfg) 0.

(** * Leaders and partitions *)

(** [Leader]: [answer a] is what [GetState] of the server at [a] says; a server that
    is shut down is dereferenced. *)
Fixpoint find_leader (answer : nat -> bool) (ks : list (option nat)) (i : Z) : Go (bool * Z) :=
  match ks with
  | [] => Ret (false, 0)
  | k :: ks => a ← of_opt k; if answer a then Ret (true, i) else find_leader answer ks (i + 1)
  end.
Definition Leader (answer : nat -> bool) cfg : Go (bool * Z) := find_leader answer (kvservers cfg) 0.

(** The loop of [make_partition]: [j] counts the servers that are not the leader. *)
Fixpoint deal (l : Z) (js : list Z) (p1 p2 : list Z) (j : Z) : option (list Z * list Z) :=
  match js with
  | [] => Some (p1, p2)
  | i :: js =>
      if decide (i <> l) then
        if decide (j < zlen p1) then p1 ← go_store p1 j i; deal l js p1 p2 (j + 1)
        else p2 ← go_store p2 (j - zlen p1) i; deal l js p1 p2 (j + 1)
      else deal l js p1 p2 j
  end.
Definition split_servers (n l : Z) : option (list Z * list Z) :=
  p1 ← go_make (Z.quot n 2 + 1) 0;
  p2 ← go_make (Z.quot n 2) 0;
  '(p1, p2) ← deal l (seqZ 0 n) p1 p2 0;
  p2 ← go_store p2 (zlen p2 - 1) l;
  Some (p1, p2).
Definition make_partition (answer : nat -> bool) cfg : Go (list Z * list Z) :=
  '(_, l) ← Leader answer cfg; of_opt (split_servers (cfg_n cfg) l).

(** * Start and statistics *)

(** [make_config]: [rs i] are the random names of the ends of server [i]. *)
Definition empty_config (n : nat) (mx : Z) : config :=
  mkConfig MakeNetwork (replicate n None) (replicate n None) (replicate n []) ∅ (wrap64 (Z.of_nat n + 1000)) mx 0 0 ∅ ∅ ∅ 0.
Definition make_config (n : nat) (unreliable : bool) (mx : Z) (rs : Z -> Z -> string) : Go config :=
  let cfg := empty_config n mx in
  cfg ← for_each (fun i cfg => StartServer i (rs i) cfg) (All cfg) cfg;
  cfg ← ConnectAll cfg;
  Ret (set_net (Reliable (negb unreliable) (net cfg)) cfg).

Definition rpcTotal cfg : Z := GetTotalCount (net cfg).
Definition begin cfg : config := set_stats (rpcTotal cfg) 0 cfg.
Definition op cfg : config := set_stats (rpcs0 cfg) (wrap32 (ops cfg + 1)) cfg.
(** What [end] prints: peers, RPCs and operations since [begin]. *)
Definition end_ cfg : Z * Z * Z := (cfg_n cfg, wrap64 (rpcTotal cfg - rpcs0 cfg), ops cfg).
