(* ===== verification/ServiceWiring.v ===== *)
(** The harness of the services: partitions, and servers that come back.

    Whatever the harness does after [make_config], an instance that was stopped is
    not what a name of the network leads to, and what it goes on saving is not what
    its successor starts from; a partition enables exactly the ends inside its two
    sides. *)

From S2P Require Import Prelude Gob Persister LabRpc RaftConfig RaftWiring ServiceConfig.
Local Open Scope Z_scope.

(** * Operations *)

(** [OSave a rs ss]: the instance at [a] calls [persister.Save(rs, ss)].  A server is
    only started when there is none: [StartServer] says so. *)
Inductive Op :=
| OConnect (i : Z) (to : list Z) | ODisconnect (i : Z) (from : list Z) | OConnectAll | OPartition (p1 p2 : list Z)
| OMakeClient (rs : Z -> string) (rnd : Z -> Z) (to : list Z) | ODeleteClient (ck : nat)
| OConnectClient (ck : nat) (to : list Z) | ODisconnectClient (ck : nat) (from : list Z)
| OShutdown (i : Z) | OStart (i : Z) (rs : Z -> string) | OSave (a : nat) (rs ss : bytes).

Definition Instance_Save (a : nat) (rs ss : bytes) cfg : config :=
  match instances cfg !! a with
  | Some x => set_saved (saved cfg) (alter (Save rs ss) (in_persister x) (persisters cfg)) cfg
  | None => cfg
  end.

Definition run_op (o : Op) cfg : Go config :=
  match o with
  | OConnect i to => connect i to cfg
  | ODisconnect i from => disconnect i from cfg
  | OConnectAll => ConnectAll cfg
  | OPartition p1 p2 => partition p1 p2 cfg
  | OMakeClient rs rnd to => '(_, cfg) ← makeClient rs rnd to cfg; Ret cfg
  | ODeleteClient ck => Ret (deleteClient ck cfg)
  | OConnectClient ck to => ConnectClient ck to cfg
  | ODisconnectClient ck from => DisconnectClient ck from cfg
  | OShutdown i => ShutdownServer i cfg
  | OStart i rs => if decide ((kvservers cfg).[i] = Some None) then StartServer i rs cfg else Block
  | OSave a rs ss => Ret (Instance_Save a rs ss cfg)
  end.

Fixpoint run_ops (os : list Op) cfg : Go config :=
  match os with [] => Ret cfg | o :: os => cfg ← run_op o cfg; run_ops os cfg end.

(** * Wiring leaves the rest alone *)

(** Only what is enabled differs. *)
Definition rewired cfg cfg' : Prop := exists rn, cfg' = set_net rn cfg /\ same_ends (net cfg) rn.

Lemma same_ends_refl rn : same_ends rn rn.
Proof. done. Qed.
Lemma same_ends_trans r1 r2 r3 : same_ends r1 r2 -> same_ends r2 r3 -> same_ends r1 r3.
Proof. intros (A & B & C) (D & E & F). repeat split; congruence. Qed.
#[local] Hint Resolve same_ends_refl same_ends_trans : core.

Lemma rewired_refl cfg : rewired cfg cfg.
Proof. exists (net cfg). split; [by destruct cfg|done]. Qed.
Lemma rewired_trans c1 c2 c3 : rewired c1 c2 -> rewired c2 c3 -> rewired c1 c3.
Proof. intros (r1 & -> & H1) (r2 & -> & H2). exists r2. split; [done|]. simpl in *. eauto. Qed.
#[local] Hint Resolve rewired_refl : core.

Lemma each_same f js : (forall j rn rn', f j rn = Ret rn' -> same_ends rn rn') ->
  forall rn rn', each f js rn = Ret rn' -> same_ends rn rn'.
Proof.
  intros Hf. induction js as [|j js IH]; intros rn rn' Hr; simpl in Hr; [by go_inv|].
  apply go_bind_Ret in Hr as (rn1 & H1 & Hr). eauto.
Qed.

Lemma enable_at_same b t i j rn rn' : enable_at b t i j rn = Ret rn' -> same_ends rn rn'.
Proof. intros Hr. apply go_bind_Ret in Hr as (e & _ & Hr). by go_inv. Qed.

Lemma if_row_same t i k rn rn' : (forall rn rn', k rn = Ret rn' -> same_ends rn rn') -> if_row t i k rn = Ret rn' -> same_ends rn rn'.
Proof. intros Hk Hr. apply go_bind_Ret in Hr as (row & _ & Hr). case_decide; [eauto|by go_inv]. Qed.

Lemma two_loops f g js ks cfg cfg' :
  (forall j rn rn', f j rn = Ret rn' -> same_ends rn rn') -> (forall j rn rn', g j rn = Ret rn' -> same_ends rn rn') ->
  (rn ← each f js (net cfg); rn ← each g ks rn; Ret (set_net rn cfg)) = Ret cfg' -> rewired cfg cfg'.
Proof.
  intros Hf Hg Hr. apply go_bind_Ret in Hr as (r1 & H1 & Hr). apply go_bind_Ret in Hr as (r2 & H2 & Hr). go_inv.
  exists r2. split; [done|].
  apply (same_ends_trans _ r1); [exact (each_same f js Hf _ _ H1)|exact (each_same g ks Hg _ _ H2)].
Qed.

Lemma connect_rewired i to cfg cfg' : connectUnlocked i to cfg = Ret cfg' -> rewired cfg cfg'.
Proof. intros Hr. refine (two_loops _ _ _ _ _ _ _ _ Hr); intros; by eapply enable_at_same. Qed.

Lemma disconnect_rewired i from cfg cfg' : disconnectUnlocked i from cfg = Ret cfg' -> rewired cfg cfg'.
Proof.
  intros Hr. refine (two_loops _ _ _ _ _ _ _ _ Hr); intros j rn rn' Hj; eapply if_row_same; try done; intros r r' Hk.
  - by eapply enable_at_same.
  - apply go_bind_Ret in Hk as (f & _ & Hk). by eapply enable_at_same.
Qed.

Lemma for_each_rewired f js : (forall j c c', f j c = Ret c' -> rewired c c') ->
  forall cfg cfg', for_each f js cfg = Ret cfg' -> rewired cfg cfg'.
Proof.
  intros Hf. induction js as [|j js IH]; intros cfg cfg' Hr; simpl in Hr; [by go_inv|].
  apply go_bind_Ret in Hr as (c1 & H1 & Hr). apply (rewired_trans _ c1); eauto.
Qed.

Lemma partition_rewired p1 p2 cfg cfg' : partition p1 p2 cfg = Ret cfg' -> rewired cfg cfg'.
Proof.
  intros Hr. apply go_bind_Ret in Hr as (c1 & H1 & Hr).
  eapply rewired_trans; [refine (for_each_rewired _ _ _ _ _ H1)|refine (for_each_rewired _ _ _ _ _ Hr)];
    intros j c c' Hj; apply go_bind_Ret in Hj as (c2 & H2 & Hj);
    apply (rewired_trans _ c2); eauto using connect_rewired, disconnect_rewired.
Qed.

Lemma client_rewired b names to cfg cfg' :
  (rn ← each (fun t rn => s ← of_opt names.[t]; Ret (Enable (IStr s) b rn)) to (net cfg); Ret (set_net rn cfg)) = Ret cfg' ->
  rewired cfg cfg'.
Proof.
  intros Hr. apply go_bind_Ret in Hr as (r1 & H1 & Hr). go_inv. exists r1. split; [done|].
  refine (each_same _ _ _ _ _ H1). intros j rn rn' Hj. apply go_bind_Ret in Hj as (s & _ & Hj). by go_inv.
Qed.

(** New ends: the old ones are kept, and so are the servers. *)
Definition more_ends (rn rn' : Network) : Prop :=
  servers rn' = servers rn /\ forall x, is_Some (ends rn !! x) -> is_Some (ends rn' !! x) /\ connection rn' x = connection rn x.

Lemma make_ends_spec names : forall j rn es rn', make_ends names j rn = Ret (es, rn') ->
  more_ends rn rn' /\ es = (fun s => mkClientEnd (IStr s)) <$> names /\ NoDup names /\
  (forall s, s ∈ names -> ends rn !! IStr s = None) /\
  forall k s, names.[k] = Some s -> is_Some (ends rn' !! IStr s) /\ connection rn' (IStr s) = Some (IInt (j + k)).
Proof.
  induction names as [|s names IH]; intros j rn es rn' Hr; simpl in Hr.
  { go_inv. split_and!; try done; [by constructor|by intros s Hs%elem_of_nil|by intros k s Hs%go_index_nil]. }
  apply go_bind_Ret in Hr as ([e rn1] & H1 & Hr). unfold MakeEnd in H1.
  destruct (ends rn !! IStr s) eqn:Hfresh; [done|]. injection H1 as <- <-.
  apply go_bind_Ret in Hr as ([es' rn2] & H2 & Hr). go_inv.
  destruct (IH _ _ _ _ H2) as ((Hs & Hm) & -> & Hnd & Hnew & Hk). simpl in *.
  assert (s ∉ names) as Hsn by (intros Hin; specialize (Hnew s Hin); by rewrite lookup_insert_eq in Hnew).
  split_and!; [split; [done|]|done|by constructor|..].
  - intros x Hx. assert (x <> IStr s) as Hne by (intros ->; rewrite Hfresh in Hx; by destruct Hx).
    destruct (Hm x) as [A B]; [rewrite lookup_insert_ne by congruence; done|]. split; [done|].
    rewrite B. unfold connection. simpl. by rewrite !lookup_insert_ne by congruence.
  - intros t [->|Ht]%elem_of_cons; [done|]. specialize (Hnew t Ht).
    apply lookup_insert_None in Hnew as [? _]. done.
  - intros k t Ht. pose proof (go_index_Some_lt _ _ _ Ht) as Hlt. destruct (decide (k = 0)) as [->|Hk0].
    + rewrite go_index_cons_0 in Ht. injection Ht as ->. destruct (Hm (IStr t)) as [A B].
      { rewrite lookup_insert_eq. eauto. }
      split; [done|]. rewrite B. unfold connection. simpl. rewrite lookup_insert_eq. simpl. do 2 f_equal. lia.
    + rewrite go_index_cons_S in Ht by lia. destruct (Hk (k - 1) t Ht) as [A B]. split; [done|]. rewrite B. do 2 f_equal. lia.
Qed.

(** * The invariant *)

Record harness_ok cfg : Prop := {
  h_len : zlen (saved cfg) = cfg_n cfg /\ zlen (endnames cfg) = cfg_n cfg;
  h_server : forall sn a, server_at (net cfg) sn = Some a <-> exists i, sn = IInt i /\ (kvservers cfg).[i] = Some (Some a);
  h_current : forall i a, (kvservers cfg).[i] = Some (Some a) -> exists x, instances cfg !! a = Some x /\ in_self x = i /\
    in_killed x = false /\ (saved cfg).[i] = Some (Some (in_persister x));
  h_dead : forall a x, instances cfg !! a = Some x -> (kvservers cfg).[in_self x] <> Some (Some a) ->
    in_killed x = true /\ forall j, (saved cfg).[j] <> Some (Some (in_persister x));
  h_saved : forall i p, (saved cfg).[i] = Some (Some p) -> (p < nextAddr cfg)%nat /\ is_Some (persisters cfg !! p);
  h_inj : forall i j p, (saved cfg).[i] = Some (Some p) -> (saved cfg).[j] = Some (Some p) -> i = j;
  h_inst : forall a x, instances cfg !! a = Some x -> (a < nextAddr cfg)%nat /\ (in_persister x < nextAddr cfg)%nat;
  h_row : forall i row, (endnames cfg).[i] = Some row -> row = [] \/ zlen row = cfg_n cfg;
  h_name : forall i j e, endname_at (endnames cfg) i j = Some e ->
    is_Some (ends (net cfg) !! IStr e) /\ connection (net cfg) (IStr e) = Some (IInt j);
  h_uniq : forall i j i' j' e, endname_at (endnames cfg) i j = Some e -> endname_at (endnames cfg) i' j' = Some e -> i = i' /\ j = j'
}.

Lemma zlen_replicate {A} n (x : A) : zlen (replicate n x) = Z.of_nat n.
Proof. unfold zlen. by rewrite length_replicate. Qed.

Lemma go_index_replicate {A} n (x y : A) i : (replicate n x).[i] = Some y -> y = x.
Proof.
  intros Hi. pose proof (go_index_Some_lt _ _ _ Hi). rewrite go_index_lookup in Hi by lia.
  by apply lookup_replicate in Hi as [-> _].
Qed.

Lemma harness_ok_empty n mx : harness_ok (empty_config n mx).
Proof.
  split; unfold cfg_n; simpl.
  - by rewrite !zlen_replicate.
  - intros sn a. split; [done|]. by intros (i & _ & Hi%go_index_replicate).
  - by intros i a Hi%go_index_replicate.
  - done.
  - by intros i p Hi%go_index_replicate.
  - by intros i j p Hi%go_index_replicate.
  - done.
  - intros i row ->%go_index_replicate. by left.
  - intros i j e He. apply bind_Some in He as (row & ->%go_index_replicate & Hj). by apply go_index_nil in Hj.
  - intros i j i' j' e He. apply bind_Some in He as (row & ->%go_index_replicate & Hj). by apply go_index_nil in Hj.
Qed.

(** The rest of the configuration, ends that are added and contents of persisters do not matter. *)
Lemma harness_ok_frame cfg cfg' : harness_ok cfg ->
  kvservers cfg' = kvservers cfg -> saved cfg' = saved cfg -> endnames cfg' = endnames cfg -> instances cfg' = instances cfg ->
  (forall p, is_Some (persisters cfg !! p) -> is_Some (persisters cfg' !! p)) -> (nextAddr cfg <= nextAddr cfg')%nat ->
  more_ends (net cfg) (net cfg') -> harness_ok cfg'.
Proof.
  intros [] E1 E2 E3 E4 Hp Hn [Hs He].
  assert (forall sn, server_at (net cfg') sn = server_at (net cfg) sn) as Hsv by (intros; unfold server_at; by rewrite Hs).
  split; unfold cfg_n in *; rewrite ?E1, ?E2, ?E3, ?E4; try done.
  - intros sn a. by rewrite Hsv.
  - intros i p H. destruct (h_saved0 i p H). split; [lia|by apply Hp].
  - intros a x H. destruct (h_inst0 a x H). lia.
  - intros i j e H. destruct (h_name0 i j e H) as [A B]. destruct (He (IStr e) A) as [C D]. by rewrite D.
Qed.

Lemma same_more rn rn' : same_ends rn rn' -> more_ends rn rn'.
Proof. intros (A & B & C). split; [done|]. intros x Hx. unfold connection. by rewrite A, B. Qed.

Lemma rewired_ok cfg cfg' : harness_ok cfg -> rewired cfg cfg' -> harness_ok cfg'.
Proof. intros Hok (rn & -> & Hs). eapply harness_ok_frame; try done. by apply same_more. Qed.

Lemma makeClient_ok rs rnd to cfg ck cfg' : harness_ok cfg -> makeClient rs rnd to cfg = Ret (ck, cfg') -> harness_ok cfg'.
Proof.
  intros Hok Hr. apply go_bind_Ret in Hr as ([es rn] & H1 & Hr). apply make_ends_spec in H1 as [Hm _].
  apply go_bind_Ret in Hr as (es' & _ & Hr). simpl in Hr. apply go_bind_Ret in Hr as (c1 & H2 & Hr). injection Hr as _ ->.
  apply client_rewired in H2. eapply rewired_ok; [|exact H2]. eapply harness_ok_frame; try done; simpl; auto with lia.
Qed.

(** The persister that instance [a] uses is kept for nobody but its server. *)
Lemma persister_of cfg a x j : harness_ok cfg -> instances cfg !! a = Some x -> (saved cfg).[j] = Some (Some (in_persister x)) ->
  j = in_self x /\ (kvservers cfg).[j] = Some (Some a).
Proof.
  intros Hok Hx Hj. destruct (decide ((kvservers cfg).[in_self x] = Some (Some a))) as [Hc|Hc].
  - destruct (h_current _ Hok _ _ Hc) as (y & Hy & _ & _ & Hs). simplify_eq.
    assert (j = in_self x) as -> by (by eapply (h_inj _ Hok)). done.
  - destruct (h_dead _ Hok _ _ Hx Hc) as [_ Hd]. by destruct (Hd j).
Qed.

(** A fresh persister takes the place of the one kept for [i]. *)
Definition fresh_saved (i : Z) (data : Persister) cfg : config :=
  set_saved (<[Z.to_nat i := Some (nextAddr cfg)]> (saved cfg)) (<[nextAddr cfg := data]> (persisters cfg)) (alloc cfg).2.

Lemma fresh_saved_ok i data cfg : harness_ok cfg -> (kvservers cfg).[i] = Some None -> harness_ok (fresh_saved i data cfg).
Proof.
  intros Hok Hi. pose proof (go_index_Some_lt _ _ _ Hi) as Hr. destruct (h_len _ Hok) as [L1 L2]. unfold cfg_n in *.
  assert (forall j p, (<[Z.to_nat i := Some (nextAddr cfg)]> (saved cfg)).[j] = Some (Some p) ->
    (j = i /\ p = nextAddr cfg) \/ (j <> i /\ (saved cfg).[j] = Some (Some p))) as Hsv.
  { intros j p. rewrite go_index_insert by lia. case_decide; naive_solver. }
  destruct Hok as [h1 h2 h3 h4 h5 h6 h7 h8 h9 h10]. split; unfold cfg_n; simpl; rewrite ?zlen_insert; try done.
  - intros j a Hj. destruct (h3 j a Hj) as (x & ? & ? & ? & ?). exists x. split_and!; try done.
    rewrite go_index_insert by lia. rewrite decide_False by congruence. done.
  - intros a x Hx Hn. destruct (h4 a x Hx Hn) as [? Hd]. split; [done|]. intros j [[_ Hp]|[_ Hp]]%Hsv; [|by eapply Hd].
    destruct (h7 a x Hx). lia.
  - intros j p [[-> ->]|[_ Hp]]%Hsv; [rewrite lookup_insert_eq; split; [lia|eauto]|].
    destruct (h5 j p Hp). split; [lia|]. apply lookup_insert_is_Some'. by right.
  - intros j k p [[-> ->]|[_ Hp]]%Hsv [[-> Hq]|[_ Hq]]%Hsv; try done; [|destruct (h5 j p Hp); lia|by eapply h6].
    destruct (h5 k (nextAddr cfg) Hq). lia.
  - intros a x Hx. destruct (h7 a x Hx). lia.
Qed.

Definition killed (x : Instance) : Instance := mkInstance (in_self x) (in_ends x) (in_persister x) (in_max x) true.

(** No server is at [i] any more. *)
Lemma stopped_ok i a data cfg : harness_ok cfg -> (kvservers cfg).[i] = Some (Some a) ->
  harness_ok (set_servers (<[Z.to_nat i := None]> (kvservers cfg)) (alter killed a (instances cfg))
    (set_net (DeleteServer (IInt i) (net cfg)) (fresh_saved i data cfg))).
Proof.
  intros Hok Hi. pose proof (go_index_Some_lt _ _ _ Hi) as Hr. destruct (h_len _ Hok) as [L1 L2].
  destruct (h_current _ Hok _ _ Hi) as (xa & Hxa & Hself & _ & Hsa).
  unfold cfg_n in *.
  assert (forall j p, (<[Z.to_nat i := Some (nextAddr cfg)]> (saved cfg)).[j] = Some (Some p) ->
    (j = i /\ p = nextAddr cfg) \/ (j <> i /\ (saved cfg).[j] = Some (Some p))) as Hsv.
  { intros j p. rewrite go_index_insert by lia. case_decide; naive_solver. }
  assert (forall j b, (<[Z.to_nat i := None]> (kvservers cfg)).[j] = Some (Some b) <-> j <> i /\ (kvservers cfg).[j] = Some (Some b)) as Hkv.
  { intros j b. rewrite go_index_insert by lia. case_decide; naive_solver. }
  assert (forall b x, alter killed a (instances cfg) !! b = Some x -> exists y, instances cfg !! b = Some y /\
    in_self x = in_self y /\ in_persister x = in_persister y /\ x = if decide (b = a) then killed y else y) as Hin.
  { intros b x. destruct (decide (b = a)) as [->|Hne].
    - rewrite lookup_alter_eq, Hxa. simpl. intros [= <-]. by exists xa.
    - rewrite lookup_alter_ne by congruence. intros Hx. by exists x. }
  destruct Hok as [h1 h2 h3 h4 h5 h6 h7 h8 h9 h10]. split; unfold cfg_n; simpl; rewrite ?zlen_insert; try done.
  - intros sn b. unfold server_at. simpl. destruct (decide (sn = IInt i)) as [->|Hne].
    + rewrite lookup_insert_eq. split; [done|]. by intros (k & [= <-] & [? _]%Hkv).
    + rewrite lookup_insert_ne by congruence. rewrite (h2 sn b). split; intros (k & -> & Hk); exists k; split; try done.
      * apply Hkv. split; [congruence|done].
      * by apply Hkv in Hk as [_ Hk].
  - intros j b [Hji Hj]%Hkv. destruct (h3 j b Hj) as (x & Hx & Hsx & ? & ?). exists x.
    split_and!; try done; [|by rewrite go_index_insert, decide_False by (lia || congruence)].
    rewrite lookup_alter_ne; [done|]. intros <-. congruence.
  - intros b x (y & Hy & Ey & Ep & ->)%Hin Hn. destruct (decide (b = a)) as [->|Hne].
    + split; [done|]. intros j [[_ Hp]|[Hji Hp]]%Hsv; rewrite Ep in Hp.
      * destruct (h7 a y Hy). simpl in *. lia.
      * assert (y = xa) as -> by congruence. apply Hji. by eapply h6.
    + assert ((kvservers cfg).[in_self y] <> Some (Some b)) as Hnc.
      { intros Hc. apply Hn, Hkv. split; [|done]. intros E. rewrite E in Hc. congruence. }
      destruct (h4 b y Hy Hnc) as [Hkill Hd]. split; [done|]. intros j [[_ Hp]|[_ Hp]]%Hsv; [|by eapply Hd].
      destruct (h7 b y Hy). lia.
  - intros j p [[-> ->]|[_ Hp]]%Hsv; [rewrite lookup_insert_eq; split; [lia|eauto]|].
    destruct (h5 j p Hp). split; [lia|]. apply lookup_insert_is_Some'. by right.
  - intros j k p [[-> ->]|[_ Hp]]%Hsv [[-> Hq]|[_ Hq]]%Hsv; try done; [|destruct (h5 j p Hp); lia|by eapply h6].
    destruct (h5 k (nextAddr cfg) Hq). lia.
  - intros b x (y & Hy & _ & -> & _)%Hin. destruct (h7 b y Hy). lia.
Qed.

Lemma copy_saved_inv i a cfg cfg' : copy_saved i a cfg = Ret cfg' -> exists ps,
  persisters cfg !! a = Some ps /\ 0 <= i < zlen (saved cfg) /\ cfg' = fresh_saved i ps cfg.
Proof.
  intros Hr. unfold copy_saved in Hr. apply go_bind_Ret in Hr as (ps & Hps & Hr). simpl in Hr.
  destruct (persisters cfg !! a) as [ps'|] eqn:Ha; [|done]. injection Hps as ->.
  destruct (decide (0 <= i < zlen (saved cfg))) as [Hi|Hi].
  - exists ps. rewrite go_store_Some in Hr by done. simpl in Hr. injection Hr as <-. split_and!; [done|lia|lia|].
    unfold fresh_saved, Copy. simpl. by destruct ps.
  - unfold go_store in Hr. by rewrite decide_False in Hr.
Qed.

(** What [ShutdownServer] leaves of server [i]; [saved_data] is what a successor starts from. *)
Definition saved_data cfg (i : Z) : option Persister := s ← (saved cfg).[i]; p ← s; persisters cfg !! p.

Lemma go_index_None_store {A} (l : list A) i x y : l.[i] = Some y -> go_store l i x = Some (<[Z.to_nat i := x]> l).
Proof. intros Hi. apply go_store_Some. by apply go_index_Some_lt in Hi. Qed.

Lemma fresh_saved_data i j data cfg : harness_ok cfg -> 0 <= i < cfg_n cfg ->
  saved_data (fresh_saved i data cfg) j = if decide (j = i) then Some data else saved_data cfg j.
Proof.
  intros Hok Hi. destruct (h_len _ Hok) as [L _]. unfold saved_data, fresh_saved. simpl. rewrite go_index_insert by lia.
  destruct (decide (j = i)); simpl; [apply lookup_insert_eq|]. destruct ((saved cfg).[j]) as [[p|]|] eqn:Hp; try done. simpl.
  rewrite lookup_insert_ne; [done|]. destruct (h_saved _ Hok _ _ Hp). lia.
Qed.

Lemma ShutdownServer_inv i cfg cfg' : harness_ok cfg -> ShutdownServer i cfg = Ret cfg' ->
  harness_ok cfg' /\ (forall j, saved_data cfg' j = saved_data cfg j) /\
  0 <= i < cfg_n cfg /\ kvservers cfg' = <[Z.to_nat i := None]> (kvservers cfg) /\ endnames cfg' = endnames cfg /\
  ((exists a x, (kvservers cfg).[i] = Some (Some a) /\ instances cfg !! a = Some x /\ instances cfg' = <[a := killed x]> (instances cfg)) \/
   (kvservers cfg).[i] = Some None /\ instances cfg' = instances cfg).
Proof.
  intros Hok Hr. apply go_bind_Ret in Hr as (c1 & H1 & Hr). apply disconnect_rewired in H1.
  pose proof (rewired_ok _ _ Hok H1) as Hok1. destruct H1 as (rn & -> & _).
  apply go_bind_Ret in Hr as (s & Hs & Hr). simpl in Hs, Hr. destruct ((saved cfg).[i]) as [s'|] eqn:Es; [|done]. injection Hs as ->.
  set (cd := set_net (DeleteServer (IInt i) rn) (set_net rn cfg)) in *.
  apply go_bind_Ret in Hr as (c2 & H2 & Hr). apply go_bind_Ret in Hr as (kv & Hkv & Hr).
  assert (kvservers c2 = kvservers cfg /\ (s = None -> c2 = cd) /\
    forall a, s = Some a -> exists ps, persisters cfg !! a = Some ps /\ c2 = fresh_saved i ps cd) as (Ek & Hnone & Hsome).
  { destruct s as [a|]; [|injection H2 as <-; split_and!; [done|done|done]].
    apply copy_saved_inv in H2 as (ps & Hps & _ & ->). split_and!; [done|done|]. intros b [= <-]. eauto. }
  rewrite Ek in Hkv. destruct ((kvservers cfg).[i]) as [kv'|] eqn:Ekv; [|done]. injection Hkv as ->.
  pose proof (go_index_Some_lt _ _ _ Ekv) as Hi.
  assert (forall ps a, s = Some a -> persisters cfg !! a = Some ps -> forall j, saved_data (fresh_saved i ps cd) j = saved_data cfg j) as Hfresh.
  { intros ps a -> Hps j. change (saved_data (fresh_saved i ps (set_net rn cfg)) j = saved_data cfg j).
    rewrite fresh_saved_data by done. case_decide; [subst|done]. unfold saved_data. rewrite Es. simpl. by rewrite Hps. }
  destruct kv as [a|].
  - destruct (h_current _ Hok1 i a Ekv) as (x & Hx & _ & _ & Hsx). simpl in Hx, Hsx. rewrite Es in Hsx. injection Hsx as ->.
    destruct (Hsome _ eq_refl) as (ps & Hps & ->). simpl in Hr. rewrite (go_index_None_store _ _ _ _ Ekv) in Hr. simpl in Hr.
    injection Hr as <-. split_and!; [|by eapply Hfresh|apply Hi|apply Hi|done|done|].
    + exact (stopped_ok i a ps (set_net rn cfg) Hok1 Ekv).
    + left. exists a, x. split_and!; try done. simpl. apply map_eq. intros b. destruct (decide (b = a)) as [->|Hne].
      * by rewrite lookup_alter_eq, lookup_insert_eq, Hx.
      * by rewrite lookup_alter_ne, lookup_insert_ne by congruence.
  - injection Hr as <-.
    assert (harness_ok cd) as Hokd.
    { destruct Hok1 as [h1 h2 h3 h4 h5 h6 h7 h8 h9 h10]. split; try done. intros sn b. unfold server_at. simpl.
      destruct (decide (sn = IInt i)) as [->|Hne].
      - rewrite lookup_insert_eq. split; [done|]. intros (k & [= <-] & Hk). congruence.
      - rewrite lookup_insert_ne by congruence. apply (h2 sn b). }
    assert (<[Z.to_nat i := None]> (kvservers cfg) = kvservers cfg) as Hid.
    { apply list_insert_id. rewrite <- go_index_lookup by lia. done. }
    destruct s as [a|]; [|rewrite Hnone, Hid by done; split; [done|]; split; [done|]; split; [done|]; by auto].
    destruct (Hsome _ eq_refl) as (ps & Hps & ->). rewrite Hid. split; [by apply fresh_saved_ok|]. split; [by eapply Hfresh|]. split; [done|]. by auto.
Qed.

Lemma cfg_n_fresh rs cfg : zlen (fresh_names rs cfg) = cfg_n cfg.
Proof. unfold fresh_names, All, zlen. rewrite length_fmap, length_seqZ. unfold cfg_n, zlen. lia. Qed.

(** Server [i] has new ends. *)
Lemma names_ok i names es rn cfg : harness_ok cfg -> make_ends names 0 (net cfg) = Ret (es, rn) -> zlen names = cfg_n cfg ->
  0 <= i < cfg_n cfg -> harness_ok (set_net rn (set_endnames (<[Z.to_nat i := names]> (endnames cfg)) cfg)).
Proof.
  intros Hok Hm Hz Hi. destruct (h_len _ Hok) as [L1 L2]. destruct (make_ends_spec _ _ _ _ _ Hm) as ([Hs Hmore] & _ & Hnd & Hnew & Hk).
  assert (forall j k e, endname_at (<[Z.to_nat i := names]> (endnames cfg)) j k = Some e ->
    (j = i /\ names.[k] = Some e) \/ (j <> i /\ endname_at (endnames cfg) j k = Some e)) as Hat.
  { intros j k e. unfold endname_at. rewrite go_index_insert by lia. case_decide; naive_solver. }
  assert (forall j k e, endname_at (endnames cfg) j k = Some e -> e ∉ names) as Hold.
  { intros j k e He Hin. destruct (h_name _ Hok _ _ _ He) as [[x Hx] _]. rewrite (Hnew e Hin) in Hx. done. }
  assert (forall k e, names.[k] = Some e -> e ∈ names) as Helem.
  { intros k e He. pose proof (go_index_Some_lt _ _ _ He). rewrite go_index_lookup in He by lia. by eapply list_elem_of_lookup_2. }
  destruct Hok as [h1 h2 h3 h4 h5 h6 h7 h8 h9 h10]. split; unfold cfg_n in *; simpl; try done.
  - by rewrite zlen_insert.
  - intros sn a. unfold server_at. rewrite Hs. apply (h2 sn a).
  - intros j row. rewrite go_index_insert by lia. case_decide; [intros [= <-]; by right|apply h8].
  - intros j k e [[-> He]|[_ He]]%Hat; [by apply Hk|]. destruct (h9 _ _ _ He) as [A B]. destruct (Hmore _ A) as [C D]. by rewrite D.
  - intros j k j' k' e [[-> He]|[_ He]]%Hat [[-> He']|[_ He']]%Hat.
    + split; [done|]. pose proof (go_index_Some_lt _ _ _ He). pose proof (go_index_Some_lt _ _ _ He').
      rewrite go_index_lookup in He by lia. rewrite go_index_lookup in He' by lia.
      pose proof (NoDup_lookup _ _ _ _ Hnd He He'). lia.
    + destruct (Hold _ _ _ He'). eauto.
    + destruct (Hold _ _ _ He). eauto.
    + by eapply h10.
Qed.

(** A new instance at [i] that alone uses the persister kept for it. *)
Lemma started_ok i p es mx cfg : harness_ok cfg -> (kvservers cfg).[i] = Some None -> (saved cfg).[i] = Some (Some p) ->
  harness_ok (set_net (AddServer (IInt i) (nextAddr cfg) (net cfg))
    (set_servers (<[Z.to_nat i := Some (nextAddr cfg)]> (kvservers cfg))
      (<[nextAddr cfg := mkInstance i es p mx false]> (instances cfg)) (alloc cfg).2)).
Proof.
  intros Hok Hi Hp. pose proof (go_index_Some_lt _ _ _ Hi) as Hr.
  assert (forall a x, instances cfg !! a = Some x -> in_persister x <> p) as Hown.
  { intros a x Hx <-. destruct (persister_of _ _ _ _ Hok Hx Hp) as [_ Hc]. congruence. }
  assert (forall j b, (<[Z.to_nat i := Some (nextAddr cfg)]> (kvservers cfg)).[j] = Some (Some b) <->
    (j = i /\ b = nextAddr cfg) \/ (j <> i /\ (kvservers cfg).[j] = Some (Some b))) as Hkv.
  { intros j b. rewrite go_index_insert by lia. case_decide; naive_solver. }
  destruct Hok as [h1 h2 h3 h4 h5 h6 h7 h8 h9 h10]. split; unfold cfg_n in *; simpl; rewrite ?zlen_insert; try done.
  - intros sn b. unfold server_at. simpl. destruct (decide (sn = IInt i)) as [->|Hne].
    + rewrite lookup_insert_eq. simpl. split.
      * intros [= <-]. exists i. split; [done|]. apply Hkv. by left.
      * intros (k & [= <-] & [[_ ->]|[? _]]%Hkv); done.
    + rewrite lookup_insert_ne by congruence. rewrite (h2 sn b). split.
      * intros (k & -> & Hk). exists k. split; [done|]. apply Hkv. right. split; [congruence|done].
      * intros (k & -> & [[-> _]|[_ Hk]]%Hkv); [done|eauto].
  - intros j b [[-> ->]|[Hj Hb]]%Hkv.
    + eexists. rewrite lookup_insert_eq. split; [done|]. by simpl.
    + destruct (h3 j b Hb) as (x & Hx & ?). exists x. split; [|done]. rewrite lookup_insert_ne; [done|].
      intros <-. destruct (h7 _ _ Hx). lia.
  - intros b x Hx Hn. apply lookup_insert_Some in Hx as [[<- <-]|[Hne Hx]]; [destruct Hn; apply Hkv; by left|].
    apply (h4 b x Hx). intros Hc. apply Hn, Hkv. right. split; [|done]. intros E. rewrite E in Hc. congruence.
  - intros j q Hq. destruct (h5 j q Hq). split; [lia|done].
  - intros b x [[<- <-]|[_ Hx]]%lookup_insert_Some; simpl; [destruct (h5 i p Hp); lia|]. destruct (h7 b x Hx). lia.
Qed.

Lemma StartServer_inv i rs cfg cfg' : harness_ok cfg -> (kvservers cfg).[i] = Some None -> StartServer i rs cfg = Ret cfg' ->
  harness_ok cfg' /\ kvservers cfg' = <[Z.to_nat i := Some (pred (nextAddr cfg'))]> (kvservers cfg) /\
  endnames cfg' = <[Z.to_nat i := fresh_names rs cfg]> (endnames cfg) /\
  (forall j, saved_data cfg' j = if decide (j = i) then Some (default MakePersister (saved_data cfg i)) else saved_data cfg j) /\
  exists x, instances cfg' = <[pred (nextAddr cfg') := x]> (instances cfg) /\ instances cfg !! pred (nextAddr cfg') = None /\
    in_self x = i /\ persisters cfg' !! in_persister x = Some (default MakePersister (saved_data cfg i)).
Proof.
  intros Hok Hi Hr. pose proof (go_index_Some_lt _ _ _ Hi) as Hr0. destruct (h_len _ Hok) as [L1 L2].
  unfold StartServer in Hr. rewrite go_store_Some in Hr by (unfold cfg_n in *; lia). simpl in Hr.
  apply go_bind_Ret in Hr as ([es rn] & H1 & Hr).
  pose proof (names_ok i _ _ _ _ Hok H1 (cfg_n_fresh rs cfg) Hr0) as Hok1.
  set (c1 := set_net rn (set_endnames _ cfg)) in *. apply go_bind_Ret in Hr as (s & Hs & Hr). simpl in Hs.
  apply go_bind_Ret in Hr as (c2 & H2 & Hr).
  assert (c2 = fresh_saved i (default MakePersister (saved_data cfg i)) c1) as ->.
  { unfold saved_data. destruct ((saved cfg).[i]) as [s'|]; [|done]. injection Hs as ->. destruct s as [a|]; simpl in *.
    - apply copy_saved_inv in H2 as (ps & Hps & _ & ->). simpl in Hps. by rewrite Hps.
    - rewrite go_store_Some in H2 by (unfold cfg_n in *; lia). simpl in H2. by injection H2 as <-. }
  pose proof (fresh_saved_ok i (default MakePersister (saved_data cfg i)) c1 Hok1 Hi) as Hok2.
  set (c2 := fresh_saved _ _ c1) in *.
  assert ((saved c2).[i] = Some (Some (nextAddr c1))) as Hsv.
  { unfold c2, fresh_saved. simpl. rewrite go_index_insert by (unfold cfg_n in *; lia). by rewrite decide_True. }
  rewrite Hsv in Hr. simpl in Hr. rewrite (go_index_None_store _ _ _ _ Hi) in Hr. simpl in Hr. injection Hr as <-. simpl. split_and!; try done.
  - exact (started_ok i (nextAddr cfg) es (maxraftstate cfg) c2 Hok2 Hi Hsv).
  - intros j. exact (fresh_saved_data i j (default MakePersister (saved_data cfg i)) c1 Hok1 Hr0).
  - eexists. split_and!; [done| |done|apply lookup_insert_eq]. apply eq_None_not_Some. intros [y Hy].
    destruct (h_inst _ Hok _ _ Hy). lia.
Qed.

Lemma makeClient_frame rs rnd to cfg ck cfg' : makeClient rs rnd to cfg = Ret (ck, cfg') ->
  kvservers cfg' = kvservers cfg /\ saved cfg' = saved cfg /\ persisters cfg' = persisters cfg /\ instances cfg' = instances cfg /\
  endnames cfg' = endnames cfg.
Proof.
  intros Hr. apply go_bind_Ret in Hr as ([es rn] & H1 & Hr). apply go_bind_Ret in Hr as (es' & _ & Hr). simpl in Hr.
  apply go_bind_Ret in Hr as (c1 & H2 & Hr). injection Hr as _ ->. by apply client_rewired in H2 as (rn' & -> & _).
Qed.

(** ** Every operation *)

Definition starts (i : Z) (o : Op) : bool := match o with OStart j _ => bool_decide (j = i) | _ => false end.

(** What an operation changes: nothing of servers, instances and persisters, or it is
    one of the three that do. *)
Lemma run_op_cases o cfg cfg' : run_op o cfg = Ret cfg' ->
  rewired cfg cfg' \/ (exists rs rnd to ck, makeClient rs rnd to cfg = Ret (ck, cfg')) \/ (exists ck, cfg' = deleteClient ck cfg) \/
  (exists i, o = OShutdown i) \/ (exists i rs, o = OStart i rs) \/ (exists a rs ss, o = OSave a rs ss).
Proof.
  destruct o; simpl; intros Hr; eauto 10.
  - left. by eapply connect_rewired.
  - left. by eapply disconnect_rewired.
  - left. refine (for_each_rewired _ _ _ _ _ Hr). intros j c c'. apply connect_rewired.
  - left. by eapply partition_rewired.
  - right; left. apply go_bind_Ret in Hr as ([ck c1] & H1 & Hr). injection Hr as ->. eauto.
  - right; right; left. injection Hr as <-. eauto.
  - left. by eapply client_rewired.
  - left. by eapply client_rewired.
Qed.

Lemma Instance_Save_ok a rs ss cfg : harness_ok cfg -> harness_ok (Instance_Save a rs ss cfg).
Proof.
  intros Hok. unfold Instance_Save. destruct (instances cfg !! a) as [x|]; [|done]. eapply harness_ok_frame; try done.
  simpl. intros p [d Hd]. destruct (decide (p = in_persister x)) as [->|Hne].
  - rewrite lookup_alter_eq, Hd. by eexists.
  - rewrite lookup_alter_ne by congruence. by eexists.
Qed.

Lemma op_keeps_ok o cfg cfg' : harness_ok cfg -> run_op o cfg = Ret cfg' -> harness_ok cfg'.
Proof.
  intros Hok Hr. destruct (run_op_cases _ _ _ Hr) as [H|[(rs & rnd & to & ck & H)|[[ck ->]|[[i ->]|[(i & rs & ->)|(a & rs & ss & ->)]]]]].
  - by eapply rewired_ok.
  - by eapply makeClient_ok.
  - by eapply harness_ok_frame.
  - by apply (ShutdownServer_inv i cfg).
  - simpl in Hr. case_decide; [|done]. by apply (StartServer_inv i rs cfg).
  - simpl in Hr. injection Hr as <-. by apply Instance_Save_ok.
Qed.

Lemma run_ops_ok os : forall cfg cfg', harness_ok cfg -> run_ops os cfg = Ret cfg' -> harness_ok cfg'.
Proof.
  induction os as [|o os IH]; intros cfg cfg' Hok Hr; simpl in Hr; [by go_inv|].
  apply go_bind_Ret in Hr as (c1 & H1 & Hr). eauto using op_keeps_ok.
Qed.

(** What an instance saves is kept for the server that it is, if it is one. *)
Lemma Instance_Save_data a rs ss cfg j : harness_ok cfg -> (kvservers cfg).[j] <> Some (Some a) ->
  saved_data (Instance_Save a rs ss cfg) j = saved_data cfg j.
Proof.
  intros Hok Hj. unfold Instance_Save. destruct (instances cfg !! a) as [x|] eqn:Hx; [|done]. unfold saved_data. simpl.
  destruct ((saved cfg).[j]) as [[p|]|] eqn:Hp; try done. simpl. rewrite lookup_alter_ne; [done|].
  intros <-. by destruct (persister_of _ _ _ _ Hok Hx Hp) as [_ Hc].
Qed.

(** While there is no server at [i], what is kept for it stays. *)
Lemma run_op_vacant o i cfg cfg' : harness_ok cfg -> run_op o cfg = Ret cfg' -> starts i o = false -> (kvservers cfg).[i] = Some None ->
  (kvservers cfg').[i] = Some None /\ saved_data cfg' i = saved_data cfg i.
Proof.
  intros Hok Hr Hs Hi. pose proof (go_index_Some_lt _ _ _ Hi).
  destruct (run_op_cases _ _ _ Hr) as [H'|[(rs & rnd & to & ck & H')|[[ck ->]|[[j ->]|[(j & rs & ->)|(a & rs & ss & ->)]]]]].
  - by destruct H' as (rn & -> & _).
  - apply makeClient_frame in H' as (E1 & E2 & E3 & _). unfold saved_data. by rewrite E1, E2, E3.
  - done.
  - destruct (ShutdownServer_inv j cfg cfg' Hok Hr) as (_ & Hd & Hj & Hk & _). split; [|apply Hd].
    rewrite Hk, go_index_insert by done. by case_decide.
  - simpl in Hr. case_decide as Hj; [|done]. destruct (StartServer_inv j rs cfg cfg' Hok Hj Hr) as (_ & Hk & _ & Hd & _).
    apply bool_decide_eq_false in Hs. rewrite Hk, go_index_insert, Hd by (by apply go_index_Some_lt in Hj). by rewrite !decide_False by congruence.
  - simpl in Hr. injection Hr as <-. split; [unfold Instance_Save; by case_match|]. apply Instance_Save_data; [done|congruence].
Qed.

Lemma run_ops_vacant os i : forall cfg cfg', harness_ok cfg -> run_ops os cfg = Ret cfg' -> existsb (starts i) os = false ->
  (kvservers cfg).[i] = Some None -> (kvservers cfg').[i] = Some None /\ saved_data cfg' i = saved_data cfg i.
Proof.
  induction os as [|o os IH]; intros cfg cfg' Hok Hr Hs Hi; simpl in *; [by go_inv|].
  apply orb_false_elim in Hs as [Hs1 Hs2]. apply go_bind_Ret in Hr as (c1 & H1 & Hr).
  destruct (run_op_vacant _ _ _ _ Hok H1 Hs1 Hi) as [Hi1 <-]. apply IH; eauto using op_keeps_ok.
Qed.

(** ** Start *)

(** Every server has been started once. *)
Definition all_named cfg : Prop := forall i, 0 <= i < cfg_n cfg -> exists row, (endnames cfg).[i] = Some row /\ row <> [].

Lemma fresh_names_nonempty rs cfg : 0 < cfg_n cfg -> fresh_names rs cfg <> [].
Proof. intros Hn E. pose proof (cfg_n_fresh rs cfg) as Hz. rewrite E in Hz. change (zlen []) with 0 in Hz. lia. Qed.

Lemma start_all rs js : forall cfg cfg', harness_ok cfg -> NoDup js -> (forall j, j ∈ js -> (kvservers cfg).[j] = Some None) ->
  for_each (fun i cfg => StartServer i (rs i) cfg) js cfg = Ret cfg' ->
  harness_ok cfg' /\ cfg_n cfg' = cfg_n cfg /\
  forall j row, (j ∈ js \/ (endnames cfg).[j] = Some row /\ row <> []) -> exists row', (endnames cfg').[j] = Some row' /\ row' <> [].
Proof.
  induction js as [|i js IH]; intros cfg cfg' Hok Hnd Hv Hr; simpl in Hr.
  { go_inv. split_and!; try done. intros j row [Hj%elem_of_nil|?]; [done|eauto]. }
  apply NoDup_cons in Hnd as [Hi Hnd]. apply go_bind_Ret in Hr as (c1 & H1 & Hr).
  assert ((kvservers cfg).[i] = Some None) as Hvi by (apply Hv; by left). pose proof (go_index_Some_lt _ _ _ Hvi) as Hlt.
  destruct (StartServer_inv _ _ _ _ Hok Hvi H1) as (Hok1 & Hk & He & _). destruct (h_len _ Hok) as [_ L].
  destruct (IH c1 cfg' Hok1 Hnd) as (Hok' & Hn & Hrow); [|done|].
  { intros j Hj. rewrite Hk, go_index_insert by done. rewrite decide_False by congruence. apply Hv. by right. }
  unfold cfg_n in *. rewrite Hk, zlen_insert in Hn. split_and!; [done|done|]. intros j row Hj.
  destruct (decide (j ∈ js)) as [Hin|Hin]; [by eapply (Hrow j []); left|]. destruct (decide (j = i)) as [->|Hne].
  - eapply (Hrow i). right. rewrite He, go_index_insert by lia. rewrite decide_True by done. split; [done|].
    apply fresh_names_nonempty. unfold cfg_n. lia.
  - eapply (Hrow j). right. rewrite He, go_index_insert by lia. rewrite decide_False by done.
    destruct Hj as [[?|?]%elem_of_cons|?]; done.
Qed.

Lemma make_config_ok n unreliable mx rs cfg : make_config n unreliable mx rs = Ret cfg ->
  harness_ok cfg /\ all_named cfg /\ cfg_n cfg = Z.of_nat n.
Proof.
  intros Hr. apply go_bind_Ret in Hr as (c1 & H1 & Hr). apply go_bind_Ret in Hr as (c2 & H2 & Hr). injection Hr as <-.
  assert (cfg_n (empty_config n mx) = Z.of_nat n) as Hn by apply zlen_replicate.
  apply start_all in H1 as (Hok & Hn1 & Hrow); [|apply harness_ok_empty|apply NoDup_seqZ|].
  2:{ intros j [Hj1 Hj2]%elem_of_seqZ. simpl. destruct (go_index_is_Some (replicate n (None : option nat)) j) as [x Hx].
      - rewrite zlen_replicate. lia.
      - pose proof (go_index_replicate _ _ _ _ Hx) as ->. done. }
  apply for_each_rewired in H2; [|intros j c c'; apply connect_rewired]. pose proof (rewired_ok _ _ Hok H2) as Hok2.
  destruct H2 as (rn & -> & _). split; [by eapply harness_ok_frame|]. split; [|unfold cfg_n in *; simpl; congruence].
  intros j Hj. apply (Hrow j []). left. apply elem_of_seqZ. unfold cfg_n in *. simpl in *. lia.
Qed.

Lemma run_op_named o cfg cfg' : harness_ok cfg -> run_op o cfg = Ret cfg' ->
  cfg_n cfg' = cfg_n cfg /\ (all_named cfg -> all_named cfg').
Proof.
  intros Hok Hr. unfold all_named, cfg_n.
  destruct (run_op_cases _ _ _ Hr) as [H'|[(rs & rnd & to & ck & H')|[[ck ->]|[[j ->]|[(j & rs & ->)|(a & rs & ss & ->)]]]]].
  - by destruct H' as (rn & -> & _).
  - apply makeClient_frame in H' as (-> & _ & _ & _ & ->). done.
  - done.
  - destruct (ShutdownServer_inv j cfg cfg' Hok Hr) as (_ & _ & _ & -> & -> & _). by rewrite zlen_insert.
  - simpl in Hr. case_decide as Hj; [|done]. pose proof (go_index_Some_lt _ _ _ Hj). destruct (h_len _ Hok) as [_ L]. unfold cfg_n in L.
    destruct (StartServer_inv j rs cfg cfg' Hok Hj Hr) as (_ & -> & -> & _). rewrite zlen_insert. split; [done|].
    intros Hall i Hi. rewrite go_index_insert by lia. case_decide; [|by apply Hall]. eexists. split; [done|].
    apply fresh_names_nonempty. unfold cfg_n. lia.
  - simpl in Hr. injection Hr as <-. unfold Instance_Save. by case_match.
Qed.

Lemma run_ops_named os : forall cfg cfg', harness_ok cfg -> run_ops os cfg = Ret cfg' ->
  cfg_n cfg' = cfg_n cfg /\ (all_named cfg -> all_named cfg').
Proof.
  induction os as [|o os IH]; intros cfg cfg' Hok Hr; simpl in Hr; [by go_inv|].
  apply go_bind_Ret in Hr as (c1 & H1 & Hr). destruct (run_op_named _ _ _ Hok H1) as [<- Hn].
  destruct (IH c1 cfg') as [-> Hn']; eauto using op_keeps_ok.
Qed.

(** ** Servers that come back *)

(** C21. A server that is restarted starts from what its predecessor had saved when it
    was shut down, whatever happens in between, the predecessor's further saves
    included; from then on every earlier instance of the server is killed, is not what
    a name of the network leads to, and can save what it likes: nothing kept for any
    server changes. *)
Theorem restart_isolated n unreliable mx rs0 os0 c0 cfg i c1 os c2 rs c3 :
  make_config n unreliable mx rs0 = Ret c0 -> run_ops os0 c0 = Ret cfg -> ShutdownServer i cfg = Ret c1 ->
  run_ops os c1 = Ret c2 -> existsb (starts i) os = false -> StartServer i rs c2 = Ret c3 ->
  exists a x, (kvservers c3).[i] = Some (Some a) /\ server_at (net c3) (IInt i) = Some a /\ instances c3 !! a = Some x /\
    persisters c3 !! in_persister x = Some (default MakePersister (saved_data cfg i)) /\
    forall b y, instances c3 !! b = Some y -> in_self y = i -> b <> a ->
      in_killed y = true /\ (forall sn, server_at (net c3) sn <> Some b) /\
      forall r s j, saved_data (Instance_Save b r s c3) j = saved_data c3 j.
Proof.
  intros H0 Hos0 Hsh Hos Hns Hst. destruct (make_config_ok _ _ _ _ _ H0) as (Hok0 & _ & _).
  pose proof (run_ops_ok _ _ _ Hok0 Hos0) as Hok.
  destruct (ShutdownServer_inv i cfg c1 Hok Hsh) as (Hok1 & Hd1 & Hi & Hk1 & _).
  assert ((kvservers c1).[i] = Some None) as Hv1 by (rewrite Hk1, go_index_insert by done; by rewrite decide_True).
  destruct (run_ops_vacant os i c1 c2 Hok1 Hos Hns Hv1) as [Hv2 Hd2]. pose proof (run_ops_ok _ _ _ Hok1 Hos) as Hok2.
  destruct (StartServer_inv i rs c2 c3 Hok2 Hv2 Hst) as (Hok3 & Hk3 & _ & _ & x & Hin & _ & _ & Hp).
  set (a := pred (nextAddr c3)) in *.
  assert (forall j b, (kvservers c3).[j] = Some (Some b) -> j = i -> b = a) as Hcur.
  { intros j b Hj ->. rewrite Hk3, go_index_insert in Hj by (by apply go_index_Some_lt in Hv2). rewrite decide_True in Hj by done. congruence. }
  assert ((kvservers c3).[i] = Some (Some a)) as Hka.
  { rewrite Hk3, go_index_insert by (by apply go_index_Some_lt in Hv2). by rewrite decide_True. }
  exists a, x. split_and!; [done|by apply (h_server _ Hok3); eauto|by rewrite Hin, lookup_insert_eq|by rewrite Hp, Hd2, Hd1|].
  intros b y Hb Hy Hne. destruct (h_dead _ Hok3 b y Hb) as [Hkill Hsv]; [rewrite Hy, Hka; congruence|].
  split_and!; [done|..].
  - intros sn (j & -> & Hj)%(h_server _ Hok3). destruct (h_current _ Hok3 _ _ Hj) as (y' & Hy' & Hs' & _).
    rewrite Hb in Hy'. injection Hy' as <-. apply Hne. eapply Hcur; [done|congruence].
  - intros r s j. unfold Instance_Save. rewrite Hb. unfold saved_data. simpl.
    destruct ((saved c3).[j]) as [[p|]|] eqn:Ep; try done. simpl. rewrite lookup_alter_ne; [done|]. intros <-. by apply (Hsv j).
Qed.
