(* ===== verification/ServicePartition.v ===== *)
(** The harness of the services: what a partition cuts.

    [connectUnlocked], [disconnectUnlocked] and [partition] return once every server
    was started, and enable exactly the ends they should; [make_partition] deals the
    servers out; examples and the runs of the harness on concrete inputs. *)

From stdpp Require Import pretty.
From S2P Require Import Prelude Gob Persister LabRpc RaftConfig RaftWiring ServiceConfig ServiceWiring.
Local Open Scope Z_scope.

(** * Which ends are enabled *)

(** The end of [i] to [j] is enabled. *)
Definition en cfg (i j : Z) : bool :=
  match endname_at (endnames cfg) i j with Some e => is_enabled (net cfg) (IStr e) | None => false end.

Record wired_up cfg : Prop := { wu_ok : harness_ok cfg; wu_named : all_named cfg }.

Lemma wired_up_rewired cfg cfg' : wired_up cfg -> rewired cfg cfg' -> wired_up cfg'.
Proof. intros [Hok Hn] Hr. split; [by eapply rewired_ok|]. by destruct Hr as (rn & -> & _). Qed.

Lemma endname_at_Some cfg i j : wired_up cfg -> 0 <= i < cfg_n cfg -> 0 <= j < cfg_n cfg ->
  exists e, endname_at (endnames cfg) i j = Some e.
Proof.
  intros [Hok Hn] Hi Hj. destruct (Hn i Hi) as (row & Hrow & Hne). unfold endname_at. rewrite Hrow. simpl.
  apply go_index_is_Some. destruct (h_row _ Hok i row Hrow); [done|lia].
Qed.

Definition servers_in cfg (js : list Z) : Prop := Forall (fun j => 0 <= j < cfg_n cfg) js.

Lemma servers_in_elem cfg js j : servers_in cfg js -> j ∈ js -> 0 <= j < cfg_n cfg.
Proof. intros Hjs. by apply (proj1 (Forall_forall _ _) Hjs). Qed.

(** An index loop over a list, as a loop over its elements. *)
Lemma each_index f l : forall k rn,
  each (fun j rn => x ← of_opt l.[j - k]; f x rn) (seqZ k (zlen l)) rn = each f l rn.
Proof.
  induction l as [|x l IH]; intros k rn; [done|]. rewrite zlen_cons. pose proof (zlen_nonneg l).
  rewrite seqZ_cons by lia. simpl. rewrite Z.sub_diag, go_index_cons_0. simpl. destruct (f x rn); try done. simpl.
  replace (Z.pred (1 + zlen l)) with (zlen l) by lia. rewrite <- (IH (Z.succ k)).
  assert (forall js rn, (forall j, j ∈ js -> Z.succ k <= j) ->
    each (fun j rn => x ← of_opt (x :: l).[j - k]; f x rn) js rn = each (fun j rn => x ← of_opt l.[j - Z.succ k]; f x rn) js rn) as Heq.
  { induction js as [|j js IHj]; intros r Hjs; [done|]. simpl. pose proof (Hjs j ltac:(by left)).
    rewrite go_index_cons_S by lia. replace (j - k - 1) with (j - Z.succ k) by lia.
    destruct (of_opt _ ≫= _); [|done..]. simpl. apply IHj. intros ? ?. apply Hjs. by right. }
  apply Heq. intros j [Hj _]%elem_of_seqZ. done.
Qed.

(** Two loops that set the ends out of [i] to [to], and into [i] from [to], to [b]. *)
Lemma set_ends_effect b i to cfg f g : wired_up cfg -> 0 <= i < cfg_n cfg -> servers_in cfg to ->
  (forall t rn, t ∈ to -> f t rn = enable_at b (endnames cfg) i t rn) ->
  (forall t rn, t ∈ to -> g t rn = enable_at b (endnames cfg) t i rn) ->
  exists r1 r2, each f to (net cfg) = Ret r1 /\ each g to r1 = Ret r2 /\ same_ends (net cfg) r2 /\
    forall x y, 0 <= x < cfg_n cfg -> 0 <= y < cfg_n cfg ->
      en (set_net r2 cfg) x y = if decide ((x = i /\ y ∈ to) \/ (y = i /\ x ∈ to)) then b else en cfg x y.
Proof.
  intros W Hi Hto Hf Hg. pose proof W as [Hok _].
  destruct (each_enables f (fun t => IStr <$> endname_at (endnames cfg) i t) b to (net cfg)) as (r1 & H1 & S1 & En1).
  { intros t rn Ht. rewrite Hf by done. unfold enable_at.
    by destruct (endname_at_Some cfg i t W Hi (servers_in_elem _ _ _ Hto Ht)) as [e ->]. }
  destruct (each_enables g (fun t => IStr <$> endname_at (endnames cfg) t i) b to r1) as (r2 & H2 & S2 & En2).
  { intros t rn Ht. rewrite Hg by done. unfold enable_at.
    by destruct (endname_at_Some cfg t i W (servers_in_elem _ _ _ Hto Ht) Hi) as [e ->]. }
  exists r1, r2. split_and!; [done|done|by eapply same_ends_trans|].
  intros x y Hx Hy. unfold en. simpl. destruct (endname_at_Some cfg x y W Hx Hy) as [e He]. rewrite He, En2, En1.
  assert (IStr e ∈ omap (fun t => IStr <$> endname_at (endnames cfg) i t) to <-> x = i /\ y ∈ to) as D1.
  { rewrite list_elem_of_omap. split.
    - intros (t & Ht & Het). destruct (endname_at (endnames cfg) i t) as [e'|] eqn:He'; [|done]. injection Het as ->.
      by destruct (h_uniq _ Hok _ _ _ _ _ He He') as [-> ->].
    - intros [-> Hin]. exists y. by rewrite He. }
  assert (IStr e ∈ omap (fun t => IStr <$> endname_at (endnames cfg) t i) to <-> y = i /\ x ∈ to) as D2.
  { rewrite list_elem_of_omap. split.
    - intros (t & Ht & Het). destruct (endname_at (endnames cfg) t i) as [e'|] eqn:He'; [|done]. injection Het as ->.
      by destruct (h_uniq _ Hok _ _ _ _ _ He He') as [-> ->].
    - intros [-> Hin]. exists x. by rewrite He. }
  repeat case_decide; tauto.
Qed.

Lemma connect_effect i to cfg : wired_up cfg -> 0 <= i < cfg_n cfg -> servers_in cfg to ->
  exists cfg', connectUnlocked i to cfg = Ret cfg' /\ rewired cfg cfg' /\
    forall x y, 0 <= x < cfg_n cfg -> 0 <= y < cfg_n cfg ->
      en cfg' x y = if decide ((x = i /\ y ∈ to) \/ (y = i /\ x ∈ to)) then true else en cfg x y.
Proof.
  intros W Hi Hto. destruct (set_ends_effect true i to cfg (fun t => enable_at true (endnames cfg) i t)
    (fun t => enable_at true (endnames cfg) t i) W Hi Hto (fun t rn _ => eq_refl) (fun t rn _ => eq_refl))
    as (r1 & r2 & H1 & H2 & Hs & Hen).
  unfold connectUnlocked. rewrite H1. simpl. rewrite H2. simpl. eexists. split; [done|]. split; [by exists r2|done].
Qed.

(** [disconnectUnlocked] with no more names than servers: it looks at the wrong rows,
    but these are there. *)
Lemma disconnect_effect i from cfg : wired_up cfg -> 0 <= i < cfg_n cfg -> servers_in cfg from -> zlen from <= cfg_n cfg ->
  exists cfg', disconnectUnlocked i from cfg = Ret cfg' /\ rewired cfg cfg' /\
    forall x y, 0 <= x < cfg_n cfg -> 0 <= y < cfg_n cfg ->
      en cfg' x y = if decide ((x = i /\ y ∈ from) \/ (y = i /\ x ∈ from)) then false else en cfg x y.
Proof.
  intros W Hi Hfrom Hlen.
  assert (forall j k rn, 0 <= j < cfg_n cfg -> if_row (endnames cfg) j k rn = k rn) as Hif.
  { intros j k rn Hj. unfold if_row. destruct (wu_named _ W j Hj) as (row & -> & Hne). simpl. by rewrite decide_True. }
  destruct (set_ends_effect false i from cfg (fun f => if_row (endnames cfg) i (enable_at false (endnames cfg) i f)) _ W Hi Hfrom
    (fun t rn _ => Hif i _ rn Hi) (fun t rn _ => eq_refl)) as (r1 & r2 & H1 & H2 & Hs & Hen).
  unfold disconnectUnlocked. rewrite H1. simpl.
  assert (each (fun j => if_row (endnames cfg) j (fun rn => f ← of_opt from.[j]; enable_at false (endnames cfg) f i rn))
    (seqZ 0 (zlen from)) r1 = Ret r2) as ->.
  { rewrite <- H2, <- (each_index _ from 0). assert (forall j, j ∈ seqZ 0 (zlen from) -> 0 <= j < cfg_n cfg) as Hin.
    { intros j Hj%elem_of_seqZ. lia. }
    revert Hin. generalize (seqZ 0 (zlen from)) as js, r1 as r. induction js as [|j js IH]; intros r Hin; [done|]. simpl.
    rewrite Hif by (apply Hin; by left). rewrite Z.sub_0_r. destruct (of_opt _ ≫= _); [|done..]. simpl. apply IH. intros ? ?. apply Hin. by right. }
  simpl. eexists. split; [done|]. split; [by exists r2|done].
Qed.

(** ** Partitions *)

(** One of the loops of [partition]: [p] is cut from [q] and connected. *)
Definition isolate (p q : list Z) : Z -> config -> Go config :=
  fun i cfg => cfg ← disconnectUnlocked i q cfg; connectUnlocked i p cfg.

Definition between (ks p : list Z) (x y : Z) : Prop := (x ∈ ks /\ y ∈ p) \/ (y ∈ ks /\ x ∈ p).
#[local] Instance between_dec ks p x y : Decision (between ks p x y) := _.

Lemma isolate_effect p q ks : p ## q -> forall cfg, wired_up cfg ->
  servers_in cfg ks -> servers_in cfg p -> servers_in cfg q -> zlen q <= cfg_n cfg -> ks ⊆ p ->
  exists cfg', for_each (isolate p q) ks cfg = Ret cfg' /\ rewired cfg cfg' /\
    forall x y, 0 <= x < cfg_n cfg -> 0 <= y < cfg_n cfg ->
      en cfg' x y = if decide (between ks p x y) then true else if decide (between ks q x y) then false else en cfg x y.
Proof.
  intros Hpq. induction ks as [|k ks IH]; intros cfg W Hks Hp Hq Hlen Hsub.
  { exists cfg. split_and!; [done|apply rewired_refl|]. intros x y _ _. unfold between.
    rewrite !decide_False; [done|..]; intros [[?%elem_of_nil _]|[?%elem_of_nil _]]; done. }
  apply Forall_cons in Hks as [Hk Hks].
  destruct (disconnect_effect k q cfg W Hk Hq Hlen) as (c1 & H1 & R1 & E1).
  assert (cfg_n c1 = cfg_n cfg) as N1 by (by destruct R1 as (rn & -> & _)).
  pose proof (wired_up_rewired _ _ W R1) as W1. unfold servers_in in *. rewrite <- N1 in Hks, Hk, Hp, Hq, Hlen.
  destruct (connect_effect k p c1 W1 Hk Hp) as (c2 & H2 & R2 & E2).
  assert (cfg_n c2 = cfg_n c1) as N2 by (by destruct R2 as (rn & -> & _)).
  pose proof (wired_up_rewired _ _ W1 R2) as W2. rewrite <- N2 in Hks, Hp, Hq, Hlen.
  destruct (IH c2 W2 Hks Hp Hq Hlen) as (c3 & H3 & R3 & E3); [set_solver|].
  exists c3. split_and!.
  - simpl. assert (isolate p q k cfg = Ret c2) as -> by (unfold isolate; rewrite H1; exact H2). exact H3.
  - by eapply rewired_trans, rewired_trans.
  - intros x y Hx Hy. rewrite E3, E2, E1 by congruence. unfold between.
    assert (forall z, z ∈ p -> z ∈ q -> False) as Hdis by (intros z Hz1 Hz2; exact (Hpq z Hz1 Hz2)).
    assert (k ∈ p) as Hkp by (apply Hsub; by left).
    assert (forall z, z ∈ ks -> z ∈ p) as Hksp by (intros z Hz; apply Hsub; by right).
    repeat case_decide; try done; exfalso; rewrite !elem_of_cons in *; naive_solver.
Qed.

(** Both in [p] or both in [q]. *)
Definition same_side (p q : list Z) (i j : Z) : Prop := (i ∈ p /\ j ∈ p) \/ (i ∈ q /\ j ∈ q).
#[export] Instance same_side_dec p q i j : Decision (same_side p q i j) := _.

Lemma partition_effect p q cfg : wired_up cfg -> servers_in cfg (p ++ q) -> p ## q -> zlen p <= cfg_n cfg -> zlen q <= cfg_n cfg ->
  exists cfg', partition p q cfg = Ret cfg' /\ rewired cfg cfg' /\
    forall x y, 0 <= x < cfg_n cfg -> 0 <= y < cfg_n cfg ->
      en cfg' x y = if decide (same_side p q x y) then true else
                    if decide (x ∈ p ++ q /\ y ∈ p ++ q) then false else en cfg x y.
Proof.
  intros W [Hp Hq]%Forall_app Hpq Lp Lq.
  destruct (isolate_effect p q p Hpq cfg W Hp Hp Hq Lq ltac:(done)) as (c1 & H1 & R1 & E1).
  assert (cfg_n c1 = cfg_n cfg) as N1 by (by destruct R1 as (rn & -> & _)).
  pose proof (wired_up_rewired _ _ W R1) as W1. rewrite <- N1 in Hp, Hq, Lp.
  destruct (isolate_effect q p q ltac:(set_solver) c1 W1 Hq Hq Hp Lp ltac:(done)) as (c2 & H2 & R2 & E2).
  exists c2. split_and!.
  - unfold partition. change (for_each (isolate p q) p cfg) with
      (for_each (fun i cfg => cfg ← disconnectUnlocked i q cfg; connectUnlocked i p cfg) p cfg) in H1. rewrite H1. exact H2.
  - by eapply rewired_trans.
  - intros x y Hx Hy. rewrite E2, E1 by congruence. unfold between, same_side.
    assert (forall z, z ∈ p -> z ∈ q -> False) as Hdis by (intros z Hz1 Hz2; exact (Hpq z Hz1 Hz2)).
    repeat case_decide; try done; exfalso; rewrite ?elem_of_app in *; naive_solver.
Qed.

(** C22. Whatever the harness did since it was made, a partition into disjoint sides
    returns, and after it a request of server [i] to server [j] of the two sides finds
    a connection that leads to [j]'s instance, and that is enabled exactly when they are
    on the same side. *)
Theorem partition_separates n unreliable mx rs os c0 cfg p q :
  make_config n unreliable mx rs = Ret c0 -> run_ops os c0 = Ret cfg -> NoDup (p ++ q) -> servers_in cfg (p ++ q) ->
  exists cfg', partition p q cfg = Ret cfg' /\
    forall i j, i ∈ p ++ q -> j ∈ p ++ q -> exists e, endname_at (endnames cfg') i j = Some e /\
      readEndnameInfo (IStr e) (net cfg') =
        (bool_decide (same_side p q i j), Some (IInt j), default None (kvservers cfg').[j],
         reliable (net cfg'), longReordering (net cfg')).
Proof.
  intros H0 Hos Hnd Hin. destruct (make_config_ok _ _ _ _ _ H0) as (Hok0 & Hn0 & _).
  pose proof (run_ops_ok _ _ _ Hok0 Hos) as Hok. destruct (run_ops_named _ _ _ Hok0 Hos) as [_ Hn].
  assert (wired_up cfg) as W by (split; [done|by apply Hn]). clear Hok0 Hn0 Hn H0 Hos.
  apply NoDup_app in Hnd as (Np & Hd & Nq).
  assert (forall l, NoDup l -> servers_in cfg l -> zlen l <= cfg_n cfg) as Hlen.
  { intros l Hl Hs. assert (l ⊆+ seqZ 0 (cfg_n cfg)) as Hsub%submseteq_length.
    { apply NoDup_submseteq; [done|]. intros x Hx. apply elem_of_seqZ. pose proof (servers_in_elem _ _ _ Hs Hx). lia. }
    rewrite length_seqZ in Hsub. unfold zlen. pose proof (zlen_nonneg (kvservers cfg)). unfold cfg_n in *. lia. }
  pose proof Hin as [Hp Hq]%Forall_app.
  destruct (partition_effect p q cfg W Hin) as (c1 & H1 & R1 & E1); [set_solver|by apply Hlen|by apply Hlen|].
  exists c1. split; [done|]. intros i j Hi Hj.
  pose proof (wired_up_rewired _ _ W R1) as W1. assert (cfg_n c1 = cfg_n cfg) as N1 by (by destruct R1 as (rn & -> & _)).
  pose proof (servers_in_elem _ _ _ Hin Hi) as Ri. pose proof (servers_in_elem _ _ _ Hin Hj) as Rj.
  specialize (E1 i j Ri Rj). rewrite <- N1 in Ri, Rj. destruct (endname_at_Some c1 i j W1 Ri Rj) as [e He]. exists e. split; [done|].
  unfold readEndnameInfo. unfold en in E1. rewrite He in E1. rewrite E1. destruct (h_name _ (wu_ok _ W1) _ _ _ He) as [_ ->]. simpl.
  assert (server_at (net c1) (IInt j) = default None (kvservers c1).[j]) as ->.
  { pose proof (h_server _ (wu_ok _ W1) (IInt j)) as Hs. destruct ((kvservers c1).[j]) as [[a|]|] eqn:Ek; simpl.
    - apply Hs. eauto.
    - destruct (server_at _ _) as [a|]; [|done]. destruct (proj1 (Hs a) eq_refl) as (k & [= <-] & Hk). congruence.
    - destruct (server_at _ _) as [a|]; [|done]. destruct (proj1 (Hs a) eq_refl) as (k & [= <-] & Hk). congruence. }
  do 4 f_equal. destruct (decide (same_side p q i j)); [by rewrite bool_decide_eq_true_2|].
  rewrite bool_decide_eq_false_2 by done. by rewrite decide_True.
Qed.

(** * Dealing the servers out *)

(** The servers that are not the leader. *)
Definition others (n l : Z) : list Z := filter (fun i => i <> l) (seqZ 0 n).

(** The loop fills the two slices as if they were one. *)
Lemma deal_spec l js : forall p1 p2 filled rest, p1 ++ p2 = filled ++ rest ->
  (length (filter (fun i => i <> l) js) <= length rest)%nat ->
  exists q1 q2, deal l js p1 p2 (zlen filled) = Some (q1, q2) /\ length q1 = length p1 /\
    q1 ++ q2 = filled ++ filter (fun i => i <> l) js ++ drop (length (filter (fun i => i <> l) js)) rest.
Proof.
  induction js as [|i js IH]; intros p1 p2 filled rest Hp Hle; simpl; [by exists p1, p2|].
  rewrite filter_cons in *. destruct (decide (i <> l)) as [Hi|Hi]; [|by apply IH].
  destruct rest as [|r rest]; simpl in Hle; [lia|].
  assert (zlen filled + 1 = zlen (filled ++ [i])) as Hz by (by rewrite zlen_app).
  assert (length p1 + length p2 = length filled + S (length rest))%nat as Hlen.
  { rewrite <- length_app, Hp, length_app. done. }
  assert (filled ++ i :: rest = (filled ++ [i]) ++ rest) as Happ by by rewrite <- app_assoc.
  case_decide as Hlt; rewrite go_store_Some by (unfold zlen in *; lia); simpl; rewrite Hz.
  - destruct (IH (<[Z.to_nat (zlen filled) := i]> p1) p2 (filled ++ [i]) rest) as (q1 & q2 & Hd & Hl & Hq); [|lia|].
    { rewrite <- Happ, <- insert_app_l, Hp by (unfold zlen in *; lia).
      replace (Z.to_nat (zlen filled)) with (length filled + 0)%nat by (unfold zlen; lia). by rewrite insert_app_r. }
    exists q1, q2. rewrite length_insert in Hl. split_and!; [done|done|]. by rewrite Hq, <- !app_assoc.
  - destruct (IH p1 (<[Z.to_nat (zlen filled - zlen p1) := i]> p2) (filled ++ [i]) rest) as (q1 & q2 & Hd & Hl & Hq); [|lia|].
    { rewrite <- Happ. rewrite <- insert_app_r, Hp.
      replace (length p1 + Z.to_nat (zlen filled - zlen p1))%nat with (length filled + 0)%nat by (unfold zlen in *; lia).
      by rewrite insert_app_r. }
    exists q1, q2. split_and!; [done|done|]. by rewrite Hq, <- !app_assoc.
Qed.

Lemma others_length n l : 0 <= l < n -> length (others n l) = Z.to_nat (n - 1).
Proof.
  intros Hl. assert (seqZ 0 n ≡ₚ l :: others n l) as Hp.
  { apply NoDup_Permutation; [apply NoDup_seqZ|..].
    - apply NoDup_cons. split; [|apply NoDup_filter, NoDup_seqZ]. intros [? _]%list_elem_of_filter. done.
    - intros x. rewrite elem_of_cons. unfold others. rewrite list_elem_of_filter, !elem_of_seqZ. lia. }
  apply Permutation_length in Hp. rewrite length_seqZ in Hp. simpl in Hp. lia.
Qed.

Lemma others_perm n l : 0 <= l < n -> others n l ++ [l] ≡ₚ seqZ 0 n.
Proof.
  intros Hl. apply NoDup_Permutation; [|apply NoDup_seqZ|].
  - apply NoDup_app. split_and!; [apply NoDup_filter, NoDup_seqZ| |apply NoDup_singleton].
    intros x [Hx _]%list_elem_of_filter ->%list_elem_of_singleton. done.
  - intros x. rewrite elem_of_app, list_elem_of_singleton. unfold others. rewrite list_elem_of_filter, !elem_of_seqZ. lia.
Qed.

(** An odd number of servers: the leader is last in the smaller side, and the two
    sides are the servers. *)
Lemma split_servers_odd m l : 0 < m -> 0 <= l < 2 * m + 1 -> exists p q,
  split_servers (2 * m + 1) l = Some (p, q ++ [l]) /\ zlen p = m + 1 /\ zlen (q ++ [l]) = m /\
  p ++ q = others (2 * m + 1) l /\ p ++ q ++ [l] ≡ₚ seqZ 0 (2 * m + 1).
Proof.
  intros Hm Hl. assert (Z.quot (2 * m + 1) 2 = m) as Hq by (rewrite Z.quot_div_nonneg by lia; symmetry; apply (Z.div_unique _ 2 m 1); lia).
  pose proof (others_length _ _ Hl) as Ho.
  unfold split_servers, go_make. rewrite Hq, !decide_True by lia. simpl.
  destruct (deal_spec l (seqZ 0 (2 * m + 1)) (replicate (Z.to_nat (m + 1)) 0) (replicate (Z.to_nat m) 0) []
    (replicate (Z.to_nat (m + 1)) 0 ++ replicate (Z.to_nat m) 0)) as (q1 & q2 & Hd & L1 & Happ); [done| |].
  { fold (others (2 * m + 1) l). rewrite Ho, length_app, !length_replicate. lia. }
  change (zlen []) with 0 in Hd. rewrite Hd. simpl. fold (others (2 * m + 1) l) in Happ. simpl in Happ.
  rewrite length_replicate in L1.
  assert (length (q1 ++ q2) = Z.to_nat (m + 1) + Z.to_nat m)%nat as L.
  { rewrite Happ, length_app, length_drop, length_app, !length_replicate, Ho. lia. }
  rewrite length_app in L.
  assert (drop (length (others (2 * m + 1) l)) (replicate (Z.to_nat (m + 1)) 0 ++ replicate (Z.to_nat m) 0) = [0]) as Hrest.
  { rewrite Ho, drop_app_ge, length_replicate, drop_replicate by (rewrite length_replicate; lia).
    by replace (Z.to_nat m - _)%nat with 1%nat by lia. }
  rewrite Hrest in Happ. destruct (exists_last (l := q2)) as (q & z & ->); [intros ->; simpl in L; lia|].
  rewrite length_app in L. simpl in L. rewrite app_assoc in Happ. apply app_inj_tail in Happ as [Happ ->].
  rewrite go_store_Some by (rewrite zlen_app; change (zlen [0]) with 1; pose proof (zlen_nonneg q); lia). simpl.
  replace (Z.to_nat (zlen (q ++ [0]) - 1)) with (length q + 0)%nat by (unfold zlen; rewrite length_app; simpl; lia).
  rewrite insert_app_r. simpl. exists q1, q. split_and!; [done|unfold zlen; lia|unfold zlen; rewrite length_app; simpl; lia|done|].
  rewrite app_assoc, Happ. by apply others_perm.
Qed.

(** With an even number a slot is left: server 0 is on both sides. *)
Example split_servers_even : split_servers 4 2 = Some ([0; 1; 3], [0; 2]).
Proof. reflexivity. Qed.

(** With one server there is no second side. *)
Example split_servers_single : split_servers 1 0 = None.
Proof. reflexivity. Qed.

(** * Shuffled handles *)

Lemma swap_perm {A} (l : list A) i j : 0 <= i < zlen l -> 0 <= j < zlen l -> exists l', swap i j l = Some l' /\ l' ≡ₚ l.
Proof.
  intros Hi Hj. unfold swap. destruct (go_index_is_Some l i Hi) as [x Hx], (go_index_is_Some l j Hj) as [y Hy].
  rewrite Hx, Hy. simpl. rewrite go_store_Some by done. simpl. rewrite go_store_Some by (rewrite zlen_insert; done).
  eexists. split; [done|]. rewrite go_index_lookup in Hx, Hy by lia.
  apply Permutation_inj. split; [by rewrite !length_insert|].
  exists (fun k => if decide (k = Z.to_nat j) then Z.to_nat i else if decide (k = Z.to_nat i) then Z.to_nat j else k). split.
  - intros a b. repeat case_decide; congruence.
  - intros k. rewrite !list_lookup_insert. rewrite !length_insert. unfold zlen in *. repeat case_decide; subst; try congruence; lia.
Qed.

Lemma shuffle_perm {A} (rnd : Z -> Z) js : forall l : list A, Forall (fun i => 0 <= i < zlen l) js ->
  exists l', shuffle_from rnd js l = Some l' /\ l' ≡ₚ l.
Proof.
  induction js as [|i js IH]; intros l Hjs; simpl; [by exists l|]. apply Forall_cons in Hjs as [Hi Hjs].
  pose proof (Z.mod_pos_bound (rnd i) (i + 1)). destruct (swap_perm l i (rnd i mod (i + 1)) Hi) as (l1 & -> & Hp1); [lia|]. simpl.
  assert (zlen l1 = zlen l) as Hz by (unfold zlen; by rewrite Hp1). rewrite <- Hz in Hjs.
  destruct (IH l1 Hjs) as (l2 & -> & Hp2). exists l2. split; [done|]. by rewrite Hp2.
Qed.

(** The handles of a clerk are the ends it was given, in some order. *)
Lemma random_handles_perm {A} (rnd : Z -> Z) (l : list A) : exists l', random_handles rnd l = Some l' /\ l' ≡ₚ l.
Proof. apply shuffle_perm, Forall_forall. intros i Hi%elem_of_seqZ. lia. Qed.

(** * Concrete runs *)

Definition the_config (r : Go config) : config := match r with Ret cfg => cfg | _ => empty_config 0 0 end.

Definition returns (r : Go config) : bool := match r with Ret _ => true | _ => false end.
Lemma the_config_Ret r : returns r = true -> r = Ret (the_config r).
Proof. by destruct r. Qed.

(** The random names of the ends of a server, different for each [k]. *)
Definition name_of (k j : Z) : string := String.append (pretty k) (String.append "-" (pretty j)).

Definition w_make : config := the_config (make_config 3 false 1000 name_of).
Definition w_before : list Op := [OSave 1%nat [Byte.x01] [Byte.x02]; OMakeClient (name_of 10) (fun i => i) [0; 1; 2]].
Definition w_cfg : config := the_config (run_ops w_before w_make).
Definition w_down : config := the_config (ShutdownServer 0 w_cfg).
(** The old instance goes on saving. *)
Definition w_between : list Op := [OSave 1%nat [Byte.x07] []; OPartition [0; 1] [2]].
Definition w_down2 : config := the_config (run_ops w_between w_down).
Definition w_up : config := the_config (StartServer 0 (name_of 20) w_down2).

Lemma restart_isolated_witness : saved_data w_cfg 0 = Some (mkPersister [Byte.x01] [Byte.x02]) /\ exists a x, (kvservers w_up).[0] = Some (Some a) /\ server_at (net w_up) (IInt 0) = Some a /\
  instances w_up !! a = Some x /\ persisters w_up !! in_persister x = Some (default MakePersister (saved_data w_cfg 0)) /\
  forall b y, instances w_up !! b = Some y -> in_self y = 0 -> b <> a ->
    in_killed y = true /\ (forall sn, server_at (net w_up) sn <> Some b) /\
    forall r s j, saved_data (Instance_Save b r s w_up) j = saved_data w_up j.
Proof.
  split; [vm_compute; reflexivity|].
  apply (restart_isolated 3 false 1000 name_of w_before w_make w_cfg 0 w_down w_between w_down2 (name_of 20) w_up);
    [apply the_config_Ret; vm_compute; reflexivity..|reflexivity|apply the_config_Ret; vm_compute; reflexivity].
Defined.

Definition w_run : list Op := w_before ++ OShutdown 0 :: w_between ++ [OStart 0 (name_of 20); OConnectAll].
Definition w_ran : config := the_config (run_ops w_run w_make).

Lemma partition_separates_witness : exists cfg', partition [2; 0] [1] w_ran = Ret cfg' /\
  forall i j, i ∈ [2; 0] ++ [1] -> j ∈ [2; 0] ++ [1] -> exists e, endname_at (endnames cfg') i j = Some e /\
    readEndnameInfo (IStr e) (net cfg') =
      (bool_decide (same_side [2; 0] [1] i j), Some (IInt j), default None (kvservers cfg').[j],
       reliable (net cfg'), longReordering (net cfg')).
Proof.
  apply (partition_separates 3 false 1000 name_of w_run w_make w_ran).
  - apply the_config_Ret. vm_compute. reflexivity.
  - apply the_config_Ret. vm_compute. reflexivity.
  - apply (bool_decide_unpack _). vm_compute. exact I.
  - apply (bool_decide_unpack _). vm_compute. exact I.
Defined.

(** [disconnectUnlocked] looks at the row of the loop's index and uses another one:
    it panics on a server that has not been started. *)
Definition w_half : config := the_config (for_each (fun i cfg => StartServer i (name_of i) cfg) [0; 1] (empty_config 3 1000)).
Example disconnect_wrong_row : disconnectUnlocked 0 [2] w_half = Panic.
Proof. vm_compute. reflexivity. Qed.

(** [Leader] asks a server that is shut down. *)
Example Leader_of_shutdown answer : Leader answer w_down = Panic.
Proof. vm_compute. reflexivity. Qed.
