(* ===== verification/CtrlerConfig.v ===== *)
(** The harness of the shard controller, [src/src/shardctrler/config.go].

    The file repeats the text of [src/src/kvraft/config.go] with [servers] for
    [kvservers] and without [maxraftstate], snapshots and statistics: the operations
    with the same text are those of [ServiceConfig], on a configuration whose extra
    fields stay zero.  [Leader] differs: it skips the servers that are shut down. *)

From S2P Require Import Prelude Gob Persister LabRpc RaftConfig ServiceConfig.
Local Open Scope Z_scope.

Definition config := ServiceConfig.config.
Definition servers : config -> list (option nat) := ServiceConfig.kvservers.

Definition random_handles {A} (rnd : Z -> Z) (kvh : list A) : option (list A) := ServiceConfig.random_handles rnd kvh.
Definition cleanup : config -> Go config := ServiceConfig.cleanup.
Definition LogSize : config -> Go Z := ServiceConfig.LogSize.
Definition connectUnlocked : Z -> list Z -> config -> Go config := ServiceConfig.connectUnlocked.
Definition connect := connectUnlocked.
Definition disconnectUnlocked : Z -> list Z -> config -> Go config := ServiceConfig.disconnectUnlocked.
Definition disconnect := disconnectUnlocked.
Definition All : config -> list Z := ServiceConfig.All.
Definition ConnectAll : config -> Go config := ServiceConfig.ConnectAll.
Definition partition : list Z -> list Z -> config -> Go config := ServiceConfig.partition.
Definition makeClient : (Z -> string) -> (Z -> Z) -> list Z -> config -> Go (nat * config) := ServiceConfig.makeClient.
Definition deleteClient : nat -> config -> config := ServiceConfig.deleteClient.
Definition ConnectClientUnlocked : nat -> list Z -> config -> Go config := ServiceConfig.ConnectClientUnlocked.
Definition ConnectClient := ConnectClientUnlocked.
Definition DisconnectClientUnlocked : nat -> list Z -> config -> Go config := ServiceConfig.DisconnectClientUnlocked.
Definition DisconnectClient := DisconnectClientUnlocked.
Definition ShutdownServer : Z -> config -> Go config := ServiceConfig.ShutdownServer.
Definition StartServer : Z -> (Z -> string) -> config -> Go config := ServiceConfig.StartServer.

(** The loop of [Leader]. *)
Fixpoint find_leader (answer : nat -> bool) (ks : list (option nat)) (i : Z) : bool * Z :=
  match ks with
  | [] => (false, 0)
  | Some a :: ks => if answer a then (true, i) else find_leader answer ks (i + 1)
  | None :: ks => find_leader answer ks (i + 1)
  end.
Definition Leader (answer : nat -> bool) (cfg : config) : bool * Z := find_leader answer (servers cfg) 0.

Definition make_partition (answer : nat -> bool) (cfg : config) : Go (list Z * list Z) :=
  let '(_, l) := Leader answer cfg in of_opt (split_servers (cfg_n cfg) l).

Definition make_config (n : nat) (unreliable : bool) (rs : Z -> Z -> string) : Go config :=
  ServiceConfig.make_config n unreliable 0 rs.

(** The leader that is found runs and says that it leads; none is found only if none
    of the running servers says so. *)
Lemma find_leader_spec answer ks i :
  match find_leader answer ks i with
  | (true, k) => exists a, ks.[k - i] = Some (Some a) /\ answer a = true /\ i <= k
  | (false, _) => forall a, Some a ∈ ks -> answer a = false
  end.
Proof.
  revert i. induction ks as [|k ks IH]; intros i; simpl; [by intros a ?%elem_of_nil|].
  assert (forall b l, find_leader answer ks (i + 1) = (b, l) -> (forall a, k = Some a -> answer a = false) ->
    if b then exists a, (k :: ks).[l - i] = Some (Some a) /\ answer a = true /\ i <= l
    else forall a, Some a ∈ k :: ks -> answer a = false) as Hnext.
  { intros b l Hf Hk. specialize (IH (i + 1)). rewrite Hf in IH. destruct b.
    - destruct IH as (a & Ha & ? & ?). exists a. rewrite go_index_cons_S by lia. replace (l - i - 1) with (l - (i + 1)) by lia.
      split_and!; [done|done|lia].
    - intros a [E|Ha]%elem_of_cons; [by apply Hk|by apply IH]. }
  destruct k as [a|]; [destruct (answer a) eqn:Ha|].
  - exists a. rewrite Z.sub_diag. by rewrite go_index_cons_0.
  - destruct (find_leader answer ks (i + 1)) as [b l] eqn:Hf. specialize (Hnext b l eq_refl). destruct b; apply Hnext; naive_solver.
  - destruct (find_leader answer ks (i + 1)) as [b l] eqn:Hf. specialize (Hnext b l eq_refl). destruct b; apply Hnext; naive_solver.
Qed.
