(* ===== verification/ShardConfig.v ===== *)
(** The harness of the sharded service, [src/src/shardkv/config.go].

    Three groups of servers and a controller service of three servers share one
    [labrpc] network.  Every server has a name made from its group and its index, and
    every end that is made for it is enabled at once; servers are cut off by shutting
    them down.  Instances and persisters are objects at addresses; random names are
    arguments.  [Panic] stands for a run-time panic and for a failed test. *)

From stdpp Require Import pretty.
From S2P Require Import Prelude Gob Persister LabRpc.
Local Open Scope Z_scope.

(** * The configuration *)

(** A server of a group: what [StartServer] was given, and whether it was killed. *)
Record Instance := mkInstance {
  in_gid : Z; in_me : Z; in_ends : list ClientEnd; in_mends : list ClientEnd; in_persister : nat; in_max : Z; in_killed : bool }.

Record group := mkGroup {
  gid : Z;
  servers : list (option nat);
  saved : list (option nat);
  endnames : list (list string);
  mendnames : list (list string)
}.

(** A controller service; its servers are objects that can be killed. *)
Record CtrlerInstance := mkCtrlerInstance { ci_me : Z; ci_ends : list ClientEnd; ci_persister : Persister; ci_killed : bool }.
Record ctrler := mkCtrler {
  ctl_n : Z; ctl_servers : list (option CtrlerInstance); names : list string; ck : option (list ClientEnd) }.

Record config := mkConfig {
  net : Network;
  ctl : ctrler;
  ngroups : Z;
  n : Z;
  groups : list (option group);
  clerks : gmap nat (list string);
  nextClientId : Z;
  maxraftstate : Z;
  instances : gmap nat Instance;
  persisters : gmap nat Persister;
  nextAddr : nat
}.

Definition set_net (rn : Network) cfg : config :=
  mkConfig rn (ctl cfg) (ngroups cfg) (n cfg) (groups cfg) (clerks cfg) (nextClientId cfg) (maxraftstate cfg)
    (instances cfg) (persisters cfg) (nextAddr cfg).
Definition set_ctl (c : ctrler) cfg : config :=
  mkConfig (net cfg) c (ngroups cfg) (n cfg) (groups cfg) (clerks cfg) (nextClientId cfg) (maxraftstate cfg)
    (instances cfg) (persisters cfg) (nextAddr cfg).
Definition set_groups (gs : list (option group)) cfg : config :=
  mkConfig (net cfg) (ctl cfg) (ngroups cfg) (n cfg) gs (clerks cfg) (nextClientId cfg) (maxraftstate cfg)
    (instances cfg) (persisters cfg) (nextAddr cfg).
Definition set_clerks (cs : gmap nat (list string)) (id : Z) cfg : config :=
  mkConfig (net cfg) (ctl cfg) (ngroups cfg) (n cfg) (groups cfg) cs id (maxraftstate cfg)
    (instances cfg) (persisters cfg) (nextAddr cfg).
Definition set_heap (insts : gmap nat Instance) (ps : gmap nat Persister) cfg : config :=
  mkConfig (net cfg) (ctl cfg) (ngroups cfg) (n cfg) (groups cfg) (clerks cfg) (nextClientId cfg) (maxraftstate cfg)
    insts ps (nextAddr cfg).
(** A fresh address. *)
Definition alloc cfg : nat * config :=
  (nextAddr cfg, mkConfig (net cfg) (ctl cfg) (ngroups cfg) (n cfg) (groups cfg) (clerks cfg) (nextClientId cfg)
    (maxraftstate cfg) (instances cfg) (persisters cfg) (S (nextAddr cfg))).

(** [cfg.groups[gi]] and stores through it. *)
Definition group_at (gi : Z) cfg : option group := gg ← (groups cfg).[gi]; gg.
Definition set_group (gi : Z) (gg : group) cfg : option config :=
  gs ← go_store (groups cfg) gi (Some gg); Some (set_groups gs cfg).

(** A loop over servers or groups. *)
Fixpoint for_each (f : Z -> config -> Go config) (js : list Z) cfg : Go config :=
  match js with [] => Ret cfg | j :: js => cfg ← f j cfg; for_each f js cfg end.

(** * Names and ends *)

Definition servername (gid i : Z) : string := ("server-" +:+ pretty gid +:+ "-" +:+ pretty i)%string.
Definition ctrlername (i : Z) (c : ctrler) : option string := (names c).[i].

(** The closure [make_end] given to servers and clerks: [name] is the random name. *)
Definition make_end (name : string) (server : string) (rn : Network) : Go (ClientEnd * Network) :=
  '(e, rn) ← MakeEnd (IStr name) rn;
  Ret (e, Enable (IStr name) true (Connect (IStr name) (IStr server) rn)).

(** A loop that makes an end for each server, with the name [rs j]. *)
Fixpoint open_ends (rs : Z -> string) (server : Z -> option string) (js : list Z) (rn : Network) : Go (list ClientEnd * Network) :=
  match js with
  | [] => Ret ([], rn)
  | j :: js =>
      sn ← of_opt (server j);
      '(e, rn) ← make_end (rs j) sn rn;
      '(es, rn) ← open_ends rs server js rn;
      Ret (e :: es, rn)
  end.

(** The loop of [makeClient], which also stores the name in [endnames]. *)
Fixpoint client_ends (rs : Z -> string) (c : ctrler) (js : list Z) (ens : list string) (rn : Network) :
    Go (list string * list ClientEnd * Network) :=
  match js with
  | [] => Ret (ens, [], rn)
  | j :: js =>
      ens ← of_opt (go_store ens j (rs j));
      sn ← of_opt (ctrlername j c);
      '(e, rn) ← make_end (rs j) sn rn;
      '(ens, es, rn) ← client_ends rs c js ens rn;
      Ret (ens, e :: es, rn)
  end.

(** Its result: the address of the clerk, its ends. *)
Definition makeClient (rs : Z -> string) (c : ctrler) cfg : Go (nat * list ClientEnd * config) :=
  ens ← of_opt (go_make (n cfg) ""%string);
  '(ens, es, rn) ← client_ends rs c (seqZ 0 (ctl_n c)) ens (net cfg);
  let '(a, cfg) := alloc (set_net rn cfg) in
  Ret (a, es, set_clerks (<[a := ens]> (clerks cfg)) (wrap64 (nextClientId cfg + 1)) cfg).

Definition deleteClient (a : nat) cfg : config := set_clerks (delete a (clerks cfg)) (nextClientId cfg) cfg.

(** * Servers *)

Definition Kill (a : nat) cfg : config :=
  set_heap (alter (fun x => mkInstance (in_gid x) (in_me x) (in_ends x) (in_mends x) (in_persister x) (in_max x) true) a (instances cfg))
    (persisters cfg) cfg.

Definition disable_all (l : list string) (rn : Network) : Network := foldl (fun rn name => Enable (IStr name) false rn) rn l.

(** [gg.saved[i] = ...Copy()], or [raft.MakePersister()]. *)
Definition store_saved (gi i : Z) (data : Persister) cfg : Go config :=
  gg ← of_opt (group_at gi cfg);
  let '(b, cfg) := alloc cfg in
  sv ← of_opt (go_store (saved gg) i (Some b));
  cfg ← of_opt (set_group gi (mkGroup (gid gg) (servers gg) sv (endnames gg) (mendnames gg)) cfg);
  Ret (set_heap (instances cfg) (<[b := data]> (persisters cfg)) cfg).
Definition store_server (gi i : Z) (kv : option nat) cfg : Go config :=
  gg ← of_opt (group_at gi cfg);
  ks ← of_opt (go_store (servers gg) i kv);
  of_opt (set_group gi (mkGroup (gid gg) ks (saved gg) (endnames gg) (mendnames gg)) cfg).

Definition ShutdownServer (gi i : Z) cfg : Go config :=
  gg ← of_opt (group_at gi cfg);
  row ← of_opt (endnames gg).[i];
  outs ← of_opt row.[: zlen (servers gg)];
  mrow ← of_opt (mendnames gg).[i];
  let rn := disable_all mrow (disable_all outs (net cfg)) in
  let cfg := set_net (DeleteServer (IStr (servername (gid gg) i)) rn) cfg in
  s ← of_opt (saved gg).[i];
  cfg ← match s with
        | Some a => ps ← of_opt (persisters cfg !! a); store_saved gi i (Copy ps) cfg
        | None => Ret cfg
        end;
  kv ← of_opt (servers gg).[i];
  match kv with Some a => store_server gi i None (Kill a cfg) | None => Ret cfg end.

Definition ShutdownGroup (gi : Z) cfg : Go config := for_each (ShutdownServer gi) (seqZ 0 (n cfg)) cfg.

(** [rs] and [mrs] are the random names of the ends to the group and to the controller. *)
Definition StartServer (rs mrs : Z -> string) (gi i : Z) cfg : Go config :=
  gg ← of_opt (group_at gi cfg);
  t ← of_opt (go_store (endnames gg) i (rs <$> seqZ 0 (n cfg)));
  '(es, rn) ← open_ends rs (fun j => Some (servername (gid gg) j)) (seqZ 0 (n cfg)) (net cfg);
  mt ← of_opt (go_store (mendnames gg) i (mrs <$> seqZ 0 (ctl_n (ctl cfg))));
  '(mes, rn) ← open_ends mrs (fun j => ctrlername j (ctl cfg)) (seqZ 0 (ctl_n (ctl cfg))) rn;
  cfg ← of_opt (set_group gi (mkGroup (gid gg) (servers gg) (saved gg) t mt) (set_net rn cfg));
  s ← of_opt (saved gg).[i];
  cfg ← match s with
        | Some a => ps ← of_opt (persisters cfg !! a); store_saved gi i (Copy ps) cfg
        | None => store_saved gi i MakePersister cfg
        end;
  p ← of_opt (gg ← group_at gi cfg; s ← (saved gg).[i]; s);
  let '(a, cfg) := alloc cfg in
  let cfg := set_heap (<[a := mkInstance (gid gg) i es mes p (maxraftstate cfg) false]> (instances cfg)) (persisters cfg) cfg in
  cfg ← store_server gi i (Some a) cfg;
  Ret (set_net (AddServer (IStr (servername (gid gg) i)) a (net cfg)) cfg).

Definition StartGroup (rs mrs : Z -> Z -> string) (gi : Z) cfg : Go config :=
  for_each (fun i => StartServer (rs i) (mrs i) gi i) (seqZ 0 (n cfg)) cfg.

(** * The controller service *)

(** [addr i] is the address of the [labrpc] server. *)
Definition StartCtrlerServer (rs : Z -> string) (i : Z) (c : ctrler) cfg : Go (ctrler * config) :=
  '(es, rn) ← open_ends rs (fun j => ctrlername j c) (seqZ 0 (ctl_n c)) (net cfg);
  ss ← of_opt (go_store (ctl_servers c) i (Some (mkCtrlerInstance i es MakePersister false)));
  sn ← of_opt (ctrlername i c);
  let '(a, cfg) := alloc (set_net rn cfg) in
  Ret (mkCtrler (ctl_n c) ss (names c) (ck c), set_net (AddServer (IStr sn) a (net cfg)) cfg).

Fixpoint start_ctrlers (rs : Z -> Z -> string) (js : list Z) (c : ctrler) cfg : Go (ctrler * config) :=
  match js with
  | [] => Ret (c, cfg)
  | j :: js => '(c, cfg) ← StartCtrlerServer (rs j) j c cfg; start_ctrlers rs js c cfg
  end.

Definition ctrlerclerk (rs : Z -> string) (c : ctrler) cfg : Go (list ClientEnd * config) :=
  '(es, rn) ← open_ends rs (fun j => ctrlername j c) (seqZ 0 (ctl_n c)) (net cfg); Ret (es, set_net rn cfg).

(** [nrs] names the servers, [rs i] the ends of server [i], [crs] those of the clerk. *)
Definition StartCtrlerService (nrs : Z -> string) (rs : Z -> Z -> string) (crs : Z -> string) cfg : Go (ctrler * config) :=
  let c := mkCtrler 3 (replicate 3 None) ((fun i => "ctlr-" +:+ nrs i)%string <$> seqZ 0 3) None in
  '(c, cfg) ← start_ctrlers rs (seqZ 0 3) c cfg;
  '(es, cfg) ← ctrlerclerk crs c cfg;
  Ret (mkCtrler (ctl_n c) (ctl_servers c) (names c) (Some es), cfg).

(** ** Commands to the controller *)

(** The argument of [Join] that [joinm] builds: a later group with the same gid replaces. *)
Fixpoint join_map (gis : list Z) (m : gmap Z (list string)) cfg : Go (gmap Z (list string)) :=
  match gis with
  | [] => Ret m
  | g :: gis =>
      gg ← of_opt (group_at g cfg);
      join_map gis (<[gid gg := servername (gid gg) <$> seqZ 0 (n cfg)]> m) cfg
  end.
(** [ctl.ck] is dereferenced. *)
Definition joinm (gis : list Z) (c : ctrler) cfg : Go (list ClientEnd * gmap Z (list string)) :=
  m ← join_map gis ∅ cfg; es ← of_opt (ck c); Ret (es, m).
Definition join (gi : Z) cfg := joinm [gi] (ctl cfg) cfg.
Definition ctljoin (gi : Z) (c : ctrler) cfg := joinm [gi] c cfg.

Fixpoint leave_gids (gis : list Z) cfg : Go (list Z) :=
  match gis with
  | [] => Ret []
  | g :: gis => gg ← of_opt (group_at g cfg); gids ← leave_gids gis cfg; Ret (gid gg :: gids)
  end.
Definition leavem (gis : list Z) cfg : Go (list ClientEnd * list Z) :=
  gids ← leave_gids gis cfg; es ← of_opt (ck (ctl cfg)); Ret (es, gids).
Definition leave (gi : Z) cfg := leavem [gi] cfg.

(** * Checks, start and end *)

(** The tests [checklogs] makes on one server. *)
Definition checklog (mx : Z) (p : Persister) : bool :=
  let raft := RaftStateSize p in
  let snap := zlen (ReadSnapshot p) in
  negb (bool_decide (mx >= 0 /\ raft > wrap64 (8 * mx))) && negb (bool_decide (mx < 0 /\ snap > 0)).
Definition checklogs cfg : Go config :=
  for_each (fun gi => for_each (fun i cfg =>
      gg ← of_opt (group_at gi cfg);
      s ← of_opt (saved gg).[i]; a ← of_opt s; p ← of_opt (persisters cfg !! a);
      if checklog (maxraftstate cfg) p then Ret cfg else Panic) (seqZ 0 (n cfg))) (seqZ 0 (ngroups cfg)) cfg.

Fixpoint kill_ctrlers (js : list Z) (ss : list (option CtrlerInstance)) : option (list (option CtrlerInstance)) :=
  match js with
  | [] => Some ss
  | j :: js =>
      s ← ss.[j]; x ← s;
      ss ← go_store ss j (Some (mkCtrlerInstance (ci_me x) (ci_ends x) (ci_persister x) true));
      kill_ctrlers js ss
  end.
Definition cleanup cfg : Go config :=
  cfg ← for_each ShutdownGroup (seqZ 0 (ngroups cfg)) cfg;
  ss ← of_opt (kill_ctrlers (seqZ 0 (ctl_n (ctl cfg))) (ctl_servers (ctl cfg)));
  let c := ctl cfg in
  rn ← Cleanup (net cfg);
  Ret (set_net rn (set_ctl (mkCtrler (ctl_n c) ss (names c) (ck c)) cfg)).

(** The random names of a whole configuration. *)
Record Names := mkNames {
  nm_ctrler : Z -> string; nm_cends : Z -> Z -> string; nm_clerk : Z -> string;
  nm_ends : Z -> Z -> Z -> string; nm_mends : Z -> Z -> Z -> string }.

Definition empty_group (gid n cn : Z) : option group :=
  ks ← go_make n None; sv ← go_make n None; t ← go_make n []; mt ← go_make cn [];
  Some (mkGroup gid ks sv t mt).

(** One turn of the loop of [make_config]. *)
Definition make_group (rs mrs : Z -> Z -> Z -> string) (gi : Z) cfg : Go config :=
  gg ← of_opt (empty_group (100 + gi) (n cfg) (ctl_n (ctl cfg)));
  cfg ← of_opt (set_group gi gg cfg);
  StartGroup (rs gi) (mrs gi) gi cfg.

Definition make_config (nm : Names) (n : Z) (unreliable : bool) (mx : Z) : Go config :=
  let c := mkCtrler 0 [] [] None in
  '(c, cfg) ← StartCtrlerService (nm_ctrler nm) (nm_cends nm) (nm_clerk nm) (mkConfig MakeNetwork c 0 0 [] ∅ 0 mx ∅ ∅ 0);
  let cfg := mkConfig (net cfg) c 3 n (replicate 3 None) ∅ 0 mx (instances cfg) (persisters cfg) (nextAddr cfg) in
  cfg ← for_each (make_group (nm_ends nm) (nm_mends nm)) (seqZ 0 3) cfg;
  let cfg := set_clerks ∅ (wrap64 (n + 1000)) cfg in
  Ret (set_net (Reliable (negb unreliable) (net cfg)) cfg).
