(* ===== verification/ShardWiring.v ===== *)
(** The harness of the sharded service: where a server's name leads, and how many
    servers a group can have. *)

From stdpp Require Import pretty.
From S2P Require Import Prelude Gob Persister LabRpc RaftConfig RaftWiring ServiceWiring ShardConfig.
Local Open Scope Z_scope.

(** * Names *)

Lemma append_inj (s t1 t2 : string) : (s +:+ t1)%string = (s +:+ t2)%string -> t1 = t2.
Proof. induction s as [|c s IH]; simpl; [done|]. intros [= H]. by apply IH. Qed.

(** The groups are 100, 101 and 102. *)
Lemma servername_inj g g' i i' : 0 <= g < 3 -> 0 <= g' < 3 -> servername (100 + g) i = servername (100 + g') i' -> g = g' /\ i = i'.
Proof.
  intros Hg Hg' E. assert (g = 0 \/ g = 1 \/ g = 2) as Cg by lia. assert (g' = 0 \/ g' = 1 \/ g' = 2) as Cg' by lia.
  unfold servername in E. destruct Cg as [->|[->| ->]], Cg' as [->|[->| ->]]; try discriminate E;
    (split; [done|]; repeat apply append_inj in E; by apply (inj pretty) in E).
Qed.

Lemma servername_ctlr s g i : servername g i <> ("ctlr-" +:+ s)%string.
Proof. by intros [=]. Qed.

(** * Ends *)

Lemma make_end_more name server rn e rn' : make_end name server rn = Ret (e, rn') ->
  more_ends rn rn' /\ e = mkClientEnd (IStr name) /\ is_enabled rn' (IStr name) = true /\ connection rn' (IStr name) = Some (IStr server) /\
  forall x, x <> IStr name -> is_enabled rn' x = is_enabled rn x.
Proof.
  intros Hr. apply go_bind_Ret in Hr as ([e1 r1] & H1 & Hr). unfold MakeEnd in H1. destruct (ends rn !! IStr name) eqn:Hf; [done|].
  injection H1 as <- <-. injection Hr as <- <-. unfold is_enabled, connection. simpl. split_and!.
  - split; [done|]. simpl. intros x [y Hx]. assert (x <> IStr name) as Hne by congruence. unfold connection. simpl.
    rewrite !lookup_insert_ne by congruence. eauto.
  - done.
  - by rewrite lookup_insert_eq.
  - by rewrite lookup_insert_eq.
  - intros x Hx. by rewrite !lookup_insert_ne by congruence.
Qed.

Lemma more_ends_refl rn : more_ends rn rn.
Proof. done. Qed.
Lemma more_ends_trans r1 r2 r3 : more_ends r1 r2 -> more_ends r2 r3 -> more_ends r1 r3.
Proof.
  intros [A B] [C D]. split; [congruence|]. intros x Hx. destruct (B x Hx) as [E F]. destruct (D x E) as [G I]. split; congruence.
Qed.

Lemma open_ends_more rs server js : forall rn es rn', open_ends rs server js rn = Ret (es, rn') -> more_ends rn rn'.
Proof.
  induction js as [|j js IH]; intros rn es rn' Hr; simpl in Hr; [by go_inv|].
  apply go_bind_Ret in Hr as (sn & _ & Hr). apply go_bind_Ret in Hr as ([e r1] & H1 & Hr).
  apply go_bind_Ret in Hr as ([es1 r2] & H2 & Hr). injection Hr as <- <-.
  apply make_end_more in H1 as [Hm _]. eapply more_ends_trans; eauto.
Qed.

Lemma client_ends_more rs c js : forall ens rn r, client_ends rs c js ens rn = Ret r -> more_ends rn r.2 /\
  forall j, j ∈ js -> 0 <= j < zlen ens.
Proof.
  induction js as [|j js IH]; intros ens rn r Hr; simpl in Hr.
  { go_inv. split; [done|]. by intros j ?%elem_of_nil. }
  apply go_bind_Ret in Hr as (ens1 & Hens & Hr). apply go_bind_Ret in Hr as (sn & _ & Hr).
  apply go_bind_Ret in Hr as ([e r1] & H1 & Hr). apply go_bind_Ret in Hr as ([[ens2 es1] r2] & H2 & Hr). injection Hr as <-.
  apply make_end_more in H1 as [Hm _]. destruct (IH _ _ _ H2) as [Hm2 Hj]. simpl in *.
  destruct (go_store ens j (rs j)) as [ens'|] eqn:Hst; [|done]. injection Hens as ->. apply go_store_inv in Hst as [Hb Hz].
  split; [by eapply more_ends_trans|]. intros k [->|Hk]%elem_of_cons; [done|]. rewrite <- Hz. by apply Hj.
Qed.

(** * The invariant *)

Definition server_of (gg : group) (i : Z) : option nat := default None (servers gg).[i].

Record routed cfg : Prop := {
  ro_ctl : ctl_n (ctl cfg) = 3 /\ exists s, names (ctl cfg) = (fun i => "ctlr-" +:+ s i)%string <$> seqZ 0 3;
  ro_n : 0 <= n cfg /\ zlen (groups cfg) = 3;
  ro_group : forall gi gg, group_at gi cfg = Some gg -> gid gg = 100 + gi /\ zlen (servers gg) = n cfg /\ zlen (mendnames gg) = 3;
  ro_server : forall gi gg i, group_at gi cfg = Some gg -> 0 <= i < n cfg ->
    server_at (net cfg) (IStr (servername (gid gg) i)) = server_of gg i;
  ro_none : forall gi i, 0 <= gi < 3 -> group_at gi cfg = None -> server_at (net cfg) (IStr (servername (100 + gi) i)) = None;
  ro_inst : forall gi gg i a, group_at gi cfg = Some gg -> (servers gg).[i] = Some (Some a) -> exists x,
    instances cfg !! a = Some x /\ in_gid x = gid gg /\ in_me x = i /\ in_killed x = false /\
    (saved gg).[i] = Some (Some (in_persister x));
  ro_addr : forall a x, instances cfg !! a = Some x -> (a < nextAddr cfg)%nat
}.

Lemma group_at_range gi gg cfg : routed cfg -> group_at gi cfg = Some gg -> 0 <= gi < 3.
Proof.
  intros R Hg. apply bind_Some in Hg as (o & Ho & ->). destruct (ro_n _ R) as [_ <-]. by eapply go_index_Some_lt.
Qed.

(** A store through [cfg.groups[gi]]. *)
Lemma set_group_inv gi gg cfg cfg' : set_group gi gg cfg = Some cfg' ->
  cfg' = set_groups (groups cfg') cfg /\ zlen (groups cfg') = zlen (groups cfg) /\
  forall gj, group_at gj cfg' = if decide (gj = gi) then Some gg else group_at gj cfg.
Proof.
  intros Hs. apply bind_Some in Hs as (gs & Hst & [= <-]). pose proof (go_store_inv _ _ _ _ Hst) as [_ Hz].
  split_and!; [done|done|]. intros gj. unfold group_at. simpl. rewrite (go_index_store _ _ gj _ _ Hst). by case_decide.
Qed.

(** What does not touch groups, instances and servers. *)
Lemma routed_frame cfg cfg' : routed cfg -> ctl_n (ctl cfg') = ctl_n (ctl cfg) -> names (ctl cfg') = names (ctl cfg) -> n cfg' = n cfg ->
  groups cfg' = groups cfg -> instances cfg' = instances cfg -> (nextAddr cfg <= nextAddr cfg')%nat ->
  (forall g i, server_at (net cfg') (IStr (servername g i)) = server_at (net cfg) (IStr (servername g i))) -> routed cfg'.
Proof.
  intros [] E1 E1' E2 E3 E4 Hn Hs. unfold group_at in *.
  split; unfold group_at; rewrite ?E1, ?E1', ?E2, ?E3, ?E4; try done.
  - intros. rewrite Hs. by eapply ro_server0.
  - intros. rewrite Hs. by apply ro_none0.
  - intros a x Hx. pose proof (ro_addr0 a x Hx). lia.
Qed.

Lemma more_servers rn rn' sn : more_ends rn rn' -> server_at rn' sn = server_at rn sn.
Proof. intros [H _]. unfold server_at. by rewrite H. Qed.

(** ** Clients and the controller *)

Lemma makeClient_routed rs c cfg a es cfg' : routed cfg -> makeClient rs c cfg = Ret (a, es, cfg') -> routed cfg'.
Proof.
  intros R Hr. apply go_bind_Ret in Hr as (ens & _ & Hr). apply go_bind_Ret in Hr as ([[ens1 es1] rn] & H1 & Hr).
  apply client_ends_more in H1 as [Hm _]. simpl in Hr. injection Hr as <- <- <-.
  eapply routed_frame; try done; simpl; [lia|]. intros g i. by apply more_servers.
Qed.

Lemma StartCtrlerServer_frame rs i c cfg c' cfg' : StartCtrlerServer rs i c cfg = Ret (c', cfg') ->
  (exists s, names c = (fun i => "ctlr-" +:+ s i)%string <$> seqZ 0 3) ->
  ctl_n c' = ctl_n c /\ names c' = names c /\ n cfg' = n cfg /\ groups cfg' = groups cfg /\ instances cfg' = instances cfg /\
  ctl cfg' = ctl cfg /\ (nextAddr cfg <= nextAddr cfg')%nat /\
  forall g i, server_at (net cfg') (IStr (servername g i)) = server_at (net cfg) (IStr (servername g i)).
Proof.
  intros Hr [s Hs]. apply go_bind_Ret in Hr as ([es rn] & H1 & Hr). apply go_bind_Ret in Hr as (ss & _ & Hr).
  apply go_bind_Ret in Hr as (sn & H2 & Hr). simpl in Hr. injection Hr as <- <-. simpl. split_and!; try done; [lia|].
  intros g k. apply open_ends_more in H1. unfold server_at. simpl. rewrite lookup_insert_ne.
  - by rewrite (proj1 H1).
  - unfold ctrlername in H2. rewrite Hs in H2. destruct (((fun i => "ctlr-" +:+ s i)%string <$> seqZ 0 3).[i]) as [nm|] eqn:E; [|done].
    injection H2 as ->. pose proof (go_index_Some_lt _ _ _ E). rewrite go_index_lookup in E by lia.
    apply list_lookup_fmap_Some in E as (z & -> & _). intros [=].
Qed.

Lemma start_ctrlers_frame rs js : forall c cfg c' cfg', start_ctrlers rs js c cfg = Ret (c', cfg') ->
  (exists s, names c = (fun i => "ctlr-" +:+ s i)%string <$> seqZ 0 3) ->
  ctl_n c' = ctl_n c /\ names c' = names c /\ n cfg' = n cfg /\ groups cfg' = groups cfg /\ instances cfg' = instances cfg /\
  ctl cfg' = ctl cfg /\ (nextAddr cfg <= nextAddr cfg')%nat /\
  forall g i, server_at (net cfg') (IStr (servername g i)) = server_at (net cfg) (IStr (servername g i)).
Proof.
  induction js as [|j js IH]; intros c cfg c' cfg' Hr Hs; simpl in Hr; [by go_inv|].
  apply go_bind_Ret in Hr as ([c1 g1] & H1 & Hr). apply StartCtrlerServer_frame in H1 as (A1 & A2 & A3 & A4 & A5 & A8 & A6 & A7); [|done].
  apply IH in Hr as (B1 & B2 & B3 & B4 & B5 & B8 & B6 & B7); [|by rewrite A2].
  split_and!; [congruence..|lia|intros; by rewrite B7, A7].
Qed.

(** ** Servers *)

Lemma disable_all_spec l : forall rn, LabRpc.servers (disable_all l rn) = LabRpc.servers rn /\
  (forall x, (forall s, s ∈ l -> x <> IStr s) -> is_enabled (disable_all l rn) x = is_enabled rn x) /\
  forall s, s ∈ l -> is_enabled (disable_all l rn) (IStr s) = false.
Proof.
  unfold disable_all. induction l as [|s l IH]; intros rn; simpl; [split_and!; [done|done|by intros s ?%elem_of_nil]|].
  destruct (IH (Enable (IStr s) false rn)) as (A & B & C). split_and!.
  - by rewrite A.
  - intros x Hx. rewrite B by (intros t Ht; apply Hx; by right). rewrite is_enabled_Enable, decide_False; [done|]. apply Hx. by left.
  - intros t Ht. destruct (decide (t ∈ l)) as [Hin|Hin]; [by apply C|]. apply elem_of_cons in Ht as [->|?]; [|done].
    rewrite B by (intros u Hu [= ->]; done). rewrite is_enabled_Enable. by rewrite decide_True.
Qed.

(** Only server [i] of group [gi] changes: it is [kv] now. *)
Lemma routed_change gi gg gg' i kv cfg cfg' : routed cfg -> group_at gi cfg = Some gg -> 0 <= i < n cfg ->
  ctl_n (ctl cfg') = ctl_n (ctl cfg) /\ names (ctl cfg') = names (ctl cfg) /\ n cfg' = n cfg /\ zlen (groups cfg') = zlen (groups cfg) ->
  (forall gj, group_at gj cfg' = if decide (gj = gi) then Some gg' else group_at gj cfg) ->
  gid gg' = gid gg -> servers gg' = <[Z.to_nat i := kv]> (servers gg) -> zlen (mendnames gg') = 3 ->
  (forall j, j <> i -> (saved gg').[j] = (saved gg).[j]) ->
  (forall g j, server_at (net cfg') (IStr (servername g j)) =
    if decide (servername g j = servername (gid gg) i) then kv else server_at (net cfg) (IStr (servername g j))) ->
  (forall a x, instances cfg !! a = Some x -> (in_gid x, in_me x) <> (gid gg, i) -> instances cfg' !! a = Some x) ->
  (forall a, kv = Some a -> exists x, instances cfg' !! a = Some x /\ in_gid x = gid gg /\ in_me x = i /\ in_killed x = false /\
    (saved gg').[i] = Some (Some (in_persister x))) ->
  (forall a x, instances cfg' !! a = Some x -> (a < nextAddr cfg')%nat) -> routed cfg'.
Proof.
  intros R Hgg Hi (E1 & E2 & E3 & E4) Hg Hid Hsv Hm Hsaved Hnet Hin Hkv Had.
  pose proof (group_at_range _ _ _ R Hgg) as Hgi. destruct (ro_group _ R _ _ Hgg) as (Hgid & Hlen & _).
  destruct R as [h1 h2 h3 h4 h5 h6 h7]. split; rewrite ?E1, ?E2, ?E3, ?E4; try done.
  - intros gj gj'. rewrite Hg. case_decide as Hj; [|apply h3]. intros [= <-]. subst gj. rewrite Hid, Hsv, zlen_insert. done.
  - intros gj g' j. rewrite Hg, Hnet. case_decide as Hj.
    + intros [= <-] Hjn. subst gj. rewrite Hid. unfold server_of. rewrite Hsv, go_index_insert by lia. rewrite Hgid.
      destruct (decide (j = i)) as [->|Hne]; [by rewrite decide_True|]. rewrite decide_False.
      * rewrite <- Hgid. by apply (h4 gi).
      * intros E. by apply servername_inj in E as [_ E].
    + intros Hg' Hjn. destruct (h3 _ _ Hg') as (Hid' & _ & _). rewrite decide_False; [by apply (h4 gj)|].
      rewrite Hid', Hgid. intros E. apply servername_inj in E as [E _]; [done| |done].
      destruct h2 as [_ <-]. apply bind_Some in Hg' as (o & Ho & _). by eapply go_index_Some_lt.
  - intros gj j Hgj. rewrite Hg, Hnet. case_decide as Hj; [done|]. intros Hnone. rewrite decide_False; [by apply h5|].
    rewrite Hgid. intros E. by apply servername_inj in E as [E _].
  - intros gj g' j a. rewrite Hg. case_decide as Hj.
    + intros [= <-]. rewrite Hid, Hsv, go_index_insert by lia. case_decide as Hji; [subst; intros [= E]; by apply Hkv|].
      intros Ha. destruct (h6 _ _ _ _ Hgg Ha) as (x & Hx & Hxg & Hxm & Hk & Hs). exists x. rewrite Hsaved by done.
      split_and!; try done. apply Hin; [done|]. congruence.
    + intros Hg' Ha. destruct (h6 _ _ _ _ Hg' Ha) as (x & Hx & Hxg & Hxm & Hk & Hs). exists x.
      split_and!; try done. apply Hin; [done|]. intros [= E _]. destruct (h3 _ _ Hg') as (Hid' & _). apply Hj. lia.
Qed.

(** ** Shutting down and starting *)

Lemma store_saved_inv gi i data gg cfg cfg' : group_at gi cfg = Some gg -> store_saved gi i data cfg = Ret cfg' ->
  exists sv gs, go_store (saved gg) i (Some (nextAddr cfg)) = Some sv /\
    go_store (groups cfg) gi (Some (mkGroup (gid gg) (servers gg) sv (endnames gg) (mendnames gg))) = Some gs /\
    cfg' = set_heap (instances cfg) (<[nextAddr cfg := data]> (persisters cfg)) (set_groups gs (alloc cfg).2).
Proof.
  intros Hg Hr. unfold store_saved in Hr. rewrite Hg in Hr. simpl in Hr.
  destruct (go_store (saved gg) i _) as [sv|] eqn:Hsv; [|done]. simpl in Hr. unfold set_group in Hr. simpl in Hr.
  destruct (go_store (groups cfg) gi _) as [gs|] eqn:Hgs; [|done]. simpl in Hr. injection Hr as <-. by exists sv, gs.
Qed.

Lemma store_server_inv gi i kv gg cfg cfg' : group_at gi cfg = Some gg -> store_server gi i kv cfg = Ret cfg' ->
  exists ks gs, go_store (servers gg) i kv = Some ks /\
    go_store (groups cfg) gi (Some (mkGroup (gid gg) ks (saved gg) (endnames gg) (mendnames gg))) = Some gs /\
    cfg' = set_groups gs cfg.
Proof.
  intros Hg Hr. unfold store_server in Hr. rewrite Hg in Hr. simpl in Hr.
  destruct (go_store (servers gg) i _) as [ks|] eqn:Hks; [|done]. simpl in Hr. unfold set_group in Hr.
  destruct (go_store (groups cfg) gi _) as [gs|] eqn:Hgs; [|done]. simpl in Hr. injection Hr as <-. by exists ks, gs.
Qed.

Lemma group_at_store gi gg cfg gs gj : go_store (groups cfg) gi (Some gg) = Some gs ->
  (o ← gs.[gj]; o) = if decide (gj = gi) then Some gg else group_at gj cfg.
Proof. intros Hs. rewrite (go_index_store _ _ gj _ _ Hs). unfold group_at. by case_decide. Qed.

Lemma go_store_eq {A} (l l' : list A) i x : go_store l i x = Some l' -> l' = <[Z.to_nat i := x]> l.
Proof. unfold go_store. case_decide; [|done]. by intros [= <-]. Qed.

(** [cfg] and [cfg'] differ in what is kept for server [i] of group [gi]. *)
Definition resaved gi i gg cfg cfg' : Prop :=
  net cfg' = net cfg /\ ctl cfg' = ctl cfg /\ n cfg' = n cfg /\ instances cfg' = instances cfg /\
  (nextAddr cfg <= nextAddr cfg')%nat /\ zlen (groups cfg') = zlen (groups cfg) /\
  exists sv, zlen sv = zlen (saved gg) /\ (forall j, j <> i -> sv.[j] = (saved gg).[j]) /\
    forall gj, group_at gj cfg' = if decide (gj = gi) then Some (mkGroup (gid gg) (servers gg) sv (endnames gg) (mendnames gg))
                                  else group_at gj cfg.

Lemma resaved_refl gi i gg cfg : group_at gi cfg = Some gg -> resaved gi i gg cfg cfg.
Proof.
  intros Hg. unfold resaved. split_and!; try done. exists (saved gg). split_and!; try done. intros gj. case_decide; [|done].
  subst. rewrite Hg. by destruct gg.
Qed.

Lemma store_saved_resaved gi i data gg cfg cfg' : group_at gi cfg = Some gg -> store_saved gi i data cfg = Ret cfg' ->
  resaved gi i gg cfg cfg' /\ exists gg', group_at gi cfg' = Some gg' /\ (saved gg').[i] = Some (Some (nextAddr cfg)) /\
    persisters cfg' !! nextAddr cfg = Some data.
Proof.
  intros Hg Hr. destruct (store_saved_inv _ _ _ _ _ _ Hg Hr) as (sv & gs & Hsv & Hgs & ->).
  pose proof (go_store_inv _ _ _ _ Hsv) as [_ Hz]. pose proof (go_store_inv _ _ _ _ Hgs) as [_ Hzg].
  pose proof (fun gj => group_at_store _ _ _ _ gj Hgs) as Hat. split.
  - unfold resaved. simpl. split_and!; try done; [lia|]. exists sv. split_and!; [done| |done].
    intros j Hj. rewrite (go_index_store _ _ j _ _ Hsv). by rewrite decide_False.
  - eexists. split; [unfold group_at; simpl; rewrite Hat; by rewrite decide_True|]. simpl.
    rewrite (go_index_store _ _ i _ _ Hsv). rewrite decide_True by done. split; [done|]. apply lookup_insert_eq.
Qed.

Lemma ShutdownServer_routed gi i cfg cfg' : routed cfg -> ShutdownServer gi i cfg = Ret cfg' ->
  routed cfg' /\ n cfg' = n cfg /\ ctl cfg' = ctl cfg.
Proof.
  intros R Hr. unfold ShutdownServer in Hr. destruct (group_at gi cfg) as [gg|] eqn:Hg; [|done]. simpl in Hr.
  apply go_bind_Ret in Hr as (row & _ & Hr). apply go_bind_Ret in Hr as (outs & _ & Hr). apply go_bind_Ret in Hr as (mrow & _ & Hr).
  destruct (disable_all_spec outs (net cfg)) as (S1 & _). destruct (disable_all_spec mrow (disable_all outs (net cfg))) as (S2 & _).
  apply go_bind_Ret in Hr as (s & Hs & Hr). destruct ((saved gg).[i]) as [s'|] eqn:Es; [|done]. injection Hs as ->.
  set (rn := disable_all mrow _) in *. set (c0 := set_net (DeleteServer (IStr (servername (gid gg) i)) rn) cfg) in *.
  apply go_bind_Ret in Hr as (c1 & H1 & Hr). apply go_bind_Ret in Hr as (kv & Hkv & Hr).
  destruct ((servers gg).[i]) as [kv'|] eqn:Ekv; [|done]. injection Hkv as ->. pose proof (go_index_Some_lt _ _ _ Ekv) as Hi.
  destruct (ro_group _ R _ _ Hg) as (Hgid & Hlen & Hm). rewrite Hlen in Hi.
  assert (resaved gi i gg c0 c1) as (N1 & N2 & N3 & N4 & N5 & N6 & sv & Z1 & Z2 & Hat).
  { destruct s as [a|]; [|injection H1 as <-; by apply resaved_refl].
    apply go_bind_Ret in H1 as (ps & _ & H1). by eapply store_saved_resaved. }
  assert (forall g j, server_at (net c1) (IStr (servername g j)) =
    if decide (servername g j = servername (gid gg) i) then None else server_at (net cfg) (IStr (servername g j))) as Hnet.
  { intros g j. rewrite N1. unfold server_at. simpl. case_decide as E; [by rewrite E, lookup_insert_eq|].
    rewrite lookup_insert_ne by congruence. by rewrite S2, S1. }
  assert (group_at gi c1 = Some (mkGroup (gid gg) (servers gg) sv (endnames gg) (mendnames gg))) as Hg1.
  { rewrite Hat. by rewrite decide_True. }
  destruct kv as [a|].
  - destruct (ro_inst _ R _ _ _ _ Hg Ekv) as (xa & Hxa & Hxg & Hxm & _).
    destruct (store_server_inv _ _ _ _ _ _ (Hg1 : group_at gi (Kill a c1) = _) Hr) as (ks & gs & Hks & Hgs & ->).
    pose proof (go_store_inv _ _ _ _ Hgs) as [_ Hzg]. apply go_store_eq in Hks as ->.
    split; [|by simpl; rewrite N3, N2]. eapply (routed_change gi gg _ i None cfg _ R Hg Hi).
    + simpl. rewrite N2, N3, Hzg. simpl. by rewrite N6.
    + intros gj. transitivity (o ← gs.[gj]; o); [done|]. rewrite (group_at_store _ _ _ _ gj Hgs).
      case_decide; [done|]. change (group_at gj (Kill a c1)) with (group_at gj c1). rewrite Hat. by rewrite decide_False.
    + done.
    + done.
    + done.
    + done.
    + exact Hnet.
    + intros b x Hx Hne. simpl. rewrite N4. simpl. rewrite lookup_alter_ne; [done|]. intros <-. rewrite Hxa in Hx. injection Hx as <-. congruence.
    + done.
    + intros b x. simpl. rewrite N4. simpl. intros Hx. assert (is_Some (instances cfg !! b)) as [y Hy].
      { destruct (decide (b = a)) as [->|Hne]; [eauto|]. rewrite lookup_alter_ne in Hx by congruence. eauto. }
      pose proof (ro_addr _ R _ _ Hy). simpl in N5. lia.
  - injection Hr as <-. split; [|by rewrite N3, N2]. eapply (routed_change gi gg _ i None cfg _ R Hg Hi).
    + by rewrite N2, N3, N6.
    + exact Hat.
    + done.
    + simpl. symmetry. apply list_insert_id. rewrite <- go_index_lookup by lia. done.
    + done.
    + done.
    + exact Hnet.
    + intros b x Hx _. by rewrite N4.
    + done.
    + intros b x. rewrite N4. intros Hx. pose proof (ro_addr _ R _ _ Hx). simpl in N5. lia.
Qed.

Lemma StartServer_routed rs mrs gi i cfg cfg' : routed cfg -> StartServer rs mrs gi i cfg = Ret cfg' ->
  routed cfg' /\ i < 3 /\ n cfg' = n cfg /\ ctl cfg' = ctl cfg /\ forall gj, gj <> gi -> group_at gj cfg' = group_at gj cfg.
Proof.
  intros R Hr. unfold StartServer in Hr. destruct (group_at gi cfg) as [gg|] eqn:Hg; [|done]. simpl in Hr.
  destruct (ro_group _ R _ _ Hg) as (Hgid & Hlen & Hm).
  apply go_bind_Ret in Hr as (t & Ht & Hr). apply go_bind_Ret in Hr as ([es r1] & H1 & Hr).
  apply go_bind_Ret in Hr as (mt & Hmt & Hr). apply go_bind_Ret in Hr as ([mes r2] & H2 & Hr).
  destruct (go_store (mendnames gg) i _) as [mt'|] eqn:Est; [|done]. injection Hmt as ->.
  apply go_store_inv in Est as [Hi3 Hzm]. rewrite Hm in Hi3.
  assert (more_ends (net cfg) r2) as Hmore by (eapply more_ends_trans; by eapply open_ends_more).
  set (gg1 := mkGroup (gid gg) (servers gg) (saved gg) t mt) in *. apply go_bind_Ret in Hr as (c0 & Hc0 & Hr).
  destruct (set_group gi gg1 (set_net r2 cfg)) as [c0'|] eqn:E0; [|done]. injection Hc0 as ->.
  apply set_group_inv in E0 as (E0 & Z0 & A0).
  assert (group_at gi c0 = Some gg1) as Hg0 by (rewrite A0; by rewrite decide_True).
  assert (net c0 = r2 /\ ctl c0 = ctl cfg /\ n c0 = n cfg /\ instances c0 = instances cfg /\ nextAddr c0 = nextAddr cfg) as
    (N1 & N2 & N3 & N4 & N5) by (by rewrite E0).
  apply go_bind_Ret in Hr as (s & _ & Hr). apply go_bind_Ret in Hr as (c1 & Hc1 & Hr).
  assert (exists data, store_saved gi i data c0 = Ret c1) as (data & Hsv).
  { destruct s as [a|]; [|eauto]. apply go_bind_Ret in Hc1 as (ps & _ & Hc1). eauto. }
  destruct (store_saved_resaved _ _ _ _ _ _ Hg0 Hsv) as ((M1 & M2 & M3 & M4 & M5 & M6 & sv & Z1 & Z2 & Hat) & gg2 & Hg2 & Hp & _).
  apply go_bind_Ret in Hr as (p & Hp' & Hr). rewrite Hg2 in Hp'. simpl in Hp'. rewrite Hp in Hp'. simpl in Hp'. injection Hp' as <-.
  simpl in Hr. apply go_bind_Ret in Hr as (c3 & H3 & Hr). injection Hr as <-.
  assert (gg2 = mkGroup (gid gg) (servers gg) sv t mt) as -> by (rewrite Hat, decide_True in Hg2 by done; by injection Hg2 as <-).
  match type of H3 with store_server _ _ _ ?c = _ => set (c2 := c) in * end.
  destruct (store_server_inv _ _ _ _ _ _ (Hg2 : group_at gi c2 = _) H3) as (ks & gs & Hks & Hgs & ->).
  pose proof (go_store_inv _ _ _ _ Hgs) as [_ Hzg]. pose proof (go_store_inv _ _ _ _ Hks) as [Hi _].
  simpl in Hi. rewrite Hlen in Hi. apply go_store_eq in Hks as ->.
  assert (forall gj, gj <> gi -> (o ← gs.[gj]; o) = group_at gj cfg) as Hothers.
  { intros gj Hj. rewrite (group_at_store _ _ _ _ gj Hgs), decide_False by done.
    change (group_at gj c2) with (group_at gj c1). rewrite Hat, A0. by rewrite !decide_False. }
  split; [|split; [lia|]; split; [by simpl; rewrite M3, N3|]; split; [by simpl; rewrite M2, N2|exact Hothers]].
  eapply (routed_change gi gg _ i (Some (nextAddr c1)) cfg _ R Hg Hi).
  - simpl. rewrite M2, N2, M3, N3, Hzg. simpl. rewrite M6, Z0. done.
  - intros gj. transitivity (o ← gs.[gj]; o); [done|]. case_decide as Hj; [|by apply Hothers]. subst gj.
    rewrite (group_at_store _ _ _ _ gi Hgs). by rewrite decide_True.
  - done.
  - done.
  - simpl. by rewrite Hzm.
  - intros j Hj. simpl. by rewrite Z2.
  - intros g j. unfold server_at. simpl. case_decide as E; [by rewrite E, lookup_insert_eq|].
    rewrite lookup_insert_ne by congruence. rewrite M1, N1. by rewrite (proj1 Hmore).
  - intros b x Hx _. simpl. rewrite M4, N4, lookup_insert_ne; [done|]. intros <-. pose proof (ro_addr _ R _ _ Hx). lia.
  - intros a [= <-]. eexists. split; [apply lookup_insert_eq|]. simpl. done.
  - intros b x Hx. simpl in Hx |- *. apply lookup_insert_Some in Hx as [[<- _]|[_ Hx]]; [lia|].
    rewrite M4, N4 in Hx. pose proof (ro_addr _ R _ _ Hx). lia.
Qed.

(** ** A configuration is made *)

Lemma for_each_ind (P : config -> Prop) (Q : Z -> Prop) f js : (forall j c c', Q j -> P c -> f j c = Ret c' -> P c') ->
  Forall Q js -> forall cfg cfg', P cfg -> for_each f js cfg = Ret cfg' -> P cfg'.
Proof.
  intros Hf. induction 1 as [|j js Hj Hjs IH]; intros cfg cfg' Hp Hr; simpl in Hr; [by go_inv|].
  apply go_bind_Ret in Hr as (c1 & H1 & Hr). eauto.
Qed.

Lemma StartGroup_routed rs mrs gi cfg cfg' : routed cfg -> StartGroup rs mrs gi cfg = Ret cfg' ->
  routed cfg' /\ n cfg <= 3 /\ n cfg' = n cfg /\ ctl cfg' = ctl cfg /\ forall gj, gj <> gi -> group_at gj cfg' = group_at gj cfg.
Proof.
  intros R Hr. unfold StartGroup in Hr.
  assert (forall js c c', (forall j, j ∈ js -> 0 <= j < n cfg) -> routed c -> n c = n cfg ->
    for_each (fun i => StartServer (rs i) (mrs i) gi i) js c = Ret c' ->
    routed c' /\ (forall j, j ∈ js -> j < 3) /\ n c' = n cfg /\ ctl c' = ctl c /\ forall gj, gj <> gi -> group_at gj c' = group_at gj c) as Hloop.
  { induction js as [|j js IH]; intros c c' Hjs Rc Hn Hl; simpl in Hl.
    - go_inv. split_and!; try done. by intros j ?%elem_of_nil.
    - apply go_bind_Ret in Hl as (c1 & H1 & Hl). apply StartServer_routed in H1 as (R1 & L1 & N1 & C1 & G1); [|done].
      destruct (IH c1 c') as (R2 & L2 & N2 & C2 & G2); [intros k Hk; apply Hjs; by right|done|congruence|done|].
      split_and!; [done| |done|congruence|intros; by rewrite G2, G1]. intros k [->|Hk]%elem_of_cons; auto. }
  destruct (Hloop (seqZ 0 (n cfg)) cfg cfg') as (R' & L & N & C & G); [|done|done|done|].
  { intros j Hj%elem_of_seqZ. lia. }
  split_and!; try done. destruct (decide (n cfg <= 3)); [done|]. exfalso.
  assert (3 < 3); [|lia]. apply L, elem_of_seqZ. lia.
Qed.

Lemma go_make_inv {A} k (x : A) l : go_make k x = Some l -> 0 <= k /\ l = replicate (Z.to_nat k) x.
Proof. unfold go_make. case_decide; [|done]. by intros [= <-]. Qed.

Lemma make_group_routed rs mrs gi cfg cfg' : routed cfg -> group_at gi cfg = None -> make_group rs mrs gi cfg = Ret cfg' ->
  routed cfg' /\ n cfg <= 3 /\ n cfg' = n cfg /\ ctl cfg' = ctl cfg /\ forall gj, gj <> gi -> group_at gj cfg' = group_at gj cfg.
Proof.
  intros R Hnone Hr. unfold make_group in Hr. destruct (ro_ctl _ R) as [Hc _]. destruct (ro_n _ R) as [Hn Hz].
  apply go_bind_Ret in Hr as (gg & Hgg & Hr). apply go_bind_Ret in Hr as (c1 & H1 & Hr).
  destruct (empty_group _ _ _) as [gg'|] eqn:E; [|done]. injection Hgg as ->. unfold empty_group in E.
  repeat (apply bind_Some in E as (? & [_ ->]%go_make_inv & E)). injection E as <-. rewrite Hc in H1.
  destruct (set_group gi _ cfg) as [c1'|] eqn:E1; [|done]. injection H1 as ->.
  assert (0 <= gi < 3) as Hgi.
  { apply bind_Some in E1 as (gs & Hgs & _). apply go_store_inv in Hgs as [? _]. by rewrite <- Hz. }
  apply set_group_inv in E1 as (E1 & Z1 & G1).
  assert (routed c1) as R1.
  { assert (forall o k x, (replicate (Z.to_nat k) (None : option nat)).[o] = Some x -> x = None) as Hrep by (intros; by eapply go_index_replicate).
    destruct R as [h1 h2 h3 h4 h5 h6 h7]. split.
    - rewrite E1. exact h1.
    - rewrite Z1. rewrite E1. exact h2.
    - intros gj g. rewrite G1. rewrite E1. simpl. case_decide as Hj; [|apply h3]. intros [= <-]. subst gj. simpl.
      rewrite !zlen_replicate. split_and!; [done|lia|done].
    - intros gj g j. rewrite G1. rewrite E1. simpl. case_decide as Hj; [|apply h4]. intros [= <-] _. subst gj. simpl.
      rewrite h5 by done. unfold server_of. simpl. destruct ((replicate (Z.to_nat (n cfg)) None).[j]) eqn:Er; [|done]. by rewrite (Hrep _ _ _ Er).
    - intros gj j Hgj. rewrite G1. rewrite E1. simpl. case_decide; [done|by apply h5].
    - intros gj g j a. rewrite G1. rewrite E1. simpl. case_decide; [|apply h6]. intros [= <-]. simpl. by intros ?%Hrep.
    - rewrite E1. exact h7. }
  apply StartGroup_routed in Hr as (R2 & L2 & N2 & C2 & G2); [|done].
  assert (n c1 = n cfg /\ ctl c1 = ctl cfg) as [N1 C1] by (by rewrite E1).
  split_and!; [done|lia|congruence|congruence|]. intros gj Hj. rewrite G2, G1 by done. by rewrite decide_False.
Qed.

Lemma make_config_routed nm n0 unreliable mx cfg : make_config nm n0 unreliable mx = Ret cfg -> routed cfg /\ n cfg = n0 /\ 0 <= n0 <= 3.
Proof.
  intros Hr. unfold make_config in Hr. apply go_bind_Ret in Hr as ([c cfg1] & H1 & Hr).
  unfold StartCtrlerService in H1. apply go_bind_Ret in H1 as ([c2 cfg2] & H2 & H1).
  apply start_ctrlers_frame in H2 as (A1 & A2 & A3 & A4 & A5 & _ & _ & A7); [|by eexists]. simpl in A1, A2, A3, A4, A5, A7.
  apply go_bind_Ret in H1 as ([es cfg3] & H3 & H1). injection H1 as <- <-.
  apply go_bind_Ret in H3 as ([es' rn] & H3 & H4). injection H4 as <- <-. apply open_ends_more in H3.
  apply go_bind_Ret in Hr as (cfg4 & H4 & Hr). injection Hr as <-. simpl in H4.
  match type of H4 with mbind _ (make_group _ _ _ ?c) = _ => set (c0 := c) in * end.
  destruct (decide (0 <= n0)) as [Hn0|Hn0].
  2:{ exfalso. apply go_bind_Ret in H4 as (c1 & H4 & _). unfold make_group in H4. apply go_bind_Ret in H4 as (gg & H4 & _).
      unfold empty_group in H4. change (n c0) with n0 in H4. 
      assert (go_make n0 (None : option nat) = None) as E by (unfold go_make; by rewrite decide_False). rewrite E in H4. discriminate H4. }
  assert (forall gj, group_at gj c0 = None) as Hnone.
  { intros gj. unfold group_at. simpl. destruct (_.[gj]) as [x|] eqn:E; [|done]. simpl.
    by apply (go_index_replicate 3 (None : option group)) in E as ->. }
  assert (routed c0) as R0.
  { split; simpl; try done.
    - rewrite A1, A2. split; [done|by eexists].
    - intros gj gg Hg. by rewrite Hnone in Hg.
    - intros gj gg i Hg. by rewrite Hnone in Hg.
    - intros gj i _ _. rewrite (more_servers _ _ _ H3), A7. done.
    - intros gj gg i a Hg. by rewrite Hnone in Hg.
    - by rewrite A5. }
  apply go_bind_Ret in H4 as (c1 & G1 & H4). apply make_group_routed in G1 as (R1 & L1 & N1 & _ & O1); [|done|done].
  apply go_bind_Ret in H4 as (c3 & G2 & H4). apply make_group_routed in G2 as (R2 & _ & N2 & _ & O2); [|done|by rewrite O1].
  apply go_bind_Ret in H4 as (c4 & G3 & H4). apply make_group_routed in G3 as (R3 & _ & N3 & _ & O3); [|done|by rewrite O2, O1].
  injection H4 as <-. split; [|split; [simpl; rewrite N3, N2, N1; done|split; [done|exact L1]]].
  apply (routed_frame c4); try done.
Qed.

(** * Whatever the tests do *)

Inductive Op :=
| OStart (rs mrs : Z -> string) (gi i : Z) | OShutdown (gi i : Z)
| OStartGroup (rs mrs : Z -> Z -> string) (gi : Z) | OShutdownGroup (gi : Z)
| OMakeClient (rs : Z -> string) | ODeleteClient (a : nat) | OMakeEnd (name server : string)
| OCtrlerService (nrs : Z -> string) (rs : Z -> Z -> string) (crs : Z -> string)
| OSave (a : nat) (rs ss : bytes).

(** The instance at [a] calls [persister.Save]. *)
Definition Instance_Save (a : nat) (rs ss : bytes) cfg : config :=
  match instances cfg !! a with
  | Some x => set_heap (instances cfg) (alter (Save rs ss) (in_persister x) (persisters cfg)) cfg
  | None => cfg
  end.

Definition run_op (o : Op) cfg : Go config :=
  match o with
  | OStart rs mrs gi i => StartServer rs mrs gi i cfg
  | OShutdown gi i => ShutdownServer gi i cfg
  | OStartGroup rs mrs gi => StartGroup rs mrs gi cfg
  | OShutdownGroup gi => ShutdownGroup gi cfg
  | OMakeClient rs => '(_, cfg) ← makeClient rs (ctl cfg) cfg; Ret cfg
  | ODeleteClient a => Ret (deleteClient a cfg)
  | OMakeEnd name server => '(_, rn) ← make_end name server (net cfg); Ret (set_net rn cfg)
  | OCtrlerService nrs rs crs => '(_, cfg) ← StartCtrlerService nrs rs crs cfg; Ret cfg
  | OSave a rs ss => Ret (Instance_Save a rs ss cfg)
  end.

Fixpoint run_ops (os : list Op) cfg : Go config :=
  match os with [] => Ret cfg | o :: os => cfg ← run_op o cfg; run_ops os cfg end.

Lemma run_op_routed o cfg cfg' : routed cfg -> run_op o cfg = Ret cfg' -> routed cfg'.
Proof.
  intros R. destruct o; simpl; intros Hr.
  - by apply StartServer_routed in Hr as [? _].
  - by apply ShutdownServer_routed in Hr as [? _].
  - by apply StartGroup_routed in Hr as [? _].
  - eapply (for_each_ind routed (fun _ => True)); [|by apply Forall_true|exact R|exact Hr].
    intros j c c' _ Rc Hj. by apply ShutdownServer_routed in Hj as [? _].
  - apply go_bind_Ret in Hr as ([[a es] c] & H1 & Hr). injection Hr as <-. by eapply makeClient_routed.
  - injection Hr as <-. by eapply routed_frame.
  - apply go_bind_Ret in Hr as ([e rn] & H1 & Hr). injection Hr as <-. apply make_end_more in H1 as [Hm _].
    eapply routed_frame; try done. intros g i. by apply more_servers.
  - apply go_bind_Ret in Hr as ([c cfg1] & H1 & Hr). injection Hr as <-. unfold StartCtrlerService in H1.
    apply go_bind_Ret in H1 as ([c2 cfg2] & H2 & H1).
    apply start_ctrlers_frame in H2 as (_ & _ & A3 & A4 & A5 & Hctl & A6 & A7); [|by eexists].
    apply go_bind_Ret in H1 as ([es cfg3] & H3 & H1). injection H1 as _ <-.
    apply go_bind_Ret in H3 as ([es' rn] & H3 & H4). injection H4 as _ <-. apply open_ends_more in H3.
    eapply routed_frame; try done; simpl; try congruence. intros g i. by rewrite (more_servers _ _ _ H3), A7.
  - injection Hr as <-. unfold Instance_Save. destruct (instances cfg !! a); [|done]. by eapply routed_frame.
Qed.

Lemma run_ops_routed os : forall cfg cfg', routed cfg -> run_ops os cfg = Ret cfg' -> routed cfg'.
Proof.
  induction os as [|o os IH]; intros cfg cfg' R Hr; simpl in Hr; [by go_inv|].
  apply go_bind_Ret in Hr as (c1 & H1 & Hr). eauto using run_op_routed.
Qed.

(** C23. Whatever is started, shut down, restarted or connected, a new end made for the
    name of a server of a group leads, enabled, to the instance that runs as that
    server now, or to none when it is shut down; the instance was started with the
    group's gid and the server's index, was not killed, and uses the persister that is
    kept for the server. *)
Theorem names_lead_to_servers nm n0 unreliable mx os c0 cfg gi gg i name :
  make_config nm n0 unreliable mx = Ret c0 -> run_ops os c0 = Ret cfg -> group_at gi cfg = Some gg -> 0 <= i < n cfg ->
  ends (net cfg) !! IStr name = None -> exists e rn, make_end name (servername (gid gg) i) (net cfg) = Ret (e, rn) /\
    readEndnameInfo (endname e) rn =
      (true, Some (IStr (servername (gid gg) i)), server_of gg i, reliable rn, longReordering rn) /\
    forall a, server_of gg i = Some a -> exists x, instances cfg !! a = Some x /\ in_gid x = gid gg /\ in_me x = i /\
      in_killed x = false /\ (saved gg).[i] = Some (Some (in_persister x)).
Proof.
  intros H0 Hos Hg Hi Hf. destruct (make_config_routed _ _ _ _ _ H0) as (R0 & _). pose proof (run_ops_routed _ _ _ R0 Hos) as R.
  destruct (make_end name (servername (gid gg) i) (net cfg)) as [[e rn]| |] eqn:He;
    [|unfold make_end, MakeEnd in He; by rewrite Hf in He..].
  exists e, rn. split; [done|]. apply make_end_more in He as (Hm & -> & Hen & Hc & _). split.
  - unfold readEndnameInfo. simpl. rewrite Hen, Hc. simpl. rewrite (more_servers _ _ _ Hm). by rewrite (ro_server _ R gi gg i Hg Hi).
  - intros a Ha. apply (ro_inst _ R gi gg i a Hg). unfold server_of in Ha. by destruct ((servers gg).[i]) as [k|]; [simpl in Ha; subst|].
Qed.

(** The harness only works with three servers in a group, although [make_config]
    takes their number: with more than three it fails while it starts them, with less
    the configuration is made but no client can be. *)
Theorem only_three_servers nm n0 unreliable mx cfg : make_config nm n0 unreliable mx = Ret cfg ->
  0 <= n0 <= 3 /\ forall rs r, makeClient rs (ctl cfg) cfg = Ret r -> n0 = 3.
Proof.
  intros H0. destruct (make_config_routed _ _ _ _ _ H0) as (R & Hn & Hr). split; [done|]. intros rs r Hc.
  unfold makeClient in Hc. apply go_bind_Ret in Hc as (ens & Hens & Hc). apply go_bind_Ret in Hc as (x & Hx & _).
  destruct (go_make (n cfg) ""%string) as [l|] eqn:Hl; [|done]. injection Hens as ->. apply go_make_inv in Hl as [Hn0 ->].
  apply client_ends_more in Hx as [_ Hj]. destruct (ro_ctl _ R) as [Hc3 _]. rewrite Hc3 in Hj.
  specialize (Hj 2 ltac:(by apply elem_of_seqZ)). rewrite zlen_replicate in Hj. lia.
Qed.

(** * Concrete runs *)

Definition the_config (r : Go config) : config :=
  match r with Ret cfg => cfg | _ => mkConfig MakeNetwork (mkCtrler 0 [] [] None) 0 0 [] ∅ 0 0 ∅ ∅ 0 end.
Definition returns (r : Go config) : bool := match r with Ret _ => true | _ => false end.
Lemma shard_config_Ret r : returns r = true -> r = Ret (the_config r).
Proof. by destruct r. Qed.

(** Different names; [k] keeps those of different instances apart. *)
Definition w_name (k : string) (i j : Z) : string := (k +:+ pretty i +:+ "-" +:+ pretty j)%string.
Definition w_names : Names :=
  mkNames pretty (w_name "c") (w_name "k" 0) (fun gi => w_name ("e" +:+ pretty gi +:+ "-")%string)
    (fun gi => w_name ("m" +:+ pretty gi +:+ "-")%string).

Definition w_make : config := the_config (make_config w_names 3 false 1000).
(** A server is restarted, another one is shut down, a client and an end are made. *)
Definition w_ops : list Op :=
  [OShutdown 1 0; OStart (w_name "f" 0) (w_name "g" 0) 1 0; OMakeClient (w_name "h" 0); OShutdown 1 2;
   OMakeEnd "end" (servername 101 0)].
Definition w_cfg : config := the_config (run_ops w_ops w_make).
Definition w_group : group := default (mkGroup 0 [] [] [] []) (group_at 1 w_cfg).

Lemma names_lead_to_servers_witness : servername (gid w_group) 0 = "server-101-0"%string /\
  exists e rn, make_end "new" (servername (gid w_group) 0) (net w_cfg) = Ret (e, rn) /\
    readEndnameInfo (endname e) rn =
      (true, Some (IStr (servername (gid w_group) 0)), server_of w_group 0, reliable rn, longReordering rn) /\
    forall a, server_of w_group 0 = Some a -> exists x, instances w_cfg !! a = Some x /\ in_gid x = gid w_group /\ in_me x = 0 /\
      in_killed x = false /\ (saved w_group).[0] = Some (Some (in_persister x)).
Proof.
  split; [vm_compute; reflexivity|].
  apply (names_lead_to_servers w_names 3 false 1000 w_ops w_make w_cfg 1 w_group 0 "new").
  - apply shard_config_Ret. vm_compute. reflexivity.
  - apply shard_config_Ret. vm_compute. reflexivity.
  - vm_compute. reflexivity.
  - apply (bool_decide_unpack _). vm_compute. exact I.
  - vm_compute. reflexivity.
Defined.

Definition w_two : config := the_config (make_config w_names 2 false 1000).
Lemma only_three_servers_witness : make_config w_names 4 false 1000 = Panic /\ makeClient (w_name "h" 0) (ctl w_two) w_two = Panic /\
  0 <= 2 <= 3 /\ forall rs r, makeClient rs (ctl w_two) w_two = Ret r -> 2 = 3.
Proof.
  split; [vm_compute; reflexivity|]. split; [vm_compute; reflexivity|].
  apply (only_three_servers w_names 2 false 1000). apply shard_config_Ret. vm_compute. reflexivity.
Defined.

(** [ShutdownServer] disables the ends of the two tables only: an end that came from
    the closure [make_end] is still enabled after every server of the groups is shut down. *)
Example make_end_stays_enabled : exists cfg, run_ops [OShutdownGroup 0; OShutdownGroup 1; OShutdownGroup 2] w_cfg = Ret cfg /\
  is_enabled (net cfg) (IStr "end") = true.
Proof.
  exists (the_config (run_ops [OShutdownGroup 0; OShutdownGroup 1; OShutdownGroup 2] w_cfg)).
  split; [apply shard_config_Ret; vm_compute; reflexivity|vm_compute; reflexivity].
Qed.
