(* ===== verification/KVSrvConfig.v ===== *)
(** The harness of the single-server store, [src/src/kvsrv/config.go].

    One server at the name 0 and an end for every clerk; the end of a clerk that is
    deleted is removed from the network. *)

From S2P Require Import Prelude Gob LabRpc RaftConfig RaftWiring ServiceWiring.
Local Open Scope Z_scope.

Definition SERVERID : Z := 0.

Record config := mkConfig {
  net : Network; kvserver : option nat; clerks : gmap nat string; nextClientId : Z; rpcs0 : Z; ops : Z; nextAddr : nat }.

Definition set_net (rn : Network) cfg : config :=
  mkConfig rn (kvserver cfg) (clerks cfg) (nextClientId cfg) (rpcs0 cfg) (ops cfg) (nextAddr cfg).

(** The server's address is fresh. *)
Definition StartServer cfg : config :=
  let a := nextAddr cfg in
  mkConfig (AddServer (IInt 0) a (net cfg)) (Some a) (clerks cfg) (nextClientId cfg) (rpcs0 cfg) (ops cfg) (S a).

Definition ConnectClientUnlocked (ck : nat) cfg : config :=
  set_net (Enable (IStr (default ""%string (clerks cfg !! ck))) true (net cfg)) cfg.
Definition ConnectClient := ConnectClientUnlocked.

(** [name] is the random name; the result is the address of the clerk and its end. *)
Definition makeClient (name : string) cfg : Go (nat * ClientEnd * config) :=
  '(e, rn) ← MakeEnd (IStr name) (net cfg);
  let rn := Connect (IStr name) (IInt SERVERID) rn in
  let ck := nextAddr cfg in
  let cfg := mkConfig rn (kvserver cfg) (<[ck := name]> (clerks cfg)) (wrap64 (nextClientId cfg + 1)) (rpcs0 cfg) (ops cfg) (S ck) in
  Ret (ck, e, ConnectClientUnlocked ck cfg).

(** A clerk that is not in the table has the empty name. *)
Definition deleteClient (ck : nat) cfg : Go config :=
  let v := default ""%string (clerks cfg !! ck) in
  rn ← DeleteEnd (IStr v) (net cfg);
  Ret (mkConfig rn (kvserver cfg) (delete ck (clerks cfg)) (nextClientId cfg) (rpcs0 cfg) (ops cfg) (nextAddr cfg)).

Definition cleanup cfg : Go config := rn ← Cleanup (net cfg); Ret (set_net rn cfg).

Definition make_config (unreliable : bool) : config :=
  let cfg := StartServer (mkConfig MakeNetwork None ∅ (SERVERID + 1) 0 0 0) in
  set_net (Reliable (negb unreliable) (net cfg)) cfg.

Definition rpcTotal cfg : Z := GetTotalCount (net cfg).
Definition begin cfg : config :=
  mkConfig (net cfg) (kvserver cfg) (clerks cfg) (nextClientId cfg) (rpcTotal cfg) 0 (nextAddr cfg).
Definition op cfg : config :=
  mkConfig (net cfg) (kvserver cfg) (clerks cfg) (nextClientId cfg) (rpcs0 cfg) (wrap32 (ops cfg + 1)) (nextAddr cfg).
(** What [end] prints: RPCs and operations since [begin]. *)
Definition end_ cfg : Z * Z := (wrap64 (rpcTotal cfg - rpcs0 cfg), ops cfg).

(** * Every clerk reaches the server *)

(** Random names have twenty characters. *)
Inductive Op := OMakeClient (name : string) | ODeleteClient (ck : nat) | OConnectClient (ck : nat) | OBegin | OOp.
Definition run_op (o : Op) cfg : Go config :=
  match o with
  | OMakeClient name => if decide (name = ""%string) then Block else '(_, cfg) ← makeClient name cfg; Ret cfg
  | ODeleteClient ck => deleteClient ck cfg
  | OConnectClient ck => Ret (ConnectClient ck cfg)
  | OBegin => Ret (begin cfg)
  | OOp => Ret (op cfg)
  end.
Fixpoint run_ops (os : list Op) cfg : Go config :=
  match os with [] => Ret cfg | o :: os => cfg ← run_op o cfg; run_ops os cfg end.

(** The end of every clerk is enabled and leads to the server; different clerks have
    different ends. *)
Record served cfg : Prop := {
  sv_server : server_at (net cfg) (IInt 0) = kvserver cfg /\ is_Some (kvserver cfg);
  sv_clerk : forall ck s, clerks cfg !! ck = Some s -> is_Some (ends (net cfg) !! IStr s) /\
    is_enabled (net cfg) (IStr s) = true /\ connection (net cfg) (IStr s) = Some (IInt 0);
  sv_inj : forall ck ck' s, clerks cfg !! ck = Some s -> clerks cfg !! ck' = Some s -> ck = ck';
  sv_addr : forall ck s, clerks cfg !! ck = Some s -> (ck < nextAddr cfg)%nat /\ s <> ""%string
}.

Lemma make_config_served u : served (make_config u).
Proof. by split. Qed.

Lemma run_op_served o cfg cfg' : served cfg -> run_op o cfg = Ret cfg' -> served cfg'.
Proof.
  intros [[h1 h1'] h2 h3 h4]. destruct o as [name|ck|ck| |]; simpl; intros Hr; try (injection Hr as <-; by split).
  - case_decide as Hname; [done|]. apply go_bind_Ret in Hr as ([[ck e] c] & H1 & Hr). injection Hr as <-. unfold makeClient, MakeEnd in H1.
    destruct (ends (net cfg) !! IStr name) eqn:Hf; [done|]. simpl in H1. injection H1 as <- _ <-.
    unfold ConnectClientUnlocked. simpl. rewrite lookup_insert_eq. simpl.
    assert (forall k s, clerks cfg !! k = Some s -> s <> name) as Hne.
    { intros k s Hk ->. destruct (h2 _ _ Hk) as [[x Hx] _]. congruence. }
    split; simpl.
    + done.
    + unfold is_enabled, connection. simpl. intros k s [[<- <-]|[_ Hk]]%lookup_insert_Some; [by rewrite !lookup_insert_eq|].
      pose proof (Hne _ _ Hk). rewrite !lookup_insert_ne by congruence. by apply (h2 k).
    + intros k k' s [[<- <-]|[_ Hk]]%lookup_insert_Some [[<- E]|[_ Hk']]%lookup_insert_Some; try done; [|..|by eapply h3].
      * by destruct (Hne _ _ Hk').
      * by destruct (Hne _ _ Hk).
    + intros k s [[<- <-]|[_ Hk]]%lookup_insert_Some; [split; [lia|done]|]. destruct (h4 _ _ Hk). split; [lia|done].
  - unfold deleteClient, DeleteEnd in Hr. destruct (ends (net cfg) !! _) eqn:He; [|done]. injection Hr as <-.
    split; simpl; [done|..].
    + intros k s Hk. pose proof (lookup_delete_Some (clerks cfg) ck k s) as [Hd _]. destruct (Hd Hk) as [Hne Hk'].
      destruct (decide (s = default ""%string (clerks cfg !! ck))) as [Heq|Hs].
      * exfalso. destruct (clerks cfg !! ck) as [v|] eqn:Ev; simpl in Heq.
        -- subst. apply Hne. by eapply h3.
        -- by destruct (h4 _ _ Hk').
      * unfold is_enabled, connection. simpl. rewrite !lookup_delete_ne by congruence. by apply (h2 k).
    + intros k k' s [_ Hk]%lookup_delete_Some [_ Hk']%lookup_delete_Some. by eapply h3.
    + intros k s [_ Hk]%lookup_delete_Some. by eapply h4.
  - injection Hr as <-. unfold ConnectClient, ConnectClientUnlocked. split; simpl; try done.
    intros k s Hk. destruct (h2 k s Hk) as (A & B & C). unfold is_enabled. simpl. split_and!; [done| |done].
    destruct (decide (IStr s = IStr (default ""%string (clerks cfg !! ck)))) as [->|Hne]; [by rewrite lookup_insert_eq|].
    by rewrite lookup_insert_ne by congruence.
Qed.
