(* ===== verification/KVRaft.v ===== *)
(** The replicated key/value service: [src/src/kvraft/server.go], [client.go]
    and [common.go].

    A server is a [KVServer]: the database, the table of the last request of
    every client, and the channels on which RPC handlers wait for the applier.
    A Go channel is an address ([nat]) into the heap of buffers [chans], so that
    a handler keeps its channel after the map entry is deleted, as in the code.
    The handlers [Get] and [PutAppend] release the mutex between their phases;
    each phase is one atomic step, named by a [PC].  The applier processes one
    message per step.  [Panic] is a Go run-time panic, [Block] a channel
    operation that cannot proceed. *)

From S2P Require Import Prelude Gob Persister RaftTypes RaftApi.
Local Open Scope Z_scope.

(** * common.go *)

Definition OK : string := "OK".
Definition ErrNoKey : string := "ErrNoKey".
Definition ErrWrongLeader : string := "ErrWrongLeader".

Record PutAppendArgs := mkPutAppendArgs {
  paKey : string; paValue : string; paOp : string; paRequestId : Z; paClientId : Z }.
Record PutAppendReply := mkPutAppendReply { parErr : string }.
Record GetArgs := mkGetArgs { gKey : string; gRequestId : Z; gClientId : Z }.
Record GetReply := mkGetReply { grErr : string; grValue : string }.

(** * server.go *)

Record Op := mkOp {
  ClientId : Z; RequestId : Z; OpType : string; Key : string; Value : string }.

#[export] Instance Op_eq_dec : EqDecision Op.
Proof. solve_decision. Defined.
#[export] Instance Op_countable : Countable Op.
Proof.
  apply (inj_countable' (fun o => (ClientId o, RequestId o, OpType o, Key o, Value o))
           (fun '(c, r, t, k, v) => mkOp c r t k v)).
  by intros [].
Defined.

Definition set_Value (v : string) (o : Op) : Op :=
  mkOp (ClientId o) (RequestId o) (OpType o) (Key o) v.

Abbreviation kvmap := (gmap string string).
Abbreviation reqmap := (gmap Z Z).

Record KVServer (R : Type) := mkKVServer {
  me : Z;
  rf : R;
  dead : Z;
  maxraftstate : Z;
  KVDB : kvmap;
  waitChMap : gmap Z nat;
  LastRequestMap : reqmap;
  lastIncludedIndex : Z;
  chans : gmap nat (list Op);
  nextChan : nat
}.
Arguments mkKVServer {R}.
Arguments me {R}. Arguments rf {R}. Arguments dead {R}. Arguments maxraftstate {R}.
Arguments KVDB {R}. Arguments waitChMap {R}. Arguments LastRequestMap {R}.
Arguments lastIncludedIndex {R}. Arguments chans {R}. Arguments nextChan {R}.

(** Field assignments; [set_db] assigns the two replicated fields. *)
Definition set_rf {R} (x : R) (kv : KVServer R) : KVServer R :=
  mkKVServer (me kv) x (dead kv) (maxraftstate kv) (KVDB kv) (waitChMap kv)
    (LastRequestMap kv) (lastIncludedIndex kv) (chans kv) (nextChan kv).
Definition set_dead {R} (x : Z) (kv : KVServer R) : KVServer R :=
  mkKVServer (me kv) (rf kv) x (maxraftstate kv) (KVDB kv) (waitChMap kv)
    (LastRequestMap kv) (lastIncludedIndex kv) (chans kv) (nextChan kv).
Definition set_db {R} (db : kvmap) (lr : reqmap) (kv : KVServer R) : KVServer R :=
  mkKVServer (me kv) (rf kv) (dead kv) (maxraftstate kv) db (waitChMap kv)
    lr (lastIncludedIndex kv) (chans kv) (nextChan kv).
Definition set_waitChMap {R} (x : gmap Z nat) (kv : KVServer R) : KVServer R :=
  mkKVServer (me kv) (rf kv) (dead kv) (maxraftstate kv) (KVDB kv) x
    (LastRequestMap kv) (lastIncludedIndex kv) (chans kv) (nextChan kv).
Definition set_lastIncludedIndex {R} (x : Z) (kv : KVServer R) : KVServer R :=
  mkKVServer (me kv) (rf kv) (dead kv) (maxraftstate kv) (KVDB kv) (waitChMap kv)
    (LastRequestMap kv) x (chans kv) (nextChan kv).
Definition set_chans {R} (x : gmap nat (list Op)) (n : nat) (kv : KVServer R) : KVServer R :=
  mkKVServer (me kv) (rf kv) (dead kv) (maxraftstate kv) (KVDB kv) (waitChMap kv)
    (LastRequestMap kv) (lastIncludedIndex kv) x n.

(** [m[k]] on a string map: the zero value when the key is absent. *)
Definition map_get (m : kvmap) (k : string) : string := default "" (m !! k).

(** [make(chan *Op, 1)] *)
Definition make_chan {R} (kv : KVServer R) : nat * KVServer R :=
  (nextChan kv, set_chans (<[nextChan kv := []]> (chans kv)) (S (nextChan kv)) kv).

(** [ch <- op] on a channel of capacity 1. *)
Definition send_chan {R} (ch : nat) (op : Op) (kv : KVServer R) : Go (KVServer R) :=
  match chans kv !! ch with
  | Some [] => Ret (set_chans (<[ch := [op]]> (chans kv)) (nextChan kv) kv)
  | Some _ => Block
  | None => Block
  end.

(** [<-ch] *)
Definition recv_chan {R} (ch : nat) (kv : KVServer R) : Go (Op * KVServer R) :=
  match chans kv !! ch with
  | Some (op :: l) => Ret (op, set_chans (<[ch := l]> (chans kv)) (nextChan kv) kv)
  | _ => Block
  end.

(** The replicated state machine on its two fields. *)
Definition isInvalidRequest (clientId requestId : Z) (lr : reqmap) : bool :=
  match lr !! clientId with
  | Some lastRequestId => bool_decide (requestId <= lastRequestId)
  | None => false
  end.

Definition UpdateLastRequest (op : Op) (lr : reqmap) : reqmap :=
  match lr !! ClientId op with
  | Some lastRequestId =>
      if decide (lastRequestId < RequestId op)
      then <[ClientId op := RequestId op]> lr else lr
  | None => <[ClientId op := RequestId op]> lr
  end.

(** [execute(op)]: the new fields and the operation with its [Value] filled in. *)
Definition execute (op : Op) (db : kvmap) (lr : reqmap) : Op * kvmap * reqmap :=
  if decide (OpType op <> "Get" /\ isInvalidRequest (ClientId op) (RequestId op) lr = true)
  then (op, db, lr) else
  let '(op, db) :=
    if decide (OpType op = "Get") then (set_Value (map_get db (Key op)) op, db)
    else if decide (OpType op = "Put") then (op, <[Key op := Value op]> db)
    else if decide (OpType op = "Append") then
      let str := map_get db (Key op) in
      (op, <[Key op := (str +:+ Value op)%string]> db)
    else (op, db) in
  (op, db, UpdateLastRequest op lr).

Section server.
Context {R : Type} `{RaftApi R Op} `{Gob kvmap} `{Gob reqmap}.
Implicit Types (kv : KVServer R).

Definition killed kv : bool := bool_decide (dead kv = 1).
Definition Kill kv : KVServer R := set_rf (rf_Kill (rf kv)) (set_dead 1 kv).

Definition encodeState kv : bytes :=
  gob_encode (KVDB kv) ++ gob_encode (LastRequestMap kv).

Definition readPersist (data : bytes) kv : KVServer R :=
  if decide (zlen data < 1) then kv else
  match '(kvdb, r) ← gob_decode (A := kvmap) data;
        '(lr, _) ← gob_decode (A := reqmap) r; Some (kvdb, lr) with
  | None => kv
  | Some (kvdb, lastRequestMap) => set_db kvdb lastRequestMap kv
  end.

Definition notifyWaitCh (index : Z) (op : Op) kv : Go (KVServer R) :=
  match waitChMap kv !! index with
  | Some waitCh => send_chan waitCh op kv
  | None => Ret kv
  end.

(** One iteration of [applier], from the receipt of [applyMsg] on. *)
Definition applier (applyMsg : ApplyMsg Op) kv : Go (KVServer R) :=
  if CommandValid applyMsg then
    if decide (CommandIndex applyMsg <= lastIncludedIndex kv) then Ret kv else
    op ← of_opt (amCommand applyMsg);
    let '(op, db, lr) := execute op (KVDB kv) (LastRequestMap kv) in
    let kv := set_db db lr kv in
    let '(currentTerm, isLeader) := rf_GetState (rf kv) in
    kv ← (if decide (isLeader = true /\ CommandTerm applyMsg = currentTerm)
          then notifyWaitCh (CommandIndex applyMsg) op kv else Ret kv);
    kv ← (if decide (maxraftstate kv <> -1 /\
                     maxraftstate kv <= RaftStateSize (rf_persister (rf kv)))
          then r ← of_opt (rf_Snapshot (CommandIndex applyMsg) (encodeState kv) (rf kv));
               Ret (set_rf r kv)
          else Ret kv);
    Ret (set_lastIncludedIndex (CommandIndex applyMsg) kv)
  else if SnapshotValid applyMsg then
    if decide (SnapshotIndex applyMsg <= lastIncludedIndex kv) then Ret kv else
    let kv := readPersist (amSnapshot applyMsg) kv in
    Ret (set_lastIncludedIndex (CommandIndex applyMsg) kv)
  else Ret kv.

(** The loop of [applier] on the messages the channel delivers in turn. *)
Fixpoint applier_loop (msgs : list (ApplyMsg Op)) kv : Go (KVServer R) :=
  match msgs with
  | [] => Ret kv
  | applyMsg :: msgs =>
      if killed kv then Ret kv else
      kv ← applier applyMsg kv; applier_loop msgs kv
  end.

(** * RPC handlers *)

(** Where a handler is: before [rf.Start], before it registers its channel,
    waiting, between the receive and [rf.GetState], before it deletes its map
    entry, returned.  The reply is [(Err, Value)]. *)
Inductive PC :=
| PStart
| PRegister (index term : Z)
| PWait (index term : Z) (ch : nat)
| PGetState (index term : Z) (res : Op)
| PDelete (index : Z) (reply : string * string)
| PDone (reply : string * string).

(** [waitChan, exist := kv.waitChMap[index]; if !exist { ... }] *)
Definition register (index : Z) kv : nat * KVServer R :=
  match waitChMap kv !! index with
  | Some waitChan => (waitChan, kv)
  | None =>
      let '(waitChan, kv) := make_chan kv in
      (waitChan, set_waitChMap (<[index := waitChan]> (waitChMap kv)) kv)
  end.

(** A step of [Get].  [timeout] says whether [time.After] fires first in the
    [select]. *)
Definition Get (args : GetArgs) (timeout : bool) (pc : PC) kv : Go (PC * KVServer R) :=
  match pc with
  | PStart =>
      let op := mkOp (gClientId args) (gRequestId args) "Get" (gKey args) "" in
      '(r, (index, term, isLeader)) ← of_opt (rf_Start op (rf kv));
      let kv := set_rf r kv in
      if (isLeader : bool) then Ret (PRegister index term, kv)
      else Ret (PDone (ErrWrongLeader, ""), kv)
  | PRegister index term =>
      let '(waitChan, kv) := register index kv in Ret (PWait index term waitChan, kv)
  | PWait index term waitChan =>
      if timeout then Ret (PDelete index (ErrWrongLeader, ""), kv) else
      '(res, kv) ← recv_chan waitChan kv;
      Ret (PGetState index term res, kv)
  | PGetState index term res =>
      let '(currentTerm, stillLeader) := rf_GetState (rf kv) in
      Ret (PDelete index
             (if decide (stillLeader = false \/ term <> currentTerm)
              then ErrWrongLeader else OK, Value res), kv)
  | PDelete index reply =>
      Ret (PDone reply, set_waitChMap (delete index (waitChMap kv)) kv)
  | PDone reply => Ret (PDone reply, kv)
  end.

(** A step of [PutAppend]; the duplicate check and [rf.Start] are two critical
    sections ([PCheck] is [None]). *)
Definition PutAppend (args : PutAppendArgs) (timeout : bool) (pc : option PC) kv :
  Go (option PC * KVServer R) :=
  match pc with
  | None =>
      if isInvalidRequest (paClientId args) (paRequestId args) (LastRequestMap kv)
      then Ret (Some (PDone (OK, "")), kv) else Ret (Some PStart, kv)
  | Some PStart =>
      let op := mkOp (paClientId args) (paRequestId args) (paOp args) (paKey args)
                  (paValue args) in
      '(r, (index, term, isLeader)) ← of_opt (rf_Start op (rf kv));
      let kv := set_rf r kv in
      if (isLeader : bool) then Ret (Some (PRegister index term), kv)
      else Ret (Some (PDone (ErrWrongLeader, "")), kv)
  | Some (PRegister index term) =>
      let '(waitChan, kv) := register index kv in
      Ret (Some (PWait index term waitChan), kv)
  | Some (PWait index term waitChan) =>
      if timeout then Ret (Some (PDelete index (ErrWrongLeader, "")), kv) else
      '(res, kv) ← recv_chan waitChan kv;
      Ret (Some (PGetState index term res), kv)
  | Some (PGetState index term res) =>
      let '(currentTerm, stillLeader) := rf_GetState (rf kv) in
      Ret (Some (PDelete index
             (if decide (stillLeader = false \/ currentTerm <> term)
              then ErrWrongLeader else OK, "")), kv)
  | Some (PDelete index reply) =>
      Ret (Some (PDone reply), set_waitChMap (delete index (waitChMap kv)) kv)
  | Some (PDone reply) => Ret (Some (PDone reply), kv)
  end.

(** [StartKVServer], with the Raft peer [raft.Make] returned. *)
Definition StartKVServer (self : Z) (r : R) (maxraftstate : Z) : KVServer R :=
  let kv := mkKVServer self r 0 maxraftstate ∅ ∅ ∅ 0 ∅ O in
  readPersist (ReadSnapshot (rf_persister (rf kv))) kv.
End server.

(** * client.go *)

Record Clerk := mkClerk {
  servers : nat; ckClientId : Z; ckRequestId : Z; LeaderId : Z }.

Definition set_LeaderId (x : Z) (ck : Clerk) : Clerk :=
  mkClerk (servers ck) (ckClientId ck) (ckRequestId ck) x.
Definition set_ckRequestId (x : Z) (ck : Clerk) : Clerk :=
  mkClerk (servers ck) (ckClientId ck) x (LeaderId ck).

(** [nrand()]: [rnd] is the value [rand.Int] drew below the bound. *)
Definition nrand_max : Z := Z.shiftl 1 62.
Definition nrand (rnd : Z) : Z := rnd mod nrand_max.

Definition MakeClerk (nservers : nat) (rnd : Z) : Clerk :=
  mkClerk nservers (nrand rnd) 0 0.

(** [ck.LeaderId = (ck.LeaderId + 1) % len(ck.servers)] *)
Definition next_leader (ck : Clerk) : Clerk :=
  set_LeaderId (Z.rem (LeaderId ck + 1) (Z.of_nat (servers ck))) ck.

(** The retry loops.  [call n i args] is the outcome of the [n]-th RPC, sent to
    server [i]: [None] is a failed call.  The loop of the source is unbounded;
    [fuel] bounds the number of RPCs and the outer [option] is [None] when it
    runs out.  The inner [option] is an index out of range of [ck.servers]. *)
Section clerk.
Context (get_call : nat -> Z -> GetArgs -> option GetReply).
Context (put_call : nat -> Z -> PutAppendArgs -> option PutAppendReply).

Fixpoint Get_loop (fuel n : nat) (args : GetArgs) (ck : Clerk) :
  option (option (string * Clerk)) :=
  match fuel with
  | O => None
  | S fuel =>
      if decide (0 <= LeaderId ck < Z.of_nat (servers ck)) then
        match get_call n (LeaderId ck) args with
        | Some reply =>
            if decide (grErr reply = ErrWrongLeader) then
              Get_loop fuel (S n) args (next_leader ck)
            else if decide (grErr reply = ErrNoKey \/ grErr reply = OK) then
              Some (Some (grValue reply, set_ckRequestId (wrap64 (ckRequestId ck + 1)) ck))
            else Get_loop fuel (S n) args ck
        | None => Get_loop fuel (S n) args (next_leader ck)
        end
      else Some None
  end.

Definition Clerk_Get (fuel : nat) (key : string) (ck : Clerk) :
  option (option (string * Clerk)) :=
  Get_loop fuel 0 (mkGetArgs key (ckRequestId ck) (ckClientId ck)) ck.

Fixpoint PutAppend_loop (fuel n : nat) (args : PutAppendArgs) (ck : Clerk) :
  option (option Clerk) :=
  match fuel with
  | O => None
  | S fuel =>
      if decide (0 <= LeaderId ck < Z.of_nat (servers ck)) then
        match put_call n (LeaderId ck) args with
        | Some reply =>
            if decide (parErr reply = ErrWrongLeader) then
              PutAppend_loop fuel (S n) args (next_leader ck)
            else if decide (parErr reply = ErrNoKey \/ parErr reply = OK) then
              Some (Some (set_ckRequestId (wrap64 (ckRequestId ck + 1)) ck))
            else PutAppend_loop fuel (S n) args ck
        | None => PutAppend_loop fuel (S n) args (next_leader ck)
        end
      else Some None
  end.

Definition Clerk_PutAppend (fuel : nat) (key value op : string) (ck : Clerk) :
  option (option Clerk) :=
  PutAppend_loop fuel 0 (mkPutAppendArgs key value op (ckRequestId ck) (ckClientId ck)) ck.

Definition Clerk_Put (fuel : nat) (key value : string) : Clerk -> option (option Clerk) :=
  Clerk_PutAppend fuel key value "Put".
Definition Clerk_Append (fuel : nat) (key value : string) : Clerk -> option (option Clerk) :=
  Clerk_PutAppend fuel key value "Append".
End clerk.
