(* ===== verification/KVRaftSpec.v ===== *)
(** Correctness of the replicated key/value service on one server.

    [exec_log] is the abstract state machine: the two replicated fields after a
    sequence of operations.  The theorems show that duplicates in the log take
    effect once, that the applier computes [exec_log] of the log prefix it has
    received whatever mix of commands, redelivered commands and snapshots Raft
    sends, that a snapshot restores what it saved, and that a clerk's retry loop
    returns. *)

From S2P Require Import Prelude Gob Persister RaftTypes RaftApi KVRaft.
Local Open Scope Z_scope.

(** * The abstract state machine *)

Abbreviation kvstate := (kvmap * reqmap)%type.

Definition sm_step (s : kvstate) (op : Op) : kvstate :=
  let '(_, db, lr) := execute op (fst s) (snd s) in (db, lr).

Definition exec_log (ops : list Op) : kvstate := foldl sm_step (∅, ∅) ops.

(** The effect of an operation on the database, duplicates not considered. *)
Definition effect_on (db : kvmap) (op : Op) : kvmap :=
  if decide (OpType op = "Put") then <[Key op := Value op]> db
  else if decide (OpType op = "Append")
  then <[Key op := (map_get db (Key op) +:+ Value op)%string]> db
  else db.

Definition same_request (a b : Op) : Prop :=
  ClientId a = ClientId b /\ RequestId a = RequestId b.
#[export] Instance same_request_dec a b : Decision (same_request a b).
Proof. unfold same_request. apply _. Defined.

(** The log without the operations that repeat an earlier request. *)
Definition first_requests (ops : list Op) : list Op :=
  foldl (fun acc op => if decide (Exists (same_request op) acc) then acc else acc ++ [op])
    [] ops.

(** What a clerk guarantees: it numbers its requests and starts one only when
    the previous one has been answered, so a request enters the log for the
    first time after all the smaller numbers of its client. *)
Definition clerk_order (ops : list Op) : Prop :=
  forall pre op post, ops = pre ++ op :: post ->
    Forall (fun o => ~ same_request op o) pre ->
    Forall (fun o => ClientId o = ClientId op -> RequestId o < RequestId op) pre.

(** * Lemmas on one operation *)

Lemma UpdateLastRequest_lookup op lr c :
  UpdateLastRequest op lr !! c =
  if decide (c = ClientId op)
  then Some (match lr !! c with Some r => Z.max r (RequestId op) | None => RequestId op end)
  else lr !! c.
Proof.
  unfold UpdateLastRequest. destruct (decide (c = ClientId op)) as [->|Hne].
  - destruct (lr !! ClientId op) as [r|] eqn:E; [case_decide|].
    + rewrite lookup_insert_eq. f_equal. lia.
    + rewrite E. f_equal. lia.
    + by rewrite lookup_insert_eq.
  - destruct (lr !! ClientId op); [case_decide|]; rewrite ?lookup_insert_ne; done.
Qed.

(** A request the table already covers changes nothing. *)
Lemma sm_step_covered s op :
  isInvalidRequest (ClientId op) (RequestId op) (snd s) = true -> sm_step s op = s.
Proof.
  destruct s as [db lr]. simpl. intros Hinv. unfold sm_step, execute. simpl.
  rewrite Hinv. case_decide as Hg; [done|].
  assert (OpType op = "Get") as Ht.
  { destruct (decide (OpType op = "Get")); [done|]. exfalso. auto. }
  rewrite decide_True by done. f_equal. apply map_eq. intros c.
  rewrite UpdateLastRequest_lookup. simpl. case_decide as Hc; [|done].
  subst c. unfold isInvalidRequest in Hinv.
  destruct (lr !! ClientId op) as [r|] eqn:E; [|done].
  apply bool_decide_eq_true in Hinv. f_equal. lia.
Qed.

(** A new request takes effect and is recorded. *)
Lemma sm_step_fresh s op :
  isInvalidRequest (ClientId op) (RequestId op) (snd s) = false ->
  sm_step s op = (effect_on (fst s) op, UpdateLastRequest op (snd s)).
Proof.
  destruct s as [db lr]. simpl. intros Hinv. unfold sm_step, execute, effect_on. simpl.
  rewrite Hinv. rewrite decide_False by (by intros [_ ?]).
  destruct (decide (OpType op = "Get")) as [Hg|Hg].
  { rewrite Hg. simpl. f_equal. }
  repeat case_decide; done.
Qed.

(** The table entry after one step, whatever the operation. *)
Lemma sm_step_last s op c :
  snd (sm_step s op) !! c =
  if decide (c = ClientId op)
  then Some (match snd s !! c with Some r => Z.max r (RequestId op) | None => RequestId op end)
  else snd s !! c.
Proof.
  destruct (isInvalidRequest (ClientId op) (RequestId op) (snd s)) eqn:Hinv.
  - rewrite sm_step_covered by done. case_decide as Hc; [subst c|done].
    unfold isInvalidRequest in Hinv. destruct (snd s !! ClientId op); [|done].
    apply bool_decide_eq_true in Hinv. f_equal. lia.
  - rewrite sm_step_fresh by done. simpl. apply UpdateLastRequest_lookup.
Qed.

(** A client's entry never decreases. *)
Lemma sm_step_last_mono s op c r :
  snd s !! c = Some r -> exists r', snd (sm_step s op) !! c = Some r' /\ r <= r'.
Proof.
  intros Hr. rewrite sm_step_last, Hr. case_decide; eexists; (split; [done|]); lia.
Qed.

(** The table of [exec_log] covers exactly the requests of the log up to a
    client's largest number. *)
Lemma exec_log_snoc ops op : exec_log (ops ++ [op]) = sm_step (exec_log ops) op.
Proof. unfold exec_log. by rewrite foldl_app. Qed.

Lemma exec_log_covers ops o :
  o ∈ ops -> isInvalidRequest (ClientId o) (RequestId o) (snd (exec_log ops)) = true.
Proof.
  induction ops as [|op ops IH] using rev_ind; [by intros ?%not_elem_of_nil|].
  rewrite exec_log_snoc. unfold isInvalidRequest in *. rewrite sm_step_last.
  intros [Hin| ->%list_elem_of_singleton]%elem_of_app.
  - specialize (IH Hin). destruct (snd (exec_log ops) !! ClientId o) as [r|]; [|done].
    apply bool_decide_eq_true in IH. case_decide; apply bool_decide_eq_true; lia.
  - rewrite decide_True by done. apply bool_decide_eq_true.
    destruct (snd (exec_log ops) !! ClientId op); lia.
Qed.

Lemma exec_log_last ops c r :
  snd (exec_log ops) !! c = Some r ->
  (exists o, o ∈ ops /\ ClientId o = c /\ RequestId o = r) /\
  (forall o, o ∈ ops -> ClientId o = c -> RequestId o <= r).
Proof.
  intros Hr. split.
  - revert r Hr. induction ops as [|op ops IH] using rev_ind; intros r; [done|].
    rewrite exec_log_snoc, sm_step_last. case_decide as Hc.
    + subst c. intros [= <-]. destruct (snd (exec_log ops) !! ClientId op) as [r0|] eqn:E.
      * destruct (IH r0 eq_refl) as (o & Hin & Hoc & Hor).
        destruct (Z.max_spec r0 (RequestId op)) as [[_ ->]|[_ ->]];
          [exists op|exists o]; set_solver.
      * exists op; set_solver.
    + intros (o & Hin & Hoc & Hor)%IH. exists o; set_solver.
  - intros o Hin%exec_log_covers Hc. unfold isInvalidRequest in Hin.
    rewrite Hc, Hr in Hin. by apply bool_decide_eq_true in Hin.
Qed.

(** * Duplicates *)

Lemma first_requests_snoc ops op :
  first_requests (ops ++ [op]) =
  if decide (Exists (same_request op) (first_requests ops))
  then first_requests ops else first_requests ops ++ [op].
Proof. unfold first_requests. by rewrite foldl_app. Qed.

Lemma first_requests_Exists ops op :
  Exists (same_request op) (first_requests ops) <-> Exists (same_request op) ops.
Proof.
  induction ops as [|o ops IH] using rev_ind; [done|].
  rewrite first_requests_snoc, Exists_app, <- IH.
  case_decide as Hd; rewrite ?Exists_app; [|done].
  split; [by left|]. intros [?|Ho]; [done|].
  rewrite Exists_exists in Hd |- *. destruct Hd as (x & Hx & Hs).
  apply Exists_cons in Ho as [Ho|Ho%Exists_nil]; [|done].
  exists x. split; [done|]. destruct Ho, Hs. split; congruence.
Qed.

Lemma first_requests_NoDup ops :
  NoDup (map (fun o => (ClientId o, RequestId o)) (first_requests ops)).
Proof.
  induction ops as [|o ops IH] using rev_ind; [constructor|].
  rewrite first_requests_snoc. case_decide as Hd; [done|].
  rewrite map_app. apply NoDup_app. split; [done|]. split; [|apply NoDup_singleton].
  intros x Hx ->%list_elem_of_singleton. apply Hd.
  apply list_elem_of_fmap in Hx as (o' & [= Hc Hr] & Hin).
  apply Exists_exists. by exists o'.
Qed.

Lemma clerk_order_snoc ops op : clerk_order (ops ++ [op]) -> clerk_order ops.
Proof.
  intros H pre o post ->. apply (H pre o (post ++ [op])). by rewrite <- app_assoc.
Qed.

(** A request above all earlier ones of its client is new. *)
Lemma exec_log_fresh ops op : Forall (fun o => ClientId o = ClientId op -> RequestId o < RequestId op) ops ->
  isInvalidRequest (ClientId op) (RequestId op) (snd (exec_log ops)) = false.
Proof.
  intros Hlt. unfold isInvalidRequest. destruct (snd (exec_log ops) !! _) as [r|] eqn:E; [|done].
  apply bool_decide_eq_false. apply exec_log_last in E as [(o & Hin & Hc & <-) _].
  rewrite Forall_forall in Hlt. specialize (Hlt o Hin Hc). lia.
Qed.

Lemma exec_log_exactly_once ops :
  clerk_order ops -> fst (exec_log ops) = foldl effect_on ∅ (first_requests ops).
Proof.
  induction ops as [|op ops IH] using rev_ind; [done|]. intros Hord.
  specialize (IH (clerk_order_snoc _ _ Hord)). rewrite exec_log_snoc, first_requests_snoc.
  case_decide as Hd; rewrite first_requests_Exists in Hd.
  - rewrite sm_step_covered; [done|].
    apply Exists_exists in Hd as (o & Hin & [-> ->]). by apply exec_log_covers.
  - rewrite sm_step_fresh; [by rewrite foldl_app, IH|]. apply exec_log_fresh.
    apply (Hord ops op []); [done|]. apply Forall_forall. intros o' Hin' Hs. apply Hd, Exists_exists. eauto.
Qed.

(** C24. Exactly once: when clerks number their requests in order, so that the log
    has no request of a clerk for the first time after a later one ([clerk_order]), a log
    in which requests are repeated arbitrarily (retries after timeouts and leader
    changes) leaves the database that applying every distinct request once, at
    its first position, leaves. *)
Theorem kv_exactly_once ops :
  clerk_order ops ->
  fst (exec_log ops) = foldl effect_on ∅ (first_requests ops) /\
  NoDup (map (fun o => (ClientId o, RequestId o)) (first_requests ops)) /\
  (forall op, op ∈ ops -> Exists (same_request op) (first_requests ops)).
Proof.
  intros Hord. split; [by apply exec_log_exactly_once|].
  split; [apply first_requests_NoDup|].
  intros op Hin. apply first_requests_Exists, Exists_exists. by exists op.
Qed.

(** * The applier *)

Definition cmd_msg (i t : Z) (op : Op) : ApplyMsg Op :=
  mkApplyMsg true (Some op) i t false [] 0 0.
Definition snap_msg (j t : Z) (data : bytes) : ApplyMsg Op :=
  mkApplyMsg false None 0 0 true data t j.

Section replica.
Context {R : Type} `{RaftApiLaws R Op} `{GobLaws kvmap} `{GobLaws reqmap}.
Implicit Types (kv : KVServer R).

Definition db_state kv : kvstate := (KVDB kv, LastRequestMap kv).

(** What [readPersist] reads from a snapshot. *)
Definition decode_snapshot (data : bytes) : option kvstate :=
  '(kvdb, r) ← gob_decode (A := kvmap) data;
  '(lr, _) ← gob_decode (A := reqmap) r; Some (kvdb, lr).

Lemma encodeState_decodes kv :
  decode_snapshot (encodeState kv) = Some (db_state kv) /\ 0 < zlen (encodeState kv).
Proof.
  unfold decode_snapshot, encodeState. split.
  - rewrite gob_roundtrip. simpl. by rewrite gob_roundtrip_nil.
  - rewrite zlen_app. pose proof (zlen_nonneg (gob_encode (LastRequestMap kv))).
    pose proof (zlen_pos (gob_encode (KVDB kv)) (gob_nonempty _)). lia.
Qed.

Lemma readPersist_decodes data s kv :
  0 < zlen data -> decode_snapshot data = Some s ->
  readPersist data kv = set_db (fst s) (snd s) kv.
Proof.
  intros Hlen Hd. unfold readPersist. rewrite decide_False by lia.
  unfold decode_snapshot in Hd. rewrite Hd. by destruct s.
Qed.

(** The buffers after the applier has processed command [i]: a leader in the
    entry's term puts the result on the channel registered for [i]. *)
Definition notifies (t : Z) kv : bool :=
  bool_decide (snd (rf_GetState (rf kv)) = true /\ t = fst (rf_GetState (rf kv))).
Definition result_of (op : Op) kv : Op := (execute op (KVDB kv) (LastRequestMap kv)).1.1.
Definition chans_after (i t : Z) (op : Op) kv : gmap nat (list Op) :=
  match waitChMap kv !! i with
  | Some ch => if notifies t kv then <[ch := [result_of op kv]]> (chans kv) else chans kv
  | None => chans kv
  end.

(** The notification of a handler, when the channel of [i] has room. *)
Lemma notify_spec (b : bool) i op kv :
  (forall ch, waitChMap kv !! i = Some ch -> chans kv !! ch = Some []) ->
  (if b then notifyWaitCh i op kv else Ret kv) =
  Ret (set_chans (match waitChMap kv !! i with
                  | Some ch => if b then <[ch := [op]]> (chans kv) else chans kv
                  | None => chans kv
                  end) (nextChan kv) kv).
Proof.
  intros Hch. unfold notifyWaitCh, send_chan.
  destruct (waitChMap kv !! i) as [ch|] eqn:E; [rewrite (Hch _ eq_refl)|];
    destruct b; destruct kv; done.
Qed.

(** One new command: the applier returns, having made one [sm_step]. *)
Lemma applier_command kv i t op :
  rf_ok (rf kv) -> lastIncludedIndex kv < i <= rf_applied (rf kv) ->
  (forall ch, waitChMap kv !! i = Some ch -> chans kv !! ch = Some []) ->
  exists r', applier (cmd_msg i t op) kv =
    Ret (set_lastIncludedIndex i (set_chans (chans_after i t op kv) (nextChan kv)
          (set_rf r' (set_db (sm_step (db_state kv) op).1 (sm_step (db_state kv) op).2 kv)))) /\
    rf_ok r' /\ rf_GetState r' = rf_GetState (rf kv) /\ rf_applied r' = rf_applied (rf kv).
Proof.
  intros Hok Hi Hch. unfold applier. simpl. rewrite decide_False by lia.
  unfold sm_step, chans_after, result_of, notifies, db_state in *. simpl.
  destruct (execute op (KVDB kv) (LastRequestMap kv)) as [[op' db] lr]. simpl.
  destruct (rf_GetState (rf kv)) as [term ldr] eqn:Hg. simpl.
  pose proof (notify_spec (bool_decide (ldr = true /\ t = term)) i op'
                (set_db db lr kv) Hch) as Hn. simpl in Hn.
  set (cs := match waitChMap kv !! i with Some _ => _ | None => _ end) in *.
  assert (Hn' : (if decide (ldr = true /\ t = term)
      then notifyWaitCh i op' (set_db db lr kv) else Ret (set_db db lr kv)) =
      Ret (set_chans cs (nextChan kv) (set_db db lr kv))).
  { rewrite <- Hn. destruct (decide (ldr = true /\ t = term));
      [rewrite bool_decide_eq_true_2|rewrite bool_decide_eq_false_2]; done. }
  rewrite Hn'. simpl. clear Hn Hn'.
  destruct (decide (maxraftstate kv <> -1 /\ _)); simpl.
  - edestruct (rf_Snapshot_spec i) as (r' & Hs & Hok' & Hg' & Ha');
      [done|apply Hi|rewrite Hs; clear Hs].
    simpl. exists r'. rewrite Hg', Hg. done.
  - exists (rf kv). rewrite Hg. by destruct kv.
Qed.

(** A command the table already covers by its index is skipped. *)
Lemma applier_skips kv i t op :
  i <= lastIncludedIndex kv -> applier (cmd_msg i t op) kv = Ret kv.
Proof. intros. unfold applier. simpl. by rewrite decide_True. Qed.

(** A newer snapshot replaces the replicated fields; [lastIncludedIndex] takes
    the message's [CommandIndex], which is 0 in a snapshot message. *)
Lemma applier_snapshot kv j t data s :
  lastIncludedIndex kv < j -> 0 < zlen data -> decode_snapshot data = Some s ->
  applier (snap_msg j t data) kv =
    Ret (set_lastIncludedIndex 0 (set_db (fst s) (snd s) kv)).
Proof.
  intros. unfold applier. simpl. rewrite decide_False by lia.
  by erewrite readPersist_decodes.
Qed.

(** The messages a Raft peer sends to the service of log [ops], which has
    received the prefix of length [p] and the commands [seen]: the next command,
    a command of the prefix that was in flight when a snapshot overtook it, or
    a snapshot of a longer prefix. *)
Inductive delivery (ops : list Op) : Z -> gset Z -> list (ApplyMsg Op) -> Z -> Prop :=
| delivery_nil p seen : delivery ops p seen [] p
| delivery_next p seen t op ms q :
    ops.[p] = Some op -> delivery ops (p + 1) ({[p + 1]} ∪ seen) ms q ->
    delivery ops p seen (cmd_msg (p + 1) t op :: ms) q
| delivery_late p seen i t op ms q :
    i < p -> i + 1 ∉ seen -> ops.[i] = Some op -> delivery ops p ({[i + 1]} ∪ seen) ms q ->
    delivery ops p seen (cmd_msg (i + 1) t op :: ms) q
| delivery_snap p seen j t data ms q :
    p < j <= zlen ops -> 0 < zlen data ->
    decode_snapshot data = Some (exec_log (take (Z.to_nat j) ops)) ->
    delivery ops j seen ms q -> delivery ops p seen (snap_msg j t data :: ms) q.

(** Every handler's channel has room until its index has been delivered, and no
    two indices share a channel. *)
Definition chan_room (seen : gset Z) kv : Prop :=
  (forall i ch, waitChMap kv !! i = Some ch -> i ∉ seen -> chans kv !! ch = Some []) /\
  (forall i i' ch, waitChMap kv !! i = Some ch -> waitChMap kv !! i' = Some ch -> i = i').

Record follows (ops : list Op) (p : Z) (seen : gset Z) kv : Prop := {
  fol_pos : 0 <= p <= zlen ops;
  fol_last : lastIncludedIndex kv <= p;
  fol_seen : forall i, i ∈ seen -> i <= p;
  fol_db : db_state kv = exec_log (take (Z.to_nat p) ops);
  fol_room : chan_room seen kv;
  fol_ok : rf_ok (rf kv);
  fol_live : dead kv <> 1
}.

Lemma take_snoc_index (ops : list Op) p op :
  ops.[p] = Some op ->
  take (Z.to_nat (p + 1)) ops = take (Z.to_nat p) ops ++ [op].
Proof.
  intros Hop. pose proof (go_index_Some_lt _ _ _ Hop).
  rewrite go_index_lookup in Hop by lia.
  replace (Z.to_nat (p + 1)) with (S (Z.to_nat p)) by lia.
  by apply take_S_r.
Qed.

Lemma delivery_le ops p seen ms q : delivery ops p seen ms q -> p <= q.
Proof. induction 1; lia. Qed.

(** The channels keep their room when command [i] is delivered. *)
Lemma chan_room_after seen i t op kv r db lr last :
  chan_room seen kv ->
  chan_room ({[i]} ∪ seen)
    (set_lastIncludedIndex last (set_chans (chans_after i t op kv) (nextChan kv)
       (set_rf r (set_db db lr kv)))).
Proof.
  intros [Hroom Hinj]. split; simpl; [|done].
  intros i' ch' Hw Hns. assert (i' <> i /\ i' ∉ seen) as [Hne Hns'] by set_solver.
  unfold chans_after. destruct (waitChMap kv !! i) as [ch|] eqn:E; [|eauto].
  destruct (notifies t kv); [|eauto].
  rewrite lookup_insert_ne; [eauto|]. intros ->. eauto.
Qed.

(** Both ways a command can arrive: the next one, or one of the prefix. *)
Lemma follows_command ops p seen i t op kv :
  follows ops p seen kv -> i <= p -> i + 1 ∉ seen -> ops.[i] = Some op ->
  Z.max p (i + 1) <= rf_applied (rf kv) ->
  exists kv', applier (cmd_msg (i + 1) t op) kv = Ret kv' /\
    follows ops (Z.max p (i + 1)) ({[i + 1]} ∪ seen) kv' /\
    rf_applied (rf kv') = rf_applied (rf kv).
Proof.
  intros [Hp Hl Hs Hdb Hroom Hok Hd] Hi Hns Hop Happ.
  pose proof (go_index_Some_lt _ _ _ Hop) as Hlt.
  destruct (decide (i + 1 <= lastIncludedIndex kv)).
  { rewrite applier_skips by done. eexists. split; [done|]. split; [|done].
    replace (Z.max p (i + 1)) with p by lia. split; try done.
    - intros i' [->%elem_of_singleton|?]%elem_of_union; [lia|auto].
    - split; [|apply Hroom]. intros i' ch' Hw Hn. apply (proj1 Hroom i'); set_solver. }
  destruct (applier_command kv (i + 1) t op) as (r' & -> & Hok' & Hg & Ha);
    [done|lia|by intros; eapply (proj1 Hroom)|].
  eexists. split; [done|]. split; [|done]. split; simpl; try done; try lia.
  - intros i' [->%elem_of_singleton|?%Hs]%elem_of_union; lia.
  - rewrite Hdb. unfold db_state. simpl. rewrite <- surjective_pairing.
    destruct (decide (i = p)) as [->|].
    + rewrite Z.max_r by lia. rewrite (take_snoc_index _ _ _ Hop). by rewrite exec_log_snoc.
    + rewrite Z.max_l by lia. apply sm_step_covered, exec_log_covers.
      rewrite go_index_lookup in Hop by lia.
      apply (list_elem_of_lookup_2 _ (Z.to_nat i)). rewrite lookup_take_lt by lia. done.
  - by apply chan_room_after.
Qed.

Lemma follows_delivery ops p seen ms q kv :
  delivery ops p seen ms q -> follows ops p seen kv -> q <= rf_applied (rf kv) ->
  exists kv', applier_loop ms kv = Ret kv' /\
    db_state kv' = exec_log (take (Z.to_nat q) ops).
Proof.
  intros Hdel. revert kv. induction Hdel as
    [p seen|p seen t op ms q Hop Hdel IH|p seen i t op ms q Hi Hns Hop Hdel IH
    |p seen j t data ms q Hj Hlen Hdec Hdel IH]; intros kv Hf Happ;
    [by exists kv; split; [|apply Hf]|..]; pose proof (delivery_le _ _ _ _ _ Hdel).
  - simpl. unfold killed. rewrite bool_decide_eq_false_2 by apply Hf.
    destruct (follows_command ops p seen p t op kv) as (kv' & -> & Hf' & Ha); try done; try lia.
    { intros Hin%(fol_seen _ _ _ _ Hf). lia. }
    simpl. apply IH; [|lia]. by rewrite Z.max_r in Hf' by lia.
  - simpl. unfold killed. rewrite bool_decide_eq_false_2 by apply Hf.
    destruct (follows_command ops p seen i t op kv) as (kv' & -> & Hf' & Ha); try done; try lia.
    simpl. apply IH; [|lia]. by rewrite Z.max_l in Hf' by lia.
  - simpl. unfold killed. rewrite bool_decide_eq_false_2 by apply Hf.
    erewrite applier_snapshot; [|destruct Hf; lia|done|done]. simpl.
    apply IH; [|done]. destruct Hf as [Hp Hl Hs Hdb Hroom Hok Hd].
    split; simpl; try done; try lia.
    + intros i Hi%Hs. lia.
    + unfold db_state. simpl. by rewrite <- surjective_pairing.
Qed.

(** A replica follows the log: from a state that has executed a prefix of
    the log, whatever mix of next commands, commands overtaken by a snapshot
    and snapshots of longer prefixes Raft delivers, the applier returns (it
    neither panics nor blocks on a handler's channel) and the replicated state
    is that of executing the log up to the last index delivered.  In
    particular, the reset of [lastIncludedIndex] on a snapshot does no harm. *)
Theorem replica_follows_log ops p seen ms q kv :
  follows ops p seen kv -> delivery ops p seen ms q -> q <= rf_applied (rf kv) ->
  exists kv', applier_loop ms kv = Ret kv' /\
    db_state kv' = exec_log (take (Z.to_nat q) ops).
Proof. intros. eapply follows_delivery; eauto. Qed.

(** Restart: a server started on a peer whose persister holds a snapshot of
    a prefix of the log (or nothing, when the prefix is empty) catches up with
    any later delivery to the state of executing the whole log up to there. *)
Theorem restart_follows_log ops p ms q self r maxstate :
  rf_ok r -> 0 <= p <= zlen ops ->
  (p = 0 /\ ReadSnapshot (rf_persister r) = [] \/
   0 < zlen (ReadSnapshot (rf_persister r)) /\
   decode_snapshot (ReadSnapshot (rf_persister r)) = Some (exec_log (take (Z.to_nat p) ops))) ->
  delivery ops p ∅ ms q -> q <= rf_applied r ->
  exists kv', applier_loop ms (StartKVServer self r maxstate) = Ret kv' /\
    db_state kv' = exec_log (take (Z.to_nat q) ops).
Proof.
  intros Hok Hp Hsnap Hdel Hq. apply (follows_delivery _ _ _ _ _ _ Hdel).
  - unfold StartKVServer. destruct Hsnap as [[-> Hnil]|[Hlen Hdec]]; simpl.
    + rewrite Hnil. split; simpl; done || set_solver.
    + erewrite readPersist_decodes by done.
      split; simpl; try done; try lia.
      unfold db_state. simpl. by rewrite <- surjective_pairing.
  - unfold StartKVServer, readPersist. repeat case_match; done.
Qed.

(** Snapshot round trip: what [encodeState] writes, [readPersist] restores,
    in any server and with any other state. *)
Theorem kv_snapshot_roundtrip kv kv' :
  db_state (readPersist (encodeState kv) kv') = db_state kv.
Proof.
  destruct (encodeState_decodes kv) as [Hd Hl].
  by rewrite (readPersist_decodes _ _ _ Hl Hd).
Qed.
End replica.

(** * The clerk *)

(** The calls from server [l] around to server [s] in a ring of [n]. *)
Definition ring_distance (n l s : Z) : Z := if decide (l <= s) then s - l else s - l + n.

Lemma next_leader_distance n l s :
  0 <= l < n -> 0 <= s < n -> l <> s ->
  0 <= Z.rem (l + 1) n < n /\
  ring_distance n (Z.rem (l + 1) n) s = ring_distance n l s - 1.
Proof.
  intros Hl Hs Hne. rewrite Z.rem_mod_nonneg by lia. unfold ring_distance.
  destruct (decide (l + 1 = n)) as [Heq|].
  - rewrite Heq, Z.mod_same by lia. repeat case_decide; lia.
  - rewrite Z.mod_small by lia. repeat case_decide; lia.
Qed.

(** The retry loop reaches a server that answers: the loop on the [option] of
    an outcome of a call, as [Get_loop] and [PutAppend_loop] use it. *)
Section clerk_loop.
Context (get_call : nat -> Z -> GetArgs -> option GetReply).
Context (put_call : nat -> Z -> PutAppendArgs -> option PutAppendReply).

(** Servers only send the three [Err] values of common.go. *)
Definition known_err (e : string) : Prop := e = OK \/ e = ErrNoKey \/ e = ErrWrongLeader.
Definition final_err (e : string) : Prop := e = OK \/ e = ErrNoKey.

Lemma known_err_cases e :
  known_err e -> e = ErrWrongLeader \/ (e <> ErrWrongLeader /\ (e = ErrNoKey \/ e = OK)).
Proof. intros [-> |[-> | ->]]; auto. Qed.

Lemma Get_loop_returns args s fuel : forall n ck,
  0 <= LeaderId ck < Z.of_nat (servers ck) -> 0 <= s < Z.of_nat (servers ck) ->
  ring_distance (Z.of_nat (servers ck)) (LeaderId ck) s < Z.of_nat fuel ->
  (forall k i rep, get_call k i args = Some rep -> known_err (grErr rep)) ->
  (forall k, exists rep, get_call k s args = Some rep /\ final_err (grErr rep)) ->
  exists k i rep,
    get_call k i args = Some rep /\ final_err (grErr rep) /\
    0 <= i < Z.of_nat (servers ck) /\
    Get_loop get_call fuel n args ck =
      Some (Some (grValue rep, set_ckRequestId (wrap64 (ckRequestId ck + 1)) (set_LeaderId i ck))).
Proof.
  induction fuel as [|fuel IH]; intros n ck Hl Hs Hd Hk Hans.
  { unfold ring_distance in Hd. case_decide; lia. }
  simpl. rewrite (decide_True (P := 0 <= LeaderId ck < _)) by done.
  assert (Hnext : LeaderId ck <> s -> exists k i rep,
    get_call k i args = Some rep /\ final_err (grErr rep) /\
    0 <= i < Z.of_nat (servers ck) /\
    Get_loop get_call fuel (S n) args (next_leader ck) =
      Some (Some (grValue rep, set_ckRequestId (wrap64 (ckRequestId ck + 1)) (set_LeaderId i ck)))).
  { intros Hne. destruct (next_leader_distance _ _ _ Hl Hs Hne) as [Hr Hdist].
    destruct (IH (S n) (next_leader ck)) as (k & i & rep & ? & ? & ? & Hloop);
      simpl; try done; [lia|]. exists k, i, rep. rewrite Hloop. done. }
  destruct (get_call n (LeaderId ck) args) as [rep|] eqn:E.
  - destruct (known_err_cases _ (Hk _ _ _ E)) as [Hw|[Hw Hf]].
    + rewrite decide_True by done. apply Hnext. intros <-.
      destruct (Hans n) as (rep' & E' & Hfin). simplify_eq. rewrite Hw in Hfin.
      by destruct Hfin.
    + rewrite decide_False, decide_True by done. exists n, (LeaderId ck), rep.
      split; [done|]. split; [destruct Hf; [by right|by left]|]. split; [done|].
      by destruct ck.
  - apply Hnext. intros <-. destruct (Hans n) as (rep' & E' & _). congruence.
Qed.

Lemma PutAppend_loop_returns args s fuel : forall n ck,
  0 <= LeaderId ck < Z.of_nat (servers ck) -> 0 <= s < Z.of_nat (servers ck) ->
  ring_distance (Z.of_nat (servers ck)) (LeaderId ck) s < Z.of_nat fuel ->
  (forall k i rep, put_call k i args = Some rep -> known_err (parErr rep)) ->
  (forall k, exists rep, put_call k s args = Some rep /\ final_err (parErr rep)) ->
  exists k i rep,
    put_call k i args = Some rep /\ final_err (parErr rep) /\
    0 <= i < Z.of_nat (servers ck) /\
    PutAppend_loop put_call fuel n args ck =
      Some (Some (set_ckRequestId (wrap64 (ckRequestId ck + 1)) (set_LeaderId i ck))).
Proof.
  induction fuel as [|fuel IH]; intros n ck Hl Hs Hd Hk Hans.
  { unfold ring_distance in Hd. case_decide; lia. }
  simpl. rewrite (decide_True (P := 0 <= LeaderId ck < _)) by done.
  assert (Hnext : LeaderId ck <> s -> exists k i rep,
    put_call k i args = Some rep /\ final_err (parErr rep) /\
    0 <= i < Z.of_nat (servers ck) /\
    PutAppend_loop put_call fuel (S n) args (next_leader ck) =
      Some (Some (set_ckRequestId (wrap64 (ckRequestId ck + 1)) (set_LeaderId i ck)))).
  { intros Hne. destruct (next_leader_distance _ _ _ Hl Hs Hne) as [Hr Hdist].
    destruct (IH (S n) (next_leader ck)) as (k & i & rep & ? & ? & ? & Hloop);
      simpl; try done; [lia|]. exists k, i, rep. rewrite Hloop. done. }
  destruct (put_call n (LeaderId ck) args) as [rep|] eqn:E.
  - destruct (known_err_cases _ (Hk _ _ _ E)) as [Hw|[Hw Hf]].
    + rewrite decide_True by done. apply Hnext. intros <-.
      destruct (Hans n) as (rep' & E' & Hfin). simplify_eq. rewrite Hw in Hfin.
      by destruct Hfin.
    + rewrite decide_False, decide_True by done. exists n, (LeaderId ck), rep.
      split; [done|]. split; [destruct Hf; [by right|by left]|]. split; [done|].
      by destruct ck.
  - apply Hnext. intros <-. destruct (Hans n) as (rep' & E' & _). congruence.
Qed.
End clerk_loop.

(** C25. The clerk terminates: when one server answers every call with a final
    reply and the others fail, redirect or answer, [Get] and [PutAppend] return
    within one round of the servers.  The reply used is a final one to a call
    that carried this client's current request number, and the number moves on
    by one. *)
Theorem clerk_returns get_call put_call s key value op ck :
  0 <= LeaderId ck < Z.of_nat (servers ck) -> 0 <= s < Z.of_nat (servers ck) ->
  let gargs := mkGetArgs key (ckRequestId ck) (ckClientId ck) in
  let pargs := mkPutAppendArgs key value op (ckRequestId ck) (ckClientId ck) in
  (forall k i rep, get_call k i gargs = Some rep -> known_err (grErr rep)) ->
  (forall k i rep, put_call k i pargs = Some rep -> known_err (parErr rep)) ->
  (forall k, exists rep, get_call k s gargs = Some rep /\ final_err (grErr rep)) ->
  (forall k, exists rep, put_call k s pargs = Some rep /\ final_err (parErr rep)) ->
  (exists k i rep,
    get_call k i gargs = Some rep /\ final_err (grErr rep) /\
    Clerk_Get get_call (servers ck) key ck =
      Some (Some (grValue rep, set_ckRequestId (wrap64 (ckRequestId ck + 1)) (set_LeaderId i ck)))) /\
  (exists k i rep,
    put_call k i pargs = Some rep /\ final_err (parErr rep) /\
    Clerk_PutAppend put_call (servers ck) key value op ck =
      Some (Some (set_ckRequestId (wrap64 (ckRequestId ck + 1)) (set_LeaderId i ck)))).
Proof.
  intros Hl Hs gargs pargs Hkg Hkp Hg Hp.
  assert (Hd : ring_distance (Z.of_nat (servers ck)) (LeaderId ck) s < Z.of_nat (servers ck))
    by (unfold ring_distance; case_decide; lia).
  split.
  - destruct (Get_loop_returns get_call gargs s (servers ck) 0 ck)
      as (k & i & rep & ? & ? & _ & ?); eauto 6.
  - destruct (PutAppend_loop_returns put_call pargs s (servers ck) 0 ck)
      as (k & i & rep & ? & ? & _ & ?); eauto 6.
Qed.
