(* ===== verification/KVRaftSys.v ===== *)
(** The concurrency of a key/value server: RPC handlers, the applier and Raft.

    Any number of handlers run interleaved with the applier and with Raft; they
    meet in [waitChMap] and its channels.  [step] is one critical section of one
    of them.  The ghost fields record which commands were started, which results
    a leader put on a channel, and which indices were delivered; the rules'
    guards are what Raft promises: it hands out an index at most once per term,
    it delivers an index at most once, and an entry is identified by its index
    and term.  The theorems show that a handler answers [OK] only with the
    result of its own operation, and that the applier never blocks. *)

From S2P Require Import Prelude Gob Persister RaftTypes RaftApi KVRaft KVRaftSpec.
Local Open Scope Z_scope.

(** A running RPC. *)
Inductive Call :=
| CGet (args : GetArgs) (pc : PC)
| CPut (args : PutAppendArgs) (pc : option PC).

Definition call_op (c : Call) : Op :=
  match c with
  | CGet args _ => mkOp (gClientId args) (gRequestId args) "Get" (gKey args) ""
  | CPut args _ => mkOp (paClientId args) (paRequestId args) (paOp args) (paKey args) (paValue args)
  end.
Definition call_pc (c : Call) : option PC :=
  match c with CGet _ pc => Some pc | CPut _ pc => pc end.
Definition set_pc (pc : PC) (c : Call) : Call :=
  match c with CGet args _ => CGet args pc | CPut args _ => CPut args (Some pc) end.
Definition call_value (c : Call) (res : Op) : string :=
  match c with CGet _ _ => Value res | CPut _ _ => "" end.
Definition is_initial (c : Call) : bool :=
  match c with CGet _ PStart | CPut _ None => true | _ => false end.

Section sys.
Context {R : Type} `{RaftApiLaws R Op} `{Gob kvmap} `{Gob reqmap}.

Definition call_step (timeout : bool) (c : Call) (kv : KVServer R) : Go (Call * KVServer R) :=
  match c with
  | CGet args pc => '(pc, kv) ← Get args timeout pc kv; Ret (CGet args pc, kv)
  | CPut args pc => '(pc, kv) ← PutAppend args timeout pc kv; Ret (CPut args pc, kv)
  end.

Record Sys := mkSys {
  s_kv : KVServer R;
  s_calls : list Call;
  s_started : list (Z * Z * Op);
  s_notified : list (Z * Z * Op * kvmap);
  s_seen : gset Z
}.

Definition sys_init (kv : KVServer R) : Sys := mkSys kv [] [] [] ∅.

(** The command a step of [c] to [c'] hands to Raft. *)
Definition started_by (c c' : Call) : list (Z * Z * Op) :=
  match call_pc c, call_pc c' with
  | Some PStart, Some (PRegister i t) => [(i, t, call_op c)]
  | _, _ => []
  end.

Definition term_of (s : Sys) : Z := fst (rf_GetState (rf (s_kv s))).

Inductive step : Sys -> Sys -> Prop :=
| step_invoke s c :
    is_initial c = true ->
    step s (mkSys (s_kv s) (s_calls s ++ [c]) (s_started s) (s_notified s) (s_seen s))
| step_handler s k timeout c c' kv' :
    s_calls s !! k = Some c -> call_step timeout c (s_kv s) = Ret (c', kv') ->
    (forall i t op op', (i, t, op) ∈ started_by c c' -> (i, t, op') ∉ s_started s) ->
    step s (mkSys kv' (<[k := c']> (s_calls s)) (started_by c c' ++ s_started s)
              (s_notified s) (s_seen s))
| step_command s i t op kv' :
    applier (cmd_msg i t op) (s_kv s) = Ret kv' ->
    i ∉ s_seen s -> i <= rf_applied (rf (s_kv s)) ->
    (forall op', (i, t, op') ∈ s_started s -> op' = op) ->
    step s (mkSys kv' (s_calls s) (s_started s)
              (if decide (lastIncludedIndex (s_kv s) < i /\ notifies t (s_kv s) = true)
               then (i, t, op, KVDB (s_kv s)) :: s_notified s else s_notified s)
              ({[i]} ∪ s_seen s))
| step_snapshot s j t data kv' :
    applier (snap_msg j t data) (s_kv s) = Ret kv' ->
    step s (mkSys kv' (s_calls s) (s_started s) (s_notified s) (s_seen s))
| step_raft s r' :
    rf_ok r' -> term_of s <= fst (rf_GetState r') ->
    rf_applied (rf (s_kv s)) <= rf_applied r' ->
    step s (mkSys (set_rf r' (s_kv s)) (s_calls s) (s_started s) (s_notified s) (s_seen s)).

(** * The handlers' common shape *)

(** [Get] and [PutAppend] after the duplicate check. *)
Definition phase (op : Op) (val : Op -> string) (timeout : bool) (pc : PC) (kv : KVServer R) :
  Go (PC * KVServer R) :=
  match pc with
  | PStart =>
      '(r, (index, term, isLeader)) ← of_opt (rf_Start op (rf kv));
      if (isLeader : bool) then Ret (PRegister index term, set_rf r kv)
      else Ret (PDone (ErrWrongLeader, ""), set_rf r kv)
  | PRegister index term =>
      Ret (PWait index term (register index kv).1, (register index kv).2)
  | PWait index term ch =>
      if timeout then Ret (PDelete index (ErrWrongLeader, ""), kv) else
      '(res, kv) ← recv_chan ch kv; Ret (PGetState index term res, kv)
  | PGetState index term res =>
      Ret (PDelete index
        (if decide (rf_GetState (rf kv) = (term, true)) then OK else ErrWrongLeader, val res), kv)
  | PDelete index reply => Ret (PDone reply, set_waitChMap (delete index (waitChMap kv)) kv)
  | PDone reply => Ret (PDone reply, kv)
  end.

Lemma call_step_phase timeout c pc kv :
  call_pc c = Some pc ->
  call_step timeout c kv =
  '(pc', kv') ← phase (call_op c) (call_value c) timeout pc kv; Ret (set_pc pc' c, kv').
Proof.
  destruct c as [args pc0|args pc0]; simpl; intros [= ->]; destruct pc as
    [|i t|i t ch|i t res|i rep|rep]; simpl; try done.
  all: try (destruct (rf_Start _ (rf kv)) as [[? [[? ?] []]]|]; done).
  all: try (by destruct (register i kv)).
  all: try (destruct timeout; [done|]; destruct (recv_chan ch kv) as [[? ?]| |]; done).
  all: destruct (rf_GetState (rf kv)) as [ct []], (decide (ct = t)) as [->|];
    repeat case_decide; simpl; done || (exfalso; intuition congruence).
Qed.

(** The only step of a call without a phase is the duplicate check. *)
Lemma call_step_check timeout c c' kv kv' :
  call_pc c = None -> call_step timeout c kv = Ret (c', kv') ->
  kv' = kv /\ (exists args, c = CPut args None) /\
  (c' = set_pc PStart c \/ c' = set_pc (PDone (OK, "")) c).
Proof.
  destruct c as [|args pc]; [done|]. simpl. intros ->. unfold call_step, PutAppend.
  case_match; intros; go_inv; eauto.
Qed.

(** * The invariant *)

(** [cidx] is the log index a channel was created for. *)
Definition answer (n : list (Z * Z * Op * kvmap)) (i t : Z) (op res : Op) : Prop :=
  exists db lr, (i, t, op, db) ∈ n /\ res = (execute op db lr).1.1.

Definition call_inv (s : Sys) (cidx : nat -> Z) (c : Call) : Prop :=
  match call_pc c with
  | Some (PRegister i t) => (i, t, call_op c) ∈ s_started s
  | Some (PWait i t ch) =>
      (i, t, call_op c) ∈ s_started s /\ cidx ch = i /\ (ch < nextChan (s_kv s))%nat
  | Some (PGetState i t res) =>
      (i, t, call_op c) ∈ s_started s /\ exists t' op, answer (s_notified s) i t' op res
  | Some (PDelete i (e, v)) =>
      e = OK -> exists t res, answer (s_notified s) i t (call_op c) res /\ v = call_value c res
  | Some (PDone (e, v)) =>
      match c with
      | CGet _ _ => e = OK ->
          exists i t res, answer (s_notified s) i t (call_op c) res /\ v = call_value c res
      | CPut _ _ => True
      end
  | _ => True
  end.

Record sys_inv (s : Sys) (cidx : nat -> Z) : Prop := {
  si_ok : rf_ok (rf (s_kv s));
  si_seen : forall i, i ∈ s_seen s -> i <= rf_applied (rf (s_kv s));
  si_map : forall i ch, waitChMap (s_kv s) !! i = Some ch ->
    cidx ch = i /\ (ch < nextChan (s_kv s))%nat /\
    exists buf, chans (s_kv s) !! ch = Some buf /\ (i ∈ s_seen s \/ buf = []);
  si_buf : forall ch buf res, chans (s_kv s) !! ch = Some buf -> res ∈ buf ->
    exists t op, answer (s_notified s) (cidx ch) t op res;
  si_started : forall i t op, (i, t, op) ∈ s_started s -> t <= term_of s;
  si_notified : forall i t op db, (i, t, op, db) ∈ s_notified s ->
    t <= term_of s /\ i ∈ s_seen s;
  si_order : forall i t op t' op' db, (i, t, op) ∈ s_started s ->
    (i, t', op', db) ∈ s_notified s -> t <= t' /\ (t = t' -> op = op');
  si_calls : Forall (call_inv s cidx) (s_calls s)
}.

Lemma answer_mono n n' i t op res :
  (forall x, x ∈ n -> x ∈ n') -> answer n i t op res -> answer n' i t op res.
Proof. intros Hin (db & lr & Hn & Hr). exists db, lr. auto. Qed.

(** A call keeps its invariant when the histories and the heap grow. *)
Lemma call_inv_mono s s' cidx cidx' c :
  (forall x, x ∈ s_started s -> x ∈ s_started s') ->
  (forall x, x ∈ s_notified s -> x ∈ s_notified s') ->
  (nextChan (s_kv s) <= nextChan (s_kv s'))%nat ->
  (forall ch, (ch < nextChan (s_kv s))%nat -> cidx' ch = cidx ch) ->
  call_inv s cidx c -> call_inv s' cidx' c.
Proof.
  intros Hs Hn Hle Hc.  unfold call_inv.
  destruct (call_pc c) as [[|i t|i t ch|i t res|i [e v]|[e v]]|]; try done.
  - auto.
  - intros (? & ? & Hlt). rewrite Hc by done. split_and!; [auto|done|lia].
  - intros (? & t' & op & Ha). split; [auto|]. exists t', op. by eapply answer_mono.
  - intros Hans He. destruct (Hans He) as (t & res & Ha & Hv).
    exists t, res. split; [by eapply answer_mono|done].
  - destruct c; [|done]. intros Hans He. destruct (Hans He) as (i & t & res & Ha & Hv).
    exists i, t, res. split; [by eapply answer_mono|done].
Qed.

Lemma inv_set_call s cidx k c :
  sys_inv s cidx -> call_inv s cidx c ->
  sys_inv (mkSys (s_kv s) (<[k := c]> (s_calls s)) (s_started s) (s_notified s) (s_seen s)) cidx.
Proof.
  intros [] Hc. split; simpl; try done. by apply Forall_insert.
Qed.

(** ** Handlers *)

Lemma inv_start s cidx op r' i :
  sys_inv s cidx -> rf_ok r' -> rf_GetState r' = rf_GetState (rf (s_kv s)) ->
  rf_applied r' = rf_applied (rf (s_kv s)) -> rf_applied (rf (s_kv s)) < i ->
  sys_inv (mkSys (set_rf r' (s_kv s)) (s_calls s)
             ((i, term_of s, op) :: s_started s) (s_notified s) (s_seen s)) cidx.
Proof.
  intros [Hok Hseen Hmap Hbuf Hst Hnot Hord Hcalls] Hok' Hg Ha Hi.
  assert (Ht : forall l st n se, term_of (mkSys (set_rf r' (s_kv s)) l st n se) = term_of s)
    by (intros; unfold term_of; simpl; by rewrite Hg).
  split; simpl; rewrite ?Ha, ?Ht; try done.
  - intros i' t op' [[= -> -> ->]|Hin]%elem_of_cons; [lia|eauto].
  - intros i' t op' t' op'' db [[= -> -> ->]|Hin]%elem_of_cons Hn; [|eauto].
    apply Hnot in Hn as [_ Hs%Hseen]. lia.
  - eapply Forall_impl; [done|]. intros c. apply call_inv_mono; simpl; try done.
    set_solver.
Qed.

Lemma inv_register s cidx i :
  sys_inv s cidx ->
  exists cidx', sys_inv (mkSys (register i (s_kv s)).2 (s_calls s) (s_started s)
                          (s_notified s) (s_seen s)) cidx' /\
    cidx' (register i (s_kv s)).1 = i /\
    ((register i (s_kv s)).1 < nextChan (register i (s_kv s)).2)%nat.
Proof.
  intros Hinv. pose proof Hinv as [Hok Hseen Hmap Hbuf Hst Hnot Hord Hcalls].
  unfold register. destruct (waitChMap (s_kv s) !! i) as [ch|] eqn:E; simpl.
  { exists cidx. destruct (Hmap _ _ E) as (? & ? & _). by destruct s. }
  set (n := nextChan (s_kv s)). exists (fun x => if decide (x = n) then i else cidx x).
  split; [|rewrite decide_True by done; lia].
  split; simpl; try done.
  - intros i' ch. rewrite lookup_insert_Some.
    intros [[<- <-]|[Hne Hw]].
    + rewrite decide_True by done. split; [done|]. split; [lia|].
      exists []. rewrite lookup_insert_eq. auto.
    + destruct (Hmap _ _ Hw) as (? & Hlt & buf & Hb). rewrite decide_False by (subst n; lia).
      split; [done|]. split; [lia|]. exists buf. rewrite lookup_insert_ne; [done|].
      subst n. lia.
  - intros ch buf res. rewrite lookup_insert_Some. intros [[<- <-]|[Hne Hb]] Hr.
    + by apply not_elem_of_nil in Hr.
    + rewrite decide_False by done. eauto.
  - eapply Forall_impl; [done|]. intros c. apply call_inv_mono; simpl; try done.
    + lia.
    + intros ch Hlt. rewrite decide_False; [done|]. subst n. lia.
Qed.

(** Removing a result from a buffer, or an entry from the map. *)
Lemma inv_shrink s cidx w cs :
  sys_inv s cidx ->
  (forall i ch, w !! i = Some ch -> waitChMap (s_kv s) !! i = Some ch) ->
  (forall ch buf, cs !! ch = Some buf -> exists buf', chans (s_kv s) !! ch = Some buf' /\ buf ⊆ buf') ->
  (forall ch buf', chans (s_kv s) !! ch = Some buf' -> exists buf, cs !! ch = Some buf /\ buf ⊆ buf') ->
  sys_inv (mkSys (set_waitChMap w (set_chans cs (nextChan (s_kv s)) (s_kv s))) (s_calls s)
             (s_started s) (s_notified s) (s_seen s)) cidx.
Proof.
  intros [Hok Hseen Hmap Hbuf Hst Hnot Hord Hcalls] Hw Hc1 Hc2. split; simpl; try done.
  - intros i ch Hi%Hw. destruct (Hmap _ _ Hi) as (? & ? & buf' & Hb' & He).
    split; [done|]. split; [done|]. destruct (Hc2 _ _ Hb') as (buf & Hb & Hsub).
    exists buf. split; [done|]. destruct He as [?| ->]; [by left|right].
    destruct buf as [|x buf]; [done|]. specialize (Hsub x). set_solver.
  - intros ch buf res Hb Hr. destruct (Hc1 _ _ Hb) as (buf' & Hb' & Hsub). eauto.
Qed.

Lemma inv_recv s cidx ch res kv' :
  sys_inv s cidx -> recv_chan ch (s_kv s) = Ret (res, kv') ->
  sys_inv (mkSys kv' (s_calls s) (s_started s) (s_notified s) (s_seen s)) cidx /\
  exists t op, answer (s_notified s) (cidx ch) t op res.
Proof.
  intros Hinv. unfold recv_chan. destruct (chans (s_kv s) !! ch) as [[|r buf]|] eqn:E; try done.
  intros [= -> <-]. split.
  - pose proof (inv_shrink s cidx (waitChMap (s_kv s)) (<[ch := buf]> (chans (s_kv s))) Hinv)
      as Hs. destruct (s_kv s) eqn:Hkv. apply Hs; simpl in *; try done.
    + intros ch' b. rewrite lookup_insert_Some. intros [[<- <-]|[? ?]]; [|eauto].
      eexists; split; [done|]. set_solver.
    + intros ch' b Hb. destruct (decide (ch' = ch)) as [->|].
      * exists buf. rewrite lookup_insert_eq. split; [done|]. simplify_eq. set_solver.
      * exists b. by rewrite lookup_insert_ne.
  - apply (si_buf _ _ Hinv ch (res :: buf)); [done|]. set_solver.
Qed.

(** The check before the answer pins the result to the handler's own command. *)
Lemma inv_own_result s cidx i t op t' op' res :
  sys_inv s cidx -> (i, t, op) ∈ s_started s -> answer (s_notified s) i t' op' res ->
  term_of s = t -> answer (s_notified s) i t op res.
Proof.
  intros Hinv Hst (db & lr & Hn & Hr) Ht.
  destruct (si_order _ _ Hinv _ _ _ _ _ _ Hst Hn) as [Hle Heq].
  destruct (si_notified _ _ Hinv _ _ _ _ Hn) as [Hle' _].
  assert (t' = t) as -> by lia. rewrite (Heq eq_refl). by exists db, lr.
Qed.

Lemma call_inv_pc s cidx c pc :
  call_op (set_pc pc c) = call_op c /\ call_value (set_pc pc c) = call_value c /\
  call_pc (set_pc pc c) = Some pc /\
  (call_inv s cidx (set_pc pc c) <->
   match pc, c with
   | PDone _, CPut _ _ => True
   | PDone (e, v), _ => e = OK -> exists i t res,
       answer (s_notified s) i t (call_op c) res /\ v = call_value c res
   | PStart, _ => True
   | PRegister i t, _ => (i, t, call_op c) ∈ s_started s
   | PWait i t ch, _ =>
       (i, t, call_op c) ∈ s_started s /\ cidx ch = i /\ (ch < nextChan (s_kv s))%nat
   | PGetState i t res, _ =>
       (i, t, call_op c) ∈ s_started s /\ exists t' op, answer (s_notified s) i t' op res
   | PDelete i (e, v), _ => e = OK -> exists t res,
       answer (s_notified s) i t (call_op c) res /\ v = call_value c res
   end).
Proof. by destruct c, pc as [| | | |? []|[]]. Qed.

Lemma inv_phase s cidx k timeout c pc pc' kv' :
  sys_inv s cidx -> s_calls s !! k = Some c -> call_pc c = Some pc ->
  phase (call_op c) (call_value c) timeout pc (s_kv s) = Ret (pc', kv') ->
  exists cidx', sys_inv (mkSys kv' (<[k := set_pc pc' c]> (s_calls s))
    (started_by c (set_pc pc' c) ++ s_started s) (s_notified s) (s_seen s)) cidx'.
Proof.
  intros Hinv Hk Hpc Hph.
  pose proof (Forall_lookup_1 _ _ _ _ (si_calls _ _ Hinv) Hk) as Hc.
  unfold call_inv in Hc. rewrite Hpc in Hc.
  assert (Hsb : started_by c (set_pc pc' c) =
    match pc, pc' with PStart, PRegister i t => [(i, t, call_op c)] | _, _ => [] end).
  { unfold started_by. by rewrite Hpc, (proj1 (proj2 (proj2 (call_inv_pc s cidx c pc')))). }
  rewrite Hsb. clear Hsb. destruct pc as [|i t|i t ch|i t res|i [e v]|[e v]]; simpl in Hph.
  - destruct (rf_Start_spec (call_op c) (rf (s_kv s)) (si_ok _ _ Hinv))
      as (r' & i & Hs & Hok' & Hg & Ha & Hlt & Hf).
    rewrite Hs in Hph. simpl in Hph. destruct (rf_GetState (rf (s_kv s))) as [t []] eqn:E;
      simpl in *; go_inv; exists cidx.
    + specialize (Hlt eq_refl). rewrite <- E in Hg.
      pose proof (inv_start s cidx (call_op c) r' i Hinv Hok' Hg Ha Hlt) as Hinv'.
      unfold term_of in Hinv'. rewrite E in Hinv'.
      apply (inv_set_call _ _ k) with (c := set_pc (PRegister i t) c) in Hinv'; [done|].
      apply call_inv_pc. simpl. set_solver.
    + rewrite (Hf eq_refl). replace (set_rf (rf (s_kv s)) (s_kv s)) with (s_kv s)
        by (by destruct (s_kv s)).
      apply (inv_set_call s cidx k); [done|]. apply call_inv_pc. by destruct c.
  - go_inv. destruct (inv_register s cidx i Hinv) as (cidx' & Hinv' & Hi & Hlt).
    exists cidx'. simpl. apply (inv_set_call _ _ k (set_pc (PWait i t (register i (s_kv s)).1) c)) in Hinv'; [done|].
    by apply call_inv_pc.
  - exists cidx. destruct timeout; go_inv.
    + apply (inv_set_call s cidx k); [done|]. by apply call_inv_pc.
    + destruct x as [res kv1]. go_inv. destruct Hc as (Hst & Hi & Hlt).
      destruct (inv_recv _ _ _ _ _ Hinv H3) as (Hinv' & t' & op & Hans).
      apply (inv_set_call _ _ k (set_pc (PGetState i t res) c)) in Hinv'; [done|].
      apply call_inv_pc. rewrite Hi in Hans. eauto.
  - destruct Hc as (Hst & t' & op & Hans). go_inv. exists cidx.
    apply (inv_set_call s cidx k); [done|]. apply call_inv_pc.
    case_decide as Hg; [|done]. intros _. exists t, res. split; [|done].
    eapply inv_own_result; eauto. unfold term_of. by rewrite Hg.
  - go_inv. exists cidx.
    pose proof (inv_shrink s cidx (delete i (waitChMap (s_kv s))) (chans (s_kv s)) Hinv) as Hinv'.
    replace (set_chans (chans (s_kv s)) (nextChan (s_kv s)) (s_kv s)) with (s_kv s) in Hinv'
      by (by destruct (s_kv s)).
    eapply (inv_set_call _ _ k (set_pc (PDone (e, v)) c)) in Hinv'; [done|..].
    + intros i' ch [_ ?]%lookup_delete_Some. done.
    + eauto.
    + eauto.
    + apply call_inv_pc. destruct c; [|done]. intros He.
      destruct (Hc He) as (t & res & Ha & Hv). exists i, t, res. done.
  - go_inv. exists cidx. apply (inv_set_call s cidx k); [done|]. apply call_inv_pc.
    by destruct c.
Qed.

(** ** The applier and Raft *)

Lemma inv_room s cidx i ch :
  sys_inv s cidx -> i ∉ s_seen s -> waitChMap (s_kv s) !! i = Some ch ->
  chans (s_kv s) !! ch = Some [].
Proof.
  intros Hinv Hns Hw. destruct (si_map _ _ Hinv _ _ Hw) as (_ & _ & buf & Hb & [?| ->]); done.
Qed.

(** The applier returns on every command Raft may deliver. *)
Lemma inv_applier_returns s cidx i t op :
  sys_inv s cidx -> i ∉ s_seen s -> i <= rf_applied (rf (s_kv s)) ->
  applier (cmd_msg i t op) (s_kv s) = Ret (s_kv s) /\ i <= lastIncludedIndex (s_kv s) \/
  lastIncludedIndex (s_kv s) < i /\
  exists r', applier (cmd_msg i t op) (s_kv s) =
    Ret (set_lastIncludedIndex i (set_chans (chans_after i t op (s_kv s)) (nextChan (s_kv s))
          (set_rf r' (set_db (sm_step (db_state (s_kv s)) op).1
                        (sm_step (db_state (s_kv s)) op).2 (s_kv s))))) /\
    rf_ok r' /\ rf_GetState r' = rf_GetState (rf (s_kv s)) /\
    rf_applied r' = rf_applied (rf (s_kv s)).
Proof.
  intros Hinv Hns Happ. destruct (decide (i <= lastIncludedIndex (s_kv s))).
  - left. split; [by apply applier_skips|done].
  - right. split; [lia|]. apply applier_command; [apply Hinv|lia|].
    intros ch. by eapply inv_room.
Qed.

Lemma kv_inv_command s cidx i t op kv' :
  sys_inv s cidx -> applier (cmd_msg i t op) (s_kv s) = Ret kv' ->
  i ∉ s_seen s -> i <= rf_applied (rf (s_kv s)) ->
  (forall op', (i, t, op') ∈ s_started s -> op' = op) ->
  sys_inv (mkSys kv' (s_calls s) (s_started s)
    (if decide (lastIncludedIndex (s_kv s) < i /\ notifies t (s_kv s) = true)
     then (i, t, op, KVDB (s_kv s)) :: s_notified s else s_notified s)
    ({[i]} ∪ s_seen s)) cidx.
Proof.
  intros Hinv Hap Hns Happ Hmatch. pose proof Hinv as [Hok Hseen Hmap Hbuf Hst Hnot Hord Hcalls].
  destruct (inv_applier_returns s cidx i t op Hinv Hns Happ) as [[Hr Hle]|(Hlt & r' & Hr & Hok' & Hg & Ha)];
    rewrite Hap in Hr; injection Hr as ->.
  { rewrite decide_False by lia. split; simpl; try done; [set_solver|..].
    - intros i' ch Hw. destruct (Hmap _ _ Hw) as (? & ? & buf & ? & [?|?]); set_solver.
    - intros i' t' op' db Hn. destruct (Hnot _ _ _ _ Hn). set_solver. }
  assert (Hsub : forall x, x ∈ s_notified s -> x ∈
    (if decide (lastIncludedIndex (s_kv s) < i /\ notifies t (s_kv s) = true)
     then (i, t, op, KVDB (s_kv s)) :: s_notified s else s_notified s))
    by (intros; case_decide; set_solver).
  split; simpl; rewrite ?Ha; try done.
  - intros i' [->%elem_of_singleton|?]%elem_of_union; auto.
  - intros i' ch Hw. destruct (Hmap _ _ Hw) as (Hci & Hch & buf & Hb & Hbuf').
    split; [done|]. split; [done|]. unfold chans_after.
    destruct (waitChMap (s_kv s) !! i) as [ch'|] eqn:E; [destruct (notifies t (s_kv s))|].
    + destruct (decide (ch = ch')) as [->|].
      * destruct (Hmap _ _ E) as [<- _]. rewrite Hci. eexists. rewrite lookup_insert_eq.
        split; [done|]. left. set_solver.
      * exists buf. rewrite lookup_insert_ne by done. set_solver.
    + exists buf. set_solver.
    + exists buf. set_solver.
  - intros ch buf res Hb Hin. unfold chans_after in Hb.
    assert (Hold : chans (s_kv s) !! ch = Some buf -> exists t' op', answer
      (if decide (lastIncludedIndex (s_kv s) < i /\ notifies t (s_kv s) = true)
       then (i, t, op, KVDB (s_kv s)) :: s_notified s else s_notified s) (cidx ch) t' op' res).
    { intros Hb'. destruct (Hbuf _ _ _ Hb' Hin) as (t' & op' & Hans).
      exists t', op'. by eapply answer_mono. }
    destruct (waitChMap (s_kv s) !! i) as [ch'|] eqn:E; [|auto].
    destruct (notifies t (s_kv s)) eqn:Hno; [|auto].
    apply lookup_insert_Some in Hb as [[-> <-]|[? ?]]; [|auto].
    apply list_elem_of_singleton in Hin as ->. exists t, op, (KVDB (s_kv s)), (LastRequestMap (s_kv s)).
    destruct (Hmap _ _ E) as [-> _]. rewrite decide_True by done. split; [set_solver|done].
  - unfold term_of in *. simpl. rewrite Hg. done.
  - unfold term_of in *. simpl. rewrite Hg. intros i' t' op' db. case_decide as Hd.
    + intros [[= -> -> -> ->]|Hn]%elem_of_cons.
      * destruct Hd as [_ Hno%bool_decide_eq_true]. split; [lia|set_solver].
      * destruct (Hnot _ _ _ _ Hn). set_solver.
    + intros Hn. destruct (Hnot _ _ _ _ Hn). set_solver.
  - intros i' t1 op1 t2 op2 db Hs. case_decide as Hd; [|eauto].
    intros [[= -> -> -> ->]|Hn]%elem_of_cons; [|eauto].
    destruct Hd as [_ Hno%bool_decide_eq_true]. apply Hst in Hs as Hle. unfold term_of in Hle.
    split; [lia|]. intros ->. auto.
  - eapply Forall_impl; [done|]. intros c. by apply call_inv_mono.
Qed.

Lemma inv_snapshot s cidx j t data kv' :
  sys_inv s cidx -> applier (snap_msg j t data) (s_kv s) = Ret kv' ->
  sys_inv (mkSys kv' (s_calls s) (s_started s) (s_notified s) (s_seen s)) cidx.
Proof.
  intros [] Hap. unfold applier in Hap. simpl in Hap.
  assert (exists db lr l, kv' = set_lastIncludedIndex l (set_db db lr (s_kv s))) as (db & lr & l & ->).
  { case_decide; go_inv.
    - exists (KVDB (s_kv s)), (LastRequestMap (s_kv s)), (lastIncludedIndex (s_kv s)).
      by destruct (s_kv s).
    - unfold readPersist. repeat case_match; subst;
        try (exists (KVDB (s_kv s)), (LastRequestMap (s_kv s)), 0; by destruct (s_kv s)); eauto. }
  by split.
Qed.

Lemma inv_raft s cidx r' :
  sys_inv s cidx -> rf_ok r' -> term_of s <= fst (rf_GetState r') ->
  rf_applied (rf (s_kv s)) <= rf_applied r' ->
  sys_inv (mkSys (set_rf r' (s_kv s)) (s_calls s) (s_started s) (s_notified s) (s_seen s)) cidx.
Proof.
  intros [Hok Hseen Hmap Hbuf Hst Hnot Hord Hcalls] Hok' Ht Ha.
  split; simpl; unfold term_of in *; simpl; try done.
  - intros i Hi%Hseen. lia.
  - intros i t op Hi%Hst. lia.
  - intros i t op db Hi. destruct (Hnot _ _ _ _ Hi). split; [lia|done].
Qed.

Lemma kv_step_inv s s' cidx : step s s' -> sys_inv s cidx -> exists cidx', sys_inv s' cidx'.
Proof.
  intros Hstep Hinv. destruct Hstep as
    [s c Hi|s k timeout c c' kv' Hk Hcs Hfresh|s i t op kv' Hap Hns Hle Hm|s j t data kv' Hap|s r' Hok Ht Ha].
  - exists cidx. destruct Hinv. split; simpl; try done. apply Forall_app_2; [done|].
    apply Forall_singleton. by destruct c as [args [] | args [[]|]].
  - destruct (call_pc c) as [pc|] eqn:Hpc.
    + rewrite (call_step_phase _ _ _ _ Hpc) in Hcs. go_inv. destruct x as [pc' kv1]. go_inv.
      eapply inv_phase; eauto.
    + destruct (call_step_check _ _ _ _ _ Hpc Hcs) as (-> & (args & ->) & [-> | ->]);
        exists cidx; by apply (inv_set_call s cidx k).
  - exists cidx. by apply kv_inv_command.
  - exists cidx. by eapply inv_snapshot.
  - exists cidx. by apply inv_raft.
Qed.

(** A server with no handler yet, as [StartKVServer] returns it. *)
Lemma kv_reachable_inv kv s :
  rf_ok (rf kv) -> waitChMap kv = ∅ -> chans kv = ∅ ->
  rtc step (sys_init kv) s -> exists cidx, sys_inv s cidx.
Proof.
  intros Hok Hw Hc. revert s.
  apply (rtc_ind_r (fun s => exists cidx, sys_inv s cidx) (sys_init kv)).
  - exists (fun _ => 0). split; simpl; rewrite ?Hw, ?Hc; try done; set_solver.
  - intros s1 s2 _ Hstep [cidx Hinv]. by eapply kv_step_inv.
Qed.

(** A [Get] that a server answers with [OK] returns the value its own
    operation read: the operation was applied by this server at the answered
    index, in the term in which it was started, and the value is that of the key
    in the database at that point, whatever handlers, commands, snapshots and
    leader changes are interleaved. *)
Theorem get_reads_own_operation kv s k args v :
  rf_ok (rf kv) -> waitChMap kv = ∅ -> chans kv = ∅ ->
  rtc step (sys_init kv) s -> s_calls s !! k = Some (CGet args (PDone (OK, v))) ->
  exists i t db,
    (i, t, mkOp (gClientId args) (gRequestId args) "Get" (gKey args) "", db) ∈ s_notified s /\
    v = map_get db (gKey args).
Proof.
  intros Hok Hw Hc Hr Hk. destruct (kv_reachable_inv _ _ Hok Hw Hc Hr) as [cidx Hinv].
  pose proof (Forall_lookup_1 _ _ _ _ (si_calls _ _ Hinv) Hk) as Hcall. simpl in Hcall.
  destruct (Hcall eq_refl) as (i & t & res & (db & lr & Hn & ->) & ->).
  exists i, t, db. split; [done|]. unfold execute. simpl. done.
Qed.

(** A [PutAppend] that is answered [OK] after waiting was applied: this
    server executed the handler's own operation at the answered index. *)
Theorem put_append_applied kv s k args i v :
  rf_ok (rf kv) -> waitChMap kv = ∅ -> chans kv = ∅ ->
  rtc step (sys_init kv) s -> s_calls s !! k = Some (CPut args (Some (PDelete i (OK, v)))) ->
  exists t db,
    (i, t, mkOp (paClientId args) (paRequestId args) (paOp args) (paKey args) (paValue args), db)
      ∈ s_notified s.
Proof.
  intros Hok Hw Hc Hr Hk. destruct (kv_reachable_inv _ _ Hok Hw Hc Hr) as [cidx Hinv].
  pose proof (Forall_lookup_1 _ _ _ _ (si_calls _ _ Hinv) Hk) as Hcall. simpl in Hcall.
  destruct (Hcall eq_refl) as (t & res & (db & lr & Hn & _) & _). eauto.
Qed.

(** The applier never gets stuck: in every reachable state it processes any
    command Raft may deliver; in particular it never blocks on a handler's
    channel while it holds the mutex. *)
Theorem applier_never_blocks kv s i t op :
  rf_ok (rf kv) -> waitChMap kv = ∅ -> chans kv = ∅ ->
  rtc step (sys_init kv) s -> i ∉ s_seen s -> i <= rf_applied (rf (s_kv s)) ->
  exists kv', applier (cmd_msg i t op) (s_kv s) = Ret kv'.
Proof.
  intros Hok Hw Hc Hr Hns Hle. destruct (kv_reachable_inv _ _ Hok Hw Hc Hr) as [cidx Hinv].
  destruct (inv_applier_returns s cidx i t op Hinv Hns Hle) as [[-> _]|(_ & r' & -> & _)]; eauto.
Qed.

(** * Running the system *)

Inductive Event := EInvoke (c : Call) | EHandler (k : nat) (timeout : bool)
| ECommand (i t : Z) (op : Op).

Definition exec (e : Event) (s : Sys) : option Sys :=
  match e with
  | EInvoke c =>
      if is_initial c
      then Some (mkSys (s_kv s) (s_calls s ++ [c]) (s_started s) (s_notified s) (s_seen s))
      else None
  | EHandler k timeout =>
      c ← (s_calls s !! k);
      match call_step timeout c (s_kv s) with
      | Ret (c', kv') =>
          if decide (Forall (fun x => Forall (fun y => x.1 <> y.1) (s_started s)) (started_by c c'))
          then Some (mkSys kv' (<[k := c']> (s_calls s)) (started_by c c' ++ s_started s)
                       (s_notified s) (s_seen s))
          else None
      | _ => None
      end
  | ECommand i t op =>
      match applier (cmd_msg i t op) (s_kv s) with
      | Ret kv' =>
          if decide ((i ∉ s_seen s) /\ i <= rf_applied (rf (s_kv s)) /\
                     Forall (fun x => x.1 = (i, t) -> x.2 = op) (s_started s))
          then Some (mkSys kv' (s_calls s) (s_started s)
                 (if decide (lastIncludedIndex (s_kv s) < i /\ notifies t (s_kv s) = true)
                  then (i, t, op, KVDB (s_kv s)) :: s_notified s else s_notified s)
                 ({[i]} ∪ s_seen s))
          else None
      | _ => None
      end
  end.

Fixpoint exec_all (es : list Event) (s : Sys) : option Sys :=
  match es with
  | [] => Some s
  | e :: es => s ← exec e s; exec_all es s
  end.

Lemma kv_exec_step e s s' : exec e s = Some s' -> step s s'.
Proof.
  destruct e as [c|k timeout|i t op]; simpl; intros He.
  - case_match eqn:E; simplify_eq. by constructor.
  - opt_inv. destruct (call_step timeout _ (s_kv s)) as [[c' kv']| |] eqn:E; try done.
    case_decide as Hd; simplify_eq. econstructor; [done..|].
    intros i t op op' Hin Hst. rewrite Forall_forall in Hd. specialize (Hd _ Hin).
    rewrite Forall_forall in Hd. by apply (Hd _ Hst).
  - destruct (applier (cmd_msg i t op) (s_kv s)) as [kv'| |] eqn:E; try done.
    case_decide as Hd; simplify_eq. destruct Hd as (? & ? & Hm).
    constructor; [done..|]. intros op' Hin. rewrite Forall_forall in Hm. by apply (Hm _ Hin).
Qed.

Lemma kv_exec_all_steps es s s' : exec_all es s = Some s' -> rtc step s s'.
Proof.
  revert s. induction es as [|e es IH]; simpl; intros s He; [simplify_eq; constructor|].
  opt_inv. eapply rtc_l; [by eapply kv_exec_step|auto].
Qed.
End sys.
