(* ===== verification/Replica.v ===== *)
(** A replicated service on a Raft cluster.

    The servers of a service run on the peers of a cluster: their handlers use
    [Start] and [GetState] of their peer, their appliers read the peer's channel, and
    a crash takes server and peer down together.  [Service] are the operations of a
    server; [Laws] is what a service has to show of them, one operation at a time:
    [holds i a l s] says that server [i], started where [a] commands were done, is in
    the state [s] after the commands [l].  The theorem is that then the servers of a
    running cluster hold the states of one list of commands, the one the peers have
    delivered, and what an applier reads next it processes.

    As in [KVWorld] nothing is restricted in [rexec]; the theorem is about runs in
    which replication goroutines find the term they captured, and, for a service that
    takes snapshots, no command is read before a snapshot that was posted before it
    ([in_turn]).  Snapshots may overtake anything. *)

From S2P Require Import Prelude Gob Persister RaftTypes RaftNode RaftInv RaftSafe RaftSpec.
From S2P Require Import RaftCluster RaftElection RaftSim RaftSteps RaftLead RaftSafety RaftServices RaftRuns RaftApi RaftPromise.
Local Open Scope Z_scope.

Abbreviation PeerOf Op := (Raft Op * list (Effect Op))%type.

(** The message of a command and of a snapshot. *)
Definition command_msg {Op} (k t : Z) (cmd : Op) : ApplyMsg Op := mkApplyMsg true (Some cmd) k t false [] 0 0.
Definition snapshot_msg {Op} (j t : Z) (data : bytes) : ApplyMsg Op := mkApplyMsg false None 0 0 true data t j.

(** The operations of a server of state [S] with handlers [H]: how it starts, its
    peer, its applier, the phases of its handlers, which of these are requests that
    have just arrived, and the command a handler gives to [Start]. *)
Record Service (Op S H : Type) := mkService {
  sv_start : Z -> PeerOf Op -> S;
  sv_peer : S -> PeerOf Op;
  sv_with : PeerOf Op -> S -> S;
  sv_apply : Z -> ApplyMsg Op -> S -> Go S;
  sv_handle : bool -> H -> S -> Go (H * S);
  sv_fresh : H -> bool;
  sv_command : H -> Op
}.
Arguments mkService {Op S H}. Arguments sv_start {Op S H}. Arguments sv_peer {Op S H}. Arguments sv_with {Op S H}.
Arguments sv_apply {Op S H}. Arguments sv_handle {Op S H}. Arguments sv_fresh {Op S H}. Arguments sv_command {Op S H}.

Section replica.
Context {Op S H : Type} `{GobLaws Z} `{GobLaws (list (LogEntry Op))} (n : nat) (X : Service Op S H).
Implicit Types (c : Cluster Op) (r : Raft Op) (s : S) (h : H) (l : list Op) (K : list (Z * bytes)) (P : list (Z * Z * Op)).

(** * The system *)

(** A server (its peer is read from the cluster), its running handlers, its channel. *)
Record RSrv := mkRSrv { r_sv : S; r_calls : list H; r_queue : Queue Op }.
Record RWorld := mkRWorld { r_raft : Cluster Op; r_srvs : gmap Z RSrv }.

(** The server with its peer, and the cluster after the server used it. *)
Definition on_node r s : S := sv_with X (r, []) s.
Definition after (i : Z) s c : Cluster Op := update_node i (sv_peer X s).1 (sv_peer X s).2 (rpcs c) c.

Inductive REvent :=
| RRaft (a : Action Op)
| RRequest (i : Z) (h : H)
| RHandler (i : Z) (k : nat) (timeout : bool)
| RApply (i : Z) (k : nat)
| RRestart (i now : Z).

(** What the cluster does by itself. *)
Definition by_itself (a : Action Op) : bool :=
  match a with AStart _ _ | ASnapshot _ _ _ | ARestart _ _ => false | _ => true end.

Definition rexec (e : REvent) (w : RWorld) : option RWorld :=
  match e with
  | RRaft a =>
      guard (by_itself a = true);;
      c' ← RaftCluster.exec a (r_raft w);
      Some (mkRWorld c' (r_srvs w))
  | RRequest i h =>
      v ← r_srvs w !! i;
      guard (sv_fresh X h = true);;
      Some (mkRWorld (r_raft w) (<[i := mkRSrv (r_sv v) (r_calls v ++ [h]) (r_queue v)]> (r_srvs w)))
  | RHandler i k timeout =>
      v ← r_srvs w !! i;
      r ← nodes (r_raft w) !! i;
      h ← r_calls v !! k;
      '(h', s') ← go_opt (sv_handle X timeout h (on_node r (r_sv v)));
      Some (mkRWorld (after i s' (r_raft w)) (<[i := mkRSrv s' (<[k := h']> (r_calls v)) (r_queue v)]> (r_srvs w)))
  | RApply i k =>
      v ← r_srvs w !! i;
      r ← nodes (r_raft w) !! i;
      guard (sendable (unread i (r_queue v) (r_raft w)) k = true);;
      m ← unread i (r_queue v) (r_raft w) !! k;
      s' ← go_opt (sv_apply X i m (on_node r (r_sv v)));
      Some (mkRWorld (after i s' (r_raft w))
        (<[i := mkRSrv s' (r_calls v) (read_queue i (r_queue v) k (r_raft w))]> (r_srvs w)))
  | RRestart i now =>
      c' ← RaftCluster.exec (ARestart i now) (r_raft w);
      r ← nodes c' !! i;
      Some (mkRWorld c' (<[i := mkRSrv (sv_start X i (r, [])) [] (new_queue i c')]> (r_srvs w)))
  end.

Fixpoint rrun (es : list REvent) (w : RWorld) : option RWorld :=
  match es with [] => Some w | e :: es => w ← rexec e w; rrun es w end.

Definition rstart (now : Z) : RWorld :=
  mkRWorld (cluster_init n now)
    (map_imap (fun i r => Some (mkRSrv (sv_start X i (r, [])) [] (mkQueue 0 []))) (nodes (cluster_init n now))).

(** The restrictions of the theorem. *)
Definition goroutine_timely (e : REvent) (w : RWorld) : bool :=
  match e with RRaft a => admissible a (r_raft w) | _ => true end.
Definition in_turn (e : REvent) (w : RWorld) : bool :=
  match e with
  | RApply i k =>
      match v ← r_srvs w !! i; unread i (r_queue v) (r_raft w) !! k with
      | Some m => negb (CommandValid m) || bool_decide (k = 0%nat)
      | None => true
      end
  | _ => true
  end.

(** * What a service shows *)

(** Only the peer changed, through at most one call of [Start] or [Snapshot]. *)
Definition peer_started (cmd : Op) s s' : Prop :=
  sv_peer X s' = sv_peer X s \/ exists res eff r',
    Start cmd (sv_peer X s).1 = Some (r', res, eff) /\ sv_peer X s' = (r', (sv_peer X s).2 ++ eff).
Definition peer_compacted (j : Z) (taken : bytes -> Prop) s s' : Prop :=
  sv_peer X s' = sv_peer X s \/ exists data r',
    Snapshot j data (sv_peer X s).1 = Some r' /\ sv_peer X s' = (r', (sv_peer X s).2) /\ taken data.

Record Laws (valid : Op -> Prop) (holds : Z -> Z -> list Op -> S -> Prop) (snap : list Op -> bytes -> Prop)
    (fails : Z -> list Op -> Prop) : Prop := {
  law_peer : forall x s, sv_peer X (sv_with X x s) = x;
  law_with : forall i a l x s, holds i a l s -> holds i a l (sv_with X x s);
  law_start : forall i x, sv_peer X (sv_start X i x) = x;
  law_start_empty : forall i x, ReadSnapshot (persister x.1) = [] -> holds i 0 [] (sv_start X i x);
  law_start_snap : forall i x l, snap l (ReadSnapshot (persister x.1)) -> holds i (zlen l) l (sv_start X i x);
  law_handle : forall i a l s h timeout h' s', holds i a l s -> sv_handle X timeout h s = Ret (h', s') ->
    holds i a l s' /\ sv_command X h' = sv_command X h /\ peer_started (sv_command X h) s s';
  law_command : forall i a l s t cmd, holds i a l s -> Forall valid (l ++ [cmd]) -> a <= zlen l ->
    node_ok (sv_peer X s).1 -> zlen l + 1 <= lastApplied (sv_peer X s).1 ->
    (exists s', sv_apply X i (command_msg (zlen l + 1) t cmd) s = Ret s' /\ holds i a (l ++ [cmd]) s' /\
       peer_compacted (zlen l + 1) (snap (l ++ [cmd])) s s') \/
    (sv_apply X i (command_msg (zlen l + 1) t cmd) s = Panic /\ fails i (l ++ [cmd]));
  law_skip : forall i a l s k t cmd l0 d0, snap l0 d0 -> holds i a l s -> a < k <= zlen l ->
    sv_apply X i (command_msg k t cmd) s = Ret s;
  law_snapshot : forall i a l s t l' data, holds i a l s -> snap l' data -> a < zlen l' -> a <= zlen l ->
    exists s', sv_apply X i (snapshot_msg (zlen l') t data) s = Ret s' /\ sv_peer X s' = sv_peer X s /\
      holds i a (if decide (zlen l < zlen l') then l' else l) s'
}.

(** * The delivered log *)

(** The commands [l] have been delivered, each at its index. *)
Definition log_upto c l : Prop := forall k cmd, l.[k] = Some cmd -> exists j t, (j, command_msg (k + 1) t cmd) ∈ delivered c.
Definition covered c (x : Z) : Prop := exists l, log_upto c l /\ x <= zlen l.

Lemma log_upto_mono c c' l d : delivered c' = delivered c ++ d -> log_upto c l -> log_upto c' l.
Proof. intros Hd Hl k cmd Hk. destruct (Hl k cmd Hk) as (j & t & Hin). exists j, t. rewrite Hd. apply elem_of_app. by left. Qed.
Lemma covered_mono c c' x d : delivered c' = delivered c ++ d -> covered c x -> covered c' x.
Proof. intros Hd (l & Hl & Hx). exists l. split; [by eapply log_upto_mono|done]. Qed.

Lemma log_upto_snoc c l j t cmd : log_upto c l -> (j, command_msg (zlen l + 1) t cmd) ∈ delivered c -> log_upto c (l ++ [cmd]).
Proof.
  intros Hl Hin k cmd' Hk. pose proof (go_index_Some_lt _ _ _ Hk) as Hlt. rewrite zlen_snoc in Hlt.
  destruct (decide (k = zlen l)) as [->|Hne]; [|apply Hl; by rewrite go_index_app_l in Hk by lia].
  rewrite go_index_app_r, Z.sub_diag in Hk by lia. injection Hk as <-. by exists j, t.
Qed.

(** What has been delivered at an index is one command. *)
Lemma log_upto_at c P K l j k t cmd : promised n c P K -> log_upto c l -> (j, command_msg k t cmd) ∈ delivered c ->
  0 < k <= zlen l -> l.[k - 1] = Some cmd.
Proof.
  intros HP Hl Hin Hk. destruct (go_index_is_Some l (k - 1)) as [cmd' Hc]; [lia|]. rewrite Hc.
  destruct (Hl _ _ Hc) as (j' & t' & Hin'). replace (k - 1 + 1) with k in Hin' by lia.
  by destruct (promised_agree n c P K _ _ _ _ _ _ _ HP Hin' Hin) as [_ ->].
Qed.

Lemma log_upto_agree c P K l1 l2 : promised n c P K -> log_upto c l1 -> log_upto c l2 -> zlen l1 <= zlen l2 ->
  l1 = take (Z.to_nat (zlen l1)) l2.
Proof.
  intros HP Hl1 Hl2 Hle. apply list_eq. intros k. destruct (decide (k < length l1)%nat) as [Hk|Hk].
  - rewrite lookup_take_lt by (unfold zlen; lia). destruct (lookup_lt_is_Some_2 _ _ Hk) as [cmd Hc]. rewrite Hc.
    assert (l1.[Z.of_nat k] = Some cmd) as Hc1 by (by rewrite go_index_of_nat). destruct (Hl1 _ _ Hc1) as (j & t & Hin).
    pose proof (log_upto_at c P K l2 j _ t cmd HP Hl2 Hin) as Ha. unfold zlen in *.
    rewrite Z.add_simpl_r, go_index_of_nat in Ha. symmetry. apply Ha. lia.
  - rewrite (proj2 (lookup_ge_None _ _)) by lia. symmetry. apply lookup_ge_None. rewrite length_take. unfold zlen. lia.
Qed.

(** The snapshots are states of the log. *)
Definition good_snaps (snap : list Op -> bytes -> Prop) c K : Prop :=
  forall j data, (j, data) ∈ K -> exists l, zlen l = j /\ log_upto c l /\ snap l data.

Lemma good_snaps_mono snap c c' K d : delivered c' = delivered c ++ d -> good_snaps snap c K -> good_snaps snap c' K.
Proof.
  intros Hd HK j data Hin. destruct (HK j data Hin) as (l & ? & ? & ?). exists l. split_and!; try done. by eapply log_upto_mono.
Qed.

(** A peer that moves along the log covers it. *)
Lemma in_order_covered snap c P K i a ms b : promised n c P K -> good_snaps snap c K -> in_order a ms b -> 0 <= a ->
  (forall m, m ∈ ms -> (i, m) ∈ delivered c) -> covered c a ->
  covered c b /\ forall m, m ∈ ms -> covered c (msg_index m).
Proof.
  intros HP HK. induction 1 as [a|a cmd t ms b Hio IH|a data t j ms b Hj Hio IH]; intros Ha Hin Hc.
  - split; [done|]. by intros m ?%elem_of_nil.
  - destruct (promised_msg n _ _ _ _ _ HP (Hin _ ltac:(by left))) as [(cmd' & k & t' & [= -> _ _] & _)|(? & ? & ? & ? & _)]; [|done].
    assert (covered c (a + 1)) as Hc1.
    { destruct Hc as (l & Hl & Hle). destruct (decide (a + 1 <= zlen l)); [by exists l|]. exists (l ++ [cmd']). split; [|rewrite zlen_snoc; lia].
      eapply log_upto_snoc; [done|]. assert (zlen l = a) as -> by lia. apply (Hin (command_msg (a + 1) t cmd')). by left. }
    destruct IH as [IH1 IH2]; [lia|intros m Hm; apply Hin; by right|done|]. split; [done|].
    intros m [->|Hm]%elem_of_cons; [done|by apply IH2].
  - destruct (promised_msg n _ _ _ _ _ HP (Hin _ ltac:(by left))) as [(? & ? & ? & ? & _)|(data' & t' & j' & [= <- <- <-] & HinK)]; [done|].
    assert (covered c j) as Hcj by (destruct (HK _ _ HinK) as (l & <- & Hl & _); by exists l).
    destruct IH as [IH1 IH2]; [lia|intros m Hm; apply Hin; by right|done|]. split; [done|].
    intros m [->|Hm]%elem_of_cons; [done|by apply IH2].
Qed.

(** * The channel of a server

    What is unread leads a server from position [p] to [b], when messages up to its
    position are skipped. *)
Fixpoint ahead (p : Z) (q : list (ApplyMsg Op)) (b : Z) : Prop :=
  match q with
  | [] => b <= p
  | m :: q =>
      if CommandValid m then (CommandIndex m <= p /\ ahead p q b) \/ (CommandIndex m = p + 1 /\ ahead (p + 1) q b)
      else ahead (Z.max p (SnapshotIndex m)) q b
  end.

Lemma ahead_mono q : forall p p' b, p <= p' -> ahead p q b -> ahead p' q b.
Proof.
  induction q as [|m q IH]; intros p p' b Hp; simpl; [lia|]. destruct (CommandValid m); [|apply IH; lia].
  intros [[Hk Hq]|[Hk Hq]]; [left; split; [lia|by eapply IH]|]. destruct (decide (p' = p)) as [->|]; [by right|].
  left. split; [lia|]. eapply IH, Hq. lia.
Qed.

Lemma in_order_ahead a ms b : in_order a ms b -> ahead a ms b.
Proof.
  induction 1 as [a|a cmd t ms b _ IH|a data t j ms b Hj _ IH]; simpl; [lia|by right|]. by rewrite Z.max_r by lia.
Qed.

Lemma ahead_app q : forall p b ms b', ahead p q b -> in_order b ms b' -> ahead p (q ++ ms) b'.
Proof.
  induction q as [|m q IH]; intros p b ms b' Hq Hio; simpl in *; [by eapply ahead_mono, in_order_ahead|].
  destruct (CommandValid m); [|by eapply IH]. destruct Hq as [[? ?]|[? ?]]; [left|right]; (split; [done|by eapply IH]).
Qed.

(** A snapshot is read out of turn. *)
Lemma ahead_delete q : forall p k b m, ahead p q b -> q !! k = Some m -> CommandValid m = false -> SnapshotIndex m <= p ->
  ahead p (delete k q) b.
Proof.
  induction q as [|m' q IH]; intros p k b m Hq Hk Hm Hp; [done|]. destruct k as [|k]; simpl in *.
  - injection Hk as ->. rewrite Hm in Hq. by rewrite Z.max_l in Hq by lia.
  - destruct (CommandValid m'); [|eapply IH; try done; lia].
    destruct Hq as [[? ?]|[? ?]]; [left|right]; (split; [done|eapply IH; try done; lia]).
Qed.

(** * The invariant *)

Section invariant.
Context (valid : Op -> Prop) (holds : Z -> Z -> list Op -> S -> Prop) (snap : list Op -> bytes -> Prop) (fails : Z -> list Op -> Prop).
Context (laws : Laws valid holds snap fails).
Implicit Types (ws : gmap Z RSrv).

(** Server [i] started at position [a] and has executed [l]. *)
Record srv_at c K (i : Z) (v : RSrv) r (a : Z) l : Prop := {
  sa_node : nodes c !! i = Some r;
  sa_holds : holds i a l (r_sv v);
  sa_pos : 0 <= a <= zlen l /\ zlen l <= lastApplied r;
  sa_log : log_upto c l;
  sa_queue : queue_ok i (r_queue v) c;
  sa_range : forall m, m ∈ unread i (r_queue v) c -> a < msg_index m <= lastApplied r;
  sa_ahead : ahead (zlen l) (unread i (r_queue v) c) (lastApplied r);
  sa_order : K = [] -> in_order (zlen l) (unread i (r_queue v) c) (lastApplied r);
  sa_calls : forall h, h ∈ r_calls v -> valid (sv_command X h)
}.

Record rinv c (ws : gmap Z RSrv) P K : Prop := {
  ri_prom : promised n c P K;
  ri_valid : forall k t cmd, (k, t, cmd) ∈ P -> valid cmd;
  ri_snaps : good_snaps snap c K;
  ri_node : forall i r, nodes c !! i = Some r -> covered c (lastApplied r);
  ri_msg : forall i m, (i, m) ∈ delivered c -> 0 < msg_index m /\ covered c (msg_index m);
  ri_srv : forall i v, ws !! i = Some v -> exists r a l, srv_at c K i v r a l
}.

(** Nothing but the log has changed. *)
Lemma srv_at_frame c c' K i v r a l d : srv_at c K i v r a l -> nodes c' !! i = nodes c !! i ->
  received i c' = received i c -> delivered c' = delivered c ++ d -> srv_at c' K i v r a l.
Proof.
  intros [] Hn Hr Hd. destruct (queue_same _ _ _ _ sa_queue0 Hr) as [Hq Hu].
  split; rewrite ?Hu, ?Hn; try done. by eapply log_upto_mono.
Qed.

Lemma srvs_insert c c' K i v r a l ws d : (forall j u, ws !! j = Some u -> exists r a l, srv_at c K j u r a l) ->
  srv_at c' K i v r a l -> delivered c' = delivered c ++ d ->
  (forall j, j <> i -> nodes c' !! j = nodes c !! j /\ received j c' = received j c) ->
  forall j u, <[i := v]> ws !! j = Some u -> exists r a l, srv_at c' K j u r a l.
Proof.
  intros Hws Hv Hd Hrest j u [[<- <-]|[Hne Hu]]%lookup_insert_Some; [by exists r, a, l|].
  destruct (Hws j u Hu) as (r' & a' & l' & Hj). destruct (Hrest j (not_eq_sym Hne)) as [Hn Hr]. exists r', a', l'.
  by eapply srv_at_frame.
Qed.

(** More snapshots have been taken. *)
Lemma srv_at_snaps c K K' i v r a l : (K' = [] -> K = []) -> srv_at c K i v r a l -> srv_at c K' i v r a l.
Proof. intros HK []. split; try done. auto. Qed.

Lemma after_id i s c r : nodes c !! i = Some r -> sv_peer X s = (r, []) -> after i s c = c.
Proof.
  intros Hi Hr. unfold after, update_node. rewrite Hr. simpl. rewrite insert_id, !app_nil_r by done. by destruct c.
Qed.

(** A use of the peer leaves the other peers, the messages and the position alone. *)
Definition used c c' (i : Z) r s' : Prop :=
  delivered c' = delivered c /\ nodes c' = <[i := (sv_peer X s').1]> (nodes c) /\ lastApplied (sv_peer X s').1 = lastApplied r.

Lemma after_start c P K i r s s' cmd : promised n c P K -> nodes c !! i = Some r -> sv_peer X s = (r, []) ->
  peer_started cmd s s' -> exists P', promised n (after i s' c) P' K /\ used c (after i s' c) i r s' /\
    forall k t x, (k, t, x) ∈ P' -> (k, t, x) ∈ P \/ x = cmd.
Proof.
  intros HP Hi Hs [Hp|(res & eff & r' & HS & Hp)]; rewrite Hs in Hp; [|rewrite Hs in HS].
  - exists P. rewrite (after_id i s' c r Hi Hp). split_and!; [done| |auto]. split_and!; [done|by rewrite Hp, insert_id|by rewrite Hp].
  - simpl in HS, Hp. pose proof (promised_node_ok n c P K i r HP Hi) as Hok.
    destruct (Start_result _ _ _ _ _ Hok HS) as (_ & _ & Ha & _).
    destruct (Start_stems P K _ _ _ _ _ Hok HS) as (_ & Hmsgs & _).
    { destruct HP as (s0 & V & L & _ & O & _). by apply (or_node _ _ _ O i). }
    assert (RaftCluster.exec (AStart i cmd) c = Some (after i s' c)) as He.
    { simpl. rewrite Hi. simpl. rewrite HS. unfold after. by rewrite Hp. }
    pose proof (promised_exec n c P K (AStart i cmd) _ HP eq_refl He) as HP'. simpl in HP'. rewrite Hi in HP'.
    eexists. split_and!; [exact HP'| |].
    + unfold used, after, update_node. simpl. rewrite Hp. simpl. by rewrite emit_apply_msgs, Hmsgs, app_nil_r.
    + intros k t x [Hin|Hin]%elem_of_app; [|by left]. right. unfold asked in Hin. case_decide; [|by apply elem_of_nil in Hin].
      by apply list_elem_of_singleton in Hin as [= _ _ ->].
Qed.

Lemma after_compact c P K i r s s' j taken : promised n c P K -> nodes c !! i = Some r -> sv_peer X s = (r, []) ->
  j <= lastApplied r -> peer_compacted j taken s s' -> exists K', promised n (after i s' c) P K' /\ used c (after i s' c) i r s' /\
    (K' = [] -> K = []) /\ forall jd, jd ∈ K' -> jd ∈ K \/ (jd.1 = j /\ taken jd.2).
Proof.
  intros HP Hi Hs Hj [Hp|(data & r' & HS & Hp & Ht)]; rewrite Hs in Hp; [|rewrite Hs in HS].
  - exists K. rewrite (after_id i s' c r Hi Hp). split_and!; [done| |done|auto]. split_and!; [done|by rewrite Hp, insert_id|by rewrite Hp].
  - simpl in HS, Hp. exists ((j, data) :: K). assert (RaftCluster.exec (ASnapshot i j data) c = Some (after i s' c)) as He.
    { simpl. rewrite Hi. simpl. rewrite HS. unfold after. by rewrite Hp. }
    split_and!; [| |done|intros jd [->|Hin]%elem_of_cons; auto].
    + apply (promised_exec n c P K _ _ HP) in He; [done|]. simpl. rewrite Hi. by apply bool_decide_eq_true.
    + unfold used, after, update_node. simpl. rewrite Hp. simpl. split_and!; [by rewrite app_nil_r|done|].
      unfold Snapshot in HS. handler_cases; done.
Qed.

Lemma used_received c c' i r s' j : used c c' i r s' -> received j c' = received j c.
Proof. intros (Hd & _ & _). unfold received. by rewrite Hd. Qed.

Lemma used_node c c' i r s' j : used c c' i r s' -> j <> i -> nodes c' !! j = nodes c !! j.
Proof. intros (_ & Hn & _) Hj. by rewrite Hn, lookup_insert_ne. Qed.

Lemma used_covered c c' i r s' : used c c' i r s' -> nodes c !! i = Some r ->
  (forall j r0, nodes c !! j = Some r0 -> covered c (lastApplied r0)) -> forall j r0, nodes c' !! j = Some r0 -> covered c' (lastApplied r0).
Proof.
  intros (Hd & Hn & Ha) Hi Hc j r0 Hj. eapply (covered_mono c c' _ []); [by rewrite app_nil_r|].
  rewrite Hn in Hj. apply lookup_insert_Some in Hj as [[-> <-]|[_ Hj]]; [rewrite Ha|]; by eapply Hc.
Qed.

(** ** The steps *)

Lemma rinv_raft a c c' ws P K : rinv c ws P K -> by_itself a = true -> admissible a c = true ->
  RaftCluster.exec a c = Some c' -> rinv c' ws P K.
Proof.
  intros [HP Hval HK Hnode Hmsg Hsrv] Hb Hadm He. pose proof (promised_exec n _ _ _ _ _ HP Hadm He) as HP'.
  assert (asked_by a c = [] /\ taken_by a = [] /\ forall i, restarts i a = false) as (Hask & Htk & Hre) by (by destruct a).
  rewrite Hask, Htk in HP'. simpl in HP'. destruct (promised_delivered n _ _ _ _ _ HP He) as [d Hd].
  pose proof (good_snaps_mono snap _ _ _ _ Hd HK) as HK'.
  destruct (promised_step n _ _ _ _ _ HP Hadm He Hre) as [(j & r & r' & ms & Hj & Hn & Hrec & Hio & _)|[Hn Hrec]].
  - pose proof (promised_node_ok n _ _ _ _ _ HP Hj) as Hok. pose proof (ok_applied _ Hok). pose proof (ok_first _ Hok).
    assert (forall m, m ∈ ms -> (j, m) ∈ delivered c') as Hms.
    { intros m Hm. apply elem_of_received. rewrite Hrec, decide_True by done. apply elem_of_app. by right. }
    destruct (in_order_covered snap c' P K j _ _ _ HP' HK' Hio) as [Hcb Hcm]; [lia|done|by eapply covered_mono, Hnode|].
    split; [done|done|done| | |].
    + intros i r0 Hi. rewrite Hn in Hi. apply lookup_insert_Some in Hi as [[<- <-]|[_ Hi]]; [done|]. by eapply covered_mono, Hnode.
    + intros i m Hm%elem_of_received'. rewrite Hrec in Hm. apply elem_of_app in Hm as [Hm|Hm].
      * destruct (Hmsg i m) as [? Hcov]; [by apply elem_of_received|]. split; [done|]. by eapply covered_mono.
      * case_decide; [|by apply elem_of_nil in Hm]. split; [|by apply Hcm]. pose proof (in_order_index _ _ _ _ Hio Hm). lia.
    + intros i v Hv. destruct (Hsrv i v Hv) as (r0 & a0 & l & Hat). pose proof (Hrec i) as Hri. case_decide as Hji.
      * subst j. destruct Hat as [Hs1 Hs2 Hs3 Hs4 Hs5 Hs6 Hs7 Hs8 Hs9]. assert (r0 = r) as -> by congruence.
        destruct (queue_posted _ _ _ _ _ Hs5 Hri) as [Hq Hu]. pose proof (in_order_le _ _ _ Hio). exists r', a0, l.
        split; rewrite ?Hu; try done; [by rewrite Hn, lookup_insert_eq|lia|by eapply log_upto_mono| | |].
        -- intros m [Hm|Hm]%elem_of_app; [specialize (Hs6 m Hm); lia|].
           pose proof (in_order_index _ _ _ _ Hio Hm). lia.
        -- by eapply ahead_app.
        -- intros HK0. eapply in_order_app; [by apply Hs8|done].
      * rewrite app_nil_r in Hri. exists r0, a0, l. eapply srv_at_frame; [done|by rewrite Hn, lookup_insert_ne|done|done].
  - assert (d = []) as ->.
    { destruct d as [|[i m] d]; [done|]. assert (m ∈ received i c') as Hm by (apply elem_of_received'; rewrite Hd; apply elem_of_app; right; by left).
      exfalso. specialize (Hrec i). apply (f_equal length) in Hrec. unfold received in Hrec. rewrite Hd, omap_app, length_app in Hrec.
      simpl in Hrec. rewrite decide_True in Hrec by done. simpl in Hrec. lia. }
    rewrite app_nil_r in Hd. split; [done|done|done| | |].
    + intros i r Hi. rewrite Hn in Hi. eapply (covered_mono _ _ _ []); [by rewrite app_nil_r|by eapply Hnode].
    + intros i m Hm. rewrite Hd in Hm. destruct (Hmsg i m Hm). split; [done|]. eapply (covered_mono _ _ _ []); [by rewrite app_nil_r|done].
    + intros i v Hv. destruct (Hsrv i v Hv) as (r & a0 & l & Hat). exists r, a0, l.
      eapply (srv_at_frame _ _ _ _ _ _ _ _ []); [done|by rewrite Hn|done|by rewrite app_nil_r].
Qed.

(** A request arrives. *)
Lemma rinv_request c ws P K i v h : rinv c ws P K -> ws !! i = Some v -> valid (sv_command X h) ->
  rinv c (<[i := mkRSrv (r_sv v) (r_calls v ++ [h]) (r_queue v)]> ws) P K.
Proof.
  intros [HP Hval HK Hnode Hmsg Hsrv] Hv Hh. split; try done. destruct (Hsrv i v Hv) as (r & a & l & []).
  eapply (srvs_insert c c K i _ r a l ws []); [done| |by rewrite app_nil_r|done].
  split; simpl; try done. intros h' [Hin| ->%list_elem_of_singleton]%elem_of_app; [by apply sa_calls0|done].
Qed.

(** A handler. *)
Lemma rinv_handler c ws P K i v r k timeout h h' s' : rinv c ws P K -> ws !! i = Some v -> nodes c !! i = Some r ->
  r_calls v !! k = Some h -> sv_handle X timeout h (on_node r (r_sv v)) = Ret (h', s') ->
  exists P', rinv (after i s' c) (<[i := mkRSrv s' (<[k := h']> (r_calls v)) (r_queue v)]> ws) P' K.
Proof.
  intros [HP Hval HK Hnode Hmsg Hsrv] Hv Hr Hk Hh. destruct (Hsrv i v Hv) as (r0 & a & l & [Hs1 Hs2 Hs3 Hs4 Hs5 Hs6 Hs7 Hs8 Hs9]).
  assert (r0 = r) as -> by congruence.
  destruct (law_handle _ _ _ _ laws i a l _ h timeout h' s' (law_with _ _ _ _ laws i a l (r, []) _ Hs2) Hh) as (Hh1 & Hcmd & Hst).
  destruct (after_start c P K i r _ s' _ HP Hr (law_peer _ _ _ _ laws (r, []) (r_sv v)) Hst) as (P' & HP' & Hused & Hnew).
  pose proof Hused as (Hd & Hn & Ha). exists P'.
  assert (valid (sv_command X h)) as Hvh by (eapply Hs9, list_elem_of_lookup_2; done).
  destruct (queue_same i (r_queue v) c (after i s' c) Hs5 (used_received _ _ _ _ _ i Hused)) as [Hq Hu].
  split; [done| |eapply (good_snaps_mono snap c _ K []); [by rewrite app_nil_r|done]|by eapply used_covered| |].
  - intros k' t x Hin. destruct (Hnew _ _ _ Hin) as [?| ->]; [by eapply Hval|done].
  - intros j m Hin. rewrite Hd in Hin. destruct (Hmsg j m Hin). split; [done|]. eapply (covered_mono c _ _ []); [by rewrite app_nil_r|done].
  - eapply (srvs_insert c _ K i _ (sv_peer X s').1 a l ws []); [done| |by rewrite app_nil_r|].
    + split; cbn [r_sv r_calls r_queue]; rewrite ?Hu, ?Ha; try done; [by rewrite Hn, lookup_insert_eq|eapply (log_upto_mono c _ l []); [by rewrite app_nil_r|done]|].
      intros h0 [k0 Hk0]%list_elem_of_lookup. apply list_lookup_insert_Some in Hk0 as [(_ & <- & _)|[_ Hk0]]; [by rewrite Hcmd|].
      by eapply Hs9, list_elem_of_lookup_2.
    + intros j Hj. split; [by eapply used_node|by eapply used_received].
Qed.

(** What is delivered was asked for by a handler. *)
Lemma log_valid c P K l : promised n c P K -> (forall k t cmd, (k, t, cmd) ∈ P -> valid cmd) -> log_upto c l -> Forall valid l.
Proof.
  intros HP Hval Hl. apply Forall_lookup. intros k cmd Hk.
  destruct (Hl (Z.of_nat k) cmd) as (j & t & Hin); [by rewrite go_index_of_nat|].
  destruct (promised_msg n _ _ _ _ _ HP Hin) as [(cmd' & k' & t' & [= <- _ _] & HinP)|(? & ? & ? & ? & _)]; [by eapply Hval|done].
Qed.

(** The applier reads a message that is its turn: it executes the next command or panics
    on it, skips a command, or installs or skips a snapshot. *)
Lemma read_outcome c ws P K i v r a l k m : rinv c ws P K -> srv_at c K i v r a l ->
  unread i (r_queue v) c !! k = Some m -> (CommandValid m = true -> k = 0%nat) ->
  (exists s' l', sv_apply X i m (on_node r (r_sv v)) = Ret s' /\ holds i a l' s' /\ zlen l <= zlen l' <= lastApplied r /\
     log_upto c l' /\ ahead (zlen l') (delete k (unread i (r_queue v) c)) (lastApplied r) /\
     (K = [] -> in_order (zlen l') (delete k (unread i (r_queue v) c)) (lastApplied r)) /\
     peer_compacted (zlen l') (snap l') (on_node r (r_sv v)) s') \/
  (sv_apply X i m (on_node r (r_sv v)) = Panic /\ exists cmd, fails i (l ++ [cmd]) /\ log_upto c (l ++ [cmd]) /\ zlen l + 1 <= lastApplied r).
Proof.
  intros [HP Hval HK Hnode Hmsg Hsrv] [Hs1 Hs2 Hs3 Hs4 Hs5 Hs6 Hs7 Hs8 Hs9] Hm Hturn.
  pose proof (list_elem_of_lookup_2 _ _ _ Hm) as Hin. pose proof (Hs6 m Hin) as Hrange.
  pose proof (elem_of_received _ _ _ (proj2 Hs5 m Hin)) as Hd.
  pose proof (law_with _ _ _ _ laws i a l (r, []) _ Hs2) as Hh.
  destruct (promised_msg n _ _ _ _ _ HP Hd) as [(cmd & idx & t & -> & _)|(data & t & j & -> & HinK)].
  - rewrite (Hturn eq_refl) in *. destruct (unread i (r_queue v) c) as [|m' rest] eqn:Hu; [done|]. injection Hm as ->.
    change (delete 0%nat (mkApplyMsg true (Some cmd) idx t false [] 0 0 :: rest)) with rest.
    unfold msg_index in Hrange. simpl in Hrange, Hs7. destruct Hs7 as [[Hidx Hah]|[-> Hah]].
    + left. assert (exists l0 d0, snap l0 d0) as (l0 & d0 & Hsn).
      { destruct K as [|[j0 d0] K0]; [specialize (Hs8 eq_refl); inversion Hs8; subst; lia|].
        destruct (HK j0 d0 ltac:(by left)) as (l0 & _ & _ & ?). by exists l0, d0. }
      exists (on_node r (r_sv v)), l. split_and!; try done; try lia; [|intros ->|by left].
      * eapply (law_skip _ _ _ _ laws); [done|done|lia].
      * specialize (Hs8 eq_refl). inversion Hs8; subst. lia.
    + assert (log_upto c (l ++ [cmd])) as Hlog by (by eapply log_upto_snoc).
      destruct (law_command _ _ _ _ laws i a l (on_node r (r_sv v)) t cmd Hh) as [(s' & Hap & Hh' & Hc)|[Hap Hf]].
      * by eapply log_valid.
      * lia.
      * unfold on_node. rewrite (law_peer _ _ _ _ laws). by eapply (promised_node_ok n).
      * unfold on_node. rewrite (law_peer _ _ _ _ laws). simpl. lia.
      * left. exists s', (l ++ [cmd]). rewrite zlen_snoc. split_and!; try done; try lia.
        intros HK0. specialize (Hs8 HK0). by inversion Hs8; subst.
      * right. split; [done|]. exists cmd. split_and!; [done|done|lia].
  - left. destruct (HK j data HinK) as (l' & Hzl & Hl' & Hsn). unfold msg_index in Hrange. simpl in Hrange. rewrite <- Hzl in Hrange.
    destruct (law_snapshot _ _ _ _ laws i a l (on_node r (r_sv v)) t l' data Hh Hsn) as (s' & Hap & Hp & Hh'); [lia|lia|].
    rewrite Hzl in Hap. exists s', (if decide (zlen l < zlen l') then l' else l).
    assert (zlen (if decide (zlen l < zlen l') then l' else l) = Z.max (zlen l) (zlen l')) as -> by (case_decide; lia).
    split_and!; try done; try lia.
    + by case_decide.
    + eapply ahead_delete; [eapply ahead_mono, Hs7; lia|done|done|simpl; lia].
    + intros ->. by apply elem_of_nil in HinK.
    + by left.
Qed.

Lemma rinv_apply c ws P K i v r a l k m s' : rinv c ws P K -> ws !! i = Some v -> srv_at c K i v r a l ->
  unread i (r_queue v) c !! k = Some m -> (CommandValid m = true -> k = 0%nat) -> sv_apply X i m (on_node r (r_sv v)) = Ret s' ->
  exists K', rinv (after i s' c) (<[i := mkRSrv s' (r_calls v) (read_queue i (r_queue v) k c)]> ws) P K'.
Proof.
  intros Hinv Hv Hat Hm Hturn Hap.
  destruct (read_outcome _ _ _ _ _ _ _ _ _ _ _ Hinv Hat Hm Hturn) as
    [(s2 & l' & Hap' & Hh & Hl & Hlog & Hah & Hio & Hc)|[Hap' _]]; [|congruence]. assert (s2 = s') as -> by congruence.
  destruct Hinv as [HP Hval HK Hnode Hmsg Hsrv]. destruct Hat as [Hs1 Hs2 Hs3 Hs4 Hs5 Hs6 Hs7 Hs8 Hs9].
  destruct (after_compact c P K i r _ s' _ _ HP Hs1 (law_peer _ _ _ _ laws (r, []) (r_sv v)) ltac:(apply Hl) Hc) as (K' & HP' & Hused & HKe & HKn).
  pose proof Hused as (Hd & Hn & Ha). exists K'.
  assert (good_snaps snap c K') as HK'.
  { intros j data Hin. destruct (HKn _ Hin) as [Hin'|[Hj Hsn]]; [by apply HK|]. simpl in *. subst j. by exists l'. }
  split; [done|done|eapply (good_snaps_mono snap c _ K' []); [by rewrite app_nil_r|done]|by eapply used_covered| |].
  - intros j m' Hin. rewrite Hd in Hin. destruct (Hmsg j m' Hin). split; [done|]. eapply (covered_mono c _ _ []); [by rewrite app_nil_r|done].
  - destruct (queue_same i (read_queue i (r_queue v) k c) c (after i s' c) (queue_read _ _ _ _ Hs5) (used_received _ _ _ _ _ i Hused)) as [Hq Hu].
    eapply (srvs_insert c _ K' i _ (sv_peer X s').1 a l' ws []).
    + intros j u Hj. destruct (Hsrv j u Hj) as (r0 & a0 & l0 & Hat0). exists r0, a0, l0. by eapply srv_at_snaps.
    + split; cbn [r_sv r_calls r_queue]; rewrite ?Hu, ?Ha, ?unread_read; try done; [by rewrite Hn, lookup_insert_eq|lia| | |].
      * eapply (log_upto_mono c _ l' []); [by rewrite app_nil_r|done].
      * intros m' Hin%list_elem_of_delete_inv. by apply Hs6.
      * intros ->. by apply Hio, HKe.
    + by rewrite app_nil_r.
    + intros j Hj. split; [by eapply used_node|by eapply used_received].
Qed.

(** A server starts where its snapshot ends. *)
Lemma srv_at_start c P K i r : promised n c P K -> good_snaps snap c K -> nodes c !! i = Some r ->
  lastApplied r = firstIdx (log r) -> exists a l, srv_at c K i (mkRSrv (sv_start X i (r, [])) [] (new_queue i c)) r a l /\
    zlen l = lastApplied r.
Proof.
  intros HP HK Hi Ha. destruct (promised_snapshot n _ _ _ i r HP Hi) as [[Hf Hnil]|Hin].
  - exists 0, []. split; [|change (zlen []) with 0; lia].
    split; cbn [r_sv r_calls r_queue]; rewrite ?unread_new; try done; [by apply (law_start_empty _ _ _ _ laws)|change (zlen []) with 0; lia| | | | | |].
    + intros k cmd Hk. by apply go_index_nil in Hk.
    + apply queue_new.
    + by intros m ?%elem_of_nil.
    + simpl. change (zlen []) with 0. lia.
    + intros _. change (zlen []) with 0. rewrite Ha, Hf. constructor.
    + by intros h ?%elem_of_nil.
  - destruct (HK _ _ Hin) as (l & Hl & Hlog & Hsn). exists (zlen l), l. split; [|lia]. pose proof (zlen_nonneg l).
    split; cbn [r_sv r_calls r_queue]; rewrite ?unread_new; try done; [by apply (law_start_snap _ _ _ _ laws)|lia| | | | |].
    + apply queue_new.
    + by intros m ?%elem_of_nil.
    + simpl. lia.
    + intros ->. by apply elem_of_nil in Hin.
    + by intros h ?%elem_of_nil.
Qed.

Lemma rinv_restart i now c c' r ws P K : rinv c ws P K -> RaftCluster.exec (ARestart i now) c = Some c' -> nodes c' !! i = Some r ->
  rinv c' (<[i := mkRSrv (sv_start X i (r, [])) [] (new_queue i c')]> ws) P K.
Proof.
  intros [HP Hval HK Hnode Hmsg Hsrv] He Hr. pose proof (promised_exec n _ _ _ (ARestart i now) _ HP eq_refl He) as HP'. simpl in HP'.
  simpl in He. apply bind_Some in He as (r0 & Hi & He). apply bind_Some in He as ([r2 eff] & Hm & Hc'). injection Hc' as Hc'.
  destruct (Make_tables _ _ _ _ _ _ Hm) as (_ & _ & ->). destruct (Make_recovers _ _ _ _ _ _ Hm) as (_ & _ & _ & _ & _ & _ & Happ).
  assert (delivered c' = delivered c ++ []) as Hd by (rewrite <- Hc'; done).
  assert (nodes c' = <[i := r2]> (nodes c)) as Hn by (by rewrite <- Hc').
  assert (r2 = r) as -> by (rewrite Hn, lookup_insert_eq in Hr; congruence).
  pose proof (good_snaps_mono snap _ _ _ _ Hd HK) as HK'.
  destruct (srv_at_start c' P K i r HP' HK' Hr Happ) as (a & l & Hat & Hl).
  assert (forall j, j <> i -> nodes c' !! j = nodes c !! j /\ received j c' = received j c) as Hrest.
  { intros j Hj. split; [by rewrite Hn, lookup_insert_ne|unfold received; by rewrite Hd, app_nil_r]. }
  split; [done|done|done| | |by eapply srvs_insert].
  - intros j r1 Hj. rewrite Hn in Hj. apply lookup_insert_Some in Hj as [[<- <-]|[_ Hj]].
    + exists l. split; [apply Hat|lia].
    + by eapply covered_mono, Hnode.
  - intros j m Hin. rewrite Hd, app_nil_r in Hin. destruct (Hmsg j m Hin). split; [done|]. by eapply covered_mono.
Qed.

(** Without snapshots only the oldest message can be read. *)
Lemma sendable_first c K P i v r a l k : promised n c P K -> srv_at c K i v r a l -> K = [] ->
  sendable (unread i (r_queue v) c) k = true -> k = 0%nat.
Proof.
  intros HP [] -> Hs. destruct k as [|k]; [done|]. exfalso. unfold sendable in Hs.
  assert (forall m, m ∈ unread i (r_queue v) c -> SnapshotValid m = false) as Hno.
  { intros m Hm. destruct (promised_msg n _ _ _ i m HP) as [(cmd & k0 & t & -> & _)|(? & ? & ? & _ & Hin)]; [|done|by apply elem_of_nil in Hin].
    by apply elem_of_received, sa_queue0. }
  destruct (unread i (r_queue v) c) as [|m0 q] eqn:Hu; [done|]. simpl in Hs.
  destruct (q !! k) as [m|] eqn:Hm; [|done].
  rewrite (Hno m0), (Hno m) in Hs; [done|right; by eapply list_elem_of_lookup_2|by left].
Qed.

Definition snapless : Prop := forall l data, ~ snap l data.

Lemma snapless_none c K : snapless -> good_snaps snap c K -> K = [].
Proof. intros Hno HK. destruct K as [|[j data] K]; [done|]. destruct (HK j data ltac:(by left)) as (l & _ & _ & Hs). by apply Hno in Hs. Qed.

(** Whose turn it is. *)
Definition its_turn (k : nat) (m : ApplyMsg Op) : Prop := CommandValid m = true -> k = 0%nat \/ snapless.

Lemma turn_first c ws P K i v r a l k m : rinv c ws P K -> srv_at c K i v r a l ->
  sendable (unread i (r_queue v) c) k = true -> its_turn k m -> CommandValid m = true -> k = 0%nat.
Proof.
  intros Hinv Hat Hs Ht Hv. destruct (Ht Hv) as [?|Hno]; [done|]. eapply sendable_first; [apply Hinv|done| |done].
  eapply snapless_none, Hinv. done.
Qed.

Definition valid_request (e : REvent) : Prop := match e with RRequest _ h => valid (sv_command X h) | _ => True end.

Lemma rinv_step e w P K w' : rinv (r_raft w) (r_srvs w) P K -> goroutine_timely e w = true -> in_turn e w = true \/ snapless ->
  valid_request e -> rexec e w = Some w' -> exists P' K', rinv (r_raft w') (r_srvs w') P' K'.
Proof.
  intros Hinv Hg Ht Hval He. destruct e as [a|i h|i k timeout|i k|i now]; cbn [rexec] in He.
  - apply bind_Some in He as (Hb & _ & He). apply bind_Some in He as (c' & He & Hw). injection Hw as <-. exists P, K. by eapply rinv_raft.
  - apply bind_Some in He as (v & Hv & He). case_guard; [|done]. injection He as <-. exists P, K. by apply rinv_request.
  - apply bind_Some in He as (v & Hv & He). apply bind_Some in He as (r & Hr & He). apply bind_Some in He as (h & Hk & He).
    apply bind_Some in He as ([h' s'] & Hh & He). injection He as <-.
    destruct (sv_handle X timeout h (on_node r (r_sv v))) as [[h0 s0]| |] eqn:Hh0; try done. injection Hh as -> ->.
    destruct (rinv_handler _ _ _ _ _ _ _ _ _ _ _ _ Hinv Hv Hr Hk Hh0) as (P' & ?). by exists P', K.
  - apply bind_Some in He as (v & Hv & He). apply bind_Some in He as (r & Hr & He). case_guard as Hs; [|done]. simpl in He.
    apply bind_Some in He as (m & Hm & He). apply bind_Some in He as (s' & Ha & He). injection He as <-.
    destruct (sv_apply X i m (on_node r (r_sv v))) as [s0| |] eqn:Hap; try done. injection Ha as ->.
    destruct (ri_srv _ _ _ _ Hinv i v Hv) as (r0 & a & l & Hat). assert (r0 = r) as -> by (pose proof (sa_node _ _ _ _ _ _ _ Hat); congruence).
    destruct (rinv_apply _ _ _ _ i v r a l k m s' Hinv Hv Hat Hm) as (K' & ?); [|done|by exists P, K'].
    eapply turn_first; [done|done|done|]. intros Hc. destruct Ht as [Ht|?]; [left|by right]. simpl in Ht. rewrite Hv in Ht. simpl in Ht.
    rewrite Hm, Hc in Ht. simpl in Ht. by apply bool_decide_eq_true in Ht.
  - apply bind_Some in He as (c' & He & Hw). apply bind_Some in Hw as (r & Hr & Hw). injection Hw as <-. exists P, K. by eapply rinv_restart.
Qed.

Lemma rinv_run es : forall w P K w', rinv (r_raft w) (r_srvs w) P K -> along rexec goroutine_timely es w = true ->
  along rexec in_turn es w = true \/ snapless -> Forall valid_request es -> rrun es w = Some w' ->
  exists P' K', rinv (r_raft w') (r_srvs w') P' K'.
Proof.
  induction es as [|e es IH]; intros w P K w' Hinv Hg Ht Hval Hr; simpl in *; [injection Hr as <-; by exists P, K|].
  apply bind_Some in Hr as (w1 & He & Hr). rewrite He in Hg, Ht. apply andb_prop in Hg as [Hg1 Hg]. apply Forall_cons in Hval as [Hv1 Hval].
  destruct (rinv_step e w P K w1 Hinv Hg1) as (P1 & K1 & Hinv1); [|done|done|].
  - destruct Ht as [[? _]%andb_prop|?]; auto.
  - eapply IH; [done|done| |done|done]. destruct Ht as [[_ ?]%andb_prop|?]; auto.
Qed.

Lemma rinv_start now : rinv (r_raft (rstart now)) (r_srvs (rstart now)) [] [].
Proof.
  assert (forall i r, nodes (cluster_init n now : Cluster Op) !! i = Some r -> lastApplied r = 0 /\ firstIdx (log r) = 0) as Hz.
  { intros i r Hi. destruct (init_node n now i r Hi) as (eff & Hm & _). destruct (Make_recovers _ _ _ _ _ _ Hm) as (Hrec & _ & _ & _ & _ & _ & ->).
    rewrite recovered_empty in Hrec. by injection Hrec as _ _ ->. }
  assert (good_snaps snap (cluster_init n now) []) as HK by (intros j data Hin; by apply elem_of_nil in Hin).
  split; [apply promised_init|by intros k t cmd ?%elem_of_nil|done| |by intros i m ?%elem_of_nil|].
  - intros i r Hi. exists []. split; [intros k cmd Hk; by apply go_index_nil in Hk|]. destruct (Hz i r Hi) as [-> _]. done.
  - intros i v Hv. simpl in Hv. rewrite map_lookup_imap in Hv. apply bind_Some in Hv as (r & Hi & Hv). injection Hv as <-.
    destruct (Hz i r Hi) as [Ha Hf]. destruct (srv_at_start _ _ _ _ _ (promised_init n now) HK Hi) as (a & l & Hat & _); [by rewrite Ha, Hf|].
    by exists r, a, l.
Qed.

(** ** The log of a run *)

(** Every delivered command is the one of [ops] at its index, and all of [ops] has been
    delivered. *)
Definition delivered_log c (ops : list Op) : Prop :=
  (forall j m, (j, m) ∈ delivered c -> CommandValid m = true -> ops.[CommandIndex m - 1] = amCommand m) /\ log_upto c ops.

Lemma covered_all c (xs : list Z) : (forall x, x ∈ xs -> covered c x) -> exists l, log_upto c l /\ forall x, x ∈ xs -> x <= zlen l.
Proof.
  induction xs as [|x xs IH]; intros Hxs.
  { exists []. split; [intros k cmd Hk; by apply go_index_nil in Hk|by intros x ?%elem_of_nil]. }
  destruct IH as (l & Hl & Hle); [intros y Hy; apply Hxs; by right|]. destruct (Hxs x ltac:(by left)) as (l' & Hl' & Hx).
  destruct (decide (zlen l <= zlen l')).
  - exists l'. split; [done|]. intros y [->|Hy%Hle]%elem_of_cons; lia.
  - exists l. split; [done|]. intros y [->|Hy%Hle]%elem_of_cons; lia.
Qed.

Lemma rinv_log c ws P K : rinv c ws P K -> exists ops, delivered_log c ops /\ Forall valid ops /\
  forall i r, nodes c !! i = Some r -> lastApplied r <= zlen ops.
Proof.
  intros [HP Hval HK Hnode Hmsg _].
  destruct (covered_all c (((fun im => msg_index im.2) <$> delivered c) ++ ((fun p => lastApplied p.2) <$> map_to_list (nodes c)))) as (ops & Hops & Hle).
  { intros x [([i m] & -> & Him)%list_elem_of_fmap|([i r] & -> & Hir)%list_elem_of_fmap]%elem_of_app; [by apply (Hmsg i m)|].
    apply elem_of_map_to_list in Hir. by apply (Hnode i). }
  exists ops. split; [|split; [by eapply log_valid|]].
  - split; [|done]. intros j m Hin Hv. destruct (promised_msg n _ _ _ _ _ HP Hin) as [(cmd & k & t & -> & HinP)|(? & ? & ? & -> & _)]; [|done].
    simpl. eapply (log_upto_at c P K); [done|done|done|]. split.
    + by destruct (Hmsg j _ Hin).
    + apply (Hle k). apply elem_of_app. left. apply list_elem_of_fmap. by exists (j, command_msg k t cmd).
  - intros i r Hi. apply Hle. apply elem_of_app. right. apply list_elem_of_fmap. exists (i, r). split; [done|]. by apply elem_of_map_to_list.
Qed.

(** The servers hold the states of one log, and the appliers process what they read. *)
Theorem replica_follows now es w : rrun es (rstart now) = Some w -> along rexec goroutine_timely es (rstart now) = true ->
  along rexec in_turn es (rstart now) = true \/ snapless -> Forall valid_request es ->
  exists ops, delivered_log (r_raft w) ops /\ Forall valid ops /\
    forall i v, r_srvs w !! i = Some v -> exists r a p, nodes (r_raft w) !! i = Some r /\
      0 <= a <= p /\ p <= lastApplied r <= zlen ops /\ holds i a (take (Z.to_nat p) ops) (r_sv v) /\
      (unread i (r_queue v) (r_raft w) = [] -> p = lastApplied r) /\
      forall k m, sendable (unread i (r_queue v) (r_raft w)) k = true -> unread i (r_queue v) (r_raft w) !! k = Some m -> its_turn k m ->
        (exists s', sv_apply X i m (on_node r (r_sv v)) = Ret s') \/
        (sv_apply X i m (on_node r (r_sv v)) = Panic /\ fails i (take (Z.to_nat (p + 1)) ops)).
Proof.
  intros Hr Hg Ht Hval. destruct (rinv_run es _ _ _ w (rinv_start now) Hg Ht Hval Hr) as (P & K & Hinv).
  destruct (rinv_log _ _ _ _ Hinv) as (ops & Hops & Hv & Hle). exists ops. split_and!; [done|done|]. intros i v Hi.
  destruct (ri_srv _ _ _ _ Hinv i v Hi) as (r & a & l & Hat). pose proof Hat as [Hs1 Hs2 Hs3 Hs4 Hs5 Hs6 Hs7 Hs8 Hs9].
  specialize (Hle i r Hs1). exists r, a, (zlen l).
  rewrite <- (log_upto_agree _ _ _ l ops (ri_prom _ _ _ _ Hinv) Hs4 (proj2 Hops)) by lia.
  split_and!; try done; try lia; [intros Hu; rewrite Hu in Hs7; simpl in Hs7; lia|]. intros k m Hs Hm Htm.
  destruct (read_outcome _ _ _ _ _ _ _ _ _ _ _ Hinv Hat Hm) as [(s' & _ & Hap & _)|(Hap & cmd & Hf & Hlog & Hz)];
    [by eapply turn_first|left; by exists s'|right]. split; [done|]. replace (zlen l + 1) with (zlen (l ++ [cmd])) by apply zlen_snoc.
  by rewrite <- (log_upto_agree _ _ _ _ ops (ri_prom _ _ _ _ Hinv) Hlog (proj2 Hops)) by (rewrite zlen_snoc; lia).
Qed.
End invariant.
End replica.
Arguments RSrv : clear implicits. Arguments RWorld : clear implicits. Arguments REvent : clear implicits.

(** * Scripts

    Events of the services, and moves of the cluster by the names of [RaftRuns]. *)
Section scripts.
Context {Op S H : Type} `{GobLaws Z} `{GobLaws (list (LogEntry Op))} (X : Service Op S H).

Inductive RScene := REv (e : REvent Op H) | RMv (m : RaftRuns.Move Op).
Definition stage (x : RScene) (w : RWorld Op S H) : REvent Op H :=
  match x with
  | REv e => e
  | RMv (Do a) => RRaft a
  | RMv (Hand k src dst term) => RRaft (ADeliver (position (k, src, dst, term) (rpcs (r_raft w))) 5000)
  end.
Fixpoint enact (xs : list RScene) (w : RWorld Op S H) : list (REvent Op H) :=
  match xs with
  | [] => []
  | x :: xs => let e := stage x w in e :: match rexec X e w with Some w' => enact xs w' | None => [] end
  end.

(** [m] phases of handler [k] of server [i]. *)
Definition phases (i : Z) (k m : nat) : list RScene := repeat (REv (RHandler i k false)) m.
End scripts.
Arguments RScene : clear implicits.
