(* ===== verification/KVRaftWitness.v ===== *)
(** Concrete runs of the key/value service on a Raft peer: the hypotheses of the
    properties of [KVRaftSpec] and [KVRaftSys] hold in states the service
    reaches. *)

From S2P Require Import Prelude Gob Persister RaftTypes RaftNode RaftInv RaftApi.
From S2P Require Import RaftCluster RaftSafety RaftServices RaftRuns.
From S2P Require Import KVRaft KVRaftSpec KVRaftSys.
Local Open Scope Z_scope.

#[local] Instance kvw_gob `{Countable A} : Gob A := countable_gob.
#[local] Instance kvw_gob_laws `{Countable A} : GobLaws A := countable_gob_laws.

Abbreviation Peer := (Raft Op * list (Effect Op))%type.

Definition put_a : Op := mkOp 1 0 "Put" "k" "a".
Definition app_b : Op := mkOp 1 1 "Append" "k" "b".
Definition get_k : Op := mkOp 2 0 "Get" "k" "".
(** [put_a] is retried after [app_b]'s first copy. *)
Definition ops : list Op := [put_a; app_b; put_a; app_b; get_k].

Lemma ops_clerk_order : clerk_order ops.
Proof.
  intros pre op post Heq Hf. unfold ops in Heq.
  destruct pre as [|p1 [|p2 [|p3 [|p4 [|p5 pre]]]]]; simplify_eq/=;
    [..|by destruct pre]; rewrite ?Forall_cons in *; unfold same_request in *; simpl in *;
    split_and?; try apply Forall_nil_2; simpl; intros; first [lia|exfalso; naive_solver].
Qed.

Lemma kv_exactly_once_witness :
  fst (exec_log ops) = foldl effect_on ∅ (first_requests ops) /\
  NoDup (map (fun o => (ClientId o, RequestId o)) (first_requests ops)) /\
  (forall op, op ∈ ops -> Exists (same_request op) (first_requests ops)).
Proof. apply (kv_exactly_once ops), ops_clerk_order. Defined.

(** A leader of term 1 that has committed and applied [ops]. *)
Definition entry (op : Op) (i : Z) : LogEntry Op := mkLogEntry (Some op) 1 i.
Definition peer5 : Peer :=
  (mkRaft 1 MakePersister 0 0 1 0
     [zeroEntry; entry put_a 1; entry app_b 2; entry put_a 3; entry app_b 4; entry get_k 5]
     Leader 5 5 [6] [5] 0, []).

Definition snap2 : bytes :=
  gob_encode (A := kvmap) (fst (exec_log (take 2 ops))) ++
  gob_encode (A := reqmap) (snd (exec_log (take 2 ops))).

(** Command 1, a snapshot of the first two commands, command 2 overtaken by it,
    then the rest. *)
Definition msgs : list (ApplyMsg Op) :=
  [cmd_msg 1 1 put_a; snap_msg 2 1 snap2; cmd_msg 2 1 app_b; cmd_msg 3 1 put_a;
   cmd_msg 4 1 app_b; cmd_msg 5 1 get_k].

Lemma msgs_delivery : delivery ops 0 ∅ msgs 5.
Proof.
  apply (delivery_next ops 0); [done|].
  apply (delivery_snap ops 1 _ 2); [by vm_compute| |by vm_compute|].
  { by vm_compute. }
  apply (delivery_late ops 2 _ 1); [lia|set_solver|done|].
  apply (delivery_next ops 2); [done|]. apply (delivery_next ops 3); [done|].
  apply (delivery_next ops 4); [done|]. apply delivery_nil.
Qed.

Definition kv5 : KVServer Peer := StartKVServer 0 peer5 (-1).

Lemma replica_follows_log_witness :
  exists kv', applier_loop msgs kv5 = Ret kv' /\ db_state kv' = exec_log (take 5 ops).
Proof.
  apply (replica_follows_log ops 0 ∅ msgs 5 kv5).
  - split; [by vm_compute|by vm_compute|set_solver|by vm_compute|by split|
      apply node_okb_sound; by vm_compute|by vm_compute].
  - apply msgs_delivery.
  - by vm_compute.
Defined.

Lemma restart_follows_log_witness :
  exists kv', applier_loop msgs (StartKVServer 0 peer5 1) = Ret kv' /\
    db_state kv' = exec_log (take 5 ops).
Proof.
  apply (restart_follows_log ops 0 msgs 5 0 peer5 1).
  - apply node_okb_sound. by vm_compute.
  - by vm_compute.
  - left. by vm_compute.
  - apply msgs_delivery.
  - by vm_compute.
Defined.

(** Two servers: server 0 redirects or drops, server 1 answers. *)
Definition ck0 : Clerk := MakeClerk 2 42.
Definition gcall (k : nat) (i : Z) (_ : GetArgs) : option GetReply :=
  if decide (i = 1) then Some (mkGetReply OK "ab") else
  if decide (k = 0%nat) then None else Some (mkGetReply ErrWrongLeader "").
Definition pcall (k : nat) (i : Z) (_ : PutAppendArgs) : option PutAppendReply :=
  if decide (i = 1) then Some (mkPutAppendReply OK) else Some (mkPutAppendReply ErrWrongLeader).

Lemma clerk_returns_witness :
  (exists k i rep, gcall k i (mkGetArgs "k" 0 42) = Some rep /\ final_err (grErr rep) /\
    Clerk_Get gcall 2 "k" ck0 = Some (Some (grValue rep, mkClerk 2 42 1 i))) /\
  (exists k i rep, pcall k i (mkPutAppendArgs "k" "a" "Put" 0 42) = Some rep /\
    final_err (parErr rep) /\
    Clerk_PutAppend pcall 2 "k" "a" "Put" ck0 = Some (Some (mkClerk 2 42 1 i))).
Proof.
  apply (clerk_returns gcall pcall 1 "k" "a" "Put" ck0); unfold gcall, pcall, known_err, final_err.
  - by vm_compute.
  - by vm_compute.
  - intros k i rep. repeat case_decide; intros; simplify_eq/=; auto.
  - intros k i rep. repeat case_decide; intros; simplify_eq/=; auto.
  - eexists. split; [reflexivity|]. by left.
  - eexists. split; [reflexivity|]. by left.
Defined.

(** A leader whose [lastApplied] is 1 hands index 2 to a [Get]; Raft then
    commits it and the applier delivers it. *)
Definition peer1 : Peer :=
  (mkRaft 1 MakePersister 0 0 1 0 [zeroEntry; entry put_a 1] Leader 1 1 [2] [1] 0, []).
Definition gargs : GetArgs := mkGetArgs "k" 0 2.
Definition pargs : PutAppendArgs := mkPutAppendArgs "k" "b" "Append" 1 1.
Definition sys0 : Sys := sys_init (StartKVServer 0 peer1 (-1)).
Definition evs1 : list Event :=
  [ECommand 1 1 put_a; EInvoke (CGet gargs PStart); EInvoke (CPut pargs None);
   EHandler 1 false; EHandler 0 false; EHandler 1 false; EHandler 0 false; EHandler 1 false].
Definition sys1 : Sys := default sys0 (exec_all evs1 sys0).
Definition peer3 : Peer :=
  (set_commitIndex 3 (set_lastApplied 3 (fst (rf (s_kv sys1)))), snd (rf (s_kv sys1))).
Definition sys2 : Sys := mkSys (set_rf peer3 (s_kv sys1)) (s_calls sys1) (s_started sys1)
  (s_notified sys1) (s_seen sys1).
Definition evs3 : list Event :=
  [ECommand 2 1 get_k; EHandler 0 false; EHandler 0 false; EHandler 0 false;
   ECommand 3 1 app_b; EHandler 1 false; EHandler 1 false].
Definition sys3 : Sys := default sys2 (exec_all evs3 sys2).

Lemma exec_all_default es s (s' : Sys (R := Peer)) :
  is_Some (exec_all es s) -> rtc step s (default s' (exec_all es s)).
Proof. intros [s1 Hs]. rewrite Hs. by eapply kv_exec_all_steps. Qed.

Lemma sys2_reached : rtc step sys0 sys2.
Proof.
  eapply rtc_r.
  - apply (exec_all_default evs1 sys0 sys0). eexists. by vm_compute.
  - apply step_raft; [apply node_okb_sound; by vm_compute|by vm_compute..].
Qed.

Lemma sys3_reached : rtc step sys0 sys3.
Proof.
  transitivity sys2; [apply sys2_reached|]. apply (exec_all_default evs3 sys2 sys2).
  eexists. by vm_compute.
Qed.

Lemma get_reads_own_operation_witness :
  exists i t db, (i, t, get_k, db) ∈ s_notified sys3 /\ "a"%string = map_get db "k".
Proof.
  apply (get_reads_own_operation (StartKVServer 0 peer1 (-1)) sys3 0 gargs "a");
    [apply node_okb_sound; by vm_compute|by vm_compute|by vm_compute|apply sys3_reached|by vm_compute].
Defined.

Lemma put_append_applied_witness : exists t db, (3, t, app_b, db) ∈ s_notified sys3.
Proof.
  apply (put_append_applied (StartKVServer 0 peer1 (-1)) sys3 1 pargs 3 "");
    [apply node_okb_sound; by vm_compute|by vm_compute|by vm_compute|apply sys3_reached|by vm_compute].
Defined.

Lemma applier_never_blocks_witness : exists kv', applier (cmd_msg 2 1 get_k) (s_kv sys2) = Ret kv'.
Proof.
  apply (applier_never_blocks (StartKVServer 0 peer1 (-1)) sys2 2 1 get_k);
    [apply node_okb_sound; by vm_compute|by vm_compute|by vm_compute|apply sys2_reached|by vm_compute|by vm_compute].
Defined.

Lemma kv_snapshot_roundtrip_witness :
  db_state (readPersist (encodeState (s_kv sys3)) kv5) = db_state (s_kv sys3) /\
  KVDB (s_kv sys3) !! "k"%string = Some "ab"%string.
Proof.
  split; [apply (kv_snapshot_roundtrip (s_kv sys3) kv5)|by vm_compute].
Defined.
