(* ===== verification/WaitCh.v ===== *)
(** The channels on which RPC handlers wait for the applier, as the shard
    controller and the sharded key/value server keep them.

    [waitChMap] maps a log index to a channel; a channel is an address into the
    heap of buffers, so that a handler still holds its channel after the map
    entry is gone.  Both servers create channels of capacity 1. *)

From S2P Require Import Prelude.
Local Open Scope Z_scope.

Record WaitCh (A : Type) := mkWaitCh {
  waitChMap : gmap Z nat;
  chans : gmap nat (list A);
  nextChan : nat
}.
Arguments mkWaitCh {A}. Arguments waitChMap {A}. Arguments chans {A}. Arguments nextChan {A}.

Section waitch.
Context {A : Type}.
Implicit Types (w : WaitCh A).

Definition no_waits : WaitCh A := mkWaitCh ∅ ∅ O.

(** [ch, ok := waitChMap[index]; if !ok { waitChMap[index] = make(chan, 1) }] *)
Definition register (index : Z) w : nat * WaitCh A :=
  match waitChMap w !! index with
  | Some ch => (ch, w)
  | None =>
      (nextChan w, mkWaitCh (<[index := nextChan w]> (waitChMap w))
                     (<[nextChan w := []]> (chans w)) (S (nextChan w)))
  end.

(** [if ch, ok := waitChMap[index]; ok { ch <- x }]: blocks on a full channel. *)
Definition notify (index : Z) (x : A) w : Go (WaitCh A) :=
  match waitChMap w !! index with
  | Some ch =>
      match chans w !! ch with
      | Some [] => Ret (mkWaitCh (waitChMap w) (<[ch := [x]]> (chans w)) (nextChan w))
      | _ => Block
      end
  | None => Ret w
  end.

(** [<-ch] *)
Definition recv (ch : nat) w : Go (A * WaitCh A) :=
  match chans w !! ch with
  | Some (x :: l) => Ret (x, mkWaitCh (waitChMap w) (<[ch := l]> (chans w)) (nextChan w))
  | _ => Block
  end.

(** [delete(waitChMap, index)] *)
Definition unregister (index : Z) w : WaitCh A :=
  mkWaitCh (delete index (waitChMap w)) (chans w) (nextChan w).

(** A channel that was just registered for a new index has room, and a value
    put on it is the value its handler receives. *)
Lemma register_notify_recv index (x : A) w :
  waitChMap w !! index = None ->
  let '(ch, w1) := register index w in
  exists w2, notify index x w1 = Ret w2 /\
  exists w3, recv ch w2 = Ret (x, w3) /\ waitChMap w3 = waitChMap w1.
Proof.
  intros Hn. unfold register. rewrite Hn. unfold notify. simpl.
  rewrite lookup_insert_eq. simpl. rewrite lookup_insert_eq.
  eexists. split; [done|]. unfold recv. simpl. rewrite lookup_insert_eq. eauto.
Qed.

(** ** Room for the applier

    When [p] commands have been executed, the channels registered for later indices
    are empty: the applier puts one value on the channel of an index, when it executes
    the command of that index. *)
Record waits_ok (p : Z) w : Prop := {
  wo_fresh : forall k ch, waitChMap w !! k = Some ch -> (ch < nextChan w)%nat;
  wo_inj : forall k k' ch, waitChMap w !! k = Some ch -> waitChMap w !! k' = Some ch -> k = k';
  wo_room : forall k ch, waitChMap w !! k = Some ch -> p < k -> chans w !! ch = Some []
}.

Lemma waits_ok_none p : waits_ok p no_waits.
Proof. by split. Qed.

Lemma waits_ok_mono p p' w : p <= p' -> waits_ok p w -> waits_ok p' w.
Proof. intros Hp []. split; try done. intros k ch Hk Hlt. apply (wo_room0 k); [done|lia]. Qed.

Lemma waits_ok_register p index w : waits_ok p w -> waits_ok p (register index w).2.
Proof.
  intros [Hf Hi Hr]. unfold register. destruct (waitChMap w !! index) as [c|] eqn:E; [done|]. split; simpl.
  - intros k ch [[<- <-]|[_ Hk]]%lookup_insert_Some; [lia|]. specialize (Hf k ch Hk). lia.
  - intros k k' ch [[<- <-]|[_ Hk]]%lookup_insert_Some [[<- He]|[_ Hk']]%lookup_insert_Some; [done| | |by eapply Hi].
    + specialize (Hf k' _ Hk'). lia.
    + subst ch. specialize (Hf k _ Hk). lia.
  - intros k ch [[<- <-]|[_ Hk]]%lookup_insert_Some Hp; [by rewrite lookup_insert_eq|].
    rewrite lookup_insert_ne; [by eapply Hr|]. specialize (Hf k ch Hk). lia.
Qed.

Lemma waits_ok_recv p ch x w w' : waits_ok p w -> recv ch w = Ret (x, w') -> waits_ok p w'.
Proof.
  intros [Hf Hi Hr]. unfold recv. destruct (chans w !! ch) as [[|y l]|] eqn:E; try done. intros [= -> <-]. split; simpl; try done.
  intros k c Hk Hp. specialize (Hr k c Hk Hp). rewrite lookup_insert_ne; [done|]. intros ->. congruence.
Qed.

Lemma waits_ok_unregister p index w : waits_ok p w -> waits_ok p (unregister index w).
Proof.
  intros [Hf Hi Hr]. split; simpl.
  - intros k ch [_ Hk]%lookup_delete_Some. by eapply Hf.
  - intros k k' ch [_ Hk]%lookup_delete_Some [_ Hk']%lookup_delete_Some. by eapply Hi.
  - intros k ch [_ Hk]%lookup_delete_Some. by eapply Hr.
Qed.

(** The applier never blocks on the channel of the next command. *)
Lemma waits_ok_notify p x w : waits_ok p w -> exists w', notify (p + 1) x w = Ret w' /\ waits_ok (p + 1) w'.
Proof.
  intros Hw. pose proof (waits_ok_mono p (p + 1) w ltac:(lia) Hw) as Hw'. destruct Hw as [Hf Hi Hr]. unfold notify.
  destruct (waitChMap w !! (p + 1)) as [ch|] eqn:E; [|by exists w]. rewrite (Hr _ _ E) by lia. eexists. split; [done|].
  split; simpl; [done|done|]. intros k c Hk Hp. rewrite lookup_insert_ne; [eapply Hr; [done|lia]|].
  intros <-. specialize (Hi _ _ _ E Hk). lia.
Qed.
End waitch.
