(* ===== verification/ShardCtrler.v ===== *)
(** The shard controller: [src/src/shardctrler/server.go], [client.go] and
    [common.go].

    The replicated state is the list of configurations and the table of the
    last request of every client.  [execute] and the four [process] functions
    work on it; [adjustShards] rebalances an assignment.  Go iterates a map in
    an arbitrary order: [findMaxAndMinGid] takes the order in which the keys
    were visited, and [adjustShards] an oracle that gives one order per
    iteration.  [None] is a run-time panic; the loop of [adjustShards] takes
    fuel and [None] inside [Some] would be its exhaustion. *)

From S2P Require Import Prelude Gob Persister RaftTypes RaftApi WaitCh.
Local Open Scope Z_scope.

(** * common.go *)

Definition NShards : Z := 10.

Record Config := mkConfig {
  Num : Z;
  Shards : list Z;
  Groups : gmap Z (list string)
}.

#[export] Instance Config_eq_dec : EqDecision Config.
Proof. solve_decision. Defined.
#[export] Instance Config_countable : Countable Config.
Proof.
  apply (inj_countable' (fun c => (Num c, Shards c, Groups c))
           (fun '(n, s, g) => mkConfig n s g)).
  by intros [].
Defined.

(** The zero value: no groups, every shard on group 0. *)
Definition zeroConfig : Config := mkConfig 0 (replicate (Z.to_nat NShards) 0) ∅.

Definition OK : string := "OK".

Record JoinArgs := mkJoinArgs {
  jServers : gmap Z (list string); jRequestId : Z; jClientId : Z }.
Record LeaveArgs := mkLeaveArgs { lGIDs : list Z; lRequestId : Z; lClientId : Z }.
Record MoveArgs := mkMoveArgs { mShard : Z; mGID : Z; mRequestId : Z; mClientId : Z }.
Record QueryArgs := mkQueryArgs { qNum : Z; qRequestId : Z; qClientId : Z }.

(** [JoinReply], [LeaveReply] and [MoveReply] have the first two fields. *)
Record QueryReply := mkQueryReply { WrongLeader : bool; rErr : string; rConfig : Config }.

(** * server.go *)

Record Op := mkOp {
  ClientId : Z; RequestId : Z; OpType : string; Servers : gmap Z (list string);
  GIDs : list Z; Shard : Z; GID : Z; opNum : Z; Configure : Config }.

#[export] Instance Op_eq_dec : EqDecision Op.
Proof. solve_decision. Defined.
#[export] Instance Op_countable : Countable Op.
Proof.
  apply (inj_countable' (fun o => (ClientId o, RequestId o, OpType o, Servers o, GIDs o,
            Shard o, GID o, opNum o, Configure o))
           (fun '(c, r, t, s, g, sh, gi, n, cf) => mkOp c r t s g sh gi n cf)).
  by intros [].
Defined.

Definition set_Configure (c : Config) (o : Op) : Op :=
  mkOp (ClientId o) (RequestId o) (OpType o) (Servers o) (GIDs o) (Shard o) (GID o)
    (opNum o) c.

Abbreviation reqmap := (gmap Z Z).
Abbreviation groups := (gmap Z (list string)).
Abbreviation counts := (gmap Z (list Z)).

Definition isInvalidRequest (clientId requestId : Z) (lr : reqmap) : bool :=
  match lr !! clientId with
  | Some lastRequestId => bool_decide (requestId <= lastRequestId)
  | None => false
  end.

Definition UpdateLastRequest (op : Op) (lr : reqmap) : reqmap :=
  match lr !! ClientId op with
  | Some lastRequestId =>
      if decide (lastRequestId < RequestId op)
      then <[ClientId op := RequestId op]> lr else lr
  | None => <[ClientId op := RequestId op]> lr
  end.

(** [sc.configs[n-1]] *)
Definition last_config (configs : list Config) : option Config :=
  configs.[zlen configs - 1].

Definition copyGroups (configs : list Config) : option groups :=
  c ← last_config configs;
  Some ((fun servers => go_copy (replicate (length servers) ""%string) servers) <$> Groups c).

(** ** Balancing *)

Record Extremes := mkExtremes { maxGid : Z; mx : Z; minGid : Z; mn : Z }.

(** The body of the loop over the sorted gids. *)
Definition find_step (cnt : counts) (e : Extremes) (gid : Z) : Extremes :=
  let m := zlen (default [] (cnt !! gid)) in
  let e := if decide (maxGid e <> 0 /\ (gid = 0 /\ 0 < m \/ gid <> 0 /\ mx e < m))
           then mkExtremes gid m (minGid e) (mn e) else e in
  if decide (gid <> 0 /\ m < mn e) then mkExtremes (maxGid e) (mx e) gid m else e.

Definition sort_Ints (l : list Z) : list Z := merge_sort Z.le l.

(** [keys]: the keys of [cnt] in the order the [range] loop visited them. *)
Definition findMaxAndMinGid (keys : list Z) (cnt : counts) : Extremes :=
  foldl (find_step cnt) (mkExtremes (-1) int64_min (-1) int64_max) (sort_Ints keys).

(** [cnt]: an empty list per group, then every shard appended to its owner's. *)
Definition empty_counts (newGroups : groups) : counts := (fun _ => []) <$> newGroups.
Definition add_shard (cnt : counts) (shardId gid : Z) : counts :=
  <[gid := default [] (cnt !! gid) ++ [shardId]]> cnt.
Definition count_shards (newGroups : groups) (newShards : list Z) : counts :=
  foldl (fun cnt '(shardId, gid) => add_shard cnt shardId gid) (empty_counts newGroups)
    (zip (seqZ 0 (zlen newShards)) newShards).

(** The [for] loop: [None] is a panic, [Some None] exhausted fuel. *)
Fixpoint balance (fuel : nat) (keys_of : nat -> counts -> list Z) (cnt : counts)
  (newShards : list Z) : option (option (list Z)) :=
  match fuel with
  | O => Some None
  | S fuel =>
      let e := findMaxAndMinGid (keys_of fuel cnt) cnt in
      if decide (maxGid e <> 0 /\ wrap64 (mx e - mn e) <= 1) then Some (Some newShards) else
      let from := default [] (cnt !! maxGid e) in
      shardId ← from.[0];
      rest ← from.[1:];
      let cnt := <[maxGid e := rest]> cnt in
      let cnt := add_shard cnt shardId (minGid e) in
      newShards ← go_store newShards shardId (minGid e);
      balance fuel keys_of cnt newShards
  end.

(** 22 moves per unassigned shard and one per unit of the sum of squares are
    more than the loop can make (see [ShardCtrlerSpec]). *)
Definition balance_fuel : nat := 221.

Definition adjustShards (keys_of : nat -> counts -> list Z) (newGroups : groups)
  (newShards : list Z) : option (option (list Z)) :=
  if decide (size newGroups = 0%nat) then Some (Some newShards) else
  balance balance_fuel keys_of (count_shards newGroups newShards) newShards.

(** ** Commands *)

(** A controller's replicated state. *)
Record SCState := mkSCState { configs : list Config; LastRequestMap : reqmap }.

Section commands.
(** The iteration orders of this replica's maps. *)
Context (keys_of : nat -> counts -> list Z).

(** [sc.configs = append(sc.configs, Config{Num: last + 1, ...})] *)
Definition append_config (last : Config) (g : groups) (s : list Z) (cs : list Config) : list Config :=
  cs ++ [mkConfig (Num last + 1) s g].

(** Rebalance, then append; a loop that never ends never returns ([None]). *)
Definition finish_config (last : Config) (g : groups) (s : list Z) (cs : list Config) :
  option (list Config) :=
  r ← adjustShards keys_of g s;
  newShards ← r;
  Some (append_config last g newShards cs).

Definition processJoin (op : Op) (cs : list Config) : option (list Config) :=
  last ← last_config cs;
  newGroups ← copyGroups cs;
  finish_config last (Servers op ∪ newGroups) (Shards last) cs.

(** One [gid] of [op.GIDs]: its shards go back to group 0. *)
Definition leave_one (st : groups * list Z) (gid : Z) : groups * list Z :=
  (delete gid st.1, map (fun belongGid => if decide (gid = belongGid) then 0 else belongGid) st.2).

Definition processLeave (op : Op) (cs : list Config) : option (list Config) :=
  last ← last_config cs;
  newGroups ← copyGroups cs;
  let '(newGroups, newShards) := foldl leave_one (newGroups, Shards last) (GIDs op) in
  finish_config last newGroups newShards cs.

Definition processMove (op : Op) (cs : list Config) : option (list Config) :=
  last ← last_config cs;
  newGroups ← copyGroups cs;
  newShards ← go_store (Shards last) (Shard op) (GID op);
  Some (append_config last newGroups newShards cs).

Definition processQuery (op : Op) (cs : list Config) : option Op :=
  let n := zlen cs in
  if decide (opNum op = -1 \/ n <= opNum op) then
    c ← last_config cs; Some (set_Configure c op)
  else c ← cs.[opNum op]; Some (set_Configure c op).

Definition execute (op : Op) (st : SCState) : option (Op * SCState) :=
  if isInvalidRequest (ClientId op) (RequestId op) (LastRequestMap st) then Some (op, st) else
  '(op, cs) ←
    (if decide (OpType op = "Join") then cs ← processJoin op (configs st); Some (op, cs)
     else if decide (OpType op = "Leave") then cs ← processLeave op (configs st); Some (op, cs)
     else if decide (OpType op = "Move") then cs ← processMove op (configs st); Some (op, cs)
     else if decide (OpType op = "Query") then
       op ← processQuery op (configs st); Some (op, configs st)
     else Some (op, configs st));
  Some (op, mkSCState cs (UpdateLastRequest op (LastRequestMap st))).

(** ** The server *)

Record ShardCtrler (R : Type) := mkShardCtrler {
  me : Z; rf : R; dead : Z; sc_state : SCState; waits : WaitCh Op }.
Arguments mkShardCtrler {R}. Arguments me {R}. Arguments rf {R}. Arguments dead {R}.
Arguments sc_state {R}. Arguments waits {R}.

Context {R : Type} `{RaftApi R Op}.
Implicit Types (sc : ShardCtrler R).

Definition set_rf (r : R) sc := mkShardCtrler (me sc) r (dead sc) (sc_state sc) (waits sc).
Definition set_state (st : SCState) sc := mkShardCtrler (me sc) (rf sc) (dead sc) st (waits sc).
Definition set_waits (w : WaitCh Op) sc :=
  mkShardCtrler (me sc) (rf sc) (dead sc) (sc_state sc) w.

Definition Kill sc : ShardCtrler R :=
  mkShardCtrler (me sc) (rf_Kill (rf sc)) 1 (sc_state sc) (waits sc).
Definition killed sc : bool := bool_decide (dead sc = 1).
(** [Raft()], needed by the shardkv tester. *)
Definition get_Raft sc : R := rf sc.

Definition notifyWaitCh (index : Z) (op : Op) sc : Go (ShardCtrler R) :=
  w ← notify index op (waits sc); Ret (set_waits w sc).

(** One iteration of [applier].  The type assertion panics on a message that
    carries no [Op], in particular on a snapshot. *)
Definition applier (applyMsg : ApplyMsg Op) sc : Go (ShardCtrler R) :=
  op ← of_opt (amCommand applyMsg);
  '(op, st) ← of_opt (execute op (sc_state sc));
  let sc := set_state st sc in
  let '(currentTerm, isLeader) := rf_GetState (rf sc) in
  if decide (isLeader = true /\ CommandTerm applyMsg = currentTerm)
  then notifyWaitCh (CommandIndex applyMsg) op sc else Ret sc.

Fixpoint applier_loop (msgs : list (ApplyMsg Op)) sc : Go (ShardCtrler R) :=
  match msgs with
  | [] => Ret sc
  | m :: msgs => if killed sc then Ret sc else sc ← applier m sc; applier_loop msgs sc
  end.

(** ** RPC handlers *)

Inductive PC :=
| PCheck
| PStart
| PRegister (index term : Z)
| PWait (index term : Z) (ch : nat)
| PGetState (index term : Z) (res : Op)
| PDelete (index : Z) (reply : QueryReply)
| PDone (reply : QueryReply).

Definition reply_ok : QueryReply := mkQueryReply false OK zeroConfig.
Definition reply_wrong : QueryReply := mkQueryReply true "" zeroConfig.

(** The body the four handlers share; they differ in the command they build and
    in that [Query] copies the configuration of the result ([res_config]). *)
Definition handle (op : Op) (res_config : Op -> Config) (timeout : bool) (pc : PC) sc :
  Go (PC * ShardCtrler R) :=
  match pc with
  | PCheck =>
      if isInvalidRequest (ClientId op) (RequestId op) (LastRequestMap (sc_state sc))
      then Ret (PDone reply_ok, sc) else Ret (PStart, sc)
  | PStart =>
      '(r, (index, term, isLeader)) ← of_opt (rf_Start op (rf sc));
      let sc := set_rf r sc in
      if (isLeader : bool) then Ret (PRegister index term, sc)
      else Ret (PDone reply_wrong, sc)
  | PRegister index term =>
      let '(ch, w) := register index (waits sc) in Ret (PWait index term ch, set_waits w sc)
  | PWait index term ch =>
      if timeout then Ret (PDelete index reply_wrong, sc) else
      '(res, w) ← recv ch (waits sc);
      Ret (PGetState index term res, set_waits w sc)
  | PGetState index term res =>
      let '(currentTerm, stillLeader) := rf_GetState (rf sc) in
      Ret (PDelete index (mkQueryReply
             (bool_decide (stillLeader = false \/ currentTerm <> term)) OK (res_config res)), sc)
  | PDelete index reply =>
      Ret (PDone reply, set_waits (unregister index (waits sc)) sc)
  | PDone reply => Ret (PDone reply, sc)
  end.

Definition joinOp (a : JoinArgs) : Op :=
  mkOp (jClientId a) (jRequestId a) "Join" (jServers a) [] 0 0 0 zeroConfig.
Definition leaveOp (a : LeaveArgs) : Op :=
  mkOp (lClientId a) (lRequestId a) "Leave" ∅ (lGIDs a) 0 0 0 zeroConfig.
Definition moveOp (a : MoveArgs) : Op :=
  mkOp (mClientId a) (mRequestId a) "Move" ∅ [] (mShard a) (mGID a) 0 zeroConfig.
Definition queryOp (a : QueryArgs) : Op :=
  mkOp (qClientId a) (qRequestId a) "Query" ∅ [] 0 0 (qNum a) zeroConfig.

Definition no_config (_ : Op) : Config := zeroConfig.
Definition Join (a : JoinArgs) := handle (joinOp a) no_config.
Definition Leave (a : LeaveArgs) := handle (leaveOp a) no_config.
Definition Move (a : MoveArgs) := handle (moveOp a) no_config.
Definition Query (a : QueryArgs) := handle (queryOp a) Configure.

(** [StartServer], with the Raft peer [raft.Make] returned. *)
Definition StartServer (self : Z) (r : R) : ShardCtrler R :=
  mkShardCtrler self r 0 (mkSCState [zeroConfig] ∅) no_waits.
End commands.
Arguments mkShardCtrler {R}. Arguments me {R}. Arguments rf {R}. Arguments dead {R}.
Arguments sc_state {R}. Arguments waits {R}.

(** * client.go *)

Record Clerk := mkClerk {
  servers : nat; ckClientId : Z; ckRequestId : Z; LeaderId : Z }.

Definition nrand_max : Z := Z.shiftl 1 62.
Definition nrand (rnd : Z) : Z := rnd mod nrand_max.
Definition MakeClerk (nservers : nat) (rnd : Z) : Clerk := mkClerk nservers (nrand rnd) 0 0.

Definition bump_request (ck : Clerk) : Clerk :=
  mkClerk (servers ck) (ckClientId ck) (wrap64 (ckRequestId ck + 1)) (LeaderId ck).

(** The loops of the four operations: [call round i args] is the outcome of the
    RPC to server [i] in a given round, [None] for a failed call.  A round tries
    the servers in order; [fuel] bounds the rounds. *)
Section clerk.
Context {Args : Type} (call : nat -> Z -> Args -> option QueryReply).

Fixpoint try_servers (round : nat) (srvs : list Z) (args : Args) : option QueryReply :=
  match srvs with
  | [] => None
  | srv :: srvs =>
      match call round srv args with
      | Some reply => if WrongLeader reply then try_servers round srvs args else Some reply
      | None => try_servers round srvs args
      end
  end.

Fixpoint retry (fuel round : nat) (args : Args) (ck : Clerk) : option (Config * Clerk) :=
  match fuel with
  | O => None
  | S fuel =>
      match try_servers round (seqZ 0 (Z.of_nat (servers ck))) args with
      | Some reply => Some (rConfig reply, bump_request ck)
      | None => retry fuel (S round) args ck
      end
  end.
End clerk.

Definition Clerk_Query call (fuel : nat) (num : Z) (ck : Clerk) : option (Config * Clerk) :=
  retry call fuel 0 (mkQueryArgs num (ckRequestId ck) (ckClientId ck)) ck.
Definition Clerk_Join call (fuel : nat) (s : groups) (ck : Clerk) : option Clerk :=
  snd <$> retry call fuel 0 (mkJoinArgs s (ckRequestId ck) (ckClientId ck)) ck.
Definition Clerk_Leave call (fuel : nat) (gids : list Z) (ck : Clerk) : option Clerk :=
  snd <$> retry call fuel 0 (mkLeaveArgs gids (ckRequestId ck) (ckClientId ck)) ck.
Definition Clerk_Move call (fuel : nat) (shard gid : Z) (ck : Clerk) : option Clerk :=
  snd <$> retry call fuel 0 (mkMoveArgs shard gid (ckRequestId ck) (ckClientId ck)) ck.
