(* ===== verification/ShardCtrlerBal.v ===== *)
(** Balancing: [adjustShards] terminates, ignores the iteration order of Go maps
    and leaves a balanced assignment. *)

From S2P Require Import Prelude Gob RaftTypes RaftApi WaitCh ShardCtrler.
Local Open Scope Z_scope.

(** * Order independence *)

(** A legal iteration: every key once, in any order. *)
Definition iterates (keys_of : nat -> counts -> list Z) : Prop :=
  forall n cnt, keys_of n cnt ≡ₚ elements (dom cnt).

Lemma sort_Ints_perm l1 l2 : l1 ≡ₚ l2 -> sort_Ints l1 = sort_Ints l2.
Proof.
  intros Hp. apply (StronglySorted_unique Z.le); try apply (StronglySorted_merge_sort Z.le).
  unfold sort_Ints. by rewrite !merge_sort_Permutation.
Qed.

Lemma find_order_irrelevant keys1 keys2 cnt :
  keys1 ≡ₚ keys2 -> findMaxAndMinGid keys1 cnt = findMaxAndMinGid keys2 cnt.
Proof. intros Hp. unfold findMaxAndMinGid. by rewrite (sort_Ints_perm _ _ Hp). Qed.

Lemma balance_order_irrelevant k1 k2 fuel cnt shards :
  iterates k1 -> iterates k2 -> balance fuel k1 cnt shards = balance fuel k2 cnt shards.
Proof.
  intros H1 H2. revert cnt shards. induction fuel as [|fuel IH]; intros cnt shards; [done|].
  simpl. rewrite (find_order_irrelevant (k1 fuel cnt) (k2 fuel cnt)) by (by etrans; [apply H1|symmetry; apply H2]).
  case_decide; [done|]. destruct (_.[0]); simpl; [|done].
  destruct (_.[1:]); simpl; [|done]. destruct (go_store _ _ _); simpl; [|done]. apply IH.
Qed.

Lemma adjust_order_irrelevant k1 k2 g s :
  iterates k1 -> iterates k2 -> adjustShards k1 g s = adjustShards k2 g s.
Proof.
  intros. unfold adjustShards. case_decide; [done|]. by apply balance_order_irrelevant.
Qed.

(** * The extremes *)

Definition load (cnt : counts) (g : Z) : Z := zlen (default [] (cnt !! g)).

Lemma load_nonneg cnt g : 0 <= load cnt g.
Proof. apply zlen_nonneg. Qed.

(** What the scan of [l] has found: group 0 when it holds shards, else the most
    loaded of the other groups; and the least loaded of the other groups. *)
Definition found_max (cnt : counts) (l : list Z) (e : Extremes) : Prop :=
  (0 ∈ l /\ 0 < load cnt 0 /\ maxGid e = 0 /\ mx e = load cnt 0) \/
  (~ (0 ∈ l /\ 0 < load cnt 0) /\
   ((forall g, g ∈ l -> g = 0) /\ maxGid e = -1 /\ mx e = int64_min \/
    maxGid e <> 0 /\ maxGid e ∈ l /\ mx e = load cnt (maxGid e) /\
    forall g, g ∈ l -> g <> 0 -> load cnt g <= mx e)).
Definition found_min (cnt : counts) (l : list Z) (e : Extremes) : Prop :=
  (forall g, g ∈ l -> g = 0) /\ mn e = int64_max \/
  minGid e <> 0 /\ minGid e ∈ l /\ mn e = load cnt (minGid e) /\
  forall g, g ∈ l -> g <> 0 -> mn e <= load cnt g.

Lemma elem_of_snoc (l : list Z) x y : x ∈ l ++ [y] <-> x ∈ l \/ x = y.
Proof. rewrite elem_of_app, list_elem_of_singleton. done. Qed.

Lemma find_step_max cnt e g :
  let e' := find_step cnt e g in
  (maxGid e', mx e') =
  (if decide (maxGid e <> 0 /\ (g = 0 /\ 0 < load cnt g \/ g <> 0 /\ mx e < load cnt g))
   then (g, load cnt g) else (maxGid e, mx e)).
Proof. unfold find_step, load. by repeat case_decide. Qed.

Lemma find_step_min cnt e g :
  let e' := find_step cnt e g in
  (minGid e', mn e') =
  (if decide (g <> 0 /\ load cnt g < mn e) then (g, load cnt g) else (minGid e, mn e)).
Proof. unfold find_step, load. by repeat case_decide. Qed.

Lemma found_max_snoc cnt l e g :
  found_max cnt l e -> found_max cnt (l ++ [g]) (find_step cnt e g).
Proof.
  intros Hf. pose proof (find_step_max cnt e g) as Hs. simpl in Hs.
  unfold found_max. setoid_rewrite elem_of_snoc.
  pose proof (load_nonneg cnt g) as Hg.
  case_decide as Hd; injection Hs as -> ->.
  - destruct Hd as [Hne [[-> Hp]|[Hg0 Hlt]]]; [by left; auto|right].
    destruct Hf as [(_ & _ & ? & _)|[Hno Hf]]; [done|]. split; [naive_solver|].
    right. split_and!; auto. intros g' [Hin| ->] Hg'; [|done].
    destruct Hf as [(Hall & _)|(_ & _ & _ & Hmax)]; [naive_solver|].
    specialize (Hmax g' Hin Hg'). lia.
  - destruct Hf as [(Hin & Hp & -> & ->)|[Hno Hf]]; [by left; auto|right].
    assert (Hng : g = 0 -> load cnt g = 0).
    { intros ->. destruct (decide (load cnt 0 = 0)); [done|]. exfalso. apply Hd.
      destruct Hf as [(_ & Hm & _)|(Hm & _)]; (split; [congruence|]); left; split; done || lia. }
    split; [intros [[?|<-] ?]; [by apply Hno|]; rewrite Hng in *; lia|].
    destruct Hf as [(Hall & Hm & Hmx)|(Hm & Hin & Hmx & Hmax)].
    + left. split; [|done]. intros g' [?| ->]; [auto|].
      destruct (decide (g = 0)); [done|]. exfalso. apply Hd. split; [lia|].
      right. unfold int64_min in Hmx. lia.
    + right. split_and!; auto. intros g' [?| ->] Hg'; [auto|].
      destruct (decide (load cnt g <= mx e)); [done|]. exfalso. apply Hd. split; [done|].
      right. lia.
Qed.

Lemma found_min_snoc cnt l e g :
  load cnt g < int64_max ->
  found_min cnt l e -> found_min cnt (l ++ [g]) (find_step cnt e g).
Proof.
  intros Hb Hf. pose proof (find_step_min cnt e g) as Hs. simpl in Hs.
  unfold found_min. setoid_rewrite elem_of_snoc.
  case_decide as Hd; injection Hs as -> ->.
  - right. split_and!; [apply Hd|by right|done|]. intros g' [Hin| ->] Hg'; [|done].
    destruct Hf as [[Hall _]|(_ & _ & _ & Hmin)]; [naive_solver|].
    specialize (Hmin g' Hin Hg'). lia.
  - destruct Hf as [[Hall Hm]|(Hm & Hin & Hmn & Hmin)].
    + left. split; [|done]. intros g' [?| ->]; [auto|].
      destruct (decide (g = 0)); [done|]. exfalso. apply Hd. lia.
    + right. split_and!; auto. intros g' [?| ->] Hg'; [auto|].
      destruct (decide (mn e <= load cnt g)); [done|]. exfalso. apply Hd. lia.
Qed.

Lemma found_fold cnt l :
  (forall g, load cnt g < int64_max) ->
  let e := foldl (find_step cnt) (mkExtremes (-1) int64_min (-1) int64_max) l in
  found_max cnt l e /\ found_min cnt l e.
Proof.
  intros Hb. induction l as [|g l [IH1 IH2]] using rev_ind; simpl.
  - split; [right|left]; (split; [set_solver|]); [left|done]. split; [set_solver|done].
  - rewrite foldl_app. simpl. split; [by apply found_max_snoc|by apply found_min_snoc].
Qed.

(** The extremes of a table in which some group other than 0 has an entry. *)
Lemma find_spec cnt keys e :
  keys ≡ₚ elements (dom cnt) -> (forall g, load cnt g < int64_max) ->
  (exists g, g ∈ dom cnt /\ g <> 0) -> e = findMaxAndMinGid keys cnt ->
  (minGid e <> 0 /\ minGid e ∈ dom cnt /\ mn e = load cnt (minGid e) /\
   forall g, g ∈ dom cnt -> g <> 0 -> mn e <= load cnt g) /\
  mx e = load cnt (maxGid e) /\ maxGid e ∈ dom cnt /\
  (maxGid e = 0 /\ 0 < load cnt 0 \/
   maxGid e <> 0 /\ load cnt 0 = 0 /\ forall g, g ∈ dom cnt -> g <> 0 -> load cnt g <= mx e).
Proof.
  intros Hk Hb (g0 & Hg0 & Hne) ->. unfold findMaxAndMinGid.
  destruct (found_fold cnt (sort_Ints keys) Hb) as [Hmax Hmin].
  assert (Hin : forall g, g ∈ sort_Ints keys <-> g ∈ dom cnt).
  { intros g. unfold sort_Ints. by rewrite merge_sort_Permutation, Hk, elem_of_elements. }
  unfold found_max, found_min in *. setoid_rewrite Hin in Hmax. setoid_rewrite Hin in Hmin.
  split.
  - destruct Hmin as [[Hall _]|Hmin]; [|done]. exfalso. eauto.
  - destruct Hmax as [(Hd & Hp & Hm & Hmx)|[Hno [(Hall & _)|(Hm & Hd & Hmx & Hmax)]]].
    + rewrite Hm. auto.
    + exfalso. eauto.
    + split; [done|]. split; [done|]. right. split; [done|]. split; [|done].
      destruct (decide (load cnt 0 = 0)); [done|]. exfalso. apply Hno.
      pose proof (load_nonneg cnt 0). split; [|lia].
      unfold load in *. destruct (cnt !! 0) eqn:E; [by eapply elem_of_dom_2|done].
Qed.

(** * Termination measure *)

Definition sumZ (f : Z -> Z) (ks : list Z) : Z := foldr (fun k acc => f k + acc) 0 ks.

Lemma sumZ_ext f f' ks : (forall k, k ∈ ks -> f k = f' k) -> sumZ f ks = sumZ f' ks.
Proof.
  induction ks as [|k ks IH]; simpl; intros H; [done|].
  rewrite H by set_solver. rewrite IH; [done|]. set_solver.
Qed.

Lemma sumZ_update f f' ks a :
  NoDup ks -> a ∈ ks -> (forall k, k ∈ ks -> k <> a -> f' k = f k) ->
  sumZ f' ks = sumZ f ks - f a + f' a.
Proof.
  induction ks as [|k ks IH]; intros Hnd Ha Hf; [by apply not_elem_of_nil in Ha|].
  apply NoDup_cons in Hnd as [Hk Hnd]. simpl.
  apply elem_of_cons in Ha as [->|Ha].
  - rewrite (sumZ_ext f' f ks); [lia|]. intros k' Hk'. apply Hf; set_solver.
  - rewrite IH; [|done|done|set_solver].
    rewrite (Hf k) by set_solver. lia.
Qed.

Lemma sumZ_le f f' ks : (forall k, k ∈ ks -> f k <= f' k) -> sumZ f ks <= sumZ f' ks.
Proof.
  induction ks as [|k ks IH]; simpl; intros H; [done|].
  pose proof (H k ltac:(set_solver)). assert (sumZ f ks <= sumZ f' ks) by (apply IH; set_solver).
  lia.
Qed.

Lemma sumZ_nonneg f ks : (forall k, 0 <= f k) -> 0 <= sumZ f ks.
Proof. intros H. induction ks as [|k ks IH]; simpl; [done|]. specialize (H k). lia. Qed.

Lemma sumZ_scale c f ks : sumZ (fun k => c * f k) ks = c * sumZ f ks.
Proof. induction ks as [|k ks IH]; simpl; [lia|]. rewrite IH. lia. Qed.

(** A shard of group 0 weighs more than it can add to any group's square. *)
Definition weight (g n : Z) : Z := if decide (g = 0) then 22 * n else n * n.
Definition measure (cnt : counts) (ks : list Z) : Z := sumZ (fun g => weight g (load cnt g)) ks.

Lemma measure_nonneg cnt ks : 0 <= measure cnt ks.
Proof.
  apply sumZ_nonneg. intros g. unfold weight. pose proof (load_nonneg cnt g).
  case_decide; nia.
Qed.

(** * The table and the assignment agree *)

Definition tally (cnt : counts) (shards : list Z) : Prop :=
  forall g, NoDup (default [] (cnt !! g)) /\
    forall s, s ∈ default [] (cnt !! g) <-> shards.[s] = Some g.

(** The shards a group owns. *)
Definition owned (g : Z) (shards : list Z) : list Z :=
  filter (fun s => shards.[s] = Some g) (seqZ 0 (zlen shards)).

Lemma elem_of_owned g shards s : s ∈ owned g shards <-> shards.[s] = Some g.
Proof.
  unfold owned. rewrite list_elem_of_filter, elem_of_seqZ. split; [by intros [? _]|].
  intros H. split; [done|]. apply go_index_Some_lt in H. lia.
Qed.

Lemma NoDup_owned g shards : NoDup (owned g shards).
Proof. apply NoDup_filter, NoDup_seqZ. Qed.

Lemma tally_load cnt shards g : tally cnt shards -> load cnt g = zlen (owned g shards).
Proof.
  intros Ht. destruct (Ht g) as [Hnd Hin]. unfold load, zlen. f_equal.
  apply Permutation_length, NoDup_Permutation; [done|apply NoDup_owned|].
  intros s. by rewrite Hin, elem_of_owned.
Qed.

Lemma owned_bound g shards : zlen (owned g shards) <= zlen shards.
Proof.
  unfold owned, zlen. pose proof (length_filter (fun s => shards.[s] = Some g)
    (seqZ 0 (Z.of_nat (length shards)))) as H.
  rewrite length_seqZ in H. lia.
Qed.

(** Moving the first shard of [a] to the end of [b]. *)
Lemma tally_move cnt shards a b s rest shards' :
  tally cnt shards -> default [] (cnt !! a) = s :: rest -> a <> b ->
  go_store shards s b = Some shards' ->
  tally (add_shard (<[a := rest]> cnt) s b) shards'.
Proof.
  intros Ht Ha Hne Hst g. destruct (Ht a) as [Hnda Hina]. rewrite Ha in Hnda, Hina.
  apply NoDup_cons in Hnda as [Hs Hnda].
  pose proof (fun j => go_index_store _ _ j _ _ Hst) as Hidx.
  assert (Hsa : shards.[s] = Some a) by (apply Hina; set_solver).
  unfold add_shard. rewrite (lookup_insert_ne _ a b) by done.
  destruct (Ht b) as [Hndb Hinb]. destruct (Ht g) as [Hndg Hing].
  destruct (decide (g = b)) as [->|Hgb]; [|destruct (decide (g = a)) as [->|Hga]].
  - rewrite lookup_insert_eq. simpl. split.
    + apply NoDup_app. split; [done|]. split; [|apply NoDup_singleton].
      intros x Hx ->%list_elem_of_singleton. apply Hinb in Hx. congruence.
    + intros x. rewrite elem_of_snoc, Hinb, Hidx. case_decide; naive_solver.
  - rewrite lookup_insert_ne, lookup_insert_eq by done. simpl. split; [done|].
    intros x. rewrite Hidx. case_decide as Hx; [subst x; naive_solver|].
    rewrite <- Hina. set_solver.
  - rewrite !lookup_insert_ne by done. split; [done|].
    intros x. rewrite Hidx, Hing. case_decide as Hx; [subst x; naive_solver|done].
Qed.

Lemma load_move cnt a b s rest g :
  a <> b -> default [] (cnt !! a) = s :: rest ->
  load (add_shard (<[a := rest]> cnt) s b) g =
  (if decide (g = b) then load cnt b + 1 else if decide (g = a) then load cnt a - 1
   else load cnt g).
Proof.
  intros Hne Ha. unfold load, add_shard. rewrite (lookup_insert_ne _ a b) by done.
  destruct (decide (g = b)) as [->|]; [|destruct (decide (g = a)) as [->|]].
  - rewrite lookup_insert_eq. simpl. rewrite zlen_app. done.
  - rewrite lookup_insert_ne, lookup_insert_eq by done. rewrite Ha, zlen_cons.
    change (default [] (Some rest)) with rest. lia.
  - by rewrite !lookup_insert_ne.
Qed.

(** Every move of the loop lowers the measure. *)
Lemma measure_move cnt ks a b s rest :
  NoDup ks -> a ∈ ks -> b ∈ ks -> a <> b -> b <> 0 -> default [] (cnt !! a) = s :: rest ->
  load cnt b <= 10 -> (a = 0 \/ load cnt b + 2 <= load cnt a) ->
  measure (add_shard (<[a := rest]> cnt) s b) ks < measure cnt ks.
Proof.
  intros Hnd Ha Hb Hne Hb0 Hrest Hle Hd. unfold measure.
  set (cnt' := add_shard _ s b).
  assert (Hl := fun g => load_move cnt a b s rest g Hne Hrest). fold cnt' in Hl.
  set (f := fun g => weight g (load cnt g)).
  set (h := fun g => if decide (g = a) then weight a (load cnt a - 1) else f g).
  rewrite (sumZ_update h (fun g => weight g (load cnt' g)) ks b Hnd Hb).
  2:{ intros g _ Hg. unfold h, f. rewrite Hl, (decide_False (P := g = b)) by done.
      by case_decide; subst. }
  rewrite (sumZ_update f h ks a Hnd Ha).
  2:{ intros g _ Hg. unfold h. by rewrite decide_False. }
  assert (Hlb : load cnt' b = load cnt b + 1) by (by rewrite Hl, decide_True).
  assert (Hha : h a = weight a (load cnt a - 1)) by (unfold h; by rewrite decide_True).
  assert (Hhb : h b = f b) by (unfold h; by rewrite decide_False).
  rewrite Hhb, Hha, Hlb. generalize (sumZ f ks). intros total. unfold f, weight.
  rewrite !(decide_False (P := b = 0)) by done.
  pose proof (load_nonneg cnt a). pose proof (load_nonneg cnt b).
  destruct (decide (a = 0)); nia.
Qed.

(** * The loop *)

Lemma sum_filter_le shards ks l :
  NoDup ks ->
  sumZ (fun g => zlen (filter (fun s => shards.[s] = Some g) l)) ks <= zlen l.
Proof.
  intros Hnd. induction l as [|x l IH].
  { rewrite (sumZ_ext _ (fun _ => 0 * 0)); [|done]. rewrite sumZ_scale. done. }
  rewrite zlen_cons. set (f := fun g => zlen (filter (fun s => shards.[s] = Some g) l)) in *.
  set (h := fun g => zlen (filter (fun s => shards.[s] = Some g) (x :: l))).
  assert (Hh : forall g, h g = if decide (shards.[x] = Some g) then 1 + f g else f g).
  { intros g. unfold h, f. rewrite filter_cons. case_decide; [apply zlen_cons|done]. }
  destruct (shards.[x]) as [g0|] eqn:E.
  - destruct (decide (g0 ∈ ks)) as [Hin|Hin].
    + rewrite (sumZ_update f h ks g0 Hnd Hin).
      * rewrite Hh, decide_True by done. lia.
      * intros k _ Hk. rewrite Hh, decide_False by congruence. done.
    + rewrite (sumZ_ext h f); [lia|]. intros k Hk. rewrite Hh, decide_False; [done|congruence].
  - rewrite (sumZ_ext h f); [lia|]. intros k Hk. rewrite Hh, decide_False; [done|congruence].
Qed.

Lemma measure_bound cnt shards ks :
  tally cnt shards -> NoDup ks -> zlen shards <= 10 -> measure cnt ks <= 220.
Proof.
  intros Ht Hnd Hlen. unfold measure.
  transitivity (sumZ (fun g => 22 * zlen (owned g shards)) ks).
  - apply sumZ_le. intros g _. rewrite (tally_load _ _ _ Ht). unfold weight.
    pose proof (owned_bound g shards). pose proof (zlen_nonneg (owned g shards)).
    case_decide; nia.
  - rewrite sumZ_scale. unfold owned.
    pose proof (sum_filter_le shards ks (seqZ 0 (zlen shards)) Hnd) as Hs.
    assert (zlen (seqZ 0 (zlen shards)) = zlen shards) as Hq
      by (unfold zlen at 1; rewrite length_seqZ; unfold zlen; lia). lia.
Qed.

Lemma dom_move (cnt : counts) a b s rest :
  a ∈ dom cnt -> b ∈ dom cnt -> dom (add_shard (<[a := rest]> cnt) s b) = dom cnt.
Proof. intros Ha Hb. unfold add_shard. rewrite !dom_insert_L. set_solver. Qed.

Section loop.
Context (keys_of : nat -> counts -> list Z) (Hkeys : iterates keys_of).

Lemma balance_spec fuel : forall cnt shards,
  tally cnt shards -> zlen shards <= 10 -> (exists g, g ∈ dom cnt /\ g <> 0) ->
  measure cnt (elements (dom cnt)) < Z.of_nat fuel ->
  exists shards' cnt', balance fuel keys_of cnt shards = Some (Some shards') /\
    tally cnt' shards' /\ zlen shards' = zlen shards /\ dom cnt' = dom cnt /\
    load cnt' 0 = 0 /\
    forall g1 g2, g1 ∈ dom cnt -> g2 ∈ dom cnt -> g1 <> 0 -> g2 <> 0 ->
      load cnt' g1 <= load cnt' g2 + 1.
Proof.
  induction fuel as [|fuel IH]; intros cnt shards Ht Hlen Hex Hm.
  { pose proof (measure_nonneg cnt (elements (dom cnt))). lia. }
  simpl. set (e := findMaxAndMinGid (keys_of fuel cnt) cnt).
  assert (Hb : forall g, load cnt g <= 10).
  { intros g. rewrite (tally_load _ _ _ Ht). pose proof (owned_bound g shards). lia. }
  assert (Hb' : forall g, load cnt g < int64_max).
  { intros g. specialize (Hb g). unfold int64_max. lia. }
  destruct (find_spec cnt (keys_of fuel cnt) e (Hkeys _ _) Hb' Hex eq_refl)
    as ((Hn0 & Hnd & Hmn & Hmin) & Hmx & Hxd & Hmax).
  pose proof (load_nonneg cnt (minGid e)). pose proof (load_nonneg cnt (maxGid e)).
  pose proof (Hb (minGid e)). pose proof (Hb (maxGid e)).
  rewrite wrap64_small by (unfold int64_min, int64_max; lia).
  case_decide as Hd.
  - exists shards, cnt. split; [done|]. split; [done|]. split; [done|]. split; [done|].
    destruct Hmax as [[? _]|(_ & Hz & Hmax)]; [lia|]. split; [done|].
    intros g1 g2 Hd1 Hd2 Hg1 Hg2. specialize (Hmax g1 Hd1 Hg1). specialize (Hmin g2 Hd2 Hg2). lia.
  - assert (Hcase : maxGid e = 0 /\ 0 < load cnt 0 \/ load cnt (minGid e) + 2 <= load cnt (maxGid e)).
    { destruct Hmax as [?|(? & _)]; [by left|right]. lia. }
    assert (Hpos : 0 < load cnt (maxGid e)) by (destruct Hcase as [[-> ?]|?]; lia).
    assert (Hne : maxGid e <> minGid e) by (destruct Hcase as [[? _]|Hc]; congruence || (intros Hq; rewrite Hq in Hc; lia)).
    destruct (default [] (cnt !! maxGid e)) as [|s rest] eqn:Hl.
    { unfold load in Hpos. rewrite Hl in Hpos. done. }
    rewrite slice_from_Some by (rewrite zlen_cons; pose proof (zlen_nonneg rest); lia). simpl.
    assert (Hs : shards.[s] = Some (maxGid e)).
    { apply (proj2 (Ht (maxGid e))). rewrite Hl. set_solver. }
    rewrite go_store_Some by (by eapply go_index_Some_lt). simpl.
    destruct (IH (add_shard (<[maxGid e := rest]> cnt) s (minGid e))
                 (<[Z.to_nat s := minGid e]> shards)) as (shards' & cnt' & Hbal & Ht' & Hl' & Hdom & Hz & Hbnd).
    + eapply tally_move; [done..|]. apply go_store_Some. by eapply go_index_Some_lt.
    + by rewrite zlen_insert.
    + by rewrite dom_move.
    + rewrite dom_move by done.
      assert (measure (add_shard (<[maxGid e := rest]> cnt) s (minGid e)) (elements (dom cnt)) <
              measure cnt (elements (dom cnt))); [|lia].
      apply measure_move; try done; [apply NoDup_elements|by apply elem_of_elements..|].
      destruct Hcase as [[? _]|?]; auto.
    + rewrite dom_move in Hdom, Hbnd by done. exists shards', cnt'.
      rewrite zlen_insert in Hl'. done.
Qed.
End loop.

(** * The initial table *)

Lemma add_shard_snoc cnt l g :
  tally cnt l -> tally (add_shard cnt (zlen l) g) (l ++ [g]).
Proof.
  intros Ht g'. destruct (Ht g') as [Hnd Hin]. unfold add_shard.
  assert (Hidx : forall s, (l ++ [g]).[s] = if decide (s = zlen l) then Some g else l.[s]).
  { intros s. case_decide as Hs.
    - subst s. rewrite go_index_app_r by lia. by replace (zlen l - zlen l) with 0 by lia.
    - destruct (decide (s < zlen l)); [by apply go_index_app_l|].
      rewrite !go_index_oob; [done|lia|rewrite zlen_app; unfold zlen at 2; simpl; lia]. }
  assert (Hfresh : zlen l ∉ default [] (cnt !! g')).
  { intros H%Hin%go_index_Some_lt. lia. }
  destruct (decide (g' = g)) as [->|Hne].
  - rewrite lookup_insert_eq. simpl. split.
    + apply NoDup_app. split; [done|]. split; [|apply NoDup_singleton].
      by intros x Hx ->%list_elem_of_singleton.
    + intros s. rewrite elem_of_snoc, Hin, Hidx. case_decide as Hs; [subst s|].
      * split; [done|]. intros _. by right.
      * split; [by intros [?|?]|by left].
  - rewrite lookup_insert_ne by done. split; [done|]. intros s. rewrite Hin, Hidx.
    case_decide as Hs; [subst s|done]. split; [intros H%go_index_Some_lt; lia|congruence].
Qed.

Lemma count_shards_spec g shards :
  tally (count_shards g shards) shards /\
  dom (count_shards g shards) = dom g ∪ list_to_set shards.
Proof.
  unfold count_shards. induction shards as [|x l [IHt IHd]] using rev_ind.
  - simpl. split; [|unfold empty_counts; rewrite dom_fmap_L; set_solver].
    intros g'. unfold empty_counts. rewrite lookup_fmap.
    destruct (g !! g'); simpl; (split; [constructor|]); intros s; unfold go_index;
      (split; [by intros ?%not_elem_of_nil|]); by case_decide.
  - rewrite zlen_app. replace (zlen l + zlen [x]) with (Z.of_nat (S (length l))) by (unfold zlen; simpl; lia).
    rewrite seqZ_S. change (Z.of_nat (length l)) with (zlen l). rewrite zip_with_app
      by (rewrite length_seqZ; unfold zlen; lia).
    rewrite foldl_app. revert IHt IHd.
    generalize (foldl (fun cnt '(shardId, gid) => add_shard cnt shardId gid) (empty_counts g)
                  (zip (seqZ 0 (zlen l)) l)). intros c IHt IHd. simpl. split.
    + rewrite Z.add_0_l. by apply add_shard_snoc.
    + unfold add_shard. rewrite dom_insert_L, IHd. rewrite list_to_set_app_L. set_solver.
Qed.

(** * The result *)

(** No shard on group 0, every shard on a group, loads that differ by at most
    one. *)
Definition balanced (g : groups) (shards : list Z) : Prop :=
  (forall s gid, shards.[s] = Some gid -> gid ∈ dom g) /\
  forall g1 g2, g1 ∈ dom g -> g2 ∈ dom g ->
    zlen (owned g1 shards) <= zlen (owned g2 shards) + 1.

Lemma adjustShards_spec keys_of g shards :
  iterates keys_of -> g <> ∅ -> 0 ∉ dom g -> zlen shards <= 10 ->
  (forall gid, gid ∈ shards -> gid = 0 \/ gid ∈ dom g) ->
  exists shards', adjustShards keys_of g shards = Some (Some shards') /\
    zlen shards' = zlen shards /\ balanced g shards'.
Proof.
  intros Hk Hg H0 Hlen Hin. unfold adjustShards.
  rewrite decide_False by (rewrite map_size_empty_iff; done).
  destruct (count_shards_spec g shards) as [Ht Hdom].
  destruct (map_choose g Hg) as (g0 & v & Hg0). apply elem_of_dom_2 in Hg0.
  destruct (balance_spec keys_of Hk balance_fuel (count_shards g shards) shards)
    as (shards' & cnt' & -> & Ht' & Hl & Hd & Hz & Hb); try done.
  - exists g0. rewrite Hdom. set_solver.
  - pose proof (measure_bound _ _ (elements (dom (count_shards g shards))) Ht (NoDup_elements _) Hlen).
    unfold balance_fuel. lia.
  - exists shards'. split; [done|]. split; [done|]. split.
    + intros s gid Hs.
      assert (Hne : gid <> 0).
      { intros ->. apply (proj2 (Ht' 0)) in Hs. unfold load in Hz.
        destruct (default [] (cnt' !! 0)); [by apply not_elem_of_nil in Hs|].
        rewrite zlen_cons in Hz. pose proof (zlen_nonneg l). lia. }
      assert (Hgd : gid ∈ dom (count_shards g shards)).
      { rewrite <- Hd. apply (proj2 (Ht' gid)) in Hs.
        destruct (cnt' !! gid) eqn:E; [by eapply elem_of_dom_2|by apply not_elem_of_nil in Hs]. }
      rewrite Hdom in Hgd. apply elem_of_union in Hgd as [?|Hgd]; [done|].
      apply elem_of_list_to_set in Hgd. by destruct (Hin gid Hgd).
    + intros g1 g2 H1 H2. rewrite <- !(tally_load _ _ _ Ht').
      apply Hb; rewrite ?Hdom; set_solver.
Qed.
