(* ===== verification/ShardCtrlerSpec.v ===== *)
(** Correctness of the shard controller's replicated state machine. *)

From S2P Require Import Prelude Gob Persister RaftTypes RaftApi WaitCh ShardCtrler ShardCtrlerBal.
Local Open Scope Z_scope.

(** * Well-formed histories *)

Record cfg_wf (c : Config) : Prop := {
  cw_len : zlen (Shards c) = NShards;
  cw_zero : 0 ∉ dom (Groups c);
  cw_owner : forall gid, gid ∈ Shards c -> gid = 0 \/ gid ∈ dom (Groups c)
}.

(** The configuration with number [i] is the [i]-th one. *)
Definition configs_wf (cs : list Config) : Prop :=
  cs <> [] /\ forall i c, cs.[i] = Some c -> Num c = i /\ cfg_wf c.

(** What the clients guarantee: group 0 does not join, a shard is moved to an
    existing group, a query names a number or -1. *)
Definition op_valid (op : Op) (cs : list Config) : Prop :=
  (OpType op = "Join" -> 0 ∉ dom (Servers op)) /\
  (OpType op = "Move" -> 0 <= Shard op < NShards /\
     forall c, last_config cs = Some c -> GID op = 0 \/ GID op ∈ dom (Groups c)) /\
  (OpType op = "Query" -> -1 <= opNum op).

Lemma last_config_Some cs : configs_wf cs ->
  exists c, last_config cs = Some c /\ Num c = zlen cs - 1 /\ cfg_wf c.
Proof.
  intros [Hne Hwf]. unfold last_config. pose proof (zlen_pos cs Hne).
  destruct (go_index_is_Some cs (zlen cs - 1)) as [c Hc]; [lia|].
  exists c. split; [done|]. by apply Hwf.
Qed.

Lemma copyGroups_last cs c :
  last_config cs = Some c -> copyGroups cs = Some (Groups c).
Proof.
  intros Hc. unfold copyGroups. rewrite Hc. simpl. f_equal.
  rewrite <- (map_fmap_id (Groups c)) at 2. apply map_fmap_ext. intros i l _.
  apply go_copy_full. by rewrite length_replicate.
Qed.

(** Appending the next configuration keeps the history well-formed. *)
Lemma append_config_wf cs c g s :
  configs_wf cs -> last_config cs = Some c -> cfg_wf (mkConfig (Num c + 1) s g) ->
  configs_wf (append_config c g s cs).
Proof.
  intros Hwf Hc Hnew. destruct (last_config_Some cs Hwf) as (c' & Hc' & Hnum & _).
  rewrite Hc in Hc'. injection Hc' as <-. split; [by destruct cs|].
  intros i c' Hi. unfold append_config in Hi.
  destruct (decide (i < zlen cs)) as [Hlt|Hge].
  - rewrite go_index_app_l in Hi by done. by apply Hwf.
  - pose proof (go_index_Some_lt _ _ _ Hi) as Hb. rewrite zlen_app in Hb.
    unfold zlen in Hb at 2. simpl in Hb. assert (i = zlen cs) as -> by lia.
    rewrite go_index_app_r in Hi by lia. replace (zlen cs - zlen cs) with 0 in Hi by lia.
    injection Hi as <-. split; [simpl; lia|done].
Qed.

(** * Leave *)

Lemma leave_fold gids g s :
  let r := foldl leave_one (g, s) gids in
  (forall gid, gid ∈ dom r.1 <-> gid ∈ dom g /\ gid ∉ gids) /\
  r.2 = map (fun x => if decide (x ∈ gids) then 0 else x) s.
Proof.
  simpl. induction gids as [|x gids [IH1 IH2]] using rev_ind; simpl.
  - split; [set_solver|]. etrans; [symmetry; apply map_id|]. apply map_ext.
    done.
  - rewrite foldl_app. simpl. split.
    + intros gid. rewrite dom_delete_L. set_unfold. rewrite IH1. set_solver.
    + rewrite IH2, map_map. apply map_ext. intros y. repeat case_decide; set_solver.
Qed.

(** * Balanced configurations *)

Definition spread (c : Config) : Prop :=
  if decide (Groups c = ∅) then forall gid, gid ∈ Shards c -> gid = 0
  else balanced (Groups c) (Shards c).

Section run.
Context (keys_of : nat -> counts -> list Z) (Hkeys : iterates keys_of).

Lemma finish_config_spec last g s cs :
  configs_wf cs -> last_config cs = Some last -> zlen s = NShards -> 0 ∉ dom g ->
  (forall gid, gid ∈ s -> gid = 0 \/ gid ∈ dom g) ->
  exists s', finish_config keys_of last g s cs = Some (append_config last g s' cs) /\
    spread (mkConfig (Num last + 1) s' g) /\ configs_wf (append_config last g s' cs).
Proof.
  intros Hwf Hl Hlen H0 Hin. unfold finish_config, spread. simpl.
  destruct (decide (g = ∅)) as [->|Hne].
  - unfold adjustShards. rewrite decide_True by done. simpl. exists s. split; [done|].
    split; [set_solver|]. by apply append_config_wf.
  - destruct (adjustShards_spec keys_of g s Hkeys Hne H0) as (s' & -> & Hl' & Hb);
      [unfold NShards in *; lia|done|].
    simpl. exists s'. split; [done|]. split; [done|]. apply append_config_wf; [done..|].
    split; simpl; [lia|done|]. intros gid Hgid. right.
    apply list_elem_of_lookup in Hgid as [i Hi]. apply (proj1 Hb (Z.of_nat i)).
    by rewrite go_index_of_nat.
Qed.

Lemma processJoin_spec op cs last :
  configs_wf cs -> last_config cs = Some last -> 0 ∉ dom (Servers op) ->
  exists s', let c := mkConfig (Num last + 1) s' (Servers op ∪ Groups last) in
    processJoin keys_of op cs = Some (cs ++ [c]) /\ spread c /\ configs_wf (cs ++ [c]).
Proof.
  intros Hwf Hl H0. destruct (last_config_Some cs Hwf) as (c' & Hc' & _ & [Hlen Hz Hown]).
  rewrite Hl in Hc'. injection Hc' as <-. unfold processJoin. rewrite Hl. simpl.
  rewrite (copyGroups_last _ _ Hl). simpl.
  destruct (finish_config_spec last (Servers op ∪ Groups last) (Shards last) cs)
    as (s' & -> & Hs & Hw); try done; rewrite ?dom_union_L; [set_solver| |by exists s'].
  intros gid [?|?]%Hown; set_solver.
Qed.

Lemma processLeave_spec op cs last :
  configs_wf cs -> last_config cs = Some last ->
  exists s' g, let c := mkConfig (Num last + 1) s' g in
    (forall gid, gid ∈ dom g <-> gid ∈ dom (Groups last) /\ gid ∉ GIDs op) /\
    processLeave keys_of op cs = Some (cs ++ [c]) /\ spread c /\ configs_wf (cs ++ [c]).
Proof.
  intros Hwf Hl. destruct (last_config_Some cs Hwf) as (c' & Hc' & _ & [Hlen Hz Hown]).
  rewrite Hl in Hc'. injection Hc' as <-. unfold processLeave. rewrite Hl. simpl.
  rewrite (copyGroups_last _ _ Hl). simpl.
  pose proof (leave_fold (GIDs op) (Groups last) (Shards last)) as [Hg Hs].
  destruct (foldl leave_one _ _) as [g s] eqn:E. simpl in *.
  destruct (finish_config_spec last g s cs) as (s' & -> & Hs' & Hw); try done.
  - rewrite Hs. unfold zlen in *. by rewrite length_map.
  - rewrite Hg. tauto.
  - intros gid Hgid. rewrite Hs in Hgid. apply list_elem_of_fmap in Hgid as (x & -> & Hx).
    case_decide; [by left|]. destruct (Hown x Hx) as [?|?]; [by left|]. right. by rewrite Hg.
  - by exists s', g.
Qed.

Lemma processMove_spec op cs last :
  configs_wf cs -> last_config cs = Some last -> 0 <= Shard op < NShards ->
  GID op = 0 \/ GID op ∈ dom (Groups last) ->
  let c := mkConfig (Num last + 1) (<[Z.to_nat (Shard op) := GID op]> (Shards last)) (Groups last) in
  processMove op cs = Some (cs ++ [c]) /\ configs_wf (cs ++ [c]).
Proof.
  intros Hwf Hl Hsh Hgid. destruct (last_config_Some cs Hwf) as (c' & Hc' & _ & [Hlen Hz Hown]).
  rewrite Hl in Hc'. injection Hc' as <-. unfold processMove. rewrite Hl. simpl.
  rewrite (copyGroups_last _ _ Hl). simpl. rewrite go_store_Some by lia. simpl.
  split; [done|]. apply append_config_wf; [done..|]. split; simpl; [by rewrite zlen_insert|done|].
  intros gid [i Hi]%list_elem_of_lookup.
  apply list_lookup_insert_Some in Hi as [(_ & <- & _)|[_ Hi]]; [done|].
  by eapply Hown, list_elem_of_lookup_2.
Qed.
End run.

(** * One command *)

Lemma processQuery_spec op cs :
  configs_wf cs -> -1 <= opNum op ->
  exists c, processQuery op cs = Some (set_Configure c op) /\
    (if decide (opNum op = -1 \/ zlen cs <= opNum op) then last_config cs = Some c
     else cs.[opNum op] = Some c).
Proof.
  intros Hwf Hn. destruct (last_config_Some cs Hwf) as (last & Hl & _).
  unfold processQuery. case_decide as Hd.
  - rewrite Hl. eauto.
  - destruct (go_index_is_Some cs (opNum op)) as [c Hc]; [lia|]. rewrite Hc. eauto.
Qed.

Section history.
Context (keys_of : nat -> counts -> list Z) (Hkeys : iterates keys_of).

(** Every valid command returns, appends at most one configuration and keeps the
    history well-formed. *)
Lemma ctrler_execute_ok op st :
  configs_wf (configs st) -> op_valid op (configs st) ->
  exists op' st', execute keys_of op st = Some (op', st') /\
    configs_wf (configs st') /\
    (configs st' = configs st \/ exists c, configs st' = configs st ++ [c]).
Proof.
  intros Hwf (Hj & Hm & Hq). destruct (last_config_Some _ Hwf) as (last & Hl & _).
  unfold execute. destruct (isInvalidRequest _ _ _); [by eauto 6|].
  destruct (decide (OpType op = "Join")) as [Ht|_]; [|destruct (decide (OpType op = "Leave")) as [Ht|_];
    [|destruct (decide (OpType op = "Move")) as [Ht|_];
    [|destruct (decide (OpType op = "Query")) as [Ht|_]]]].
  - destruct (processJoin_spec keys_of Hkeys op _ last Hwf Hl (Hj Ht)) as (s' & -> & _ & Hw).
    simpl. eauto 7.
  - destruct (processLeave_spec keys_of Hkeys op _ last Hwf Hl) as (s' & g & _ & -> & _ & Hw).
    simpl. eauto 7.
  - destruct (Hm Ht) as [Hs Hg].
    destruct (processMove_spec op _ last Hwf Hl Hs (Hg _ Hl)) as (-> & Hw). simpl. eauto 7.
  - destruct (processQuery_spec op _ Hwf (Hq Ht)) as (c & -> & _). simpl. eauto 7.
  - simpl. eauto 7.
Qed.

Fixpoint exec_ops (ops : list Op) (st : SCState) : option SCState :=
  match ops with
  | [] => Some st
  | op :: ops => '(_, st) ← execute keys_of op st; exec_ops ops st
  end.

(** Every command of the log is valid when it is executed. *)
Fixpoint ops_valid (ops : list Op) (st : SCState) : Prop :=
  match ops with
  | [] => True
  | op :: ops => op_valid op (configs st) /\
      forall op' st', execute keys_of op st = Some (op', st') -> ops_valid ops st'
  end.

Lemma exec_ops_ok ops : forall st,
  configs_wf (configs st) -> ops_valid ops st ->
  exists st', exec_ops ops st = Some st' /\ configs_wf (configs st') /\
    configs st `prefix_of` configs st'.
Proof.
  induction ops as [|op ops IH]; intros st Hwf Hv; [by exists st|].
  destruct Hv as [Hop Hv].
  destruct (ctrler_execute_ok op st Hwf Hop) as (op' & st1 & He & Hwf1 & Hc).
  simpl. rewrite He. simpl. destruct (IH st1 Hwf1 (Hv _ _ He)) as (st' & -> & Hwf' & Hp).
  exists st'. split; [done|]. split; [done|]. etrans; [|done].
  destruct Hc as [-> |[c ->]]; [done|by apply prefix_app_r].
Qed.
End history.

Lemma init_configs_wf : configs_wf [zeroConfig].
Proof.
  split; [done|]. intros i c Hi. pose proof (go_index_Some_lt _ _ _ Hi) as Hb.
  unfold zlen in Hb. simpl in Hb. assert (i = 0) as -> by lia. injection Hi as <-.
  split; [done|]. split; [by vm_compute|by vm_compute|].
  intros gid Hin. left. unfold zeroConfig in Hin. simpl in Hin. set_solver.
Qed.

(** * Properties *)

(** C26. Join and Leave spread the shards: in a well-formed history, a new Join
    (of groups other than 0) or Leave appends one configuration with the next
    number and the expected groups, in which every shard belongs to a group and
    two groups' loads differ by at most one; with no group left, every shard is
    on group 0.  The rebalancing loop terminates and never panics. *)
Theorem join_leave_spread keys_of op st last :
  iterates keys_of -> configs_wf (configs st) -> last_config (configs st) = Some last ->
  isInvalidRequest (ClientId op) (RequestId op) (LastRequestMap st) = false ->
  OpType op = "Join" /\ 0 ∉ dom (Servers op) \/ OpType op = "Leave" ->
  exists c st', execute keys_of op st = Some (op, st') /\
    configs st' = configs st ++ [c] /\ Num c = Num last + 1 /\ spread c /\
    (forall gid, gid ∈ dom (Groups c) <->
       if decide (OpType op = "Join") then gid ∈ dom (Servers op) \/ gid ∈ dom (Groups last)
       else gid ∈ dom (Groups last) /\ gid ∉ GIDs op).
Proof.
  intros Hk Hwf Hl Hinv Hop. unfold execute. rewrite Hinv. destruct Hop as [[Ht H0]|Ht]; rewrite Ht.
  - destruct (processJoin_spec keys_of Hk op _ last Hwf Hl H0) as (s' & -> & Hs & _). simpl.
    eexists _, _. split; [done|]. split; [done|]. split; [done|]. split; [done|].
    intros gid. simpl. rewrite dom_union_L. set_solver.
  - destruct (processLeave_spec keys_of Hk op _ last Hwf Hl) as (s' & g & Hg & -> & Hs & _). simpl.
    eexists _, _. split; [done|]. split; [done|]. split; [done|]. split; [done|]. done.
Qed.

(** Replicas agree: executing the same log gives the same configurations on
    every replica, whatever order Go's map iteration takes on each of them. *)
Theorem controllers_agree k1 k2 ops st :
  iterates k1 -> iterates k2 -> exec_ops k1 ops st = exec_ops k2 ops st.
Proof.
  intros H1 H2. revert st. induction ops as [|op ops IH]; intros st; [done|]. simpl.
  assert (He : execute k1 op st = execute k2 op st).
  { unfold execute, processJoin, processLeave, finish_config.
    destruct (last_config (configs st)); simpl; [|done].
    destruct (copyGroups (configs st)); simpl; [|done].
    rewrite (adjust_order_irrelevant k1 k2) by done.
    destruct (foldl leave_one _ _). by rewrite (adjust_order_irrelevant k1 k2 g0) by done. }
  rewrite He. destruct (execute k2 op st) as [[? ?]|]; simpl; auto.
Qed.

(** C27. History: executing any log of valid commands from the initial state
    returns, configuration [i] has number [i] and is well-formed (ten shards,
    each on group 0 or on a member), and no configuration is ever changed or
    removed later. *)
Theorem configs_history keys_of ops ops' :
  iterates keys_of -> ops_valid keys_of (ops ++ ops') (mkSCState [zeroConfig] ∅) ->
  exists st st', exec_ops keys_of ops (mkSCState [zeroConfig] ∅) = Some st /\
    exec_ops keys_of (ops ++ ops') (mkSCState [zeroConfig] ∅) = Some st' /\
    configs_wf (configs st') /\ configs st `prefix_of` configs st'.
Proof.
  intros Hk. generalize init_configs_wf.
  change [zeroConfig] with (configs (mkSCState [zeroConfig] ∅)) at 1.
  generalize (mkSCState [zeroConfig] ∅). induction ops as [|op ops IH]; intros st Hwf Hv.
  - simpl in *. destruct (exec_ops_ok keys_of Hk ops' st Hwf Hv) as (st' & -> & ? & ?). by exists st, st'.
  - destruct Hv as [Hop Hv].
    destruct (ctrler_execute_ok keys_of Hk op st Hwf Hop) as (op' & st1 & He & Hwf1 & _).
    simpl. rewrite He. simpl. apply IH; [done|]. by eapply Hv.
Qed.

(** Query reads the history: a new Query leaves the configurations alone and
    returns the requested one, or the latest for -1 and for numbers that do not
    exist yet. *)
Theorem query_reads_history keys_of op st :
  configs_wf (configs st) -> OpType op = "Query" -> -1 <= opNum op ->
  isInvalidRequest (ClientId op) (RequestId op) (LastRequestMap st) = false ->
  exists c st', execute keys_of op st = Some (set_Configure c op, st') /\
    configs st' = configs st /\
    Num c = (if decide (opNum op = -1 \/ zlen (configs st) <= opNum op)
             then zlen (configs st) - 1 else opNum op) /\
    (configs st).[Num c] = Some c.
Proof.
  intros Hwf Ht Hn Hinv. destruct (processQuery_spec op _ Hwf Hn) as (c & Hq & Hc).
  unfold execute. rewrite Hinv, Ht. simpl. rewrite Hq. simpl.
  exists c. eexists. split; [done|]. split; [done|].
  case_decide; destruct (proj2 Hwf _ _ Hc) as [Hnum _]; rewrite Hnum; done.
Qed.

(** A retried Query loses its answer: once the command has been applied, a
    retry of the same request (the first answer was lost or came too late) is
    answered [OK] with the zero configuration, whatever the history holds. *)
Theorem query_retry_empty {R} `{RaftApi R Op} keys_of a st op' st' (sc : ShardCtrler R) timeout :
  execute keys_of (queryOp a) st = Some (op', st') -> sc_state sc = st' ->
  Query a timeout PCheck sc = Ret (PDone (mkQueryReply false OK zeroConfig), sc) /\
  execute keys_of (queryOp a) st' = Some (queryOp a, st').
Proof.
  intros He Hsc.
  assert (Hinv : isInvalidRequest (qClientId a) (qRequestId a) (LastRequestMap st') = true).
  { unfold execute in He. simpl in He.
    destruct (isInvalidRequest _ _ (LastRequestMap st)) eqn:E; [by opt_inv|].
    destruct (processQuery (queryOp a) (configs st)) as [op1|] eqn:Hq; [|done].
    assert (op' = op1 /\ ClientId op1 = qClientId a /\ RequestId op1 = qRequestId a) as (-> & Hc & Hr).
    { unfold processQuery in Hq. split; [by opt_inv|].
      destruct (decide _); opt_inv; done. }
    opt_inv. simpl. unfold isInvalidRequest, UpdateLastRequest in *. rewrite <- H0. simpl. rewrite Hc, Hr.
    destruct (LastRequestMap st !! qClientId a) as [r|] eqn:El.
    - apply bool_decide_eq_false in E. rewrite decide_True by lia.
      rewrite lookup_insert_eq. apply bool_decide_eq_true. lia.
    - rewrite lookup_insert_eq. apply bool_decide_eq_true. lia. }
  split.
  - unfold Query, handle. simpl. rewrite Hsc, Hinv. done.
  - unfold execute. simpl. by rewrite Hinv.
Qed.

(** * The clerk *)

Lemma try_servers_sound {Args} (call : nat -> Z -> Args -> option QueryReply) round args srvs rep :
  try_servers call round srvs args = Some rep ->
  exists s, call round s args = Some rep /\ WrongLeader rep = false.
Proof.
  induction srvs as [|x srvs IH]; simpl; [done|].
  destruct (call round x args) as [r|] eqn:E; [|done].
  destruct (WrongLeader r) eqn:Ew; [done|]. intros [= <-]. eauto.
Qed.

Lemma try_servers_complete {Args} (call : nat -> Z -> Args -> option QueryReply) round args srvs s rep :
  s ∈ srvs -> call round s args = Some rep -> WrongLeader rep = false ->
  is_Some (try_servers call round srvs args).
Proof.
  intros Hin Hc Hw. induction srvs as [|x srvs IH]; [by apply not_elem_of_nil in Hin|]. simpl.
  apply elem_of_cons in Hin as [->|Hin].
  - rewrite Hc, Hw. done.
  - destruct (call round x args) as [r|]; [destruct (WrongLeader r)|]; eauto.
Qed.

(** The loop has ended by the first round in which a leader answers. *)
Lemma retry_returns {Args} (call : nat -> Z -> Args -> option QueryReply) args s rep ck fuel :
  forall r, call (r + fuel)%nat s args = Some rep -> WrongLeader rep = false ->
  0 <= s < Z.of_nat (servers ck) ->
  exists k s' rep', call k s' args = Some rep' /\ WrongLeader rep' = false /\
    retry call (S fuel) r args ck = Some (rConfig rep', bump_request ck).
Proof.
  induction fuel as [|fuel IH]; intros r Hc Hw Hs.
  - rewrite Nat.add_0_r in Hc. simpl.
    destruct (try_servers_complete call r args (seqZ 0 (Z.of_nat (servers ck))) s rep)
      as [rep' Hr]; [by apply elem_of_seqZ; lia|done|done|].
    rewrite Hr. apply try_servers_sound in Hr as (s' & ? & ?). eauto 6.
  - cbn [retry]. destruct (try_servers call r _ args) as [rep'|] eqn:Hr.
    + apply try_servers_sound in Hr as (s' & ? & ?). eauto 6.
    + apply IH; [|done|done]. by rewrite Nat.add_succ_comm.
Qed.

(** The controller's clerk terminates: its loop has ended by the first round
    in which some server answers as leader, with an answer to a call that
    carried the current request number, and moves on to the next number. *)
Theorem ctrler_clerk_returns call round s rep num ck :
  let args := mkQueryArgs num (ckRequestId ck) (ckClientId ck) in
  0 <= s < Z.of_nat (servers ck) -> call round s args = Some rep -> WrongLeader rep = false ->
  exists k s' rep',
    call k s' args = Some rep' /\ WrongLeader rep' = false /\
    Clerk_Query call (S round) num ck = Some (rConfig rep', bump_request ck).
Proof. intros args Hs Hc Hw. by apply (retry_returns call args s rep ck round 0). Qed.
