(* ===== verification/ShardCtrlerWitness.v ===== *)
(** Concrete runs of the shard controller. *)

From S2P Require Import Prelude Gob Persister RaftTypes RaftNode RaftInv RaftApi WaitCh.
From S2P Require Import ShardCtrler ShardCtrlerBal ShardCtrlerSpec.
Local Open Scope Z_scope.

#[local] Instance scw_gob `{Countable A} : Gob A := countable_gob.

Definition up (_ : nat) (cnt : counts) : list Z := elements (dom cnt).
Definition down (_ : nat) (cnt : counts) : list Z := reverse (elements (dom cnt)).

Lemma up_iterates : iterates up.
Proof. by intros n cnt. Qed.
Lemma down_iterates : iterates down.
Proof. intros n cnt. unfold down. by rewrite reverse_Permutation. Qed.

Definition init : SCState := mkSCState [zeroConfig] ∅.
Definition join12 : Op := joinOp (mkJoinArgs {[ 1 := ["a"%string]; 2 := ["b"%string] ]} 0 7).
Definition join3 : Op := joinOp (mkJoinArgs {[ 3 := ["c"%string] ]} 1 7).
Definition leave1 : Op := leaveOp (mkLeaveArgs [1] 2 7).
Definition move0 : Op := moveOp (mkMoveArgs 0 3 3 7).
Definition qargs : QueryArgs := mkQueryArgs (-1) 4 7.
Definition query_last : Op := queryOp qargs.

Definition st1 : SCState := default init (exec_ops up [join12] init).

Example join_then_join : (fun st => Shards <$> last_config (configs st)) <$>
  exec_ops up [join12; join3] init = Some (Some [3; 3; 3; 2; 1; 2; 1; 2; 1; 2]).
Proof. vm_compute. reflexivity. Qed.

Lemma st1_wf : configs_wf (configs st1).
Proof.
  destruct (exec_ops_ok up up_iterates [join12] init init_configs_wf) as (st' & He & Hwf & _).
  - split; [|done]. split_and!; intros; [by vm_compute|done|done].
  - replace st1 with st'; [done|]. unfold st1. by rewrite He.
Qed.

Lemma join_leave_spread_witness :
  exists c st', execute up join3 st1 = Some (join3, st') /\
    configs st' = configs st1 ++ [c] /\ Num c = 1 + 1 /\ spread c /\
    (forall gid, gid ∈ dom (Groups c) <->
       if decide (OpType join3 = "Join")
       then gid ∈ dom (Servers join3) \/
            gid ∈ dom (Groups (default zeroConfig (last_config (configs st1))))
       else gid ∈ dom (Groups (default zeroConfig (last_config (configs st1)))) /\
            gid ∉ GIDs join3).
Proof.
  apply (join_leave_spread up join3 st1 (default zeroConfig (last_config (configs st1)))).
  - apply up_iterates.
  - apply st1_wf.
  - by vm_compute.
  - by vm_compute.
  - left. split; by vm_compute.
Defined.

Lemma controllers_agree_witness :
  exec_ops up [join12; join3; leave1] init = exec_ops down [join12; join3; leave1] init.
Proof.
  apply (controllers_agree up down); [apply up_iterates|apply down_iterates].
Defined.

Lemma ops_ok : ops_valid up ([join12] ++ [join3; leave1]) init.
Proof.
  split; [split_and!; intros; by vm_compute|]. intros op1 s1 _.
  split; [split_and!; intros; by vm_compute|]. intros op2 s2 _.
  split; [split_and!; intros; by vm_compute|]. done.
Qed.

Lemma configs_history_witness :
  exists st st', exec_ops up [join12] init = Some st /\
    exec_ops up ([join12] ++ [join3; leave1]) init = Some st' /\
    configs_wf (configs st') /\ configs st `prefix_of` configs st'.
Proof. apply (configs_history up [join12] [join3; leave1]); [apply up_iterates|apply ops_ok]. Defined.

Lemma query_reads_history_witness :
  exists c st', execute up query_last st1 = Some (set_Configure c query_last, st') /\
    configs st' = configs st1 /\ Num c = 1 /\ (configs st1).[Num c] = Some c.
Proof.
  apply (query_reads_history up query_last st1);
    [apply st1_wf|by vm_compute|by vm_compute|by vm_compute].
Defined.

Abbreviation Peer := (Raft Op * list (Effect Op))%type.
Definition peer0 : Peer := (mkRaft 1 MakePersister 0 0 1 0 [zeroEntry] Leader 0 0 [1] [0] 0, []).
Definition st2 : SCState :=
  match execute up query_last st1 with Some (_, st) => st | None => init end.
Definition op2 : Op :=
  match execute up query_last st1 with Some (op, _) => op | None => query_last end.
Definition sc2 : ShardCtrler Peer := mkShardCtrler 0 peer0 0 st2 no_waits.

(** The first execution finds configuration 1; the retry gets configuration 0. *)
Lemma query_retry_empty_witness :
  Num (Configure op2) = 1 /\
  (Query qargs false PCheck sc2 = Ret (PDone (mkQueryReply false OK zeroConfig), sc2) /\
   execute up query_last st2 = Some (query_last, st2)).
Proof.
  split; [by vm_compute|].
  apply (query_retry_empty up qargs st1 op2 st2 sc2 false); by vm_compute.
Defined.

Definition qcall (round : nat) (i : Z) (_ : QueryArgs) : option QueryReply :=
  if decide (round = 1%nat /\ i = 2) then Some (mkQueryReply false OK zeroConfig) else None.

Lemma ctrler_clerk_returns_witness :
  exists k s' rep',
    qcall k s' (mkQueryArgs (-1) 0 5) = Some rep' /\ WrongLeader rep' = false /\
    Clerk_Query qcall 2 (-1) (MakeClerk 3 5) = Some (rConfig rep', bump_request (MakeClerk 3 5)).
Proof.
  apply (ctrler_clerk_returns qcall 1 2 (mkQueryReply false OK zeroConfig) (-1) (MakeClerk 3 5));
    by vm_compute.
Defined.
