(* ===== verification/ShardCtrlerCluster.v ===== *)
(** The shard controllers on top of a Raft cluster: replicas that serve their requests
    and whose maps are iterated in any order hold the configurations of one log. *)

From S2P Require Import Prelude Gob Persister RaftTypes RaftNode RaftInv RaftCluster RaftSafety RaftServices RaftRuns RaftApi RaftPromise Replica WaitCh.
From S2P Require Import ShardCtrler ShardCtrlerBal ShardCtrlerSpec ShardCtrlerWitness.
Local Open Scope Z_scope.

(** * The controller as a replicated service *)

(** A handler that runs: the request, and where it is. *)
Inductive Request := RJoin (a : JoinArgs) | RLeave (a : LeaveArgs) | RMove (a : MoveArgs) | RQuery (a : QueryArgs).
Record Handler := mkHandler { h_req : Request; h_pc : PC }.

Definition request_op (q : Request) : Op :=
  match q with RJoin a => joinOp a | RLeave a => leaveOp a | RMove a => moveOp a | RQuery a => queryOp a end.

Section service.
Context `{GobLaws Z} `{GobLaws (list (LogEntry Op))}.
(** How each replica iterates its maps. *)
Context (keys : Z -> nat -> counts -> list Z).
Implicit Types (sc : ShardCtrler (PeerOf Op)) (h : Handler) (l : list Op).

Definition serve (q : Request) : bool -> PC -> ShardCtrler (PeerOf Op) -> Go (PC * ShardCtrler (PeerOf Op)) :=
  match q with RJoin a => Join a | RLeave a => Leave a | RMove a => Move a | RQuery a => Query a end.
Definition run_handler (timeout : bool) (h : Handler) sc : Go (Handler * ShardCtrler (PeerOf Op)) :=
  '(pc, sc) ← serve (h_req h) timeout (h_pc h) sc; Ret (mkHandler (h_req h) pc, sc).

Definition arrived (h : Handler) : bool := match h_pc h with PCheck => true | _ => false end.

Definition controller : Service Op (ShardCtrler (PeerOf Op)) Handler := {|
  sv_start := StartServer;
  sv_peer := rf;
  sv_with := set_rf;
  sv_apply i := applier (keys i);
  sv_handle := run_handler;
  sv_fresh := arrived;
  sv_command h := request_op (h_req h)
|}.

Definition no_configs : SCState := mkSCState [zeroConfig] ∅.

(** Replica [i] has executed the operations [l], and has room for the next answer. *)
Definition executed (i : Z) (a : Z) l sc : Prop :=
  exec_ops (keys i) l no_configs = Some (sc_state sc) /\ waits_ok (zlen l) (waits sc) /\ dead sc = 0.

Lemma exec_ops_snoc k l op st : exec_ops k (l ++ [op]) st = (st ← exec_ops k l st; snd <$> execute k op st).
Proof.
  revert st. induction l as [|o l IH]; intros st; simpl; [by destruct (execute k op st) as [[??]|]|].
  destruct (execute k o st) as [[? st']|]; simpl; [apply IH|done].
Qed.

(** A handler changes neither the configurations nor the room. *)
Lemma handle_keeps i a l op res timeout pc sc pc' sc' : executed i a l sc -> handle op res timeout pc sc = Ret (pc', sc') ->
  executed i a l sc' /\ peer_started controller op sc sc'.
Proof.
  intros (He & Hw & Hd) Hh. unfold peer_started, executed. destruct pc; simpl in Hh.
  - case_match; injection Hh as <- <-; auto.
  - destruct (Start op (rf sc).1) as [[[r' [[index term] il]] eff]|] eqn:HS; simpl in Hh; [|done].
    assert (sc' = set_rf (r', (rf sc).2 ++ eff) sc) as -> by (destruct il; by injection Hh).
    split; [done|]. right. by exists (index, term, il), eff, r'.
  - pose proof (waits_ok_register _ index _ Hw) as Hw'. destruct (register index (waits sc)) as [ch w]. injection Hh as <- <-. auto.
  - destruct timeout; [injection Hh as <- <-; auto|].
    destruct (recv ch (waits sc)) as [[x w]| |] eqn:Er; simpl in Hh; try done. injection Hh as <- <-.
    pose proof (waits_ok_recv _ _ _ _ _ Hw Er). auto.
  - destruct (GetState (rf sc).1) as [ct sl]. injection Hh as <- <-. auto.
  - injection Hh as <- <-. pose proof (waits_ok_unregister _ index _ Hw). auto.
  - injection Hh as <- <-. auto.
Qed.

(** The applier executes the next operation, or panics with it. *)
Lemma controller_executes i a l sc t op : executed i a l sc ->
  (exists sc', applier (keys i) (command_msg (zlen l + 1) t op) sc = Ret sc' /\ executed i a (l ++ [op]) sc' /\ rf sc' = rf sc) \/
  (applier (keys i) (command_msg (zlen l + 1) t op) sc = Panic /\ exec_ops (keys i) (l ++ [op]) no_configs = None).
Proof.
  intros (He & Hw & Hd). unfold applier, executed. simpl. rewrite exec_ops_snoc, He, zlen_snoc. simpl.
  destruct (execute (keys i) op (sc_state sc)) as [[op' st]|]; [left|by right]. simpl.
  destruct (GetState (rf sc).1) as [ct il]. case_decide.
  - unfold notifyWaitCh. simpl. destruct (waits_ok_notify _ op' _ Hw) as (w & -> & Hw'). simpl. eexists. split; [done|]. done.
  - eexists. split; [done|]. split_and!; try done. simpl. eapply waits_ok_mono; [|done]. lia.
Qed.

Lemma controller_laws : Laws controller (fun _ => True) executed (fun _ _ => False)
  (fun i l => exec_ops (keys i) l no_configs = None).
Proof.
  split; try done.
  - intros i a l sc [q pc] timeout h' sc' He Hh. simpl in Hh. unfold run_handler in Hh. simpl in Hh.
    assert (exists res, serve q = handle (request_op q) res) as [res Hs] by (destruct q; eexists; reflexivity). rewrite Hs in Hh.
    destruct (handle (request_op q) res timeout pc sc) as [[pc2 sc2]| |] eqn:E; simpl in Hh; try done. injection Hh as <- <-.
    destruct (handle_keeps _ _ _ _ _ _ _ _ _ _ He E) as [? ?]. done.
  - intros i a l sc t op He _ _ _ _. destruct (controller_executes i a l sc t op He) as [(sc' & Ha & He' & Hp)|?]; [left|by right].
    exists sc'. split_and!; [done|done|by left].
Qed.
End service.

(** * The controllers on their cluster *)

(** C28. The controllers on their cluster, each iterating its maps in an order of its
    own.  In every run in which replication goroutines find their term, there is one
    list of operations, the commands the peers have delivered at their indices, such
    that each controller, whatever requests it serves and however often it crashed,
    holds exactly the configurations and the request table of executing the first [p]
    of them, in whatever order another replica iterates its maps; when it has read
    everything, [p] is what its peer has applied; and the applier never blocks on a
    waiting handler: it executes what it reads next, or panics because the operation
    itself does. *)
Theorem controllers_follow_cluster `{GobLaws Z} `{GobLaws (list (LogEntry Op))} n keys now es w :
  (forall i, iterates (keys i)) -> rrun (controller keys) es (rstart n (controller keys) now) = Some w ->
  along (rexec (controller keys)) goroutine_timely es (rstart n (controller keys) now) = true ->
  exists ops, delivered_log (r_raft w) ops /\
    forall i v, r_srvs w !! i = Some v -> exists rf p, nodes (r_raft w) !! i = Some rf /\ 0 <= p <= lastApplied rf /\
      lastApplied rf <= zlen ops /\ (unread i (r_queue v) (r_raft w) = [] -> p = lastApplied rf) /\
      (forall other, iterates other -> exec_ops other (take (Z.to_nat p) ops) no_configs = Some (sc_state (r_sv v))) /\
      (ops_valid (keys i) (take (Z.to_nat p) ops) no_configs -> configs_wf (configs (sc_state (r_sv v)))) /\
      forall k m, sendable (unread i (r_queue v) (r_raft w)) k = true -> unread i (r_queue v) (r_raft w) !! k = Some m ->
        (exists sc, applier (keys i) m (set_rf (rf, []) (r_sv v)) = Ret sc) \/
        (applier (keys i) m (set_rf (rf, []) (r_sv v)) = Panic /\
         forall other, iterates other -> exec_ops other (take (Z.to_nat (p + 1)) ops) no_configs = None).
Proof.
  intros Hk Hr Hg.
  destruct (replica_follows n _ _ _ _ _ (controller_laws keys) now es w Hr Hg) as (ops & Hops & _ & Hsrv).
  { right. intros l data []. }
  { apply Forall_forall. by intros [] ?. }
  exists ops. split; [done|]. intros i v Hv. destruct (Hsrv i v Hv) as (rf & a & p & Hi & Ha & Hp & (He & _ & _) & Hu & Hread).
  exists rf, p. split_and!; try done; try lia.
  - intros other Ho. by rewrite (controllers_agree other (keys i)).
  - intros Hv'. destruct (exec_ops_ok (keys i) (Hk i) _ no_configs init_configs_wf Hv') as (st & He' & Hwf & _).
    rewrite He in He'. by injection He' as ->.
  - intros k m Hs Hm. destruct (Hread k m Hs Hm) as [?|[Hap Hf]]; [intros _; right; intros l data []|by left|right].
    split; [done|]. intros other Ho. by rewrite (controllers_agree other (keys i)).
Qed.

(** * A concrete run

    Peer 0 of three is elected and serves two requests to join; the second handler waits
    while both operations are executed and gets its answer.  Peer 1 executes the first
    operation, crashes, and starts from nothing; the replicas iterate their maps in
    opposite orders. *)
#[local] Instance scc_gob `{Countable A} : Gob A := countable_gob.
#[local] Instance scc_gob_laws `{Countable A} : GobLaws A := countable_gob_laws.

Definition sc_keys (i : Z) : nat -> counts -> list Z := if decide (i = 0) then up else down.
Definition sc_controller : Service Op (ShardCtrler (PeerOf Op)) Handler := controller sc_keys.
Definition sc_script : list (RScene Op Handler) :=
  (RMv <$> elect 0 1 [1]) ++
  [REv (RRequest 0 (mkHandler (RJoin (mkJoinArgs {[ 1 := ["a"%string]; 2 := ["b"%string] ]} 0 7)) PCheck))] ++ phases 0 0 3 ++
  [REv (RRequest 0 (mkHandler (RJoin (mkJoinArgs {[ 3 := ["c"%string] ]} 0 8)) PCheck))] ++ phases 0 1 3 ++
  (RMv <$> push 0 1 1 ++ [Do (AApply 0); Do (AHeartBeat 0 1)] ++ push 0 1 1 ++ [Do (AApply 1)]) ++
  [REv (RApply 1 0); REv (RRestart 1 9000); REv (RApply 0 0); REv (RApply 0 0)] ++ phases 0 1 3.
Definition sc_world0 : RWorld Op (ShardCtrler (PeerOf Op)) Handler := rstart 3 sc_controller 0.
Definition sc_events : list (REvent Op Handler) := enact sc_controller sc_script sc_world0.
Definition sc_world1 : RWorld Op (ShardCtrler (PeerOf Op)) Handler := default sc_world0 (rrun sc_controller sc_events sc_world0).

(** The second handler has its answer, server 0 has executed both operations, server 1
    has crashed. *)
Example sc_answered : (fun v => (map h_pc (r_calls v), (fun c => Shards c) <$> last_config (configs (sc_state (r_sv v))))) <$> r_srvs sc_world1 !! 0 =
  Some ([PWait 1 1 0; PDone reply_ok], Some [3; 3; 3; 2; 1; 2; 1; 2; 1; 2]).
Proof. vm_compute. reflexivity. Qed.

Lemma sc_keys_iterate i : iterates (sc_keys i).
Proof. unfold sc_keys. case_decide; [apply up_iterates|apply down_iterates]. Qed.

Lemma controllers_follow_cluster_witness :
  along (rexec sc_controller) goroutine_timely sc_events sc_world0 = true /\
  exists ops, delivered_log (r_raft sc_world1) ops /\
    forall i v, r_srvs sc_world1 !! i = Some v -> exists rf p, nodes (r_raft sc_world1) !! i = Some rf /\ 0 <= p <= lastApplied rf /\
      lastApplied rf <= zlen ops /\ (unread i (r_queue v) (r_raft sc_world1) = [] -> p = lastApplied rf) /\
      (forall other, iterates other -> exec_ops other (take (Z.to_nat p) ops) no_configs = Some (sc_state (r_sv v))) /\
      (ops_valid (sc_keys i) (take (Z.to_nat p) ops) no_configs -> configs_wf (configs (sc_state (r_sv v)))) /\
      forall k m, sendable (unread i (r_queue v) (r_raft sc_world1)) k = true -> unread i (r_queue v) (r_raft sc_world1) !! k = Some m ->
        (exists sc, applier (sc_keys i) m (set_rf (rf, []) (r_sv v)) = Ret sc) \/
        (applier (sc_keys i) m (set_rf (rf, []) (r_sv v)) = Panic /\
         forall other, iterates other -> exec_ops other (take (Z.to_nat (p + 1)) ops) no_configs = None).
Proof.
  split; [vm_compute; reflexivity|]. apply (controllers_follow_cluster 3 sc_keys 0 sc_events sc_world1).
  - apply sc_keys_iterate.
  - apply default_Some. vm_compute. reflexivity.
  - vm_compute. reflexivity.
Defined.
