(* ===== verification/ShardKV.v ===== *)
(** The sharded key/value server: [src/src/shardkv/server.go], [client.go] and
    [common.go].

    The state a group replicates through Raft is a [Group]: the current and the
    previous configuration, the shards with their migration state, and the table
    of the last request of every client.  The [process] functions are its
    commands; [None] is a run-time panic (a missing shard dereferenced, a wrong
    type assertion).  A server adds the Raft peer and the handlers' channels.
    The monitors are modelled by the RPCs and commands they issue from the state
    they see under the mutex. *)

From stdpp Require Import pretty.
From S2P Require Import Prelude Gob Persister RaftTypes RaftApi WaitCh ShardCtrler.
Local Open Scope Z_scope.

(** * common.go *)

Definition OK : string := "OK".
Definition ErrNoKey : string := "ErrNoKey".
Definition ErrWrongGroup : string := "ErrWrongGroup".
Definition ErrWrongLeader : string := "ErrWrongLeader".
Definition OtherErr : string := "OtherErr".

Inductive ShardState := Serving | Pulling | BePulling | GCing.
#[export] Instance ShardState_eq_dec : EqDecision ShardState.
Proof. solve_decision. Defined.
#[export] Instance ShardState_countable : Countable ShardState.
Proof.
  apply (inj_countable'
    (fun s => match s with Serving => 0%nat | Pulling => 1%nat | BePulling => 2%nat | GCing => 3%nat end)
    (fun n => match n with 0%nat => Serving | 1%nat => Pulling | 2%nat => BePulling | _ => GCing end)).
  by intros [].
Defined.

Abbreviation kvmap := (gmap string string).

Record Shard := mkShard { ShardKVDB : kvmap; State : ShardState }.
#[export] Instance Shard_eq_dec : EqDecision Shard.
Proof. solve_decision. Defined.
#[export] Instance Shard_countable : Countable Shard.
Proof.
  apply (inj_countable' (fun s => (ShardKVDB s, State s)) (fun '(d, s) => mkShard d s)).
  by intros [].
Defined.

Record GetPutAppendArgs := mkGetPutAppendArgs {
  Key : string; Value : string; OpType : string; RequestId : Z; ClientId : Z; Gid : Z }.
Record PullShardArgs := mkPullShardArgs { psGid : Z; psShardIds : list Z; psConfigNum : Z }.
Record PullShardReply := mkPullShardReply {
  prErr : string; prConfigNum : Z; prShards : gmap Z Shard; prLastRequestMap : reqmap }.
Record RemoveShardArgs := mkRemoveShardArgs { rsShardIds : list Z; rsConfigNum : Z }.
Record RemoveShardReply := mkRemoveShardReply { rsErr : string }.
Record AdjustShardArgs := mkAdjustShardArgs { asShardIds : list Z; asConfigNum : Z }.
Record CommonReply := mkCommonReply { crErr : string; crValue : string }.

(** [Command]: its [Data] is an [interface{}] that holds one of these. *)
Inductive CommandData :=
| DOp (op : GetPutAppendArgs)
| DConfig (config : Config)
| DInsert (response : PullShardReply)
| DDelete (args : RemoveShardArgs)
| DAdjust (args : AdjustShardArgs).
Record Command := mkCommand { CommandType : string; Data : CommandData }.

Definition max (a b : Z) : Z := if decide (b < a) then a else b.

(** * server.go: shards *)

Definition set_State (st : ShardState) (s : Shard) : Shard := mkShard (ShardKVDB s) st.
Definition get (key : string) (s : Shard) : string := default ""%string (ShardKVDB s !! key).
Definition put (key value : string) (s : Shard) : Shard :=
  mkShard (<[key := value]> (ShardKVDB s)) (State s).
Definition append (key value : string) (s : Shard) : Shard :=
  let str := default ""%string (ShardKVDB s !! key) in
  mkShard (<[key := (str +:+ value)%string]> (ShardKVDB s)) (State s).
Definition MakeShard (st : ShardState) : Shard := mkShard ∅ st.
Definition CopyShard (s : Shard) : Shard := mkShard (ShardKVDB s) Serving.

Definition state_string (s : ShardState) : string :=
  match s with
  | Serving => "Serving" | Pulling => "Pulling" | BePulling => "BePulling" | GCing => "GCing"
  end.

(** [ToString], evaluated by the debug output: panics on a missing shard. *)
Definition ToString (shards : gmap Z Shard) : option string :=
  foldl (fun acc i => str ← acc; s ← shards !! i;
           Some (str +:+ pretty i +:+ ": " +:+ state_string (State s) +:+ ", ")%string)
    (Some ""%string) (seqZ 0 NShards).

(** [key2shard] of client.go. *)
Definition key2shard (key : string) : Z :=
  match key with
  | EmptyString => 0
  | String c _ => Z.of_N (Ascii.N_of_ascii c) mod NShards
  end.

(** * server.go: the replicated state *)

Record Group := mkGroup {
  currentConfig : Config;
  lastConfig : Config;
  shards : gmap Z Shard;
  LastRequestMap : reqmap
}.

Definition set_shards (x : gmap Z Shard) (g : Group) : Group :=
  mkGroup (currentConfig g) (lastConfig g) x (LastRequestMap g).
Definition set_LastRequestMap (x : reqmap) (g : Group) : Group :=
  mkGroup (currentConfig g) (lastConfig g) (shards g) x.

(** [kv.shards[shardId].f = x]: panics on a nil shard. *)
Definition update_shard (i : Z) (f : Shard -> Shard) (m : gmap Z Shard) : option (gmap Z Shard) :=
  s ← m !! i; Some (<[i := f s]> m).

Section group.
(** [gid] of this group. *)
Context (gid : Z).

Definition checkShardAndState (shardId : Z) (g : Group) : option bool :=
  match shards g !! shardId with
  | Some shard =>
      owner ← (Shards (currentConfig g)).[shardId];
      Some (bool_decide (owner = gid /\ (State shard = Serving \/ State shard = GCing)))
  | None => Some false
  end.

Definition isInvalidRequest (clientId requestId : Z) (lr : reqmap) : bool :=
  match lr !! clientId with
  | Some lastRequestId => bool_decide (requestId <= lastRequestId)
  | None => false
  end.

Definition UpdateLastRequest (op : GetPutAppendArgs) (lr : reqmap) : reqmap :=
  match lr !! ClientId op with
  | Some lastRequestId =>
      if decide (lastRequestId < RequestId op)
      then <[ClientId op := RequestId op]> lr else lr
  | None => <[ClientId op := RequestId op]> lr
  end.

Definition processGetPutAppend (op : GetPutAppendArgs) (g : Group) : option (CommonReply * Group) :=
  let shardId := key2shard (Key op) in
  served ← checkShardAndState shardId g;
  if (served : bool) then
    if decide (OpType op = "Get" \/
               isInvalidRequest (ClientId op) (RequestId op) (LastRequestMap g) = false) then
      '(value, m) ←
        (if decide (OpType op = "Get") then
           s ← shards g !! shardId; Some (get (Key op) s, shards g)
         else if decide (OpType op = "Put") then
           m ← update_shard shardId (put (Key op) (Value op)) (shards g); Some (""%string, m)
         else if decide (OpType op = "Append") then
           m ← update_shard shardId (append (Key op) (Value op)) (shards g); Some (""%string, m)
         else Some (""%string, shards g));
      Some (mkCommonReply OK value,
            set_LastRequestMap (UpdateLastRequest op (LastRequestMap g)) (set_shards m g))
    else Some (mkCommonReply OK "", g)
  else Some (mkCommonReply ErrWrongGroup "", g).

(** One iteration [i] of the loop of [processAddConfig]. *)
Definition add_config_shard (newConfig cur : Config) (m : gmap Z Shard) (i : Z) :
  option (gmap Z Shard) :=
  new ← (Shards newConfig).[i];
  old ← (Shards cur).[i];
  m ← (if decide (new = gid /\ old <> gid /\ old <> 0)
       then update_shard i (set_State Pulling) m else Some m);
  m ← (if decide (new <> gid /\ old = gid /\ new <> 0)
       then update_shard i (set_State BePulling) m else Some m);
  _ ← m !! i;
  Some m.

Fixpoint foldM {A B} (f : B -> A -> option B) (l : list A) (b : B) : option B :=
  match l with
  | [] => Some b
  | x :: l => b ← f b x; foldM f l b
  end.

Definition processAddConfig (newConfig : Config) (g : Group) : option (CommonReply * Group) :=
  if decide (Num newConfig = Num (currentConfig g) + 1) then
    m ← foldM (add_config_shard newConfig (currentConfig g)) (seqZ 0 NShards) (shards g);
    Some (mkCommonReply OK "", mkGroup newConfig (currentConfig g) m (LastRequestMap g))
  else Some (mkCommonReply OtherErr "", g).

(** One shard of [response.Shards]. *)
Definition insert_shard (m : gmap Z Shard) (p : Z * Shard) : option (gmap Z Shard) :=
  localShard ← m !! p.1;
  if decide (State localShard = Pulling)
  then Some (<[p.1 := mkShard (ShardKVDB p.2 ∪ ShardKVDB localShard) GCing]> m)
  else Some m.

(** The requests of the response, each at least as large as the local one. *)
Definition merge_requests (resp lr : reqmap) : reqmap :=
  map_imap (fun clientId requestId => Some (max requestId (default 0 (lr !! clientId)))) resp ∪ lr.

Definition processInsertShard (response : PullShardReply) (g : Group) :
  option (CommonReply * Group) :=
  if decide (prConfigNum response = Num (currentConfig g)) then
    m ← foldM insert_shard (map_to_list (prShards response)) (shards g);
    _ ← ToString m;
    Some (mkCommonReply OK "",
          set_LastRequestMap (merge_requests (prLastRequestMap response) (LastRequestMap g))
            (set_shards m g))
  else Some (mkCommonReply OtherErr "", g).

Definition delete_shard (m : gmap Z Shard) (shardId : Z) : gmap Z Shard :=
  match m !! shardId with
  | Some s => if decide (State s = BePulling) then <[shardId := MakeShard Serving]> m else m
  | None => m
  end.

Definition stale_reply (configNum : Z) (g : Group) : CommonReply :=
  mkCommonReply (if decide (configNum < Num (currentConfig g)) then OK else OtherErr) "".

Definition processDeleteShard (args : RemoveShardArgs) (g : Group) : option (CommonReply * Group) :=
  if decide (rsConfigNum args = Num (currentConfig g)) then
    _ ← ToString (shards g);
    let m := foldl delete_shard (shards g) (rsShardIds args) in
    _ ← ToString m;
    Some (mkCommonReply OK "", set_shards m g)
  else Some (stale_reply (rsConfigNum args) g, g).

Definition adjust_shard (m : gmap Z Shard) (shardId : Z) : gmap Z Shard :=
  match m !! shardId with
  | Some s => <[shardId := set_State Serving s]> m
  | None => m
  end.

Definition processAdjustGCingShard (args : AdjustShardArgs) (g : Group) :
  option (CommonReply * Group) :=
  if decide (asConfigNum args = Num (currentConfig g)) then
    _ ← ToString (shards g);
    let m := foldl adjust_shard (shards g) (asShardIds args) in
    _ ← ToString m;
    Some (mkCommonReply OK "", set_shards m g)
  else Some (stale_reply (asConfigNum args) g, g).

(** [execute]: the type assertions panic on the wrong [Data]. *)
Definition execute (command : Command) (g : Group) : option (CommonReply * Group) :=
  let t := CommandType command in
  if decide (t = "Get" \/ t = "Put" \/ t = "Append") then
    match Data command with DOp op => processGetPutAppend op g | _ => None end
  else if decide (t = "AddConfig") then
    match Data command with DConfig config => processAddConfig config g | _ => None end
  else if decide (t = "InsertShard") then
    match Data command with DInsert response => processInsertShard response g | _ => None end
  else if decide (t = "DeleteShard") then
    match Data command with DDelete args => processDeleteShard args g | _ => None end
  else if decide (t = "AdjustShardState") then
    match Data command with DAdjust args => processAdjustGCingShard args g | _ => None end
  else Some (mkCommonReply OK "", g).

(** ** Migration requests *)

(** [getShardIdsWithSpecifiedState]: the shards in a state, by previous owner. *)
Definition add_owner (last : Config) (acc : gmap Z (list Z)) (shardId : Z) :
  option (gmap Z (list Z)) :=
  owner ← (Shards last).[shardId];
  Some (<[owner := default [] (acc !! owner) ++ [shardId]]> acc).

Definition getShardIdsWithSpecifiedState (st : ShardState) (g : Group) : option (gmap Z (list Z)) :=
  foldM (add_owner (lastConfig g))
    (map fst (filter (fun p : Z * Shard => State p.2 = st) (map_to_list (shards g)))) ∅.

(** The pull and delete RPCs of one round of [monitorInsert] and [monitorGC]:
    previous owner, its servers, the arguments. *)
Definition monitor_calls (st : ShardState) (g : Group) : option (list (Z * list string * list Z * Z)) :=
  groups ← getShardIdsWithSpecifiedState st g;
  Some (map (fun '(oldGid, shardIds) =>
    (oldGid, default [] (Groups (lastConfig g) !! oldGid), shardIds, Num (currentConfig g)))
    (map_to_list groups)).

Definition monitorInsert (g : Group) : option (list (list string * PullShardArgs)) :=
  calls ← monitor_calls Pulling g;
  Some (map (fun '(oldGid, servers, shardIds, configNum) =>
    (servers, mkPullShardArgs oldGid shardIds configNum)) calls).

(** The command the goroutine of [monitorInsert] starts on a reply. *)
Definition on_pull_reply (configNum : Z) (reply : PullShardReply) : option Command :=
  if decide (prErr reply = OK) then
    Some (mkCommand "InsertShard" (DInsert (mkPullShardReply (prErr reply) configNum
            (prShards reply) (prLastRequestMap reply))))
  else None.

Definition monitorGC (g : Group) : option (list (list string * RemoveShardArgs)) :=
  calls ← monitor_calls GCing g;
  Some (map (fun '(_, servers, shardIds, configNum) =>
    (servers, mkRemoveShardArgs shardIds configNum)) calls).

Definition on_delete_reply (args : RemoveShardArgs) (reply : RemoveShardReply) : option Command :=
  if decide (rsErr reply = OK) then
    Some (mkCommand "AdjustShardState" (DAdjust (mkAdjustShardArgs (rsShardIds args) (rsConfigNum args))))
  else None.

(** [isProcessShardCommand] of [monitorRequestConfig]. *)
Definition isProcessShardCommand (g : Group) : bool :=
  bool_decide (Exists (fun p : Z * Shard => State p.2 <> Serving) (map_to_list (shards g))).

(** One round of [monitorRequestConfig]; [query] is the controller's answer. *)
Definition monitorRequestConfig (query : Z -> Config) (g : Group) : option Command :=
  if isProcessShardCommand g then None else
  let newConfig := query (Num (currentConfig g) + 1) in
  if decide (Num newConfig = Num (currentConfig g) + 1)
  then Some (mkCommand "AddConfig" (DConfig newConfig)) else None.

(** The shards of a [GetShards] reply. *)
Definition pull_shard (m : gmap Z Shard) (acc : gmap Z Shard) (shardId : Z) : gmap Z Shard :=
  match m !! shardId with
  | Some s => if decide (State s = BePulling) then <[shardId := CopyShard s]> acc else acc
  | None => acc
  end.

Definition copyLastRequestMap (g : Group) : reqmap := LastRequestMap g.

Definition GetShards (isLeader : bool) (args : PullShardArgs) (g : Group) : PullShardReply :=
  if isLeader then
    if decide (psConfigNum args = Num (currentConfig g)) then
      mkPullShardReply OK 0 (foldl (pull_shard (shards g)) ∅ (psShardIds args))
        (copyLastRequestMap g)
    else mkPullShardReply ErrWrongGroup 0 ∅ ∅
  else mkPullShardReply ErrWrongLeader 0 ∅ ∅.
End group.

(** * server.go: the server *)

Definition checkNotPutGetAppend (cmdType : string) : bool :=
  bool_decide (cmdType <> "Get" /\ cmdType <> "Put" /\ cmdType <> "Append").

Record ShardKV (R : Type) := mkShardKV {
  me : Z; rf : R; gid : Z; maxraftstate : Z; dead : Z; group : Group;
  waits : WaitCh CommonReply; lastIncludedIndex : Z }.
Arguments mkShardKV {R}. Arguments me {R}. Arguments rf {R}. Arguments gid {R}.
Arguments maxraftstate {R}. Arguments dead {R}. Arguments group {R}.
Arguments waits {R}. Arguments lastIncludedIndex {R}.

Definition set_rf {R} (x : R) (kv : ShardKV R) : ShardKV R :=
  mkShardKV (me kv) x (gid kv) (maxraftstate kv) (dead kv) (group kv) (waits kv) (lastIncludedIndex kv).
Definition set_group {R} (x : Group) (kv : ShardKV R) : ShardKV R :=
  mkShardKV (me kv) (rf kv) (gid kv) (maxraftstate kv) (dead kv) x (waits kv) (lastIncludedIndex kv).
Definition set_waits {R} (x : WaitCh CommonReply) (kv : ShardKV R) : ShardKV R :=
  mkShardKV (me kv) (rf kv) (gid kv) (maxraftstate kv) (dead kv) (group kv) x (lastIncludedIndex kv).
Definition set_lastIncludedIndex {R} (x : Z) (kv : ShardKV R) : ShardKV R :=
  mkShardKV (me kv) (rf kv) (gid kv) (maxraftstate kv) (dead kv) (group kv) (waits kv) x.

Section server.
Context {R : Type} `{RaftApi R Command}.
Context `{Gob (gmap Z Shard)} `{Gob reqmap} `{Gob Config}.
Implicit Types (kv : ShardKV R).

Definition Kill kv : ShardKV R :=
  mkShardKV (me kv) (rf_Kill (rf kv)) (gid kv) (maxraftstate kv) 1 (group kv) (waits kv)
    (lastIncludedIndex kv).
Definition killed kv : bool := bool_decide (dead kv = 1).

Definition encodeState kv : bytes :=
  gob_encode (shards (group kv)) ++ gob_encode (LastRequestMap (group kv)) ++
  gob_encode (lastConfig (group kv)) ++ gob_encode (currentConfig (group kv)).

Definition decodeState (data : bytes) : option Group :=
  '(sh, r) ← gob_decode (A := gmap Z Shard) data;
  '(lr, r) ← gob_decode (A := reqmap) r;
  '(lc, r) ← gob_decode (A := Config) r;
  '(cc, r) ← gob_decode (A := Config) r;
  Some (mkGroup cc lc sh lr).

Definition readPersist (data : bytes) kv : ShardKV R :=
  if decide (zlen data < 1) then kv else
  match decodeState data with
  | None => kv
  | Some g => set_group g kv
  end.

Definition notifyWaitCh (index : Z) (reply : CommonReply) kv : Go (ShardKV R) :=
  w ← notify index reply (waits kv); Ret (set_waits w kv).

Definition applier (applyMsg : ApplyMsg Command) kv : Go (ShardKV R) :=
  if CommandValid applyMsg then
    if decide (CommandIndex applyMsg <= lastIncludedIndex kv) then Ret kv else
    command ← of_opt (amCommand applyMsg);
    '(reply, g) ← of_opt (execute (gid kv) command (group kv));
    let kv := set_group g kv in
    let '(currentTerm, isLeader) := rf_GetState (rf kv) in
    kv ← (if decide (isLeader = true /\ CommandTerm applyMsg = currentTerm)
          then notifyWaitCh (CommandIndex applyMsg) reply kv else Ret kv);
    kv ← (if decide (maxraftstate kv <> -1 /\
                     maxraftstate kv < RaftStateSize (rf_persister (rf kv)))
          then r ← of_opt (rf_Snapshot (CommandIndex applyMsg) (encodeState kv) (rf kv));
               Ret (set_rf r kv)
          else Ret kv);
    Ret (set_lastIncludedIndex (CommandIndex applyMsg) kv)
  else if SnapshotValid applyMsg then
    if decide (SnapshotIndex applyMsg <= lastIncludedIndex kv) then Ret kv else
    Ret (set_lastIncludedIndex (SnapshotIndex applyMsg) (readPersist (amSnapshot applyMsg) kv))
  else Ret kv.

Fixpoint applier_loop (msgs : list (ApplyMsg Command)) kv : Go (ShardKV R) :=
  match msgs with
  | [] => Ret kv
  | m :: msgs => if killed kv then Ret kv else kv ← applier m kv; applier_loop msgs kv
  end.

(** ** RPC handlers *)

(** Where [StartCommand] is; [PCheck] is the handlers' part before it. *)
Inductive PC :=
| PCheck
| PStart
| PRegister (index term : Z)
| PWait (index term : Z) (ch : nat)
| PGetState (index term : Z) (res : CommonReply)
| PDelete (index : Z) (reply : CommonReply)
| PDone (reply : CommonReply).

Definition StartCommand (command : Command) (response : CommonReply) (timeout : bool)
  (pc : PC) kv : Go (PC * ShardKV R) :=
  match pc with
  | PCheck => Ret (PStart, kv)
  | PStart =>
      '(r, (index, term, isLeader)) ← of_opt (rf_Start command (rf kv));
      let kv := set_rf r kv in
      if (isLeader : bool) then Ret (PRegister index term, kv)
      else Ret (PDone (mkCommonReply ErrWrongLeader (crValue response)), kv)
  | PRegister index term =>
      let '(ch, w) := register index (waits kv) in Ret (PWait index term ch, set_waits w kv)
  | PWait index term ch =>
      if timeout then Ret (PDelete index (mkCommonReply ErrWrongLeader (crValue response)), kv) else
      '(res, w) ← recv ch (waits kv);
      Ret (PGetState index term res, set_waits w kv)
  | PGetState index term res =>
      let '(currentTerm, stillLeader) := rf_GetState (rf kv) in
      Ret (PDelete index (mkCommonReply
             (if decide (stillLeader = false \/ currentTerm <> term)
              then ErrWrongLeader else crErr res) (crValue res)), kv)
  | PDelete index reply =>
      Ret (PDone reply, set_waits (unregister index (waits kv)) kv)
  | PDone reply => Ret (PDone reply, kv)
  end.

Definition Get (args : GetPutAppendArgs) (timeout : bool) (pc : PC) kv : Go (PC * ShardKV R) :=
  match pc with
  | PCheck =>
      served ← of_opt (checkShardAndState (gid kv) (key2shard (Key args)) (group kv));
      if (served : bool) then Ret (PStart, kv)
      else Ret (PDone (mkCommonReply ErrWrongGroup ""), kv)
  | _ => StartCommand (mkCommand "Get" (DOp args)) (mkCommonReply OK "") timeout pc kv
  end.

Definition PutAppend (args : GetPutAppendArgs) (timeout : bool) (pc : PC) kv : Go (PC * ShardKV R) :=
  match pc with
  | PCheck =>
      served ← of_opt (checkShardAndState (gid kv) (key2shard (Key args)) (group kv));
      if (served : bool) then
        if isInvalidRequest (ClientId args) (RequestId args) (LastRequestMap (group kv))
        then Ret (PDone (mkCommonReply OK ""), kv) else Ret (PStart, kv)
      else Ret (PDone (mkCommonReply ErrWrongGroup ""), kv)
  | _ => StartCommand (mkCommand (OpType args) (DOp args)) (mkCommonReply OK "") timeout pc kv
  end.

Definition DeleteShards (args : RemoveShardArgs) : bool -> PC -> ShardKV R -> Go (PC * ShardKV R) :=
  StartCommand (mkCommand "DeleteShard" (DDelete args)) (mkCommonReply "" "").

(** [StartServer], with the Raft peer [raft.Make] returned. *)
Definition fill_shard (m : gmap Z Shard) (shardId : Z) : gmap Z Shard :=
  match m !! shardId with Some _ => m | None => <[shardId := MakeShard Serving]> m end.
Definition StartServer (self : Z) (r : R) (maxstate g : Z) : ShardKV R :=
  let kv := mkShardKV self r g maxstate 0 (mkGroup zeroConfig zeroConfig ∅ ∅) no_waits 0 in
  let kv := readPersist (ReadSnapshot (rf_persister (rf kv))) kv in
  set_group (set_shards (foldl fill_shard (shards (group kv)) (seqZ 0 NShards)) (group kv)) kv.
End server.

(** * client.go *)

Record Clerk := mkClerk { config : Config; ckClientId : Z; ckRequestId : Z }.

Definition nrand (rnd : Z) : Z := rnd mod Z.shiftl 1 62.

Section clerk.
(** The controller's answer to the [n]-th query, and the outcome of the [n]-th
    round's RPC to a server ([None] for a failed call). *)
Context (query : nat -> Config) (call : nat -> string -> GetPutAppendArgs -> option CommonReply).

Definition MakeClerk (rnd : Z) : Clerk := mkClerk (query 0) (nrand rnd) 0.

(** The loop over the servers of the shard's group: the final reply, if any. *)
Fixpoint try_group (final : string -> bool) (n : nat) (servers : list string)
  (args : GetPutAppendArgs) : option CommonReply :=
  match servers with
  | [] => None
  | srv :: servers =>
      match call n srv args with
      | Some reply =>
          if final (crErr reply) then Some reply
          else if decide (crErr reply = ErrWrongGroup) then None
          else try_group final n servers args
      | None => try_group final n servers args
      end
  end.

(** The outer loop; the outer [option] is exhausted fuel, the inner one the
    panic of an index outside [config.Shards]. *)
Fixpoint retry (final : string -> bool) (fuel n : nat) (args : GetPutAppendArgs) (ck : Clerk) :
  option (option (string * Clerk)) :=
  match fuel with
  | O => None
  | S fuel =>
      match (Shards (config ck)).[key2shard (Key args)] with
      | None => Some None
      | Some g =>
          match (servers ← Groups (config ck) !! g; try_group final n servers args) with
          | Some reply =>
              Some (Some (crValue reply,
                mkClerk (config ck) (ckClientId ck) (wrap64 (ckRequestId ck + 1))))
          | None => retry final fuel (S n) args (mkClerk (query (S n)) (ckClientId ck) (ckRequestId ck))
          end
      end
  end.

Definition Clerk_Get (fuel : nat) (key : string) (ck : Clerk) : option (option (string * Clerk)) :=
  retry (fun e => bool_decide (e = OK \/ e = ErrNoKey)) fuel 0
    (mkGetPutAppendArgs key "" "Get" (ckRequestId ck) (ckClientId ck) 0) ck.
Definition Clerk_PutAppend (fuel : nat) (key value op : string) (ck : Clerk) : option (option Clerk) :=
  (fun r : option (string * Clerk) => snd <$> r) <$>
    retry (fun e => bool_decide (e = OK)) fuel 0
      (mkGetPutAppendArgs key value op (ckRequestId ck) (ckClientId ck) 0) ck.
Definition Clerk_Put (fuel : nat) (key value : string) := Clerk_PutAppend fuel key value "Put".
Definition Clerk_Append (fuel : nat) (key value : string) := Clerk_PutAppend fuel key value "Append".
End clerk.
