(* ===== verification/ShardKVSpec.v ===== *)
(** The commands of a replica group, one by one.

    For every command the new state and data of each shard are given by a
    function of the old ones ([execute] never panics on a well-formed group);
    the properties are the stability of a finished configuration, the behaviour
    of client commands, the migration of the duplicate table and snapshots. *)

From stdpp Require Import pretty.
From S2P Require Import Prelude Gob Persister RaftTypes RaftApi WaitCh ShardCtrler.
From S2P Require Import ShardCtrlerSpec ShardKV.
Local Open Scope Z_scope.

(** * Well-formed groups *)

Definition in_range (s : Z) : Prop := 0 <= s < NShards.

Record group_wf (g : Group) : Prop := {
  gw_shards : forall s, is_Some (shards g !! s) <-> in_range s;
  gw_cur : zlen (Shards (currentConfig g)) = NShards;
  gw_last : zlen (Shards (lastConfig g)) = NShards
}.

(** State and content of a shard; every shard in range exists. *)
Definition sstate (g : Group) (s : Z) : ShardState :=
  match shards g !! s with Some x => State x | None => Serving end.
Definition sdata (g : Group) (s : Z) : kvmap :=
  match shards g !! s with Some x => ShardKVDB x | None => ∅ end.

(** The owner of a shard in a configuration. *)
Definition owner (c : Config) (s : Z) : Z := default 0 (Shards c).[s].

Lemma owner_index c s :
  zlen (Shards c) = NShards -> in_range s -> (Shards c).[s] = Some (owner c s).
Proof.
  intros Hl Hs. unfold owner. destruct (go_index_is_Some (Shards c) s) as [x ->]; [|done].
  unfold in_range in Hs. lia.
Qed.

(** * Updating every shard of a list *)

Definition alter_all {A} (f : Z -> A -> A) (l : list Z) (m : gmap Z A) : gmap Z A :=
  foldl (fun m i => alter (f i) i m) m l.
Arguments alter_all : simpl never.

Lemma alter_all_lookup {A} (f : Z -> A -> A) l m j :
  (forall i x, f i (f i x) = f i x) ->
  alter_all f l m !! j = if decide (j ∈ l) then f j <$> m !! j else m !! j.
Proof.
  intros Hid. unfold alter_all. revert m.
  induction l as [|i l IH]; intros m; simpl; [done|]. rewrite IH.
  destruct (decide (i = j)) as [->|Hne].
  - rewrite lookup_alter_eq. rewrite (decide_True (P := j ∈ j :: l)) by set_solver.
    case_decide; [|done]. destruct (m !! j); simpl; [by rewrite Hid|done].
  - rewrite lookup_alter_ne by done. repeat case_decide; set_solver.
Qed.

Lemma alter_all_is_Some {A} (f : Z -> A -> A) l m j :
  is_Some (alter_all f l m !! j) <-> is_Some (m !! j).
Proof.
  unfold alter_all. revert m. induction l as [|i l IH]; intros m; simpl; [done|].
  rewrite IH. destruct (decide (i = j)) as [->|]; [|by rewrite lookup_alter_ne].
  rewrite lookup_alter_eq. by rewrite fmap_is_Some.
Qed.

(** A fallible loop that updates shards which all exist. *)
Lemma foldM_alter {A B} (step : gmap Z A -> B -> option (gmap Z A)) (key : B -> Z)
  (f : Z -> A -> A) l m :
  (forall m b, b ∈ l -> is_Some (m !! key b) -> step m b = Some (alter (f (key b)) (key b) m)) ->
  (forall b, b ∈ l -> is_Some (m !! key b)) ->
  foldM step l m = Some (alter_all f (map key l) m).
Proof.
  revert m. induction l as [|b l IH]; intros m Hst Hp; [done|]. simpl.
  rewrite Hst; [|set_solver|apply Hp; set_solver]. simpl. apply IH.
  - intros m' b' Hb'. apply Hst. set_solver.
  - intros b' Hb'. apply (proj2 (alter_all_is_Some f [key b] m (key b'))). apply Hp. set_solver.
Qed.

Lemma alter_insert {A} (f : A -> A) i (m : gmap Z A) x :
  m !! i = Some x -> <[i := f x]> m = alter f i m.
Proof.
  intros Hx. apply map_eq. intros j. destruct (decide (i = j)) as [->|].
  - by rewrite lookup_insert_eq, lookup_alter_eq, Hx.
  - by rewrite lookup_insert_ne, lookup_alter_ne.
Qed.

Lemma update_shard_alter i f m :
  is_Some (m !! i) -> update_shard i f m = Some (alter f i m).
Proof. intros [x Hx]. unfold update_shard. rewrite Hx. simpl. by rewrite (alter_insert f i m x Hx). Qed.

Lemma alter_alter {A} (f h : A -> A) i (m : gmap Z A) :
  alter f i (alter h i m) = alter (fun x => f (h x)) i m.
Proof.
  apply map_eq. intros j. destruct (decide (i = j)) as [->|].
  - rewrite !lookup_alter_eq. by destruct (m !! j).
  - by rewrite !lookup_alter_ne.
Qed.

Lemma alter_id' {A} i (m : gmap Z A) : m = alter (fun x => x) i m.
Proof.
  apply map_eq. intros j. destruct (decide (i = j)) as [->|].
  - rewrite lookup_alter_eq. by destruct (m !! j).
  - by rewrite lookup_alter_ne.
Qed.

(** A group whose shards were updated one by one. *)
Lemma alter_all_shard g f l s :
  group_wf g -> in_range s -> (forall i x, f i (f i x) = f i x) ->
  exists x, shards g !! s = Some x /\
    alter_all f l (shards g) !! s = Some (if decide (s ∈ l) then f s x else x).
Proof.
  intros Hwf Hs Hid. apply (gw_shards _ Hwf) in Hs as [x Hx]. exists x. split; [done|].
  rewrite alter_all_lookup by done. rewrite Hx. by case_decide.
Qed.

Lemma ToString_is_Some (m : gmap Z Shard) :
  (forall s, in_range s -> is_Some (m !! s)) -> is_Some (ToString m).
Proof.
  intros Hm. unfold ToString.
  assert (Hg : forall l acc, (forall i, i ∈ l -> is_Some (m !! i)) -> is_Some acc ->
    is_Some (foldl (fun acc i => str ← acc; s ← m !! i;
      Some (str +:+ pretty i +:+ ": " +:+ state_string (State s) +:+ ", ")%string) acc l)).
  { induction l as [|i l IH]; intros acc Hl [a ->]; simpl; [done|].
    apply IH; [set_solver|]. destruct (Hl i ltac:(set_solver)) as [x ->]. simpl. done. }
  apply Hg; [|done]. intros i Hi%elem_of_seqZ. apply Hm. unfold in_range. lia.
Qed.

(** * The commands *)

Section commands.
Context (gid : Z).

Definition new_state (newConfig cur : Config) (s : Z) (old : ShardState) : ShardState :=
  if decide (owner newConfig s <> gid /\ owner cur s = gid /\ owner newConfig s <> 0) then BePulling
  else if decide (owner newConfig s = gid /\ owner cur s <> gid /\ owner cur s <> 0) then Pulling
  else old.

(** Same configurations and requests, shards updated. *)
Definition same_view (g g' : Group) : Prop :=
  currentConfig g' = currentConfig g /\ lastConfig g' = lastConfig g.

Lemma processAddConfig_spec newConfig g :
  group_wf g -> zlen (Shards newConfig) = NShards -> Num newConfig = Num (currentConfig g) + 1 ->
  exists g', processAddConfig gid newConfig g = Some (mkCommonReply OK "", g') /\ group_wf g' /\
    currentConfig g' = newConfig /\ lastConfig g' = currentConfig g /\
    LastRequestMap g' = LastRequestMap g /\
    forall s, in_range s -> sdata g' s = sdata g s /\
      sstate g' s = new_state newConfig (currentConfig g) s (sstate g s).
Proof.
  intros Hwf Hl Hn. unfold processAddConfig. rewrite decide_True by done.
  set (f := fun i x => set_State (new_state newConfig (currentConfig g) i (State x)) x).
  assert (Hid : forall i x, f i (f i x) = f i x).
  { intros i [d s]. unfold f, new_state, set_State. simpl. by repeat case_decide. }
  rewrite (foldM_alter _ (fun i => i) f).
  - rewrite map_id. eexists. split; [reflexivity|]. split; [|split; [done|]].
    + destruct Hwf as [Hsh ? ?]. split; simpl; try done. intros s. by rewrite alter_all_is_Some.
    + split; [done|]. split; [done|]. intros s Hs.
      destruct (alter_all_shard g f (seqZ 0 NShards) s Hwf Hs Hid) as (x & Hx & Hx').
      unfold sdata, sstate. simpl. rewrite Hx', Hx, decide_True by (apply elem_of_seqZ; unfold in_range in Hs; lia).
      done.
  - intros m i Hi%elem_of_seqZ [x Hx]. unfold add_config_shard.
    assert (Hs : in_range i) by (unfold in_range; lia).
    rewrite (owner_index _ _ Hl Hs), (owner_index _ _ (gw_cur _ Hwf) Hs). simpl.
    rewrite <- (alter_insert (f i) i m x Hx). unfold f, new_state, update_shard.
    destruct (decide (owner newConfig i = gid /\ _)) as [Hd1|Hd1];
      destruct (decide (owner newConfig i <> gid /\ _)) as [Hd2|Hd2]; try tauto;
      simpl; rewrite ?Hx; simpl; rewrite ?lookup_insert_eq; simpl; try done.
    replace (set_State (State x) x) with x by (by destruct x). by rewrite insert_id.
  - intros i Hi%elem_of_seqZ. apply (gw_shards _ Hwf). unfold in_range. lia.
Qed.

Lemma processInsertShard_spec resp g :
  group_wf g -> prConfigNum resp = Num (currentConfig g) ->
  (forall s, s ∈ dom (prShards resp) -> in_range s) ->
  exists g', processInsertShard resp g = Some (mkCommonReply OK "", g') /\ group_wf g' /\
    same_view g g' /\
    LastRequestMap g' = merge_requests (prLastRequestMap resp) (LastRequestMap g) /\
    forall s, in_range s ->
      match prShards resp !! s, sstate g s with
      | Some x, Pulling => sstate g' s = GCing /\ sdata g' s = ShardKVDB x ∪ sdata g s
      | _, _ => sstate g' s = sstate g s /\ sdata g' s = sdata g s
      end.
Proof.
  intros Hwf Hn Hr. unfold processInsertShard. rewrite decide_True by done.
  set (f := fun i x => match prShards resp !! i with
    | Some y => if decide (State x = Pulling) then mkShard (ShardKVDB y ∪ ShardKVDB x) GCing else x
    | None => x end).
  assert (Hid : forall i x, f i (f i x) = f i x).
  { intros i [d s]. unfold f. destruct (prShards resp !! i); [|done]. by repeat case_decide. }
  rewrite (foldM_alter _ fst f).
  - simpl. set (m := alter_all f _ (shards g)).
    assert (Hsome : forall s, is_Some (m !! s) <-> in_range s).
    { intros s. unfold m. rewrite alter_all_is_Some. apply (gw_shards _ Hwf). }
    destruct (ToString_is_Some m) as [str ->]; [by intros s ?%Hsome|]. simpl.
    eexists. split; [done|]. split; [|split; [done|]].
    + destruct Hwf as [? ? ?]. by split.
    + split; [done|]. intros s Hs.
      destruct (alter_all_shard g f (map fst (map_to_list (prShards resp))) s Hwf Hs Hid) as (x & Hx & Hx').
      unfold sdata, sstate. simpl. unfold m. rewrite Hx', Hx.
      assert (Hin : s ∈ map fst (map_to_list (prShards resp)) <-> is_Some (prShards resp !! s)).
      { split.
        - intros ([i y] & -> & Hi%elem_of_map_to_list)%list_elem_of_fmap. by exists y.
        - intros [y Hy]. apply list_elem_of_fmap. exists (s, y). by rewrite elem_of_map_to_list. }
      unfold f. destruct (prShards resp !! s) as [y|] eqn:E.
      * rewrite (decide_True (P := s ∈ _)) by (by apply Hin). destruct x as [d []]; simpl; done.
      * rewrite (decide_False (P := s ∈ _)) by (rewrite Hin; by intros []). by destruct (State x).
  - intros m [i y] Hi%elem_of_map_to_list [x Hx]. unfold insert_shard. simpl in *.
    rewrite Hx. simpl. rewrite <- (alter_insert (f i) i m x Hx). unfold f. rewrite Hi.
    case_decide; [done|]. by rewrite insert_id.
  - intros [i y] Hi%elem_of_map_to_list. apply (gw_shards _ Hwf), Hr. by eapply elem_of_dom_2.
Qed.

(** [delete_shard] and [adjust_shard] as updates of existing shards. *)
Definition del (x : Shard) : Shard := if decide (State x = BePulling) then MakeShard Serving else x.

Lemma delete_shards_alter l m : foldl delete_shard m l = alter_all (fun _ => del) l m.
Proof.
  unfold alter_all. revert m. induction l as [|i l IH]; intros m; simpl; [done|]. rewrite IH. f_equal.
  unfold delete_shard, del. destruct (m !! i) as [x|] eqn:E.
  - rewrite <- (alter_insert _ i m x E). case_decide; [done|]. by rewrite insert_id.
  - apply map_eq. intros j. destruct (decide (i = j)) as [->|]; [by rewrite lookup_alter_eq, E|].
    by rewrite lookup_alter_ne.
Qed.

Lemma adjust_shards_alter l m : foldl adjust_shard m l = alter_all (fun _ => set_State Serving) l m.
Proof.
  unfold alter_all. revert m. induction l as [|i l IH]; intros m; simpl; [done|]. rewrite IH. f_equal.
  unfold adjust_shard. destruct (m !! i) as [x|] eqn:E.
  - by rewrite <- (alter_insert _ i m x E).
  - apply map_eq. intros j. destruct (decide (i = j)) as [->|]; [by rewrite lookup_alter_eq, E|].
    by rewrite lookup_alter_ne.
Qed.

(** The common shape of [processDeleteShard] and [processAdjustGCingShard]. *)
Lemma alter_group_spec f l g :
  group_wf g -> (forall i x, f i (f i x) = f i x) ->
  let m := alter_all f l (shards g) in
  is_Some (ToString (shards g)) /\ is_Some (ToString m) /\ group_wf (set_shards m g) /\
  forall s, in_range s -> exists x, shards g !! s = Some x /\
    m !! s = Some (if decide (s ∈ l) then f s x else x).
Proof.
  intros Hwf Hid m. assert (Hsome : forall s, is_Some (m !! s) <-> in_range s).
  { intros s. unfold m. rewrite alter_all_is_Some. apply (gw_shards _ Hwf). }
  split; [apply ToString_is_Some; intros s; by apply Hwf|].
  split; [apply ToString_is_Some; intros s; by apply Hsome|].
  split; [destruct Hwf; by split|]. intros s Hs. by apply alter_all_shard.
Qed.

Lemma processDeleteShard_spec args g :
  group_wf g -> rsConfigNum args = Num (currentConfig g) ->
  exists g', processDeleteShard args g = Some (mkCommonReply OK "", g') /\ group_wf g' /\
    same_view g g' /\ LastRequestMap g' = LastRequestMap g /\
    forall s, in_range s ->
      if decide (s ∈ rsShardIds args /\ sstate g s = BePulling)
      then sstate g' s = Serving /\ sdata g' s = ∅
      else sstate g' s = sstate g s /\ sdata g' s = sdata g s.
Proof.
  intros Hwf Hn. unfold processDeleteShard. rewrite decide_True by done.
  destruct (alter_group_spec (fun _ => del) (rsShardIds args) g Hwf)
    as ([s1 H1] & [s2 H2] & Hwf' & Hm).
  { intros _ [d s]. unfold del. by repeat case_decide. }
  rewrite delete_shards_alter, H1. simpl. rewrite H2. simpl.
  eexists. split; [done|]. split; [done|]. split; [done|]. split; [done|].
  intros s Hs. destruct (Hm s Hs) as (x & Hx & Hx'). unfold sdata, sstate. simpl.
  rewrite Hx', Hx. unfold del. repeat case_decide; try done; tauto.
Qed.

Lemma processAdjustGCingShard_spec args g :
  group_wf g -> asConfigNum args = Num (currentConfig g) ->
  exists g', processAdjustGCingShard args g = Some (mkCommonReply OK "", g') /\ group_wf g' /\
    same_view g g' /\ LastRequestMap g' = LastRequestMap g /\
    forall s, in_range s -> sdata g' s = sdata g s /\
      sstate g' s = if decide (s ∈ asShardIds args) then Serving else sstate g s.
Proof.
  intros Hwf Hn. unfold processAdjustGCingShard. rewrite decide_True by done.
  destruct (alter_group_spec (fun _ => set_State Serving) (asShardIds args) g Hwf)
    as ([s1 H1] & [s2 H2] & Hwf' & Hm); [done|].
  rewrite adjust_shards_alter, H1. simpl. rewrite H2. simpl.
  eexists. split; [done|]. split; [done|]. split; [done|]. split; [done|].
  intros s Hs. destruct (Hm s Hs) as (x & Hx & Hx'). unfold sdata, sstate. simpl.
  rewrite Hx', Hx. by case_decide.
Qed.

(** The effect of a client command on the content of its shard. *)
Definition op_effect (op : GetPutAppendArgs) (d : kvmap) : kvmap :=
  if decide (OpType op = "Put") then <[Key op := Value op]> d
  else if decide (OpType op = "Append")
  then <[Key op := (default ""%string (d !! Key op) +:+ Value op)%string]> d else d.

Definition serves (g : Group) (s : Z) : Prop :=
  owner (currentConfig g) s = gid /\ (sstate g s = Serving \/ sstate g s = GCing).

Lemma key2shard_range key : in_range (key2shard key).
Proof.
  unfold in_range, key2shard, NShards. destruct key; [lia|]. apply Z.mod_pos_bound. lia.
Qed.

Lemma checkShardAndState_spec g s :
  group_wf g -> in_range s -> checkShardAndState gid s g = Some (bool_decide (serves g s)).
Proof.
  intros Hwf Hs. pose proof Hs as [x Hx]%(gw_shards _ Hwf). unfold checkShardAndState, serves, sstate.
  rewrite Hx, (owner_index _ _ (gw_cur _ Hwf) Hs). done.
Qed.

Lemma processGetPutAppend_spec op g :
  group_wf g -> let s := key2shard (Key op) in
  exists rep g', processGetPutAppend gid op g = Some (rep, g') /\ group_wf g' /\ same_view g g' /\
    (forall s', in_range s' -> sstate g' s' = sstate g s') /\
    (forall s', in_range s' -> s' <> s -> sdata g' s' = sdata g s') /\
    (~ serves g s -> rep = mkCommonReply ErrWrongGroup "" /\ g' = g) /\
    (serves g s -> crErr rep = OK /\
       (OpType op = "Get" -> crValue rep = default ""%string (sdata g s !! Key op)) /\
       (OpType op <> "Get" -> isInvalidRequest (ClientId op) (RequestId op) (LastRequestMap g) = true ->
          g' = g) /\
       ((OpType op = "Get" \/ isInvalidRequest (ClientId op) (RequestId op) (LastRequestMap g) = false) ->
          sdata g' s = op_effect op (sdata g s) /\
          LastRequestMap g' = UpdateLastRequest op (LastRequestMap g))).
Proof.
  intros Hwf s. pose proof (key2shard_range (Key op)) as Hs. fold s in Hs.
  pose proof Hs as [x Hx]%(gw_shards _ Hwf).
  unfold processGetPutAppend. fold s. rewrite (checkShardAndState_spec _ _ Hwf Hs). simpl.
  destruct (decide (serves g s)) as [Hsv|Hsv];
    [rewrite bool_decide_eq_true_2 by done|rewrite bool_decide_eq_false_2 by done].
  2:{ eexists _, _. split; [done|]. split; [done|]. done. }
  case_decide as Hd.
  2:{ eexists _, _. split; [done|]. split; [done|]. split; [done|]. split; [done|]. split; [done|].
      split; [done|]. intros _. split; [done|]. split; [tauto|]. split; [done|]. tauto. }
  assert (Hnot : OpType op <> "Get" ->
    isInvalidRequest (ClientId op) (RequestId op) (LastRequestMap g) = true -> False).
  { intros ? Ht. destruct Hd as [?|Hf]; [done|]. congruence. }
  assert (Hupd : exists value y,
    (if decide (OpType op = "Get") then
       s0 ← shards g !! s; Some (get (Key op) s0, shards g)
     else if decide (OpType op = "Put") then
       m ← update_shard s (put (Key op) (Value op)) (shards g); Some (""%string, m)
     else if decide (OpType op = "Append") then
       m ← update_shard s (append (Key op) (Value op)) (shards g); Some (""%string, m)
     else Some (""%string, shards g)) = Some (value, <[s := y]> (shards g)) /\
    State y = State x /\ ShardKVDB y = op_effect op (ShardKVDB x) /\
    (OpType op = "Get" -> value = default ""%string (ShardKVDB x !! Key op))).
  { unfold update_shard, op_effect. rewrite Hx. simpl.
    destruct (decide (OpType op = "Get")) as [Hg|Hg].
    - exists (get (Key op) x), x. rewrite Hg, insert_id by done. done.
    - destruct (decide (OpType op = "Put")) as [Hp|Hp].
      + by exists ""%string, (put (Key op) (Value op) x).
      + destruct (decide (OpType op = "Append")) as [Ha|Ha].
        * by exists ""%string, (append (Key op) (Value op) x).
        * exists ""%string, x. by rewrite insert_id. }
  destruct Hupd as (value & y & -> & Hst & Hdb & Hval). simpl.
  eexists _, _. split; [done|]. split; [|split; [done|]].
  { destruct Hwf as [Hsh ? ?]. split; simpl; try done. intros s'. rewrite <- Hsh.
    destruct (decide (s = s')) as [<-|]; [rewrite lookup_insert_eq, Hx|by rewrite lookup_insert_ne].
    by split; eexists. }
  unfold sstate, sdata. simpl. split.
  { intros s' _. destruct (decide (s = s')) as [<-|]; [by rewrite lookup_insert_eq, Hx|by rewrite lookup_insert_ne]. }
  split; [intros s' _ Hne; by rewrite lookup_insert_ne|]. split; [done|].
  intros _. rewrite Hx, lookup_insert_eq. split; [done|]. split; [done|]. split; [naive_solver|done].
Qed.
End commands.

(** * Every command *)

(** A command whose tag and data agree, as the server and its monitors build it. *)
Definition cmd_ok (c : Command) : Prop :=
  match Data c with
  | DOp _ => CommandType c = "Get" \/ CommandType c = "Put" \/ CommandType c = "Append"
  | DConfig config => CommandType c = "AddConfig" /\ zlen (Shards config) = NShards
  | DInsert resp => CommandType c = "InsertShard" /\
      forall s, s ∈ dom (prShards resp) -> in_range s
  | DDelete _ => CommandType c = "DeleteShard"
  | DAdjust _ => CommandType c = "AdjustShardState"
  end.

Lemma execute_cases gid c g :
  cmd_ok c ->
  execute gid c g =
  match Data c with
  | DOp op => processGetPutAppend gid op g
  | DConfig config => processAddConfig gid config g
  | DInsert resp => processInsertShard resp g
  | DDelete args => processDeleteShard args g
  | DAdjust args => processAdjustGCingShard args g
  end.
Proof.
  unfold cmd_ok, execute. destruct c as [t d]; simpl.
  destruct d; simpl; [intros Ht; by rewrite decide_True|intros [-> ?]; done..|intros ->; done|intros ->; done].
Qed.

Lemma execute_ok gid c g :
  group_wf g -> cmd_ok c -> exists rep g', execute gid c g = Some (rep, g') /\ group_wf g'.
Proof.
  intros Hwf Hc. rewrite (execute_cases gid c g Hc). unfold cmd_ok in Hc.
  destruct (Data c) as [op|config|resp|args|args].
  - destruct (processGetPutAppend_spec gid op g Hwf) as (rep & g' & -> & Hwf' & _). eauto.
  - destruct (decide (Num config = Num (currentConfig g) + 1)).
    + destruct (processAddConfig_spec gid config g) as (g' & -> & Hwf' & _); naive_solver.
    + unfold processAddConfig. rewrite decide_False by done. eauto.
  - destruct (decide (prConfigNum resp = Num (currentConfig g))).
    + destruct (processInsertShard_spec resp g) as (g' & -> & Hwf' & _); naive_solver.
    + unfold processInsertShard. rewrite decide_False by done. eauto.
  - destruct (decide (rsConfigNum args = Num (currentConfig g))).
    + destruct (processDeleteShard_spec args g) as (g' & -> & Hwf' & _); naive_solver.
    + unfold processDeleteShard. rewrite decide_False by done. eauto.
  - destruct (decide (asConfigNum args = Num (currentConfig g))).
    + destruct (processAdjustGCingShard_spec args g) as (g' & -> & Hwf' & _); naive_solver.
    + unfold processAdjustGCingShard. rewrite decide_False by done. eauto.
Qed.

(** No shard is being migrated. *)
Definition all_serving (g : Group) : Prop := forall s, in_range s -> sstate g s = Serving.

Lemma isProcessShardCommand_spec g :
  group_wf g -> isProcessShardCommand g = false -> all_serving g.
Proof.
  intros Hwf Hp%bool_decide_eq_false s Hs. pose proof Hs as [x Hx]%(gw_shards _ Hwf).
  unfold sstate. rewrite Hx. destruct (decide (State x = Serving)); [done|].
  exfalso. apply Hp, Exists_exists. exists (s, x). by rewrite elem_of_map_to_list.
Qed.

Lemma all_serving_stable gid c g rep g' :
  group_wf g -> cmd_ok c -> all_serving g -> execute gid c g = Some (rep, g') ->
  (currentConfig g' = currentConfig g /\ all_serving g') \/
  exists config, Data c = DConfig config /\ Num config = Num (currentConfig g) + 1.
Proof.
  intros Hwf Hc Hall He. rewrite (execute_cases gid c g Hc) in He. unfold cmd_ok in Hc.
  destruct (Data c) as [op|config|resp|args|args]; [left|..].
  - destruct (processGetPutAppend_spec gid op g Hwf) as (rep' & g1 & He' & _ & [Hv _] & Hst & _).
    simplify_eq. split; [done|]. intros s Hs. rewrite Hst by done. auto.
  - destruct (decide (Num config = Num (currentConfig g) + 1)); [by right; eauto|left].
    unfold processAddConfig in He. rewrite decide_False in He by done. by simplify_eq.
  - left. destruct (decide (prConfigNum resp = Num (currentConfig g))) as [Hn|Hn].
    + destruct (processInsertShard_spec resp g Hwf Hn) as (g1 & He' & _ & [Hv _] & _ & Hs); [naive_solver|].
      simplify_eq. split; [done|]. intros s Hin. specialize (Hs s Hin). rewrite Hall in Hs by done.
      destruct (prShards resp !! s); naive_solver.
    + unfold processInsertShard in He. rewrite decide_False in He by done. by simplify_eq.
  - left. destruct (decide (rsConfigNum args = Num (currentConfig g))) as [Hn|Hn].
    + destruct (processDeleteShard_spec args g Hwf Hn) as (g1 & He' & _ & [Hv _] & _ & Hs).
      simplify_eq. split; [done|]. intros s Hin. specialize (Hs s Hin).
      rewrite (Hall s Hin) in Hs. case_decide; naive_solver.
    + unfold processDeleteShard in He. rewrite decide_False in He by done. by simplify_eq.
  - left. destruct (decide (asConfigNum args = Num (currentConfig g))) as [Hn|Hn].
    + destruct (processAdjustGCingShard_spec args g Hwf Hn) as (g1 & He' & _ & [Hv _] & _ & Hs).
      simplify_eq. split; [done|]. intros s Hin. destruct (Hs s Hin) as [_ ->].
      rewrite Hall by done. by case_decide.
    + unfold processAdjustGCingShard in He. rewrite decide_False in He by done. by simplify_eq.
Qed.

(** * The duplicate table *)

Definition covered (c r : Z) (lr : reqmap) : Prop := isInvalidRequest c r lr = true.

Lemma covered_lookup c r lr : covered c r lr <-> exists r', lr !! c = Some r' /\ r <= r'.
Proof.
  unfold covered, isInvalidRequest. destruct (lr !! c) as [r'|].
  - rewrite bool_decide_eq_true. naive_solver.
  - naive_solver.
Qed.

Lemma merge_requests_lookup resp lr c :
  merge_requests resp lr !! c =
  match resp !! c with
  | Some r => Some (max r (default 0 (lr !! c)))
  | None => lr !! c
  end.
Proof.
  unfold merge_requests. rewrite lookup_union, map_lookup_imap.
  destruct (resp !! c) as [r|]; simpl; by destruct (lr !! c).
Qed.

(** Installing a response keeps what both tables knew. *)
Lemma merge_requests_covered resp lr c r :
  covered c r resp \/ covered c r lr -> covered c r (merge_requests resp lr).
Proof.
  rewrite !covered_lookup, merge_requests_lookup.
  intros [(r' & -> & Hle)|(r' & Hr & Hle)]; unfold max.
  - eexists. split; [done|]. case_decide; lia.
  - rewrite Hr. destruct (resp !! c) as [r0|]; simpl; (eexists; split; [done|]); [case_decide|]; lia.
Qed.

Lemma UpdateLastRequest_covered op lr c r :
  covered c r lr \/ (c = ClientId op /\ r = RequestId op) -> covered c r (UpdateLastRequest op lr).
Proof.
  rewrite !covered_lookup. unfold UpdateLastRequest. intros Hc.
  destruct (lr !! ClientId op) as [r0|] eqn:E; [case_decide|];
    (destruct (decide (ClientId op = c)) as [<-|Hne];
     [rewrite ?lookup_insert_eq, ?E|rewrite ?lookup_insert_ne by done]); naive_solver lia.
Qed.

(** * Properties of one group *)

(** No panic: every command a group's log can hold (its tag and data agree,
    an installed shard number is in range, a configuration has ten shards)
    returns on a group that has its ten shards, and leaves it so. *)
Theorem group_commands_return gid c g :
  group_wf g -> cmd_ok c -> exists rep g', execute gid c g = Some (rep, g') /\ group_wf g'.
Proof. apply execute_ok. Qed.

Section snapshot.
Context {R : Type} `{RaftApi R Command}.
Context `{GobLaws (gmap Z Shard)} `{GobLaws reqmap} `{GobLaws Config}.

(** What a snapshot holds is read back. *)
Lemma decode_encode (kv : ShardKV R) : decodeState (encodeState kv) = Some (group kv) /\ 0 < zlen (encodeState kv).
Proof.
  unfold decodeState, encodeState. split.
  - rewrite gob_roundtrip. simpl. rewrite gob_roundtrip. simpl.
    rewrite gob_roundtrip. simpl. rewrite gob_roundtrip_nil. simpl. by destruct (group kv).
  - rewrite zlen_app. pose proof (zlen_pos (gob_encode (shards (group kv))) (gob_nonempty _)).
    pose proof (zlen_nonneg (gob_encode (LastRequestMap (group kv)) ++
      gob_encode (lastConfig (group kv)) ++ gob_encode (currentConfig (group kv)))). lia.
Qed.

(** Snapshots are complete: restoring what [encodeState] saved gives back
    the shards with their migration states, the duplicate table and both
    configurations. *)
Theorem shardkv_snapshot_roundtrip (kv kv' : ShardKV R) :
  group (readPersist (encodeState kv) kv') = group kv.
Proof. unfold readPersist. destruct (decode_encode kv) as [-> Hz]. by rewrite decide_False by lia. Qed.
End snapshot.
