(* ===== verification/ShardKVCluster.v ===== *)
(** A group of the sharded store on top of a Raft cluster: its servers serve their
    requests, take snapshots, crash and restart from them, and hold the state of one
    log of commands. *)

From S2P Require Import Prelude Gob Persister RaftTypes RaftNode RaftInv RaftSafe RaftCluster RaftSafety RaftServices RaftApi Replica WaitCh.
From S2P Require Import ShardCtrler ShardCtrlerBal ShardCtrlerSpec ShardKV ShardKVSpec.
Local Open Scope Z_scope.

(** * Executing a log *)

(** The commands in order; [None] is a panic. *)
Fixpoint exec_commands (gid : Z) (cs : list Command) (g : Group) : option Group :=
  match cs with [] => Some g | c :: cs => '(_, g) ← execute gid c g; exec_commands gid cs g end.

(** The state a server starts with when there is no snapshot. *)
Definition start_group : Group := set_shards (foldl fill_shard ∅ (seqZ 0 NShards)) (mkGroup zeroConfig zeroConfig ∅ ∅).

Lemma fill_shards_lookup js : forall m j, is_Some (foldl fill_shard m js !! j) <-> is_Some (m !! j) \/ j ∈ js.
Proof.
  induction js as [|i js IH]; intros m j; simpl; [rewrite elem_of_nil; tauto|]. rewrite IH, elem_of_cons. unfold fill_shard.
  destruct (m !! i) as [x|] eqn:E; [|rewrite lookup_insert_is_Some']; split; intros Hj; destruct_or?; auto.
  subst. left. rewrite E. eauto.
Qed.

Lemma fill_shards_full js : forall m, (forall j, j ∈ js -> is_Some (m !! j)) -> foldl fill_shard m js = m.
Proof.
  induction js as [|i js IH]; intros m Hm; simpl; [done|]. unfold fill_shard at 2.
  destruct (Hm i ltac:(by left)) as [x ->]. apply IH. intros j Hj. apply Hm. by right.
Qed.

Lemma start_group_wf : group_wf start_group.
Proof.
  split; [|by vm_compute..]. intros s. change (shards start_group) with (foldl fill_shard ∅ (seqZ 0 NShards)). rewrite fill_shards_lookup, elem_of_seqZ. unfold in_range.
  rewrite lookup_empty. split; [intros [[? ?]|?]; [done|lia]|intros; right; lia].
Qed.

Lemma exec_commands_snoc gid cs c g : exec_commands gid (cs ++ [c]) g =
  (g ← exec_commands gid cs g; '(_, g) ← execute gid c g; Some g).
Proof.
  revert g. induction cs as [|d cs IH]; intros g; simpl; [done|].
  destruct (execute gid d g) as [[r g']|]; simpl; [apply IH|done].
Qed.

(** Valid commands never panic. *)
Lemma exec_commands_ok gid cs : Forall cmd_ok cs -> forall g, group_wf g ->
  exists g', exec_commands gid cs g = Some g' /\ group_wf g'.
Proof.
  induction 1 as [|c cs Hc Hcs IH]; intros g Hwf; simpl; [eauto|].
  destruct (execute_ok gid c g Hwf Hc) as (r & g' & -> & Hwf'). simpl. by apply IH.
Qed.

(** * A server as a replicated service *)

(** A goroutine that runs: an RPC handler, or a monitor that starts the command it has
    built ([monitorRequestConfig], [monitorInsert], [monitorGC]); and where it is. *)
Inductive Request :=
| QGet (args : GetPutAppendArgs)
| QPutAppend (args : GetPutAppendArgs)
| QDelete (args : RemoveShardArgs)
| QMonitor (command : Command).
Record Handler := mkHandler { h_req : Request; h_pc : PC }.

Definition request_command (q : Request) : Command :=
  match q with
  | QGet args => mkCommand "Get" (DOp args)
  | QPutAppend args => mkCommand (OpType args) (DOp args)
  | QDelete args => mkCommand "DeleteShard" (DDelete args)
  | QMonitor command => command
  end.
Definition arrived (h : Handler) : bool := match h_pc h with PCheck => true | _ => false end.

Section service.
Context `{GobLaws Z} `{GobLaws (list (LogEntry Command))}.
Context `{GobLaws (gmap Z Shard)} `{GobLaws reqmap} `{GobLaws Config}.
(** The group and its [maxraftstate]. *)
Context (gd mx : Z).
Implicit Types (kv : ShardKV (PeerOf Command)) (h : Handler) (l : list Command).

Definition serve (q : Request) : bool -> PC -> ShardKV (PeerOf Command) -> Go (PC * ShardKV (PeerOf Command)) :=
  match q with
  | QGet args => Get args
  | QPutAppend args => PutAppend args
  | QDelete args => DeleteShards args
  | QMonitor command => StartCommand command (mkCommonReply "" "")
  end.
Definition run_handler (timeout : bool) (h : Handler) kv : Go (Handler * ShardKV (PeerOf Command)) :=
  '(pc, kv) ← serve (h_req h) timeout (h_pc h) kv; Ret (mkHandler (h_req h) pc, kv).

Definition member : Service Command (ShardKV (PeerOf Command)) Handler := {|
  sv_start self r := StartServer self r mx gd;
  sv_peer := rf;
  sv_with := set_rf;
  sv_apply _ := applier;
  sv_handle := run_handler;
  sv_fresh := arrived;
  sv_command h := request_command (h_req h)
|}.

(** The server, started after [a] commands, holds the state after [l] and has room for
    the next answer. *)
Record holds_log (i a : Z) l kv : Prop := {
  hl_group : exec_commands gd l start_group = Some (group kv) /\ group_wf (group kv);
  hl_gid : gid kv = gd /\ dead kv = 0;
  hl_room : waits_ok (zlen l) (waits kv);
  hl_index : lastIncludedIndex kv = zlen l \/ (zlen l = a /\ lastIncludedIndex kv <= a)
}.
Definition snapshot_of l (data : bytes) : Prop :=
  0 < zlen data /\ exists g, decodeState data = Some g /\ exec_commands gd l start_group = Some g /\ group_wf g.

Lemma hl_frame i a l kv kv' : holds_log i a l kv -> group kv' = group kv -> gid kv' = gid kv -> dead kv' = dead kv ->
  waits_ok (zlen l) (waits kv') -> lastIncludedIndex kv' = lastIncludedIndex kv -> holds_log i a l kv'.
Proof. intros [] Hg Hgid Hd Hw Hl. split; [by rewrite Hg|by rewrite Hgid, Hd|done|by rewrite Hl]. Qed.

(** ** The handlers *)
Lemma start_command_keeps i a l cmd res timeout pc kv pc' kv' : holds_log i a l kv ->
  StartCommand cmd res timeout pc kv = Ret (pc', kv') -> holds_log i a l kv' /\ peer_started member cmd kv kv'.
Proof.
  intros Hl Hh. pose proof (hl_room _ _ _ _ Hl) as Hw. unfold peer_started. destruct pc; simpl in Hh.
  - injection Hh as <- <-. auto.
  - destruct (Start cmd (rf kv).1) as [[[r' [[index term] il]] eff]|] eqn:HS; simpl in Hh; [|done].
    assert (kv' = set_rf (r', (rf kv).2 ++ eff) kv) as -> by (destruct il; by injection Hh).
    split; [by eapply hl_frame|]. right. by exists (index, term, il), eff, r'.
  - pose proof (waits_ok_register _ index _ Hw) as Hw'. destruct (register index (waits kv)) as [ch w]. injection Hh as <- <-.
    split; [by eapply hl_frame|auto].
  - destruct timeout; [injection Hh as <- <-; auto|].
    destruct (recv ch (waits kv)) as [[x w]| |] eqn:Er; simpl in Hh; try done. injection Hh as <- <-.
    split; [eapply hl_frame; try done; by eapply waits_ok_recv|auto].
  - destruct (GetState (rf kv).1) as [ct sl]. injection Hh as <- <-. auto.
  - injection Hh as <- <-. split; [eapply hl_frame; try done; by apply waits_ok_unregister|auto].
  - injection Hh as <- <-. auto.
Qed.

Lemma serve_keeps i a l q timeout pc kv pc' kv' : holds_log i a l kv -> serve q timeout pc kv = Ret (pc', kv') ->
  holds_log i a l kv' /\ peer_started member (request_command q) kv kv'.
Proof.
  intros Hl Hh. destruct q as [args|args|args|cmd].
  - destruct pc; try (eapply start_command_keeps; [exact Hl|exact Hh]). simpl in Hh.
    destruct (checkShardAndState _ _ _) as [[]|]; simpl in Hh; try done; injection Hh as <- <-; (split; [done|by left]).
  - destruct pc; try (eapply start_command_keeps; [exact Hl|exact Hh]). simpl in Hh.
    destruct (checkShardAndState _ _ _) as [[]|]; simpl in Hh; try done; [case_match|]; injection Hh as <- <-; (split; [done|by left]).
  - eapply start_command_keeps; [exact Hl|exact Hh].
  - eapply start_command_keeps; [exact Hl|exact Hh].
Qed.

(** ** The applier *)
Lemma applier_executes i a l kv t c : holds_log i a l kv -> a <= zlen l -> cmd_ok c -> node_ok (rf kv).1 ->
  zlen l + 1 <= lastApplied (rf kv).1 ->
  exists kv', applier (command_msg (zlen l + 1) t c) kv = Ret kv' /\ holds_log i a (l ++ [c]) kv' /\
    peer_compacted member (zlen l + 1) (snapshot_of (l ++ [c])) kv kv'.
Proof.
  intros [[Hex Hwf] [Hgid Hdead] Hw Hidx] Ha Hc Hok Happ. unfold applier. simpl. rewrite decide_False by lia.
  destruct (execute_ok gd c (group kv) Hwf Hc) as (rep & g & He & Hwf'). rewrite Hgid, He. simpl.
  assert (exec_commands gd (l ++ [c]) start_group = Some g) as Hex' by (rewrite exec_commands_snoc, Hex; simpl; by rewrite He).
  assert (forall Q (d : Decision Q), exists w, (if d then notifyWaitCh (zlen l + 1) rep (set_group g kv) else Ret (set_group g kv)) =
    Ret (set_waits w (set_group g kv)) /\ waits_ok (zlen l + 1) w) as Hn.
  { intros Q [_|_]; [|exists (waits kv); split; [by destruct kv|by eapply waits_ok_mono; [|done]; lia]].
    unfold notifyWaitCh. simpl. destruct (waits_ok_notify _ rep _ Hw) as (w & -> & ?). by exists w. }
  match goal with |- context [if ?d then notifyWaitCh _ _ _ else _] => destruct (Hn _ d) as (w & -> & Hw') end.
  simpl. unfold peer_compacted. case_decide; simpl.
  - destruct (decode_encode (set_waits w (set_group g kv))) as [Hdec Hz].
    destruct (Snapshot_ok (zlen l + 1) (encodeState (set_waits w (set_group g kv))) _ Hok Happ) as (r' & Hs & _). rewrite Hs. simpl.
    eexists. split; [done|]. split; [by split; simpl; rewrite ?zlen_snoc; [| | |left]|].
    right. exists (encodeState (set_waits w (set_group g kv))), r'. split_and!; [done|done|]. split; [done|]. by exists g.
  - eexists. split; [done|]. split; [by split; simpl; rewrite ?zlen_snoc; [| | |left]|by left].
Qed.

Lemma member_skips i a l kv k t c : holds_log i a l kv -> a < k <= zlen l -> applier (command_msg k t c) kv = Ret kv.
Proof. intros [_ _ _ Hidx] Hk. unfold applier. simpl. rewrite decide_True by lia. done. Qed.

Lemma applier_installs i a l kv t l' data : holds_log i a l kv -> snapshot_of l' data -> a < zlen l' -> a <= zlen l ->
  exists kv', applier (snapshot_msg (zlen l') t data) kv = Ret kv' /\ rf kv' = rf kv /\
    holds_log i a (if decide (zlen l < zlen l') then l' else l) kv'.
Proof.
  intros Hl (Hz & g & Hd & Hex & Hwf) Ha Hal. pose proof Hl as [_ [Hgid Hdead] Hw Hidx]. unfold applier. simpl.
  destruct (decide (zlen l < zlen l')).
  - rewrite decide_False by lia. unfold readPersist. rewrite decide_False, Hd by lia. eexists. split; [done|]. split; [done|].
    split; simpl; [done|done|by eapply waits_ok_mono; [|done]; lia|by left].
  - rewrite decide_True by lia. by exists kv.
Qed.

(** ** The start *)
Lemma start_holds i r : ReadSnapshot (rf_persister r) = [] -> holds_log i 0 [] (StartServer i r mx gd).
Proof.
  intros Hnil. unfold StartServer; cbv zeta; cbn [rf]. rewrite Hnil.
  split; [split; [done|apply start_group_wf]|done|apply waits_ok_none|by left].
Qed.

Lemma start_installs i r l : snapshot_of l (ReadSnapshot (rf_persister r)) -> holds_log i (zlen l) l (StartServer i r mx gd).
Proof.
  intros (Hz & g & Hd & Hex & Hwf). unfold StartServer; cbv zeta; cbn [rf]. unfold readPersist. rewrite decide_False, Hd by lia.
  cbn [group set_group]. rewrite fill_shards_full by (intros j Hj%elem_of_seqZ; apply (gw_shards _ Hwf); unfold in_range; lia).
  assert (set_shards (shards g) g = g) as E by (by destruct g). pose proof (zlen_nonneg l).
  split; simpl; rewrite ?E; [done|done|apply waits_ok_none|right; lia].
Qed.

Lemma member_laws : Laws member cmd_ok holds_log snapshot_of (fun _ _ => False).
Proof.
  split; try done.
  - intros i a l x kv Hl. by eapply hl_frame; try apply Hl.
  - intros i [p eff]. unfold member, StartServer, readPersist. simpl. case_decide; [done|]. by destruct (decodeState _).
  - intros i x. apply (start_holds i x).
  - intros i x l. apply (start_installs i x l).
  - intros i a l kv [q pc] timeout h' kv' Hl Hh. simpl in Hh. unfold run_handler in Hh. simpl in Hh.
    destruct (serve q timeout pc kv) as [[pc2 kv2]| |] eqn:E; simpl in Hh; try done. injection Hh as <- <-.
    destruct (serve_keeps _ _ _ _ _ _ _ _ _ Hl E) as [? ?]. done.
  - intros i a l kv t cmd Hl Hv Ha Hok Happ. left. apply Forall_app in Hv as [_ Hc]. apply Forall_cons in Hc as [Hc _].
    by apply applier_executes.
  - intros i a l kv k t cmd l0 d0 _ Hl Hk. by eapply member_skips.
  - intros i a l kv t l' data Hl Hs Ha Hal. by apply applier_installs.
Qed.
End service.

(** * A group on its cluster *)

(** A handler or monitor only starts well-formed commands. *)
Definition builds_ok (e : REvent Command Handler) : Prop :=
  match e with RRequest _ h => cmd_ok (request_command (h_req h)) | _ => True end.

(** C33. A group on its cluster.  Take any run of its servers, their peers and their
    RPC handlers and monitors, with crashes and snapshots, in which goroutines that
    replicate find their term, no command is read while a snapshot posted before it is
    unread, and the commands started are ones the handlers and monitors build.  There
    is one list of commands, the one the peers have delivered at their indices, such
    that each server holds exactly the configurations, shards, migration states and
    request table of executing the first [p] of them, where [p] is what its peer has
    applied once everything is read.  An applier neither panics nor blocks on a waiting
    handler, whatever snapshot it reads next, and whatever command it reads in turn. *)
Theorem group_follows_cluster `{GobLaws Z} `{GobLaws (list (LogEntry Command))}
    `{GobLaws (gmap Z Shard)} `{GobLaws reqmap} `{GobLaws Config} n gd mx now es w :
  rrun (member gd mx) es (rstart n (member gd mx) now) = Some w ->
  along (rexec (member gd mx)) goroutine_timely es (rstart n (member gd mx) now) = true ->
  along (rexec (member gd mx)) (in_turn (S := ShardKV (PeerOf Command))) es (rstart n (member gd mx) now) = true ->
  Forall builds_ok es ->
  exists cs, delivered_log (r_raft w) cs /\
    forall i v, r_srvs w !! i = Some v -> exists r p, nodes (r_raft w) !! i = Some r /\ 0 <= p <= lastApplied r /\
      lastApplied r <= zlen cs /\ (unread i (r_queue v) (r_raft w) = [] -> p = lastApplied r) /\
      exec_commands gd (take (Z.to_nat p) cs) start_group = Some (group (r_sv v)) /\ group_wf (group (r_sv v)) /\
      forall k m, sendable (unread i (r_queue v) (r_raft w)) k = true -> unread i (r_queue v) (r_raft w) !! k = Some m ->
        (CommandValid m = true -> k = 0%nat) -> exists kv, applier m (set_rf (r, []) (r_sv v)) = Ret kv.
Proof.
  intros Hr Hg Ht Hb.
  destruct (replica_follows n _ _ _ _ _ (member_laws gd mx) now es w Hr Hg) as (cs & Hcs & _ & Hsrv).
  { by left. }
  { eapply Forall_impl; [exact Hb|]. by intros []. }
  exists cs. split; [done|]. intros i v Hv. destruct (Hsrv i v Hv) as (r & a & p & Hi & Ha & Hp & [[He Hwf] _ _ _] & Hu & Hread).
  exists r, p. split_and!; try done; try lia. intros k m Hs Hm Htm.
  destruct (Hread k m Hs Hm) as [?|[_ []]]; [|done]. intros Hc. left. by apply Htm.
Qed.
