(* ===== verification/ShardKVSys.v ===== *)
(** Shard migration between replica groups.

    Raft makes a replica group behave as one [Group] that executes a sequence of
    commands; [Sys] is the collection of the groups with the RPCs and commands
    their monitors have issued and not yet lost.  A message may be delivered any
    number of times, at any later time or never.  [hist] is the controller's
    history.  Ghost state: [truth], the content a shard would have if it were
    never moved, and [applied], the requests that have changed it. *)

From S2P Require Import Prelude Gob ShardCtrler ShardCtrlerSpec ShardKV ShardKVSpec.
Local Open Scope Z_scope.

Inductive Msg :=
| MCmd (g : Z) (c : Command)
| MPull (h g : Z) (args : PullShardArgs)
| MDelete (h g : Z) (args : RemoveShardArgs).

Record Sys := mkSys {
  grp : Z -> Group;
  msgs : list Msg;
  truth : Z -> kvmap;
  applied : Z -> list (Z * Z)
}.

Definition upd {A} (f : Z -> A) (k : Z) (v : A) (x : Z) : A := if decide (x = k) then v else f x.

(** A group as [StartServer] creates it. *)
Definition init_group : Group :=
  mkGroup zeroConfig zeroConfig (foldl fill_shard ∅ (seqZ 0 NShards)) ∅.
Definition sys_init : Sys := mkSys (fun _ => init_group) [] (fun _ => ∅) (fun _ => []).

Definition set_grp (g : Z) (G : Group) (s : Sys) : Sys :=
  mkSys (upd (grp s) g G) (msgs s) (truth s) (applied s).
Definition send (l : list Msg) (s : Sys) : Sys :=
  mkSys (grp s) (l ++ msgs s) (truth s) (applied s).

(** A client command changes its shard: it is served, it is not a read and it is
    not a duplicate. *)
Definition effective (gid : Z) (op : GetPutAppendArgs) (G : Group) : Prop :=
  serves gid G (key2shard (Key op)) /\ OpType op <> "Get" /\
  isInvalidRequest (ClientId op) (RequestId op) (LastRequestMap G) = false.
#[export] Instance effective_dec gid op G : Decision (effective gid op G).
Proof. unfold effective, serves. apply _. Defined.

Definition record (gid : Z) (op : GetPutAppendArgs) (s : Sys) : Sys :=
  let x := key2shard (Key op) in
  if decide (effective gid op (grp s gid)) then
    mkSys (grp s) (msgs s) (upd (truth s) x (op_effect op (truth s x)))
      (upd (applied s) x ((ClientId op, RequestId op) :: applied s x))
  else s.

Section sys.
Context (hist : list Config).

Inductive step : Sys -> Sys -> Prop :=
| step_client s g op rep G' :
    g <> 0 -> OpType op = "Get" \/ OpType op = "Put" \/ OpType op = "Append" ->
    execute g (mkCommand (OpType op) (DOp op)) (grp s g) = Some (rep, G') ->
    step s (set_grp g G' (record g op s))
| step_command s g c rep G' :
    g <> 0 -> MCmd g c ∈ msgs s -> execute g c (grp s g) = Some (rep, G') ->
    step s (set_grp g G' s)
| step_request_config s g query c :
    g <> 0 -> (forall k, hist.[Num (query k)] = Some (query k)) ->
    monitorRequestConfig query (grp s g) = Some c ->
    step s (send [MCmd g c] s)
| step_request_pull s h calls servers args :
    h <> 0 -> monitorInsert (grp s h) = Some calls -> (servers, args) ∈ calls ->
    step s (send [MPull h (psGid args) args] s)
| step_pull s h g args c :
    g <> 0 -> MPull h g args ∈ msgs s ->
    on_pull_reply (psConfigNum args) (GetShards true args (grp s g)) = Some c ->
    step s (send [MCmd h c] s)
| step_request_delete s h calls g servers ids n :
    h <> 0 -> monitor_calls GCing (grp s h) = Some calls -> (g, servers, ids, n) ∈ calls ->
    step s (send [MDelete h g (mkRemoveShardArgs ids n)] s)
| step_delete s h g args rep G' :
    g <> 0 -> MDelete h g args ∈ msgs s ->
    execute g (mkCommand "DeleteShard" (DDelete args)) (grp s g) = Some (rep, G') ->
    step s (send (match on_delete_reply args (mkRemoveShardReply (crErr rep)) with
                  | Some c => [MCmd h c] | None => [] end) (set_grp g G' s)).

(** * The invariant *)

Definition own (n x : Z) : Z := match hist.[n] with Some c => owner c x | None => 0 end.
Definition num (s : Sys) (g : Z) : Z := Num (currentConfig (grp s g)).

(** The owner of [x] in configuration [n] has received the shard. *)
Definition settled (s : Sys) (n x : Z) : Prop :=
  let h := own n x in n < num s h \/ num s h = n /\ sstate (grp s h) x <> Pulling.

(** Configuration [n] moves [x] from group [g] to group [h]. *)
Definition moves (n x g h : Z) : Prop :=
  in_range x /\ 1 <= n /\ own (n - 1) x = g /\ own n x = h /\ g <> 0 /\ h <> 0 /\ g <> h.

(** [lr] knows every request that changed [x]. *)
Definition knows (s : Sys) (x : Z) (lr : reqmap) : Prop :=
  forall c r, (c, r) ∈ applied s x -> covered c r lr.

(** A copy of shard [x] that is up to date. *)
Definition exact (s : Sys) (x : Z) (d : kvmap) (lr : reqmap) : Prop := d = truth s x /\ knows s x lr.

Definition state_inv (s : Sys) (g x : Z) : Prop :=
  match sstate (grp s g) x with
  | Serving => True
  | BePulling => exists h, moves (num s g) x g h
  | Pulling | GCing => exists g', moves (num s g) x g' g
  end.

Definition msg_inv (s : Sys) (m : Msg) : Prop :=
  match m with
  | MCmd h c => cmd_ok c /\
      match Data c with
      | DOp _ | DDelete _ => False
      | DConfig config => hist.[Num config] = Some config /\
          (Num config <= num s h \/ num s h = Num config - 1 /\ all_serving (grp s h))
      | DInsert resp => forall x sh, prShards resp !! x = Some sh ->
          exists g, moves (prConfigNum resp) x g h /\ prConfigNum resp <= num s g /\
            (~ settled s (prConfigNum resp) x ->
             exact s x (ShardKVDB sh) (prLastRequestMap resp))
      | DAdjust args => forall x, x ∈ asShardIds args ->
          exists g, moves (asConfigNum args) x g h /\ settled s (asConfigNum args) x
      end
  | MPull h g args => forall x, x ∈ psShardIds args -> moves (psConfigNum args) x g h
  | MDelete h g args => forall x, x ∈ rsShardIds args ->
      moves (rsConfigNum args) x g h /\ settled s (rsConfigNum args) x
  end.

Record inv (s : Sys) : Prop := {
  i_wf : forall g, group_wf (grp s g);
  i_cur : forall g, hist.[num s g] = Some (currentConfig (grp s g));
  i_last : forall g, 1 <= num s g -> hist.[num s g - 1] = Some (lastConfig (grp s g));
  i_state : forall g x, g <> 0 -> in_range x -> state_inv s g x;
  i_pulled : forall n x g h, moves n x g h -> settled s n x -> n <= num s g;
  i_kept : forall n x g h, moves n x g h ->
    n < num s g \/ num s g = n /\ sstate (grp s g) x <> BePulling -> settled s n x;
  i_serve : forall g x, g <> 0 -> in_range x -> serves g (grp s g) x ->
    exact s x (sdata (grp s g) x) (LastRequestMap (grp s g));
  i_held : forall g x, g <> 0 -> in_range x -> sstate (grp s g) x = BePulling ->
    ~ settled s (num s g) x -> exact s x (sdata (grp s g) x) (LastRequestMap (grp s g));
  i_empty : forall g x, g <> 0 -> in_range x ->
    own (num s g) x <> g /\ sstate (grp s g) x <> BePulling \/ sstate (grp s g) x = Pulling ->
    sdata (grp s g) x = ∅;
  i_truth : forall x, in_range x -> truth s x <> ∅ \/ applied s x <> [] ->
    exists n, own n x <> 0 /\ settled s n x;
  i_msgs : forall m, m ∈ msgs s -> msg_inv s m
}.

(** What the controller's history promises: numbered configurations that start
    with the empty one, and no shard that goes back to group 0. *)
Record hist_ok : Prop := {
  h_wf : configs_wf hist;
  h_init : hist.[0] = Some zeroConfig;
  h_zero : forall n x, 0 <= n -> n + 1 < zlen hist -> own n x <> 0 -> own (n + 1) x <> 0
}.

Context (Hh : hist_ok).

Lemma own_range n x : own n x <> 0 -> 0 <= n < zlen hist.
Proof.
  unfold own. destruct (hist.[n]) eqn:E; [|done]. intros _. by eapply go_index_Some_lt.
Qed.

Lemma own_stays n m x : own n x <> 0 -> n <= m < zlen hist -> own m x <> 0.
Proof.
  intros Hn [Hle Hlt]. pose proof (own_range _ _ Hn) as Hr.
  replace m with (n + Z.of_nat (Z.to_nat (m - n))) in * by lia.
  induction (Z.to_nat (m - n)) as [|k IH]; [by replace (n + Z.of_nat 0) with n by lia|].
  replace (n + Z.of_nat (S k)) with ((n + Z.of_nat k) + 1) in * by lia.
  apply (h_zero Hh); [lia|lia|]. apply IH; lia.
Qed.

Lemma own_cur s g x : inv s -> own (num s g) x = owner (currentConfig (grp s g)) x.
Proof. intros Hi. unfold own. by rewrite (i_cur _ Hi). Qed.

Lemma num_range s g : inv s -> 0 <= num s g < zlen hist.
Proof. intros Hi. eapply go_index_Some_lt, (i_cur _ Hi). Qed.

Lemma serves_settled s g x :
  inv s -> serves g (grp s g) x -> own (num s g) x = g /\ settled s (num s g) x.
Proof.
  intros Hi [Ho Hst]. rewrite <- (own_cur s g x Hi) in Ho. split; [done|].
  unfold settled. rewrite Ho. right. split; [done|]. destruct Hst as [-> | ->]; done.
Qed.

(** A group that owned a shard has moved on when a later, different owner holds it. *)
Lemma chain s x n1 : inv s -> in_range x -> own n1 x <> 0 ->
  forall k n2, n2 = n1 + 1 + Z.of_nat k -> n2 < zlen hist -> settled s n2 x -> own n2 x <> own n1 x ->
  n1 < num s (own n1 x).
Proof.
  intros Hi Hx H1 k. induction k as [|k IH]; intros n2 Hn2 Hlt Hset Hne.
  - assert (n1 = n2 - 1) as E by lia.
    assert (Hm : moves n2 x (own n1 x) (own n2 x)).
    { pose proof (own_range _ _ H1). unfold moves. rewrite <- E. split_and!; try done; [lia|].
      apply (own_stays n1); [done|lia]. }
    pose proof (i_pulled _ Hi _ _ _ _ Hm Hset). lia.
  - pose proof (own_range _ _ H1) as Hr.
    assert (Hnz : own (n2 - 1) x <> 0) by (apply (own_stays n1); [done|lia]).
    assert (Hnz2 : own n2 x <> 0) by (apply (own_stays n1); [done|lia]).
    assert (Hset' : n2 <= num s (own (n2 - 1) x) -> settled s (n2 - 1) x)
      by (intros; unfold settled; left; lia).
    destruct (decide (own (n2 - 1) x = own n2 x)) as [He|He].
    + apply (IH (n2 - 1)); [lia|lia| |congruence]. apply Hset'. rewrite He.
      unfold settled in Hset. lia.
    + assert (Hm : moves n2 x (own (n2 - 1) x) (own n2 x)) by (split_and!; done || lia).
      pose proof (i_pulled _ Hi _ _ _ _ Hm Hset) as Hle.
      destruct (decide (own (n2 - 1) x = own n1 x)) as [<-|He1]; [lia|].
      apply (IH (n2 - 1)); [lia|lia|auto|done].
Qed.

Lemma chain' s x n1 n2 :
  inv s -> in_range x -> own n1 x <> 0 -> n1 < n2 -> settled s n2 x -> own n2 x <> 0 ->
  own n2 x <> own n1 x -> n1 < num s (own n1 x).
Proof.
  intros Hi Hx H1 Hlt Hset H2 Hne. pose proof (own_range _ _ H2).
  apply (chain s x n1 Hi Hx H1 (Z.to_nat (n2 - n1 - 1)) n2); [lia|lia|done|done].
Qed.

(** Two groups never serve the same shard. *)
Lemma exclusive s g1 g2 x :
  inv s -> g1 <> 0 -> g2 <> 0 -> in_range x ->
  serves g1 (grp s g1) x -> serves g2 (grp s g2) x -> g1 = g2.
Proof.
  intros Hi H1 H2 Hx Hs1 Hs2.
  destruct (serves_settled _ _ _ Hi Hs1) as [Ho1 Ht1].
  destruct (serves_settled _ _ _ Hi Hs2) as [Ho2 Ht2].
  destruct (decide (g1 = g2)) as [|Hne]; [done|exfalso].
  destruct (Z.lt_trichotomy (num s g1) (num s g2)) as [Hlt|[Heq|Hlt]].
  - assert (num s g1 < num s (own (num s g1) x)) as H;
      [apply (chain' s x (num s g1) (num s g2)); congruence|]. rewrite Ho1 in H. lia.
  - rewrite Heq in Ho1. congruence.
  - assert (num s g2 < num s (own (num s g2) x)) as H;
      [apply (chain' s x (num s g2) (num s g1)); congruence|]. rewrite Ho2 in H. lia.
Qed.

(** While a shard is on its way, nobody serves it. *)
Lemma frozen s n x g h k :
  inv s -> moves n x g h -> n <= num s g -> ~ settled s n x -> k <> 0 ->
  serves k (grp s k) x -> False.
Proof.
  intros Hi (Hx & H1 & Hg & Hhn & Hg0 & Hh0 & Hne) Hle Hns Hk Hs.
  destruct (serves_settled _ _ _ Hi Hs) as [Ho Ht].
  destruct (Z.lt_trichotomy (num s k) n) as [Hlt|[Heq|Hlt]].
  - assert (Hsg : settled s (n - 1) x) by (unfold settled; rewrite Hg; left; lia).
    destruct (decide (k = g)) as [->|Hkg]; [lia|].
    destruct (decide (num s k = n - 1)) as [Hq|Hq]; [rewrite Hq in Ho; congruence|].
    assert (num s k < num s (own (num s k) x)) as H;
      [apply (chain' s x (num s k) (n - 1)); congruence || lia|]. rewrite Ho in H. lia.
  - rewrite Heq in Ht. done.
  - destruct (decide (k = h)) as [->|Hkh].
    + apply Hns. unfold settled. rewrite Hhn. by left.
    + apply Hns. unfold settled. left.
      apply (chain' s x n (num s k)); congruence.
Qed.

(** ** Messages *)

Lemma inv_send s l : inv s -> (forall m, m ∈ l -> msg_inv s m) -> inv (send l s).
Proof.
  intros [] Hl. split; try assumption. intros m [Hm|Hm]%elem_of_app; [by apply Hl|].
  by apply i_msgs0.
Qed.

(** ** Commands that keep the configuration *)

(** The state changes such a command can make. *)
Definition local_change (s : Sys) (h x : Z) (o o' : ShardState) : Prop :=
  o' = o \/
  (o = Pulling /\ o' = GCing /\ exists g, moves (num s h) x g h /\ num s h <= num s g) \/
  (o = BePulling /\ o' = Serving /\ settled s (num s h) x) \/
  (o = GCing /\ o' = Serving).

Lemma upd_eq {A} (f : Z -> A) k v : upd f k v k = v.
Proof. unfold upd. by rewrite decide_True. Qed.
Lemma upd_ne {A} (f : Z -> A) k v x : x <> k -> upd f k v x = f x.
Proof. intros. unfold upd. by rewrite decide_False. Qed.

Section local.
Context (s : Sys) (Hi : inv s) (h : Z) (Hh0 : h <> 0) (G : Group).
Context (T : Z -> kvmap) (A : Z -> list (Z * Z)).
Context (Hwf : group_wf G) (Hview : same_view (grp s h) G).
Context (Hst : forall x, in_range x -> local_change s h x (sstate (grp s h) x) (sstate G x)).
Context (Hchg : forall x, T x = truth s x /\ A x = applied s x \/
                          in_range x /\ serves h (grp s h) x).
Let s' := mkSys (upd (grp s) h G) (msgs s) T A.

Lemma local_num g : num s' g = num s g.
Proof.
  unfold num, s'. simpl. destruct (decide (g = h)) as [->|]; [|by rewrite upd_ne].
  rewrite upd_eq. by destruct Hview as [-> _].
Qed.

Lemma local_settled n x : in_range x -> settled s n x -> settled s' n x.
Proof.
  intros Hx. unfold settled. rewrite local_num. intros [?|[Hn Hp]]; [by left|right].
  split; [done|]. unfold s'. simpl. destruct (decide (own n x = h)) as [E|]; [|by rewrite upd_ne].
  rewrite E in *. rewrite upd_eq.
  destruct (Hst x Hx) as [-> |[(? & -> & _)|[(? & -> & _)|(? & ->)]]]; done.
Qed.

Lemma local_newly_settled n x :
  in_range x -> settled s' n x -> settled s n x \/
  own n x = h /\ num s h = n /\ exists g, moves n x g h /\ n <= num s g.
Proof.
  intros Hx. unfold settled. rewrite local_num. intros [?|[Hn Hp]]; [by left; left|].
  unfold s' in Hp. simpl in Hp. destruct (decide (own n x = h)) as [E|].
  2:{ rewrite upd_ne in Hp by done. left. by right. }
  rewrite E in *. rewrite upd_eq in Hp.
  destruct (Hst x Hx) as [Hq|[(Ho & _ & Hm)|[(Ho & _)|(Ho & _)]]].
  - left. right. split; [done|]. congruence.
  - right. subst n. eauto.
  - left. right. split; [done|]. by rewrite Ho.
  - left. right. split; [done|]. by rewrite Ho.
Qed.

(** Copies that nobody could have changed meanwhile stay exact. *)
Lemma local_exact x d lr :
  (serves h (grp s h) x -> False) -> exact s x d lr -> exact s' x d lr.
Proof.
  intros Hns [Hd Hk]. destruct (Hchg x) as [[HT HA]|[_ Hs]]; [|by destruct Hns].
  unfold exact, knows, s'. simpl. by rewrite HT, HA.
Qed.

Lemma local_msg m : m ∈ msgs s -> msg_inv s' m.
Proof.
  intros Hm%(i_msgs _ Hi). destruct m as [h' c|h' g args|h' g args]; simpl in *.
  - destruct Hm as [Hok Hm]. split; [done|]. destruct (Data c) as [op|config|resp|args|args]; try done.
    + rewrite local_num. destruct Hm as [Hc [Hle|[Hn Hall]]]; (split; [done|]); [by left|right].
      split; [done|]. intros x Hx. unfold s'. simpl.
      destruct (decide (h' = h)) as [->|]; [rewrite upd_eq|rewrite upd_ne by done; auto].
      specialize (Hall x Hx).
      destruct (Hst x Hx) as [-> |[(? & _)|[(? & _)|(? & _)]]]; congruence.
    + intros x sh Hsh. destruct (Hm x sh Hsh) as (g & Hmv & Hle & Hex).
      exists g. rewrite local_num. split; [done|]. split; [done|]. intros Hns.
      assert (Hns' : ~ settled s (prConfigNum resp) x).
      { intros Hset. apply Hns. apply local_settled; [apply Hmv|done]. }
      apply local_exact; [|auto]. by eapply frozen.
    + intros x Hx. destruct (Hm x Hx) as (g & Hmv & Hset). exists g. split; [done|].
      apply local_settled; [apply Hmv|done].
  - done.
  - intros x Hx. destruct (Hm x Hx) as [Hmv Hset]. split; [done|].
    apply local_settled; [apply Hmv|done].
Qed.

Lemma shard_inv_local :
  (forall x, in_range x -> serves h G x -> exact s' x (sdata G x) (LastRequestMap G)) ->
  (forall x, in_range x -> sstate G x = BePulling -> ~ settled s (num s h) x ->
     exact s' x (sdata G x) (LastRequestMap G)) ->
  (forall x, in_range x ->
     own (num s h) x <> h /\ sstate G x <> BePulling \/ sstate G x = Pulling -> sdata G x = ∅) ->
  inv s'.
Proof.
  intros Hserve Hheld Hempty.
  assert (Hgrp : forall g, grp s' g = if decide (g = h) then G else grp s g) by done.
  split.
  - intros g. rewrite Hgrp. case_decide; [done|apply Hi].
  - intros g. rewrite local_num, Hgrp. case_decide; [subst|apply Hi].
    destruct Hview as [-> _]. apply Hi.
  - intros g. rewrite local_num, Hgrp. case_decide; [subst|apply Hi].
    destruct Hview as [_ ->]. apply Hi.
  - intros g x Hg Hx. pose proof (i_state _ Hi g x Hg Hx) as Hs. unfold state_inv in *.
    rewrite local_num, Hgrp. case_decide as Hd; [subst|done].
    destruct (Hst x Hx) as [-> |[(Ho & -> & _)|[(Ho & -> & _)|(Ho & ->)]]];
      [done| |done|done]. by rewrite Ho in Hs.
  - intros n x g h' Hm Hset. rewrite local_num.
    destruct (local_newly_settled n x (proj1 Hm) Hset) as [Hs|(Ho & Hn & g' & Hm' & Hle)].
    + by eapply (i_pulled _ Hi).
    + destruct Hm as (_ & _ & <- & _), Hm' as (_ & _ & <- & _). done.
  - intros n x g h' Hm. rewrite local_num, Hgrp. intros Hc.
    apply local_settled; [apply Hm|]. case_decide as Hd; [subst g|by eapply (i_kept _ Hi)].
    destruct Hc as [Hc|[Hn Hb]]; [eapply (i_kept _ Hi); [done|by left]|].
    destruct (Hst x (proj1 Hm)) as [Hq|[(Ho & _)|[(Ho & _ & Hset)|(Ho & _)]]].
    + eapply (i_kept _ Hi); [done|]. right. split; [done|]. congruence.
    + eapply (i_kept _ Hi); [done|]. right. split; [done|]. by rewrite Ho.
    + by rewrite Hn in Hset.
    + eapply (i_kept _ Hi); [done|]. right. split; [done|]. by rewrite Ho.
  - intros g x Hg Hx. rewrite Hgrp. case_decide as Hd; [subst; auto|]. intros Hs.
    apply local_exact; [|by apply (i_serve _ Hi)]. intros Hs'.
    apply Hd. by apply (exclusive s g h x).
  - intros g x Hg Hx. rewrite local_num, Hgrp. intros Hb Hns.
    assert (Hns' : ~ settled s (num s g) x) by (intros ?; by apply Hns, local_settled).
    case_decide as Hd; [subst; auto|].
    apply local_exact; [|by apply (i_held _ Hi)]. intros Hs'.
    pose proof (i_state _ Hi g x Hg Hx) as Hsi. unfold state_inv in Hsi. rewrite Hb in Hsi.
    destruct Hsi as [h' Hm]. by eapply (frozen s (num s g) x g h' h).
  - intros g x Hg Hx. rewrite local_num, Hgrp. case_decide; [subst; auto|by apply (i_empty _ Hi)].
  - intros x Hx Ht. destruct (Hchg x) as [[HT HA]|[_ Hs]].
    + unfold s' in Ht. simpl in Ht. rewrite HT, HA in Ht.
      destruct (i_truth _ Hi x Hx Ht) as (n & Hn & Hset). exists n. split; [done|].
      by apply local_settled.
    + destruct (serves_settled _ _ _ Hi Hs) as [Ho Hset]. exists (num s h).
      rewrite Ho. split; [done|]. by apply local_settled.
  - apply local_msg.
Qed.
End local.

(** A command that leaves contents alone and only extends the request table. *)
Lemma inv_keep s h G :
  inv s -> h <> 0 -> group_wf G -> same_view (grp s h) G ->
  (forall x, in_range x -> local_change s h x (sstate (grp s h) x) (sstate G x)) ->
  (forall x, in_range x -> sdata G x = sdata (grp s h) x) ->
  (forall c r, covered c r (LastRequestMap (grp s h)) -> covered c r (LastRequestMap G)) ->
  (forall x, in_range x -> sstate G x = sstate (grp s h) x \/
     sstate (grp s h) x = GCing /\ sstate G x = Serving) ->
  inv (set_grp h G s).
Proof.
  intros Hi Hh0 Hwf Hview Hst Hd Hlr Hsame.
  assert (Hex : forall x, in_range x -> exact s x (sdata (grp s h) x) (LastRequestMap (grp s h)) ->
    exact s x (sdata G x) (LastRequestMap G)).
  { intros x Hx [Hdx Hk]. rewrite Hd by done. split; [done|]. intros c r Hin. auto. }
  apply (shard_inv_local s Hi h Hh0 G (truth s) (applied s)); try done; [by left|..].
  - intros x Hx [Ho Hs]. apply Hex; [done|]. apply (i_serve _ Hi); try done.
    destruct Hview as [Hv _]. rewrite Hv in Ho. split; [done|].
    destruct (Hsame x Hx) as [<-|[-> _]]; [done|by right].
  - intros x Hx Hb Hns. apply Hex; [done|]. apply (i_held _ Hi); try done.
    destruct (Hsame x Hx) as [<-|[_ Hq]]; [done|congruence].
  - intros x Hx Hc. rewrite Hd by done. apply (i_empty _ Hi); try done.
    destruct (Hsame x Hx) as [<-|[Ho Hq]]; [done|].
    destruct Hc as [[Hn _]|Hp]; [left; split; [done|congruence]|congruence].
Qed.

Lemma inv_client s g op rep G :
  inv s -> g <> 0 -> processGetPutAppend g op (grp s g) = Some (rep, G) ->
  inv (set_grp g G (record g op s)).
Proof.
  intros Hi Hg He. set (x0 := key2shard (Key op)).
  destruct (processGetPutAppend_spec g op (grp s g) (i_wf _ Hi g))
    as (rep' & G' & He' & Hwf & Hview & Hst & Hoth & Hno & Hyes).
  fold x0 in Hoth, Hno, Hyes. rewrite He in He'. injection He' as <- <-.
  assert (Hlc : forall x, in_range x -> local_change s g x (sstate (grp s g) x) (sstate G x)).
  { intros x Hx. left. auto. }
  pose proof (key2shard_range (Key op)) as Hx0. fold x0 in Hx0.
  unfold record. fold x0. case_decide as Hef.
  - destruct Hef as (Hs & Hng & Hfr). fold x0 in Hs.
    destruct (Hyes Hs) as (_ & _ & _ & Hdo). destruct (Hdo (or_intror Hfr)) as [Hd Hl].
    destruct (i_serve _ Hi g x0 Hg Hx0 Hs) as [Hdt Hk].
    assert (Hex : forall x, in_range x -> x <> x0 ->
      exact s x (sdata (grp s g) x) (LastRequestMap (grp s g)) ->
      exact (mkSys (upd (grp s) g G) (msgs s) (upd (truth s) x0 (op_effect op (truth s x0)))
        (upd (applied s) x0 ((ClientId op, RequestId op) :: applied s x0))) x
        (sdata G x) (LastRequestMap G)).
    { intros x Hx Hne [Hdx Hkx]. unfold exact, knows. simpl. rewrite !upd_ne, Hoth by done.
      split; [done|]. intros c r Hin. rewrite Hl. apply UpdateLastRequest_covered. left. auto. }
    apply (shard_inv_local s Hi g Hg G); try done.
    + intros x. destruct (decide (x = x0)) as [->|]; [by right|]. left. simpl. by rewrite !upd_ne.
    + intros x Hx [Ho Hss]. destruct (decide (x = x0)) as [->|Hne].
      * unfold exact, knows. simpl. rewrite !upd_eq, Hd, Hdt. split; [done|].
        intros c r [[= -> ->]|Hin]%elem_of_cons; rewrite Hl; apply UpdateLastRequest_covered; auto.
      * apply Hex; try done. apply (i_serve _ Hi); try done. destruct Hview as [Hv _].
        rewrite Hv in Ho. split; [done|]. by rewrite Hst in Hss.
    + intros x Hx Hb Hns. rewrite Hst in Hb by done. destruct (decide (x = x0)) as [->|Hne].
      * exfalso. destruct Hs as [_ [?|?]]; congruence.
      * apply Hex; try done. by apply (i_held _ Hi).
    + intros x Hx Hc. rewrite Hst in Hc by done. destruct (decide (x = x0)) as [->|Hne].
      * exfalso. destruct (serves_settled _ _ _ Hi Hs) as [Ho _].
        destruct Hs as [_ [?|?]], Hc as [[? _]|?]; congruence.
      * rewrite Hoth by done. by apply (i_empty _ Hi).
  - assert (Hkeep : G = grp s g \/
      (sdata G x0 = sdata (grp s g) x0 /\ LastRequestMap G = UpdateLastRequest op (LastRequestMap (grp s g)))).
    { destruct (decide (serves g (grp s g) x0)) as [Hs|Hs]; [|left; by apply Hno].
      destruct (Hyes Hs) as (_ & _ & Hdup & Hdo).
      destruct (decide (OpType op = "Get")) as [Hg'|Hg'].
      - right. destruct (Hdo (or_introl Hg')) as [Hd Hl]. split; [|done]. rewrite Hd.
        unfold op_effect. by rewrite Hg'.
      - destruct (isInvalidRequest (ClientId op) (RequestId op) (LastRequestMap (grp s g))) eqn:Hv;
          [left; auto|]. exfalso. by apply Hef. }
    apply inv_keep; try done.
    + intros x Hx. destruct (decide (x = x0)) as [->|]; [|auto]. by destruct Hkeep as [->|[-> _]].
    + intros c r Hc. destruct Hkeep as [->|[_ ->]]; [done|]. apply UpdateLastRequest_covered. auto.
    + intros x Hx. left. auto.
Qed.

Lemma inv_insert s h resp rep G :
  inv s -> h <> 0 -> msg_inv s (MCmd h (mkCommand "InsertShard" (DInsert resp))) ->
  processInsertShard resp (grp s h) = Some (rep, G) -> inv (set_grp h G s).
Proof.
  intros Hi Hh0 [[_ Hrange] Hmsg] He.
  destruct (decide (prConfigNum resp = Num (currentConfig (grp s h)))) as [Hn|Hn].
  2:{ unfold processInsertShard in He. rewrite decide_False in He by done. simplify_eq.
      apply inv_keep; try done; try apply Hi; intros x Hx; [by left|by left]. }
  destruct (processInsertShard_spec resp (grp s h) (i_wf _ Hi h) Hn Hrange)
    as (G' & He' & Hwf & Hview & Hl & Hsh). rewrite He in He'. injection He' as -> <-.
  assert (Hlr : forall c r, covered c r (LastRequestMap (grp s h)) -> covered c r (LastRequestMap G)).
  { intros c r Hc. rewrite Hl. apply merge_requests_covered. auto. }
  assert (Hcase : forall x, in_range x ->
    (sstate G x = sstate (grp s h) x /\ sdata G x = sdata (grp s h) x) \/
    (sstate (grp s h) x = Pulling /\ sstate G x = GCing /\ (exists g, moves (num s h) x g h /\ num s h <= num s g) /\
     exact s x (sdata G x) (LastRequestMap G))).
  { intros x Hx. specialize (Hsh x Hx). destruct (prShards resp !! x) as [sh|] eqn:E; [|by left].
    destruct (sstate (grp s h) x) eqn:Est; try (by left). right.
    destruct Hsh as [Hgc Hdx]. destruct (Hmsg x sh E) as (g & Hm & Hle & Hex).
    fold (num s h) in Hn. rewrite Hn in *. split; [done|]. split; [done|]. split; [by eauto|].
    destruct Hex as [Hd Hk].
    { intros [Hlt|[_ Hp]]; destruct Hm as (_ & _ & _ & Ho & _); rewrite Ho in *; [lia|done]. }
    split.
    - rewrite Hdx, (i_empty _ Hi h x Hh0 Hx) by auto. by rewrite (right_id_L ∅ (∪)).
    - intros c r Hin. rewrite Hl. apply merge_requests_covered. auto. }
  assert (Hold : forall x, in_range x -> sdata G x = sdata (grp s h) x ->
    exact s x (sdata (grp s h) x) (LastRequestMap (grp s h)) -> exact s x (sdata G x) (LastRequestMap G)).
  { intros x Hx -> [Hd Hk]. split; [done|]. intros c r Hin. auto. }
  apply (shard_inv_local s Hi h Hh0 G (truth s) (applied s)); try done.
  - intros x Hx. destruct (Hcase x Hx) as [[? _]|(? & ? & ? & _)]; [by left|by right; left].
  - by left.
  - intros x Hx [Ho Hs]. destruct (Hcase x Hx) as [[Heq Hd]|(_ & _ & _ & Hex)]; [|done].
    apply Hold; [done|done|]. apply (i_serve _ Hi); try done. destruct Hview as [Hv _].
    rewrite Hv in Ho. split; [done|congruence].
  - intros x Hx Hb Hns. destruct (Hcase x Hx) as [[Heq Hd]|(_ & _ & _ & Hex)]; [|done].
    apply Hold; [done|done|]. apply (i_held _ Hi); congruence.
  - intros x Hx Hc. destruct (Hcase x Hx) as [[Heq Hd]|(Hp & Hgc & (g & Hm & _) & _)].
    + rewrite Hd. apply (i_empty _ Hi); congruence.
    + exfalso. destruct Hm as (_ & _ & _ & Ho & _). destruct Hc as [[? _]|?]; congruence.
Qed.

Lemma inv_delete s h g args rep G :
  inv s -> g <> 0 -> msg_inv s (MDelete h g args) ->
  processDeleteShard args (grp s g) = Some (rep, G) -> inv (set_grp g G s).
Proof.
  intros Hi Hg Hmsg He. simpl in Hmsg.
  destruct (decide (rsConfigNum args = Num (currentConfig (grp s g)))) as [Hn|Hn].
  2:{ unfold processDeleteShard in He. rewrite decide_False in He by done. simplify_eq.
      apply inv_keep; try done; try apply Hi; intros x Hx; [by left|by left]. }
  destruct (processDeleteShard_spec args (grp s g) (i_wf _ Hi g) Hn)
    as (G' & He' & Hwf & Hview & Hl & Hsh). rewrite He in He'. injection He' as -> <-.
  fold (num s g) in Hn.
  assert (Hcase : forall x, in_range x ->
    (sstate G x = sstate (grp s g) x /\ sdata G x = sdata (grp s g) x) \/
    (sstate (grp s g) x = BePulling /\ sstate G x = Serving /\ sdata G x = ∅ /\
     settled s (num s g) x /\ own (num s g) x <> g)).
  { intros x Hx. specialize (Hsh x Hx). case_decide as Hd; [|by left]. right.
    destruct Hd as [Hin Hb]. destruct (Hmsg x Hin) as [Hm Hset]. rewrite Hn in *.
    destruct Hm as (_ & _ & _ & Ho & _ & _ & Hne). naive_solver. }
  apply (shard_inv_local s Hi g Hg G (truth s) (applied s)); try done.
  - intros x Hx. destruct (Hcase x Hx) as [[? _]|(? & ? & _ & ? & _)]; [by left|by right; right; left].
  - by left.
  - intros x Hx [Ho Hs]. destruct Hview as [Hv _]. rewrite Hv in Ho.
    destruct (Hcase x Hx) as [[Heq Hd]|(_ & _ & _ & _ & Hne)].
    + rewrite Hd, Hl. apply (i_serve _ Hi); try done. split; [done|congruence].
    + exfalso. apply Hne. by rewrite (own_cur s g x Hi).
  - intros x Hx Hb Hns. destruct (Hcase x Hx) as [[Heq Hd]|(_ & Hs & _)]; [|congruence].
    rewrite Hd, Hl. apply (i_held _ Hi); congruence.
  - intros x Hx Hc. destruct (Hcase x Hx) as [[Heq Hd]|(_ & _ & Hd & _)]; [|done].
    rewrite Hd. apply (i_empty _ Hi); congruence.
Qed.

Lemma inv_adjust s h args rep G :
  inv s -> h <> 0 -> msg_inv s (MCmd h (mkCommand "AdjustShardState" (DAdjust args))) ->
  processAdjustGCingShard args (grp s h) = Some (rep, G) -> inv (set_grp h G s).
Proof.
  intros Hi Hh0 [_ Hmsg] He. simpl in Hmsg.
  destruct (decide (asConfigNum args = Num (currentConfig (grp s h)))) as [Hn|Hn].
  2:{ unfold processAdjustGCingShard in He. rewrite decide_False in He by done. simplify_eq.
      apply inv_keep; try done; try apply Hi; intros x Hx; [by left|by left]. }
  destruct (processAdjustGCingShard_spec args (grp s h) (i_wf _ Hi h) Hn)
    as (G' & He' & Hwf & Hview & Hl & Hsh). rewrite He in He'. injection He' as -> <-.
  fold (num s h) in Hn.
  assert (Hcase : forall x, in_range x -> sstate G x = sstate (grp s h) x \/
     sstate (grp s h) x = GCing /\ sstate G x = Serving).
  { intros x Hx. destruct (Hsh x Hx) as [_ ->]. case_decide as Hin; [|by left].
    destruct (Hmsg x Hin) as (g & Hm & Hset). rewrite Hn in *.
    pose proof (i_state _ Hi h x Hh0 Hx) as Hs. unfold state_inv in Hs.
    destruct Hm as (_ & _ & _ & Ho & _ & _ & _).
    destruct (sstate (grp s h) x) eqn:E; [by left| | |by right].
    - exfalso. unfold settled in Hset. rewrite Ho in Hset. destruct Hset as [?|[_ ?]]; [lia|done].
    - exfalso. destruct Hs as (h' & _ & _ & _ & Ho' & _ & _ & Hne). congruence. }
  apply inv_keep; try done.
  - intros x Hx. destruct (Hcase x Hx) as [?|?]; [by left|by right; right; right].
  - intros x Hx. by apply Hsh.
  - intros c r. by rewrite Hl.
Qed.

(** ** The next configuration *)

Section config.
Context (s : Sys) (Hi : inv s) (h : Z) (Hh0 : h <> 0) (c : Config) (G : Group).
Context (Hc : hist.[Num c] = Some c) (Hn : num s h = Num c - 1) (Hall : all_serving (grp s h)).
Context (Hwf : group_wf G) (Hcur : currentConfig G = c) (Hlast : lastConfig G = currentConfig (grp s h)).
Context (Hlr : LastRequestMap G = LastRequestMap (grp s h)).
Context (Hsh : forall x, in_range x -> sdata G x = sdata (grp s h) x /\
  sstate G x = new_state h c (currentConfig (grp s h)) x (sstate (grp s h) x)).
Let s' := set_grp h G s.
Let n := num s h.

Lemma config_own x : own n x = owner (currentConfig (grp s h)) x /\ own (n + 1) x = owner c x.
Proof.
  split; [apply own_cur, Hi|]. unfold own. replace (n + 1) with (Num c) by (unfold n; lia).
  by rewrite Hc.
Qed.

(** The state of a shard in the new configuration, by its two owners. *)
Lemma config_state x : in_range x ->
  own n x = h /\ own (n + 1) x <> h /\ sstate G x = BePulling \/
  own n x = h /\ own (n + 1) x = h /\ sstate G x = Serving \/
  own n x = 0 /\ sstate G x = Serving \/
  own n x <> h /\ own n x <> 0 /\ own (n + 1) x = h /\ sstate G x = Pulling \/
  own n x <> h /\ own n x <> 0 /\ own (n + 1) x <> h /\ sstate G x = Serving.
Proof.
  intros Hx. destruct (Hsh x Hx) as [_ Hs]. destruct (config_own x) as [Ho Ho'].
  rewrite (Hall x Hx) in Hs. unfold new_state in Hs. rewrite <- Ho, <- Ho' in Hs.
  pose proof (num_range s h Hi) as Hr. pose proof (go_index_Some_lt _ _ _ Hc) as Hlt.
  assert (Hz : own n x <> 0 -> own (n + 1) x <> 0).
  { intros Hnz. apply (own_stays n); [done|]. unfold n. lia. }
  repeat case_decide; destruct (decide (own n x = h)), (decide (own (n + 1) x = h)),
    (decide (own n x = 0)); naive_solver congruence.
Qed.

Lemma config_num g : num s' g = if decide (g = h) then n + 1 else num s g.
Proof.
  unfold num at 1, s', set_grp, upd. simpl. case_decide; [|done]. rewrite Hcur. unfold n. lia.
Qed.

Lemma config_num_mono g : num s g <= num s' g.
Proof. rewrite config_num. case_decide; [subst; unfold n; lia|lia]. Qed.

Lemma config_grp g : grp s' g = if decide (g = h) then G else grp s g.
Proof. done. Qed.

Lemma config_settled m x : settled s m x -> settled s' m x.
Proof.
  unfold settled. rewrite config_num, config_grp. case_decide as Hd; [|done]. rewrite Hd.
  intros [?|[? _]]; left; unfold n; lia.
Qed.

Lemma config_newly_settled m x : in_range x ->
  settled s' m x -> settled s m x \/ m = n + 1 /\ own m x = h /\ sstate G x <> Pulling.
Proof.
  intros Hx. unfold settled. rewrite config_num, config_grp. case_decide as Hd; [|by left].
  rewrite Hd. intros [Hlt|[Hq Hp]]; [left|right; auto].
  destruct (decide (m = n)) as [->|]; [right|left; unfold n in *; lia].
  split; [done|]. by rewrite Hall.
Qed.

(** A shard nobody owned before is still empty. *)
Lemma config_fresh x : in_range x -> own n x = 0 -> own (n + 1) x = h ->
  truth s x = ∅ /\ applied s x = [].
Proof.
  intros Hx Hz Ho. destruct (decide (truth s x = ∅ /\ applied s x = [])) as [|Hne]; [done|exfalso].
  destruct (i_truth _ Hi x Hx) as (m & Hm & Hset); [destruct (decide (truth s x = ∅)); tauto|].
  pose proof (num_range s h Hi) as Hr. fold n in Hr.
  assert (n < m).
  { destruct (decide (n < m)); [done|]. exfalso. by apply (own_stays m n x); [|lia|]. }
  destruct (decide (own m x = h)) as [Hq|Hq].
  - unfold settled in Hset. rewrite Hq in Hset. unfold n in *. lia.
  - assert (m <> n + 1) by congruence.
    assert (n + 1 < num s (own (n + 1) x)) as Hlt;
      [apply (chain' s x (n + 1) m); congruence || lia|].
    rewrite Ho in Hlt. unfold n in Hlt. lia.
Qed.

Lemma config_msg m : m ∈ msgs s -> msg_inv s' m.
Proof.
  intros Hm%(i_msgs _ Hi). pose proof config_num_mono as Hmono.
  destruct m as [h' cmd|h' g args|h' g args]; simpl in *; [|done|].
  - destruct Hm as [Hok Hm]. split; [done|]. destruct (Data cmd) as [op|config|resp|args|args]; try done.
    + destruct Hm as [Hcf Hm]. split; [done|]. rewrite config_num.
      case_decide as Hd; [subst h'|]; [left; unfold n; lia|].
      destruct Hm as [?|[? Ha]]; [by left|right]. split; [done|].
      unfold s', set_grp. simpl. by rewrite upd_ne.
    + intros x sh Hx. destruct (Hm x sh Hx) as (g & Hmv & Hle & Hex). exists g.
      split; [done|]. split; [specialize (Hmono g); lia|]. intros Hns. apply Hex.
      intros Hset. by apply Hns, config_settled.
    + intros x Hx. destruct (Hm x Hx) as (g & Hmv & Hset). exists g. split; [done|].
      by apply config_settled.
  - intros x Hx. destruct (Hm x Hx) as [Hmv Hset]. split; [done|]. by apply config_settled.
Qed.

(** A shard that stays, or that nobody owned, is up to date in the new
    configuration. *)
Lemma config_exact x : in_range x -> own n x = h \/ own n x = 0 /\ own (n + 1) x = h ->
  exact s x (sdata G x) (LastRequestMap G).
Proof.
  intros Hx Ho. destruct (Hsh x Hx) as [-> _]. rewrite Hlr. destruct Ho as [Ho|[Hz Ho]].
  - apply (i_serve _ Hi); [done|done|]. split; [by rewrite <- (own_cur s h x Hi)|].
    left. auto.
  - destruct (config_fresh x Hx Hz Ho) as [Ht Ha]. split.
    + rewrite Ht. apply (i_empty _ Hi); [done|done|]. left. fold n. rewrite Hz, (Hall x Hx). done.
    + intros c' r. rewrite Ha. by intros ?%not_elem_of_nil.
Qed.

Lemma inv_config : inv s'.
Proof.
  pose proof (num_range s h Hi) as Hr. fold n in Hr.
  split.
  - intros g. rewrite config_grp. case_decide; [done|apply Hi].
  - intros g. rewrite config_num, config_grp. case_decide; [|apply Hi].
    replace (n + 1) with (Num c) by (unfold n; lia). by rewrite Hcur.
  - intros g. rewrite config_num, config_grp. case_decide; [|apply Hi]. intros _.
    replace (n + 1 - 1) with n by lia. rewrite Hlast. apply Hi.
  - intros g x Hg Hx. unfold state_inv. rewrite config_num, config_grp.
    case_decide as Hd; [subst g|by apply (i_state _ Hi)].
    pose proof (own_stays n (n + 1) x) as Hz. pose proof (go_index_Some_lt _ _ _ Hc).
    unfold moves. replace (n + 1 - 1) with n by lia.
    destruct (config_state x Hx) as [(? & ? & ->)|[(? & ? & ->)|[(? & ->)|[(? & ? & ? & ->)|(? & ? & ? & ->)]]]];
      try done.
    + exists (own (n + 1) x). split_and!; try done; [lia|]. apply Hz; [congruence|unfold n in *; lia].
    + exists (own n x). split_and!; try done. lia.
  - intros m x g h' Hm Hset. pose proof (config_num_mono g) as Hmono.
    destruct (config_newly_settled m x (proj1 Hm) Hset) as [Hs|(-> & Ho & Hp)].
    + pose proof (i_pulled _ Hi _ _ _ _ Hm Hs). lia.
    + exfalso. destruct Hm as (Hx & _ & Hg & Hh' & Hg0 & _ & Hne).
      replace (n + 1 - 1) with n in Hg by lia.
      destruct (config_state x Hx) as [(? & ? & ?)|[(? & ? & ?)|[(? & ?)|[(? & ? & ? & ?)|(? & ? & ? & ?)]]]];
        congruence.
  - intros m x g h' Hm. rewrite config_num, config_grp. intros Hcs. apply config_settled.
    case_decide as Hd; [subst g|by eapply (i_kept _ Hi)].
    destruct (decide (m = n + 1)) as [->|Hne].
    + exfalso. destruct Hm as (Hx & _ & Hg & Hh' & Hg0 & Hh'0 & Hne).
      replace (n + 1 - 1) with n in Hg by lia. destruct Hcs as [?|[_ Hb]]; [lia|].
      destruct (config_state x Hx) as [(? & ? & ?)|[(? & ? & ?)|[(? & ?)|[(? & ? & ? & ?)|(? & ? & ? & ?)]]]];
        congruence.
    + eapply (i_kept _ Hi); [done|]. fold n. destruct (decide (m = n)) as [->|]; [right|left; lia].
      split; [done|]. by rewrite (Hall x (proj1 Hm)).
  - intros g x Hg Hx. rewrite config_grp. case_decide as Hd; [subst g|by apply (i_serve _ Hi)].
    intros [Ho Hs]. rewrite Hcur in Ho. destruct (config_own x) as [_ Ho']. rewrite <- Ho' in Ho.
    apply config_exact; [done|].
    destruct (config_state x Hx) as [(? & ? & ?)|[(? & ? & ?)|[(? & ?)|[(? & ? & ? & Hp)|(? & ? & ? & ?)]]]];
      auto; [|congruence]. rewrite Hp in Hs. by destruct Hs.
  - intros g x Hg Hx. rewrite config_num, config_grp. intros Hb Hns.
    case_decide as Hd; [subst g|].
    + apply config_exact; [done|].
      destruct (config_state x Hx) as [(? & ? & ?)|[(? & ? & ?)|[(? & ?)|[(? & ? & ? & Hp)|(? & ? & ? & ?)]]]];
        auto; congruence.
    + apply (i_held _ Hi); try done. intros Hset. by apply Hns, config_settled.
  - intros g x Hg Hx. rewrite config_num, config_grp. case_decide as Hd; [subst g|by apply (i_empty _ Hi)].
    intros Hcs. destruct (Hsh x Hx) as [-> _]. apply (i_empty _ Hi); [done|done|]. left.
    rewrite (Hall x Hx). fold n. split; [|done]. intros Hq.
    destruct (config_state x Hx) as [(? & ? & ?)|[(? & ? & ?)|[(? & ?)|[(? & ? & ? & Hp)|(? & ? & ? & ?)]]]];
      try congruence; destruct Hcs as [[? ?]|?]; congruence.
  - intros x Hx Ht. destruct (i_truth _ Hi x Hx Ht) as (m & Hm & Hset). exists m.
    split; [done|]. by apply config_settled.
  - apply config_msg.
Qed.
End config.

(** ** Monitors *)

Lemma getShardIds_spec st G groups o ids x :
  getShardIdsWithSpecifiedState st G = Some groups -> groups !! o = Some ids -> x ∈ ids ->
  exists sh, shards G !! x = Some sh /\ State sh = st /\ (Shards (lastConfig G)).[x] = Some o.
Proof.
  unfold getShardIdsWithSpecifiedState.
  set (l := map fst (filter _ _)).
  assert (Hl : forall y, y ∈ l -> exists sh, shards G !! y = Some sh /\ State sh = st).
  { intros y ([y' sh] & -> & Hy)%list_elem_of_fmap. apply list_elem_of_filter in Hy as [Hst Hy].
    apply elem_of_map_to_list in Hy. eauto. }
  assert (Hgen : forall l acc, (forall y, y ∈ l -> exists sh, shards G !! y = Some sh /\ State sh = st) ->
    (forall o ids y, acc !! o = Some ids -> y ∈ ids ->
       exists sh, shards G !! y = Some sh /\ State sh = st /\ (Shards (lastConfig G)).[y] = Some o) ->
    forall groups, foldM (add_owner (lastConfig G)) l acc = Some groups ->
    forall o ids y, groups !! o = Some ids -> y ∈ ids ->
       exists sh, shards G !! y = Some sh /\ State sh = st /\ (Shards (lastConfig G)).[y] = Some o).
  { clear l Hl. induction l as [|y l IH]; intros acc Hl Hacc gs Hf; simpl in Hf; [by simplify_eq|].
    destruct (add_owner (lastConfig G) acc y) as [acc'|] eqn:E; simpl in Hf; [|done].
    apply (IH acc'); [intros; apply Hl; set_solver| |done].
    unfold add_owner in E. destruct ((Shards (lastConfig G)).[y]) as [oy|] eqn:Eo; simpl in E; [|done].
    injection E as <-. intros o' ids' y' Ho Hy'. apply lookup_insert_Some in Ho as [[<- <-]|[_ Ho]]; [|eauto].
    apply elem_of_app in Hy' as [Hy'| ->%list_elem_of_singleton].
    - destruct (acc !! oy) as [ids0|] eqn:E0; simpl in Hy'; [eauto|by apply not_elem_of_nil in Hy'].
    - destruct (Hl y) as (sh & ? & ?); [set_solver|]. eauto. }
  intros Hf Ho Hx. by eapply (Hgen l ∅).
Qed.

(** The calls of a monitor name the previous owner of shards in the given state. *)
Lemma monitor_calls_spec st s h calls o servers ids n x :
  inv s -> h <> 0 -> st = Pulling \/ st = GCing ->
  monitor_calls st (grp s h) = Some calls -> (o, servers, ids, n) ∈ calls -> x ∈ ids ->
  n = num s h /\ moves n x o h /\ sstate (grp s h) x = st.
Proof.
  intros Hi Hh0 Hst Hc Hin Hx. unfold monitor_calls in Hc.
  destruct (getShardIdsWithSpecifiedState st (grp s h)) as [groups|] eqn:E; simpl in Hc; [|done].
  injection Hc as <-. apply list_elem_of_fmap in Hin as ([o' ids'] & [= -> -> -> ->] & Hin).
  apply elem_of_map_to_list in Hin.
  destruct (getShardIds_spec _ _ _ _ _ _ E Hin Hx) as (sh & Hsh & Hstx & Ho).
  assert (Hr : in_range x) by (by apply (gw_shards _ (i_wf _ Hi h)); eexists).
  assert (Hs : sstate (grp s h) x = st) by (unfold sstate; by rewrite Hsh).
  pose proof (i_state _ Hi h x Hh0 Hr) as Hinv. unfold state_inv in Hinv. rewrite Hs in Hinv.
  assert (exists g', moves (num s h) x g' h) as [g' Hm] by (by destruct Hst as [-> | ->]).
  split; [done|]. split; [|done]. replace o' with g'; [done|].
  destruct Hm as (_ & H1 & <- & _). unfold own. rewrite (i_last _ Hi h H1). unfold owner. by rewrite Ho.
Qed.

Lemma msg_config s g query c :
  inv s -> (forall k, hist.[Num (query k)] = Some (query k)) ->
  monitorRequestConfig query (grp s g) = Some c -> msg_inv s (MCmd g c).
Proof.
  intros Hi Hq. unfold monitorRequestConfig.
  destruct (isProcessShardCommand (grp s g)) eqn:Hp; [done|]. case_decide as Hn; [|done].
  intros [= <-]. set (cf := query _) in *. assert (Hcf : hist.[Num cf] = Some cf) by apply Hq.
  split; [split; [done|]|].
  - by destruct (proj2 (h_wf Hh) _ _ Hcf) as [_ []].
  - split; [done|]. right. split; [unfold num; lia|]. apply isProcessShardCommand_spec; [apply Hi|done].
Qed.

Lemma pull_shards_lookup m ids x sh :
  foldl (pull_shard m) ∅ ids !! x = Some sh ->
  x ∈ ids /\ exists y, m !! x = Some y /\ State y = BePulling /\ sh = CopyShard y.
Proof.
  assert (Hgen : forall acc, (forall x sh, acc !! x = Some sh ->
      exists y, m !! x = Some y /\ State y = BePulling /\ sh = CopyShard y) ->
    foldl (pull_shard m) acc ids !! x = Some sh ->
    (x ∈ ids \/ acc !! x = Some sh) /\ exists y, m !! x = Some y /\ State y = BePulling /\ sh = CopyShard y).
  { induction ids as [|i ids IH]; intros acc Hacc; simpl; [intros Hx; split; [by right|eauto]|].
    intros Hf. destruct (IH (pull_shard m acc i)) as [Hor Hy]; [|done|].
    - unfold pull_shard. destruct (m !! i) as [y|] eqn:E; [|done]. case_decide; [|done].
      intros x' sh'. rewrite lookup_insert_Some. intros [[<- <-]|[_ ?]]; eauto.
    - split; [|done]. destruct Hor as [?|Hp]; [left; set_solver|].
      unfold pull_shard in Hp. destruct (m !! i); [|by right]. case_decide; [|by right].
      apply lookup_insert_Some in Hp as [[<- _]|[_ ?]]; [left; set_solver|by right]. }
  intros Hf. destruct (Hgen ∅) as [[?|?] ?]; [by intros ? ? ?|done|done|done].
Qed.

Lemma msg_pull s h g args c :
  inv s -> g <> 0 -> msg_inv s (MPull h g args) ->
  on_pull_reply (psConfigNum args) (GetShards true args (grp s g)) = Some c -> msg_inv s (MCmd h c).
Proof.
  intros Hi Hg Hmsg. simpl in Hmsg. unfold on_pull_reply, GetShards.
  destruct (decide (psConfigNum args = Num (currentConfig (grp s g)))) as [Hn|Hn]; [|done].
  simpl. intros [= <-].
  assert (Hget : forall x sh, foldl (pull_shard (shards (grp s g))) ∅ (psShardIds args) !! x = Some sh ->
    moves (psConfigNum args) x g h /\ sstate (grp s g) x = BePulling /\ ShardKVDB sh = sdata (grp s g) x).
  { intros x sh Hx. apply pull_shards_lookup in Hx as (Hin & y & Hy & Hst & ->).
    unfold sstate, sdata. rewrite Hy. auto. }
  split; [split; [done|]|].
  - simpl. intros x [sh Hx]%elem_of_dom. by apply (Hget x sh).
  - simpl. intros x sh Hx. destruct (Hget x sh Hx) as (Hm & Hb & Hd). exists g.
    split; [done|]. split; [unfold num; lia|]. intros Hns. rewrite Hd.
    apply (i_held _ Hi); [done|apply Hm|done|]. unfold num. by rewrite <- Hn.
Qed.

(** ** Steps *)

Lemma inv_command s h c rep G :
  inv s -> h <> 0 -> msg_inv s (MCmd h c) -> execute h c (grp s h) = Some (rep, G) ->
  inv (set_grp h G s).
Proof.
  intros Hi Hh0 Hmsg He. pose proof Hmsg as [Hok Hm].
  rewrite (execute_cases h c _ Hok) in He. destruct c as [t d]. unfold cmd_ok in Hok. simpl in *.
  destruct d as [op|config|resp|args|args]; try done.
  - destruct Hm as [Hc Hm]. destruct (decide (Num config = Num (currentConfig (grp s h)) + 1)) as [Hn|Hn].
    + destruct (processAddConfig_spec h config (grp s h) (i_wf _ Hi h) (proj2 Hok) Hn)
        as (G' & He' & Hwf & Hcur & Hlast & Hlr & Hsh). rewrite He in He'. injection He' as _ <-.
      destruct Hm as [Hm|[Hm Hall]]; [unfold num in Hm; lia|].
      by apply (inv_config s Hi h Hh0 config G).
    + unfold processAddConfig in He. rewrite decide_False in He by done. simplify_eq.
      apply inv_keep; try done; try apply Hi; intros x Hx; by left.
  - destruct Hok as [-> _]. exact (inv_insert s h resp rep G Hi Hh0 Hmsg He).
  - subst t. exact (inv_adjust s h args rep G Hi Hh0 Hmsg He).
Qed.

Lemma step_inv s s' : inv s -> step s s' -> inv s'.
Proof.
  intros Hi Hs. destruct Hs as
    [s g op rep G Hg Ht He|s g c rep G Hg Hin He|s g q c Hg Hq Hc|s h calls srv args Hh0 Hc Hin
    |s h g args c Hg Hin Hc|s h calls g srv ids n Hh0 Hc Hin|s h g args rep G Hg Hin He].
  - rewrite execute_cases in He by done. by eapply inv_client.
  - eapply inv_command; eauto. by apply (i_msgs _ Hi).
  - apply inv_send; [done|]. intros m ->%list_elem_of_singleton. by eapply msg_config.
  - apply inv_send; [done|]. intros m ->%list_elem_of_singleton. simpl. intros x Hx.
    unfold monitorInsert in Hc. destruct (monitor_calls Pulling (grp s h)) as [cs|] eqn:E; simpl in Hc; [|done].
    injection Hc as <-. apply list_elem_of_fmap in Hin as ([[[o servers] ids] n] & [= -> ->] & Hin).
    simpl in *. by destruct (monitor_calls_spec Pulling s h cs o servers ids n x) as (_ & ? & _); auto.
  - apply inv_send; [done|]. intros m ->%list_elem_of_singleton.
    eapply msg_pull; eauto. by apply (i_msgs _ Hi).
  - apply inv_send; [done|]. intros m ->%list_elem_of_singleton. simpl. intros x Hx.
    destruct (monitor_calls_spec GCing s h calls g srv ids n x) as (-> & Hm & Hst); auto.
    split; [done|]. unfold settled. destruct Hm as (_ & _ & _ & -> & _). right. by rewrite Hst.
  - rewrite execute_cases in He by done. simpl in He.
    assert (Hi' : inv (set_grp g G s)) by (eapply inv_delete; eauto; by apply (i_msgs _ Hi)).
    apply inv_send; [done|]. unfold on_delete_reply. case_decide; [|by intros m ?%not_elem_of_nil].
    intros m ->%list_elem_of_singleton. split; [done|]. simpl. intros x Hx. exists g.
    by apply (i_msgs _ Hi' _ Hin x).
Qed.

Lemma init_shards x : in_range x -> shards init_group !! x = Some (MakeShard Serving).
Proof.
  intros Hx. unfold in_range, NShards in Hx.
  assert (x ∈ [0;1;2;3;4;5;6;7;8;9]) as Hin by (set_unfold; lia).
  set_unfold. destruct_or?; subst; done.
Qed.

Lemma init_inv : inv sys_init.
Proof.
  pose proof init_shards as Hsh.
  assert (Hst : forall x, in_range x -> sstate init_group x = Serving /\ sdata init_group x = ∅).
  { intros x Hx. unfold sstate, sdata. by rewrite (Hsh x Hx). }
  split; simpl; try done.
  - intros g. split; [|done|done]. intros x. split.
    + intros [y Hy]. assert (Hd : x ∈ dom (shards init_group)) by (by eapply elem_of_dom_2).
      assert (dom (shards init_group) = list_to_set (seqZ 0 NShards)) as Hq by (by vm_compute).
      rewrite Hq in Hd. apply elem_of_list_to_set, elem_of_seqZ in Hd. unfold in_range. lia.
    + intros Hx. rewrite (Hsh x Hx). by eexists.
  - intros g. apply (h_init Hh).
  - intros g x _ Hx. unfold state_inv. simpl. by rewrite (proj1 (Hst x Hx)).
  - intros n x g h (_ & H1 & _) [Hlt|[Hq _]]; unfold num in *; simpl in *; lia.
  - intros n x g h (_ & H1 & _) [Hlt|[Hq _]]; unfold num in *; simpl in *; lia.
  - intros g x _ Hx _. split; [by apply Hst|]. intros c r ?%not_elem_of_nil. done.
  - intros g x _ Hx Hb. by rewrite (proj1 (Hst x Hx)) in Hb.
  - intros g x _ Hx _. by apply Hst.
  - intros x _ [?|?]; done.
  - by intros m ?%not_elem_of_nil.
Qed.

Lemma reachable_inv s : rtc step sys_init s -> inv s.
Proof.
  apply (rtc_ind_r (fun s => inv s) sys_init); [apply init_inv|].
  intros s1 s2 _ Hs Hi. by eapply step_inv.
Qed.
End sys.

(** * Properties *)

(** C29. One server per shard: when no shard goes back to group 0, no two groups
    ever serve the same shard at the same time, however far apart the groups are
    in the history and whatever migration RPCs and commands are lost, repeated
    or delayed. *)
Theorem one_group_serves hist s g1 g2 x :
  hist_ok hist -> rtc (step hist) sys_init s -> g1 <> 0 -> g2 <> 0 -> in_range x ->
  serves g1 (grp s g1) x -> serves g2 (grp s g2) x -> g1 = g2.
Proof.
  intros Hh Hr H1 H2 Hx. apply (exclusive hist Hh s g1 g2 x); try done.
  by apply reachable_inv.
Qed.

(** C30. Migration loses nothing when no shard goes back to group 0 ([hist_ok]): a [Get]
    that any group answers [OK] returns the value of the key in the store as it would be if shards never moved, that is
    after every effective Put and Append on that shard by whichever group served
    it at the time. *)
Theorem sharded_get_reads_truth hist s g op rep G :
  hist_ok hist -> rtc (step hist) sys_init s -> g <> 0 -> OpType op = "Get" ->
  execute g (mkCommand "Get" (DOp op)) (grp s g) = Some (rep, G) ->
  crErr rep = OK ->
  crValue rep = default ""%string (truth s (key2shard (Key op)) !! Key op).
Proof.
  intros Hh Hr Hg Ht He Hok. pose proof (reachable_inv hist Hh s Hr) as Hi.
  rewrite execute_cases in He by (by left). simpl in He.
  destruct (processGetPutAppend_spec g op (grp s g) (i_wf _ _ Hi g))
    as (rep' & G' & He' & _ & _ & _ & _ & Hno & Hyes). simplify_eq.
  destruct (decide (serves g (grp s g) (key2shard (Key op)))) as [Hs|Hs].
  - destruct (Hyes Hs) as (_ & Hv & _). rewrite (Hv Ht).
    destruct (i_serve _ _ Hi g _ Hg (key2shard_range _) Hs) as [-> _]. done.
  - destruct (Hno Hs) as [-> _]. done.
Qed.

(** C31. Exactly once across groups when no shard goes back to group 0 ([hist_ok]): a
    Put or Append changes its shard at most once, even when it is retried at the shard's
    next owner: when a group lets a request take effect, no group has let it take effect
    on that shard before. *)
Theorem effective_once hist s g op :
  hist_ok hist -> rtc (step hist) sys_init s -> g <> 0 -> effective g op (grp s g) ->
  (ClientId op, RequestId op) ∉ applied s (key2shard (Key op)).
Proof.
  intros Hh Hr Hg (Hs & _ & Hfr) Hin. pose proof (reachable_inv hist Hh s Hr) as Hi.
  destruct (i_serve _ _ Hi g _ Hg (key2shard_range _) Hs) as [_ Hk].
  specialize (Hk _ _ Hin). unfold covered in Hk. congruence.
Qed.

(** A configuration is taken only when the previous one is finished: when a
    group executes an [AddConfig] command that its monitor issued, either the
    command is stale and changes nothing, or every shard of the group is
    [Serving] at that moment. *)
Theorem config_after_migration hist s g config rep G :
  hist_ok hist -> rtc (step hist) sys_init s -> g <> 0 ->
  MCmd g (mkCommand "AddConfig" (DConfig config)) ∈ msgs s ->
  execute g (mkCommand "AddConfig" (DConfig config)) (grp s g) = Some (rep, G) ->
  G = grp s g \/ all_serving (grp s g) /\ currentConfig G = config /\
                 lastConfig G = currentConfig (grp s g).
Proof.
  intros Hh Hr Hg Hin He. pose proof (reachable_inv hist Hh s Hr) as Hi.
  destruct (i_msgs _ _ Hi _ Hin) as [[_ Hl] [Hc Hm]]. simpl in Hl, Hc, Hm.
  rewrite execute_cases in He by done. simpl in He.
  destruct (decide (Num config = Num (currentConfig (grp s g)) + 1)) as [Hn|Hn].
  - right. destruct Hm as [Hm|[_ Hall]]; [unfold num in Hm; lia|].
    destruct (processAddConfig_spec g config (grp s g) (i_wf _ _ Hi g) Hl Hn)
      as (G' & He' & _ & Hcur & Hlast & _). simplify_eq. auto.
  - left. unfold processAddConfig in He. rewrite decide_False in He by done. by simplify_eq.
Qed.

(** * Running the system *)

Inductive Event :=
| EClient (g : Z) (op : GetPutAppendArgs)
| ECommand (k : nat)
| EConfig (g : Z)
| EPullRequest (h : Z) (k : nat)
| EPull (k : nat)
| EDeleteRequest (h : Z) (k : nat)
| EDelete (k : nat).

Section exec.
Context (hist : list Config).

(** The controller as the monitors see it. *)
Definition query (k : Z) : Config := default zeroConfig hist.[k].

Definition exec (e : Event) (s : Sys) : option Sys :=
  match e with
  | EClient g op =>
      if decide (g <> 0 /\ (OpType op = "Get" \/ OpType op = "Put" \/ OpType op = "Append")) then
        '(_, G) ← execute g (mkCommand (OpType op) (DOp op)) (grp s g);
        Some (set_grp g G (record g op s))
      else None
  | ECommand k =>
      match msgs s !! k with
      | Some (MCmd g c) =>
          if decide (g <> 0) then
            '(_, G) ← execute g c (grp s g); Some (set_grp g G s)
          else None
      | _ => None
      end
  | EConfig g =>
      if decide (g <> 0) then
        c ← monitorRequestConfig query (grp s g); Some (send [MCmd g c] s)
      else None
  | EPullRequest h k =>
      if decide (h <> 0) then
        calls ← monitorInsert (grp s h);
        '(_, args) ← (calls !! k); Some (send [MPull h (psGid args) args] s)
      else None
  | EPull k =>
      match msgs s !! k with
      | Some (MPull h g args) =>
          if decide (g <> 0) then
            c ← on_pull_reply (psConfigNum args) (GetShards true args (grp s g));
            Some (send [MCmd h c] s)
          else None
      | _ => None
      end
  | EDeleteRequest h k =>
      if decide (h <> 0) then
        calls ← monitor_calls GCing (grp s h);
        '(g, _, ids, n) ← (calls !! k); Some (send [MDelete h g (mkRemoveShardArgs ids n)] s)
      else None
  | EDelete k =>
      match msgs s !! k with
      | Some (MDelete h g args) =>
          if decide (g <> 0) then
            '(rep, G) ← execute g (mkCommand "DeleteShard" (DDelete args)) (grp s g);
            Some (send (match on_delete_reply args (mkRemoveShardReply (crErr rep)) with
                        | Some c => [MCmd h c] | None => [] end) (set_grp g G s))
          else None
      | _ => None
      end
  end.

Fixpoint exec_all (es : list Event) (s : Sys) : option Sys :=
  match es with
  | [] => Some s
  | e :: es => s ← exec e s; exec_all es s
  end.

Context (Hnum : forall i c, hist.[i] = Some c -> Num c = i) (Hinit : hist.[0] = Some zeroConfig).

Lemma query_ok k : hist.[Num (query k)] = Some (query k).
Proof.
  unfold query. destruct (hist.[k]) as [c|] eqn:E; simpl; [|done]. by rewrite (Hnum _ _ E).
Qed.

Lemma exec_step e s s' : exec e s = Some s' -> step hist s s'.
Proof.
  destruct e as [g op|k|g|h k|k|h k|k]; simpl; intros He.
  - case_decide as Hd; [|done].
    destruct (execute g _ (grp s g)) as [[rep G]|] eqn:E; simpl in He; simplify_eq.
    eapply step_client; naive_solver.
  - destruct (msgs s !! k) as [[g c| |]|] eqn:Ek; try done. case_decide; [|done].
    destruct (execute g c (grp s g)) as [[rep G]|] eqn:E; simpl in He; simplify_eq.
    eapply step_command; [done|by eapply list_elem_of_lookup_2|done].
  - case_decide; [|done]. destruct (monitorRequestConfig _ _) as [c|] eqn:E; simpl in He; simplify_eq.
    eapply step_request_config; [done| |done]. apply query_ok.
  - case_decide; [|done]. destruct (monitorInsert (grp s h)) as [calls|] eqn:E; simpl in He; [|done].
    destruct (calls !! k) as [[srv args]|] eqn:Ek; simpl in He; simplify_eq.
    eapply step_request_pull; [done|done|by eapply list_elem_of_lookup_2].
  - destruct (msgs s !! k) as [[|h g args|]|] eqn:Ek; try done. case_decide; [|done].
    destruct (on_pull_reply _ _) as [c|] eqn:E; simpl in He; simplify_eq.
    eapply step_pull; [done|by eapply list_elem_of_lookup_2|done].
  - case_decide; [|done]. destruct (monitor_calls GCing (grp s h)) as [calls|] eqn:E; simpl in He; [|done].
    destruct (calls !! k) as [[[[g srv] ids] n]|] eqn:Ek; simpl in He; simplify_eq.
    eapply step_request_delete; [done|done|by eapply list_elem_of_lookup_2].
  - destruct (msgs s !! k) as [[| |h g args]|] eqn:Ek; try done. case_decide; [|done].
    destruct (execute g _ (grp s g)) as [[rep G]|] eqn:E; simpl in He; simplify_eq.
    eapply step_delete; [done|by eapply list_elem_of_lookup_2|done].
Qed.

Lemma exec_all_steps es s s' : exec_all es s = Some s' -> rtc (step hist) s s'.
Proof.
  revert s. induction es as [|e es IH]; simpl; intros s He; [simplify_eq; constructor|].
  destruct (exec e s) as [s1|] eqn:E; simpl in He; [|done].
  eapply rtc_l; [by eapply exec_step|auto].
Qed.
End exec.
