(* ===== verification/ShardKVWitness.v ===== *)
(** Concrete runs of the sharded store: a migration from group 1 to group 2, and
    a shard that goes through group 0. *)

From S2P Require Import Prelude Gob Persister RaftTypes RaftNode RaftInv RaftCluster RaftSafety RaftServices RaftRuns RaftApi RaftPromise Replica WaitCh.
From S2P Require Import ShardCtrler ShardCtrlerBal ShardCtrlerSpec.
From S2P Require Import ShardKV ShardKVSpec ShardKVCluster ShardKVSys.
Local Open Scope Z_scope.

Definition keys_up (_ : nat) (cnt : counts) : list Z := elements (dom cnt).
Lemma keys_up_iterates : iterates keys_up.
Proof. by intros n cnt. Qed.

Definition join1 : Op := joinOp (mkJoinArgs {[ 1 := ["a"%string] ]} 0 7).
Definition join2 : Op := joinOp (mkJoinArgs {[ 2 := ["b"%string] ]} 1 7).

(** The controller's history: nobody, group 1, groups 1 and 2. *)
Definition history : list Config :=
  configs (default (mkSCState [] ∅) (exec_ops keys_up [join1; join2] (mkSCState [zeroConfig] ∅))).

Example history_owners : map Shards history =
  [[0;0;0;0;0;0;0;0;0;0]; [1;1;1;1;1;1;1;1;1;1]; [2;2;2;2;2;1;1;1;1;1]].
Proof. vm_compute. reflexivity. Qed.

Lemma history_wf : configs_wf history.
Proof.
  destruct (exec_ops_ok keys_up keys_up_iterates [join1; join2] (mkSCState [zeroConfig] ∅) init_configs_wf)
    as (st' & He & Hwf & _).
  - split; [split_and!; intros; by vm_compute|]. intros op1 s1 _.
    split; [split_and!; intros; by vm_compute|]. done.
  - unfold history. by rewrite He.
Qed.

(** Outside the ten shards nobody owns anything. *)
Lemma own_in_range hist n x : configs_wf hist -> own hist n x <> 0 -> in_range x.
Proof.
  intros [_ Hwf]. unfold own, owner. destruct (hist.[n]) as [c|] eqn:E; [|done].
  destruct (Hwf _ _ E) as [_ [Hl _ _]]. destruct ((Shards c).[x]) eqn:Ex; [|done].
  intros _. apply go_index_Some_lt in Ex. unfold in_range. lia.
Qed.

(** A decidable property of the ten shards. *)
Lemma all_shards (P : Z -> bool) x :
  forallb P (seqZ 0 NShards) = true -> in_range x -> P x = true.
Proof.
  rewrite forallb_forall. intros HP Hx. apply HP, list_elem_of_In, elem_of_seqZ.
  unfold in_range in Hx. lia.
Qed.

Lemma history_ok : hist_ok history.
Proof.
  split; [apply history_wf|by vm_compute|].
  intros n x Hn Hlt Ho. pose proof (own_in_range _ _ _ history_wf Ho) as Hx.
  assert (zlen history = 3) as Hl by (by vm_compute).
  assert (n = 0 \/ n = 1) as [-> | ->] by lia.
  - exfalso. apply Ho. apply (proj1 (Z.eqb_eq (own history 0 x) 0)).
    apply (all_shards (fun x => own history 0 x =? 0)); [by vm_compute|done].
  - apply (proj1 (Z.eqb_neq (own history (1 + 1) x) 0)).
    apply (proj1 (negb_true_iff (own history (1 + 1) x =? 0))).
    apply (all_shards (fun x => negb (own history (1 + 1) x =? 0))); [by vm_compute|done].
Qed.

(** Key "d" is in shard 0, which moves from group 1 to group 2. *)
Definition put_d : GetPutAppendArgs := mkGetPutAppendArgs "d" "v" "Put" 0 5 0.
Definition get_d : GetPutAppendArgs := mkGetPutAppendArgs "d" "" "Get" 1 5 0.
Definition put_e : GetPutAppendArgs := mkGetPutAppendArgs "d" "w" "Append" 2 5 0.

(** Both groups take configuration 1, group 1 stores, both take configuration 2. *)
Definition run_config : list Event :=
  [EConfig 1; ECommand 0; EClient 1 put_d; EConfig 2; ECommand 0; EConfig 1; ECommand 0; EConfig 2].
(** Group 2 pulls, installs, has the old copy deleted and finishes. *)
Definition run_migrate : list Event :=
  run_config ++ [ECommand 0; EPullRequest 2 0; EPull 0; ECommand 0;
                 EDeleteRequest 2 0; EDelete 0; ECommand 0].

Definition sys_config : Sys := default sys_init (exec_all history run_config sys_init).
Definition sys_migrated : Sys := default sys_init (exec_all history run_migrate sys_init).

Lemma history_num i c : history.[i] = Some c -> Num c = i.
Proof. intros Hc. by apply (proj2 history_wf). Qed.

Lemma run_reaches es s :
  exec_all history es sys_init = Some s -> rtc (step history) sys_init s.
Proof. apply exec_all_steps; [apply history_num|by vm_compute]. Qed.

Lemma default_run es :
  is_Some (exec_all history es sys_init) ->
  rtc (step history) sys_init (default sys_init (exec_all history es sys_init)).
Proof. intros [s Hs]. rewrite Hs. by apply (run_reaches es). Qed.

Lemma migrated_reached : rtc (step history) sys_init sys_migrated.
Proof. apply (default_run run_migrate). eexists. by vm_compute. Qed.
Lemma config_reached : rtc (step history) sys_init sys_config.
Proof. apply (default_run run_config). eexists. by vm_compute. Qed.

Lemma one_group_serves_witness :
  serves 2 (grp sys_migrated 2) 0 /\ (serves 2 (grp sys_migrated 2) 0 -> 2 = 2).
Proof.
  assert (serves 2 (grp sys_migrated 2) 0) as Hs
    by (split; [by vm_compute|]; left; by vm_compute).
  split; [done|]. intros Hs'.
  apply (one_group_serves history sys_migrated 2 2 0);
    [apply history_ok|apply migrated_reached|done|done|by vm_compute|exact Hs|exact Hs'].
Defined.

Definition get_result : CommonReply * Group :=
  default (mkCommonReply "" "", init_group)
    (execute 2 (mkCommand "Get" (DOp get_d)) (grp sys_migrated 2)).

Lemma sharded_get_reads_truth_witness :
  crValue get_result.1 = "v"%string /\
  crValue get_result.1 = default ""%string (truth sys_migrated 0 !! "d"%string).
Proof.
  split; [by vm_compute|].
  apply (sharded_get_reads_truth history sys_migrated 2 get_d get_result.1 get_result.2);
    [apply history_ok|apply migrated_reached|done|done|by vm_compute|by vm_compute].
Defined.

Lemma effective_once_witness : (5, 2) ∉ applied sys_migrated 0.
Proof.
  apply (effective_once history sys_migrated 2 put_e);
    [apply history_ok|apply migrated_reached|done|].
  split_and!; [split; [by vm_compute|left; by vm_compute]|done|by vm_compute].
Defined.

Definition config2 : Config := default zeroConfig history.[2].
Definition config_result : CommonReply * Group :=
  default (mkCommonReply "" "", init_group)
    (execute 2 (mkCommand "AddConfig" (DConfig config2)) (grp sys_config 2)).

Lemma config_after_migration_witness :
  config_result.2 = grp sys_config 2 \/
  all_serving (grp sys_config 2) /\ currentConfig config_result.2 = config2 /\
  lastConfig config_result.2 = currentConfig (grp sys_config 2).
Proof.
  apply (config_after_migration history sys_config 2 config2 config_result.1 config_result.2);
    [apply history_ok|apply config_reached|done|vm_compute; by left|by vm_compute].
Defined.

(** * A shard that goes through group 0 *)

Definition leave1 : Op := leaveOp (mkLeaveArgs [1] 1 7).
Definition join2' : Op := joinOp (mkJoinArgs {[ 2 := ["b"%string] ]} 2 7).
Definition history0 : list Config :=
  configs (default (mkSCState [] ∅)
    (exec_ops keys_up [join1; leave1; join2'] (mkSCState [zeroConfig] ∅))).

Lemma history0_wf : configs_wf history0.
Proof.
  destruct (exec_ops_ok keys_up keys_up_iterates [join1; leave1; join2'] (mkSCState [zeroConfig] ∅)
    init_configs_wf) as (st' & He & Hwf & _).
  - split; [split_and!; intros; by vm_compute|]. intros op1 s1 _.
    split; [split_and!; intros; by vm_compute|]. intros op2 s2 _.
    split; [split_and!; intros; by vm_compute|]. done.
  - unfold history0. by rewrite He.
Qed.

(** Group 1 takes configuration 1 and stores; group 2 goes through all three. *)
Definition run_zero : list Event :=
  [EConfig 1; ECommand 0; EClient 1 put_d; EConfig 2; ECommand 0; EConfig 2; ECommand 0;
   EConfig 2; ECommand 0].
Definition sys_zero : Sys := default sys_init (exec_all history0 run_zero sys_init).

Lemma zero_reached : rtc (step history0) sys_init sys_zero.
Proof.
  assert (is_Some (exec_all history0 run_zero sys_init)) as [s Hs] by (eexists; by vm_compute).
  unfold sys_zero. rewrite Hs. apply (exec_all_steps history0) with (es := run_zero);
    [|by vm_compute|done].
  intros i c Hc. by apply (proj2 history0_wf).
Qed.

(** C32. The hypothesis that no shard returns to group 0 is needed: in the history
    Join 1, Leave 1, Join 2 the system reaches a state in which groups 1 and 2
    both serve shard 0, and group 2 answers a Get of a stored key with [OK] and
    an empty value. *)
Theorem zero_group_overlaps :
  configs_wf history0 /\ rtc (step history0) sys_init sys_zero /\
  serves 1 (grp sys_zero 1) 0 /\ serves 2 (grp sys_zero 2) 0 /\
  truth sys_zero 0 !! "d"%string = Some "v"%string /\
  fst <$> execute 2 (mkCommand "Get" (DOp get_d)) (grp sys_zero 2) = Some (mkCommonReply OK "").
Proof.
  split; [apply history0_wf|]. split; [apply zero_reached|].
  split; [split; [by vm_compute|left; by vm_compute]|].
  split; [split; [by vm_compute|left; by vm_compute]|]. split; by vm_compute.
Qed.

Lemma group_commands_return_witness :
  exists rep g', execute 1 (mkCommand "Get" (DOp get_d)) init_group = Some (rep, g') /\ group_wf g'.
Proof.
  apply (group_commands_return 1 (mkCommand "Get" (DOp get_d)) init_group).
  - apply (i_wf history sys_init (init_inv history history_ok) 0).
  - by left.
Defined.

(** * A server on a Raft peer *)

#[local] Instance gpa_eq_dec : EqDecision GetPutAppendArgs.
Proof. solve_decision. Defined.
#[local] Instance gpa_countable : Countable GetPutAppendArgs.
Proof.
  apply (inj_countable' (fun a => (Key a, Value a, OpType a, RequestId a, ClientId a, Gid a))
    (fun '(k, v, t, r, c, g) => mkGetPutAppendArgs k v t r c g)). by intros [].
Defined.
#[local] Instance pull_eq_dec : EqDecision PullShardReply.
Proof. solve_decision. Defined.
#[local] Instance pull_countable : Countable PullShardReply.
Proof.
  apply (inj_countable' (fun a => (prErr a, prConfigNum a, prShards a, prLastRequestMap a))
    (fun '(e, n, s, l) => mkPullShardReply e n s l)). by intros [].
Defined.
#[local] Instance remove_eq_dec : EqDecision RemoveShardArgs.
Proof. solve_decision. Defined.
#[local] Instance adjust_eq_dec : EqDecision AdjustShardArgs.
Proof. solve_decision. Defined.
#[local] Instance data_eq_dec : EqDecision CommandData.
Proof. solve_decision. Defined.
#[local] Instance data_countable : Countable CommandData.
Proof.
  apply (inj_countable'
    (fun d => match d with
      | DOp o => inl o | DConfig c => inr (inl c) | DInsert r => inr (inr (inl r))
      | DDelete a => inr (inr (inr (inl (rsShardIds a, rsConfigNum a))))
      | DAdjust a => inr (inr (inr (inr (asShardIds a, asConfigNum a)))) end)
    (fun d => match d with
      | inl o => DOp o | inr (inl c) => DConfig c | inr (inr (inl r)) => DInsert r
      | inr (inr (inr (inl (i, n)))) => DDelete (mkRemoveShardArgs i n)
      | inr (inr (inr (inr (i, n)))) => DAdjust (mkAdjustShardArgs i n) end)).
  by intros [?|?|?|[]|[]].
Defined.
#[local] Instance command_eq_dec : EqDecision Command.
Proof. solve_decision. Defined.
#[local] Instance command_countable : Countable Command.
Proof.
  apply (inj_countable' (fun c => (CommandType c, Data c)) (fun '(t, d) => mkCommand t d)).
  by intros [].
Defined.
#[local] Instance skw_gob `{Countable A} : Gob A := countable_gob.
#[local] Instance skw_gob_laws `{Countable A} : GobLaws A := countable_gob_laws.

Abbreviation Peer := (Raft Command * list (Effect Command))%type.
Definition skv_peer : Peer :=
  (mkRaft 1 MakePersister 0 0 1 0 [zeroEntry] Leader 0 0 [1] [0] 0, []).
(** A server of group 1 in the middle of the migration, and a fresh one. *)
Definition server1 : ShardKV Peer := set_group (grp sys_config 1) (StartServer 0 skv_peer (-1) 1).

Lemma shardkv_snapshot_roundtrip_witness :
  sstate (group server1) 0 = BePulling /\
  group (readPersist (encodeState server1) (StartServer 0 skv_peer (-1) 1)) = group server1.
Proof.
  split; [by vm_compute|].
  apply (shardkv_snapshot_roundtrip server1 (StartServer 0 skv_peer (-1) 1)).
Defined.

(** ** A group on a cluster of three

    Peer 0 is elected; a monitor takes configuration 1 and a handler stores a key, waits
    and is answered.  Every server takes a snapshot after every command.  Peer 1 executes
    the configuration, crashes, and starts from its snapshot; peer 2 has missed both
    commands and is sent a snapshot. *)
Definition w_config : Command := mkCommand "AddConfig" (DConfig (default zeroConfig history.[1])).
Definition w_put : GetPutAppendArgs := mkGetPutAppendArgs "k" "a" "Put" 0 7 1.

Definition skv_member : Service Command (ShardKV (PeerOf Command)) Handler := member 1 0.
Definition skv_script : list (RScene Command Handler) :=
  (RMv <$> elect 0 1 [1]) ++
  [REv (RRequest 0 (mkHandler (QMonitor w_config) PCheck))] ++ phases 0 0 3 ++
  (RMv <$> push 0 1 1 ++ [Do (AApply 0)]) ++ [REv (RApply 0 0)] ++ phases 0 0 3 ++
  [REv (RRequest 0 (mkHandler (QPutAppend w_put) PCheck))] ++ phases 0 1 3 ++
  (RMv <$> push 0 1 1 ++ [Do (AApply 0); Do (AApply 1)]) ++ [REv (RApply 0 0)] ++ phases 0 1 3 ++
  [REv (RApply 1 0); REv (RRestart 1 9000)] ++
  (RMv <$> [Do (AHeartBeat 0 1); Hand Goroutine 0 2 1; Hand InstallReq 0 2 1]) ++ [REv (RApply 2 0)].
Definition skv_world0 : RWorld Command (ShardKV (PeerOf Command)) Handler := rstart 3 skv_member 0.
Definition skv_events : list (REvent Command Handler) := enact skv_member skv_script skv_world0.
Definition skv_world1 : RWorld Command (ShardKV (PeerOf Command)) Handler := default skv_world0 (rrun skv_member skv_events skv_world0).

(** Server 0 has answered, server 1 has started from its snapshot, and server 2 holds
    the key it got with a snapshot. *)
Example skv_answered : (fun v => map h_pc (r_calls v)) <$> r_srvs skv_world1 !! 0 =
  Some [PDone (mkCommonReply OK ""); PDone (mkCommonReply OK "")].
Proof. vm_compute. reflexivity. Qed.
Example skv_recovered : (fun v => (lastIncludedIndex (r_sv v), Num (currentConfig (group (r_sv v))))) <$> r_srvs skv_world1 !! 1 = Some (0, 1).
Proof. vm_compute. reflexivity. Qed.
Example skv_caught_up : (fun v => (lastIncludedIndex (r_sv v), (fun s => ShardKVDB s !! "k"%string) <$> shards (group (r_sv v)) !! 7)) <$>
  r_srvs skv_world1 !! 2 = Some (2, Some (Some "a"%string)).
Proof. vm_compute. reflexivity. Qed.

Lemma skv_builds_ok : Forall builds_ok skv_events.
Proof.
  vm_compute. repeat (apply Forall_cons; split; [first [exact I|done|by right; left]|]). by apply Forall_nil.
Qed.

Lemma group_follows_cluster_witness :
  length skv_events = length skv_script /\
  exists cs, delivered_log (r_raft skv_world1) cs /\
    forall i v, r_srvs skv_world1 !! i = Some v -> exists r p, nodes (r_raft skv_world1) !! i = Some r /\ 0 <= p <= lastApplied r /\
      lastApplied r <= zlen cs /\ (unread i (r_queue v) (r_raft skv_world1) = [] -> p = lastApplied r) /\
      exec_commands 1 (take (Z.to_nat p) cs) start_group = Some (group (r_sv v)) /\ group_wf (group (r_sv v)) /\
      forall k m, sendable (unread i (r_queue v) (r_raft skv_world1)) k = true -> unread i (r_queue v) (r_raft skv_world1) !! k = Some m ->
        (CommandValid m = true -> k = 0%nat) -> exists kv, applier m (set_rf (r, []) (r_sv v)) = Ret kv.
Proof.
  split; [vm_compute; reflexivity|]. apply (group_follows_cluster 3 1 0 0 skv_events skv_world1).
  - apply default_Some. vm_compute. reflexivity.
  - vm_compute. reflexivity.
  - vm_compute. reflexivity.
  - apply skv_builds_ok.
Defined.
