(* ===== verification/KVSrv.v ===== *)
(** The single key/value server of lab 2: [src/src/kvsrv/server.go],
    [client.go] and [common.go].

    The server remembers the answer of every request until the client has
    acknowledged it with [Finish].  The clerk repeats a call until it succeeds; a
    failed call may or may not have been executed. *)

From S2P Require Import Prelude.
Local Open Scope Z_scope.

(** * common.go, server.go *)

Record PutAppendArgs := mkPutAppendArgs { Key : string; Value : string; Id : Z }.
Record PutAppendReply := mkPutAppendReply { rValue : string }.
Record GetArgs := mkGetArgs { gKey : string }.
Record GetReply := mkGetReply { gValue : string }.

Record KVServer := mkKVServer { data : gmap string string; request : gmap Z string }.

Definition Get (args : GetArgs) (kv : KVServer) : GetReply :=
  mkGetReply (default ""%string (data kv !! gKey args)).

Definition Put (args : PutAppendArgs) (kv : KVServer) : PutAppendReply * KVServer :=
  match request kv !! Id args with
  | Some v => (mkPutAppendReply v, kv)
  | None =>
      (mkPutAppendReply (Value args),
       mkKVServer (<[Key args := Value args]> (data kv)) (<[Id args := Value args]> (request kv)))
  end.

Definition Append (args : PutAppendArgs) (kv : KVServer) : PutAppendReply * KVServer :=
  match request kv !! Id args with
  | Some v => (mkPutAppendReply v, kv)
  | None =>
      let oldValue := default ""%string (data kv !! Key args) in
      let request' := <[Id args := oldValue]> (request kv) in
      (mkPutAppendReply (default ""%string (request' !! Id args)),
       mkKVServer (<[Key args := (oldValue +:+ Value args)%string]> (data kv)) request')
  end.

Definition Finish (args : PutAppendArgs) (kv : KVServer) : PutAppendReply * KVServer :=
  (mkPutAppendReply "", mkKVServer (data kv) (delete (Id args) (request kv))).

Definition StartKVServer : KVServer := mkKVServer ∅ ∅.

(** * client.go *)

(** What becomes of one RPC: the request is lost, the reply is lost after the
    server executed it, or the call succeeds. *)
Inductive Outcome := RequestLost | ReplyLost | Delivered.

(** [for !ck.server.Call(...) { }]: the outcomes of the successive calls; [None]
    when none of them succeeds. *)
Fixpoint call_until {A} (handler : KVServer -> A * KVServer) (outcomes : list Outcome)
  (kv : KVServer) : option (A * KVServer) :=
  match outcomes with
  | [] => None
  | RequestLost :: outcomes => call_until handler outcomes kv
  | ReplyLost :: outcomes => call_until handler outcomes (handler kv).2
  | Delivered :: _ => Some (handler kv)
  end.

Definition nrand (rnd : Z) : Z := rnd mod Z.shiftl 1 62.

Definition Clerk_Get (outcomes : list Outcome) (key : string) (kv : KVServer) :
  option (string * KVServer) :=
  '(reply, kv) ← call_until (fun kv => (Get (mkGetArgs key) kv, kv)) outcomes kv;
  Some (gValue reply, kv).

(** [PutAppend]; [id] is the process-wide counter, [op] names the RPC (a call of
    any other name never succeeds). *)
Definition op_handler (op : string) : option (PutAppendArgs -> KVServer -> PutAppendReply * KVServer) :=
  if decide (op = "Put"%string) then Some Put
  else if decide (op = "Append"%string) then Some Append else None.

Definition Clerk_PutAppend (calls finishes : list Outcome) (key value op : string)
  (id : Z) (kv : KVServer) : option (string * Z * KVServer) :=
  let id := wrap64 (id + 1) in
  let args := mkPutAppendArgs key value id in
  h ← op_handler op;
  '(reply, kv) ← call_until (h args) calls kv;
  '(_, kv) ← call_until (Finish args) finishes kv;
  Some (rValue reply, id, kv).

Definition Clerk_Put (calls finishes : list Outcome) (key value : string) (id : Z) (kv : KVServer) :
  option (Z * KVServer) :=
  '(_, id, kv) ← Clerk_PutAppend calls finishes key value "Put" id kv; Some (id, kv).
Definition Clerk_Append (calls finishes : list Outcome) (key value : string) :=
  Clerk_PutAppend calls finishes key value "Append".

(** * Any number of clients *)

(** What the server executes, in order: one event per executed RPC. *)
Inductive Event := EPut (a : PutAppendArgs) | EAppend (a : PutAppendArgs) | EFinish (a : PutAppendArgs).

Definition event_id (e : Event) : Z :=
  match e with EPut a | EAppend a | EFinish a => Id a end.
Definition is_finish (e : Event) : Prop := match e with EFinish _ => True | _ => False end.
#[export] Instance is_finish_dec e : Decision (is_finish e).
Proof. destruct e; apply _. Defined.

Definition exec (e : Event) (kv : KVServer) : PutAppendReply * KVServer :=
  match e with EPut a => Put a kv | EAppend a => Append a kv | EFinish a => Finish a kv end.

Definition run (es : list Event) : KVServer :=
  foldl (fun kv e => (exec e kv).2) StartKVServer es.

(** The effect of a request on the data, and its answer, when it is new. *)
Definition effect_of (d : gmap string string) (e : Event) : gmap string string :=
  match e with
  | EPut a => <[Key a := Value a]> d
  | EAppend a => <[Key a := (default ""%string (d !! Key a) +:+ Value a)%string]> d
  | EFinish _ => d
  end.
Definition answer_of (d : gmap string string) (e : Event) : string :=
  match e with
  | EPut a => Value a
  | EAppend a => default ""%string (d !! Key a)
  | EFinish _ => ""
  end.

(** The requests without the repetitions. *)
Definition first_requests (es : list Event) : list Event :=
  foldl (fun acc e => if decide (is_finish e \/ event_id e ∈ map event_id acc) then acc else acc ++ [e])
    [] es.

(** What the clerks guarantee: a number names one request, and no copy of a
    request is executed after it has been finished. *)
Definition clerk_order (es : list Event) : Prop :=
  forall pre e post, es = pre ++ e :: post -> ~ is_finish e ->
    Forall (fun e' => event_id e' = event_id e -> e' = e) pre.

Lemma srv_clerk_order_snoc es e : clerk_order (es ++ [e]) -> clerk_order es.
Proof.
  intros H pre e' post ->. apply (H pre e' (post ++ [e])). by rewrite <- app_assoc.
Qed.

Lemma run_snoc es e : run (es ++ [e]) = (exec e (run es)).2.
Proof. unfold run. by rewrite foldl_app. Qed.

Lemma srv_first_requests_snoc es e :
  first_requests (es ++ [e]) =
  if decide (is_finish e \/ event_id e ∈ map event_id (first_requests es))
  then first_requests es else first_requests es ++ [e].
Proof. unfold first_requests. by rewrite foldl_app. Qed.

Lemma first_requests_elem es e : e ∈ first_requests es -> e ∈ es /\ ~ is_finish e.
Proof.
  induction es as [|e' es IH] using rev_ind; [by intros ?%not_elem_of_nil|].
  rewrite srv_first_requests_snoc. case_decide as Hd.
  - intros [? ?]%IH. split; [set_solver|done].
  - intros [Hin| ->%list_elem_of_singleton]%elem_of_app; [destruct (IH Hin); set_solver|].
    split; [set_solver|tauto].
Qed.

Lemma first_requests_ids es e : e ∈ es -> ~ is_finish e ->
  event_id e ∈ map event_id (first_requests es).
Proof.
  induction es as [|e' es IH] using rev_ind; [by intros ?%not_elem_of_nil|].
  intros [Hin| ->%list_elem_of_singleton]%elem_of_app Hf; rewrite srv_first_requests_snoc; case_decide as Hd.
  - auto.
  - rewrite map_app. apply elem_of_app. auto.
  - tauto.
  - rewrite map_app. apply elem_of_app. right. simpl. set_solver.
Qed.

(** [v] is the answer of request [id] when it was first executed. *)
Definition first_answer (es : list Event) (id : Z) (v : string) : Prop :=
  exists f1 e f2, first_requests es = f1 ++ e :: f2 /\ event_id e = id /\
    v = answer_of (foldl effect_of ∅ f1) e.
Definition finished (es : list Event) (id : Z) : Prop :=
  Exists (fun e => is_finish e /\ event_id e = id) es.

Record run_inv (es : list Event) : Prop := {
  ri_data : data (run es) = foldl effect_of ∅ (first_requests es);
  ri_some : forall id v, request (run es) !! id = Some v ->
    first_answer es id v /\ ~ finished es id;
  ri_known : forall e, e ∈ es -> ~ is_finish e -> ~ finished es (event_id e) ->
    is_Some (request (run es) !! event_id e)
}.

Lemma finished_snoc es e id :
  finished (es ++ [e]) id <-> finished es id \/ is_finish e /\ event_id e = id.
Proof. unfold finished. rewrite Exists_app, Exists_cons, Exists_nil. tauto. Qed.

Lemma first_answer_snoc es e id v : first_answer es id v -> first_answer (es ++ [e]) id v.
Proof.
  intros (f1 & e' & f2 & Hf & Hid & Hv). unfold first_answer. rewrite srv_first_requests_snoc.
  case_decide; [by exists f1, e', f2|]. exists f1, e', (f2 ++ [e]).
  rewrite Hf. by rewrite <- app_assoc.
Qed.

(** What a request finds before it: only copies of itself. *)
Lemma clerk_order_last es e :
  clerk_order (es ++ [e]) -> ~ is_finish e ->
  ~ finished es (event_id e) /\ (event_id e ∈ map event_id (first_requests es) -> e ∈ es).
Proof.
  intros Hord Hf. pose proof (Hord es e [] eq_refl Hf) as Hall. rewrite Forall_forall in Hall. split.
  - intros (e' & Hin & Hfin & Hid)%Exists_exists. apply Hf. by rewrite <- (Hall e' Hin Hid).
  - intros (e' & Hid & Hin)%list_elem_of_fmap. destruct (first_requests_elem _ _ Hin) as [Hin' _].
    by rewrite <- (Hall e' Hin' (eq_sym Hid)).
Qed.

(** A request executed for the first time, and one executed again. *)
Lemma exec_new e kv :
  ~ is_finish e -> request kv !! event_id e = None ->
  exec e kv = (mkPutAppendReply (answer_of (data kv) e),
               mkKVServer (effect_of (data kv) e)
                 (<[event_id e := answer_of (data kv) e]> (request kv))).
Proof.
  intros Hf Hr. destruct e as [a|a|a]; simpl in *; [..|by destruct Hf];
    unfold Put, Append; rewrite Hr; [done|]. by rewrite lookup_insert_eq.
Qed.

Lemma exec_known e kv v :
  ~ is_finish e -> request kv !! event_id e = Some v -> exec e kv = (mkPutAppendReply v, kv).
Proof.
  intros Hf Hr. destruct e as [a|a|a]; simpl in *; [..|by destruct Hf];
    unfold Put, Append; by rewrite Hr.
Qed.

Lemma run_inv_snoc es e : clerk_order (es ++ [e]) -> run_inv es -> run_inv (es ++ [e]).
Proof.
  intros Hord [Hd Hs Hk]. destruct (decide (is_finish e)) as [Hf|Hf].
  - destruct e as [a|a|a]; [done|done|]. split; rewrite ?run_snoc; simpl.
    + by rewrite srv_first_requests_snoc, decide_True by (by left).
    + intros id v [Hne Hr]%lookup_delete_Some. destruct (Hs _ _ Hr) as [Ha Hnf].
      split; [by apply first_answer_snoc|]. rewrite finished_snoc. simpl. naive_solver.
    + intros e [Hin| ->%list_elem_of_singleton]%elem_of_app Hfe; [|done].
      rewrite finished_snoc. simpl. intros Hn. rewrite lookup_delete_ne by tauto. apply Hk; tauto.
  - destruct (clerk_order_last es e Hord Hf) as [Hnf Hdup].
    assert (Hfin : forall id, finished (es ++ [e]) id <-> finished es id)
      by (intros id; rewrite finished_snoc; tauto).
    destruct (request (run es) !! event_id e) as [v|] eqn:Er.
    + assert (Hin : event_id e ∈ map event_id (first_requests es)).
      { destruct (Hs _ _ Er) as [(f1 & e' & f2 & Hfr & <- & _) _]. rewrite Hfr, map_app. set_solver. }
      split; rewrite ?run_snoc, ?(exec_known _ _ _ Hf Er); simpl.
      * by rewrite srv_first_requests_snoc, decide_True by (by right).
      * intros id v' Hr. rewrite Hfin. destruct (Hs _ _ Hr). split; [by apply first_answer_snoc|done].
      * intros e' [Hin'| ->%list_elem_of_singleton]%elem_of_app Hfe; rewrite Hfin; [by apply Hk|].
        intros _. by eexists.
    + assert (Hnew : event_id e ∉ map event_id (first_requests es)).
      { intros Hin. apply Hdup in Hin. destruct (Hk e Hin Hf Hnf) as [v Hv]. congruence. }
      assert (Hfr : first_requests (es ++ [e]) = first_requests es ++ [e])
        by (rewrite srv_first_requests_snoc, decide_False; tauto).
      split; rewrite ?run_snoc, ?(exec_new _ _ Hf Er); simpl.
      * by rewrite Hfr, foldl_app, <- Hd.
      * intros id v. rewrite Hfin. intros [[<- <-]|[Hne Hr]]%lookup_insert_Some.
        -- split; [|done]. exists (first_requests es), e, []. by rewrite Hfr, <- Hd.
        -- destruct (Hs _ _ Hr). split; [by apply first_answer_snoc|done].
      * intros e' [Hin| ->%list_elem_of_singleton]%elem_of_app Hfe; rewrite Hfin; intros Hn.
        -- destruct (decide (event_id e' = event_id e)) as [->|];
             [rewrite lookup_insert_eq; by eexists|]. rewrite lookup_insert_ne by done. by apply Hk.
        -- rewrite lookup_insert_eq. by eexists.
Qed.

Lemma run_inv_all es : clerk_order es -> run_inv es.
Proof.
  induction es as [|e es IH] using rev_ind; intros Hord.
  - split; [done|done|]. by intros e ?%not_elem_of_nil.
  - apply run_inv_snoc; [done|]. by eapply IH, srv_clerk_order_snoc.
Qed.

(** Exactly once with acknowledgements: in any interleaving of the requests,
    retries and acknowledgements of any number of clerks, every request takes
    effect once, at its first execution; every execution of it is answered with
    the answer of the first; and the server remembers only requests that were
    not acknowledged. *)
Theorem kvsrv_exactly_once es e :
  clerk_order (es ++ [e]) -> ~ is_finish e ->
  data (run (es ++ [e])) = foldl effect_of ∅ (first_requests (es ++ [e])) /\
  first_answer (es ++ [e]) (event_id e) (rValue (exec e (run es)).1) /\
  (forall id, is_Some (request (run (es ++ [e])) !! id) -> ~ finished (es ++ [e]) id).
Proof.
  intros Hord Hf. pose proof (run_inv_all _ Hord) as [Hd Hs Hk].
  split; [done|]. split; [|by intros id [v Hv]; apply (Hs id v)].
  destruct (Hk e) as [v Hv]; [set_solver|done| |].
  - rewrite finished_snoc. destruct (clerk_order_last es e Hord Hf). tauto.
  - destruct (Hs _ _ Hv) as [Ha _]. rewrite run_snoc in Hv.
    destruct (request (run es) !! event_id e) as [v'|] eqn:Er.
    + rewrite (exec_known _ _ _ Hf Er) in *. simpl in *. congruence.
    + rewrite (exec_new _ _ Hf Er) in *. simpl in *. rewrite lookup_insert_eq in Hv. congruence.
Qed.

(** * The clerk *)

(** Repeating a call that remembers its answer is the same as one call. *)
Lemma call_until_idempotent {A} (h : KVServer -> A * KVServer) os kv r :
  (forall kv, h (h kv).2 = h kv) -> call_until h os kv = Some r -> r = h kv.
Proof.
  intros Hid. revert kv. induction os as [|[| |] os IH]; simpl; intros kv Hc; [done|auto| |congruence].
  rewrite (IH _ Hc). apply Hid.
Qed.

Lemma call_until_delivered {A} (h : KVServer -> A * KVServer) os kv :
  Delivered ∈ os -> is_Some (call_until h os kv).
Proof.
  revert kv. induction os as [|[| |] os IH]; simpl; intros kv Hin; [by apply not_elem_of_nil in Hin| | |by eexists];
    apply IH; set_solver.
Qed.

Lemma Put_twice a kv : Put a (Put a kv).2 = Put a kv.
Proof.
  unfold Put at 2 3. destruct (request kv !! Id a) as [v|] eqn:E; simpl; unfold Put; rewrite ?E; [done|].
  simpl. by rewrite lookup_insert_eq.
Qed.
Lemma Append_twice a kv : Append a (Append a kv).2 = Append a kv.
Proof.
  unfold Append at 2 3. destruct (request kv !! Id a) as [v|] eqn:E; simpl; unfold Append; rewrite ?E; [done|].
  simpl. by rewrite !lookup_insert_eq.
Qed.
Lemma Finish_twice a kv : Finish a (Finish a kv).2 = Finish a kv.
Proof. unfold Finish. simpl. by rewrite delete_delete_eq. Qed.

(** An Append call returns and has appended once: whatever requests and
    replies are lost before a call and an acknowledgement succeed, the clerk
    returns the old value of the key, the value has been appended exactly once,
    and the server has forgotten the request. *)
Theorem kvsrv_append_once calls finishes key value id kv :
  Delivered ∈ calls -> Delivered ∈ finishes -> request kv !! wrap64 (id + 1) = None ->
  let old := default ""%string (data kv !! key) in
  Clerk_Append calls finishes key value id kv =
    Some (old, wrap64 (id + 1),
          mkKVServer (<[key := (old +:+ value)%string]> (data kv)) (request kv)).
Proof.
  intros Hc Hf Hn. unfold Clerk_Append, Clerk_PutAppend. simpl.
  set (args := mkPutAppendArgs key value (wrap64 (id + 1))).
  destruct (call_until_delivered (Append args) calls kv Hc) as [r1 H1]. rewrite H1.
  pose proof (call_until_idempotent _ _ _ _ (Append_twice args) H1) as ->.
  assert (Append args kv = (mkPutAppendReply (default ""%string (data kv !! key)),
    mkKVServer (<[key := (default ""%string (data kv !! key) +:+ value)%string]> (data kv))
      (<[wrap64 (id + 1) := default ""%string (data kv !! key)]> (request kv)))) as ->.
  { unfold Append. simpl. rewrite Hn. by rewrite lookup_insert_eq. }
  simpl. set (kv1 := mkKVServer _ _).
  destruct (call_until_delivered (Finish args) finishes kv1 Hf) as [r2 H2]. rewrite H2.
  pose proof (call_until_idempotent _ _ _ _ (Finish_twice args) H2) as ->. simpl.
  rewrite delete_insert_id by done. done.
Qed.

(** * Runs *)

Definition a1 : PutAppendArgs := mkPutAppendArgs "k" "x" 1.
Definition a2 : PutAppendArgs := mkPutAppendArgs "k" "y" 2.
(** Request 1 is executed twice, acknowledged; request 2 is repeated. *)
Definition events : list Event := [EAppend a1; EPut a2; EAppend a1; EFinish a1].

Lemma events_order : clerk_order (events ++ [EPut a2]).
Proof.
  intros pre e post Heq Hf. unfold events in Heq.
  destruct pre as [|p1 [|p2 [|p3 [|p4 [|p5 pre]]]]]; simplify_eq/=;
    [..|by destruct pre]; rewrite ?Forall_cons; simpl; split_and?; try apply Forall_nil_2; try done.
Qed.

Lemma kvsrv_exactly_once_witness :
  data (run (events ++ [EPut a2])) = foldl effect_of ∅ (first_requests (events ++ [EPut a2])) /\
  first_answer (events ++ [EPut a2]) 2 (rValue (exec (EPut a2) (run events)).1) /\
  (forall id, is_Some (request (run (events ++ [EPut a2])) !! id) -> ~ finished (events ++ [EPut a2]) id).
Proof. apply (kvsrv_exactly_once events (EPut a2)); [apply events_order|by intros []]. Defined.

Lemma kvsrv_append_once_witness :
  Clerk_Append [ReplyLost; RequestLost; ReplyLost; Delivered] [ReplyLost; Delivered] "k" "z" 4
    (run events) =
  Some ("y"%string, 5, mkKVServer {[ "k"%string := "yz"%string ]} (request (run events))).
Proof.
  apply (kvsrv_append_once [ReplyLost; RequestLost; ReplyLost; Delivered] [ReplyLost; Delivered]
           "k" "z" 4 (run events)); [set_solver|set_solver|by vm_compute].
Defined.
