(* ===== verification/MapReduce.v ===== *)
(** MapReduce: [src/src/mr/coordinator.go], [worker.go] and [rpc.go].

    [Master] is the coordinator; its RPC handlers run under its mutex, the
    timers that hand a task out again are separate steps.  The worker is the
    two tasks it executes on the shared files: the intermediate file [mr-X-Y] is
    the entry [(X, Y)] of a finite map and holds one entry per JSON line, the
    pair that was encoded; [json] is what decoding that line gives (Go's encoder
    replaces invalid UTF-8, so it is the identity on valid strings only).  The
    output file [mr-out-Y] is a list of lines.  [mapf] and [reducef] are the
    application, [sort_by_key] is [sort.Sort(ByKey(...))], which is not stable:
    only its specification is used.  The renames that publish a temporary file
    succeed.  [None] is a run-time panic or a [log.Fatalf]. *)

From Stdlib Require Import String.
From S2P Require Import Prelude.
Local Open Scope Z_scope.

(** * rpc.go *)

Record WorkerArgs := mkWorkerArgs { aMapTaskNumber : Z; aReduceTaskNumber : Z }.
Record WorkerReply := mkWorkerReply {
  Tasktype : Z; NMap : Z; NReduce : Z; MapTaskNumber : Z; Filename : string; ReduceTaskNumber : Z }.

Definition zero_reply : WorkerReply := mkWorkerReply 0 0 0 0 "" 0.

(** * coordinator.go *)

Record Master := mkMaster {
  nReduce : Z;
  nMap : Z;
  files : list string;
  mapfinished : Z;
  maptasklog : list Z;
  reducefinished : Z;
  reducetasklog : list Z
}.

Definition set_map (finished : Z) (log : list Z) (m : Master) : Master :=
  mkMaster (nReduce m) (nMap m) (files m) finished log (reducefinished m) (reducetasklog m).
Definition set_reduce (finished : Z) (log : list Z) (m : Master) : Master :=
  mkMaster (nReduce m) (nMap m) (files m) (mapfinished m) (maptasklog m) finished log.

Definition ReceiveFinishedMap (args : WorkerArgs) (m : Master) : option Master :=
  log ← go_store (maptasklog m) (aMapTaskNumber args) 2;
  Some (set_map (mapfinished m + 1) log m).

Definition ReceiveFinishedReduce (args : WorkerArgs) (m : Master) : option Master :=
  log ← go_store (reducetasklog m) (aReduceTaskNumber args) 2;
  Some (set_reduce (reducefinished m + 1) log m).

(** [for i := 0; i < n; i++ { if log[i] == 0 { allocate = i; break } }] from
    index [i], [fuel] indices left; -1 when none is idle. *)
Fixpoint find_idle (fuel : nat) (i : Z) (log : list Z) : option Z :=
  match fuel with
  | O => Some (-1)
  | S fuel =>
      t ← log.[i];
      if decide (t = 0) then Some i else find_idle fuel (i + 1) log
  end.

Definition AllocateTask (m : Master) : option (WorkerReply * Master) :=
  if decide (mapfinished m < nMap m) then
    allocate ← find_idle (Z.to_nat (nMap m)) 0 (maptasklog m);
    if decide (allocate = -1) then Some (mkWorkerReply 2 0 0 0 "" 0, m) else
    filename ← (files m).[allocate];
    log ← go_store (maptasklog m) allocate 1;
    Some (mkWorkerReply 0 0 (nReduce m) allocate filename 0, set_map (mapfinished m) log m)
  else if decide (mapfinished m = nMap m /\ reducefinished m < nReduce m) then
    allocate ← find_idle (Z.to_nat (nReduce m)) 0 (reducetasklog m);
    if decide (allocate = -1) then Some (mkWorkerReply 2 0 0 0 "" 0, m) else
    log ← go_store (reducetasklog m) allocate 1;
    Some (mkWorkerReply 1 (nMap m) 0 0 "" allocate, set_reduce (reducefinished m) log m)
  else Some (mkWorkerReply 3 0 0 0 "" 0, m).

(** The goroutines that wait ten seconds after an allocation. *)
Definition map_timeout (allocate : Z) (m : Master) : option Master :=
  t ← (maptasklog m).[allocate];
  if decide (t = 1) then
    log ← go_store (maptasklog m) allocate 0; Some (set_map (mapfinished m) log m)
  else Some m.
Definition reduce_timeout (allocate : Z) (m : Master) : option Master :=
  t ← (reducetasklog m).[allocate];
  if decide (t = 1) then
    log ← go_store (reducetasklog m) allocate 0; Some (set_reduce (reducefinished m) log m)
  else Some m.

Definition Done (m : Master) : bool := bool_decide (reducefinished m = nReduce m).

Definition MakeMaster (fs : list string) (nred : Z) : option Master :=
  maplog ← go_make (zlen fs) 0;
  redlog ← go_make nred 0;
  Some (mkMaster nred (zlen fs) fs 0 maplog 0 redlog).

(** * worker.go *)

Record KeyValue := mkKeyValue { Key : string; Value : string }.

(** [ByKey.Less], the bytewise order of strings. *)
Definition Less (a b : KeyValue) : bool := String.ltb (Key a) (Key b).

(** [ihash]: 32-bit FNV-1a, reduced to 31 bits. *)
Definition fnv32_step (h : Z) (b : Ascii.ascii) : Z :=
  (Z.lxor h (Z.of_N (Ascii.N_of_ascii b)) * 16777619) mod 2 ^ 32.
Definition fnv32a (key : string) : Z := foldl fnv32_step 2166136261 (String.list_ascii_of_string key).
Definition ihash (key : string) : Z := Z.land (fnv32a key) 2147483647.

(** [buckets[ihash(kva.Key)%NReduce] = append(..., kva)] *)
Definition add_bucket (nred : Z) (buckets : list (list KeyValue)) (kva : KeyValue) :
  option (list (list KeyValue)) :=
  if decide (nred = 0) then None else
  let b := Z.rem (ihash (Key kva)) nred in
  old ← buckets.[b];
  go_store buckets b (old ++ [kva]).

Fixpoint add_buckets (nred : Z) (kvas : list KeyValue) (buckets : list (list KeyValue)) :
  option (list (list KeyValue)) :=
  match kvas with
  | [] => Some buckets
  | kva :: kvas => b ← add_bucket nred buckets kva; add_buckets nred kvas b
  end.

Abbreviation Files := (gmap (Z * Z) (list KeyValue)).

Section worker.
Context (mapf : string -> string -> list KeyValue) (reducef : string -> list string -> string).
Context (sort_by_key : list KeyValue -> list KeyValue) (json : KeyValue -> KeyValue).

(** The map task: bucket the pairs, write [mr-X-0 ... mr-X-(NReduce-1)]. *)
Definition map_task (reply : WorkerReply) (content : string) (fs : Files) : option Files :=
  let intermediate := mapf (Filename reply) content in
  buckets ← go_make (NReduce reply) [];
  buckets ← add_buckets (NReduce reply) intermediate buckets;
  Some (foldl (fun fs '(i, b) => <[(MapTaskNumber reply, i) := b]> fs) fs
          (zip (seqZ 0 (zlen buckets)) buckets)).

(** [for i := 0; i < reply.NMap; i++]: read [mr-i-Y]; a missing file is fatal. *)
Fixpoint collect (idx : list Z) (r : Z) (fs : Files) : option (list KeyValue) :=
  match idx with
  | [] => Some []
  | i :: idx => kvs ← fs !! (i, r); rest ← collect idx r fs; Some (map json kvs ++ rest)
  end.

(** The grouping loop: [j] runs to the end of the run of equal keys, [reducef]
    is called on the values of the run.  [fuel] is [len(intermediate)]. *)
Fixpoint run_length (key : string) (kvs : list KeyValue) : nat :=
  match kvs with
  | [] => 0
  | kv :: kvs => if decide (Key kv = key) then S (run_length key kvs) else 0
  end.

Fixpoint group_loop (fuel : nat) (kvs : list KeyValue) : list (string * string) :=
  match fuel, kvs with
  | S fuel, kv :: rest =>
      let j := S (run_length (Key kv) rest) in
      let values := map Value (take j kvs) in
      (Key kv, reducef (Key kv) values) :: group_loop fuel (drop j kvs)
  | _, _ => []
  end.

(** [os.Remove] of every [mr-i-Y]; a missing file is fatal. *)
Fixpoint remove_files (idx : list Z) (r : Z) (fs : Files) : option Files :=
  match idx with
  | [] => Some fs
  | i :: idx => _ ← fs !! (i, r); remove_files idx r (delete (i, r) fs)
  end.

(** The reduce task: the lines of [mr-out-Y] and the remaining files. *)
Definition reduce_task (reply : WorkerReply) (fs : Files) : option (list (string * string) * Files) :=
  let idx := seqZ 0 (NMap reply) in
  intermediate ← collect idx (ReduceTaskNumber reply) fs;
  let intermediate := sort_by_key intermediate in
  let out := group_loop (length intermediate) intermediate in
  fs ← remove_files idx (ReduceTaskNumber reply) fs;
  Some (out, fs).

(** [call]: a dial that fails leaves a nil client, on which [c.Call] and
    [c.Close] panic; otherwise the reply, or [None] for an error. *)
Definition call (dialled : bool) (reply : option WorkerReply) : option (option WorkerReply) :=
  if dialled then Some reply else None.

(** What the worker does with the answer to [AllocateTask]. *)
Inductive WorkerStep :=
| WBreak
| WMap (fs : Files) (report : WorkerArgs)
| WReduce (out : list (string * string)) (fs : Files) (report : WorkerArgs)
| WSleep.

Definition Worker (dialled : bool) (reply : option WorkerReply)
  (read : string -> option string) (fs : Files) : option WorkerStep :=
  answer ← call dialled reply;
  match answer with
  | None => Some WBreak
  | Some reply =>
      if decide (Tasktype reply = 3) then Some WBreak
      else if decide (Tasktype reply = 0) then
        content ← read (Filename reply);
        fs ← map_task reply content fs;
        Some (WMap fs (mkWorkerArgs (MapTaskNumber reply) (-1)))
      else if decide (Tasktype reply = 1) then
        '(out, fs) ← reduce_task reply fs;
        Some (WReduce out fs (mkWorkerArgs (-1) (ReduceTaskNumber reply)))
      else Some WSleep
  end.
End worker.
