(* ===== verification/MapReduceSpec.v ===== *)
(** MapReduce: what a task computes, and what a finished job has computed.

    The first part is about one worker: the buckets of a map task, the grouping
    loop of a reduce task, and the output of a reduce task whose inputs are the
    buckets of every map task.  The second part is the whole job: the master,
    the files, and the tasks held by workers, as a step relation in which
    workers may crash at any time. *)

From Stdlib Require Import String.
From S2P Require Import Prelude MapReduce.
Local Open Scope Z_scope.

(** * Buckets *)

Definition in_bucket (nred r : Z) (kv : KeyValue) : Prop := Z.rem (ihash (Key kv)) nred = r.
#[export] Instance in_bucket_dec nred r kv : Decision (in_bucket nred r kv).
Proof. unfold in_bucket. apply _. Defined.

Lemma ihash_nonneg k : 0 <= ihash k.
Proof. unfold ihash. apply Z.land_nonneg. right. lia. Qed.

Lemma bucket_range nred kv : 0 < nred -> 0 <= Z.rem (ihash (Key kv)) nred < nred.
Proof. intros. apply Z.rem_bound_pos; [apply ihash_nonneg|done]. Qed.

Lemma add_bucket_spec nred bs kv :
  0 < nred -> zlen bs = nred ->
  exists bs', add_bucket nred bs kv = Some bs' /\ zlen bs' = nred /\
    forall r b, bs.[r] = Some b -> bs'.[r] = Some (b ++ filter (in_bucket nred r) [kv]).
Proof.
  intros Hn Hlen. pose proof (bucket_range nred kv Hn) as Hr.
  unfold add_bucket. rewrite decide_False by lia.
  destruct (go_index_is_Some bs (Z.rem (ihash (Key kv)) nred)) as [old Hold]; [lia|].
  rewrite Hold. simpl. rewrite go_store_Some by lia. eexists. split; [done|].
  split; [by rewrite zlen_insert|]. intros r b Hb.
  rewrite go_index_insert by lia. rewrite filter_cons, filter_nil. case_decide as Hd.
  - subst r. rewrite Hold in Hb. injection Hb as ->. by rewrite decide_True.
  - rewrite decide_False by (unfold in_bucket; congruence). by rewrite app_nil_r.
Qed.

Lemma add_buckets_spec nred kvs : forall bs,
  0 < nred -> zlen bs = nred ->
  exists bs', add_buckets nred kvs bs = Some bs' /\ zlen bs' = nred /\
    forall r b, bs.[r] = Some b -> bs'.[r] = Some (b ++ filter (in_bucket nred r) kvs).
Proof.
  induction kvs as [|kv kvs IH]; intros bs Hn Hlen.
  - exists bs. split_and!; [done|done|]. intros r b Hb. by rewrite filter_nil, app_nil_r.
  - destruct (add_bucket_spec nred bs kv Hn Hlen) as (bs1 & E1 & L1 & H1).
    destruct (IH bs1 Hn L1) as (bs2 & E2 & L2 & H2).
    exists bs2. split_and!; [by simpl; rewrite E1|done|]. intros r b Hb.
    rewrite (H2 r _ (H1 r b Hb)), <- app_assoc, <- filter_app. done.
Qed.

(** Writing the buckets of map task [t]. *)
Lemma write_buckets {B} (t : Z) (l : list (Z * B)) : forall (fs : gmap (Z * Z) B),
  NoDup l.*1 ->
  (forall i b, (i, b) ∈ l -> foldl (fun fs '(i, b) => <[(t, i) := b]> fs) fs l !! (t, i) = Some b) /\
  (forall x i, x <> t \/ i ∉ l.*1 ->
     foldl (fun fs '(i, b) => <[(t, i) := b]> fs) fs l !! (x, i) = fs !! (x, i)).
Proof.
  induction l as [|[j c] l IH]; intros fs Hnd; simpl; [split; [set_solver|done]|].
  apply NoDup_cons in Hnd as [Hj Hnd]. destruct (IH (<[(t, j) := c]> fs) Hnd) as [IH1 IH2].
  split.
  - intros i b [[= -> ->]|Hin]%elem_of_cons; [|by apply IH1].
    rewrite IH2 by (by right). apply lookup_insert_eq.
  - intros x i Hx. simpl in Hx. rewrite IH2 by set_solver.
    apply lookup_insert_ne. intros [= -> ->]. set_solver.
Qed.

Lemma zip_seqZ_elem {B} (l : list B) i b :
  (i, b) ∈ zip (seqZ 0 (zlen l)) l <-> l.[i] = Some b.
Proof.
  rewrite list_elem_of_lookup. split.
  - intros [k (Hk & Hb)%lookup_zip_Some]. apply lookup_seqZ in Hk as [-> Hk].
    rewrite Z.add_0_l. by rewrite go_index_of_nat.
  - intros Hi. pose proof (go_index_Some_lt _ _ _ Hi) as Hr. exists (Z.to_nat i).
    apply lookup_zip_Some. rewrite go_index_lookup in Hi by lia. split; [|done].
    apply lookup_seqZ. lia.
Qed.

Section worker_spec.
Context (mapf : string -> string -> list KeyValue) (reducef : string -> list string -> string).
Context (sort_by_key : list KeyValue -> list KeyValue) (json : KeyValue -> KeyValue).

(** A map task writes one file per reduce task: the pairs [mapf] emits that
    hash to it, in order; it touches no file of another map task. *)
Lemma map_task_spec reply content fs :
  0 <= NReduce reply -> (NReduce reply = 0 -> mapf (Filename reply) content = []) ->
  exists fs', map_task mapf reply content fs = Some fs' /\
    (forall r, 0 <= r < NReduce reply -> fs' !! (MapTaskNumber reply, r) =
       Some (filter (in_bucket (NReduce reply) r) (mapf (Filename reply) content))) /\
    (forall x r, x <> MapTaskNumber reply -> fs' !! (x, r) = fs !! (x, r)).
Proof.
  intros Hn H0. unfold map_task, go_make. rewrite decide_True by done. simpl.
  set (bs0 := replicate (Z.to_nat (NReduce reply)) []).
  assert (zlen bs0 = NReduce reply) as L0 by (unfold zlen, bs0; rewrite length_replicate; lia).
  assert (exists bs, add_buckets (NReduce reply) (mapf (Filename reply) content) bs0 = Some bs /\
    zlen bs = NReduce reply /\ forall r, 0 <= r < NReduce reply ->
      bs.[r] = Some (filter (in_bucket (NReduce reply) r) (mapf (Filename reply) content)))
    as (bs & -> & Lb & Hb).
  { destruct (decide (NReduce reply = 0)) as [E|E].
    - exists bs0. rewrite (H0 E). split_and!; [done|done|lia].
    - destruct (add_buckets_spec (NReduce reply) (mapf (Filename reply) content) bs0) as
        (bs & Eb & Lb & Hb); [lia|done|]. exists bs. split_and!; [done|done|].
      intros r Hr. rewrite (Hb r []); [done|].
      rewrite go_index_lookup by lia. apply lookup_replicate_2. lia. }
  simpl. eexists. split; [done|].
  destruct (write_buckets (MapTaskNumber reply) (zip (seqZ 0 (zlen bs)) bs) fs) as [W1 W2].
  { rewrite fst_zip; [apply NoDup_seqZ|]. rewrite length_seqZ. unfold zlen. lia. }
  split; [|intros x r Hx; apply W2; by left].
  intros r Hr. apply W1, zip_seqZ_elem. by apply Hb.
Qed.

Lemma map_task_Some reply content fs fs' :
  map_task mapf reply content fs = Some fs' ->
  0 <= NReduce reply /\ (NReduce reply = 0 -> mapf (Filename reply) content = []).
Proof.
  unfold map_task, go_make. case_decide; [|done]. simpl. intros H1. split; [done|].
  intros E. destruct (mapf _ _) as [|kv kvs]; [done|]. exfalso.
  simpl in H1. unfold add_bucket in H1. by rewrite E in H1.
Qed.

(** * The grouping loop *)

Definition key_le (a b : KeyValue) : Prop := Less b a = false.

Lemma key_le_antisym a b : key_le a b -> key_le b a -> Key a = Key b.
Proof.
  unfold key_le, Less, String.ltb. rewrite (String.compare_antisym (Key b) (Key a)).
  intros H1 H2. apply String.compare_eq_iff.
  destruct (Key a ?= Key b)%string; simpl in *; done.
Qed.

Lemma run_split key kvs :
  kvs = take (run_length key kvs) kvs ++ drop (run_length key kvs) kvs /\
  Forall (fun kv => Key kv = key) (take (run_length key kvs) kvs) /\
  (forall kv, head (drop (run_length key kvs) kvs) = Some kv -> Key kv <> key).
Proof.
  split; [by rewrite take_drop|].
  induction kvs as [|kv kvs [IH1 IH2]]; simpl; [done|]. case_decide; simpl; [by auto|].
  split; [done|]. by intros ? [= <-].
Qed.

(** In sorted data the key of a run does not come back after it. *)
Lemma run_complete key kv kvs :
  StronglySorted key_le (kv :: kvs) -> Key kv = key ->
  Forall (fun x => Key x <> key) (drop (run_length key kvs) kvs).
Proof.
  intros [Hs Hall]%StronglySorted_inv Hk. destruct (run_split key kvs) as (E & _ & Hh).
  rewrite E in Hs, Hall. apply Forall_app in Hall as [_ Hall].
  destruct (drop _ kvs) as [|y tl] eqn:Ed; [done|]. specialize (Hh y eq_refl).
  apply StronglySorted_app_1_r in Hs. apply StronglySorted_inv in Hs as [_ Hy].
  constructor; [done|]. apply Forall_forall. intros x Hx Ex. apply Hh.
  rewrite <- Ex. apply key_le_antisym; [by apply (Forall_forall (key_le y) tl)|].
  assert (key_le kv y) as Hkv by (apply (Forall_forall (key_le kv) (y :: tl)); [done|left]).
  unfold key_le, Less in *. by rewrite Ex, <- Hk.
Qed.

Definition with_key (k : string) (kvs : list KeyValue) : list KeyValue :=
  filter (fun kv => Key kv = k) kvs.

(** What the lines of one output file say of the pairs they come from. *)
Record grouped (kvs : list KeyValue) (out : list (string * string)) : Prop := {
  g_nodup : NoDup out.*1;
  g_lines : forall k o, (k, o) ∈ out -> exists kv, kv ∈ kvs /\ Key kv = k /\
              o = reducef k (map Value (with_key k kvs));
  g_all : forall kv, kv ∈ kvs -> Key kv ∈ out.*1
}.

Lemma with_key_all k kvs : Forall (fun kv => Key kv = k) kvs -> with_key k kvs = kvs.
Proof.
  induction 1 as [|kv kvs Hk Hall IH]; [done|]. unfold with_key in *.
  rewrite filter_cons, decide_True by done. by rewrite IH.
Qed.

Lemma with_key_none k kvs : Forall (fun kv => Key kv <> k) kvs -> with_key k kvs = [].
Proof.
  induction 1 as [|kv kvs Hk Hall IH]; [done|]. unfold with_key in *.
  by rewrite filter_cons, decide_False by done.
Qed.

Lemma grouped_run k run tl out :
  run <> [] -> Forall (fun kv => Key kv = k) run -> Forall (fun kv => Key kv <> k) tl ->
  grouped tl out -> grouped (run ++ tl) ((k, reducef k (map Value run)) :: out).
Proof.
  intros Hne Hrun Htl [Hnd Hl Ha]. unfold with_key in *.
  assert (with_key k (run ++ tl) = run) as Ek.
  { unfold with_key. rewrite filter_app. fold (with_key k run) (with_key k tl).
    by rewrite with_key_all, with_key_none, app_nil_r. }
  rewrite Forall_forall in Hrun, Htl. split.
  - simpl. apply NoDup_cons. split; [|done]. intros ([k' o] & Hk & Ho)%list_elem_of_fmap.
    simpl in Hk. subst k'. destruct (Hl k o Ho) as (kv & Hkv & Hk & _). by apply (Htl kv).
  - intros k' o [[= -> ->]|Ho]%elem_of_cons.
    + destruct run as [|kv run]; [done|]. exists kv.
      split_and!; [by left|apply Hrun; by left|by rewrite Ek].
    + destruct (Hl k' o Ho) as (kv & Hkv & Hk & ->). exists kv.
      split_and!; [by apply elem_of_app; right|done|]. do 2 f_equal. unfold with_key.
      rewrite filter_app. fold (with_key k' run). rewrite with_key_none; [done|].
      apply Forall_forall. intros x Hx. rewrite (Hrun x Hx). intros ->. by apply (Htl kv).
  - intros kv [Hkv|Hkv]%elem_of_app; simpl; apply elem_of_cons; [left|right]; auto.
Qed.

(** Enough fuel is the number of pairs: every turn consumes at least one. *)
Lemma group_loop_spec fuel : forall kvs,
  (length kvs <= fuel)%nat -> StronglySorted key_le kvs ->
  grouped kvs (group_loop reducef fuel kvs).
Proof.
  induction fuel as [|fuel IH]; intros kvs Hlen Hs.
  { destruct kvs; simpl in *; [|lia]. split; [constructor|set_solver|set_solver]. }
  destruct kvs as [|kv rest]; [split; [constructor|set_solver|set_solver]|].
  simpl in *. destruct (run_split (Key kv) rest) as (E & Hrun & _).
  pose proof (run_complete (Key kv) kv rest Hs eq_refl) as Htl.
  rewrite E at 1. apply (grouped_run (Key kv) (kv :: take _ rest)); [done|by constructor|done|].
  apply IH; [rewrite length_drop; lia|].
  apply StronglySorted_inv in Hs as [Hs _]. rewrite E in Hs.
  by apply StronglySorted_app_1_r in Hs.
Qed.

(** * Reduce tasks *)

Lemma collect_spec idx r fs (f : Z -> list KeyValue) :
  (forall i, i ∈ idx -> fs !! (i, r) = Some (f i)) ->
  collect json idx r fs = Some (mjoin (map (fun i => map json (f i)) idx)).
Proof.
  induction idx as [|i idx IH]; intros H; simpl; [done|].
  rewrite (H i) by (by left). simpl. rewrite IH; [done|]. intros j Hj. apply H. by right.
Qed.

Lemma collect_missing i idx r fs : i ∈ idx -> fs !! (i, r) = None -> collect json idx r fs = None.
Proof.
  induction idx as [|j idx IH]; intros Hin Hn; [set_solver|]. simpl.
  apply elem_of_cons in Hin as [<-|Hin]; [by rewrite Hn|].
  destruct (fs !! (j, r)); [|done]. simpl. by rewrite IH.
Qed.

Lemma remove_files_spec idx r : forall fs,
  NoDup idx -> (forall i, i ∈ idx -> is_Some (fs !! (i, r))) ->
  exists fs', remove_files idx r fs = Some fs' /\
    (forall i, i ∈ idx -> fs' !! (i, r) = None) /\
    (forall i s, s <> r \/ i ∉ idx -> fs' !! (i, s) = fs !! (i, s)).
Proof.
  induction idx as [|i idx IH]; intros fs Hnd H; simpl; [exists fs; set_solver|].
  apply NoDup_cons in Hnd as [Hi Hnd]. destruct (H i) as [b Hb]; [by left|]. rewrite Hb. simpl.
  destruct (IH (delete (i, r) fs) Hnd) as (fs' & E & H1 & H2).
  { intros j Hj. rewrite lookup_delete_ne by (intros [= ->]; done). apply H. by right. }
  exists fs'. split_and!; [done| |].
  - intros j [->|Hj]%elem_of_cons; [|by apply H1].
    rewrite H2 by (by right). apply lookup_delete_eq.
  - intros j s Hs. rewrite H2 by set_solver.
    apply lookup_delete_ne. intros [= -> ->]. set_solver.
Qed.

(** [collect] and [remove_files] fail on the same files. *)
Lemma reduce_task_Some reply fs out fs' :
  reduce_task reducef sort_by_key json reply fs = Some (out, fs') ->
  (forall i, 0 <= i < NMap reply -> fs' !! (i, ReduceTaskNumber reply) = None) /\
  (forall i s, s <> ReduceTaskNumber reply -> fs' !! (i, s) = fs !! (i, s)).
Proof.
  unfold reduce_task. intros H. opt_inv.
  destruct (remove_files_spec (seqZ 0 (NMap reply)) (ReduceTaskNumber reply) fs) as (fs2 & Erm & Hgone & Hkeep).
  - apply NoDup_seqZ.
  - intros i Hi. destruct (fs !! (i, ReduceTaskNumber reply)) eqn:En; [done|].
    pose proof (collect_missing i _ _ _ Hi En). congruence.
  - assert (fs2 = fs') as -> by congruence. split; [|intros i s Hs; apply Hkeep; by left].
    intros i Hi. apply Hgone. apply elem_of_seqZ. lia.
Qed.

(** * The result of a job *)

(** The documented behaviour of [sort.Sort] with [ByKey]. *)
Context (sort_perm : forall l, sort_by_key l ≡ₚ l).
Context (sort_sorted : forall l, StronglySorted key_le (sort_by_key l)).

Context (fnames : list string) (read : string -> option string) (nred : Z).

(** The pairs map task [i] emits, and all of them. *)
Definition emits (i : Z) : list KeyValue :=
  match fnames.[i] with
  | Some name => match read name with Some content => mapf name content | None => [] end
  | None => []
  end.
Definition all_emits : list KeyValue := mjoin (map emits (seqZ 0 (zlen fnames))).

(** [mr-out-r]: one line for each key that hashes to [r], which is [reducef] of
    that key and of all the values emitted for it, by any map task. *)
Record output_ok (r : Z) (out : list (string * string)) : Prop := {
  o_nodup : NoDup out.*1;
  o_lines : forall k o, (k, o) ∈ out -> Z.rem (ihash k) nred = r /\ exists vs,
              o = reducef k vs /\ vs <> [] /\ vs ≡ₚ map Value (with_key k all_emits);
  o_all : forall kv, kv ∈ all_emits -> Z.rem (ihash (Key kv)) nred = r -> Key kv ∈ out.*1
}.

(** The strings the application emits survive the JSON encoding. *)
Context (json_id : forall kv, kv ∈ all_emits -> json kv = kv).

Lemma emits_elem i kv : 0 <= i < zlen fnames -> kv ∈ emits i -> kv ∈ all_emits.
Proof.
  intros Hi Hkv. unfold all_emits. apply list_elem_of_join. exists (emits i).
  split; [done|]. apply list_elem_of_fmap. exists i. split; [done|]. apply elem_of_seqZ. lia.
Qed.

Lemma map_json_id l : (forall kv, kv ∈ l -> kv ∈ all_emits) -> map json l = l.
Proof.
  intros H. induction l as [|kv l IH]; [done|]. simpl.
  rewrite json_id by (apply H; by left). f_equal. apply IH. set_solver.
Qed.

Lemma concat_buckets r idx :
  (forall i, i ∈ idx -> 0 <= i < zlen fnames) ->
  mjoin (map (fun i => map json (filter (in_bucket nred r) (emits i))) idx) =
  filter (in_bucket nred r) (mjoin (map emits idx)).
Proof.
  induction idx as [|i idx IH]; intros H; [done|]. simpl. rewrite filter_app. f_equal.
  - apply map_json_id. intros kv [_ Hkv]%list_elem_of_filter. apply (emits_elem i); [|done].
    apply H. by left.
  - apply IH. intros j Hj. apply H. by right.
Qed.

Lemma with_key_bucket k : with_key k (filter (in_bucket nred (Z.rem (ihash k) nred)) all_emits) =
  with_key k all_emits.
Proof.
  unfold with_key. rewrite list_filter_filter. apply list_filter_iff.
  intros kv. unfold in_bucket. split; [by intros [? ?]|]. by intros <-.
Qed.

Lemma grouped_output r l out :
  l ≡ₚ filter (in_bucket nred r) all_emits -> grouped l out -> output_ok r out.
Proof.
  intros Hl [Hnd Hlines Hall]. split; [done| |].
  - intros k o Ho. destruct (Hlines k o Ho) as (kv & Hkv & Hk & ->).
    assert (Hb := Hkv). rewrite Hl in Hb. apply list_elem_of_filter in Hb as [Hb _].
    unfold in_bucket in Hb. rewrite Hk in Hb. split; [done|]. eexists. split; [done|]. split.
    + intros E. apply map_eq_nil in E.
      assert (kv ∈ with_key k l) as Hin by (apply list_elem_of_filter; done).
      rewrite E in Hin. set_solver.
    + rewrite <- with_key_bucket, Hb. unfold with_key. by rewrite Hl.
  - intros kv Hkv Hr. apply Hall. rewrite Hl. by apply list_elem_of_filter.
Qed.

Lemma reduce_task_correct reply r fs :
  NMap reply = zlen fnames -> ReduceTaskNumber reply = r ->
  (forall i, 0 <= i < zlen fnames -> fs !! (i, r) = Some (filter (in_bucket nred r) (emits i))) ->
  exists out fs', reduce_task reducef sort_by_key json reply fs = Some (out, fs') /\ output_ok r out.
Proof.
  intros Hn <- Hfs. unfold reduce_task. rewrite Hn.
  rewrite (collect_spec _ _ _ (fun i => filter (in_bucket nred (ReduceTaskNumber reply)) (emits i))).
  2: { intros i Hi%elem_of_seqZ. apply Hfs. lia. }
  destruct (remove_files_spec (seqZ 0 (zlen fnames)) (ReduceTaskNumber reply) fs) as (fs' & E & _).
  { apply NoDup_seqZ. } { intros i Hi%elem_of_seqZ. rewrite Hfs by lia. done. }
  simpl. rewrite E. simpl. do 2 eexists. split; [done|].
  eapply grouped_output; [|by apply group_loop_spec].
  rewrite concat_buckets; [apply sort_perm|]. intros i Hi%elem_of_seqZ. lia.
Qed.

(** The map tasks [ts], one after the other, as [AllocateTask] describes them to
    the workers; a task may be executed again. *)
Fixpoint run_maps (ts : list Z) (fs : Files) : option Files :=
  match ts with
  | [] => Some fs
  | t :: ts =>
      name ← fnames.[t];
      content ← read name;
      fs ← map_task mapf (mkWorkerReply 0 0 nred t name 0) content fs;
      run_maps ts fs
  end.

Lemma run_maps_spec ts : forall fs,
  0 < nred -> (forall t, t ∈ ts -> exists name content, fnames.[t] = Some name /\ read name = Some content) ->
  exists fs', run_maps ts fs = Some fs' /\
    (forall i r, i ∈ ts -> 0 <= r < nred -> fs' !! (i, r) = Some (filter (in_bucket nred r) (emits i))) /\
    (forall i r, i ∉ ts -> fs' !! (i, r) = fs !! (i, r)).
Proof.
  induction ts as [|t ts IH]; intros fs Hn H; [exists fs; simpl; set_solver|].
  destruct (H t) as (name & content & Hname & Hc); [by left|]. simpl. rewrite Hname. simpl.
  rewrite Hc. simpl.
  destruct (map_task_spec (mkWorkerReply 0 0 nred t name 0) content fs) as (fs1 & E1 & W1 & W2);
    simpl in *; [lia|lia|]. rewrite E1. simpl.
  destruct (IH fs1 Hn) as (fs2 & E2 & H1 & H2); [intros; apply H; by right|].
  exists fs2. split_and!; [done| |].
  - intros i r Hi Hr. destruct (decide (i ∈ ts)); [by apply H1|].
    apply elem_of_cons in Hi as [->|]; [|done]. rewrite H2 by done. rewrite W1 by done.
    unfold emits. by rewrite Hname, Hc.
  - intros i r Hi. rewrite H2 by set_solver. apply W2. set_solver.
Qed.

(** One pass of MapReduce computes what it should: whatever the order in
    which the map tasks run, and however often some of them run again, once each
    has run a reduce task succeeds and writes exactly one line for every key
    that hashes to it, [reducef] of the key and of all the values any map task
    emitted for it.  [sort.Sort] returns a sorted permutation, and the emitted
    strings survive the JSON files. *)
Theorem mapreduce_tasks_correct ts r :
  0 < nred -> 0 <= r < nred ->
  (forall i, 0 <= i < zlen fnames <-> i ∈ ts) ->
  (forall name, name ∈ fnames -> is_Some (read name)) ->
  exists fs out fs', run_maps ts ∅ = Some fs /\
    reduce_task reducef sort_by_key json (mkWorkerReply 1 (zlen fnames) 0 0 "" r) fs = Some (out, fs') /\
    output_ok r out.
Proof.
  intros Hn Hr Hts Hread.
  destruct (run_maps_spec ts ∅ Hn) as (fs & E & Hfs & _).
  { intros t Ht%Hts. destruct (go_index_is_Some fnames t Ht) as [name Hname].
    destruct (Hread name) as [content Hc]; [|eauto].
    rewrite go_index_lookup in Hname by lia. by eapply list_elem_of_lookup_2. }
  destruct (reduce_task_correct (mkWorkerReply 1 (zlen fnames) 0 0 "" r) r fs) as (out & fs' & E' & Hok);
    [done|done| |eauto 10].
  intros i Hi. apply Hfs; [by apply Hts|done].
Qed.

(** A reduce task destroys its inputs: once it has run, running it again is
    fatal to the worker, so a reduce task lost after its clean-up never completes. *)
Theorem reduce_task_not_repeatable reply fs out fs' :
  0 < NMap reply ->
  reduce_task reducef sort_by_key json reply fs = Some (out, fs') ->
  Worker mapf reducef sort_by_key json true
    (Some (mkWorkerReply 1 (NMap reply) 0 0 "" (ReduceTaskNumber reply))) read fs' = None.
Proof.
  intros Hn H. apply reduce_task_Some in H as [Hgone _].
  unfold Worker, reduce_task. simpl.
  rewrite (collect_missing 0); [done|apply elem_of_seqZ; lia|apply Hgone; lia].
Qed.
End worker_spec.
