(* ===== verification/MapReduceJob.v ===== *)
(** MapReduce: a whole job.

    The state is the master, the files, and what the workers hold: tasks handed
    out and not executed, and completion reports not delivered.  A worker may
    crash at any time, and a timer may fire at any time.  A timer is [late] for a
    worker that still holds its task: the worker has taken more than ten seconds.  The
    code assumes that there is no such worker ("still waiting, assume the map worker
    is died"); the theorems about runs are about [timely] ones, and the last theorem
    shows what happens otherwise. *)

From Stdlib Require Import String.
From S2P Require Import Prelude MapReduce MapReduceSpec.
Local Open Scope Z_scope.

(** * The task logs *)

Definition count2 (log : list Z) : Z := zlen (filter (fun t => t = 2) log).
Definition fin (t : Z) : Z := if decide (t = 2) then 1 else 0.

Lemma count2_cons t log : count2 (t :: log) = fin t + count2 log.
Proof.
  unfold count2, fin. rewrite filter_cons. case_decide; [by rewrite zlen_cons|lia].
Qed.

Lemma count2_insert log : forall n a x,
  log !! n = Some a -> count2 (<[n := x]> log) = count2 log - fin a + fin x.
Proof.
  induction log as [|t log IH]; intros n a x Hn; [done|].
  destruct n as [|n]; simpl in *.
  - injection Hn as ->. rewrite !count2_cons. lia.
  - rewrite !count2_cons, (IH n a x) by done. lia.
Qed.

Lemma count2_le log : count2 log <= zlen log.
Proof.
  induction log as [|t log IH]; [done|]. rewrite count2_cons, zlen_cons. unfold fin. case_decide; lia.
Qed.

Lemma count2_full log i : count2 log = zlen log -> 0 <= i < zlen log -> log.[i] = Some 2.
Proof.
  intros Hc Hi. destruct (go_index_is_Some log i Hi) as [a Ha]. rewrite Ha. f_equal.
  rewrite go_index_lookup in Ha by lia. clear Hi. revert Ha. generalize (Z.to_nat i).
  induction log as [|t log IH]; intros n Hn; [done|].
  rewrite count2_cons, zlen_cons in Hc. pose proof (count2_le log).
  unfold fin in Hc. case_decide; [|lia]. destruct n; simpl in Hn; [congruence|].
  eapply IH; [lia|done].
Qed.

(** A log of [n] tasks, [finished] of which are done, the tasks of [live] being
    held by workers. *)
Record log_inv (log : list Z) (n finished : Z) (live : list Z) : Prop := {
  l_len : zlen log = n;
  l_fin : finished = count2 log;
  l_live : NoDup live;
  l_wait : forall t, t ∈ live -> log.[t] = Some 1
}.

Lemma log_perm log n f l1 l2 : l1 ≡ₚ l2 -> log_inv log n f l1 -> log_inv log n f l2.
Proof. intros Hp [? ? ? ?]. split; [done|done|by rewrite <- Hp|]. intros t. rewrite <- Hp. auto. Qed.

(** The three things that happen to a log: a task is handed out, reported, or
    given up; each changes one entry. *)
Lemma log_alloc log n f live a log' :
  log_inv log n f live -> log.[a] = Some 0 -> go_store log a 1 = Some log' ->
  log_inv log' n f (a :: live).
Proof.
  intros [? ? ? Hw] Ha Hs. pose proof (go_index_Some_lt _ _ _ Ha) as Hr.
  pose proof Hs as Hs'. rewrite go_store_Some in Hs' by lia. injection Hs' as <-. split.
  - by rewrite zlen_insert.
  - rewrite (count2_insert _ _ 0) by (by rewrite <- go_index_lookup by lia). unfold fin. simpl. lia.
  - apply NoDup_cons. split; [|done]. intros Hin%Hw. congruence.
  - intros t Ht. rewrite (go_index_store _ _ _ _ _ Hs). case_decide; [done|].
    apply Hw. set_solver.
Qed.

Lemma log_report log n f live a log' :
  log_inv log n f (a :: live) -> go_store log a 2 = Some log' -> log_inv log' n (f + 1) live.
Proof.
  intros [? ? Hnd Hw] Hs. pose proof (Hw a ltac:(by left)) as Ha.
  pose proof (go_index_Some_lt _ _ _ Ha) as Hr. apply NoDup_cons in Hnd as [Hna Hnd].
  pose proof Hs as Hs'. rewrite go_store_Some in Hs' by lia. injection Hs' as <-. split.
  - by rewrite zlen_insert.
  - rewrite (count2_insert _ _ 1) by (by rewrite <- go_index_lookup by lia). unfold fin. simpl. lia.
  - done.
  - intros t Ht. rewrite (go_index_store _ _ _ _ _ Hs). case_decide; [by subst|].
    apply Hw. set_solver.
Qed.

Lemma log_timeout log n f live a log' :
  log_inv log n f live -> log.[a] = Some 1 -> a ∉ live -> go_store log a 0 = Some log' ->
  log_inv log' n f live.
Proof.
  intros [? ? ? Hw] Ha Hna Hs. pose proof (go_index_Some_lt _ _ _ Ha) as Hr.
  pose proof Hs as Hs'. rewrite go_store_Some in Hs' by lia. injection Hs' as <-. split.
  - by rewrite zlen_insert.
  - rewrite (count2_insert _ _ 1) by (by rewrite <- go_index_lookup by lia). unfold fin. simpl. lia.
  - done.
  - intros t Ht. rewrite (go_index_store _ _ _ _ _ Hs). case_decide; [by subst|]. by apply Hw.
Qed.

Lemma log_lose log n f live a : log_inv log n f (a :: live) -> log_inv log n f live.
Proof.
  intros [? ? Hnd Hw]. apply NoDup_cons in Hnd as [_ Hnd]. split; [done|done|done|].
  intros t Ht. apply Hw. by right.
Qed.

Lemma log_all_done log n live i : log_inv log n n live -> 0 <= i < n -> log.[i] = Some 2.
Proof. intros [? ? _ _] Hi. apply count2_full; congruence. Qed.

(** Entries other than a reported one keep the value 2, and only a report
    makes a 2. *)
Lemma store_done log a x log' i old :
  log.[a] = Some old -> old <> 2 -> go_store log a x = Some log' ->
  log.[i] = Some 2 -> log'.[i] = Some 2.
Proof.
  intros Ha Hold Hs Hi. rewrite (go_index_store _ _ _ _ _ Hs). case_decide; [|done].
  subst. congruence.
Qed.

Lemma store_done_inv log a x log' i :
  go_store log a x = Some log' -> log'.[i] = Some 2 -> (i = a /\ x = 2) \/ log.[i] = Some 2.
Proof.
  intros Hs. rewrite (go_index_store _ _ _ _ _ Hs). case_decide; [|by right].
  intros [= ->]. by left.
Qed.

Lemma find_idle_spec fuel : forall i log a,
  0 <= i -> find_idle fuel i log = Some a -> a = -1 \/ log.[a] = Some 0.
Proof.
  induction fuel as [|fuel IH]; simpl; intros i log a Hi H; [left; congruence|].
  opt_inv. case_decide; [injection H as <-; right; congruence|]. apply (IH (i + 1)); [lia|done].
Qed.

(** * The job *)

Record Job := mkJob {
  jm : Master;
  jfs : Files;
  jouts : gmap Z (list (string * string));
  jtasks : list WorkerReply;
  jmapdone : list WorkerArgs;
  jreddone : list WorkerArgs
}.

(** The map and reduce tasks some worker still works on or is about to report. *)
Definition live_map (tasks : list WorkerReply) (reports : list WorkerArgs) : list Z :=
  map MapTaskNumber (filter (fun t => Tasktype t = 0) tasks) ++ map aMapTaskNumber reports.
Definition live_red (tasks : list WorkerReply) (reports : list WorkerArgs) : list Z :=
  map ReduceTaskNumber (filter (fun t => Tasktype t = 1) tasks) ++ map aReduceTaskNumber reports.

#[export] Instance live_map_proper : Proper ((≡ₚ) ==> (≡ₚ) ==> (≡ₚ)) live_map.
Proof. intros t1 t2 Ht r1 r2 Hr. unfold live_map. by rewrite Ht, Hr. Qed.
#[export] Instance live_red_proper : Proper ((≡ₚ) ==> (≡ₚ) ==> (≡ₚ)) live_red.
Proof. intros t1 t2 Ht r1 r2 Hr. unfold live_red. by rewrite Ht, Hr. Qed.

Section job.
Context (mapf : string -> string -> list KeyValue) (reducef : string -> list string -> string).
Context (sort_by_key : list KeyValue -> list KeyValue) (json : KeyValue -> KeyValue).
Context (fnames : list string) (read : string -> option string) (nred : Z).

Abbreviation work := (Worker mapf reducef sort_by_key json true).

(** What happens in a step: a timer fires, or something else. *)
Inductive Happening := Work | MapTimer (a : Z) | ReduceTimer (a : Z).

Inductive job_step : Happening -> Job -> Job -> Prop :=
| j_alloc m m' fs outs tasks md rd reply :
    AllocateTask m = Some (reply, m') -> Tasktype reply = 0 \/ Tasktype reply = 1 ->
    job_step Work (mkJob m fs outs tasks md rd) (mkJob m' fs outs (reply :: tasks) md rd)
| j_map m fs fs' outs tasks tasks' md rd reply report :
    tasks ≡ₚ reply :: tasks' -> work (Some reply) read fs = Some (WMap fs' report) ->
    job_step Work (mkJob m fs outs tasks md rd) (mkJob m fs' outs tasks' (report :: md) rd)
| j_reduce m fs fs' outs out tasks tasks' md rd reply report :
    tasks ≡ₚ reply :: tasks' -> work (Some reply) read fs = Some (WReduce out fs' report) ->
    job_step Work (mkJob m fs outs tasks md rd)
      (mkJob m fs' (<[aReduceTaskNumber report := out]> outs) tasks' md (report :: rd))
| j_report_map m m' fs outs tasks md md' rd report :
    md ≡ₚ report :: md' -> ReceiveFinishedMap report m = Some m' ->
    job_step Work (mkJob m fs outs tasks md rd) (mkJob m' fs outs tasks md' rd)
| j_report_reduce m m' fs outs tasks md rd rd' report :
    rd ≡ₚ report :: rd' -> ReceiveFinishedReduce report m = Some m' ->
    job_step Work (mkJob m fs outs tasks md rd) (mkJob m' fs outs tasks md rd')
| j_crash m fs outs tasks tasks' md rd reply :
    tasks ≡ₚ reply :: tasks' ->
    job_step Work (mkJob m fs outs tasks md rd) (mkJob m fs outs tasks' md rd)
| j_lose_map m fs outs tasks md md' rd report :
    md ≡ₚ report :: md' ->
    job_step Work (mkJob m fs outs tasks md rd) (mkJob m fs outs tasks md' rd)
| j_lose_reduce m fs outs tasks md rd rd' report :
    rd ≡ₚ report :: rd' ->
    job_step Work (mkJob m fs outs tasks md rd) (mkJob m fs outs tasks md rd')
| j_map_timeout m m' fs outs tasks md rd a :
    map_timeout a m = Some m' ->
    job_step (MapTimer a) (mkJob m fs outs tasks md rd) (mkJob m' fs outs tasks md rd)
| j_reduce_timeout m m' fs outs tasks md rd a :
    reduce_timeout a m = Some m' ->
    job_step (ReduceTimer a) (mkJob m fs outs tasks md rd) (mkJob m' fs outs tasks md rd).

Definition job_init (j : Job) : Prop :=
  exists m, MakeMaster fnames nred = Some m /\ j = mkJob m ∅ ∅ [] [] [].

(** A timer that fires while a worker has the task, and runs in which none does. *)
Definition late (x : Happening) (j : Job) : Prop :=
  match x with
  | Work => False
  | MapTimer a => a ∈ live_map (jtasks j) (jmapdone j)
  | ReduceTimer a => a ∈ live_red (jtasks j) (jreddone j)
  end.
Definition timely_step (j j' : Job) : Prop := exists x, job_step x j j' /\ ~ late x j.
Definition timely_reachable (j : Job) : Prop := exists j0, job_init j0 /\ rtc timely_step j0 j.

Definition maps_done (m : Master) : Prop :=
  forall i, 0 <= i < zlen fnames -> (maptasklog m).[i] = Some 2.

Definition good_files (fs : Files) (i r : Z) : Prop :=
  fs !! (i, r) = Some (filter (in_bucket nred r) (emits mapf fnames read i)).

(** A task in a worker's hands is one the master handed out. *)
Definition task_ok (m : Master) (t : WorkerReply) : Prop :=
  (Tasktype t = 0 -> NReduce t = nred /\ fnames.[MapTaskNumber t] = Some (Filename t)) /\
  (Tasktype t = 1 -> NMap t = zlen fnames /\ 0 <= ReduceTaskNumber t < nred /\ maps_done m).

Record job_inv (j : Job) : Prop := {
  v_static : nReduce (jm j) = nred /\ nMap (jm j) = zlen fnames /\ files (jm j) = fnames;
  v_map : log_inv (maptasklog (jm j)) (zlen fnames) (mapfinished (jm j)) (live_map (jtasks j) (jmapdone j));
  v_red : log_inv (reducetasklog (jm j)) nred (reducefinished (jm j)) (live_red (jtasks j) (jreddone j));
  v_tasks : forall t, t ∈ jtasks j -> task_ok (jm j) t;
  (* a finished or executed map task has its files, until they are reduced *)
  v_files : forall i, (maptasklog (jm j)).[i] = Some 2 \/ i ∈ map aMapTaskNumber (jmapdone j) ->
    forall r, 0 <= r < nred -> jouts j !! r = None -> good_files (jfs j) i r;
  v_outs : forall r out, jouts j !! r = Some out ->
    output_ok mapf reducef fnames read nred r out /\ maps_done (jm j) /\
    (forall i, 0 <= i < zlen fnames -> jfs j !! (i, r) = None);
  v_done : forall r, (reducetasklog (jm j)).[r] = Some 2 \/ r ∈ map aReduceTaskNumber (jreddone j) ->
    is_Some (jouts j !! r)
}.

Lemma live_map_cons t ts md : live_map (t :: ts) md =
  (if decide (Tasktype t = 0) then [MapTaskNumber t] else []) ++ live_map ts md.
Proof. unfold live_map. rewrite filter_cons. by case_decide. Qed.
Lemma live_red_cons t ts rd : live_red (t :: ts) rd =
  (if decide (Tasktype t = 1) then [ReduceTaskNumber t] else []) ++ live_red ts rd.
Proof. unfold live_red. rewrite filter_cons. by case_decide. Qed.

Lemma live_map_report t ts rep md : MapTaskNumber t = aMapTaskNumber rep -> Tasktype t = 0 ->
  live_map (t :: ts) md ≡ₚ live_map ts (rep :: md).
Proof.
  intros E Ht. rewrite live_map_cons, decide_True by done. unfold live_map. simpl.
  rewrite E. apply Permutation_middle.
Qed.
Lemma live_red_report t ts rep rd : ReduceTaskNumber t = aReduceTaskNumber rep -> Tasktype t = 1 ->
  live_red (t :: ts) rd ≡ₚ live_red ts (rep :: rd).
Proof.
  intros E Ht. rewrite live_red_cons, decide_True by done. unfold live_red. simpl.
  rewrite E. apply Permutation_middle.
Qed.

(** Dropping a task or a report. *)
Lemma log_drop_map log n f t ts md :
  log_inv log n f (live_map (t :: ts) md) -> log_inv log n f (live_map ts md).
Proof. rewrite live_map_cons. case_decide; [apply log_lose|done]. Qed.
Lemma log_drop_red log n f t ts rd :
  log_inv log n f (live_red (t :: ts) rd) -> log_inv log n f (live_red ts rd).
Proof. rewrite live_red_cons. case_decide; [apply log_lose|done]. Qed.
Lemma live_map_pop ts rep md : live_map ts (rep :: md) ≡ₚ aMapTaskNumber rep :: live_map ts md.
Proof. unfold live_map. simpl. symmetry. apply Permutation_middle. Qed.
Lemma live_red_pop ts rep rd : live_red ts (rep :: rd) ≡ₚ aReduceTaskNumber rep :: live_red ts rd.
Proof. unfold live_red. simpl. symmetry. apply Permutation_middle. Qed.

(** ** Steps of the master *)

Definition keeps_done (m m' : Master) : Prop :=
  forall i, (maptasklog m).[i] = Some 2 -> (maptasklog m').[i] = Some 2.

Lemma maps_done_mono m m' : keeps_done m m' -> maps_done m -> maps_done m'.
Proof. intros Hk Hd i Hi. by apply Hk, Hd. Qed.

Lemma task_ok_mono m m' t : keeps_done m m' -> task_ok m t -> task_ok m' t.
Proof.
  intros Hk [H0 H1]. split; [done|]. intros E. destruct (H1 E) as (? & ? & ?).
  split_and!; try done; try lia. by eapply maps_done_mono.
Qed.

Lemma AllocateTask_inv m reply m' :
  AllocateTask m = Some (reply, m') -> Tasktype reply = 0 \/ Tasktype reply = 1 ->
  (exists a name log, (maptasklog m).[a] = Some 0 /\ (files m).[a] = Some name /\
     go_store (maptasklog m) a 1 = Some log /\
     reply = mkWorkerReply 0 0 (nReduce m) a name 0 /\ m' = set_map (mapfinished m) log m) \/
  (exists a log, mapfinished m = nMap m /\ (reducetasklog m).[a] = Some 0 /\
     go_store (reducetasklog m) a 1 = Some log /\
     reply = mkWorkerReply 1 (nMap m) 0 0 "" a /\ m' = set_reduce (reducefinished m) log m).
Proof.
  unfold AllocateTask. intros H Ht. case_decide; [|case_decide as Hd].
  - left. apply bind_Some in H as (a & Ha & H). case_decide; [|].
    { injection H as <- <-. simpl in Ht. lia. }
    apply find_idle_spec in Ha as [|Ha]; [done| |lia].
    apply bind_Some in H as (name & Hname & H). apply bind_Some in H as (log & Hlog & H).
    injection H as <- <-. by exists a, name, log.
  - right. apply bind_Some in H as (a & Ha & H). case_decide; [|].
    { injection H as <- <-. simpl in Ht. lia. }
    apply find_idle_spec in Ha as [|Ha]; [done| |lia].
    apply bind_Some in H as (log & Hlog & H). injection H as <- <-.
    destruct Hd. by exists a, log.
  - injection H as <- <-. simpl in Ht. lia.
Qed.

(** The file part of the invariant only looks at which tasks are finished. *)
Lemma inv_master m m' fs outs tasks md rd :
  job_inv (mkJob m fs outs tasks md rd) ->
  nReduce m' = nReduce m -> nMap m' = nMap m -> files m' = files m ->
  log_inv (maptasklog m') (zlen fnames) (mapfinished m') (live_map tasks md) ->
  log_inv (reducetasklog m') nred (reducefinished m') (live_red tasks rd) ->
  (forall i, (maptasklog m).[i] = Some 2 <-> (maptasklog m').[i] = Some 2) ->
  (forall r, (reducetasklog m').[r] = Some 2 -> (reducetasklog m).[r] = Some 2) ->
  job_inv (mkJob m' fs outs tasks md rd).
Proof.
  intros [(Hs1 & Hs2 & Hs3) _ _ Ht Hf Ho Hd] E1 E2 E3 Lm Lr Km Kr; simpl in *.
  assert (keeps_done m m') as Hk by (intros i; apply Km). split; simpl; try done.
  - by rewrite E1, E2, E3.
  - intros t Hin. eapply task_ok_mono; eauto.
  - intros i [Hi|Hi]; apply Hf; [left; by apply Km|by right].
  - intros r out Hr. destruct (Ho r out Hr) as (? & ? & ?). split_and!; try done.
    by eapply maps_done_mono.
  - intros r [Hr|Hr]; apply Hd; auto.
Qed.

Lemma inv_map_timeout m m' fs outs tasks md rd a :
  job_inv (mkJob m fs outs tasks md rd) -> a ∉ live_map tasks md -> map_timeout a m = Some m' ->
  job_inv (mkJob m' fs outs tasks md rd).
Proof.
  intros I Ha H. unfold map_timeout in H. apply bind_Some in H as (t & Ht & H).
  case_decide; [|congruence]. subst t. apply bind_Some in H as (log & Hl & H).
  injection H as <-. apply (inv_master m); try done; simpl.
  - eapply log_timeout; [apply (v_map _ I)|done..].
  - apply (v_red _ I).
  - intros i. split; [by eapply store_done|].
    intros Hi. by destruct (store_done_inv _ _ _ _ _ Hl Hi) as [[_ ?]|].
Qed.

Lemma inv_reduce_timeout m m' fs outs tasks md rd a :
  job_inv (mkJob m fs outs tasks md rd) -> a ∉ live_red tasks rd -> reduce_timeout a m = Some m' ->
  job_inv (mkJob m' fs outs tasks md rd).
Proof.
  intros I Ha H. unfold reduce_timeout in H. apply bind_Some in H as (t & Ht & H).
  case_decide; [|congruence]. subst t. apply bind_Some in H as (log & Hl & H).
  injection H as <-. apply (inv_master m); try done; simpl.
  - apply (v_map _ I).
  - eapply log_timeout; [apply (v_red _ I)|done..].
  - intros r Hr. by destruct (store_done_inv _ _ _ _ _ Hl Hr) as [[_ ?]|].
Qed.

(** Workers that lose tasks or reports. *)
Lemma inv_sub m fs outs tasks tasks' md md' rd rd' :
  job_inv (mkJob m fs outs tasks md rd) ->
  tasks' ⊆ tasks -> md' ⊆ md -> rd' ⊆ rd ->
  log_inv (maptasklog m) (zlen fnames) (mapfinished m) (live_map tasks' md') ->
  log_inv (reducetasklog m) nred (reducefinished m) (live_red tasks' rd') ->
  job_inv (mkJob m fs outs tasks' md' rd').
Proof.
  intros [Hs _ _ Ht Hf Ho Hd] S1 S2 S3 Lm Lr; simpl in *. split; simpl; try done.
  - intros t Hin. by apply Ht, S1.
  - intros i [Hi|(a & -> & Ha)%list_elem_of_fmap]; apply Hf; [by left|].
    right. apply list_elem_of_fmap. eauto.
  - intros r [Hr|(a & -> & Ha)%list_elem_of_fmap]; apply Hd; [by left|].
    right. apply list_elem_of_fmap. eauto.
Qed.

Lemma perm_sub {A} (l l' : list A) x : l ≡ₚ x :: l' -> l' ⊆ l.
Proof. intros Hp y Hy. rewrite Hp. by right. Qed.

Lemma inv_crash m fs outs tasks tasks' md rd t :
  job_inv (mkJob m fs outs tasks md rd) -> tasks ≡ₚ t :: tasks' ->
  job_inv (mkJob m fs outs tasks' md rd).
Proof.
  intros I Hp. eapply inv_sub; [done|by eapply perm_sub|done|done| |].
  - apply (log_drop_map _ _ _ t). eapply log_perm; [|apply (v_map _ I)]. simpl. by rewrite Hp.
  - apply (log_drop_red _ _ _ t). eapply log_perm; [|apply (v_red _ I)]. simpl. by rewrite Hp.
Qed.

Lemma inv_lose_map m fs outs tasks md md' rd rep :
  job_inv (mkJob m fs outs tasks md rd) -> md ≡ₚ rep :: md' ->
  job_inv (mkJob m fs outs tasks md' rd).
Proof.
  intros I Hp. eapply inv_sub; [done|done|by eapply perm_sub|done| |apply (v_red _ I)].
  apply (log_lose _ _ _ _ (aMapTaskNumber rep)). eapply log_perm; [|apply (v_map _ I)]. simpl.
  by rewrite Hp, live_map_pop.
Qed.

Lemma inv_lose_reduce m fs outs tasks md rd rd' rep :
  job_inv (mkJob m fs outs tasks md rd) -> rd ≡ₚ rep :: rd' ->
  job_inv (mkJob m fs outs tasks md rd').
Proof.
  intros I Hp. eapply inv_sub; [done|done|done|by eapply perm_sub|apply (v_map _ I)|].
  apply (log_lose _ _ _ _ (aReduceTaskNumber rep)). eapply log_perm; [|apply (v_red _ I)]. simpl.
  by rewrite Hp, live_red_pop.
Qed.

Lemma inv_alloc m m' fs outs tasks md rd reply :
  job_inv (mkJob m fs outs tasks md rd) ->
  AllocateTask m = Some (reply, m') -> Tasktype reply = 0 \/ Tasktype reply = 1 ->
  job_inv (mkJob m' fs outs (reply :: tasks) md rd).
Proof.
  intros I H Ht. destruct (v_static _ I) as (Hs1 & Hs2 & Hs3). simpl in *.
  destruct (AllocateTask_inv _ _ _ H Ht) as
    [(a & name & log & Ha & Hname & Hl & -> & ->)|(a & log & Hm & Ha & Hl & -> & ->)].
  - assert (keeps_done m (set_map (mapfinished m) log m)) as Hk
      by (intros i; by eapply store_done). destruct I as [_ Lm Lr Htk Hf Ho Hd]; simpl in *.
    split; simpl; try done.
    + rewrite live_map_cons. by eapply log_alloc.
    + intros t [->|Hin]%elem_of_cons; [|eapply task_ok_mono; eauto].
      split; simpl; [|lia]. intros _. by rewrite <- Hs3.
    + intros i [Hi|Hi]; [|by apply Hf; right].
      destruct (store_done_inv _ _ _ _ _ Hl Hi) as [[_ ?]|]; [done|by apply Hf; left].
    + intros r out Hr. destruct (Ho r out Hr) as (? & ? & ?). split_and!; try done.
      by eapply maps_done_mono.
  - destruct I as [_ Lm Lr Htk Hf Ho Hd]; simpl in *. split; simpl; try done.
    + rewrite live_red_cons. by eapply log_alloc.
    + intros t [->|Hin]%elem_of_cons; [|by apply Htk]. split; simpl; [lia|]. intros _.
      split; [done|]. split; [rewrite <- (l_len _ _ _ _ Lr); by eapply go_index_Some_lt|].
      intros i Hi. simpl. eapply log_all_done; [|done]. rewrite Hm, Hs2 in Lm. done.
    + intros r [Hr|Hr]; [|by apply Hd; right].
      destruct (store_done_inv _ _ _ _ _ Hl Hr) as [[_ ?]|]; [done|by apply Hd; left].
Qed.

Lemma inv_report_map m m' fs outs tasks md md' rd rep :
  job_inv (mkJob m fs outs tasks md rd) -> md ≡ₚ rep :: md' -> ReceiveFinishedMap rep m = Some m' ->
  job_inv (mkJob m' fs outs tasks md' rd).
Proof.
  intros [Hs Lm Lr Htk Hf Ho Hd] Hp H; simpl in *.
  unfold ReceiveFinishedMap in H. apply bind_Some in H as (log & Hl & H). injection H as <-.
  assert (log_inv (maptasklog m) (zlen fnames) (mapfinished m)
    (aMapTaskNumber rep :: live_map tasks md')) as Lm'.
  { eapply log_perm; [|done]. by rewrite Hp, live_map_pop. }
  pose proof (l_wait _ _ _ _ Lm' _ ltac:(by left)) as Hw.
  assert (keeps_done m (set_map (mapfinished m + 1) log m)) as Hk
    by (intros i; by eapply store_done). split; simpl; try done.
  - by eapply log_report.
  - intros t Hin. eapply task_ok_mono; eauto.
  - intros i Hi. apply Hf. destruct Hi as [Hi|(b & -> & Hb)%list_elem_of_fmap].
    + destruct (store_done_inv _ _ _ _ _ Hl Hi) as [[-> _]|]; [right|by left].
      apply list_elem_of_fmap. exists rep. split; [done|]. rewrite Hp. by left.
    + right. apply list_elem_of_fmap. exists b. split; [done|]. rewrite Hp. by right.
  - intros r out Hr. destruct (Ho r out Hr) as (? & ? & ?). split_and!; try done.
    by eapply maps_done_mono.
Qed.

Lemma inv_report_reduce m m' fs outs tasks md rd rd' rep :
  job_inv (mkJob m fs outs tasks md rd) -> rd ≡ₚ rep :: rd' -> ReceiveFinishedReduce rep m = Some m' ->
  job_inv (mkJob m' fs outs tasks md rd').
Proof.
  intros [Hs Lm Lr Htk Hf Ho Hd] Hp H; simpl in *.
  unfold ReceiveFinishedReduce in H. apply bind_Some in H as (log & Hl & H). injection H as <-.
  split; simpl; try done.
  - eapply log_report; [|done]. eapply log_perm; [|done]. by rewrite Hp, live_red_pop.
  - intros r Hr. apply Hd. destruct Hr as [Hr|(b & -> & Hb)%list_elem_of_fmap].
    + destruct (store_done_inv _ _ _ _ _ Hl Hr) as [[-> _]|]; [right|by left].
      apply list_elem_of_fmap. exists rep. split; [done|]. rewrite Hp. by left.
    + right. apply list_elem_of_fmap. exists b. split; [done|]. rewrite Hp. by right.
Qed.

(** ** Steps of the workers *)

Lemma work_map_inv reply fs fs' rep :
  work (Some reply) read fs = Some (WMap fs' rep) ->
  Tasktype reply = 0 /\ rep = mkWorkerArgs (MapTaskNumber reply) (-1) /\
  exists content, read (Filename reply) = Some content /\ map_task mapf reply content fs = Some fs'.
Proof.
  unfold Worker, call. simpl. intros H. case_decide; [done|]. case_decide.
  - opt_inv. eauto.
  - case_decide; [|done]. apply bind_Some in H as ([? ?] & ? & ?). done.
Qed.

Lemma work_reduce_inv reply fs fs' out rep :
  work (Some reply) read fs = Some (WReduce out fs' rep) ->
  Tasktype reply = 1 /\ rep = mkWorkerArgs (-1) (ReduceTaskNumber reply) /\
  reduce_task reducef sort_by_key json reply fs = Some (out, fs').
Proof.
  unfold Worker, call. simpl. intros H. case_decide; [done|]. case_decide; [by opt_inv|].
  case_decide; [|done]. apply bind_Some in H as ([? ?] & ? & H). injection H as -> -> <-. done.
Qed.

Lemma inv_map m fs fs' outs tasks tasks' md rd reply rep :
  job_inv (mkJob m fs outs tasks md rd) -> tasks ≡ₚ reply :: tasks' ->
  work (Some reply) read fs = Some (WMap fs' rep) ->
  job_inv (mkJob m fs' outs tasks' (rep :: md) rd).
Proof.
  intros [Hs Lm Lr Htk Hf Ho Hd] Hp H; simpl in *.
  destruct (work_map_inv _ _ _ _ H) as (T0 & -> & content & Hc & Hm).
  destruct (Htk reply) as [Hok _]; [rewrite Hp; by left|]. destruct (Hok T0) as [Hn Hname].
  destruct (map_task_Some _ _ _ _ _ Hm) as [G0 G1].
  destruct (map_task_spec mapf reply content fs G0 G1) as (fs2 & E & W1 & W2).
  assert (fs2 = fs') as -> by congruence. rewrite Hn in W1.
  assert (live_map tasks md ≡ₚ live_map tasks' (mkWorkerArgs (MapTaskNumber reply) (-1) :: md)) as Hlive
    by (rewrite Hp; by apply live_map_report).
  assert ((maptasklog m).[MapTaskNumber reply] = Some 1) as Hone.
  { apply (l_wait _ _ _ _ Lm). rewrite Hlive, live_map_pop. by left. }
  split; simpl; try done.
  - by eapply log_perm.
  - apply (log_drop_red _ _ _ reply). eapply log_perm; [|done]. by rewrite Hp.
  - intros t Hin. apply Htk. rewrite Hp. by right.
  - intros i Hi r Hr Hout. unfold good_files.
    destruct (decide (i = MapTaskNumber reply)) as [->|Hne].
    + rewrite W1 by done. unfold emits. by rewrite Hname, Hc.
    + rewrite W2 by done. apply Hf; try done. set_solver.
  - intros r out Hr. destruct (Ho r out Hr) as (? & Hdone & ?). exfalso.
    rewrite Hdone in Hone; [done|]. by eapply go_index_Some_lt.
Qed.

Context (sort_perm : forall l, sort_by_key l ≡ₚ l).
Context (sort_sorted : forall l, StronglySorted key_le (sort_by_key l)).
Context (json_id : forall kv, kv ∈ all_emits mapf fnames read -> json kv = kv).

(** A reduce task that completes found the files of every map task, so its
    output is right, also when it runs a second time on a job without inputs. *)
Lemma reduce_output m fs fs' outs tasks md rd reply out :
  job_inv (mkJob m fs outs tasks md rd) -> reply ∈ tasks -> Tasktype reply = 1 ->
  reduce_task reducef sort_by_key json reply fs = Some (out, fs') ->
  output_ok mapf reducef fnames read nred (ReduceTaskNumber reply) out.
Proof.
  intros [Hs Lm Lr Htk Hf Ho Hd] Hin T1 H; simpl in *.
  destruct (Htk reply Hin) as [_ Hok]. destruct (Hok T1) as (Hn & Hr & Hdone).
  destruct (reduce_task_correct mapf reducef sort_by_key json sort_perm sort_sorted fnames read nred
    json_id reply (ReduceTaskNumber reply) fs) as (out' & fs2 & E & Hout); [done|done| |congruence].
  intros i Hi. destruct (outs !! ReduceTaskNumber reply) as [o|] eqn:Eo.
  - exfalso. destruct (Ho _ _ Eo) as (_ & _ & Hgone). unfold reduce_task in H.
    rewrite (collect_missing json i) in H; [done|apply elem_of_seqZ; lia|by apply Hgone].
  - apply Hf; [left; by apply Hdone|done|done].
Qed.

Lemma inv_reduce m fs fs' outs out tasks tasks' md rd reply rep :
  job_inv (mkJob m fs outs tasks md rd) -> tasks ≡ₚ reply :: tasks' ->
  work (Some reply) read fs = Some (WReduce out fs' rep) ->
  job_inv (mkJob m fs' (<[aReduceTaskNumber rep := out]> outs) tasks' md (rep :: rd)).
Proof.
  intros I Hp H. destruct (work_reduce_inv _ _ _ _ _ H) as (T1 & -> & Hred).
  assert (reply ∈ tasks) as Hin by (rewrite Hp; by left).
  pose proof (reduce_output _ _ _ _ _ _ _ _ _ I Hin T1 Hred) as Hout.
  destruct (reduce_task_Some _ _ _ _ _ _ _ Hred) as [Hgone Hkeep].
  destruct I as [Hs Lm Lr Htk Hf Ho Hd]; simpl in *.
  destruct (Htk reply Hin) as [_ Hok]. destruct (Hok T1) as (Hn & Hr & Hdone).
  rewrite Hn in Hgone. split; simpl; try done.
  - apply (log_drop_map _ _ _ reply). eapply log_perm; [|done]. by rewrite Hp.
  - eapply log_perm; [|done]. rewrite Hp. by apply live_red_report.
  - intros t Ht. apply Htk. rewrite Hp. by right.
  - intros i Hi r Hrr Hnone. apply lookup_insert_None in Hnone as [Hnone Hne].
    unfold good_files. rewrite Hkeep by congruence. by apply Hf.
  - intros r o Ho'. apply lookup_insert_Some in Ho' as [[<- <-]|[Hne Ho']]; [by split_and!|].
    destruct (Ho _ _ Ho') as (? & ? & Hnone). split_and!; [done|done|].
    intros i Hi. rewrite Hkeep by congruence. by apply Hnone.
  - intros r Hrr. destruct (decide (r = ReduceTaskNumber reply)) as [->|Hne].
    + by rewrite lookup_insert_eq.
    + rewrite lookup_insert_ne by congruence. apply Hd. set_solver.
Qed.

Lemma job_inv_step j j' : job_inv j -> timely_step j j' -> job_inv j'.
Proof.
  intros I (x & Hs & Ht). revert I Ht. destruct Hs; simpl; intros I Ht; [eapply inv_alloc|eapply inv_map|eapply inv_reduce|eapply inv_report_map
    |eapply inv_report_reduce|eapply inv_crash|eapply inv_lose_map|eapply inv_lose_reduce
    |eapply inv_map_timeout|eapply inv_reduce_timeout]; eassumption.
Qed.

Lemma count2_zeros n : count2 (replicate n 0) = 0.
Proof. induction n as [|n IH]; [done|]. simpl. by rewrite count2_cons, IH. Qed.

Lemma log_inv_init n log : go_make n 0 = Some log -> log_inv log n 0 [].
Proof.
  unfold go_make. case_decide; [|done]. intros [= <-].
  split; [unfold zlen; rewrite length_replicate; lia|by rewrite count2_zeros|constructor|set_solver].
Qed.

Lemma zeros_not_done n log i : go_make n 0 = Some log -> log.[i] = Some 2 -> False.
Proof.
  unfold go_make, go_index. case_decide; [|done]. intros [= <-]. case_decide; [|done].
  by intros [? _]%lookup_replicate.
Qed.

Lemma inv_init j : job_init j -> job_inv j.
Proof.
  intros (m & H & ->). unfold MakeMaster in H.
  apply bind_Some in H as (lm & Hm & H). apply bind_Some in H as (lr & Hr & H).
  injection H as <-. split; simpl; try set_solver.
  - by apply log_inv_init.
  - by apply log_inv_init.
  - intros i [Hi|Hi]; [by destruct (zeros_not_done _ _ _ Hm Hi)|set_solver].
  - intros r [Hi|Hi]; [by destruct (zeros_not_done _ _ _ Hr Hi)|set_solver].
Qed.

Lemma inv_reachable j : timely_reachable j -> job_inv j.
Proof.
  intros (j0 & H0 & Hr). apply inv_init in H0. induction Hr; [done|].
  eauto using job_inv_step.
Qed.

Lemma job_outputs j :
  timely_reachable j -> Done (jm j) = true ->
  forall r, 0 <= r < nred -> exists out, jouts j !! r = Some out /\
    output_ok mapf reducef fnames read nred r out.
Proof.
  intros I%inv_reachable Hdone r Hr. apply bool_decide_eq_true in Hdone.
  destruct (v_static _ I) as (Hn & _ & _). rewrite Hn in Hdone.
  destruct (v_done _ I r) as [out Hout].
  { left. eapply log_all_done; [|done]. rewrite <- Hdone at 2. apply (v_red _ I). }
  exists out. split; [done|]. by apply (v_outs _ I).
Qed.
(** When the master declares the job done, the job is done: every output
    file exists and holds one line for each key that hashes to it, [reducef] of
    all the values emitted for the key, and every intermediate file is removed,
    although workers may have crashed at any point and tasks have run several
    times, as long as no timer is late. *)
Theorem mapreduce_done_correct j :
  timely_reachable j -> Done (jm j) = true ->
  forall r, 0 <= r < nred ->
    (exists out, jouts j !! r = Some out /\ output_ok mapf reducef fnames read nred r out) /\
    (forall i, 0 <= i < zlen fnames -> jfs j !! (i, r) = None).
Proof.
  intros Hj Hdone r Hr. destruct (job_outputs j Hj Hdone r Hr) as (out & Hout & Hok).
  split; [by exists out|]. by apply (v_outs _ (inv_reachable j Hj) r out).
Qed.
End job.

(** * When a slow worker reports after its task was given up

    [map_timeout] hands the task out again while the first worker still runs;
    both workers report, and [mapfinished] counts the task twice. *)

(** Two input files, ten reduce tasks; the worker of task 0 is slow, a second
    one is given the same task, and both report.  The result is the master and
    the next task it hands out. *)
Definition late_report_run : option (Master * WorkerReply) :=
  m ← MakeMaster ["a"; "b"] 10;
  '(t1, m) ← AllocateTask m;
  m ← map_timeout (MapTaskNumber t1) m;
  '(t2, m) ← AllocateTask m;
  m ← ReceiveFinishedMap (mkWorkerArgs (MapTaskNumber t1) (-1)) m;
  m ← ReceiveFinishedMap (mkWorkerArgs (MapTaskNumber t2) (-1)) m;
  '(t3, _) ← AllocateTask m;
  Some (m, t3).

(** The same, but the second task is also handed out and reported. *)
Definition late_report_run2 : option (Master * WorkerReply) :=
  m ← MakeMaster ["a"; "b"] 10;
  '(t1, m) ← AllocateTask m;
  m ← map_timeout (MapTaskNumber t1) m;
  '(t2, m) ← AllocateTask m;
  '(t3, m) ← AllocateTask m;
  m ← ReceiveFinishedMap (mkWorkerArgs (MapTaskNumber t1) (-1)) m;
  m ← ReceiveFinishedMap (mkWorkerArgs (MapTaskNumber t2) (-1)) m;
  m ← ReceiveFinishedMap (mkWorkerArgs (MapTaskNumber t3) (-1)) m;
  '(t4, _) ← AllocateTask m;
  Some (m, t4).

(** C36. A worker that reports after its timer fired breaks the job.  In the
    first run a reduce task is handed out although map task 1 has not even
    started, and executing it is fatal, whatever the application and as long as
    the file of task 1 is missing; in the second run every worker is sent home
    ("job finished") before any reduce task has started, and the job is not done. *)
Theorem late_report_breaks_job :
  (exists m t, late_report_run = Some (m, t) /\ maptasklog m = [2; 0] /\
     Tasktype t = 1 /\
     forall mapf reducef sort_by_key json read fs, fs !! (1, ReduceTaskNumber t) = None ->
       Worker mapf reducef sort_by_key json true (Some t) read fs = None) /\
  (exists m t, late_report_run2 = Some (m, t) /\ maptasklog m = [2; 2] /\
     Tasktype t = 3 /\ reducetasklog m = replicate 10 0 /\ Done m = false).
Proof.
  split.
  - do 2 eexists. split; [vm_compute; reflexivity|]. split; [done|]. split; [done|].
    intros mapf reducef srt json read fs Hf.
    assert (collect json (seqZ 0 2) 0 fs = None) as E
      by (apply (collect_missing json 1); [apply elem_of_seqZ; lia|done]).
    unfold Worker, reduce_task. cbn -[collect seqZ]. by rewrite E.
  - do 2 eexists. split; [vm_compute; reflexivity|]. by repeat split.
Qed.
