(* ===== verification/MapReduceApps.v ===== *)
(** MapReduce: the applications, and the sequential program they are tested against.

    [src/mrapps] holds the plug-ins a job runs: the two functions of [nocrash.go]
    and [early_exit.go] and the reduce functions of [wc.go] and [indexer.go] are
    below.  [src/main/mrsequential.go] runs a plug-in in one process; its output
    is what the tests compare a distributed job with. *)

From Stdlib Require Import String.
From stdpp Require Import pretty.
From S2P Require Import Prelude MapReduce MapReduceSpec.
Local Open Scope Z_scope.

(** * Strings and numbers of the Go library *)

(** [strconv.Itoa] of a length. *)
Definition Itoa (n : nat) : string := pretty n.

(** * The plug-ins *)

Definition nocrash_Map (filename contents : string) : list KeyValue :=
  [mkKeyValue "a" filename;
   mkKeyValue "b" (Itoa (String.length filename));
   mkKeyValue "c" (Itoa (String.length contents));
   mkKeyValue "d" "xyzzy"].
Definition nocrash_Reduce (key : string) (values : list string) : string :=
  String.concat " " (sort_Strings values).

Definition early_exit_Map (filename contents : string) : list KeyValue := [mkKeyValue filename "1"].
Definition early_exit_Reduce (key : string) (values : list string) : string := Itoa (length values).

Definition wc_Reduce (key : string) (values : list string) : string := Itoa (length values).
Definition indexer_Reduce (key : string) (values : list string) : string :=
  let values := sort_Strings values in
  Itoa (length values) +:+ " " +:+ String.concat "," values.

(** What an application must satisfy for the order in which the values of a key
    arrive not to matter. *)
Class OrderFree (reducef : string -> list string -> string) : Prop :=
  order_free k : Proper ((≡ₚ) ==> (=)) (reducef k).
#[export] Existing Instance order_free.

#[export] Instance nocrash_order_free : OrderFree nocrash_Reduce.
Proof. intros k v1 v2 H. unfold nocrash_Reduce. by rewrite (sort_Strings_perm v1 v2). Qed.
#[export] Instance early_exit_order_free : OrderFree early_exit_Reduce.
Proof. intros k v1 v2 H. unfold early_exit_Reduce. by rewrite H. Qed.
#[export] Instance wc_order_free : OrderFree wc_Reduce.
Proof. intros k v1 v2 H. unfold wc_Reduce. by rewrite H. Qed.
#[export] Instance indexer_order_free : OrderFree indexer_Reduce.
Proof. intros k v1 v2 H. unfold indexer_Reduce. by rewrite (sort_Strings_perm v1 v2). Qed.

(** * The sequential program *)

Section sequential.
Context (mapf : string -> string -> list KeyValue) (reducef : string -> list string -> string).
Context (sort_by_key : list KeyValue -> list KeyValue) (read : string -> option string).

(** The loop over the input files; a file that cannot be read is fatal. *)
Fixpoint map_files (fnames : list string) : option (list KeyValue) :=
  match fnames with
  | [] => Some []
  | filename :: fnames =>
      content ← read filename;
      rest ← map_files fnames;
      Some (mapf filename content ++ rest)
  end.

(** [main] on [os.Args], the functions of the plug-in given; the result is the
    lines of [mr-out-0], [None] an exit with an error. *)
Definition mrsequential (args : list string) : option (list (string * string)) :=
  if decide (zlen args < 3) then None else
  intermediate ← map_files (drop 2 args);
  let intermediate := sort_by_key intermediate in
  Some (group_loop reducef (length intermediate) intermediate).

Lemma map_files_spec fnames :
  (forall name, name ∈ fnames -> is_Some (read name)) ->
  map_files fnames = Some (all_emits mapf fnames read).
Proof.
  intros H.
  enough (map_files fnames = Some (mjoin (map (fun name => default [] (mapf name <$> read name)) fnames))) as ->.
  { f_equal. unfold all_emits. clear H. unfold zlen. f_equal.
    apply list_eq_same_length with (length fnames); rewrite ?length_map, ?length_seqZ; [lia|done|].
    intros i x y Hi Hx Hy. unfold map in *.
    apply list_lookup_fmap_Some in Hx as (name & -> & Hn).
    apply list_lookup_fmap_Some in Hy as (z & -> & [-> Hz]%lookup_seqZ).
    unfold emits. rewrite Z.add_0_l, go_index_of_nat, Hn. by destruct (read name). }
  induction fnames as [|name fnames IH]; simpl; [done|].
  destruct (H name) as [content Hc]; [by left|]. rewrite Hc. simpl.
  rewrite IH; [done|]. intros n Hn. apply H. by right.
Qed.
End sequential.
