(* ===== verification/MapReduceSeq.v ===== *)
(** MapReduce: a finished job writes what the sequential program writes.

    Both outputs are characterised by the same relation between a line and the
    pairs the map functions emit, and neither has two lines for a key; the
    values of a key may reach [reducef] in different orders, which an [OrderFree]
    application does not see. *)

From Stdlib Require Import String.
From S2P Require Import Prelude MapReduce MapReduceSpec MapReduceJob MapReduceApps.
Local Open Scope Z_scope.

Lemma NoDup_fst {A B} (l : list (A * B)) : NoDup l.*1 -> NoDup l.
Proof. apply NoDup_fmap_1. Qed.

(** Lists that are disjoint by a class of their elements. *)
Lemma NoDup_mjoin_class {A B} (cls : A -> B) (f : B -> list A) (rs : list B) :
  NoDup rs -> (forall r, r ∈ rs -> NoDup (f r) /\ forall x, x ∈ f r -> cls x = r) ->
  NoDup (mjoin (map f rs)).
Proof.
  induction rs as [|r rs IH]; intros Hnd H; simpl; [constructor|].
  apply NoDup_cons in Hnd as [Hr Hnd]. apply NoDup_app. split_and!.
  - apply H. by left.
  - intros x Hx (l & Hl & (r' & -> & Hr')%list_elem_of_fmap)%list_elem_of_join.
    destruct (H r) as [_ H1]; [by left|]. destruct (H r') as [_ H2]; [by right|].
    apply Hr. rewrite <- (H1 x Hx), (H2 x Hl). done.
  - apply IH; [done|]. intros r' Hr'. apply H. by right.
Qed.

Section equivalence.
Context (mapf : string -> string -> list KeyValue) (reducef : string -> list string -> string).
Context (sort_by_key : list KeyValue -> list KeyValue) (json : KeyValue -> KeyValue).
Context (sort_perm : forall l, sort_by_key l ≡ₚ l).
Context (sort_sorted : forall l, StronglySorted key_le (sort_by_key l)).
Context (fnames : list string) (read : string -> option string) (nred : Z).
Context `{!OrderFree reducef}.

Abbreviation emitted := (all_emits mapf fnames read).

(** The line of a key some map task emitted. *)
Definition is_line (p : string * string) : Prop :=
  (exists kv, kv ∈ emitted /\ Key kv = p.1) /\ p.2 = reducef p.1 (map Value (with_key p.1 emitted)).

Lemma with_key_elem k kvs kv : kv ∈ with_key k kvs <-> Key kv = k /\ kv ∈ kvs.
Proof. unfold with_key. by rewrite list_elem_of_filter. Qed.

Lemma output_ok_lines r out p :
  output_ok mapf reducef fnames read nred r out ->
  p ∈ out <-> Z.rem (ihash p.1) nred = r /\ is_line p.
Proof.
  intros [Hnd Hl Ha].
  assert (forall k o, (k, o) ∈ out -> Z.rem (ihash k) nred = r /\ is_line (k, o)) as Hsound.
  { intros k o Ho. destruct (Hl k o Ho) as (Hr & vs & -> & Hne & Hvs). split; [done|]. split; simpl.
    - destruct (with_key k emitted) as [|kv l] eqn:E; [by apply Permutation_nil_r in Hvs|].
      assert (kv ∈ with_key k emitted) as [? ?]%with_key_elem by (rewrite E; by left). eauto.
    - by rewrite Hvs. }
  destruct p as [k o]. split; [apply Hsound|]. simpl.
  intros [Hr [(kv & Hkv & Hk) Ho]]. simpl in *. subst o k.
  destruct (proj1 (list_elem_of_fmap _ _ _) (Ha kv Hkv Hr)) as ([k o] & Hk & Hin). simpl in Hk.
  destruct (Hsound k o Hin) as [_ [_ Ho]]. simpl in Ho. by rewrite Hk, <- Ho.
Qed.

Lemma grouped_lines l out p : l ≡ₚ emitted -> grouped reducef l out -> p ∈ out <-> is_line p.
Proof.
  intros Hl [_ Hlines Hall].
  assert (forall k, map Value (with_key k l) ≡ₚ map Value (with_key k emitted)) as Hw
    by (intros k; unfold with_key; by rewrite Hl).
  destruct p as [k o]. split.
  - intros (kv & Hkv & Hk & ->)%Hlines. split; simpl; [|by rewrite Hw].
    exists kv. by rewrite <- Hl.
  - intros [(kv & Hkv & Hk) Ho]. simpl in *. subst k o. rewrite <- Hl in Hkv.
    destruct (proj1 (list_elem_of_fmap _ _ _) (Hall kv Hkv)) as ([k o] & Hk & Hin). simpl in Hk.
    destruct (Hlines k o Hin) as (_ & _ & _ & Ho). by rewrite Hk, <- Hw, <- Ho.
Qed.

Lemma mrsequential_spec prog plugin :
  fnames <> [] -> (forall name, name ∈ fnames -> is_Some (read name)) ->
  exists out, mrsequential mapf reducef sort_by_key read (prog :: plugin :: fnames) = Some out /\
    NoDup out.*1 /\ forall p, p ∈ out <-> is_line p.
Proof.
  intros Hne Hread. unfold mrsequential. rewrite decide_False.
  2: { destruct fnames; [done|]. unfold zlen. simpl. lia. }
  simpl. rewrite map_files_spec by done. simpl. eexists. split; [done|].
  pose proof (group_loop_spec reducef _ _ (le_n _) (sort_sorted emitted)) as Hg.
  split; [apply (g_nodup _ _ _ Hg)|]. intros p. by apply (grouped_lines _ _ p (sort_perm emitted) Hg).
Qed.

Context (json_id : forall kv, kv ∈ emitted -> json kv = kv).

(** The lines of all the output files [mr-out-0], [mr-out-1], ... *)
Definition job_output (j : Job) : list (string * string) :=
  mjoin (map (fun r => default [] (jouts j !! r)) (seqZ 0 nred)).

(** C35. A distributed job whose workers are timely computes what the sequential
    program computes.  When, in a run in which no ten second timer fires while a worker
    still has the task, the master reports the job done, the lines of the output files
    taken together are, in some order, exactly the lines [mrsequential] writes for the
    same input files, although workers may have crashed and tasks have run several
    times.  The application must not depend on the order of the values of a key;
    [sort.Sort] returns a sorted permutation, and the emitted strings survive the JSON
    files. *)
Theorem mapreduce_equals_sequential j prog plugin :
  0 < nred -> fnames <> [] -> (forall name, name ∈ fnames -> is_Some (read name)) ->
  timely_reachable mapf reducef sort_by_key json fnames read nred j -> Done (jm j) = true ->
  exists out, mrsequential mapf reducef sort_by_key read (prog :: plugin :: fnames) = Some out /\
    job_output j ≡ₚ out.
Proof.
  intros Hn Hne Hread Hj Hdone.
  destruct (mrsequential_spec prog plugin Hne Hread) as (out & Hout & Hnd & Hlines).
  exists out. split; [done|].
  assert (forall r, r ∈ seqZ 0 nred ->
    output_ok mapf reducef fnames read nred r (default [] (jouts j !! r))) as Hok.
  { intros r Hr%elem_of_seqZ.
    destruct (job_outputs mapf reducef sort_by_key json fnames read nred sort_perm sort_sorted json_id
      j Hj Hdone r ltac:(lia)) as (o & -> & Ho). done. }
  apply NoDup_Permutation; [|by apply NoDup_fst|].
  - apply (NoDup_mjoin_class (fun p => Z.rem (ihash p.1) nred)); [apply NoDup_seqZ|].
    intros r Hr. specialize (Hok r Hr). split; [apply NoDup_fst, (o_nodup _ _ _ _ _ _ _ Hok)|].
    intros p Hp. by apply (output_ok_lines r _ p Hok).
  - intros p. rewrite Hlines. unfold job_output. rewrite list_elem_of_join. split.
    + intros (l & Hp & (r & -> & Hr)%list_elem_of_fmap).
      by apply (output_ok_lines r _ p (Hok r Hr)).
    + intros Hp. set (r := Z.rem (ihash p.1) nred).
      assert (r ∈ seqZ 0 nred) as Hr.
      { apply elem_of_seqZ. pose proof (bucket_range nred (mkKeyValue p.1 "") Hn) as H. simpl in H.
        unfold r. lia. }
      exists (default [] (jouts j !! r)). split; [by apply (output_ok_lines r _ p (Hok r Hr))|].
      apply list_elem_of_fmap. eauto.
Qed.
End equivalence.
