(* ===== verification/MapReduceWitness.v ===== *)
(** MapReduce: the theorems applied to a small job with a concrete application,
    two input files and two reduce tasks. *)

From Stdlib Require Import String.
From S2P Require Import Prelude MapReduce MapReduceSpec MapReduceJob MapReduceApps MapReduceSeq.
Local Open Scope Z_scope.

(** The application of [nocrash.go]. *)
Abbreviation ex_mapf := nocrash_Map.
Abbreviation ex_reducef := nocrash_Reduce.
Definition ex_files : list string := ["a"; "b"].
Definition ex_read (name : string) : option string :=
  if decide (name = "a") then Some "w" else if decide (name = "b") then Some "xyz" else None.
Definition ex_json (kv : KeyValue) : KeyValue := kv.

#[local] Instance key_le_dec (a b : KeyValue) : Decision (key_le a b).
Proof. unfold key_le. apply _. Defined.
Definition ex_sort (l : list KeyValue) : list KeyValue := merge_sort key_le l.

Lemma key_le_leb a b : key_le a b <-> String.le (Key a) (Key b).
Proof.
  unfold key_le, Less, String.le, String.leb, String.ltb.
  rewrite (String.compare_antisym (Key b) (Key a)).
  destruct (String.compare (Key a) (Key b)); simpl; naive_solver.
Qed.

Lemma ex_sort_perm l : ex_sort l ≡ₚ l.
Proof. apply merge_sort_Permutation. Qed.
Lemma ex_sort_sorted l : StronglySorted key_le (ex_sort l).
Proof.
  apply StronglySorted_merge_sort.
  - intros a b c. rewrite !key_le_leb. apply transitivity.
  - intros a b. rewrite !key_le_leb. apply (total String.le).
Qed.

Lemma mapreduce_tasks_correct_witness : exists fs out fs',
  run_maps ex_mapf ex_files ex_read 2 [1; 0; 1] ∅ = Some fs /\
  reduce_task ex_reducef ex_sort ex_json (mkWorkerReply 1 2 0 0 "" 1) fs = Some (out, fs') /\
  output_ok ex_mapf ex_reducef ex_files ex_read 2 1 out.
Proof.
  apply (mapreduce_tasks_correct ex_mapf ex_reducef ex_sort ex_json ex_sort_perm ex_sort_sorted
    ex_files ex_read 2 (fun _ _ => eq_refl) [1; 0; 1] 1).
  - lia.
  - lia.
  - intros i. rewrite !elem_of_cons, elem_of_nil. change (zlen ex_files) with 2. lia.
  - intros name Hn. apply elem_of_cons in Hn as [->|Hn]; [done|].
    apply elem_of_cons in Hn as [->|Hn]; [done|]. by apply elem_of_nil in Hn.
Defined.

Definition ex_fs : Files := default ∅ (run_maps ex_mapf ex_files ex_read 2 [0; 1] ∅).

Lemma reduce_task_not_repeatable_witness : exists out fs',
  reduce_task ex_reducef ex_sort ex_json (mkWorkerReply 1 2 0 0 "" 1) ex_fs = Some (out, fs') /\
  Worker ex_mapf ex_reducef ex_sort ex_json true (Some (mkWorkerReply 1 2 0 0 "" 1)) ex_read fs' = None.
Proof.
  destruct (reduce_task ex_reducef ex_sort ex_json (mkWorkerReply 1 2 0 0 "" 1) ex_fs) as [[out fs']|] eqn:E.
  - exists out, fs'. split; [done|].
    refine (reduce_task_not_repeatable ex_mapf ex_reducef ex_sort ex_json ex_read
      (mkWorkerReply 1 2 0 0 "" 1) ex_fs out fs' _ E). done.
  - vm_compute in E. discriminate E.
Defined.

(** An executable scheduler: each action is a step on the task or report at the
    head of its list. *)
Inductive Act := Ask | Exec | ReportMap | ReportReduce | Crash | Timer (a : Z).

Abbreviation ex_step := (timely_step ex_mapf ex_reducef ex_sort ex_json ex_read).

Definition exec (a : Act) (j : Job) : option Job :=
  let '(mkJob m fs outs tasks md rd) := j in
  match a with
  | Ask => '(t, m') ← AllocateTask m;
           if decide (Tasktype t = 0 \/ Tasktype t = 1)
           then Some (mkJob m' fs outs (t :: tasks) md rd) else None
  | Exec => t ← head tasks;
      match Worker ex_mapf ex_reducef ex_sort ex_json true (Some t) ex_read fs with
      | Some (WMap fs' r) => Some (mkJob m fs' outs (tail tasks) (r :: md) rd)
      | Some (WReduce o fs' r) =>
          Some (mkJob m fs' (<[aReduceTaskNumber r := o]> outs) (tail tasks) md (r :: rd))
      | _ => None
      end
  | ReportMap => r ← head md; m' ← ReceiveFinishedMap r m; Some (mkJob m' fs outs tasks (tail md) rd)
  | ReportReduce => r ← head rd; m' ← ReceiveFinishedReduce r m; Some (mkJob m' fs outs tasks md (tail rd))
  | Crash => _ ← head tasks; Some (mkJob m fs outs (tail tasks) md rd)
  | Timer a => if decide (a ∈ live_map tasks md) then None else
      m' ← map_timeout a m; Some (mkJob m' fs outs tasks md rd)
  end.

Fixpoint exec_all (l : list Act) (j : Job) : option Job :=
  match l with [] => Some j | a :: l => j' ← exec a j; exec_all l j' end.

Lemma exec_sound a j j' : exec a j = Some j' -> ex_step j j'.
Proof.
  destruct j as [m fs outs tasks md rd], a; simpl; intros H.
  - apply bind_Some in H as ([t m'] & H1 & H2). case_decide; [|done]. injection H2 as <-.
    exists Work; split; [by apply j_alloc|simpl; tauto].
  - destruct tasks as [|t tasks]; [done|]. simpl head in H. simpl tail in H. simpl mbind in H.
    destruct (Worker _ _ _ _ _ _ _ _) as [[]|] eqn:E; try done; injection H as <-.
    + exists Work; split; [by eapply j_map|simpl; tauto].
    + exists Work; split; [by eapply j_reduce|simpl; tauto].
  - destruct md as [|r md]; [done|]. simpl in H. apply bind_Some in H as (m' & H1 & [= <-]).
    exists Work; split; [by eapply j_report_map|simpl; tauto].
  - destruct rd as [|r rd]; [done|]. simpl in H. apply bind_Some in H as (m' & H1 & [= <-]).
    exists Work; split; [by eapply j_report_reduce|simpl; tauto].
  - destruct tasks as [|t tasks]; [done|]. injection H as <-. exists Work; split; [by eapply j_crash|simpl; tauto].
  - case_decide; [done|]. apply bind_Some in H as (m' & H1 & [= <-]). exists (MapTimer a); split; [by eapply j_map_timeout|simpl; tauto].
Qed.

Lemma exec_all_sound l : forall j j', exec_all l j = Some j' -> rtc ex_step j j'.
Proof.
  induction l as [|a l IH]; simpl; intros j j' H; [injection H as <-; constructor|].
  apply bind_Some in H as (j1 & H1 & H2). eapply rtc_l; [by eapply exec_sound|by apply IH].
Qed.

(** A worker dies with map task 0, which is handed out again. *)
Definition ex_acts : list Act :=
  [Ask; Crash; Timer 0; Ask; Ask; Exec; Exec; ReportMap; ReportMap;
   Ask; Ask; Exec; Exec; ReportReduce; ReportReduce].
Definition ex_job0 : Job :=
  mkJob (mkMaster 2 2 ex_files 0 [0; 0] 0 [0; 0]) ∅ ∅ [] [] [].
Definition ex_job : Job := default ex_job0 (exec_all ex_acts ex_job0).

Lemma ex_timely_reachable :
  timely_reachable ex_mapf ex_reducef ex_sort ex_json ex_files ex_read 2 ex_job.
Proof.
  exists ex_job0. split.
  - eexists. split; [|reflexivity]. reflexivity.
  - apply (exec_all_sound ex_acts). vm_compute. reflexivity.
Qed.

Lemma mapreduce_done_correct_witness :
  Done (jm ex_job) = true /\
  (exists out, jouts ex_job !! 0 = Some out /\
    output_ok ex_mapf ex_reducef ex_files ex_read 2 0 out) /\
  (forall i, 0 <= i < 2 -> jfs ex_job !! (i, 0) = None).
Proof.
  assert (Done (jm ex_job) = true) as Hd by (vm_compute; reflexivity).
  split; [exact Hd|].
  apply (mapreduce_done_correct ex_mapf ex_reducef ex_sort ex_json ex_files ex_read 2
    ex_sort_perm ex_sort_sorted (fun _ _ => eq_refl) ex_job ex_timely_reachable Hd 0). lia.
Defined.

Lemma mapreduce_equals_sequential_witness : exists out,
  mrsequential ex_mapf ex_reducef ex_sort ex_read ["mrsequential"; "nocrash.so"; "a"; "b"] = Some out /\
  job_output 2 ex_job ≡ₚ out.
Proof.
  refine (mapreduce_equals_sequential ex_mapf ex_reducef ex_sort ex_json ex_sort_perm ex_sort_sorted
    ex_files ex_read 2 (fun _ _ => eq_refl) ex_job "mrsequential" "nocrash.so" _ _ _ ex_timely_reachable _).
  - lia.
  - discriminate.
  - intros name Hn. apply elem_of_cons in Hn as [->|Hn]; [done|].
    apply elem_of_cons in Hn as [->|Hn]; [done|]. by apply elem_of_nil in Hn.
  - vm_compute. reflexivity.
Defined.

(** The lines both write: the file names, their lengths, the lengths of their
    contents, and a constant. *)
Example ex_outputs :
  mrsequential ex_mapf ex_reducef ex_sort ex_read ["mrsequential"; "nocrash.so"; "a"; "b"] =
    Some [("a", "a b"); ("b", "1 1"); ("c", "1 3"); ("d", "xyzzy xyzzy")] /\
  bool_decide (job_output 2 ex_job ⊆ [("a", "a b"); ("b", "1 1"); ("c", "1 3"); ("d", "xyzzy xyzzy")]) = true.
Proof. split; vm_compute; reflexivity. Qed.
