(* ===== verification/Bitset.v ===== *)
(** The bit sets of the linearizability checker: [src/src/porcupine/bitset.go].

    A set of operation numbers is a slice of 64-bit words.  Every operation is
    shown to be the operation of the same name on finite sets of numbers. *)

From S2P Require Import Prelude.
Local Open Scope Z_scope.

(** * bitset.go *)

Definition bitset := list Z.

Definition newBitset (bits : Z) : bitset :=
  let extra := if decide (bits mod 64 <> 0) then 1 else 0 in
  let chunks := bits / 64 + extra in
  replicate (Z.to_nat chunks) 0.

Definition clone (b : bitset) : bitset := go_copy (replicate (length b) 0) b.

Definition bitsetIndex (pos : Z) : Z * Z := (pos / 64, pos mod 64).

Definition set (b : bitset) (pos : Z) : option bitset :=
  let '(major, minor) := bitsetIndex pos in
  w ← b.[major]; go_store b major (Z.lor w (Z.shiftl 1 minor)).

Definition clear (b : bitset) (pos : Z) : option bitset :=
  let '(major, minor) := bitsetIndex pos in
  w ← b.[major]; go_store b major (Z.ldiff w (Z.shiftl 1 minor)).

Definition get (b : bitset) (pos : Z) : option bool :=
  let '(major, minor) := bitsetIndex pos in
  w ← b.[major]; Some (negb (Z.land w (Z.shiftl 1 minor) =? 0)).

(** [bits.OnesCount64]. *)
Definition OnesCount64 (w : Z) : Z := zlen (filter (fun i => Z.testbit w i = true) (seqZ 0 64)).

Definition popcnt (b : bitset) : Z := foldl (fun total v => total + OnesCount64 v) 0 b.

Definition hash (b : bitset) : Z := foldl Z.lxor (popcnt b mod 2 ^ 64) b.

Fixpoint equal_words (b b2 : bitset) : bool :=
  match b, b2 with
  | v :: b, v2 :: b2 => if decide (v = v2) then equal_words b b2 else false
  | _, _ => true
  end.
Definition equals (b b2 : bitset) : bool :=
  if decide (length b = length b2) then equal_words b b2 else false.

(** * The set a bit set stands for *)

Definition bit (b : bitset) (pos : Z) : bool :=
  match b.[pos / 64] with Some w => Z.testbit w (pos mod 64) | None => false end.

(** [b] has the words of a set of at most [n] bits and holds exactly [S]. *)
Record holds (n : Z) (b : bitset) (S : gset Z) : Prop := {
  h_len : length b = length (newBitset n);
  h_words : forall i w, b.[i] = Some w -> 0 <= w < 2 ^ 64;
  h_bits : forall pos, 0 <= pos -> bit b pos = true <-> pos ∈ S;
  h_range : forall pos, pos ∈ S -> 0 <= pos < n
}.

Lemma chunks_cover n pos : 0 <= pos < n -> 0 <= pos / 64 < zlen (newBitset n).
Proof.
  intros H. unfold newBitset, zlen. rewrite length_replicate.
  pose proof (Z.div_mod n 64 ltac:(lia)). pose proof (Z.mod_pos_bound n 64 ltac:(lia)).
  pose proof (Z.div_pos pos 64 ltac:(lia) ltac:(lia)).
  assert (pos / 64 <= n / 64) by (apply Z.div_le_mono; lia).
  case_decide as E; [lia|]. split; [lia|].
  enough (pos / 64 < n / 64) by lia. apply Z.div_lt_upper_bound; lia.
Qed.

Lemma word_bound w : 0 <= w -> (forall i, 64 <= i -> Z.testbit w i = false) -> w < 2 ^ 64.
Proof.
  intros H0 H. destruct (decide (w = 0)) as [->|]; [done|].
  apply Z.log2_lt_pow2; [lia|]. destruct (Z.lt_ge_cases (Z.log2 w) 64) as [|Hge]; [done|].
  specialize (H _ Hge). rewrite Z.bit_log2 in H by lia. done.
Qed.

Lemma high_bits w i : 0 <= w < 2 ^ 64 -> 64 <= i -> Z.testbit w i = false.
Proof.
  intros Hw Hi. destruct (decide (w = 0)) as [->|]; [apply Z.bits_0|].
  apply Z.bits_above_log2; [lia|]. apply Z.lt_le_trans with 64; [|done].
  apply Z.log2_lt_pow2; lia.
Qed.

Lemma shifted_bit minor i : 0 <= minor -> 0 <= i -> Z.testbit (Z.shiftl 1 minor) i = bool_decide (i = minor).
Proof.
  intros Hm Hi. rewrite Z.shiftl_spec by done. case_bool_decide as E.
  - subst. by rewrite Z.sub_diag.
  - destruct (Z.lt_ge_cases i minor); [apply Z.testbit_neg_r; lia|].
    apply (Z.bits_above_log2 1); simpl; lia.
Qed.

(** Replacing one word by one whose bits are decided by [f]. *)
Lemma holds_store n b S pos w w' S' :
  holds n b S -> 0 <= pos < n -> b.[pos / 64] = Some w ->
  0 <= w' -> (forall i, 64 <= i -> Z.testbit w' i = false) ->
  (forall i, 0 <= i < 64 -> Z.testbit w' i = true <-> 64 * (pos / 64) + i ∈ S') ->
  (forall p, p / 64 <> pos / 64 -> p ∈ S' <-> p ∈ S) ->
  (forall p, p ∈ S' -> 0 <= p < n) ->
  exists b', go_store b (pos / 64) w' = Some b' /\ holds n b' S'.
Proof.
  intros [Hlen Hw Hb Hr] Hpos Hidx H0 Hhigh Hbits Hother Hrange.
  pose proof (go_index_Some_lt _ _ _ Hidx) as Hlt.
  rewrite go_store_Some by done. eexists. split; [done|]. split.
  - by rewrite length_insert.
  - intros i v. rewrite go_index_insert by done. case_decide; [|by apply Hw].
    intros [= <-]. split; [done|]. by apply word_bound.
  - intros p Hp. unfold bit. rewrite go_index_insert by done. case_decide as E.
    + rewrite Hbits by (apply Z.mod_pos_bound; lia). rewrite <- E.
      by rewrite <- (Z.div_mod p 64) by lia.
    + rewrite (Hother p E). rewrite <- (Hb p Hp). done.
  - done.
Qed.

Lemma split_pos pos i : 0 <= i < 64 -> (64 * (pos / 64) + i) = pos <-> i = pos mod 64.
Proof. intros Hi. pose proof (Z.div_mod pos 64 ltac:(lia)). lia. Qed.

Lemma word_bits n b S pos w i :
  holds n b S -> 0 <= pos -> b.[pos / 64] = Some w -> 0 <= i < 64 ->
  Z.testbit w i = true <-> 64 * (pos / 64) + i ∈ S.
Proof.
  intros Hh Hpos Hidx Hi. pose proof (Z.div_pos pos 64 Hpos ltac:(lia)).
  rewrite <- (h_bits _ _ _ Hh) by lia. unfold bit.
  replace ((64 * (pos / 64) + i) / 64) with (pos / 64)
    by (rewrite (Z.mul_comm 64), Z.div_add_l by lia; rewrite (Z.div_small i 64) by lia; lia).
  rewrite Hidx. by rewrite (Z.mul_comm 64), Z.add_comm, Z.mod_add, Z.mod_small by lia.
Qed.

Lemma holds_index n b S pos : holds n b S -> 0 <= pos < n -> exists w, b.[pos / 64] = Some w /\ 0 <= w < 2 ^ 64.
Proof.
  intros Hh Hpos. destruct (go_index_is_Some b (pos / 64)) as [w Hw].
  { unfold zlen. rewrite (h_len _ _ _ Hh). by apply chunks_cover. }
  exists w. split; [done|]. by eapply h_words.
Qed.

Lemma newBitset_holds n : holds n (newBitset n) ∅.
Proof.
  assert (forall i w, (newBitset n).[i] = Some w -> w = 0) as H0.
  { intros i w Hi. unfold newBitset, go_index in Hi. case_decide; [|done].
    by apply lookup_replicate_1 in Hi as [-> _]. }
  split; [done| | |set_solver].
  - intros i w ->%H0. lia.
  - intros pos Hpos. unfold bit. destruct (_.[_]) as [w|] eqn:E; [|set_solver].
    apply H0 in E as ->. rewrite Z.bits_0. set_solver.
Qed.

Lemma clone_same b : clone b = b.
Proof. apply go_copy_full. by rewrite length_replicate. Qed.

Lemma set_holds n b S pos :
  holds n b S -> 0 <= pos < n -> exists b', set b pos = Some b' /\ holds n b' (S ∪ {[pos]}).
Proof.
  intros Hh Hpos. unfold set, bitsetIndex. pose proof (Z.mod_pos_bound pos 64 ltac:(lia)).
  destruct (holds_index n b S pos Hh Hpos) as (w & Hw & Hb). rewrite Hw. simpl.
  eapply (holds_store n b S); try done.
  - apply Z.lor_nonneg. split; [lia|]. by apply Z.shiftl_nonneg.
  - intros i Hi. rewrite Z.lor_spec, shifted_bit, bool_decide_eq_false_2 by lia.
    by rewrite high_bits.
  - intros i Hi. rewrite Z.lor_spec, shifted_bit, orb_true_iff, bool_decide_eq_true by lia.
    rewrite (word_bits n b S pos w i) by (done || lia). rewrite <- split_pos by done. set_solver.
  - intros p Hp. assert (p <> pos) by congruence. set_solver.
  - intros p [?%(h_range _ _ _ Hh)| ->%elem_of_singleton]%elem_of_union; done.
Qed.

Lemma clear_holds n b S pos :
  holds n b S -> 0 <= pos < n -> exists b', clear b pos = Some b' /\ holds n b' (S ∖ {[pos]}).
Proof.
  intros Hh Hpos. unfold clear, bitsetIndex. pose proof (Z.mod_pos_bound pos 64 ltac:(lia)).
  destruct (holds_index n b S pos Hh Hpos) as (w & Hw & Hb). rewrite Hw. simpl.
  eapply (holds_store n b S); try done.
  - apply Z.ldiff_nonneg. left. lia.
  - intros i Hi. rewrite Z.ldiff_spec. by rewrite high_bits.
  - intros i Hi. rewrite Z.ldiff_spec, shifted_bit, andb_true_iff, negb_true_iff, bool_decide_eq_false by lia.
    rewrite (word_bits n b S pos w i) by (done || lia). rewrite <- split_pos by done. set_solver.
  - intros p Hp. assert (p <> pos) by congruence. set_solver.
  - intros p [?%(h_range _ _ _ Hh) _]%elem_of_difference. done.
Qed.

Lemma get_holds n b S pos :
  holds n b S -> 0 <= pos < n -> get b pos = Some (bool_decide (pos ∈ S)).
Proof.
  intros Hh Hpos. unfold get, bitsetIndex. pose proof (Z.mod_pos_bound pos 64 ltac:(lia)).
  destruct (holds_index n b S pos Hh Hpos) as (w & Hw & Hb). rewrite Hw. simpl. f_equal.
  apply eq_true_iff_eq. rewrite bool_decide_eq_true, <- (h_bits _ _ _ Hh) by lia.
  unfold bit. rewrite Hw, negb_true_iff, Z.eqb_neq. split.
  - intros Hne. destruct (Z.testbit w (pos mod 64)) eqn:E; [done|]. exfalso. apply Hne.
    apply Z.bits_inj'. intros i Hi. rewrite Z.land_spec, Z.bits_0, shifted_bit by lia.
    case_bool_decide; [subst; by rewrite E|apply andb_false_r].
  - intros Hbit Hz. apply (f_equal (fun x => Z.testbit x (pos mod 64))) in Hz.
    rewrite Z.land_spec, Z.bits_0, Hbit, shifted_bit, bool_decide_eq_true_2 in Hz by lia. done.
Qed.

Lemma equal_words_spec b b2 : length b = length b2 -> equal_words b b2 = true <-> b = b2.
Proof.
  revert b2. induction b as [|v b IH]; intros [|v2 b2] Hl; simpl in *; try done.
  case_decide; [|naive_solver]. rewrite IH by lia. naive_solver.
Qed.

Lemma equals_spec b b2 : equals b b2 = true <-> b = b2.
Proof.
  unfold equals. case_decide; [by apply equal_words_spec|]. split; [done|]. by intros ->.
Qed.

(** Equal sets have equal words. *)
Lemma holds_inj n b1 b2 S : holds n b1 S -> holds n b2 S -> b1 = b2.
Proof.
  intros H1 H2. apply go_index_ext.
  { unfold zlen. by rewrite (h_len _ _ _ H1), (h_len _ _ _ H2). }
  intros i Hi. destruct (go_index_is_Some b1 i Hi) as [w1 E1].
  destruct (go_index_is_Some b2 i) as [w2 E2].
  { unfold zlen in *. by rewrite (h_len _ _ _ H2), <- (h_len _ _ _ H1). }
  rewrite E1, E2. f_equal. apply Z.bits_inj'. intros k Hk.
  destruct (Z.lt_ge_cases k 64) as [Hk'|Hk'].
  - apply eq_true_iff_eq.
    assert (64 * i / 64 = i) as Ei by (rewrite Z.mul_comm; apply Z.div_mul; lia).
    rewrite (word_bits n b1 S (64 * i) w1 k), (word_bits n b2 S (64 * i) w2 k);
      rewrite ?Ei; try done; lia.
  - rewrite !high_bits; [done|by apply (h_words _ _ _ H2 _ _ E2)|done|by apply (h_words _ _ _ H1 _ _ E1)|done].
Qed.

Lemma holds_det n b S1 S2 : holds n b S1 -> holds n b S2 -> S1 = S2.
Proof.
  intros H1 H2. apply set_eq. intros p. split; intros Hp.
  - apply (h_bits _ _ _ H2); [by apply (h_range _ _ _ H1)|].
    apply (h_bits _ _ _ H1); [by apply (h_range _ _ _ H1)|done].
  - apply (h_bits _ _ _ H1); [by apply (h_range _ _ _ H2)|].
    apply (h_bits _ _ _ H2); [by apply (h_range _ _ _ H2)|done].
Qed.

(** * Counting *)

Lemma popcnt_snoc b w : popcnt (b ++ [w]) = popcnt b + OnesCount64 w.
Proof. unfold popcnt. by rewrite foldl_app. Qed.

Lemma bit_app_l b w p : p / 64 < zlen b -> bit (b ++ [w]) p = bit b p.
Proof. intros H. unfold bit. by rewrite go_index_app_l. Qed.

Lemma bit_app_r b w i : 0 <= i < 64 -> bit (b ++ [w]) (64 * zlen b + i) = Z.testbit w i.
Proof.
  intros Hi. unfold bit. rewrite (Z.mul_comm 64), Z.div_add_l by lia.
  rewrite (Z.div_small i 64), Z.add_0_r, go_index_app_r, Z.sub_diag by lia. simpl.
  by rewrite Z.add_comm, Z.mod_add, Z.mod_small by lia.
Qed.

Lemma filter_shift (f g : Z -> bool) k n :
  (forall i, 0 <= i < n -> f (k + i) = g i) ->
  length (filter (fun p => f p = true) (seqZ k n)) = length (filter (fun i => g i = true) (seqZ 0 n)).
Proof.
  intros H. replace (seqZ k n) with (Z.add k <$> seqZ 0 n)
    by (rewrite fmap_add_seqZ; f_equal; lia).
  assert (Forall (fun i => 0 <= i < n) (seqZ 0 n)) as Hall
    by (apply Forall_forall; intros i Hi%elem_of_seqZ; lia).
  induction (seqZ 0 n) as [|i l IH]; [done|]. apply Forall_cons in Hall as [Hi Hall].
  rewrite fmap_cons, !filter_cons, H by done. case_decide; simpl; by rewrite IH.
Qed.

Lemma popcnt_bits b :
  popcnt b = zlen (filter (fun p => bit b p = true) (seqZ 0 (64 * zlen b))).
Proof.
  induction b as [|w b IH] using rev_ind; [done|].
  rewrite popcnt_snoc, IH, zlen_app. change (zlen [w]) with 1. pose proof (zlen_nonneg b).
  rewrite Z.mul_add_distr_l, (seqZ_app 0) by lia. rewrite filter_app, zlen_app. f_equal.
  - f_equal. apply filter_agree. apply Forall_forall. intros p Hp%elem_of_seqZ.
    rewrite bit_app_l; [done|]. apply Z.div_lt_upper_bound; lia.
  - unfold OnesCount64. rewrite Z.add_0_l. unfold zlen at 1 2. f_equal. symmetry.
    apply filter_shift. intros i Hi. apply bit_app_r. lia.
Qed.

Lemma popcnt_holds n b S : holds n b S -> popcnt b = Z.of_nat (size S).
Proof.
  intros Hh. rewrite popcnt_bits. unfold zlen at 1. f_equal.
  rewrite <- (size_list_to_set (C := gset Z)) by apply NoDup_filter, NoDup_seqZ.
  f_equal. apply set_eq. intros p.
  rewrite elem_of_list_to_set, list_elem_of_filter, elem_of_seqZ. split.
  - intros [Hb Hp]. apply (h_bits _ _ _ Hh); [lia|done].
  - intros Hp. pose proof (h_range _ _ _ Hh p Hp) as Hr. split; [apply (h_bits _ _ _ Hh); [lia|done]|].
    pose proof (chunks_cover n p Hr) as Hc. unfold zlen in *. rewrite (h_len _ _ _ Hh).
    pose proof (Z.div_mod p 64 ltac:(lia)). pose proof (Z.mod_pos_bound p 64 ltac:(lia)). lia.
Qed.

(** * Sequences of operations *)

Inductive BitOp := OpSet (pos : Z) | OpClear (pos : Z).
Definition op_pos (o : BitOp) : Z := match o with OpSet p | OpClear p => p end.

Definition run_op (b : bitset) (o : BitOp) : option bitset :=
  match o with OpSet p => set b p | OpClear p => clear b p end.
Definition denote_op (S : gset Z) (o : BitOp) : gset Z :=
  match o with OpSet p => S ∪ {[p]} | OpClear p => S ∖ {[p]} end.

Fixpoint run_ops (b : bitset) (os : list BitOp) : option bitset :=
  match os with [] => Some b | o :: os => b ← run_op b o; run_ops b os end.
Definition denote (os : list BitOp) : gset Z := foldl denote_op ∅ os.

Lemma run_ops_holds n os : forall b S,
  holds n b S -> Forall (fun o => 0 <= op_pos o < n) os ->
  exists b', run_ops b os = Some b' /\ holds n b' (foldl denote_op S os).
Proof.
  induction os as [|o os IH]; intros b S Hh Hr; [by exists b|].
  apply Forall_cons in Hr as [Ho Hr].
  assert (exists b', run_op b o = Some b' /\ holds n b' (denote_op S o)) as (b1 & E & H1).
  { destruct o; [by apply set_holds|by apply clear_holds]. }
  simpl. rewrite E. simpl. by apply IH.
Qed.

(** A bit set implements a finite set of numbers below its size: whatever
    sequence of [set] and [clear] calls built it, no call panics, [get] decides
    membership, [popcnt] is the number of elements, and two bit sets are
    [equals] exactly when the sets are the same, in which case they also have
    the same [hash]. *)
Theorem bitset_refines_set n os1 os2 :
  Forall (fun o => 0 <= op_pos o < n) os1 -> Forall (fun o => 0 <= op_pos o < n) os2 ->
  exists b1 b2, run_ops (newBitset n) os1 = Some b1 /\ run_ops (newBitset n) os2 = Some b2 /\
    (forall pos, 0 <= pos < n -> get b1 pos = Some (bool_decide (pos ∈ denote os1))) /\
    popcnt b1 = Z.of_nat (size (denote os1)) /\
    (equals b1 (clone b2) = true <-> denote os1 = denote os2) /\
    (denote os1 = denote os2 -> hash b1 = hash b2).
Proof.
  intros H1 H2.
  destruct (run_ops_holds n os1 _ _ (newBitset_holds n) H1) as (b1 & E1 & Hb1).
  destruct (run_ops_holds n os2 _ _ (newBitset_holds n) H2) as (b2 & E2 & Hb2).
  exists b1, b2. split_and!; [done|done| | | |].
  - intros pos Hpos. by apply (get_holds n).
  - by apply (popcnt_holds n).
  - rewrite clone_same, equals_spec. unfold denote. split.
    + intros ->. by apply (holds_det n b2).
    + intros E. rewrite E in Hb1. by apply (holds_inj n _ _ _ Hb1).
  - unfold denote. intros E. rewrite E in Hb1. by rewrite (holds_inj n _ _ _ Hb1 Hb2).
Qed.

(** Bits on both sides of a word boundary. *)
Lemma bitset_refines_set_witness : exists b1 b2,
  run_ops (newBitset 70) [OpSet 63; OpSet 64; OpSet 3; OpClear 63] = Some b1 /\
  run_ops (newBitset 70) [OpSet 3; OpSet 64] = Some b2 /\
  (forall pos, 0 <= pos < 70 -> get b1 pos = Some (bool_decide (pos ∈ denote [OpSet 63; OpSet 64; OpSet 3; OpClear 63]))) /\
  popcnt b1 = Z.of_nat (size (denote [OpSet 63; OpSet 64; OpSet 3; OpClear 63])) /\
  (equals b1 (clone b2) = true <->
     denote [OpSet 63; OpSet 64; OpSet 3; OpClear 63] = denote [OpSet 3; OpSet 64]) /\
  (denote [OpSet 63; OpSet 64; OpSet 3; OpClear 63] = denote [OpSet 3; OpSet 64] -> hash b1 = hash b2).
Proof.
  apply (bitset_refines_set 70 [OpSet 63; OpSet 64; OpSet 3; OpClear 63] [OpSet 3; OpSet 64]);
    rewrite !Forall_cons; simpl; split_and!; try apply Forall_nil_2; lia.
Defined.

Example bitset_run : run_ops (newBitset 70) [OpSet 63; OpSet 64; OpSet 3; OpClear 63] = Some [8; 1].
Proof. reflexivity. Qed.
