(* ===== verification/Porcupine.v ===== *)
(** The linearizability checker the tests use: [src/src/porcupine/model.go],
    [checker.go] and [porcupine.go].

    A history is turned into a doubly linked list of call and return nodes.
    [checkSingle] searches for a linearization: it removes ("lifts") a call that
    may come next together with its return, and puts them back when it has to
    give the choice up.  The nodes live in an explicit heap, so that the
    mutation of the links is the code's. *)

From Stdlib Require Import String.
From S2P Require Import Prelude Bitset.
Local Open Scope Z_scope.

Section porcupine.
(** [V] is what an [interface{}] of a history holds and [St] what one of a model
    state holds; [nilV] is the nil value.  The [%v] formatting of values is a
    parameter. *)
Context {V St : Type} `{!EqDecision St} (nilV : V).
Context (fmt_op : V -> V -> string) (fmt_state : St -> string).

(** * model.go *)

Record Operation := mkOperation { oClientId : Z; Input : V; Call : Z; Output : V; Return : Z }.

Inductive EventKind := CallEvent | ReturnEvent.
#[local] Instance EventKind_eq_dec : EqDecision EventKind.
Proof. solve_decision. Defined.
Record Event := mkEvent { eClientId : Z; Kind : EventKind; eValue : V; Id : Z }.

(** A field that may be left nil is an option.  A partition, a [Step] or a
    description that panics (a failed type assertion) is [None]. *)
Record Model := mkModel {
  Partition : option (list Operation -> option (list (list Operation)));
  PartitionEvent : option (list Event -> option (list (list Event)));
  Init : St;
  Step : St -> V -> V -> option (bool * St);
  Equal : option (St -> St -> bool);
  DescribeOperation : option (V -> V -> option string);
  DescribeState : option (St -> string)
}.

Definition NoPartition (history : list Operation) : option (list (list Operation)) := Some [history].
Definition NoPartitionEvent (history : list Event) : option (list (list Event)) := Some [history].
Definition ShallowEqual (state1 state2 : St) : bool := bool_decide (state1 = state2).
Definition DefaultDescribeOperation (input output : V) : option string := Some (fmt_op input output).
Definition DefaultDescribeState (state : St) : string := fmt_state state.

Inductive CheckResult := Unknown | Ok | Illegal.

(** * Entries *)

Inductive entryKind := callEntry | returnEntry.
#[local] Instance entryKind_eq_dec : EqDecision entryKind.
Proof. solve_decision. Defined.
Record entry := mkEntry { kind : entryKind; value : V; id : Z; time : Z; clientId : Z }.

Definition Less (a b : entry) : bool :=
  if decide (time a <> time b) then bool_decide (time a < time b)
  else bool_decide (kind a = callEntry) && bool_decide (kind b = returnEntry).

(** [sort.Sort(byTime(entries))]. *)
Context (sort_by_time : list entry -> list entry).

Fixpoint op_entries (id : Z) (history : list Operation) : list entry :=
  match history with
  | [] => []
  | elem :: history =>
      mkEntry callEntry (Input elem) id (Call elem) (oClientId elem) ::
      mkEntry returnEntry (Output elem) id (Return elem) (oClientId elem) ::
      op_entries (id + 1) history
  end.
Definition makeEntries (history : list Operation) : list entry := sort_by_time (op_entries 0 history).

Fixpoint renumber_loop (events : list Event) (m : gmap Z Z) (id : Z) : list Event :=
  match events with
  | [] => []
  | v :: events =>
      match m !! Id v with
      | Some r => mkEvent (eClientId v) (Kind v) (eValue v) r :: renumber_loop events m id
      | None => mkEvent (eClientId v) (Kind v) (eValue v) id ::
                renumber_loop events (<[Id v := id]> m) (id + 1)
      end
  end.
Definition renumber (events : list Event) : list Event := renumber_loop events ∅ 0.

Definition convertEntries (events : list Event) : list entry :=
  imap (fun i elem =>
    mkEntry (if decide (Kind elem = ReturnEvent) then returnEntry else callEntry)
      (eValue elem) (Id elem) (Z.of_nat i) (eClientId elem)) events.

(** * Nodes *)

Abbreviation loc := nat.
Record node := mkNode { nvalue : V; match_ : option loc; nid : Z; next : option loc; prev : option loc }.

Definition set_next (x : option loc) (n : node) : node :=
  mkNode (nvalue n) (match_ n) (nid n) x (prev n).
Definition set_prev (x : option loc) (n : node) : node :=
  mkNode (nvalue n) (match_ n) (nid n) (next n) x.

(** The heap; [&node{...}] allocates at the end. *)
Local Abbreviation heap := (list node).
Definition alloc (n : node) (h : heap) : loc * heap := (length h, h ++ [n]).
Definition upd (l : loc) (f : node -> node) (h : heap) : option heap :=
  _ ← h !! l; Some (alter f l h).

Definition insertBefore (n : loc) (mark : option loc) (h : heap) : option heap :=
  match mark with
  | None => Some h
  | Some mark =>
      nm ← h !! mark;
      let beforeMark := prev nm in
      h ← upd mark (set_prev (Some n)) h;
      h ← upd n (set_next (Some mark)) h;
      match beforeMark with
      | None => Some h
      | Some bm =>
          h ← upd n (set_prev (Some bm)) h;
          upd bm (set_next (Some n)) h
      end
  end.

(** The number of nodes from [n] on; [fuel] bounds it by the nodes there are. *)
Fixpoint length_loop (fuel : nat) (n : option loc) (h : heap) (l : Z) : option Z :=
  match n, fuel with
  | None, _ => Some l
  | Some n, S fuel => nd ← h !! n; length_loop fuel (next nd) h (l + 1)
  | Some _, O => None
  end.
Definition length_of (n : option loc) (h : heap) : option Z := length_loop (length h) n h 0.

(** The loop of [makeLinkedEntries] runs from the last entry to the first. *)
Record Links := mkLinks { root : option loc; match_of : gmap Z loc; lheap : heap }.
Definition link_entry (elem : entry) (s : Links) : option Links :=
  match kind elem with
  | returnEntry =>
      let '(e, h) := alloc (mkNode (value elem) None (id elem) None None) (lheap s) in
      h ← insertBefore e (root s) h;
      Some (mkLinks (Some e) (<[id elem := e]> (match_of s)) h)
  | callEntry =>
      let '(e, h) := alloc (mkNode (value elem) (match_of s !! id elem) (id elem) None None) (lheap s) in
      h ← insertBefore e (root s) h;
      Some (mkLinks (Some e) (match_of s) h)
  end.
Fixpoint link_loop (entries : list entry) : option Links :=
  match entries with
  | [] => Some (mkLinks None ∅ [])
  | elem :: entries => s ← link_loop entries; link_entry elem s
  end.
Definition makeLinkedEntries (entries : list entry) : option (option loc * heap) :=
  s ← link_loop entries; Some (root s, lheap s).

(** A nil pointer is a panic. *)
Definition deref (l : option loc) (h : heap) : option node := l ≫= fun l => h !! l.

Definition lift (entry : loc) (h : heap) : option heap :=
  e ← h !! entry;
  ep ← prev e; h ← upd ep (set_next (next e)) h;
  e ← h !! entry;
  en ← next e; h ← upd en (set_prev (prev e)) h;
  e ← h !! entry;
  mt ← match_ e; m ← h !! mt;
  mp ← prev m; h ← upd mp (set_next (next m)) h;
  m ← h !! mt;
  match next m with
  | Some mn => upd mn (set_prev (prev m)) h
  | None => Some h
  end.

Definition unlift (entry : loc) (h : heap) : option heap :=
  e ← h !! entry;
  mt ← match_ e; m ← h !! mt;
  mp ← prev m; h ← upd mp (set_next (Some mt)) h;
  m ← h !! mt;
  h ← match next m with
      | Some mn => upd mn (set_prev (Some mt)) h
      | None => Some h
      end;
  e ← h !! entry;
  ep ← prev e; h ← upd ep (set_next (Some entry)) h;
  e ← h !! entry;
  en ← next e; upd en (set_prev (Some entry)) h.

(** * The search *)

Record cacheEntry := mkCacheEntry { linearized : bitset; cstate : St }.
Local Abbreviation Cache := (gmap Z (list cacheEntry)).

Fixpoint bucket_contains (model : Model) (bucket : list cacheEntry) (e : cacheEntry) : option bool :=
  match bucket with
  | [] => Some false
  | elem :: bucket =>
      if equals (linearized e) (linearized elem) then
        match Equal model with
        | Some equal => if equal (cstate e) (cstate elem) then Some true else bucket_contains model bucket e
        | None => None
        end
      else bucket_contains model bucket e
  end.
Definition cacheContains (model : Model) (cache : Cache) (e : cacheEntry) : option bool :=
  bucket_contains model (default [] (cache !! hash (linearized e))) e.
Definition cache_add (cache : Cache) (e : cacheEntry) : Cache :=
  let hash := hash (linearized e) in
  <[hash := default [] (cache !! hash) ++ [e]]> cache.

Record callsEntry := mkCallsEntry { centry : loc; before : St }.

(** A pointer to a sequence of operations; pointers are equal when their
    addresses are. *)
Record seqPtr := mkSeqPtr { addr : nat; pointee : list Z }.
Local Abbreviation Longest := (list (option seqPtr)).

(** [seq], the identifiers of the lifted calls. *)
Definition call_ids (calls : list callsEntry) (h : heap) : option (list Z) :=
  mapM (fun v => n ← h !! centry v; Some (nid n)) calls.

(** The update of [longest] when the search is about to backtrack. *)
Fixpoint update_longest (ids : list Z) (p : seqPtr) (longest : Longest) : option Longest :=
  match ids with
  | [] => Some longest
  | i :: ids =>
      old ← longest.[i];
      longest ← match old with
                | Some q => if decide (zlen (pointee q) < zlen (pointee p))
                            then go_store longest i (Some p) else Some longest
                | None => go_store longest i (Some p)
                end;
      update_longest ids p longest
  end.

Record Search := mkSearch {
  sheap : heap;
  cur : option loc;
  lin : bitset;
  cache : Cache;
  calls : list callsEntry;
  longest : Longest;
  state : St;
  iter : nat
}.
Inductive Iter := Continue (s : Search) | Finish (ok : bool) (longest : Longest).

(** The branch for a call node, whose return node is [mt]. *)
Definition try_call (model : Model) (headEntry e : loc) (nd : node) (mt : loc) (s : Search) : option Iter :=
  matching ← sheap s !! mt;
  '(ok, newState) ← Step model (state s) (nvalue nd) (nvalue matching);
  if (ok : bool) then
    newLinearized ← set (clone (lin s)) (nid nd);
    let newCacheEntry := mkCacheEntry newLinearized newState in
    seen ← cacheContains model (cache s) newCacheEntry;
    if negb (seen : bool) then
      lin' ← set (lin s) (nid nd);
      h ← lift e (sheap s);
      hd ← h !! headEntry;
      Some (Continue (mkSearch h (next hd) lin' (cache_add (cache s) newCacheEntry)
        (calls s ++ [mkCallsEntry e (state s)]) (longest s) newState (S (iter s))))
    else Some (Continue (mkSearch (sheap s) (next nd) (lin s) (cache s) (calls s) (longest s)
        (state s) (S (iter s))))
  else Some (Continue (mkSearch (sheap s) (next nd) (lin s) (cache s) (calls s) (longest s)
        (state s) (S (iter s)))).

(** The branch for a return node. *)
Definition backtrack (computePartial : bool) (s : Search) : option Iter :=
  match last (calls s) with
  | None => Some (Finish false (longest s))
  | Some callsTop =>
      longest' ← (if computePartial
                  then seq ← call_ids (calls s) (sheap s);
                       update_longest seq (mkSeqPtr (iter s) seq) (longest s)
                  else Some (longest s));
      let e := centry callsTop in
      nd ← sheap s !! e;
      lin' ← clear (lin s) (nid nd);
      h ← unlift e (sheap s);
      nd ← h !! e;
      Some (Continue (mkSearch h (next nd) lin' (cache s)
        (take (length (calls s) - 1) (calls s)) longest' (before callsTop) (S (iter s))))
  end.

(** One turn of the loop; [kill] is what each turn loads from the flag. *)
Definition check_iter (model : Model) (headEntry : loc) (n : Z) (computePartial : bool) (kill : nat -> bool)
  (s : Search) : option Iter :=
  hd ← sheap s !! headEntry;
  match next hd with
  | None =>
      seq ← call_ids (calls s) (sheap s);
      Some (Finish true (replicate (Z.to_nat n) (Some (mkSeqPtr (iter s) seq))))
  | Some _ =>
      if kill (iter s) then Some (Finish false (longest s)) else
      e ← cur s;
      nd ← sheap s !! e;
      match match_ nd with
      | Some mt => try_call model headEntry e nd mt s
      | None => backtrack computePartial s
      end
  end.

Fixpoint check_loop (model : Model) (fuel : nat) (headEntry : loc) (n : Z) (computePartial : bool)
  (kill : nat -> bool) (s : Search) : option Iter :=
  match fuel with
  | O => Some (Continue s)
  | S fuel =>
      r ← check_iter model headEntry n computePartial kill s;
      match r with
      | Continue s => check_loop model fuel headEntry n computePartial kill s
      | Finish ok l => Some (Finish ok l)
      end
  end.

(** The state before the first turn, with [headEntry] and [n]. *)
Definition search_init (model : Model) (history : list entry) : option (loc * Z * Search) :=
  '(entry, h) ← makeLinkedEntries history;
  len ← length_of entry h;
  let n := Z.quot len 2 in
  longest ← go_make n None;
  let '(hd, h) := alloc (mkNode nilV None (-1) None None) h in
  h ← insertBefore hd entry h;
  Some (hd, n, mkSearch h entry (newBitset n) ∅ [] longest (Init model) 0).

Definition checkSingle (model : Model) (fuel : nat) (history : list entry) (computePartial : bool)
  (kill : nat -> bool) : option Iter :=
  '(hd, n, s) ← search_init model history;
  check_loop model fuel hd n computePartial kill s.

Definition fillDefault (model : Model) : Model :=
  mkModel (Some (default NoPartition (Partition model)))
    (Some (default NoPartitionEvent (PartitionEvent model)))
    (Init model) (Step model)
    (Some (default ShallowEqual (Equal model)))
    (Some (default DefaultDescribeOperation (DescribeOperation model)))
    (Some (default DefaultDescribeState (DescribeState model))).

(** * All the partitions at once *)

(** What [select] takes: the result of goroutine [i], or the time-out. *)
Inductive Sel := SResult (i : nat) | STimeout.

(** The [select] loop over the choices it makes; [None] when none is left and the
    loop waits for ever, or when a channel delivers what nobody sends. *)
Fixpoint select_loop (answers : list bool) (computeInfo : bool) (timeout : Z) (sched : list Sel)
  (ok : bool) (count : Z) : option (bool * bool) :=
  match sched with
  | [] => None
  | SResult i :: sched =>
      result ← answers !! i;
      let count := count + 1 in
      let ok := ok && result in
      if negb ok && negb computeInfo then Some (ok, false)
      else if decide (zlen answers <= count) then Some (ok, false)
      else select_loop answers computeInfo timeout sched ok count
  | STimeout :: _ => if decide (0 < timeout) then Some (ok, true) else None
  end.

(** The distinct sequences [longest] points to, one for each address (the order
    of Go's map iteration is not fixed). *)
Fixpoint unique_partials (seen : list nat) (longest : Longest) : list (list Z) :=
  match longest with
  | [] => []
  | None :: longest => unique_partials seen longest
  | Some p :: longest =>
      if decide (addr p ∈ seen) then unique_partials seen longest
      else pointee p :: unique_partials (addr p :: seen) longest
  end.

Record linearizationInfo := mkInfo { ihistory : list (list entry); partialLinearizations : list (list (list Z)) }.

(** The goroutines: [kills i] is what goroutine [i] loads from the flag.  [None]
    is a goroutine that panics or has not finished within [fuel] turns. *)
Definition run_goroutines (model : Model) (fuel : nat) (history : list (list entry)) (computeInfo : bool)
  (kills : nat -> nat -> bool) : option (list (bool * Longest)) :=
  mapM (fun p => match checkSingle model fuel p.2 computeInfo (kills p.1) with
                 | Some (Finish ok l) => Some (ok, l)
                 | _ => None
                 end) (imap pair history).

Definition checkParallel (model : Model) (fuel : nat) (history : list (list entry)) (computeInfo : bool)
  (timeout : Z) (kills : nat -> nat -> bool) (sched : list Sel) : option (CheckResult * linearizationInfo) :=
  runs ← run_goroutines model fuel history computeInfo kills;
  '(ok, timedOut) ← select_loop runs.*1 computeInfo timeout sched true 0;
  let info := if computeInfo then mkInfo history (map (unique_partials []) runs.*2) else mkInfo [] [] in
  let result := if negb ok then Illegal else if (timedOut : bool) then Unknown else Ok in
  Some (result, info).

Definition checkEvents (model : Model) (fuel : nat) (history : list Event) (verbose : bool) (timeout : Z)
  (kills : nat -> nat -> bool) (sched : list Sel) : option (CheckResult * linearizationInfo) :=
  let model := fillDefault model in
  partition ← PartitionEvent model;
  partitions ← partition history;
  let l := map (fun subhistory => convertEntries (renumber subhistory)) partitions in
  checkParallel model fuel l verbose timeout kills sched.

Definition checkOperations (model : Model) (fuel : nat) (history : list Operation) (verbose : bool) (timeout : Z)
  (kills : nat -> nat -> bool) (sched : list Sel) : option (CheckResult * linearizationInfo) :=
  let model := fillDefault model in
  partition ← Partition model;
  partitions ← partition history;
  let l := map makeEntries partitions in
  checkParallel model fuel l verbose timeout kills sched.

(** * porcupine.go *)

Definition is_Ok (r : CheckResult) : bool := match r with Ok => true | _ => false end.

Definition CheckOperations model fuel history kills sched : option bool :=
  '(res, _) ← checkOperations model fuel history false 0 kills sched; Some (is_Ok res).
Definition CheckOperationsTimeout model fuel history timeout kills sched : option CheckResult :=
  '(res, _) ← checkOperations model fuel history false timeout kills sched; Some res.
Definition CheckOperationsVerbose model fuel history timeout kills sched :=
  checkOperations model fuel history true timeout kills sched.
Definition CheckEvents model fuel history kills sched : option bool :=
  '(res, _) ← checkEvents model fuel history false 0 kills sched; Some (is_Ok res).
Definition CheckEventsTimeout model fuel history timeout kills sched : option CheckResult :=
  '(res, _) ← checkEvents model fuel history false timeout kills sched; Some res.
Definition CheckEventsVerbose model fuel history timeout kills sched :=
  checkEvents model fuel history true timeout kills sched.
End porcupine.

Arguments Operation V : clear implicits.
Arguments Event V : clear implicits.
Arguments Model V St : clear implicits.
Arguments entry V : clear implicits.
Arguments node V : clear implicits.
Arguments Search V St : clear implicits.
Arguments Iter V St : clear implicits.
Arguments linearizationInfo V : clear implicits.
Arguments cacheEntry St : clear implicits.
Arguments callsEntry St : clear implicits.

Abbreviation heap V := (list (node V)).
Abbreviation Longest := (list (option seqPtr)).
