(* ===== verification/PorcupineHeap.v ===== *)
(** The linked list of the checker: what [makeLinkedEntries] builds, and that
    [unlift] undoes [lift].

    [seg] is the representation predicate: the heap cells of a list of locations
    point to each other in both directions. *)

From S2P Require Import Prelude Bitset Porcupine.
Local Open Scope Z_scope.

Section heap.
Context {V : Type}.
Implicit Types (h : heap V) (nd : node V).

(** The first location of a list, or what comes after it. *)
Definition hd_or (nx : option nat) (path : list nat) : option nat :=
  match path with l :: _ => Some l | [] => nx end.
Definition last_or (pr : option nat) (path : list nat) : option nat :=
  match last path with Some l => Some l | None => pr end.

Fixpoint seg h (pr : option nat) (path : list nat) (nx : option nat) : Prop :=
  match path with
  | [] => True
  | l :: rest => (exists nd, h !! l = Some nd /\ prev nd = pr /\ next nd = hd_or nx rest) /\
                 seg h (Some l) rest nx
  end.

Lemma last_or_cons pr l path : last_or pr (l :: path) = last_or (Some l) path.
Proof. unfold last_or. rewrite last_cons. by destruct (last path). Qed.

Lemma hd_or_app nx p q : hd_or nx (p ++ q) = hd_or (hd_or nx q) p.
Proof. by destruct p. Qed.

Lemma seg_app h p q nx : forall pr,
  seg h pr (p ++ q) nx <-> seg h pr p (hd_or nx q) /\ seg h (last_or pr p) q nx.
Proof.
  induction p as [|l p IH]; intros pr; simpl; [tauto|].
  rewrite IH, last_or_cons, hd_or_app. tauto.
Qed.

Lemma seg_frame h h' path nx : forall pr,
  (forall l, l ∈ path -> h' !! l = h !! l) -> seg h pr path nx -> seg h' pr path nx.
Proof.
  induction path as [|l path IH]; intros pr H; simpl; [done|]. intros [(nd & Hl & Hp & Hn) Hs]. split.
  - exists nd. rewrite H by (by left). done.
  - apply IH; [|done]. intros k Hk. apply H. by right.
Qed.

Lemma seg_elem h path nx l : forall pr, seg h pr path nx -> l ∈ path -> is_Some (h !! l).
Proof.
  induction path as [|k path IH]; intros pr Hs Hl; [by apply not_elem_of_nil in Hl|].
  destruct Hs as [(nd & Hk & _) Hs]. apply elem_of_cons in Hl as [->|Hl]; [by eexists|]. by eapply IH.
Qed.

(** The node after [p] in a segment. *)
Lemma seg_at h pr p l q nx : seg h pr (p ++ l :: q) nx ->
  exists nd, h !! l = Some nd /\ prev nd = last_or pr p /\ next nd = hd_or nx q.
Proof. rewrite seg_app. intros [_ [Hl _]]. done. Qed.

(** * Unlinking one node *)

Definition unlinked (a : nat) (nx : option nat) h : heap V :=
  let h1 := alter (set_next nx) a h in
  match nx with Some b => alter (set_prev (Some a)) b h1 | None => h1 end.
Definition relinked (a l : nat) (nx : option nat) h : heap V :=
  let h1 := alter (set_next (Some l)) a h in
  match nx with Some b => alter (set_prev (Some l)) b h1 | None => h1 end.
Arguments unlinked : simpl never.
Arguments relinked : simpl never.

Lemma alter_same (f : node V -> node V) l h nd : h !! l = Some nd -> f nd = nd -> alter f l h = h.
Proof.
  intros Hl Hf. apply list_eq. intros k. destruct (decide (k = l)) as [->|].
  - by rewrite list_lookup_alter_eq, Hl; simpl; rewrite Hf.
  - by rewrite list_lookup_alter_ne.
Qed.

Lemma alter_twice (f g : node V -> node V) l h : alter f l (alter g l h) = alter (fun x => f (g x)) l h.
Proof. apply list_alter_alter_eq. Qed.

Lemma relink_unlink a l nx h :
  (exists na, h !! a = Some na /\ next na = Some l) ->
  (forall b, nx = Some b -> a <> b /\ exists nb, h !! b = Some nb /\ prev nb = Some l) ->
  relinked a l nx (unlinked a nx h) = h.
Proof.
  intros (na & Ha & Hna) Hb. unfold relinked, unlinked.
  assert (Ea : forall x, alter (set_next (Some l)) a (alter (set_next x) a h) = h).
  { intros x. rewrite alter_twice. apply (alter_same _ _ _ na); [done|]. destruct na; simpl in *. by subst. }
  destruct nx as [b|]; [|apply Ea]. destruct (Hb b eq_refl) as (Hne & nb & Hbb & Hpb).
  rewrite (list_alter_alter_ne (set_next (Some l)) (set_prev (Some a))) by done.
  rewrite alter_twice, Ea. apply (alter_same _ _ _ nb); [done|]. destruct nb; simpl in *. by subst.
Qed.

Lemma lookup_unlinked a nx h k :
  k <> a -> nx <> Some k -> unlinked a nx h !! k = h !! k.
Proof.
  intros Ha Hn. unfold unlinked. destruct nx as [b|]; rewrite ?list_lookup_alter_ne by congruence; done.
Qed.

Lemma lookup_unlinked_a a nx h na :
  h !! a = Some na -> nx <> Some a -> unlinked a nx h !! a = Some (set_next nx na).
Proof.
  intros Ha Hn. unfold unlinked. destruct nx as [b|].
  - rewrite list_lookup_alter_ne by congruence. by rewrite list_lookup_alter_eq, Ha.
  - by rewrite list_lookup_alter_eq, Ha.
Qed.

Lemma lookup_unlinked_b a b h nb :
  h !! b = Some nb -> a <> b -> unlinked a (Some b) h !! b = Some (set_prev (Some a) nb).
Proof. intros Hb Hn. unfold unlinked. by rewrite list_lookup_alter_eq, list_lookup_alter_ne, Hb by congruence. Qed.

Lemma unlink_seg h pr p a l q :
  NoDup (p ++ a :: l :: q) -> seg h pr (p ++ a :: l :: q) None ->
  seg (unlinked a (hd_or None q) h) pr (p ++ a :: q) None.
Proof.
  intros Hnd Hs. apply NoDup_app in Hnd as (_ & Hdis & Hnd).
  apply NoDup_cons in Hnd as [Ha Hnd]. apply NoDup_cons in Hnd as [Hl Hnd].
  apply seg_app in Hs as [Hp [(na & Ena & Hpa & Hna) [(nl & Enl & Hpl & Hnl) Hq]]].
  assert (hd_or None q <> Some a) as Hne by (destruct q; set_solver).
  apply seg_app. split.
  - eapply seg_frame; [|done]. intros k Hk. specialize (Hdis k Hk).
    apply lookup_unlinked; [set_solver|]. destruct q; set_solver.
  - split; [exists (set_next (hd_or None q) na); by rewrite (lookup_unlinked_a _ _ _ na)|].
    destruct q as [|b q]; [done|]. destruct Hq as [(nb & Enb & Hpb & Hnb) Hq]. simpl. split.
    + exists (set_prev (Some a) nb). rewrite (lookup_unlinked_b _ _ _ nb); [done|done|set_solver].
    + eapply seg_frame; [|done]. apply NoDup_cons in Hnd as [Hb _].
      intros k Hk. apply lookup_unlinked; [set_solver|]. intros [= ->]. done.
Qed.

Lemma unlink_undo h pr p a l q :
  NoDup (p ++ a :: l :: q) -> seg h pr (p ++ a :: l :: q) None ->
  relinked a l (hd_or None q) (unlinked a (hd_or None q) h) = h.
Proof.
  intros Hnd Hs. apply NoDup_app in Hnd as (_ & _ & Hnd). apply NoDup_cons in Hnd as [Ha _].
  apply seg_app in Hs as [_ [(na & Ena & _ & Hna) [_ Hq]]].
  apply relink_unlink; [eauto|]. destruct q as [|b q]; [done|]. intros ? [= <-].
  destruct Hq as [(nb & Enb & Hpb & _) _]. split; [set_solver|eauto].
Qed.

(** * What never changes in a node *)

Definition static nd : V * option nat * Z := (nvalue nd, match_ nd, nid nd).

Lemma static_alter (f : node V -> node V) l h :
  (forall nd, static (f nd) = static nd) -> static <$> (alter f l h) = static <$> h.
Proof.
  intros Hf. apply list_eq. intros k. rewrite !list_lookup_fmap.
  destruct (decide (k = l)) as [->|].
  - rewrite list_lookup_alter_eq. destruct (h !! l); simpl; [by rewrite Hf|done].
  - by rewrite list_lookup_alter_ne.
Qed.

Lemma static_unlinked a nx h : static <$> (unlinked a nx h) = static <$> h.
Proof. unfold unlinked. destruct nx; by rewrite ?static_alter by done. Qed.

Lemma static_eq h h' l nd : static <$> h' = static <$> h -> h !! l = Some nd ->
  exists nd', h' !! l = Some nd' /\ static nd' = static nd.
Proof.
  intros E Hl. assert ((static <$> h') !! l = Some (static nd)) as Hx
    by (rewrite E; by rewrite list_lookup_fmap, Hl).
  rewrite list_lookup_fmap in Hx. destruct (h' !! l) as [nd'|]; [|done].
  exists nd'. split; [done|]. simpl in Hx. congruence.
Qed.

(** * [lift] and [unlift] *)

Lemma upd_Some l (f : node V -> node V) h : is_Some (h !! l) -> upd l f h = Some (alter f l h).
Proof. intros [nd Hl]. unfold upd. by rewrite Hl. Qed.

(** [lift] unlinks the call and then the return; both steps of [unlift] relink
    what [lift] unlinked. *)
Lemma lift_eq h e a b nx mt mp mn nd :
  h !! e = Some nd -> prev nd = Some a -> next nd = Some b -> nx = Some b -> match_ nd = Some mt ->
  a <> e -> b <> e -> is_Some (h !! a) -> is_Some (h !! b) ->
  forall m, unlinked a nx h !! mt = Some m -> prev m = Some mp -> next m = mn ->
  mp <> mt -> mn <> Some mt ->
  is_Some (unlinked a nx h !! mp) -> (forall b', mn = Some b' -> is_Some (unlinked a nx h !! b')) ->
  lift e h = Some (unlinked mp mn (unlinked a nx h)).
Proof.
  intros He Hpa Hnb -> Hm Hae Hbe Ha Hb m Hmt Hmp Hmn Hne1 Hne2 Hmp' Hmn'.
  unfold lift. rewrite He. simpl. rewrite Hpa. simpl. rewrite upd_Some by done. simpl.
  rewrite list_lookup_alter_ne by done. rewrite He. simpl. rewrite Hnb. simpl.
  rewrite upd_Some by (destruct (decide (b = a)) as [->|];
    [rewrite list_lookup_alter_eq; by destruct Ha as [? ->]|by rewrite list_lookup_alter_ne]).
  simpl. rewrite !list_lookup_alter_ne by done. rewrite He. simpl. rewrite Hm, Hpa. simpl.
  change (alter (set_prev (Some a)) b (alter (set_next (Some b)) a h)) with (unlinked a (Some b) h).
  rewrite Hmt. simpl. rewrite Hmp. simpl. rewrite upd_Some by done. simpl.
  rewrite list_lookup_alter_ne by done. rewrite Hmt. simpl. rewrite Hmn.
  unfold unlinked at 3. destruct mn as [b'|]; [|done]. rewrite Hmp. apply upd_Some.
  destruct (decide (b' = mp)) as [->|]; [rewrite list_lookup_alter_eq; by destruct Hmp' as [? ->]|].
  rewrite list_lookup_alter_ne by done. by apply Hmn'.
Qed.

Lemma unlift_eq h2 h1 e nd a b mt m mp mn :
  h2 !! e = Some nd -> match_ nd = Some mt -> h2 !! mt = Some m -> prev m = Some mp -> next m = mn ->
  mp <> mt -> is_Some (h2 !! mp) -> (forall b', mn = Some b' -> is_Some (h2 !! b')) ->
  relinked mp mt mn h2 = h1 ->
  h1 !! e = Some nd -> prev nd = Some a -> next nd = Some b -> a <> e ->
  is_Some (h1 !! a) -> is_Some (h1 !! b) ->
  unlift e h2 = Some (relinked a e (Some b) h1).
Proof.
  intros He Hmt Hm Hmp Hmn Hne Hmp' Hmn' <- He1 Hpa Hnb Hae Ha Hb.
  unfold unlift. rewrite He. simpl. rewrite Hmt. simpl. rewrite Hm. simpl. rewrite Hmp. simpl.
  rewrite upd_Some by done. simpl. rewrite list_lookup_alter_ne by done. rewrite Hm. simpl. rewrite Hmn.
  assert (match mn with
          | Some b' => upd b' (set_prev (Some mt)) (alter (set_next (Some mt)) mp h2)
          | None => Some (alter (set_next (Some mt)) mp h2)
          end = Some (relinked mp mt mn h2)) as ->.
  { unfold relinked. destruct mn as [b'|]; [|done]. apply upd_Some.
    destruct (decide (b' = mp)) as [->|]; [rewrite list_lookup_alter_eq; by destruct Hmp' as [? ->]|].
    rewrite list_lookup_alter_ne by done. by apply Hmn'. }
  simpl. rewrite He1. simpl. rewrite Hpa. simpl. rewrite upd_Some by done. simpl.
  rewrite list_lookup_alter_ne by done. rewrite He1. simpl. rewrite Hnb. simpl.
  unfold relinked at 3. apply upd_Some.
  destruct (decide (b = a)) as [->|]; [rewrite list_lookup_alter_eq; by destruct Ha as [? ->]|].
  by rewrite list_lookup_alter_ne.
Qed.

Lemma last_or_snoc pr p a : last_or pr (p ++ [a]) = Some a.
Proof. unfold last_or. by rewrite last_snoc. Qed.

(** [lift] takes a call and its return out of the list, and [unlift] restores
    the very heap. *)
Lemma lift_unlift h p a e q1 mt q2 nd :
  NoDup (p ++ a :: e :: q1 ++ mt :: q2) -> seg h None (p ++ a :: e :: q1 ++ mt :: q2) None ->
  h !! e = Some nd -> match_ nd = Some mt ->
  exists h', lift e h = Some h' /\ seg h' None (p ++ a :: q1 ++ q2) None /\
    unlift e h' = Some h /\ static <$> h' = static <$> h.
Proof.
  intros Hnd Hs He Hm. set (q := q1 ++ mt :: q2) in *.
  assert (exists b, hd_or None q = Some b /\ b ∈ q) as (b & Hb & Hbq).
  { subst q. destruct q1 as [|b q1]; simpl; eexists; split; try done; by left. }
  assert (Hpath : exists p' mp, p ++ a :: q1 = p' ++ [mp]).
  { destruct (exists_last (l := p ++ a :: q1)) as (p' & mp & ->); [by destruct p|eauto]. }
  destruct Hpath as (p' & mp & Hpath).
  assert (p ++ a :: q = p' ++ mp :: mt :: q2) as Eq.
  { subst q. rewrite app_comm_cons, app_assoc, Hpath, <- app_assoc. done. }
  pose proof (unlink_seg h None p a e q Hnd Hs) as Hs1.
  pose proof (unlink_undo h None p a e q Hnd Hs) as Hu1.
  set (h1 := unlinked a (hd_or None q) h) in *.
  assert (NoDup (p ++ a :: q)) as Hnd1.
  { apply NoDup_app in Hnd as (? & Hd & Hn). apply NoDup_cons in Hn as [Ha Hn].
    apply NoDup_cons in Hn as [? Hn]. apply NoDup_app. split_and!; [done|set_solver|].
    apply NoDup_cons. split; [set_solver|done]. }
  assert (He1 : e ∉ p ++ a :: q).
  { apply NoDup_app in Hnd as (? & Hd & Hn). apply NoDup_cons in Hn as [Ha Hn].
    apply NoDup_cons in Hn as [? Hn]. set_solver. }
  pose proof Hs1 as Hs1'. pose proof Hnd1 as Hnd1'. rewrite Eq in Hs1', Hnd1'.
  pose proof (unlink_seg h1 None p' mp mt q2 Hnd1' Hs1') as Hs2.
  pose proof (unlink_undo h1 None p' mp mt q2 Hnd1' Hs1') as Hu2.
  set (h2 := unlinked mp (hd_or None q2) h1) in *.
  destruct (seg_at h None (p ++ [a]) e q None) as (nd' & He' & Hpe & Hne).
  { by rewrite <- app_assoc. }
  rewrite last_or_snoc in Hpe. rewrite Hb in Hne. assert (nd' = nd) as -> by congruence. clear He'.
  destruct (seg_at h1 None (p' ++ [mp]) mt q2 None) as (m & Hmt & Hpm & Hnm).
  { by rewrite <- app_assoc. }
  rewrite last_or_snoc in Hpm.
  assert (mp ∈ p ++ a :: q /\ mt ∈ p ++ a :: q) as [Hmpin Hmtin] by (rewrite Eq; set_solver).
  apply NoDup_app in Hnd1' as (_ & _ & Hn). apply NoDup_cons in Hn as [Hmp Hn].
  apply NoDup_cons in Hn as [Hmt2 _].
  assert (forall l, l ∈ p ++ a :: q -> is_Some (h !! l)) as Hdom.
  { intros l Hl. eapply seg_elem; [exact Hs|]. set_solver. }
  assert (forall b', hd_or None q2 = Some b' -> b' ∈ q2) as Hhd by (destruct q2; set_solver).
  exists h2. split_and!.
  - apply (lift_eq h e a b (hd_or None q) mt mp (hd_or None q2) nd) with (m := m); try done.
    1-2: set_solver. 1-2: apply Hdom; set_solver. 1: set_solver.
    + intros Hx. apply Hmt2. by apply Hhd.
    + eapply seg_elem; [exact Hs1|done].
    + intros b' Hb'. eapply seg_elem; [exact Hs1|]. rewrite Eq. apply Hhd in Hb'. set_solver.
  - by rewrite app_comm_cons, app_assoc, Hpath, <- app_assoc.
  - assert (unlift e h2 = Some (relinked a e (Some b) h1)) as ->; [|by rewrite <- Hb, Hu1].
    assert (h1 !! e = Some nd) as Heh1.
    { subst h1. rewrite lookup_unlinked; [done|set_solver|rewrite Hb; set_solver]. }
    apply (unlift_eq h2 h1 e nd a b mt m mp (hd_or None q2)); try done.
    + subst h2. rewrite lookup_unlinked; [done|set_solver|]. intros Hx. apply Hhd in Hx.
      apply He1. rewrite Eq. set_solver.
    + subst h2. rewrite lookup_unlinked; [done|set_solver|]. intros Hx. by apply Hmt2, Hhd.
    + set_solver.
    + eapply seg_elem; [exact Hs2|]. set_solver.
    + intros b' Hb'. eapply seg_elem; [exact Hs2|]. apply Hhd in Hb'. set_solver.
    + set_solver.
    + eapply seg_elem; [exact Hs1|]. set_solver.
    + eapply seg_elem; [exact Hs1|]. set_solver.
  - subst h2 h1. by rewrite !static_unlinked.
Qed.

(** * Building the list *)

(** A new node in front of a list. *)
Lemma insert_front h path nd0 :
  NoDup path -> (forall l, l ∈ path -> l < length h)%nat -> seg h None path None ->
  prev nd0 = None -> next nd0 = None ->
  exists h', insertBefore (length h) (hd_or None path) (h ++ [nd0]) = Some h' /\
    seg h' None (length h :: path) None /\ static <$> h' = static <$> (h ++ [nd0]).
Proof.
  intros Hnd Hlt Hs Hp0 Hn0. assert (Hnew : (h ++ [nd0]) !! length h = Some nd0) by (by rewrite lookup_snoc_Some; right).
  assert (Hold : forall l, l ∈ path -> (h ++ [nd0]) !! l = h !! l)
    by (intros l Hl; apply lookup_app_l; auto).
  destruct path as [|r rest]; simpl.
  { eexists. split; [done|]. split; [|done]. split; [|done]. exists nd0. done. }
  destruct Hs as [(nr & Hr & Hpr & Hnr) Hs]. apply NoDup_cons in Hnd as [Hr' Hnd].
  assert (length h <> r) by (specialize (Hlt r ltac:(by left)); lia).
  rewrite Hold, Hr by (by left). simpl. rewrite Hpr.
  rewrite upd_Some by (rewrite Hold, Hr by (by left); done). simpl.
  rewrite upd_Some by (rewrite list_lookup_alter_ne by done; by rewrite Hnew). simpl.
  eexists. split; [done|]. split; [split; [|split]|].
  - exists (set_next (Some r) nd0). rewrite list_lookup_alter_eq, list_lookup_alter_ne, Hnew by done. done.
  - exists (set_prev (Some (length h)) nr).
    rewrite list_lookup_alter_ne, list_lookup_alter_eq, Hold, Hr by (done || by left). done.
  - eapply seg_frame; [|exact Hs]. intros k Hk.
    assert (length h <> k) by (specialize (Hlt k ltac:(by right)); lia).
    rewrite !list_lookup_alter_ne by (done || set_solver). apply Hold. by right.
  - by rewrite !static_alter.
Qed.

(** The location of the [k]-th node from the end is [k]. *)
Definition locs (n : nat) : list nat := rev (seq 0 n).

Lemma locs_S n : locs (S n) = n :: locs n.
Proof. unfold locs. by rewrite seq_S, rev_app_distr. Qed.
Lemma locs_elem n l : l ∈ locs n <-> (l < n)%nat.
Proof. unfold locs. rewrite list_elem_of_In, <- in_rev, <- list_elem_of_In, elem_of_seq. lia. Qed.
Lemma locs_NoDup n : NoDup (locs n).
Proof. unfold locs. rewrite NoDup_ListNoDup. apply NoDup_rev, NoDup_ListNoDup, NoDup_seq. Qed.

(** The entry a location was made from. *)
Definition at_loc (es : list (entry V)) (l : nat) : option (entry V) := rev es !! l.

Lemma at_loc_cons e es l : at_loc (e :: es) l = if decide (l = length es) then Some e else at_loc es l.
Proof.
  unfold at_loc. simpl. case_decide as E.
  - subst. apply lookup_snoc_Some. right. by rewrite length_rev.
  - destruct (rev es !! l) as [x|] eqn:El.
    + apply lookup_app_l_Some. done.
    + apply lookup_ge_None in El. rewrite length_rev in El. apply lookup_ge_None.
      rewrite length_app, length_rev. simpl. lia.
Qed.

Lemma at_loc_lt es l e : at_loc es l = Some e -> (l < length es)%nat.
Proof. intros H%lookup_lt_Some. by rewrite length_rev in H. Qed.

Definition return_at es l i : Prop :=
  exists r, at_loc es l = Some r /\ kind r = returnEntry /\ id r = i.

(** What the node at [l] keeps of the entry [e]. *)
Definition node_of es l (e : entry V) nd : Prop :=
  nvalue nd = value e /\ nid nd = id e /\
  match kind e with
  | returnEntry => match_ nd = None
  | callEntry =>
      (forall mt, match_ nd = Some mt -> (mt < l)%nat /\ return_at es mt (id e)) /\
      (forall mt, (mt < l)%nat -> return_at es mt (id e) -> is_Some (match_ nd))
  end.

Record links_ok es (s : Links) : Prop := {
  lo_len : length (lheap s) = length es;
  lo_root : root s = hd_or None (locs (length es));
  lo_seg : seg (lheap s) None (locs (length es)) None;
  lo_node : forall l e, at_loc es l = Some e -> exists nd, lheap s !! l = Some nd /\ node_of es l e nd;
  lo_match : forall i l, match_of s !! i = Some l -> return_at es l i;
  lo_total : forall i l, return_at es l i -> is_Some (match_of s !! i)
}.

Lemma return_at_cons e es l i :
  (l < length es)%nat -> return_at (e :: es) l i <-> return_at es l i.
Proof. intros Hl. unfold return_at. rewrite at_loc_cons, decide_False by lia. done. Qed.

Lemma node_of_cons e es l e' nd : (l < length es)%nat -> node_of es l e' nd -> node_of (e :: es) l e' nd.
Proof.
  intros Hl (Hv & Hi & Hm). split; [done|]. split; [done|]. destruct (kind e'); [|done].
  destruct Hm as [H1 H2]. split.
  - intros mt Hmt. destruct (H1 mt Hmt) as [Hlt Hr]. split; [done|].
    apply return_at_cons; [lia|done].
  - intros mt Hlt Hr. apply (H2 mt Hlt). apply (return_at_cons e); [lia|done].
Qed.

Lemma static_node_of es l e nd nd' : static nd' = static nd -> node_of es l e nd -> node_of es l e nd'.
Proof. unfold static, node_of. by intros [= -> -> ->]. Qed.

Lemma link_front e es s nd0 m' :
  links_ok es s -> prev nd0 = None -> next nd0 = None -> node_of (e :: es) (length es) e nd0 ->
  (forall i l, m' !! i = Some l -> return_at (e :: es) l i) ->
  (forall i l, return_at (e :: es) l i -> is_Some (m' !! i)) ->
  exists h', insertBefore (length (lheap s)) (root s) (lheap s ++ [nd0]) = Some h' /\
    links_ok (e :: es) (mkLinks (Some (length (lheap s))) m' h').
Proof.
  intros [Hlen Hroot Hseg Hnode _ _] Hp Hn Hof Hm1 Hm2. rewrite Hroot.
  destruct (insert_front (lheap s) (locs (length es)) nd0) as (h' & Hins & Hs' & Hst);
    [apply locs_NoDup|intros l Hl%locs_elem; lia|done|done|done|].
  exists h'. split; [done|]. split; simpl; [| | | |done|done].
  - apply (f_equal length) in Hst. rewrite !length_fmap, length_app in Hst. simpl in Hst. lia.
  - by rewrite locs_S, Hlen.
  - by rewrite locs_S, <- Hlen at 1.
  - intros l e' Hl. rewrite at_loc_cons in Hl. case_decide as E.
    + injection Hl as <-. subst l.
      destruct (static_eq (lheap s ++ [nd0]) h' (length es) nd0) as (nd & Hnd & Hst'); [done| |].
      { rewrite <- Hlen. apply lookup_snoc_Some. by right. }
      exists nd. split; [done|]. by eapply static_node_of.
    + destruct (Hnode l e' Hl) as (nd & Hnd & Hno).
      destruct (static_eq (lheap s ++ [nd0]) h' l nd) as (nd' & Hnd' & Hst'); [done| |].
      { by apply lookup_app_l_Some. }
      exists nd'. split; [done|]. eapply static_node_of; [done|].
      apply node_of_cons; [by eapply at_loc_lt|done].
Qed.

Lemma return_at_new e es l i :
  return_at (e :: es) l i <->
  (l = length es /\ kind e = returnEntry /\ id e = i) \/ return_at es l i.
Proof.
  unfold return_at. rewrite at_loc_cons. case_decide as E; [|naive_solver]. split.
  - intros (r & [= <-] & ? & ?). auto.
  - intros [(_ & ? & ?)|(r & Hr & _)]; [eauto|]. apply at_loc_lt in Hr. lia.
Qed.

Lemma link_entry_ok e es s : links_ok es s -> exists s', link_entry e s = Some s' /\ links_ok (e :: es) s'.
Proof.
  intros Hok. pose proof Hok as [Hlen _ _ _ Hm Ht]. unfold link_entry, alloc. destruct (kind e) eqn:Ek.
  - set (nd0 := mkNode _ _ _ _ _).
    destruct (link_front e es s nd0 (match_of s) Hok) as (h' & Hins & Hok'); try done.
    + split; [done|]. split; [done|]. rewrite Ek. split.
      * intros mt Hmt%Hm. assert (Hlt := Hmt). destruct Hlt as (r & Hr%at_loc_lt & _).
        split; [lia|]. apply return_at_new. by right.
      * intros mt Hlt [(? & _)|Hr]%return_at_new; [lia|]. by apply (Ht _ mt).
    + intros i l Hl%Hm. apply return_at_new. by right.
    + intros i l [(_ & ? & _)|Hr]%return_at_new; [congruence|]. by apply (Ht i l).
    + rewrite Hins. simpl. eauto.
  - set (nd0 := mkNode _ _ _ _ _).
    destruct (link_front e es s nd0 (<[id e := length (lheap s)]> (match_of s)) Hok) as (h' & Hins & Hok'); try done.
    + split; [done|]. split; [done|]. by rewrite Ek.
    + intros i l [[<- <-]|[Hne Hl]]%lookup_insert_Some; apply return_at_new; [left; by rewrite Hlen|right; auto].
    + intros i l Hr%return_at_new. destruct (decide (i = id e)) as [->|Hne]; [rewrite lookup_insert_eq; by eexists|].
      rewrite lookup_insert_ne by done. destruct Hr as [(_ & _ & ?)|Hr]; [congruence|]. by apply (Ht i l).
    + rewrite Hins. simpl. eauto.
Qed.

Lemma link_loop_ok es : exists s, link_loop es = Some s /\ links_ok es s.
Proof.
  induction es as [|e es (s & Hs & Hok)]; simpl.
  - eexists. split; [done|]. split; try done.
    intros i l (r & Hr%at_loc_lt & _). simpl in Hr. lia.
  - rewrite Hs. simpl. by apply link_entry_ok.
Qed.

(** [length] counts the nodes. *)
Lemma length_loop_seg h path : forall fuel pr acc,
  (length path <= fuel)%nat -> seg h pr path None ->
  length_loop fuel (hd_or None path) h acc = Some (acc + zlen path).
Proof.
  induction path as [|l path IH]; intros fuel pr acc Hf Hs.
  - replace (acc + zlen (@nil nat)) with acc by (unfold zlen; simpl; lia). by destruct fuel.
  - destruct Hs as [(nd & Hl & _ & Hn) Hs]. destruct fuel as [|fuel]; simpl in *; [lia|].
    rewrite Hl. simpl. rewrite Hn, (IH fuel (Some l)) by (done || lia). f_equal.
    rewrite zlen_cons. lia.
Qed.
End heap.
