(* ===== verification/PorcupineSearch.v ===== *)
(** The search of the checker explores exactly the linearizations of a history.

    [comp S s] says that the operations not in [S] can be linearized from model
    state [s]: it is the specification the backtracking search is compared with.
    The main lemma, [explore], follows the search through the choices of one
    level; the cache holds only situations that were explored without success
    or that are still on the stack. *)

From S2P Require Import Prelude Bitset Porcupine PorcupineHeap.
Local Open Scope Z_scope.

(** A list of entries for the operations [0..n-1], each with one call and one
    return after it. *)
Record history_ok {V} (es : list (entry V)) (n : Z) : Prop := {
  ho_len : zlen es = 2 * n;
  ho_range : forall l e, at_loc es l = Some e -> 0 <= id e < n;
  ho_uniq : forall l1 l2 e1 e2, at_loc es l1 = Some e1 -> at_loc es l2 = Some e2 ->
    kind e1 = kind e2 -> id e1 = id e2 -> l1 = l2;
  ho_return : forall l e, at_loc es l = Some e -> kind e = callEntry ->
    exists mt, (mt < l)%nat /\ return_at es mt (id e);
  ho_call : forall mt i, return_at es mt i ->
    exists l e, (mt < l)%nat /\ at_loc es l = Some e /\ kind e = callEntry /\ id e = i;
  ho_all : forall i, 0 <= i < n -> exists l e, at_loc es l = Some e /\ kind e = callEntry /\ id e = i
}.

(** In the list of locations a smaller location comes later. *)
Lemma filter_locs_split (P : nat -> Prop) `{forall l, Decision (P l)} m p l q x :
  filter P (locs m) = p ++ l :: q -> x ∈ p ++ l :: q -> (x < l)%nat -> x ∈ q.
Proof.
  revert p. induction m as [|m IH]; intros p; [by destruct p|].
  rewrite locs_S, filter_cons. case_decide; [|by apply IH].
  destruct p as [|y p]; simpl; intros [= <- E] Hx Hlt.
  - apply elem_of_cons in Hx as [->|]; [lia|done].
  - apply elem_of_cons in Hx as [->|Hx]; [|by apply (IH p)].
    assert (l ∈ filter P (locs m)) as [_ Hl%locs_elem]%list_elem_of_filter by (rewrite E; set_solver). lia.
Qed.

Section search.
Context {V St : Type} (model : Model V St).
Context (es : list (entry V)) (n : Z) (Hes : history_ok es n).

(** * The specification of the search *)

Definition idl (l : nat) : Z := match at_loc es l with Some e => id e | None => -1 end.
Definition is_call (l : nat) : Prop := exists e, at_loc es l = Some e /\ kind e = callEntry.

(** The nodes still in the list when the operations [S] are linearized. *)
Definition live (S : gset Z) : list nat := filter (fun l => idl l ∉ S) (locs (length es)).

(** The call at [l] and its return take the model from [s] to [s']. *)
Definition steps (s : St) (l : nat) (s' : St) : Prop :=
  exists e mt r, at_loc es l = Some e /\ kind e = callEntry /\ at_loc es mt = Some r /\
    kind r = returnEntry /\ id r = id e /\ Step model s (value e) (value r) = Some (true, s').

(** The operations that may be linearized next are those called before the first
    return. *)
Definition pick (S : gset Z) (s : St) (l : nat) (s' : St) : Prop :=
  exists p q, live S = p ++ l :: q /\ Forall is_call p /\ steps s l s'.

Inductive comp (S : gset Z) (s : St) : Prop :=
| comp_done : live S = [] -> comp S s
| comp_pick l s' : pick S s l s' -> comp (S ∪ {[idl l]}) s' -> comp S s.

(** The partial linearizations: sequences of picks from the start. *)
Inductive partial : list Z -> gset Z -> St -> Prop :=
| partial_nil : partial [] ∅ (Init model)
| partial_snoc seq S s l s' : partial seq S s -> pick S s l s' -> partial (seq ++ [idl l]) (S ∪ {[idl l]}) s'.

Lemma live_elem S l : l ∈ live S <-> (idl l ∉ S) /\ (l < length es)%nat.
Proof. unfold live. rewrite list_elem_of_filter, locs_elem. done. Qed.

Lemma live_NoDup S : NoDup (live S).
Proof. apply NoDup_filter, locs_NoDup. Qed.

Lemma live_add S x : live (S ∪ {[x]}) = filter (fun l => idl l <> x) (live S).
Proof.
  unfold live. rewrite list_filter_filter. apply list_filter_iff. intros l. set_solver.
Qed.

Lemma at_loc_Some l : (l < length es)%nat -> exists e, at_loc es l = Some e.
Proof. intros H. apply lookup_lt_is_Some. by rewrite length_rev. Qed.

Lemma idl_at l e : at_loc es l = Some e -> idl l = id e.
Proof. intros H. unfold idl. by rewrite H. Qed.

Lemma at_loc_elem l e : at_loc es l = Some e -> e ∈ es.
Proof. intros H%list_elem_of_lookup_2. by apply list_elem_of_In, in_rev, list_elem_of_In. Qed.

(** Removing a call and its return from the live nodes. *)
Lemma live_split S p l q e :
  live S = p ++ l :: q -> at_loc es l = Some e -> kind e = callEntry ->
  exists mt q1 q2, return_at es mt (id e) /\ q = q1 ++ mt :: q2 /\
    live (S ∪ {[idl l]}) = p ++ q1 ++ q2.
Proof.
  intros E He Hk. destruct (ho_return _ _ Hes l e He Hk) as (mt & Hlt & Hr).
  assert (Hmt := Hr). destruct Hmt as (r & Hmt & Hkr & Hir).
  pose proof (at_loc_lt _ _ _ Hmt) as Hmtlt.
  assert (l ∈ live S) as [HlS _]%live_elem by (rewrite E; set_solver).
  assert (mt ∈ q) as (q1 & q2 & ->)%list_elem_of_split.
  { eapply filter_locs_split; [exact E| |done]. rewrite <- E. apply live_elem.
    by rewrite (idl_at mt r), Hir, <- (idl_at l e). }
  exists mt, q1, q2. split_and!; [done|done|].
  rewrite live_add, E, !filter_app, !filter_cons, !filter_app, !filter_cons.
  rewrite decide_False by tauto. rewrite decide_False by (rewrite (idl_at mt r), (idl_at l e); naive_solver).
  pose proof (live_NoDup S) as Hnd. rewrite E in Hnd.
  assert (forall x, x ∈ p ++ q1 ++ q2 -> idl x <> idl l) as Hother.
  { intros x Hx Hid.
    assert (x ∈ live S) as [_ Hxl]%live_elem by (rewrite E; set_solver).
    destruct (at_loc_Some x Hxl) as [ex Hex]. rewrite (idl_at x ex), (idl_at l e) in Hid by done.
    assert (x <> l /\ x <> mt) as [Hn1 Hn2].
    { rewrite NoDup_app, NoDup_cons, NoDup_app, NoDup_cons in Hnd. set_solver. }
    destruct (kind ex) eqn:Ekx.
    - apply Hn1. eapply (ho_uniq _ _ Hes); [done|done|congruence|done].
    - apply Hn2. eapply (ho_uniq _ _ Hes); [done|done|congruence|congruence]. }
  assert (forall k : list nat, (forall x, x ∈ k -> x ∈ p ++ q1 ++ q2) -> filter (fun x => idl x <> idl l) k = k) as Hk'.
  { intros k Hsub. apply filter_all. apply Forall_forall. auto. }
  rewrite !Hk'; [done|set_solver|set_solver|set_solver].
Qed.

(** The last live node is a return, so the walk along the list meets one. *)
Lemma live_has_return S : Forall is_call (live S) -> live S = [].
Proof.
  intros Hall. destruct (live S) as [|l q] eqn:E; [done|]. exfalso.
  apply Forall_cons in Hall as [(e & He & Hk) Hq].
  destruct (live_split S [] l q e E He Hk) as (mt & q1 & q2 & (r & Hr & Hkr & _) & -> & _).
  rewrite Forall_forall in Hq. destruct (Hq mt) as (e' & He' & Hk'); [set_solver|congruence].
Qed.

(** A failed level: every call before a return was tried in vain. *)
Definition dead_choice (S : gset Z) (s : St) (l : nat) : Prop :=
  forall s', steps s l s' -> ~ comp (S ∪ {[idl l]}) s'.

Lemma dead_level S s p l q :
  live S = p ++ l :: q -> ~ is_call l -> Forall (dead_choice S s) p -> ~ comp S s.
Proof.
  intros E Hl Hp [Hnil|l' s' (p' & q' & E' & Hcalls & Hst) Hc].
  - rewrite Hnil in E. by destruct p.
  - rewrite Forall_forall in Hp, Hcalls. refine (Hp l' _ s' Hst Hc).
    rewrite E in E'. apply app_eq_inv in E' as [(k & -> & Ek)|(k & -> & Ek)].
    + destruct k as [|y k]; simplify_eq/=; [|set_solver].
      destruct Hst as (e & mt & r & He & Hk & _). exfalso. apply Hl. by exists e.
    + destruct k as [|y k]; simplify_eq/=.
      * destruct Hst as (e & mt & r & He & Hk & _). exfalso. apply Hl. by exists e.
      * exfalso. apply Hl, Hcalls. set_solver.
Qed.

(** * The state of the search *)

Abbreviation headLoc := (length es).
Abbreviation path S := (headLoc :: live S).

Definition entry_nodes (h : heap V) : Prop :=
  forall l e, at_loc es l = Some e -> exists nd, h !! l = Some nd /\ node_of es l e nd.

(** [c] is at the level where the operations [S], in the order [seq], have been
    linearized and the model is in state [s]. *)
Record at_level (S : gset Z) (s : St) (seq : list Z) (c : Search V St) : Prop := {
  al_seg : seg (sheap c) None (path S) None;
  al_nodes : entry_nodes (sheap c);
  al_lin : holds n (lin c) S;
  al_state : state c = s;
  al_calls : call_ids (calls c) (sheap c) = Some seq;
  al_partial : partial seq S s
}.

(** Nothing but the cache, the partial linearizations found, the current node
    and the number of turns differs. *)
Definition same_level (c c' : Search V St) : Prop :=
  sheap c' = sheap c /\ lin c' = lin c /\ calls c' = calls c /\ state c' = state c.

Lemma at_level_same S s seq c c' : same_level c c' -> at_level S s seq c -> at_level S s seq c'.
Proof. intros (E1 & E2 & E3 & E4) []. by split; rewrite ?E1, ?E2, ?E3, ?E4. Qed.

(** What [longest] holds: for an operation, a partial linearization it is in. *)
Definition longest_ok (lg : Longest) : Prop :=
  zlen lg = n /\ forall i q, lg.[i] = Some (Some q) ->
    i ∈ pointee q /\ exists S s, partial (pointee q) S s.

Definition cached (ca : gmap Z (list (cacheEntry St))) (e : cacheEntry St) : Prop :=
  exists h b, ca !! h = Some b /\ e ∈ b.

(** A cached situation cannot be completed, or is one of the levels [F] that are
    still being explored. *)
Definition cache_ok (F : list (gset Z * St)) (ca : gmap Z (list (cacheEntry St))) : Prop :=
  forall e, cached ca e -> exists T, holds n (linearized e) T /\
    (~ comp T (cstate e) \/ (T, cstate e) ∈ F).

Lemma partial_range seq S s : partial seq S s -> list_to_set seq = S /\ forall i, i ∈ seq -> 0 <= i < n.
Proof.
  induction 1 as [|seq S s l s' _ [IH1 IH2] (p & q & _ & _ & Hst)]; [set_solver|].
  destruct Hst as (e & mt & r & He & _). rewrite list_to_set_app_L, IH1. split; [set_solver|].
  intros i [Hi| ->%list_elem_of_singleton]%elem_of_app; [auto|]. rewrite (idl_at l e) by done.
  by apply (ho_range _ _ Hes l).
Qed.

(** * The cache *)

Context (equal : St -> St -> bool) (Hequal : Equal model = Some equal).
Context (equal_sound : forall s t, equal s t = true -> s = t).

Lemma bucket_contains_spec bucket e :
  exists b, bucket_contains model bucket e = Some b /\
    (b = true -> exists elem, elem ∈ bucket /\ linearized elem = linearized e /\ cstate elem = cstate e).
Proof.
  induction bucket as [|x bucket (b & Hb & IH)]; simpl; [by exists false|].
  assert (b = true -> exists elem, elem ∈ x :: bucket /\ linearized elem = linearized e /\ cstate elem = cstate e)
    as IH' by (intros (elem & ? & ?)%IH; exists elem; split; [by right|done]).
  destruct (equals _ _) eqn:E1; [|eauto]. rewrite Hequal. destruct (equal _ _) eqn:E2; [|eauto].
  exists true. split; [done|]. intros _. exists x. apply equals_spec in E1. apply equal_sound in E2.
  split_and!; [by left|done|done].
Qed.

Lemma cacheContains_spec ca e :
  exists b, cacheContains model ca e = Some b /\
    (b = true -> exists elem, cached ca elem /\ linearized elem = linearized e /\ cstate elem = cstate e).
Proof.
  unfold cacheContains. destruct (ca !! hash (linearized e)) as [bucket|] eqn:E; simpl;
    [|by exists false].
  destruct (bucket_contains_spec bucket e) as (b & Hb & H). exists b. split; [done|].
  intros (elem & Hin & ?)%H. exists elem. split; [|done]. by exists (hash (linearized e)), bucket.
Qed.

Lemma cache_add_spec ca e x : cached (cache_add ca e) x -> x = e \/ cached ca x.
Proof.
  intros (h & b & Hb & Hx). unfold cache_add in Hb.
  apply lookup_insert_Some in Hb as [[<- <-]|[Hne Hb]]; [|right; by exists h, b].
  apply elem_of_app in Hx as [Hx| ->%list_elem_of_singleton]; [|by left]. right.
  destruct (ca !! _) as [b|] eqn:E; simpl in Hx; [|by apply not_elem_of_nil in Hx]. by exists (hash (linearized e)), b.
Qed.

Lemma cache_ok_add F ca S s b :
  holds n b S -> cache_ok F ca -> cache_ok ((S, s) :: F) (cache_add ca (mkCacheEntry b s)).
Proof.
  intros Hb H x [->|Hx]%cache_add_spec; simpl.
  - exists S. split; [done|]. right. by left.
  - destruct (H x Hx) as (T & HT & [?|?]); exists T; (split; [done|]); [by left|right; by right].
Qed.

Lemma cache_ok_pop F ca S s : ~ comp S s -> cache_ok ((S, s) :: F) ca -> cache_ok F ca.
Proof.
  intros Hd H x Hx. destruct (H x Hx) as (T & HT & [?|[[= -> ->]|?]%elem_of_cons]); eauto.
Qed.

(** A situation larger than every level on the stack is cached only when it is
    hopeless. *)
Lemma cached_dead F ca S s b :
  cache_ok F ca -> holds n b S -> (forall T t, (T, t) ∈ F -> T <> S) ->
  cacheContains model ca (mkCacheEntry b s) = Some true -> ~ comp S s.
Proof.
  intros H Hb HF Hc. destruct (cacheContains_spec ca (mkCacheEntry b s)) as (c & Hc' & Hs).
  rewrite Hc in Hc'. injection Hc' as <-. destruct (Hs eq_refl) as (elem & Hin & E1 & E2). simpl in *.
  destruct (H elem Hin) as (T & HT & Hor). rewrite E1 in HT. rewrite E2 in Hor.
  rewrite (holds_det n b T S HT Hb) in Hor. destruct Hor as [?|Hin']; [done|]. by destruct (HF S s Hin').
Qed.

(** * Partial linearizations recorded on the way back *)

Lemma update_longest_ok ids p lg :
  longest_ok lg -> (forall i, i ∈ ids -> 0 <= i < n /\ i ∈ pointee p) ->
  (exists S s, partial (pointee p) S s) ->
  exists lg', update_longest ids p lg = Some lg' /\ longest_ok lg'.
Proof.
  revert lg. induction ids as [|i ids IH]; intros lg Hlg Hids Hp; simpl; [by exists lg|].
  destruct (Hids i) as [Hi Hip]; [by left|]. pose proof Hlg as [Hlen Hok].
  destruct (go_index_is_Some lg i) as [old Hold]; [lia|]. rewrite Hold. simpl.
  assert (longest_ok (<[Z.to_nat i := Some p]> lg)) as Hst.
  { split; [by rewrite zlen_insert|]. intros j q. rewrite go_index_insert by lia.
    case_decide; [|apply Hok]. intros [= <-]. subst. done. }
  assert (exists lg1, match old with
      | Some q => if decide (zlen (pointee q) < zlen (pointee p)) then go_store lg i (Some p) else Some lg
      | None => go_store lg i (Some p)
      end = Some lg1 /\ longest_ok lg1) as (lg1 & -> & H1).
  { rewrite go_store_Some by lia. destruct old; [case_decide|]; eauto. }
  simpl. apply IH; [done| |done]. intros j Hj. apply Hids. by right.
Qed.

(** * Single turns *)

(** The model accepts every value of the history (no failed type assertion). *)
Context (step_total : forall s e r, e ∈ es -> r ∈ es -> kind e = callEntry -> kind r = returnEntry ->
  id e = id r -> is_Some (Step model s (value e) (value r))).

Context (computePartial : bool).
Abbreviation never := (fun _ : nat => false).
Abbreviation loop k c := (check_loop model k headLoc n computePartial never c).
Abbreviation turn c := (check_iter model headLoc n computePartial never c).

Lemma loop_app k m c c' : loop k c = Some (Continue c') -> loop (k + m)%nat c = loop m c'.
Proof.
  revert c. induction k as [|k IH]; intros c; simpl; [by intros [= ->]|].
  destruct (check_iter _ _ _ _ _ c) as [[c1|b l]|]; simpl; [apply IH|done|done].
Qed.

Lemma node_at S s seq c l e : at_level S s seq c -> at_loc es l = Some e ->
  exists nd, sheap c !! l = Some nd /\ node_of es l e nd.
Proof. intros []. auto. Qed.

Lemma head_next S s seq c : at_level S s seq c ->
  exists hd, sheap c !! headLoc = Some hd /\ next hd = hd_or None (live S).
Proof. intros [[(hd & Hhd & _ & Hn) _] _ _ _ _ _]. eauto. Qed.

Lemma next_of S s seq c p l q nd : at_level S s seq c -> live S = p ++ l :: q ->
  sheap c !! l = Some nd -> next nd = hd_or None q.
Proof.
  intros [Hs _ _ _ _ _] E Hl. rewrite E, app_comm_cons in Hs.
  destruct (seg_at _ _ _ _ _ _ Hs) as (nd' & Hl' & _ & Hn). congruence.
Qed.

Lemma call_ids_static (cs : list (callsEntry St)) (h h' : heap V) :
  static <$> h' = static <$> h -> forall seq, call_ids cs h = Some seq -> call_ids cs h' = Some seq.
Proof.
  intros E seq. unfold call_ids. rewrite !mapM_Some. intros HF.
  eapply Forall2_impl; [exact HF|]. intros v i Hv. simpl in Hv |- *.
  apply bind_Some in Hv as (nd & Hnd & [= <-]).
  destruct (static_eq h h' _ _ E Hnd) as (nd' & -> & Hst). simpl. unfold static in Hst. congruence.
Qed.

Lemma call_ids_snoc (cs : list (callsEntry St)) (h : heap V) seq l s0 nd :
  call_ids cs h = Some seq -> h !! l = Some nd ->
  call_ids (cs ++ [mkCallsEntry l s0]) h = Some (seq ++ [nid nd]).
Proof.
  unfold call_ids. rewrite !mapM_Some. intros H Hl. apply Forall2_app; [done|].
  constructor; [|constructor]. simpl. by rewrite Hl.
Qed.

Lemma entry_nodes_static (h h' : heap V) : static <$> h' = static <$> h -> entry_nodes h -> entry_nodes h'.
Proof.
  intros E H l e He. destruct (H l e He) as (nd & Hnd & Hno).
  destruct (static_eq h h' l nd E Hnd) as (nd' & Hnd' & Hst). exists nd'. split; [done|].
  by eapply static_node_of.
Qed.

(** The step of the model a call node stands for. *)
Lemma call_step S s seq c l e nd :
  at_level S s seq c -> at_loc es l = Some e -> kind e = callEntry ->
  sheap c !! l = Some nd -> node_of es l e nd ->
  exists mt matching ok s', match_ nd = Some mt /\ return_at es mt (id e) /\
    sheap c !! mt = Some matching /\
    Step model s (nvalue nd) (nvalue matching) = Some (ok, s') /\
    (forall t, steps s l t -> ok = true /\ t = s') /\ (ok = true -> steps s l s').
Proof.
  intros Hal He Hk Hnd (Hv & Hi & Hm). rewrite Hk in Hm. destruct Hm as [Hm1 Hm2].
  destruct (ho_return _ _ Hes l e He Hk) as (mt0 & Hlt & Hr0). destruct (Hm2 mt0 Hlt Hr0) as [mt Hmt].
  destruct (Hm1 mt Hmt) as [_ Hr]. pose proof Hr as (r & Hrl & Hkr & Hir).
  destruct (node_at _ _ _ _ mt r Hal Hrl) as (matching & Hmatch & Hvr & _).
  destruct (step_total s e r) as [[ok s'] Hst];
    [by eapply at_loc_elem|by eapply at_loc_elem|done|done|done|].
  exists mt, matching, ok, s'. rewrite Hv, Hvr. split_and!; [done|done|done|done| |].
  - intros t (e' & mt' & r' & He' & _ & Hr' & Hkr' & Hir' & Hst').
    assert (e' = e) as -> by congruence.
    assert (mt' = mt) as -> by (eapply (ho_uniq _ _ Hes); [done|done|congruence|congruence]).
    assert (r' = r) as -> by congruence. rewrite Hst in Hst'. naive_solver.
  - intros ->. by exists e, mt, r.
Qed.

Lemma steps_det s l t t' : steps s l t -> steps s l t' -> t = t'.
Proof.
  intros (e & mt & r & He & Hk & Hr & Hkr & Hi & Hst) (e' & mt' & r' & He' & Hk' & Hr' & Hkr' & Hi' & Hst').
  assert (e' = e) as -> by congruence.
  assert (mt' = mt) as -> by (eapply (ho_uniq _ _ Hes); [done|done|congruence|congruence]). congruence.
Qed.

(** Lifting the call at [l] leads to the list of the next level. *)
Lemma lift_level S s seq c p l q e :
  at_level S s seq c -> live S = p ++ l :: q -> at_loc es l = Some e -> kind e = callEntry ->
  exists h', lift l (sheap c) = Some h' /\ seg h' None (path (S ∪ {[idl l]})) None /\
    unlift l h' = Some (sheap c) /\ static <$> h' = static <$> sheap c.
Proof.
  intros Hal E He Hk.
  destruct (node_at _ _ _ _ l e Hal He) as (nd & Hnd & Hno).
  destruct (call_step _ _ _ _ _ _ _ Hal He Hk Hnd Hno) as (mt & _ & _ & _ & Hmt & Hr & _).
  destruct (live_split S p l q e E He Hk) as (mt' & q1 & q2 & Hr' & -> & Hlive).
  assert (mt' = mt) as ->.
  { destruct Hr as (r & ? & ? & ?), Hr' as (r' & ? & ? & ?).
    eapply (ho_uniq _ _ Hes); [done|done|congruence|congruence]. }
  pose proof (al_seg _ _ _ _ Hal) as Hseg. rewrite E, app_comm_cons in Hseg.
  assert (NoDup ((headLoc :: p) ++ l :: q1 ++ mt :: q2)) as Hnodup.
  { rewrite <- app_comm_cons, <- E. apply NoDup_cons. split; [|apply live_NoDup].
    intros [_ ?]%live_elem. lia. }
  destruct (exists_last (l := headLoc :: p)) as (p' & a & Ep); [done|].
  rewrite Ep, <- app_assoc in Hseg, Hnodup.
  destruct (lift_unlift _ p' a l q1 mt q2 nd Hnodup Hseg Hnd Hmt) as (h' & Hl & Hs' & Hu & Hst).
  exists h'. split_and!; [done| |done|done].
  rewrite Hlive, app_comm_cons, Ep, <- app_assoc. done.
Qed.

(** A turn at a node of a non-empty list looks at the current node. *)
Lemma turn_cur S s seq c l nd :
  at_level S s seq c -> live S <> [] -> cur c = Some l -> sheap c !! l = Some nd ->
  turn c = match match_ nd with
           | Some mt => try_call model headLoc l nd mt c
           | None => backtrack computePartial c
           end.
Proof.
  intros Hal Hne Hcur Hnd. destruct (head_next _ _ _ _ Hal) as (hd & Hhd & Hn).
  unfold check_iter. rewrite Hhd. simpl. rewrite Hn, Hcur. simpl. rewrite Hnd.
  destruct (live S); [done|]. done.
Qed.

(** One turn at a call node: the call is rejected for good, or taken. *)
Lemma turn_call S s seq c p l q e F :
  at_level S s seq c -> live S = p ++ l :: q -> Forall is_call p -> cur c = Some l ->
  at_loc es l = Some e -> kind e = callEntry ->
  cache_ok F (cache c) -> (forall T t, (T, t) ∈ F -> T ⊆ S) ->
  (exists c1, turn c = Some (Continue c1) /\ same_level c c1 /\ cache c1 = cache c /\
     longest c1 = longest c /\ cur c1 = hd_or None q /\ dead_choice S s l) \/
  (exists c1 s', turn c = Some (Continue c1) /\ steps s l s' /\
     at_level (S ∪ {[idl l]}) s' (seq ++ [idl l]) c1 /\ longest c1 = longest c /\
     cache_ok ((S ∪ {[idl l]}, s') :: F) (cache c1) /\ cur c1 = hd_or None (live (S ∪ {[idl l]})) /\
     calls c1 = calls c ++ [mkCallsEntry l s] /\ unlift l (sheap c1) = Some (sheap c)).
Proof.
  intros Hal E Hp Hcur He Hk Hca HF.
  destruct (node_at _ _ _ _ l e Hal He) as (nd & Hnd & Hno).
  destruct (call_step _ _ _ _ _ _ _ Hal He Hk Hnd Hno) as (mt & mg & ok & s' & Hmt & Hr & Hmg & Hst & Hdet & Hok).
  pose proof (next_of _ _ _ _ _ _ _ _ Hal E Hnd) as Hnx.
  pose proof Hno as (_ & Hid & _). rewrite <- (idl_at l e He) in Hid.
  assert (l ∈ live S) as [HlS Hll]%live_elem by (rewrite E; set_solver).
  assert (0 <= idl l < n) as Hrange by (rewrite (idl_at l e) by done; by apply (ho_range _ _ Hes l)).
  rewrite (turn_cur S s seq c l nd Hal) by (done || (rewrite E; by destruct p)).
  pose proof (al_state _ _ _ _ Hal) as Hs0. rewrite <- Hs0 in Hst.
  rewrite Hmt. unfold try_call. rewrite Hmg. simpl. rewrite Hst. simpl.
  destruct ok.
  2: { left. eexists. split; [done|]. split_and!; try done. intros t Ht. by destruct (Hdet t Ht). }
  rewrite clone_same, Hid.
  destruct (set_holds n (lin c) S (idl l) (al_lin _ _ _ _ Hal) Hrange) as (b' & -> & Hb').
  simpl. destruct (cacheContains_spec (cache c) (mkCacheEntry b' s')) as (seen & Hseen & _).
  rewrite Hseen. simpl. destruct seen; simpl.
  { left. eexists. split; [done|]. split_and!; try done. intros t Ht. destruct (Hdet t Ht) as [_ ->].
    eapply cached_dead; [exact Hca|exact Hb'| |exact Hseen]. intros T u HT%HF. set_solver. }
  right. destruct (lift_level _ _ _ _ _ _ _ _ Hal E He Hk) as (h' & -> & Hs' & Hu & Hstat). simpl.
  pose proof Hs' as [(hd & Hhd & _ & Hnhd) _]. rewrite Hhd. simpl.
  eexists _, s'. split; [done|]. simpl. rewrite Hs0.
  split_and!; try done; [by apply Hok| |by apply cache_ok_add].
  split; simpl; try done.
  - by apply (entry_nodes_static (sheap c)), Hal.
  - apply (call_ids_static _ (sheap c)); [done|]. rewrite <- Hid. apply call_ids_snoc; [apply Hal|done].
  - econstructor; [apply Hal|]. exists p, q. by auto.
Qed.

Lemma take_snoc {A} (k : list A) x : take (length (k ++ [x]) - 1) (k ++ [x]) = k.
Proof. rewrite length_app. simpl. rewrite Nat.add_sub. apply take_app_length. Qed.

(** One turn at a return node gives the last choice up. *)
Lemma turn_back S s seq c p l q e s' c' :
  at_level S s seq c -> live S = p ++ l :: q -> at_loc es l = Some e -> kind e = callEntry ->
  at_level (S ∪ {[idl l]}) s' (seq ++ [idl l]) c' -> longest_ok (longest c') ->
  calls c' = calls c ++ [mkCallsEntry l s] -> unlift l (sheap c') = Some (sheap c) ->
  (exists x, cur c' = Some x /\ x ∈ live (S ∪ {[idl l]}) /\ ~ is_call x) ->
  exists c2, turn c' = Some (Continue c2) /\ same_level c c2 /\ cache c2 = cache c' /\
    longest_ok (longest c2) /\ cur c2 = hd_or None q.
Proof.
  intros Hal E He Hk Hal' Hlg Hcalls Hun (x & Hcur & Hx & Hnc).
  destruct (node_at _ _ _ _ l e Hal He) as (nd & Hnd & Hno).
  destruct (node_at _ _ _ _ l e Hal' He) as (nd' & Hnd' & _ & Hid & _). rewrite <- (idl_at l e He) in Hid.
  assert (l ∈ live S) as [HlS _]%live_elem by (rewrite E; set_solver).
  destruct (partial_range _ _ _ (al_partial _ _ _ _ Hal')) as [_ Hrange].
  assert (exists ndx, sheap c' !! x = Some ndx /\ match_ ndx = None) as (ndx & Hndx & Hmx).
  { apply live_elem in Hx as [_ Hxl]. destruct (at_loc_Some x Hxl) as [ex Hex].
    destruct (node_at _ _ _ _ x ex Hal' Hex) as (ndx & ? & _ & _ & Hm). exists ndx. split; [done|].
    destruct (kind ex) eqn:Ek; [|done]. exfalso. apply Hnc. by exists ex. }
  rewrite (turn_cur _ _ _ _ x ndx Hal') by (done || (intros Hn; rewrite Hn in Hx; by apply not_elem_of_nil in Hx)).
  rewrite Hmx. unfold backtrack. rewrite Hcalls, last_snoc, <- Hcalls.
  assert (exists lg', (if computePartial
      then seq0 ← call_ids (calls c') (sheap c');
           update_longest seq0 (mkSeqPtr (iter c') seq0) (longest c')
      else Some (longest c')) = Some lg' /\ longest_ok lg') as (lg' & -> & Hlg').
  { destruct computePartial; [|by exists (longest c')]. rewrite (al_calls _ _ _ _ Hal'). simpl.
    apply update_longest_ok; [done|auto|]. eexists _, _. apply Hal'. }
  simpl. rewrite Hnd'. simpl. rewrite Hid.
  destruct (clear_holds n (lin c') _ (idl l) (al_lin _ _ _ _ Hal')) as (b' & -> & Hb');
    [apply Hrange; set_solver|].
  simpl. rewrite Hun. simpl. rewrite Hnd. simpl. eexists. split; [done|].
  split; [|split_and!; [done|done|]].
  - unfold same_level. simpl. split_and!; [done| |by rewrite Hcalls, take_snoc|by rewrite (al_state _ _ _ _ Hal)].
    apply (holds_inj n _ _ S); [|apply Hal].
    by replace ((S ∪ {[idl l]}) ∖ {[idl l]}) with S in Hb' by set_solver.
  - by apply (next_of _ _ _ _ _ _ _ _ Hal E Hnd).
Qed.

(** * The search *)

(** The search succeeds: it has found a linearization of all operations. *)
Definition success (k : nat) (c : Search V St) : Prop :=
  exists seq S s a, loop k c = Some (Finish true (replicate (Z.to_nat n) (Some (mkSeqPtr a seq)))) /\
    partial seq S s /\ live S = [].

(** The search of a level fails: it reaches a return node of the level. *)
Definition failure (S : gset Z) (F : list (gset Z * St)) (k : nat) (c : Search V St) : Prop :=
  exists c', loop k c = Some (Continue c') /\ same_level c c' /\ cache_ok F (cache c') /\
    longest_ok (longest c') /\ exists x, cur c' = Some x /\ x ∈ live S /\ ~ is_call x.

Definition explored (S : gset Z) (s : St) (F : list (gset Z * St)) (c : Search V St) : Prop :=
  exists k, success k c \/ failure S F k c /\ ~ comp S s.

Lemma same_level_trans c c1 c2 : same_level c c1 -> same_level c1 c2 -> same_level c c2.
Proof. unfold same_level. intros (-> & -> & -> & ->). done. Qed.

(** Turns that stay at a level may be put before an exploration. *)
Lemma explored_before S s F c k c1 :
  loop k c = Some (Continue c1) -> same_level c c1 -> explored S s F c1 -> explored S s F c.
Proof.
  intros Hk Hsame (m & Hm). exists (k + m)%nat. destruct Hm as [(seq & T & t & a & H & ?)|[(c' & H & Hs & ?) Hd]].
  - left. exists seq, T, t, a. by rewrite (loop_app k m c c1).
  - right. split; [|done]. exists c'. rewrite (loop_app k m c c1) by done. split; [done|].
    split; [by eapply same_level_trans|done].
Qed.

Lemma loop_1 c c1 : turn c = Some (Continue c1) -> loop 1 c = Some (Continue c1).
Proof. simpl. by intros ->. Qed.

Lemma explore_done S s seq F c : at_level S s seq c -> live S = [] -> explored S s F c.
Proof.
  intros Hal E. exists 1%nat. left. exists seq, S, s, (iter c). split; [|split; [apply Hal|done]].
  destruct (head_next _ _ _ _ Hal) as (hd & Hhd & Hn). rewrite E in Hn.
  simpl. unfold check_iter. rewrite Hhd. simpl. rewrite Hn. simpl. by rewrite (al_calls _ _ _ _ Hal).
Qed.

Lemma live_shorter S p l q e : live S = p ++ l :: q -> at_loc es l = Some e -> kind e = callEntry ->
  (length (live (S ∪ {[idl l]})) < length (live S))%nat.
Proof.
  intros E He Hk. destruct (live_split S p l q e E He Hk) as (mt & q1 & q2 & _ & -> & ->).
  rewrite E. repeat (rewrite length_app; simpl). lia.
Qed.

Lemma explore m : forall S s seq F, (length (live S) <= m)%nat -> (forall T t, (T, t) ∈ F -> T ⊆ S) ->
  forall q p c, at_level S s seq c -> live S = p ++ q -> Forall is_call p -> Forall (dead_choice S s) p ->
  cur c = hd_or None q -> cache_ok F (cache c) -> longest_ok (longest c) -> explored S s F c.
Proof.
  induction m as [m IHm] using lt_wf_ind. intros S s seq F Hm HF q.
  induction q as [|l q IHq]; intros p c Hal E Hcalls Hdead Hcur Hca Hlg.
  { apply (explore_done S s seq); [done|]. apply live_has_return. by rewrite E, app_nil_r. }
  assert (l ∈ live S) as Hl by (rewrite E; set_solver).
  destruct (at_loc_Some l) as [e He]; [by apply live_elem in Hl as [_ ?]|]. destruct (kind e) eqn:Hk.
  2: { assert (~ is_call l) as Hnc by (intros (e' & ? & ?); congruence).
       exists 0%nat. right. split; [|by eapply dead_level].
       exists c. split; [done|]. split; [done|]. split; [done|]. split; [done|]. by exists l. }
  assert (Forall is_call (p ++ [l])) as Hcalls' by (apply Forall_app; split; [done|]; constructor; [by exists e|done]).
  assert (live S = (p ++ [l]) ++ q) as E' by (by rewrite <- app_assoc).
  destruct (turn_call S s seq c p l q e F) as [(c1 & Ht & Hsame & Hc1 & Hl1 & Hcur1 & Hd)|
    (c1 & s' & Ht & Hst & Hal1 & Hl1 & Hca1 & Hcur1 & Hcalls1 & Hun)]; try done.
  - apply (explored_before _ _ _ _ 1 c1); [by apply loop_1|done|].
    apply (IHq (p ++ [l])); try done; [by apply (at_level_same _ _ _ c)|apply Forall_app; by auto|by rewrite Hc1|by rewrite Hl1].
  - pose proof (live_shorter S p l q e E He Hk) as Hsh.
    destruct (IHm (length (live (S ∪ {[idl l]}))) ltac:(lia) (S ∪ {[idl l]}) s' (seq ++ [idl l])
      ((S ∪ {[idl l]}, s') :: F) ltac:(lia)) with (q := live (S ∪ {[idl l]})) (p := @nil nat) (c := c1)
      as (k & [(sq & T & t & a & Hk1 & Hp1)|[(c' & Hk1 & Hsame1 & Hca' & Hlg' & Hx) Hnc]]); try done.
    + intros T t [[= -> ->]|HT%HF]%elem_of_cons; set_solver.
    + by rewrite Hl1.
    + exists (1 + k)%nat. left. exists sq, T, t, a. split; [|done]. simpl. by rewrite Ht.
    + destruct Hsame1 as (Eh & El & Ec & Es).
      destruct (turn_back S s seq c p l q e s' c') as (c2 & Ht2 & Hsame2 & Hc2 & Hlg2 & Hcur2);
        try done; [by apply (at_level_same _ _ _ c1)|congruence|by rewrite Eh|].
      apply (explored_before _ _ _ _ (1 + (k + 1)) c2); [|done|].
      * rewrite (loop_app 1 (k + 1) c c1) by (by apply loop_1).
        rewrite (loop_app k 1 c1 c') by done. by apply loop_1.
      * apply (IHq (p ++ [l])); try done; [by apply (at_level_same _ _ _ c)| |rewrite Hc2; by eapply cache_ok_pop].
        apply Forall_app. split; [done|]. constructor; [|done].
        intros t Ht'. assert (t = s') as ->; [|done]. eapply steps_det; done.
Qed.
End search.
