(* ===== verification/PorcupineSpec.v ===== *)
(** The checker decides linearizability.

    First for the entries of one partition: the search always finishes, and
    answers true exactly when the operations can be put in an order that the
    model accepts and that keeps every operation after those that returned
    before it was called.  Then for histories of operations with times. *)

From Stdlib Require Import String.
From S2P Require Import Prelude Bitset Porcupine PorcupineHeap PorcupineSearch.
Local Open Scope Z_scope.

Section decides.
Context {V St : Type} (model : Model V St).
Context (es : list (entry V)) (n : Z) (Hes : history_ok es n).

(** Operation [j] returned before operation [i] was called. *)
Definition precedes (j i : Z) : Prop :=
  exists lr lc e, return_at es lr j /\ at_loc es lc = Some e /\ kind e = callEntry /\ id e = i /\ (lc < lr)%nat.

(** The model accepts the operations of [seq] from state [s]. *)
Fixpoint accepts (s : St) (seq : list Z) : Prop :=
  match seq with
  | [] => True
  | i :: seq => exists l s', idl es l = i /\ steps model es s l s' /\ accepts s' seq
  end.

Definition linearization (s : St) (seq : list Z) : Prop :=
  StronglySorted (fun i j => ~ precedes j i) seq /\ accepts s seq.

Definition remaining (S : gset Z) : list Z := filter (fun i => i ∉ S) (seqZ 0 n).

Lemma remaining_elem S i : i ∈ remaining S <-> (i ∉ S) /\ 0 <= i < n.
Proof. unfold remaining. rewrite list_elem_of_filter, elem_of_seqZ. by rewrite Z.add_0_l. Qed.

Lemma remaining_add S i : 0 <= i < n -> i ∉ S -> remaining S ≡ₚ i :: remaining (S ∪ {[i]}).
Proof.
  intros Hi HS. apply NoDup_Permutation.
  - apply NoDup_filter, NoDup_seqZ.
  - apply NoDup_cons. split; [|apply NoDup_filter, NoDup_seqZ]. rewrite remaining_elem. set_solver.
  - intros j. rewrite elem_of_cons, !remaining_elem. destruct (decide (j = i)) as [->|]; set_solver.
Qed.

(** A call in the list has its operation in [remaining]. *)
Lemma live_remaining S : live es S = [] <-> remaining S = [].
Proof.
  split; intros H.
  - apply elem_of_nil_inv. intros j [Hj Hr]%remaining_elem.
    destruct (ho_all _ _ Hes j Hr) as (l & e & He & _ & Hi).
    assert (l ∈ live es S) as Hl.
    { apply live_elem. rewrite (idl_at es l e), Hi by done. split; [done|]. by eapply at_loc_lt. }
    rewrite H in Hl. by apply not_elem_of_nil in Hl.
  - apply elem_of_nil_inv. intros l [Hl Hlt]%live_elem. destruct (at_loc_Some es l Hlt) as [e He].
    rewrite (idl_at es l e) in Hl by done. assert (id e ∈ remaining S) as Hx.
    { apply remaining_elem. split; [done|]. by apply (ho_range _ _ Hes l). }
    rewrite H in Hx. by apply not_elem_of_nil in Hx.
Qed.

(** In the list of live nodes a larger location comes earlier. *)
Lemma live_order S p l q x : live es S = p ++ l :: q -> x ∈ live es S ->
  (x ∈ p <-> (l < x)%nat) /\ (x ∈ q <-> (x < l)%nat).
Proof.
  intros E Hx. pose proof (live_NoDup es S) as Hnd. rewrite E in Hnd, Hx.
  apply NoDup_app in Hnd as (Hp & Hd & Hq). apply NoDup_cons in Hq as [Hlq Hq].
  assert (x ∈ q -> (x < l)%nat) as Hlt.
  { intros Hxq. destruct (Nat.lt_trichotomy x l) as [|[->|Hgt]]; [done|done|].
    apply list_elem_of_split in Hxq as (q1 & q2 & ->).
    assert (l ∈ q2) by (eapply (filter_locs_split _ _ (p ++ l :: q1) x q2);
      [by rewrite <- app_assoc; exact E|set_solver|done]). set_solver. }
  assert ((x < l)%nat -> x ∈ q) as Hgt by (intros; by eapply filter_locs_split).
  split; [|done]. split.
  - intros Hxp. destruct (Nat.lt_trichotomy x l) as [Hl|[->|]]; [|set_solver|done].
    apply Hgt in Hl. set_solver.
  - intros Hl. apply elem_of_app in Hx as [?|[->|Hxq]%elem_of_cons]; [done|lia|]. apply Hlt in Hxq. lia.
Qed.

Lemma pick_first S s l s' j : pick model es S s l s' -> j ∉ S -> ~ precedes j (idl es l).
Proof.
  intros (p & q & E & Hcalls & Hst) Hj (lr & lc & e & (r & Hr & Hkr & Hir) & He & Hk & Hi & Hlt).
  destruct Hst as (e' & _ & _ & He' & Hk' & _).
  assert (lc = l) as ->.
  { eapply (ho_uniq _ _ Hes); [done|done|congruence|]. by rewrite Hi, (idl_at es l e'). }
  assert (lr ∈ live es S) as Hlr.
  { apply live_elem. rewrite (idl_at es lr r), Hir by done. split; [done|]. by eapply at_loc_lt. }
  destruct (live_order S p l q lr E Hlr) as [[_ Hp] _]. rewrite Forall_forall in Hcalls.
  destruct (Hcalls lr (Hp Hlt)) as (e2 & ? & ?). congruence.
Qed.

Lemma comp_linearization S s : comp model es S s -> exists seq, seq ≡ₚ remaining S /\ linearization s seq.
Proof.
  induction 1 as [S s Hnil|S s l s' Hpick _ (seq & Hperm & Hsort & Hacc)].
  - apply live_remaining in Hnil. exists []. rewrite Hnil. split; [done|]. split; [constructor|done].
  - pose proof Hpick as (p & q & E & _ & Hst).
    assert (l ∈ live es S) as [HS Hlt]%live_elem by (rewrite E; set_solver).
    destruct (at_loc_Some es l Hlt) as [e He]. exists (idl es l :: seq). split; [|split].
    + rewrite Hperm, <- remaining_add; [done| |done]. rewrite (idl_at es l e) by done.
      by apply (ho_range _ _ Hes l).
    + constructor; [done|]. apply Forall_forall. intros j Hj. rewrite Hperm in Hj.
      apply remaining_elem in Hj as [Hj _]. eapply pick_first; [done|set_solver].
    + simpl. eauto.
Qed.

Lemma linearization_comp seq : forall S s, seq ≡ₚ remaining S -> linearization s seq -> comp model es S s.
Proof.
  induction seq as [|i seq IH]; intros S s Hperm [Hsort Hacc].
  { apply comp_done, live_remaining. by apply Permutation_nil_l in Hperm. }
  destruct Hacc as (l & s' & Hl & Hst & Hacc). apply StronglySorted_inv in Hsort as [Hsort Hall].
  assert (i ∈ remaining S) as [HiS Hi]%remaining_elem by (rewrite <- Hperm; by left).
  pose proof Hst as (e & mt & r & He & Hk & _).
  assert (l ∈ live es S) as Hlive by (apply live_elem; rewrite Hl; split; [done|by eapply at_loc_lt]).
  destruct (list_elem_of_split _ _ Hlive) as (p & q & E). subst i.
  apply comp_pick with l s'.
  - exists p, q. split_and!; [done| |done]. apply Forall_forall. intros x Hx.
    assert (x ∈ live es S) as Hxl by (rewrite E; set_solver).
    destruct (live_order S p l q x E Hxl) as [[Hlt _] _]. specialize (Hlt Hx).
    apply live_elem in Hxl as [HxS Hxl]. destruct (at_loc_Some es x Hxl) as [ex Hex].
    rewrite (idl_at es x ex) in HxS by done.
    destruct (kind ex) eqn:Ekx; [by exists ex|]. exfalso.
    assert (id ex ∈ idl es l :: seq) as Hin.
    { rewrite Hperm. apply remaining_elem. split; [done|]. by apply (ho_range _ _ Hes x). }
    assert (return_at es x (id ex)) as Hret by (by exists ex).
    rewrite Forall_forall in Hall. apply elem_of_cons in Hin as [Heq|Hin].
    + rewrite (idl_at es l e) in Heq by done. destruct (ho_return _ _ Hes l e He Hk) as (m & Hm & r' & ? & ? & ?).
      assert (m = x) by (eapply (ho_uniq _ _ Hes); [done|done|congruence|congruence]). lia.
    + apply (Hall _ Hin). exists x, l, e. rewrite (idl_at es l e) by done. done.
  - apply IH; [|done]. apply (Permutation_cons_inv (a := idl es l)). rewrite Hperm. by apply remaining_add.
Qed.

(** * The result of [checkSingle] *)

Context (nilV : V) (equal : St -> St -> bool) (Hequal : Equal model = Some equal).
Context (equal_sound : forall s t, equal s t = true -> s = t).
(** The model accepts every value of the history (no failed type assertion). *)
Context (step_total : forall s e r, e ∈ es -> r ∈ es -> kind e = callEntry -> kind r = returnEntry ->
  id e = id r -> is_Some (Step model s (value e) (value r))).

Abbreviation headLoc := (length es).
Abbreviation never := (fun _ : nat => false).

(** The operations of the partition have a linearization. *)
Definition linearizable_entries : Prop := exists seq, seq ≡ₚ seqZ 0 n /\ linearization (Init model) seq.

Lemma linearizable_comp : linearizable_entries <-> comp model es ∅ (Init model).
Proof.
  assert (remaining ∅ = seqZ 0 n) as E by (apply filter_all, Forall_forall; set_solver).
  unfold linearizable_entries. rewrite <- E. split.
  - intros (seq & Hp & Hl). by eapply linearization_comp.
  - apply comp_linearization.
Qed.

Lemma partial_comp seq S s : partial model es seq S s -> comp model es S s -> comp model es ∅ (Init model).
Proof.
  induction 1 as [|seq S s l s' _ IH Hpick]; [done|]. intros Hc. apply IH. by eapply comp_pick.
Qed.

Lemma live_empty : live es ∅ = locs (length es).
Proof. apply filter_all, Forall_forall. set_solver. Qed.

Lemma search_init_spec : exists c, search_init nilV model es = Some (headLoc, n, c) /\
  at_level model es n ∅ (Init model) [] c /\ cur c = hd_or None (live es ∅) /\
  cache c = ∅ /\ calls c = [] /\ longest_ok model es n (longest c).
Proof.
  destruct (link_loop_ok es) as (s & Hs & [Hlen Hroot Hseg Hnode _ _]).
  pose proof (ho_len _ _ Hes) as Hn. unfold zlen in Hn.
  assert (zlen (locs headLoc) = 2 * n) as Hlocs by (unfold zlen, locs; by rewrite length_rev, length_seq).
  unfold search_init, makeLinkedEntries. rewrite Hs. simpl. unfold length_of.
  rewrite Hroot, (length_loop_seg _ _ _ None) by (done || (unfold locs; rewrite length_rev, length_seq; lia)).
  simpl. rewrite Z.add_0_l, Hlocs, (Z.mul_comm 2), Z.quot_mul by lia.
  unfold go_make. rewrite decide_True by lia. simpl.
  destruct (insert_front (lheap s) (locs headLoc) (mkNode nilV None (-1) None None)) as (h' & -> & Hs' & Hst);
    [apply locs_NoDup|intros l Hl%locs_elem; lia|done|done|done|].
  simpl. rewrite Hlen in *. eexists. split; [done|]. rewrite live_empty. simpl. split_and!; try done.
  - split; simpl; try done; [by rewrite live_empty| |apply newBitset_holds|constructor].
    apply (entry_nodes_static es (lheap s ++ [mkNode nilV None (-1) None None])); [done|].
    intros l e He. destruct (Hnode l e He) as (nd & Hnd & Hno). exists nd. split; [|done].
    by apply lookup_app_l_Some.
  - split; [unfold zlen; rewrite length_replicate; lia|]. intros i q Hq. unfold go_index in Hq.
    case_decide; [|done]. by apply lookup_replicate_1 in Hq as [? _].
Qed.

Context (computePartial : bool).
Abbreviation loop k c := (check_loop model k headLoc n computePartial never c).

Lemma loop_more k m kill c ok lg :
  check_loop model k headLoc n computePartial kill c = Some (Finish ok lg) ->
  check_loop model (k + m) headLoc n computePartial kill c = Some (Finish ok lg).
Proof.
  revert c. induction k as [|k IH]; intros c; simpl; [done|].
  destruct (check_iter _ _ _ _ _ c) as [[c1|b l]|]; simpl; [apply IH|done|done].
Qed.

(** A finished search was not cut short: [true] means a linearization was found,
    [false] that there is none. *)
Definition verdict (ok : bool) (lg : Longest) : Prop :=
  (ok = true <-> linearizable_entries) /\ longest_ok model es n lg.

Lemma full_longest_ok seq S s a : partial model es seq S s -> live es S = [] ->
  longest_ok model es n (replicate (Z.to_nat n) (Some (mkSeqPtr a seq))).
Proof.
  intros Hp Hl. pose proof (ho_len _ _ Hes) as Hn. unfold zlen in Hn.
  destruct (partial_range model es n Hes _ _ _ Hp) as [HS _].
  split; [unfold zlen; rewrite length_replicate; lia|]. intros i q Hq.
  assert (Hi := go_index_Some_lt _ _ _ Hq). unfold zlen in Hi. rewrite length_replicate in Hi.
  rewrite go_index_lookup in Hq by lia. apply lookup_replicate_1 in Hq as [[= ->] _]. simpl. split; [|eauto].
  apply (live_remaining S) in Hl. destruct (decide (i ∈ S)) as [HiS|HiS].
  - rewrite <- HS in HiS. by apply elem_of_list_to_set in HiS.
  - assert (i ∈ remaining S) as Hx by (apply remaining_elem; split; [done|lia]).
    rewrite Hl in Hx. by apply not_elem_of_nil in Hx.
Qed.

Lemma checkSingle_runs : exists k ok lg, checkSingle nilV model k es computePartial never = Some (Finish ok lg) /\
  verdict ok lg.
Proof.
  destruct search_init_spec as (c & Hinit & Hal & Hcur & Hca & Hcalls & Hlg).
  unfold checkSingle. rewrite Hinit. simpl.
  destruct (explore model es n Hes equal Hequal equal_sound step_total computePartial
    (length (live es ∅)) ∅ (Init model) [] [] ltac:(done) ltac:(set_solver) (live es ∅) [] c)
    as (k & [(seq & S & s & a & Hk & Hp & Hl)|[(c' & Hk & Hsame & Hca' & Hlg' & x & Hx & Hxl & Hnc) Hdead]]); try done.
  { rewrite Hca. by intros e (h & b & Hb & _). }
  - exists k, true, (replicate (Z.to_nat n) (Some (mkSeqPtr a seq))). split; [done|].
    split; [|by eapply full_longest_ok]. split; [intros _|done].
    apply linearizable_comp. eapply partial_comp; [done|]. by apply comp_done.
  - exists (k + 1)%nat, false, (longest c'). split.
    + rewrite (loop_app model es n computePartial k 1 c c') by done. simpl.
      assert (at_level model es n ∅ (Init model) [] c') as Hal' by (by apply (at_level_same _ _ _ _ _ _ c)).
      apply live_elem in Hxl as Hxl'. destruct Hxl' as [_ Hxlt].
      destruct (at_loc_Some es x Hxlt) as [ex Hex].
      destruct (node_at _ _ _ _ _ _ _ x ex Hal' Hex) as (nd & Hnd & _ & _ & Hm).
      rewrite (turn_cur model es n computePartial ∅ (Init model) [] c' x nd) by (done || (intros Hn; rewrite Hn in Hxl; by apply not_elem_of_nil in Hxl)).
      destruct (kind ex) eqn:Ek; [by destruct Hnc; exists ex|]. rewrite Hm. unfold backtrack.
      destruct Hsame as (_ & _ & -> & _). by rewrite Hcalls.
    + split; [|done]. split; [done|]. intros Hl%linearizable_comp. done.
Qed.

(** The verdict does not depend on the fuel, once there is enough. *)
Lemma checkSingle_fuel : exists k, forall fuel, (k <= fuel)%nat -> exists ok lg,
  checkSingle nilV model fuel es computePartial never = Some (Finish ok lg) /\ verdict ok lg.
Proof.
  destruct checkSingle_runs as (k & ok & lg & Hk & Hv). exists k. intros fuel Hf. exists ok, lg. split; [|done].
  unfold checkSingle in *. destruct search_init_spec as (c & Hinit & _). rewrite Hinit in *. simpl in *.
  replace fuel with (k + (fuel - k))%nat by lia. by apply loop_more.
Qed.
End decides.
