(* ===== verification/PorcupineOps.v ===== *)
(** Histories of operations: [makeEntries] builds a well-formed list of entries,
    and the search on it decides linearizability in terms of the times of the
    operations. *)

From Stdlib Require Import String.
From S2P Require Import Prelude Bitset Porcupine PorcupineHeap PorcupineSearch PorcupineSpec.
Local Open Scope Z_scope.

(** * Linearizability *)

Section linearizability.
Context {V St : Type} (step : St -> V -> V -> option (bool * St)).

(** The operations are accepted one after the other. *)
Fixpoint legal (s : St) (ops : list (Operation V)) : Prop :=
  match ops with
  | [] => True
  | o :: ops => exists s', step s (Input o) (Output o) = Some (true, s') /\ legal s' ops
  end.

(** [a] may come before [b]: [b] had not returned when [a] was called. *)
Definition may_precede (a b : Operation V) : Prop := ~ Return b < Call a.

(** Some order of the operations respects real time and is legal. *)
Definition linearizable (init : St) (ops : list (Operation V)) : Prop :=
  exists l, l ≡ₚ ops /\ StronglySorted may_precede l /\ legal init l.
End linearizability.

(** Entries of a sorted list: a larger location is an earlier entry. *)
Lemma sorted_locs {V} (R : entry V -> entry V -> Prop) es : StronglySorted R es ->
  forall l1 l2 a b, at_loc es l1 = Some b -> at_loc es l2 = Some a -> (l1 < l2)%nat -> R a b.
Proof.
  induction 1 as [|e es Hs IH Hall]; intros l1 l2 a b Hb Ha Hlt; [by apply at_loc_lt in Hb; simpl in Hb; lia|].
  pose proof (at_loc_lt _ _ _ Ha) as Hl2. simpl in Hl2.
  rewrite at_loc_cons in Hb. rewrite decide_False in Hb by lia.
  rewrite at_loc_cons in Ha. case_decide; [|by apply (IH l1 l2)].
  injection Ha as <-. rewrite Forall_forall in Hall. apply Hall. by eapply at_loc_elem.
Qed.

Section entries.
Context {V : Type} (sort_by_time : list (entry V) -> list (entry V)).
Context (sort_perm : forall l, sort_by_time l ≡ₚ l).
Context (sort_sorted : forall l, StronglySorted (fun a b => Less b a = false) (sort_by_time l)).
Implicit Types (ops : list (Operation V)) (e : entry V).

Definition call_of (i : Z) (o : Operation V) : entry V :=
  mkEntry callEntry (Input o) i (Call o) (oClientId o).
Definition return_of (i : Z) (o : Operation V) : entry V :=
  mkEntry returnEntry (Output o) i (Return o) (oClientId o).

Lemma op_entries_elem k ops e :
  e ∈ op_entries k ops <-> exists i o, ops.[i] = Some o /\ (e = call_of (k + i) o \/ e = return_of (k + i) o).
Proof.
  revert k. induction ops as [|o ops IH]; intros k; simpl.
  - rewrite elem_of_nil. split; [done|]. by intros (i & o & []%go_index_nil & _).
  - rewrite !elem_of_cons, IH. split.
    + intros [->|[->|(i & o' & Hi & He)]].
      * exists 0, o. rewrite Z.add_0_r. auto.
      * exists 0, o. rewrite Z.add_0_r. auto.
      * exists (i + 1), o'. pose proof (go_index_Some_lt _ _ _ Hi).
        rewrite go_index_cons_S, Z.add_simpl_r by lia. by replace (k + (i + 1)) with (k + 1 + i) by lia.
    + intros (i & o' & Hi & He). pose proof (go_index_Some_lt _ _ _ Hi).
      destruct (decide (i = 0)) as [->|].
      * rewrite go_index_cons_0 in Hi. injection Hi as <-. rewrite Z.add_0_r in He. naive_solver.
      * rewrite go_index_cons_S in Hi by lia. right. right. exists (i - 1), o'.
        by replace (k + 1 + (i - 1)) with (k + i) by lia.
Qed.

Lemma op_entries_len k ops : zlen (op_entries k ops) = 2 * zlen ops.
Proof.
  revert k. induction ops as [|o ops IH]; intros k; [done|]. simpl. rewrite !zlen_cons, IH. lia.
Qed.

Definition entry_key e : entryKind * Z := (kind e, id e).
Lemma op_entries_keys k ops : NoDup (map entry_key (op_entries k ops)).
Proof.
  revert k. induction ops as [|o ops IH]; intros k; simpl; [constructor|].
  assert (forall kd, (kd, k) ∉ map entry_key (op_entries (k + 1) ops)) as Hk.
  { intros kd (e & Hkey & Hin)%list_elem_of_fmap. apply op_entries_elem in Hin as (i & o' & Hi & He).
    apply go_index_Some_lt in Hi. unfold entry_key in Hkey. destruct He as [-> | ->]; simpl in Hkey;
      injection Hkey; lia. }
  apply NoDup_cons. split; [|apply NoDup_cons; split; [apply Hk|apply IH]].
  rewrite elem_of_cons. intros [?|?]; [done|]. by eapply Hk.
Qed.

Lemma Less_call_return (o : Operation V) i j : Call o <= Return o -> Less (call_of i o) (return_of j o) = true.
Proof. intros H. unfold Less. simpl. case_decide; [|done]. apply bool_decide_eq_true. lia. Qed.

Context (ops : list (Operation V)) (Hops : Forall (fun o => Call o <= Return o) ops).
Abbreviation es := (makeEntries sort_by_time ops).

Lemma entries_elem e : e ∈ es <-> exists i o, ops.[i] = Some o /\ (e = call_of i o \/ e = return_of i o).
Proof. unfold makeEntries. rewrite (sort_perm _), op_entries_elem. by setoid_rewrite Z.add_0_l. Qed.

Lemma entries_uniq l1 l2 e1 e2 : at_loc es l1 = Some e1 -> at_loc es l2 = Some e2 ->
  kind e1 = kind e2 -> id e1 = id e2 -> l1 = l2.
Proof.
  intros H1 H2 Hk Hi.
  assert (NoDup (entry_key <$> rev es)) as Hnd.
  { assert (entry_key <$> rev es ≡ₚ entry_key <$> op_entries 0 ops) as ->; [|apply op_entries_keys].
    unfold makeEntries. by rewrite <- Permutation_rev, sort_perm. }
  apply (NoDup_lookup _ l1 l2 (entry_key e1) Hnd); rewrite list_lookup_fmap; unfold at_loc in *.
  - by rewrite H1.
  - rewrite H2. simpl. unfold entry_key. by rewrite Hk, Hi.
Qed.

Lemma at_loc_of_elem e : e ∈ es -> exists l, at_loc es l = Some e.
Proof. intros He. apply list_elem_of_lookup. by apply list_elem_of_In, in_rev, list_elem_of_In in He. Qed.

(** The call and the return of operation [i]. *)
Lemma entries_of i o : ops.[i] = Some o ->
  exists lc lr, at_loc es lc = Some (call_of i o) /\ at_loc es lr = Some (return_of i o) /\ (lr < lc)%nat.
Proof.
  intros Hi. destruct (at_loc_of_elem (call_of i o)) as [lc Hc]; [apply entries_elem; eauto|].
  destruct (at_loc_of_elem (return_of i o)) as [lr Hr]; [apply entries_elem; eauto|].
  exists lc, lr. split_and!; [done|done|]. destruct (Nat.lt_trichotomy lr lc) as [|[->|Hlt]]; [done|unfold call_of, return_of in *; congruence|].
  pose proof (sorted_locs _ _ (sort_sorted (op_entries 0 ops)) lc lr _ _ Hc Hr Hlt) as Hless. simpl in Hless.
  rewrite Less_call_return in Hless; [done|]. rewrite Forall_forall in Hops. apply Hops.
  rewrite go_index_lookup in Hi by (apply go_index_Some_lt in Hi; lia). by eapply list_elem_of_lookup_2.
Qed.

Lemma entry_op l e : at_loc es l = Some e ->
  exists i o, ops.[i] = Some o /\ id e = i /\ (e = call_of i o \/ e = return_of i o).
Proof. intros He%at_loc_elem. apply entries_elem in He as (i & o & Hi & [-> | ->]); eauto 10. Qed.

Lemma makeEntries_ok : history_ok es (zlen ops).
Proof.
  split.
  - unfold makeEntries, zlen. rewrite (sort_perm _). apply op_entries_len.
  - intros l e (i & o & Hi & -> & _)%entry_op. by eapply go_index_Some_lt.
  - apply entries_uniq.
  - intros l e He Hk. destruct (entry_op l e He) as (i & o & Hi & _ & [-> | ->]); [|done].
    destruct (entries_of i o Hi) as (lc & lr & Hc & Hr & Hlt).
    assert (lc = l) as -> by (by eapply entries_uniq). exists lr. split; [done|]. by eexists.
  - intros mt i (r & Hr & Hk & Hi). destruct (entry_op mt r Hr) as (j & o & Hj & Hid & [-> | ->]); [done|].
    destruct (entries_of j o Hj) as (lc & lr & Hc & Hr' & Hlt).
    assert (lr = mt) as -> by (by eapply entries_uniq). exists lc, (call_of j o). simpl in *. split_and!; try done.
  - intros i Hi. destruct (go_index_is_Some ops i Hi) as [o Ho].
    destruct (entries_of i o Ho) as (lc & _ & Hc & _). by exists lc, (call_of i o).
Qed.

(** Precedence in the list is precedence in time. *)
Lemma precedes_time i j oi oj : ops.[i] = Some oi -> ops.[j] = Some oj ->
  precedes es j i <-> Return oj < Call oi.
Proof.
  intros Hi Hj. destruct (entries_of i oi Hi) as (lci & _ & Hci & _).
  destruct (entries_of j oj Hj) as (_ & lrj & _ & Hrj & _). split.
  - intros (lr & lc & e & (r & Hr & Hkr & Hir) & He & Hk & Hid & Hlt).
    assert (lc = lci) as -> by (by eapply entries_uniq). assert (lr = lrj) as -> by (by eapply entries_uniq).
    pose proof (sorted_locs _ _ (sort_sorted (op_entries 0 ops)) lci lrj _ _ Hci Hrj Hlt) as Hless.
    unfold Less in Hless. simpl in Hless. case_decide as Hne; [|done]. apply bool_decide_eq_false in Hless. lia.
  - intros Hlt. exists lrj, lci, (call_of i oi). split_and!; try done; [by eexists|].
    destruct (Nat.lt_trichotomy lci lrj) as [|[->|Hgt]]; [done|unfold call_of, return_of in *; congruence|].
    pose proof (sorted_locs _ _ (sort_sorted (op_entries 0 ops)) lrj lci _ _ Hrj Hci Hgt) as Hless.
    unfold Less in Hless. simpl in Hless. rewrite decide_True in Hless by lia.
    apply bool_decide_eq_false in Hless. lia.
Qed.
End entries.

(** * The answer for one partition *)

Section decide_ops.
Context {V St : Type} (sort_by_time : list (entry V) -> list (entry V)).
Context (sort_perm : forall l, sort_by_time l ≡ₚ l).
Context (sort_sorted : forall l, StronglySorted (fun a b => Less b a = false) (sort_by_time l)).
Context (model : Model V St).
Context (ops : list (Operation V)) (Hops : Forall (fun o => Call o <= Return o) ops).
Abbreviation es := (makeEntries sort_by_time ops).

Lemma steps_op s l s' i o : ops.[i] = Some o ->
  idl es l = i /\ steps model es s l s' <->
  at_loc es l = Some (call_of i o) /\ Step model s (Input o) (Output o) = Some (true, s').
Proof.
  intros Hi. destruct (entries_of sort_by_time sort_perm sort_sorted ops Hops i o Hi) as (lc & lr & Hc & Hr & _).
  split.
  - intros (Hid & e & mt & r & He & Hk & Hmt & Hkr & Hir & Hst).
    rewrite (idl_at es l e) in Hid by done. subst i.
    assert (lc = l) as -> by (by eapply (entries_uniq sort_by_time sort_perm)).
    assert (lr = mt) as -> by (by eapply (entries_uniq sort_by_time sort_perm)).
    split; [done|]. rewrite He in Hc. rewrite Hmt in Hr. injection Hc as Hc. injection Hr as Hr.
    by rewrite Hc, Hr in Hst.
  - intros [He Hst]. split; [by rewrite (idl_at es l (call_of i o))|].
    by exists (call_of i o), lr, (return_of i o).
Qed.

Lemma accepts_legal (f : Z -> Operation V) seq : (forall i, i ∈ seq -> ops.[i] = Some (f i)) ->
  forall s, accepts model es s seq <-> legal (Step model) s (map f seq).
Proof.
  induction seq as [|i seq IH]; intros Hf s; simpl; [done|].
  assert (ops.[i] = Some (f i)) as Hi by (apply Hf; by left).
  assert (forall s, accepts model es s seq <-> legal (Step model) s (map f seq)) as IH'
    by (apply IH; intros; apply Hf; by right).
  split.
  - intros (l & s' & Hid & Hst & Hacc). destruct (proj1 (steps_op s l s' i _ Hi) (conj Hid Hst)) as [_ Hs].
    exists s'. split; [done|]. by apply IH'.
  - intros (s' & Hs & Hl).
    destruct (entries_of sort_by_time sort_perm sort_sorted ops Hops i _ Hi) as (lc & _ & Hc & _).
    destruct (proj2 (steps_op s lc s' i _ Hi) (conj Hc Hs)). exists lc, s'. split_and!; [done|done|]. by apply IH'.
Qed.

Lemma ops_indexed o0 : ops = map (fun i => default o0 (ops.[i])) (seqZ 0 (zlen ops)).
Proof.
  apply go_index_ext; [unfold zlen; rewrite length_map, length_seqZ; lia|]. intros i Hi. unfold zlen in *.
  rewrite !go_index_lookup by lia. setoid_rewrite list_lookup_fmap.
  rewrite (lookup_seqZ_lt 0 (Z.of_nat (length ops))) by lia. simpl.
  rewrite Z.add_0_l, Z2Nat.id, go_index_lookup by lia.
  destruct (lookup_lt_is_Some_2 ops (Z.to_nat i)) as [o ->]; [lia|]. done.
Qed.

(** A linearization of the entries is a linearization of the operations. *)
Lemma linearizable_ops :
  linearizable_entries model es (zlen ops) <-> linearizable (Step model) (Init model) ops.
Proof.
  destruct (head ops) as [o0|] eqn:Eops.
  2: { assert (ops = []) as -> by (by destruct ops). split; [intros _; exists []; split; [done|split; [constructor|done]]|].
    intros _. exists []. split; [done|split; [constructor|done]]. }
  set (f := fun i => default o0 (ops.[i])).
  assert (forall seq, seq ≡ₚ seqZ 0 (zlen ops) -> forall i, i ∈ seq -> ops.[i] = Some (f i)) as Hf.
  { intros seq Hp i Hi. rewrite Hp in Hi. apply elem_of_seqZ in Hi.
    destruct (go_index_is_Some ops i) as [o Ho]; [lia|]. unfold f. by rewrite Ho. }
  assert (forall seq, seq ≡ₚ seqZ 0 (zlen ops) ->
    StronglySorted (fun i j => ~ precedes es j i) seq <-> StronglySorted may_precede (map f seq)) as Hsort.
  { intros seq Hp. specialize (Hf seq Hp). rewrite StronglySorted_map. unfold may_precede.
    split; apply StronglySorted_elem; intros i j Hi Hj Hn;
      pose proof (precedes_time sort_by_time sort_perm sort_sorted ops Hops i j _ _ (Hf i Hi) (Hf j Hj)); tauto. }
  split.
  - intros (seq & Hp & Hs & Hacc). exists (map f seq). split; [|split].
    + rewrite Hp. rewrite (ops_indexed o0) at 2. done.
    + by apply Hsort.
    + apply accepts_legal; [by apply Hf|done].
  - intros (l & Hp & Hs & Hl). rewrite (ops_indexed o0) in Hp.
    destruct (Permutation_map_inv _ _ Hp) as (seq & -> & Hseq). exists seq.
    split; [by symmetry|]. split; [by apply Hsort|].
    apply (accepts_legal f); [by apply Hf|done].
Qed.
End decide_ops.
