(* ===== verification/PorcupineCheck.v ===== *)
(** The checker's entry points: the goroutines, the [select] loop that collects
    their answers, and what the three results mean. *)

From Stdlib Require Import String.
From S2P Require Import Prelude Bitset Porcupine PorcupineHeap PorcupineSearch PorcupineSpec PorcupineOps.
Local Open Scope Z_scope.

(** * The [select] loop *)

Definition received (sched : list Sel) : list nat :=
  omap (fun x => match x with SResult i => Some i | STimeout => None end) sched.

Lemma received_results order : received (map SResult order) = order.
Proof. induction order as [|i order IH]; [done|]. cbn. by f_equal. Qed.

Section select.
Context (answers : list bool) (computeInfo : bool) (timeout : Z).
Abbreviation loop sched ok count := (select_loop answers computeInfo timeout sched ok count).

(** The goroutines whose answer was taken, and what [ok] and [count] say of them. *)
Record collected (got : list nat) (ok : bool) (count : Z) : Prop := {
  co_count : count = zlen got;
  co_known : forall i, i ∈ got -> is_Some (answers !! i);
  co_true : ok = true -> forall i, i ∈ got -> answers !! i = Some true;
  co_false : ok = false -> exists i, i ∈ got /\ answers !! i = Some false
}.

Lemma collected_add got ok count i r :
  collected got ok count -> answers !! i = Some r -> collected (i :: got) (ok && r) (count + 1).
Proof.
  intros [Hc Hk Ht Hf] Hi. split.
  - rewrite zlen_cons. lia.
  - intros j [->|Hj]%elem_of_cons; [by eexists|auto].
  - intros [Hok ->]%andb_true_iff j [->|Hj]%elem_of_cons; [done|auto].
  - intros [Hok| ->]%andb_false_iff; [|exists i; split; [by left|done]].
    destruct (Hf Hok) as (j & Hj & ?). exists j. split; [by right|done].
Qed.

(** As many different goroutines as there are have all answered. *)
Lemma collected_all got ok count : collected got ok count -> NoDup got -> zlen answers <= count ->
  forall i, (i < length answers)%nat -> i ∈ got.
Proof.
  intros [Hc Hk _ _] Hnd Hlen i Hi.
  assert (seq 0 (length answers) ⊆+ got) as Hsub.
  { assert (got ⊆+ seq 0 (length answers)) as Hs.
    { apply NoDup_submseteq; [done|]. intros j Hj. apply elem_of_seq.
      destruct (Hk j Hj) as [x Hx]. apply lookup_lt_Some in Hx. lia. }
    assert (got ≡ₚ seq 0 (length answers)) as ->; [|done].
    apply submseteq_length_Permutation; [done|]. rewrite length_seq. unfold zlen in *. lia. }
  eapply elem_of_submseteq; [|exact Hsub]. apply elem_of_seq. lia.
Qed.

Lemma select_sound sched : forall got ok count ok' timedOut,
  collected got ok count -> NoDup (received sched ++ got) -> loop sched ok count = Some (ok', timedOut) ->
  exists got' count', collected got' ok' count' /\ got' ⊆ received sched ++ got /\
    (ok' = true -> timedOut = false -> forall i, (i < length answers)%nat -> answers !! i = Some true).
Proof.
  induction sched as [|[i|] sched IH]; intros got ok count ok' timedOut Hco Hnd; simpl; [done| |].
  - destruct (answers !! i) as [r|] eqn:Hi; [|done]. simpl.
    pose proof (collected_add got ok count i r Hco Hi) as Hco'. simpl in Hnd.
    assert (NoDup (received sched ++ i :: got)) as Hnd' by (by rewrite <- Permutation_middle).
    case_match eqn:E1.
    { intros [= <- <-]. exists (i :: got), (count + 1). split_and!; [done|set_solver|].
      apply andb_true_iff in E1 as [E1 _]. by destruct (ok && r). }
    case_decide as E2.
    { intros [= <- <-]. exists (i :: got), (count + 1). split_and!; [done|set_solver|].
      intros Hok _ j Hj. eapply (co_true _ _ _ Hco' Hok).
      eapply (collected_all _ _ _ Hco'); [|done|done]. by apply NoDup_app in Hnd' as (_ & _ & ?). }
    intros Hl. destruct (IH _ _ _ _ _ Hco' Hnd' Hl) as (got' & count' & H1 & H2 & H3).
    exists got', count'. split_and!; [done|set_solver|done].
  - case_decide; [|done]. intros [= <- <-]. exists got, count. split_and!; [done|set_solver|done].
Qed.

(** When every goroutine answers, the loop ends without a time-out. *)
Lemma select_total order rest : forall got ok count,
  order <> [] -> order ++ got ≡ₚ seq 0 (length answers) -> count = zlen got ->
  exists ok', loop (map SResult order ++ rest) ok count = Some (ok', false).
Proof.
  induction order as [|i order IH]; intros got ok count Hne Hp Hc; simpl; [done|].
  assert (i ∈ seq 0 (length answers)) as [_ Hi]%elem_of_seq by (rewrite <- Hp; by left).
  destruct (lookup_lt_is_Some_2 answers i) as [r Hr]; [lia|]. rewrite Hr. simpl.
  case_match; [eauto|]. case_decide as E; [eauto|].
  apply (IH (i :: got)).
  - intros ->. apply E. apply Permutation_length in Hp. rewrite length_seq in Hp. simpl in Hp.
    unfold zlen in *. lia.
  - by rewrite <- Permutation_middle.
  - rewrite zlen_cons. lia.
Qed.

Lemma select_timeout sched ok count ok' :
  loop sched ok count = Some (ok', true) -> 0 < timeout.
Proof.
  revert ok count. induction sched as [|[i|] sched IH]; intros ok count; simpl; [done| |by case_decide].
  destruct (answers !! i); simpl; [|done]. case_match; [done|]. case_decide; [done|]. apply IH.
Qed.

Lemma select_start : collected [] true 0.
Proof. split; [done|set_solver|set_solver|done]. Qed.
End select.

(** * Goroutines *)

Section goroutines.
Context {V St : Type} (nilV : V) (model : Model V St).
Abbreviation never := (fun _ : nat => false).

(** A search that is told to stop does not answer [true]. *)
Lemma kill_sound cp kill hd n fuel : forall c lg,
  check_loop model fuel hd n cp kill c = Some (Finish true lg) ->
  check_loop model fuel hd n cp never c = Some (Finish true lg).
Proof.
  induction fuel as [|fuel IH]; intros c lg; simpl; [done|].
  unfold check_iter. destruct (sheap c !! hd) as [nd|]; simpl; [|done].
  destruct (next nd); [|by destruct (call_ids _ _)]. destruct (kill (iter c)); simpl; [done|].
  destruct (cur c) as [e|]; simpl; [|done]. destruct (sheap c !! e) as [ne|]; simpl; [|done].
  destruct (match match_ ne with Some mt => _ | None => _ end) as [[c1|b l]|]; simpl; [apply IH|done|done].
Qed.

Lemma checkSingle_kill fuel es cp kill lg :
  checkSingle nilV model fuel es cp kill = Some (Finish true lg) ->
  checkSingle nilV model fuel es cp never = Some (Finish true lg).
Proof.
  unfold checkSingle. destruct (search_init _ _ _) as [[[hd n] c]|]; simpl; [apply kill_sound|done].
Qed.

(** More fuel does not change an answer. *)
Lemma checkSingle_more fuel m es cp kill ok lg :
  checkSingle nilV model fuel es cp kill = Some (Finish ok lg) ->
  checkSingle nilV model (fuel + m) es cp kill = Some (Finish ok lg).
Proof.
  unfold checkSingle. destruct (search_init _ _ _) as [[[hd n] c]|]; simpl; [|done].
  revert c. induction fuel as [|fuel IH]; intros c; simpl; [done|].
  destruct (check_iter _ _ _ _ _ c) as [[c1|b l]|]; simpl; [apply IH|done|done].
Qed.

Lemma mapM_imap {A B} (f : nat * A -> option B) (g : nat -> nat) l k :
  mapM f (imap (fun i x => (g i, x)) l) = Some k <->
  length k = length l /\ forall i x, l !! i = Some x -> f (g i, x) = k !! i.
Proof.
  rewrite mapM_Some. split.
  - intros H. pose proof (Forall2_length _ _ _ H) as Hlen. rewrite length_imap in Hlen. split; [done|].
    intros i x Hx. assert (imap (fun i x => (g i, x)) l !! i = Some (g i, x)) as Hi
      by (by rewrite list_lookup_imap, Hx).
    destruct (Forall2_lookup_l _ _ _ _ _ H Hi) as (y & Hy & Hf). by rewrite Hy.
  - intros [Hlen H]. apply Forall2_same_length_lookup. split; [by rewrite length_imap|].
    intros i x y Hx Hy. rewrite list_lookup_imap in Hx. destruct (l !! i) as [a|] eqn:Ha; [|done].
    injection Hx as <-. by rewrite (H i a Ha).
Qed.

Lemma run_goroutines_Some fuel history cp kills runs :
  run_goroutines nilV model fuel history cp kills = Some runs <->
  length runs = length history /\ forall i es, history !! i = Some es ->
    exists ok lg, checkSingle nilV model fuel es cp (kills i) = Some (Finish ok lg) /\ runs !! i = Some (ok, lg).
Proof.
  unfold run_goroutines. rewrite (mapM_imap _ (fun i => i)). simpl.
  split; intros [Hlen H]; (split; [done|]); intros i es Hes; specialize (H i es Hes).
  - destruct (lookup_lt_is_Some_2 runs i) as [r Hr]; [rewrite Hlen; by eapply lookup_lt_Some|].
    rewrite Hr in *. destruct (checkSingle _ _ _ _ _ _) as [[c|ok lg]|]; [done| |done]. by exists ok, lg; simplify_eq.
  - by destruct H as (ok & lg & -> & ->).
Qed.
End goroutines.

(** * The entry points *)

Section check.
Context {V St : Type} `{!EqDecision St} (nilV : V) (fmt_op : V -> V -> string) (fmt_state : St -> string).
Context (sort_by_time : list (entry V) -> list (entry V)).
Context (sort_perm : forall l, sort_by_time l ≡ₚ l).
Context (sort_sorted : forall l, StronglySorted (fun a b => Less b a = false) (sort_by_time l)).
Context (model : Model V St).
Context (equal_sound : forall s t, default ShallowEqual (Equal model) s t = true -> s = t).
Abbreviation never := (fun _ : nat => false).
Abbreviation filled := (fillDefault fmt_op fmt_state model).
Abbreviation lin := (linearizable (Step model) (Init model)).

(** A partition the checker can be given: no operation returns before it is
    called, and the model knows every value. *)
Definition part_ok (ops : list (Operation V)) : Prop :=
  Forall (fun o => Call o <= Return o) ops /\
  forall s o, o ∈ ops -> is_Some (Step model s (Input o) (Output o)).

(** What a finished search says of the partition. *)
Definition answer_for (ops : list (Operation V)) (ok : bool) (lg : Longest) : Prop :=
  (ok = true <-> lin ops) /\ longest_ok filled (makeEntries sort_by_time ops) (zlen ops) lg.

Lemma partition_decided ops cp : part_ok ops -> exists k, forall fuel, (k <= fuel)%nat -> exists ok lg,
  checkSingle nilV filled fuel (makeEntries sort_by_time ops) cp never = Some (Finish ok lg) /\ answer_for ops ok lg.
Proof.
  intros [Hops Hstep].
  destruct (checkSingle_fuel filled (makeEntries sort_by_time ops) (zlen ops)
    (makeEntries_ok sort_by_time sort_perm sort_sorted ops Hops) nilV
    (default ShallowEqual (Equal model)) eq_refl equal_sound) with (computePartial := cp) as [k Hk].
  { intros s e r He Hr Hke Hkr Hid.
    apply (entries_elem sort_by_time sort_perm) in He as (i & o & Hi & [-> | ->]); [|done].
    apply (entries_elem sort_by_time sort_perm) in Hr as (j & o' & Hj & [-> | ->]); [done|].
    simpl in *. subst j. assert (o' = o) as -> by congruence. apply Hstep.
    rewrite go_index_lookup in Hi by (apply go_index_Some_lt in Hi; lia). by eapply list_elem_of_lookup_2. }
  exists k. intros fuel Hf. destruct (Hk fuel Hf) as (ok & lg & Hc & Hv & Hlg). exists ok, lg.
  split; [done|]. split; [|done]. rewrite Hv. apply (linearizable_ops sort_by_time sort_perm sort_sorted filled ops Hops).
Qed.

(** Any finished search, stopped or not. *)
Lemma answer_sound ops fuel cp kill ok lg : part_ok ops ->
  checkSingle nilV filled fuel (makeEntries sort_by_time ops) cp kill = Some (Finish ok lg) ->
  (ok = true -> lin ops) /\ (kill = never -> answer_for ops ok lg).
Proof.
  intros Hp Hc. destruct (partition_decided ops cp Hp) as [k Hk].
  destruct (Hk (fuel + k)%nat) as (ok0 & lg0 & Hc0 & Hv); [lia|]. split.
  - intros ->. apply checkSingle_kill, (checkSingle_more _ _ _ k) in Hc.
    rewrite Hc in Hc0. injection Hc0 as <- <-. by apply Hv.
  - intros ->. apply (checkSingle_more _ _ _ k) in Hc. rewrite Hc in Hc0. by injection Hc0 as <- <-.
Qed.

Context (history : list (Operation V)) (parts : list (list (Operation V))).
Context (Hpartition : default NoPartition (Partition model) history = Some parts).
Context (Hparts : forall p, p ∈ parts -> part_ok p).
Abbreviation entries := (map (makeEntries sort_by_time) parts).

Lemma goroutines_finish cp : exists k, forall fuel, (k <= fuel)%nat -> exists runs,
  run_goroutines nilV filled fuel entries cp (fun _ => never) = Some runs.
Proof.
  assert (exists k, forall p fuel, p ∈ parts -> (k <= fuel)%nat -> exists ok lg,
    checkSingle nilV filled fuel (makeEntries sort_by_time p) cp never = Some (Finish ok lg)) as [k Hk].
  { clear Hpartition. induction parts as [|p ps IH]; [exists 0%nat; intros p fuel Hp; by apply not_elem_of_nil in Hp|].
    destruct IH as [k1 H1]; [intros; apply Hparts; by right|].
    destruct (partition_decided p cp) as [k2 H2]; [apply Hparts; by left|].
    exists (Nat.max k1 k2). intros p' fuel [->|Hp]%elem_of_cons Hf; [|apply H1; [done|lia]].
    destruct (H2 fuel) as (ok & lg & Hc & _); [lia|eauto]. }
  exists k. intros fuel Hf. unfold run_goroutines. apply mapM_is_Some. apply Forall_forall.
  intros [i es] Hin. apply elem_of_lookup_imap in Hin as (j & x & [= -> ->] & Hx).
  apply list_elem_of_lookup_2, list_elem_of_fmap in Hx as (p & -> & Hp). simpl.
  destruct (Hk p fuel Hp Hf) as (ok & lg & ->). by eexists.
Qed.

(** The answers the [select] loop works with. *)
Lemma run_answer fuel cp kills runs i p r : run_goroutines nilV filled fuel entries cp kills = Some runs ->
  parts !! i = Some p -> runs.*1 !! i = Some r ->
  (r = true -> lin p) /\ (kills i = never -> r = true <-> lin p).
Proof.
  intros [_ H]%run_goroutines_Some Hp Hr.
  assert (part_ok p) as Hok by (apply Hparts; by eapply list_elem_of_lookup_2).
  destruct (H i (makeEntries sort_by_time p)) as (ok & lg & Hc & Hrun).
  { by apply list_lookup_fmap_Some; eauto. }
  rewrite list_lookup_fmap, Hrun in Hr. injection Hr as <-.
  destruct (answer_sound p fuel cp (kills i) ok lg Hok Hc) as [H1 H2].
  split; [done|]. intros Hk. by apply H2.
Qed.

Lemma run_length fuel cp kills runs : run_goroutines nilV filled fuel entries cp kills = Some runs ->
  length runs.*1 = length parts.
Proof. intros [Hlen _]%run_goroutines_Some. by rewrite length_fmap, Hlen, length_map. Qed.

(** What the [select] loop's verdict says of the partitions. *)
Lemma select_meaning fuel cp timeout kills runs sched ok timedOut :
  run_goroutines nilV filled fuel entries cp kills = Some runs ->
  NoDup (received sched) -> (forall i, i ∈ received sched -> kills i = never) ->
  select_loop runs.*1 cp timeout sched true 0 = Some (ok, timedOut) ->
  (ok = false -> exists p, p ∈ parts /\ ~ lin p) /\
  (ok = true -> timedOut = false -> forall p, p ∈ parts -> lin p).
Proof.
  intros Hruns Hnd Hkills Hsel. pose proof (run_length _ _ _ _ Hruns) as Hlen.
  destruct (select_sound runs.*1 cp timeout sched [] true 0 ok timedOut) as (got & count & Hco & Hsub & Hall);
    [apply select_start|by rewrite app_nil_r|done|]. rewrite app_nil_r in Hsub. split.
  - intros Hf. destruct (co_false _ _ _ _ Hco Hf) as (i & Hi & Ha).
    destruct (lookup_lt_is_Some_2 parts i) as [p Hp]; [rewrite <- Hlen; by eapply lookup_lt_Some|].
    exists p. split; [by eapply list_elem_of_lookup_2|]. intros Hl.
    destruct (run_answer _ _ _ _ _ _ _ Hruns Hp Ha) as [_ Hiff]. apply Hiff in Hl; [done|]. by apply Hkills, Hsub.
  - intros Ht Hto p Hp. apply list_elem_of_lookup in Hp as [i Hp].
    destruct (run_answer _ _ _ _ i p true Hruns Hp) as [Hl _]; [|by apply Hl].
    apply Hall; [done|done|]. rewrite Hlen. by eapply lookup_lt_Some.
Qed.

(** When every goroutine answers, the check ends with the right verdict. *)
Lemma checkOperations_total verbose timeout order :
  parts <> [] -> order ≡ₚ seq 0 (length parts) ->
  exists k, forall fuel, (k <= fuel)%nat -> exists ok info,
    checkOperations nilV fmt_op fmt_state sort_by_time model fuel history verbose timeout (fun _ => never)
      (map SResult order) = Some (if (ok : bool) then Ok else Illegal, info) /\
    (ok = true <-> forall p, p ∈ parts -> lin p).
Proof.
  intros Hne Hord. destruct (goroutines_finish verbose) as [k Hk]. exists k. intros fuel Hf.
  destruct (Hk fuel Hf) as [runs Hruns]. pose proof (run_length _ _ _ _ Hruns) as Hlen.
  destruct (select_total runs.*1 verbose timeout order [] [] true 0) as [ok Hsel].
  { intros ->. apply Permutation_length in Hord. rewrite length_seq in Hord. by destruct parts. }
  { by rewrite app_nil_r, Hlen. } { done. }
  rewrite app_nil_r in Hsel.
  assert (NoDup (received (map SResult order))) as Hnd by (rewrite received_results, Hord; apply NoDup_seq).
  destruct (select_meaning fuel verbose timeout _ runs _ ok false Hruns Hnd (fun _ _ => eq_refl) Hsel) as [H1 H2].
  unfold checkOperations, checkParallel. simpl. rewrite Hpartition. simpl. rewrite Hruns. simpl. rewrite Hsel. simpl.
  exists ok. eexists. split; [by destruct ok|]. destruct ok; split; try done; [by intros _; apply H2|].
  intros Hall. destruct (H1 eq_refl) as (p & Hp & Hn). by destruct (Hn (Hall p Hp)).
Qed.

(** C37. The checker decides linearizability.  On every history whose operations
    return after they are called, [CheckOperations] finishes, whatever the order
    in which the goroutines of the partitions answer, and returns true exactly
    when every partition is linearizable: some order of its operations is
    accepted by the model and never puts an operation before one that had
    returned when it was called.  States the model calls equal must be equal,
    and [sort.Sort] must return a sorted permutation. *)
Theorem CheckOperations_decides order :
  parts <> [] -> order ≡ₚ seq 0 (length parts) ->
  exists k, forall fuel, (k <= fuel)%nat -> exists b,
    CheckOperations nilV fmt_op fmt_state sort_by_time model fuel history (fun _ => never) (map SResult order) = Some b /\
    (b = true <-> forall p, p ∈ parts -> lin p).
Proof.
  intros Hne Hord. destruct (checkOperations_total false 0 order Hne Hord) as [k Hk]. exists k.
  intros fuel Hf. destruct (Hk fuel Hf) as (ok & info & Hc & Hiff). exists ok.
  unfold CheckOperations. rewrite Hc. split; [by destruct ok|done].
Qed.

(** C39. A time limit does not make the checker lie: under any interleaving of the
    answers and the time-out, [Ok] means that every partition is linearizable
    and [Illegal] that some partition is not; [Unknown] is returned only when
    there is a time limit.  Each goroutine answers once, and none is told to
    stop before the loop has ended.  (The comments of porcupine.go say that a false
    positive is possible when the operation times out; a partial result is [Unknown].) *)
Theorem CheckOperationsTimeout_sound fuel timeout kills sched res :
  NoDup (received sched) -> (forall i, i ∈ received sched -> kills i = never) ->
  CheckOperationsTimeout nilV fmt_op fmt_state sort_by_time model fuel history timeout kills sched = Some res ->
  match res with
  | Ok => forall p, p ∈ parts -> lin p
  | Illegal => exists p, p ∈ parts /\ ~ lin p
  | Unknown => 0 < timeout
  end.
Proof.
  intros Hnd Hkills H. unfold CheckOperationsTimeout, checkOperations, checkParallel in H. simpl in H.
  rewrite Hpartition in H. simpl in H.
  destruct (run_goroutines _ _ _ _ _ _) as [runs|] eqn:Hruns; [|done]. simpl in H.
  destruct (select_loop _ _ _ _ _ _) as [[ok timedOut]|] eqn:Hsel; [|done]. simpl in H. injection H as <-.
  destruct (select_meaning _ _ _ _ _ _ _ _ Hruns Hnd Hkills Hsel) as [H1 H2].
  destruct ok, timedOut; simpl; auto. by eapply select_timeout.
Qed.

(** A history without partitions is never judged: with no goroutine to wait
    for, the loop has no result to receive, so [CheckOperations] blocks for ever, and a
    check with a time limit returns [Unknown] when the time is up, and nothing else,
    although there is nothing to violate. *)
Theorem empty_history_blocks fuel kills :
  parts = [] ->
  (forall sched, CheckOperations nilV fmt_op fmt_state sort_by_time model fuel history kills sched = None) /\
  forall timeout, 0 < timeout ->
    (forall rest, CheckOperationsTimeout nilV fmt_op fmt_state sort_by_time model fuel history timeout kills (STimeout :: rest) = Some Unknown) /\
    forall sched res,
      CheckOperationsTimeout nilV fmt_op fmt_state sort_by_time model fuel history timeout kills sched = Some res -> res = Unknown.
Proof.
  intros E.
  assert (forall cp t sched, select_loop [] cp t sched true 0 = None \/
    0 < t /\ select_loop [] cp t sched true 0 = Some (true, true)) as Hsel.
  { intros cp t sched. destruct sched as [|[i|] sched']; simpl; [by left|by left|]. case_decide; auto. }
  unfold CheckOperations, CheckOperationsTimeout, checkOperations, checkParallel. simpl. rewrite Hpartition, E. simpl. split.
  - intros sched. destruct (Hsel false 0 sched) as [->|[? _]]; [done|lia].
  - intros t Ht. split; [intros rest; by rewrite decide_True by done|].
    intros sched res. destruct (Hsel false t sched) as [->|[_ ->]]; simpl; [done|]. by intros [= <-].
Qed.
End check.
