(* ===== verification/PorcupineViz.v ===== *)
(** The data behind the checker's visualization: [computeVisualizationData] of
    [src/src/porcupine/visualization.go].

    The function replays every partial linearization the checker returned and
    panics if the model rejects one; the theorem is that this does not happen.
    The HTML page the data is pasted into is not modelled. *)

From Stdlib Require Import String.
From S2P Require Import Prelude Bitset Porcupine PorcupineHeap PorcupineSearch PorcupineSpec PorcupineOps PorcupineCheck.
Local Open Scope Z_scope.

(** * visualization.go *)

Record historyElement := mkHistoryElement { hClientId : Z; Start : Z; End_ : Z; Description : string }.
Record linearizationStep := mkLinearizationStep { Index : Z; StateDescription : string }.
Record partitionVisualizationData := mkPartitionData {
  History : list historyElement;
  PartialLinearizations : list (list linearizationStep);
  Largest : gmap Z Z
}.

Section viz.
Context {V St : Type} (nilV : V).
(** [sort.Slice(partials, ...)] by decreasing length. *)
Context (sort_partials : list (list Z) -> list (list Z)).

(** The loop over the entries of a partition: the history and the two maps. *)
Fixpoint viz_entries (describe : V -> V -> option string) (es : list (entry V))
  (history : list historyElement) (callValue returnValue : gmap Z V) :
  option (list historyElement * gmap Z V * gmap Z V) :=
  match es with
  | [] => Some (history, callValue, returnValue)
  | elem :: es =>
      h ← history.[id elem];
      match kind elem with
      | callEntry =>
          history ← go_store history (id elem) (mkHistoryElement (clientId elem) (time elem) (End_ h) (Description h));
          viz_entries describe es history (<[id elem := value elem]> callValue) returnValue
      | returnEntry =>
          description ← describe (default nilV (callValue !! id elem)) (value elem);
          history ← go_store history (id elem)
            (mkHistoryElement (hClientId h) (Start h) (time elem) description);
          viz_entries describe es history callValue (<[id elem := value elem]> returnValue)
      end
  end.

(** The loop over one partial linearization, the [i]-th, of length [len]: the
    steps described so far, and the maps [largestSize] and [largestIndex]. *)
Fixpoint viz_partial (model : Model V St) (describeState : St -> string) (callValue returnValue : gmap Z V)
  (i len : Z) (partial : list Z) (state : St) (acc : list linearizationStep)
  (largestSize largestIndex : gmap Z Z) : option (list linearizationStep * gmap Z Z * gmap Z Z) :=
  match partial with
  | [] => Some (acc, largestSize, largestIndex)
  | histId :: partial =>
      '(ok, state) ← Step model state (default nilV (callValue !! histId)) (default nilV (returnValue !! histId));
      if negb ok then None else
      let acc := acc ++ [mkLinearizationStep histId (describeState state)] in
      if decide (default 0 (largestSize !! histId) < len)
      then viz_partial model describeState callValue returnValue i len partial state acc
             (<[histId := len]> largestSize) (<[histId := i]> largestIndex)
      else viz_partial model describeState callValue returnValue i len partial state acc
             largestSize largestIndex
  end.

Fixpoint viz_partials (model : Model V St) (describeState : St -> string) (callValue returnValue : gmap Z V)
  (i : Z) (partials : list (list Z)) (largestSize largestIndex : gmap Z Z) :
  option (list (list linearizationStep) * gmap Z Z) :=
  match partials with
  | [] => Some ([], largestIndex)
  | partial :: partials =>
      '(steps, largestSize, largestIndex) ←
        viz_partial model describeState callValue returnValue i (zlen partial) partial (Init model) []
          largestSize largestIndex;
      '(rest, largestIndex) ←
        viz_partials model describeState callValue returnValue (i + 1) partials largestSize largestIndex;
      Some (steps :: rest, largestIndex)
  end.

Definition viz_partition (model : Model V St) (es : list (entry V)) (partials : list (list Z)) :
  option partitionVisualizationData :=
  describe ← DescribeOperation model;
  describeState ← DescribeState model;
  let n := Z.quot (zlen es) 2 in
  history ← go_make n (mkHistoryElement 0 0 0 "");
  '(history, callValue, returnValue) ← viz_entries describe es history ∅ ∅;
  let partials := sort_partials partials in
  '(linearizations, largestIndex) ←
    viz_partials model describeState callValue returnValue 0 partials ∅ ∅;
  Some (mkPartitionData history linearizations largestIndex).

(** [info.partialLinearizations[partition]] is indexed along the histories. *)
Fixpoint viz_loop (model : Model V St) (histories : list (list (entry V))) (partials : list (list (list Z))) :
  option (list partitionVisualizationData) :=
  match histories with
  | [] => Some []
  | es :: histories =>
      p ← head partials;
      d ← viz_partition model es p;
      rest ← viz_loop model histories (tail partials);
      Some (d :: rest)
  end.
End viz.

Section viz_data.
Context {V St : Type} `{!EqDecision St} (nilV : V) (fmt_op : V -> V -> string) (fmt_state : St -> string).
Context (sort_partials : list (list Z) -> list (list Z)).
Definition computeVisualizationData (model : Model V St) (info : linearizationInfo V) :
  option (list partitionVisualizationData) :=
  let model := fillDefault fmt_op fmt_state model in
  viz_loop nilV sort_partials model (ihistory info) (partialLinearizations info).
End viz_data.

(** * Replaying a partial linearization *)

Section replay.
Context {V St : Type} (nilV : V) (model : Model V St) (es : list (entry V)) (n : Z) (Hes : history_ok es n).

(** The maps hold the values of the calls and of the returns. *)
Definition values_of (kd : entryKind) (m : gmap Z V) : Prop :=
  forall l e, at_loc es l = Some e -> kind e = kd -> m !! id e = Some (value e).

Lemma viz_partial_ok describeState cv rv seq S s : values_of callEntry cv -> values_of returnEntry rv ->
  partial model es seq S s -> forall i len acc ls li rest,
  exists acc' ls' li', viz_partial nilV model describeState cv rv i len (seq ++ rest) (Init model) acc ls li =
    viz_partial nilV model describeState cv rv i len rest s acc' ls' li'.
Proof.
  intros Hc Hr. induction 1 as [|seq S s l s' _ IH (p & q & _ & _ & Hst)]; intros i len acc ls li rest.
  { simpl. eauto. }
  destruct Hst as (e & mt & r & He & Hk & Hmt & Hkr & Hid & Hs).
  rewrite <- app_assoc. destruct (IH i len acc ls li ([idl es l] ++ rest)) as (acc' & ls' & li' & ->).
  simpl. rewrite (idl_at es l e) by done. rewrite (Hc l e He Hk), <- Hid, (Hr mt r Hmt Hkr). simpl.
  rewrite Hs. simpl. case_decide; eauto.
Qed.

Lemma viz_partials_ok describeState cv rv partials : values_of callEntry cv -> values_of returnEntry rv ->
  Forall (fun seq => exists S s, partial model es seq S s) partials -> forall i ls li,
  is_Some (viz_partials nilV model describeState cv rv i partials ls li).
Proof.
  intros Hc Hr. induction 1 as [|seq partials (S & s & Hp) _ IH]; intros i ls li; simpl; [by eexists|].
  destruct (viz_partial_ok describeState cv rv seq S s Hc Hr Hp i (zlen seq) [] ls li []) as (acc & ls' & li' & E).
  rewrite app_nil_r in E. rewrite E. simpl. destruct (IH (i + 1) ls' li') as [[rest li''] ->]. by eexists.
Qed.

(** Going over [l] has filled [m] up to [m'] with the values of kind [kd]. *)
Definition collects (kd : entryKind) (l : list (entry V)) (m m' : gmap Z V) : Prop :=
  (forall i v, m' !! i = Some v -> m !! i = Some v \/ exists e, e ∈ l /\ kind e = kd /\ id e = i /\ value e = v) /\
  (forall e, e ∈ l -> kind e = kd -> is_Some (m' !! id e)) /\
  (forall i, is_Some (m !! i) -> is_Some (m' !! i)).

Lemma collects_put kd e l m m' : kind e = kd ->
  collects kd l (<[id e := value e]> m) m' -> collects kd (e :: l) m m'.
Proof.
  intros Hk (H1 & H2 & H3). split_and!.
  - intros i v [[[<- <-]|[_ ?]]%lookup_insert_Some|(e' & ? & ?)]%H1; [|by left|]; right;
      [exists e; split; [by left|done]|exists e'; split; [by right|done]].
  - intros e' [->|He']%elem_of_cons Hk'; [apply H3; rewrite lookup_insert_eq; by eexists|auto].
  - intros i Hi. apply H3. by apply lookup_insert_is_Some'; right.
Qed.

Lemma collects_skip kd e l m m' : kind e <> kd -> collects kd l m m' -> collects kd (e :: l) m m'.
Proof.
  intros Hk (H1 & H2 & H3). split_and!; [| |done].
  - intros i v [?|(e' & ? & ?)]%H1; [by left|]. right. exists e'. split; [by right|done].
  - intros e' [->|He']%elem_of_cons Hk'; [done|auto].
Qed.

Lemma collects_nil kd m : collects kd [] m m.
Proof. unfold collects. set_solver. Qed.

Lemma collects_app kd l1 l2 m1 m2 m3 :
  collects kd l1 m1 m2 -> collects kd l2 m2 m3 -> collects kd (l1 ++ l2) m1 m3.
Proof.
  intros (H1 & H2 & H3) (K1 & K2 & K3). split_and!.
  - intros i v [[?|(e & ? & ?)]%H1|(e & ? & ?)]%K1; [by left|right; exists e; set_solver|right; exists e; set_solver].
  - intros e [He|He]%elem_of_app Hk; auto.
  - auto.
Qed.

(** The call of a return that is still to come has been seen. *)
Lemma call_before pre r post : es = pre ++ r :: post -> kind r = returnEntry ->
  exists e, e ∈ pre /\ kind e = callEntry /\ id e = id r.
Proof.
  intros E Hk.
  assert (forall l, at_loc es l = rev post !! l \/ (length post <= l)%nat) as Hpost.
  { intros l. destruct (decide (l < length post)%nat); [left|right; lia]. unfold at_loc.
    rewrite E, rev_app_distr. simpl. rewrite <- app_assoc. apply lookup_app_l. by rewrite length_rev. }
  assert (forall l, (length post < l)%nat -> at_loc es l = rev pre !! (l - S (length post))%nat) as Hpre.
  { intros l Hl. unfold at_loc. rewrite E, rev_app_distr. simpl.
    rewrite lookup_app_r; rewrite length_app, length_rev; simpl; [f_equal; lia|lia]. }
  assert (at_loc es (length post) = Some r) as Hr.
  { unfold at_loc. rewrite E, rev_app_distr. simpl. rewrite <- app_assoc, lookup_app_r; rewrite length_rev; [|lia].
    by rewrite Nat.sub_diag. }
  destruct (ho_call _ _ Hes (length post) (id r)) as (l & e & Hlt & He & Hke & Hid); [by exists r|].
  exists e. split; [|done]. rewrite Hpre in He by done. apply list_elem_of_lookup_2 in He.
  by apply list_elem_of_In, in_rev, list_elem_of_In.
Qed.

Lemma viz_entries_ok describe post :
  (forall e r, e ∈ es -> r ∈ es -> kind e = callEntry -> kind r = returnEntry -> id e = id r ->
     is_Some (describe (value e) (value r))) ->
  (forall e, e ∈ es -> 0 <= id e < n) -> forall pre h cv rv, es = pre ++ post -> zlen h = n ->
  collects callEntry pre ∅ cv ->
  exists h' cv' rv', viz_entries nilV describe post h cv rv = Some (h', cv', rv') /\
    collects callEntry post cv cv' /\ collects returnEntry post rv rv'.
Proof.
  intros Hdesc Hrange. induction post as [|e post IH]; intros pre h cv rv E Hh Hcv; simpl.
  { exists h, cv, rv. auto using collects_nil. }
  assert (e ∈ es) as He by (rewrite E; set_solver). specialize (Hrange e He) as Hi.
  destruct (go_index_is_Some h (id e)) as [x Hx]; [lia|]. rewrite Hx. simpl.
  assert (forall y, go_store h (id e) y = Some (<[Z.to_nat (id e) := y]> h)) as Hst by (intros; apply go_store_Some; lia).
  assert (es = (pre ++ [e]) ++ post) as E' by (by rewrite <- app_assoc).
  destruct (kind e) eqn:Ek.
  - rewrite Hst. simpl. match goal with |- context [viz_entries _ _ post ?h2 ?c2 ?r2] =>
      destruct (IH (pre ++ [e]) h2 c2 r2) as (h' & cv' & rv' & -> & H1 & H2) end; [done|by rewrite zlen_insert| |].
    { eapply collects_app; [done|]. by apply collects_put, collects_nil. }
    exists h', cv', rv'. split_and!; [done|by apply collects_put|by apply collects_skip; [rewrite Ek|]].
  - destruct (call_before pre e post E Ek) as (c & Hc & Hkc & Hidc).
    destruct Hcv as (Hv1 & Hv2 & Hv3). destruct (Hv2 c Hc Hkc) as [v Hv]. rewrite Hidc in Hv.
    destruct (Hv1 _ _ Hv) as [?|(c' & Hc' & Hkc' & Hidc' & <-)]; [done|].
    destruct (Hdesc c' e) as [d Hd]; [rewrite E; set_solver|done|done|done|done|].
    rewrite Hv. simpl. rewrite Hd. simpl. rewrite Hst. simpl.
    match goal with |- context [viz_entries _ _ post ?h2 ?c2 ?r2] =>
      destruct (IH (pre ++ [e]) h2 c2 r2) as (h' & cv' & rv' & -> & H1 & H2) end; [done|by rewrite zlen_insert| |].
    { eapply collects_app; [split_and!; done|]. apply collects_skip; [by rewrite Ek|apply collects_nil]. }
    exists h', cv', rv'. split_and!; [done|by apply collects_skip; [rewrite Ek|]|by apply collects_put].
Qed.

Lemma collects_values kd m : collects kd es ∅ m -> values_of kd m.
Proof.
  intros (H1 & H2 & _) l e He Hk. destruct (H2 e) as [v Hv]; [by eapply at_loc_elem|done|].
  destruct (H1 _ _ Hv) as [?|(e' & Hin & Hk' & Hid & Hval)]; [done|].
  assert (exists l', at_loc es l' = Some e') as [l' He'].
  { apply list_elem_of_lookup. by apply list_elem_of_In, in_rev, list_elem_of_In in Hin. }
  assert (l' = l) as -> by (eapply (ho_uniq _ _ Hes); [done|done|congruence|done]). congruence.
Qed.

Lemma viz_partition_ok sort_partials partials describe describeState :
  (forall l, sort_partials l ≡ₚ l) ->
  (forall e r, e ∈ es -> r ∈ es -> kind e = callEntry -> kind r = returnEntry -> id e = id r ->
     is_Some (describe (value e) (value r))) ->
  DescribeOperation model = Some describe -> DescribeState model = Some describeState ->
  Forall (fun seq => exists S s, partial model es seq S s) partials ->
  is_Some (viz_partition nilV sort_partials model es partials).
Proof.
  intros Hsort Hdesc Hd Hds Hp. unfold viz_partition. rewrite Hd, Hds. simpl.
  pose proof (ho_len _ _ Hes) as Hlen. pose proof (zlen_nonneg es).
  rewrite Hlen, (Z.mul_comm 2), Z.quot_mul by lia. unfold go_make. rewrite decide_True by lia. simpl.
  match goal with |- context [viz_entries _ _ _ ?h2 _ _] =>
    destruct (viz_entries_ok describe es Hdesc) with (pre := @nil (entry V)) (h := h2) (cv := (∅ : gmap Z V))
      (rv := (∅ : gmap Z V)) as (h' & cv & rv & -> & Hcv & Hrv) end; [|done| |apply collects_nil|].
  - intros e He. assert (exists l, at_loc es l = Some e) as [l Hl].
    { apply list_elem_of_lookup. by apply list_elem_of_In, in_rev, list_elem_of_In in He. }
    by apply (ho_range _ _ Hes l).
  - unfold zlen. rewrite length_replicate. lia.
  - simpl. destruct (viz_partials_ok describeState cv rv (sort_partials partials)) with (i := 0) (ls := (∅ : gmap Z Z)) (li := (∅ : gmap Z Z))
      as [[lins largest] ->]; [by apply collects_values|by apply collects_values|by rewrite Hsort|by eexists].
Qed.
End replay.

Lemma unique_partials_elem seen lg seq : seq ∈ unique_partials seen lg ->
  exists q, Some q ∈ lg /\ pointee q = seq.
Proof.
  revert seen. induction lg as [|[p|] lg IH]; intros seen; simpl; [by intros ?%not_elem_of_nil| |].
  - case_decide.
    + intros (q & ? & ?)%IH. exists q. split; [by right|done].
    + intros [->|(q & ? & ?)%IH]%elem_of_cons; [exists p; split; [by left|done]|exists q; split; [by right|done]].
  - intros (q & ? & ?)%IH. exists q. split; [by right|done].
Qed.

Section data.
Context {V St : Type} `{!EqDecision St} (nilV : V) (fmt_op : V -> V -> string) (fmt_state : St -> string).
Context (sort_by_time : list (entry V) -> list (entry V)).
Context (sort_perm : forall l, sort_by_time l ≡ₚ l).
Context (sort_sorted : forall l, StronglySorted (fun a b => Less b a = false) (sort_by_time l)).
Context (sort_partials : list (list Z) -> list (list Z)) (sort_partials_perm : forall l, sort_partials l ≡ₚ l).
Context (model : Model V St).
Context (equal_sound : forall s t, default ShallowEqual (Equal model) s t = true -> s = t).
Context (history : list (Operation V)) (parts : list (list (Operation V))).
Context (Hpartition : default NoPartition (Partition model) history = Some parts).
Context (Hparts : forall p, p ∈ parts -> part_ok model p).
(** The descriptions of the model do not panic on the history. *)
Context (Hdescribe : forall p o, p ∈ parts -> o ∈ p ->
  is_Some (default (DefaultDescribeOperation fmt_op) (DescribeOperation model) (Input o) (Output o))).
Abbreviation never := (fun _ _ : nat => false).
Abbreviation filled := (fillDefault fmt_op fmt_state model).

Lemma viz_loop_ok fuel ps : (forall p, p ∈ ps -> p ∈ parts) -> forall runs : list (bool * Longest),
  Forall2 (fun p r => checkSingle nilV filled fuel (makeEntries sort_by_time p) true (fun _ => false) =
    Some (Finish r.1 r.2)) ps runs ->
  is_Some (viz_loop nilV sort_partials filled (map (makeEntries sort_by_time) ps) (map (unique_partials []) runs.*2)).
Proof.
  intros Hps runs. induction 1 as [|p [ok lg] ps runs Hc _ IH]; [by eexists|].
  rewrite fmap_cons. cbn [map viz_loop head tail]. simpl mbind.
  assert (p ∈ parts) as Hpin by (apply Hps; by left). pose proof (Hparts p Hpin) as Hok. simpl in Hc.
  destruct (answer_sound nilV fmt_op fmt_state sort_by_time sort_perm sort_sorted model equal_sound
    p fuel true _ ok lg Hok Hc) as [_ Ha]. destruct (Ha eq_refl) as [_ [_ Hlg]].
  destruct Hok as [Hcalls _].
  destruct (viz_partition_ok nilV filled (makeEntries sort_by_time p) (zlen p)
    (makeEntries_ok sort_by_time sort_perm sort_sorted p Hcalls) sort_partials (unique_partials [] lg)
    (default (DefaultDescribeOperation fmt_op) (DescribeOperation model))
    (default (DefaultDescribeState fmt_state) (DescribeState model))) as [d ->]; try done.
  - intros e r He Hr Hke Hkr Hid.
    apply (entries_elem sort_by_time sort_perm) in He as (i & o & Hi & [-> | ->]); [|done].
    apply (entries_elem sort_by_time sort_perm) in Hr as (j & o' & Hj & [-> | ->]); [done|].
    simpl in *. subst j. assert (o' = o) as -> by congruence. apply (Hdescribe p); [done|].
    rewrite go_index_lookup in Hi by (apply go_index_Some_lt in Hi; lia). by eapply list_elem_of_lookup_2.
  - apply Forall_forall. intros seq (q & Hq & <-)%unique_partials_elem.
    apply list_elem_of_lookup in Hq as [i Hi]. apply (Hlg (Z.of_nat i) q). by rewrite go_index_of_nat.
  - destruct IH as [rest Hrest]; [intros; apply Hps; by right|]. exists (d :: rest).
    simpl mbind. apply bind_Some. exists rest. split; [exact Hrest|done].
Qed.

(** The visualization of a finished verbose check never panics: every partial
    linearization the checker records, also on the way to the verdict that a
    history is not linearizable, is accepted by the model step by step when it
    is replayed, and every index it uses is inside its partition. *)
Theorem visualization_never_panics fuel timeout sched res info :
  CheckOperationsVerbose nilV fmt_op fmt_state sort_by_time model fuel history timeout never sched = Some (res, info) ->
  is_Some (computeVisualizationData nilV fmt_op fmt_state sort_partials model info).
Proof.
  unfold CheckOperationsVerbose, checkOperations, checkParallel. simpl. rewrite Hpartition. simpl.
  destruct (run_goroutines _ _ _ _ _ _) as [runs|] eqn:Hruns; [|done]. simpl.
  destruct (select_loop _ _ _ _ _ _) as [[ok timedOut]|]; [|done]. simpl. intros [= _ <-].
  apply run_goroutines_Some in Hruns as [Hlen H]. rewrite length_map in Hlen.
  unfold computeVisualizationData. simpl. apply (viz_loop_ok fuel); [done|].
  apply Forall2_same_length_lookup. split; [done|]. intros i p r Hp Hr.
  destruct (H i (makeEntries sort_by_time p)) as (ok' & lg & Hc & Hr'); [apply list_lookup_fmap_Some; eauto|].
  rewrite Hr in Hr'. by injection Hr' as ->.
Qed.
End data.
