(* ===== verification/Models.v ===== *)
(** The key/value model handed to the checker: [src/src/models/kv.go].

    [KvModel] judges one key at a time and splits a history by key.  The theorem
    is that this is enough: a history is linearizable for a whole store exactly
    when its part for each key is linearizable for that key. *)

From Stdlib Require Import String.
From S2P Require Import Prelude Bitset Porcupine PorcupineHeap PorcupineSearch PorcupineSpec PorcupineOps PorcupineCheck.
Local Open Scope Z_scope.

(** * kv.go *)

Record KvInput := mkKvInput { Op : Z; Key : string; Value : string }.
Record KvOutput := mkKvOutput { oValue : string }.

(** The values an [interface{}] holds here. *)
Inductive KvVal := VInput (i : KvInput) | VOutput (o : KvOutput) | VNil.

(** [v.Input.(KvInput)] and [output.(KvOutput)]. *)
Definition as_input (v : KvVal) : option KvInput := match v with VInput i => Some i | _ => None end.
Definition as_output (v : KvVal) : option KvOutput := match v with VOutput o => Some o | _ => None end.

Fixpoint group_by_key (history : list (Operation KvVal)) (m : gmap string (list (Operation KvVal))) :
  option (gmap string (list (Operation KvVal))) :=
  match history with
  | [] => Some m
  | v :: history =>
      inp ← as_input (Input v);
      let key := Key inp in
      group_by_key history (<[key := default [] (m !! key) ++ [v]]> m)
  end.

Definition KvPartition (history : list (Operation KvVal)) : option (list (list (Operation KvVal))) :=
  m ← group_by_key history ∅;
  let keys := sort_Strings (map fst (map_to_list m)) in
  Some (map (fun k => default [] (m !! k)) keys).

Definition KvStep (state : string) (input output : KvVal) : option (bool * string) :=
  inp ← as_input input;
  out ← as_output output;
  let st := state in
  if decide (Op inp = 0) then Some (bool_decide (oValue out = st), state)
  else if decide (Op inp = 1) then Some (true, Value inp)
  else if decide (Op inp = 2) then Some (true, st +:+ Value inp)
  else Some (bool_decide (oValue out = st), st +:+ Value inp).

Definition KvDescribeOperation (input output : KvVal) : option string :=
  inp ← as_input input;
  out ← as_output output;
  Some (if decide (Op inp = 0) then "get('" +:+ Key inp +:+ "') -> '" +:+ oValue out +:+ "'"
        else if decide (Op inp = 1) then "put('" +:+ Key inp +:+ "', '" +:+ Value inp +:+ "')"
        else if decide (Op inp = 2) then "append('" +:+ Key inp +:+ "', '" +:+ Value inp +:+ "')"
        else "<invalid>").

Definition KvModel : Model KvVal string :=
  mkModel (Some KvPartition) None "" KvStep None (Some KvDescribeOperation) None.

(** * Partitions *)

Definition key_of (o : Operation KvVal) : option string := Key <$> as_input (Input o).
Definition key_is (k : string) (o : Operation KvVal) : Prop := key_of o = Some k.
#[export] Instance key_is_dec k o : Decision (key_is k o).
Proof. unfold key_is. apply _. Defined.

(** Every operation has an input and an output of the model's types. *)
Definition typed (o : Operation KvVal) : Prop := exists i r, Input o = VInput i /\ Output o = VOutput r.

Lemma typed_key o : typed o -> exists k, key_is k o.
Proof. intros (i & r & Hi & _). exists (Key i). unfold key_is, key_of. by rewrite Hi. Qed.

Lemma group_by_key_spec history : forall m, Forall typed history -> exists m',
  group_by_key history m = Some m' /\
  (forall k, default [] (m' !! k) = default [] (m !! k) ++ filter (key_is k) history) /\
  (forall k, is_Some (m' !! k) <-> is_Some (m !! k) \/ exists o, o ∈ history /\ key_is k o).
Proof.
  induction history as [|o history IH]; intros m Ht; simpl.
  { exists m. split_and!; [done|intros k; by rewrite app_nil_r|]. set_solver. }
  apply Forall_cons in Ht as [(i & r & Hi & Ho) Ht]. rewrite Hi. simpl.
  destruct (IH (<[Key i := default [] (m !! Key i) ++ [o]]> m) Ht) as (m' & Hm' & Hv & Hd).
  assert (key_of o = Some (Key i)) as Hk by (unfold key_of; by rewrite Hi).
  exists m'. split_and!; [done| |].
  - intros k. rewrite Hv, filter_cons. destruct (decide (Key i = k)) as [<-|Hne].
    + rewrite lookup_insert_eq, decide_True by done. simpl. by rewrite <- app_assoc.
    + rewrite lookup_insert_ne by done. rewrite decide_False; [done|]. unfold key_is. congruence.
  - intros k. rewrite Hd, lookup_insert_is_Some. unfold key_is. split.
    + intros [[<-|[_ ?]]|(o' & ? & ?)]; [right; exists o; split; [by left|done]|by left|right; exists o'; split; [by right|done]].
    + intros [?|(o' & [->|?]%elem_of_cons & Hk')].
      * left. destruct (decide (Key i = k)); auto.
      * left. left. congruence.
      * right. eauto.
Qed.

Lemma KvPartition_spec history : Forall typed history -> exists keys,
  KvPartition history = Some (map (fun k => filter (key_is k) history) keys) /\ NoDup keys /\
  forall k, k ∈ keys <-> exists o, o ∈ history /\ key_is k o.
Proof.
  intros Ht. destruct (group_by_key_spec history ∅ Ht) as (m & Hm & Hv & Hd).
  unfold KvPartition. rewrite Hm. simpl.
  set (keys := sort_Strings (map fst (map_to_list m))).
  assert (keys ≡ₚ (map_to_list m).*1) as Hperm by apply merge_sort_Permutation.
  exists keys. split_and!.
  - f_equal. apply map_ext. intros k. rewrite Hv. by rewrite lookup_empty.
  - rewrite Hperm. apply NoDup_fst_map_to_list.
  - intros k. rewrite Hperm. rewrite list_elem_of_fmap.
    specialize (Hd k). rewrite lookup_empty in Hd.
    assert ((exists o, o ∈ history /\ key_is k o) <-> is_Some (m !! k)) as ->.
    { rewrite Hd. split; [by right|]. intros [[? ?]|]; done. }
    split.
    + intros ([k' x] & -> & Hin). apply elem_of_map_to_list in Hin. by eexists.
    + intros [x Hx]. exists (k, x). split; [done|]. by apply elem_of_map_to_list.
Qed.

(** * A store with many keys *)

(** The specification: a map from keys to values, a missing key is the empty
    string; the operation acts on its key as [KvStep] says. *)
Definition store_step (d : gmap string string) (input output : KvVal) : option (bool * gmap string string) :=
  inp ← as_input input;
  '(ok, v) ← KvStep (default "" (d !! Key inp)) input output;
  Some (ok, <[Key inp := v]> d).

(** Stores that read the same. *)
Definition same_store (d1 d2 : gmap string string) : Prop :=
  forall k, default "" (d1 !! k) = default "" (d2 !! k).

Lemma same_store_insert d1 d2 k v : same_store d1 d2 -> same_store (<[k := v]> d1) (<[k := v]> d2).
Proof. intros Hs k'. destruct (decide (k = k')) as [->|]; [by rewrite !lookup_insert_eq|by rewrite !lookup_insert_ne]. Qed.

Lemma same_store_read d1 d2 k : same_store d1 d2 -> same_store d1 (<[k := default "" (d2 !! k)]> d2).
Proof.
  intros Hs k'. destruct (decide (k = k')) as [->|]; [rewrite lookup_insert_eq; apply Hs|].
  rewrite lookup_insert_ne by done. apply Hs.
Qed.

Lemma store_step_key o k d ok d' : key_is k o ->
  store_step d (Input o) (Output o) = Some (ok, d') <->
  exists v, KvStep (default "" (d !! k)) (Input o) (Output o) = Some (ok, v) /\ d' = <[k := v]> d.
Proof.
  unfold key_is, key_of, store_step. destruct (as_input (Input o)) as [inp|]; simpl; [|done].
  intros [= <-]. split.
  - intros H. apply bind_Some in H as ([ok0 v] & Hs & [= <- <-]). eauto.
  - intros (v & -> & ->). done.
Qed.

(** ** From the store to its keys *)

Lemma legal_filter k l : Forall typed l -> forall d, legal store_step d l ->
  legal KvStep (default "" (d !! k)) (filter (key_is k) l).
Proof.
  induction 1 as [|o l Ho Hl IH]; intros d; simpl; [done|]. intros (d' & Hs & Hleg).
  destruct (typed_key o Ho) as [k' Hk'].
  apply (store_step_key o k' d true d' Hk') in Hs as (v & Hv & ->). specialize (IH _ Hleg).
  rewrite filter_cons. destruct (decide (key_is k o)) as [Hk|Hk].
  - assert (k' = k) as -> by (unfold key_is in *; congruence).
    rewrite lookup_insert_eq in IH. simpl. eauto.
  - rewrite lookup_insert_ne in IH; [done|]. unfold key_is in *. congruence.
Qed.

Lemma StronglySorted_filter {A} (R : A -> A -> Prop) (P : A -> Prop) `{forall x, Decision (P x)} l :
  StronglySorted R l -> StronglySorted R (filter P l).
Proof.
  induction 1 as [|x l Hs IH Hall]; [constructor|]. rewrite filter_cons. case_decide; [|done].
  constructor; [done|]. rewrite Forall_forall in Hall. apply Forall_forall.
  intros y [_ Hy]%list_elem_of_filter. auto.
Qed.

(** ** From the keys to the store *)

(** A point between the call and the return of each operation, never decreasing
    along a linearization. *)
Fixpoint points (m : Z) (l : list (Operation KvVal)) : list (Z * Operation KvVal) :=
  match l with
  | [] => []
  | o :: l => let m := Z.max m (Call o) in (m, o) :: points m l
  end.

Abbreviation earlier := (fun a b : Z * Operation KvVal => a.1 <= b.1).

Lemma points_snd l : forall m, (points m l).*2 = l.
Proof. induction l as [|o l IH]; intros m; simpl; [done|]. by rewrite IH. Qed.

Lemma points_lower l : forall m x, x ∈ points m l -> m <= x.1.
Proof.
  induction l as [|o l IH]; intros m x; simpl; [by intros ?%not_elem_of_nil|].
  intros [->|Hx%IH]%elem_of_cons; simpl; lia.
Qed.

Lemma points_sorted l : forall m, StronglySorted earlier (points m l).
Proof.
  induction l as [|o l IH]; intros m; simpl; constructor; [apply IH|].
  apply Forall_forall. intros x Hx%points_lower. done.
Qed.

Lemma points_within l : forall m x, Forall (fun o => Call o <= Return o /\ m <= Return o) l ->
  StronglySorted may_precede l -> x ∈ points m l -> Call x.2 <= x.1 <= Return x.2.
Proof.
  induction l as [|o l IH]; intros m x Hl Hs; simpl; [by intros ?%not_elem_of_nil|].
  apply Forall_cons in Hl as [Ho Hl]. apply StronglySorted_inv in Hs as [Hs Hall].
  intros [->|Hx]%elem_of_cons; simpl; [lia|]. eapply IH; [|done|exact Hx].
  rewrite Forall_forall in Hl, Hall. apply Forall_forall. intros o' Ho'.
  specialize (Hl o' Ho'). specialize (Hall o' Ho'). unfold may_precede in Hall. lia.
Qed.

Inductive interleave {A} : list A -> list A -> list A -> Prop :=
| il_nil : interleave [] [] []
| il_left x l1 l2 l : interleave l1 l2 l -> interleave (x :: l1) l2 (x :: l)
| il_right x l1 l2 l : interleave l1 l2 l -> interleave l1 (x :: l2) (x :: l).

Lemma interleave_left {A} (l : list A) : interleave l [] l.
Proof. induction l; by constructor. Qed.
Lemma interleave_right {A} (l : list A) : interleave [] l l.
Proof. induction l; by constructor. Qed.

Lemma interleave_perm {A} (l1 l2 l : list A) : interleave l1 l2 l -> l ≡ₚ l1 ++ l2.
Proof.
  induction 1 as [|x l1 l2 l _ IH|x l1 l2 l _ IH]; simpl; [done|by rewrite IH|].
  by rewrite IH, Permutation_middle.
Qed.

Lemma interleave_filter {A} (P : A -> Prop) `{forall x, Decision (P x)} l1 l2 l :
  interleave l1 l2 l -> interleave (filter P l1) (filter P l2) (filter P l).
Proof.
  induction 1; rewrite ?filter_cons; [constructor| |]; case_decide; by try constructor.
Qed.

Lemma interleave_only_left {A} (l1 l : list A) : interleave l1 [] l -> l = l1.
Proof. remember [] as l2. induction 1; simplify_eq; [done|]. by f_equal; auto. Qed.
Lemma interleave_only_right {A} (l2 l : list A) : interleave [] l2 l -> l = l2.
Proof. remember [] as l1. induction 1; simplify_eq; [done|]. by f_equal; auto. Qed.

(** Two sequences in the order of their points can be merged. *)
Lemma merge_points l1 : StronglySorted earlier l1 -> forall l2, StronglySorted earlier l2 ->
  exists l, interleave l1 l2 l /\ StronglySorted earlier l.
Proof.
  induction 1 as [|x l1 Hs1 IH1 Hx]; [intros l2 H2; exists l2; split; [apply interleave_right|done]|].
  induction 1 as [|y l2 Hs2 IH2 Hy].
  { exists (x :: l1). split; [apply interleave_left|by constructor]. }
  destruct (Z.le_ge_cases x.1 y.1) as [Hle|Hle].
  - destruct (IH1 (y :: l2)) as (l & Hil & Hl); [by constructor|]. exists (x :: l).
    split; [by constructor|]. constructor; [done|]. rewrite (interleave_perm _ _ _ Hil).
    apply Forall_app. split; [done|]. constructor; [done|]. eapply Forall_impl; [exact Hy|]. simpl. lia.
  - destruct IH2 as (l & Hil & Hl). exists (y :: l). split; [by constructor|]. constructor; [done|].
    rewrite (interleave_perm _ _ _ Hil). apply Forall_app. split; [|done].
    constructor; [done|]. eapply Forall_impl; [exact Hx|]. simpl. lia.
Qed.

Lemma filter_none {A} (P : A -> Prop) `{forall x, Decision (P x)} l : (forall x, x ∈ l -> ~ P x) -> filter P l = [].
Proof.
  induction l as [|x l IH]; intros Hn; [done|]. rewrite filter_cons, decide_False by (apply Hn; by left).
  apply IH. intros y Hy. apply Hn. by right.
Qed.

Lemma filter_snd {A B} (P : B -> Prop) `{forall x, Decision (P x)} (l : list (A * B)) :
  filter P l.*2 = (filter (fun x => P x.2) l).*2.
Proof.
  induction l as [|x l IH]; [done|]. rewrite fmap_cons, !filter_cons, IH. by case_decide.
Qed.

Abbreviation on_key k := (fun x : Z * Operation KvVal => key_is k x.2).

(** One sequence for each key gives one sequence for all of them. *)
Lemma merge_keys keys (Q : string -> list (Z * Operation KvVal) -> Prop) :
  NoDup keys ->
  (forall k, k ∈ keys -> exists L, StronglySorted earlier L /\ (forall x, x ∈ L -> on_key k x) /\ Q k L) ->
  exists l, StronglySorted earlier l /\ (forall k, k ∈ keys -> Q k (filter (on_key k) l)) /\
    (forall x, x ∈ l -> exists k, k ∈ keys /\ x ∈ filter (on_key k) l) /\
    l ≡ₚ mjoin (map (fun k => filter (on_key k) l) keys).
Proof.
  induction keys as [|k0 keys IH]; intros Hnd H.
  { exists []. split_and!; [constructor|set_solver|set_solver|done]. }
  apply NoDup_cons in Hnd as [Hk0 Hnd].
  destruct IH as (l & Hs & HQ & Hin & Hp); [done|intros; apply H; by right|].
  destruct (H k0) as (L & HsL & HL & HQL); [by left|].
  destruct (merge_points L HsL l Hs) as (l' & Hil & Hs').
  assert (forall k, k <> k0 -> filter (on_key k) L = []) as HL0.
  { intros k Hk. apply filter_none. intros x Hx Hkx. specialize (HL x Hx). unfold key_is in *. congruence. }
  assert (filter (on_key k0) l = []) as Hl0.
  { apply filter_none. intros x Hx Hkx. destruct (Hin x Hx) as (k & Hk & [Hkx' _]%list_elem_of_filter).
    unfold key_is in *. congruence. }
  assert (filter (on_key k0) l' = L) as E0.
  { pose proof (interleave_filter (on_key k0) _ _ _ Hil) as Hf. rewrite Hl0 in Hf.
    apply interleave_only_left in Hf. rewrite Hf. by apply filter_all, Forall_forall. }
  assert (forall k, k ∈ keys -> filter (on_key k) l' = filter (on_key k) l) as E.
  { intros k Hk. pose proof (interleave_filter (on_key k) _ _ _ Hil) as Hf.
    rewrite HL0 in Hf by congruence. by apply interleave_only_right in Hf. }
  assert (mjoin (map (fun k => filter (on_key k) l') keys) = mjoin (map (fun k => filter (on_key k) l) keys)) as Em.
  { f_equal. apply map_ext_in. intros k Hk. apply E. by apply list_elem_of_In. }
  exists l'. split_and!; [done| | |].
  - intros k [->|Hk]%elem_of_cons; [by rewrite E0|rewrite E by done; by apply HQ].
  - intros x Hx. rewrite (interleave_perm _ _ _ Hil) in Hx. apply elem_of_app in Hx as [Hx|Hx].
    + exists k0. rewrite E0. split; [by left|done].
    + destruct (Hin x Hx) as (k & Hk & Hxk). exists k. split; [by right|]. by rewrite E.
  - simpl. rewrite E0, Em, <- Hp. by apply interleave_perm.
Qed.

Lemma legal_merge l : Forall typed l -> forall d,
  (forall k, legal KvStep (default "" (d !! k)) (filter (key_is k) l)) -> legal store_step d l.
Proof.
  induction 1 as [|o l Ho Hl IH]; intros d H; simpl; [done|]. destruct (typed_key o Ho) as [k0 Hk0].
  pose proof (H k0) as H0. rewrite filter_cons, decide_True in H0 by done. destruct H0 as (v & Hv & H0).
  exists (<[k0 := v]> d). split; [apply (store_step_key o k0); eauto|]. apply IH. intros k.
  destruct (decide (k = k0)) as [->|Hk]; [by rewrite lookup_insert_eq|].
  rewrite lookup_insert_ne by done. specialize (H k). rewrite filter_cons, decide_False in H; [done|].
  unfold key_is in *. congruence.
Qed.

Lemma mjoin_insert {A} (f : string -> list A) k0 o keys : NoDup keys -> k0 ∈ keys ->
  mjoin (map (fun k => if decide (k = k0) then o :: f k else f k) keys) ≡ₚ o :: mjoin (map f keys).
Proof.
  induction keys as [|k keys IH]; intros Hnd Hin; [by apply not_elem_of_nil in Hin|].
  apply NoDup_cons in Hnd as [Hk Hnd]. simpl. apply elem_of_cons in Hin as [<-|Hin].
  - rewrite decide_True by done. simpl. f_equiv. f_equiv.
    assert (map (fun k => if decide (k = k0) then o :: f k else f k) keys = map f keys) as ->; [|done].
    apply map_ext_in. intros k Hk'%list_elem_of_In. rewrite decide_False by congruence. done.
  - rewrite decide_False by congruence. rewrite IH by done. by rewrite Permutation_middle.
Qed.

Lemma partition_perm keys history : NoDup keys -> Forall typed history ->
  (forall o k, o ∈ history -> key_is k o -> k ∈ keys) ->
  history ≡ₚ mjoin (map (fun k => filter (key_is k) history) keys).
Proof.
  intros Hnd Ht. induction Ht as [|o history Ho Ht IH]; intros Hk.
  { clear. induction keys as [|k keys IH]; [done|]. simpl. exact IH. }
  destruct (typed_key o Ho) as [k0 Hk0].
  rewrite IH at 1 by (intros o' k ?; apply Hk; by right).
  rewrite <- (mjoin_insert _ k0 o keys) by (done || (apply (Hk o); [by left|done])).
  assert (map (fun k => if decide (k = k0) then o :: filter (key_is k) history else filter (key_is k) history) keys =
    map (fun k => filter (key_is k) (o :: history)) keys) as ->; [|done].
  apply map_ext. intros k. rewrite filter_cons. unfold key_is in *.
  destruct (decide (k = k0)) as [->|Hne]; [by rewrite decide_True|]. rewrite decide_False; [done|congruence].
Qed.

(** A linearization of one key, with its points. *)
Lemma key_points k l : Forall (fun o => Call o <= Return o) l -> Forall (key_is k) l ->
  StronglySorted may_precede l ->
  exists L, StronglySorted earlier L /\ (forall x, x ∈ L -> on_key k x) /\ L.*2 = l /\
    forall x, x ∈ L -> Call x.2 <= x.1 <= Return x.2.
Proof.
  intros Hc Hk Hs. set (m := match l with o :: _ => Call o | [] => 0 end).
  exists (points m l). split_and!.
  - apply points_sorted.
  - intros x Hx. rewrite Forall_forall in Hk. apply Hk. rewrite <- (points_snd l m).
    apply list_elem_of_fmap. eauto.
  - apply points_snd.
  - intros x. apply points_within; [|done]. rewrite Forall_forall in Hc. apply Forall_forall.
    intros o Ho. split; [by apply Hc|]. subst m. destruct l as [|o0 l]; [by apply not_elem_of_nil in Ho|].
    apply elem_of_cons in Ho as [->|Ho]; [apply Hc; by left|].
    apply StronglySorted_inv in Hs as [_ Hall]. rewrite Forall_forall in Hall.
    specialize (Hall o Ho). unfold may_precede in Hall. lia.
Qed.

(** A sequence in the order of points inside the operations respects real time. *)
Lemma points_precede l : (forall x, x ∈ l -> Call x.2 <= x.1 <= Return x.2) ->
  StronglySorted earlier l -> StronglySorted may_precede l.*2.
Proof.
  intros Hw Hs. apply (StronglySorted_map may_precede snd). eapply StronglySorted_elem; [|exact Hs].
  intros x y Hx%Hw Hy%Hw Hle. simpl in Hle. unfold may_precede. lia.
Qed.

Lemma kv_local history parts :
  Forall typed history -> Forall (fun o => Call o <= Return o) history -> KvPartition history = Some parts ->
  linearizable store_step ∅ history <-> forall p, p ∈ parts -> linearizable KvStep "" p.
Proof.
  intros Ht Hc Hparts. destruct (KvPartition_spec history Ht) as (keys & Hp & Hnd & Hkeys).
  rewrite Hparts in Hp. injection Hp as ->. split.
  - intros (l & Hl & Hs & Hleg) p (k & -> & Hk)%list_elem_of_fmap. exists (filter (key_is k) l). split_and!.
    + by rewrite Hl.
    + by apply StronglySorted_filter.
    + assert (Forall typed l) as Htl by (by rewrite Hl).
      pose proof (legal_filter k l Htl ∅ Hleg) as H. by rewrite lookup_empty in H.
  - intros H.
    destruct (merge_keys keys (fun k L => L.*2 ≡ₚ filter (key_is k) history /\ legal KvStep "" L.*2 /\
      forall x, x ∈ L -> Call x.2 <= x.1 <= Return x.2) Hnd) as (l & Hs & HQ & Hin & Hperm).
    { intros k Hk. destruct (H (filter (key_is k) history)) as (lk & Hlk & Hsk & Hleg).
      { apply list_elem_of_fmap. eauto. }
      destruct (key_points k lk) as (L & ? & ? & E & ?).
      - rewrite Hlk. rewrite Forall_forall in Hc. apply Forall_forall. intros o [_ Ho]%list_elem_of_filter. auto.
      - rewrite Hlk. apply Forall_forall. by intros o [? _]%list_elem_of_filter.
      - done.
      - exists L. split_and!; rewrite ?E; done. }
    assert (l.*2 ≡ₚ history) as Hl.
    { rewrite (partition_perm keys history) by (done || (intros; apply Hkeys; eauto)).
      rewrite Hperm at 1. clear -HQ. induction keys as [|k keys IH]; [done|]. simpl. rewrite fmap_app.
      destruct (HQ k) as [HQk _]; [by left|]. rewrite HQk, IH; [done|]. intros k' Hk'. apply HQ. by right. }
    assert (Forall typed l.*2) as Htl by (by rewrite Hl).
    exists l.*2. split_and!; [done| |].
    + apply points_precede; [|done]. intros x Hx. destruct (Hin x Hx) as (k & Hk & Hxk).
      by apply (HQ k Hk).
    + apply legal_merge; [done|]. intros k. rewrite lookup_empty, filter_snd. simpl.
      destruct (decide (k ∈ keys)) as [Hk|Hk]; [by apply HQ|].
      rewrite filter_none; [done|]. intros x Hx Hkx. apply Hk, Hkeys. exists x.2. split; [|done].
      rewrite <- Hl. apply list_elem_of_fmap. eauto.
Qed.

Lemma KvStep_typed s o : typed o -> is_Some (KvStep s (Input o) (Output o)).
Proof.
  intros (i & r & -> & ->). unfold KvStep. simpl. repeat (case_decide; [by eexists|]). by eexists.
Qed.

Section checker.
Context (fmt_op : KvVal -> KvVal -> string) (fmt_state : string -> string).
Context (sort_by_time : list (entry KvVal) -> list (entry KvVal)).
Context (sort_perm : forall l, sort_by_time l ≡ₚ l).
Context (sort_sorted : forall l, StronglySorted (fun a b => Less b a = false) (sort_by_time l)).

(** C38. Checking one key at a time is enough.  For a non-empty history of gets,
    puts and appends, [CheckOperations] with [KvModel], which splits the history
    by key and runs the keys in parallel, finishes for every order of the
    answers, and returns true exactly when the whole history is linearizable for
    a store of all the keys. *)
Theorem kv_checker_correct history parts order :
  history <> [] -> Forall typed history -> Forall (fun o => Call o <= Return o) history ->
  KvPartition history = Some parts -> order ≡ₚ seq 0 (length parts) ->
  exists k, forall fuel, (k <= fuel)%nat -> exists b,
    CheckOperations VNil fmt_op fmt_state sort_by_time KvModel fuel history (fun _ _ => false)
      (map SResult order) = Some b /\
    (b = true <-> linearizable store_step ∅ history).
Proof.
  intros Hne Ht Hc Hparts Hord. destruct (KvPartition_spec history Ht) as (keys & Hp & _ & Hkeys).
  rewrite Hparts in Hp. injection Hp as Hp.
  destruct (checkOperations_total VNil fmt_op fmt_state sort_by_time sort_perm sort_sorted KvModel)
    with (history := history) (parts := parts) (verbose := false) (timeout := 0) (order := order) as [k Hk];
    try done.
  - intros s t H. by apply bool_decide_eq_true in H.
  - intros p Hin. rewrite Hp in Hin. apply list_elem_of_fmap in Hin as (key & -> & _).
    rewrite Forall_forall in Hc, Ht. split.
    + apply Forall_forall. intros o [_ Ho]%list_elem_of_filter. auto.
    + intros s o [_ Ho]%list_elem_of_filter. by apply KvStep_typed, Ht.
  - intros ->. destruct history as [|o history]; [done|]. apply Forall_cons in Ht as [Ho _].
    destruct (typed_key o Ho) as [key Hkey]. destruct keys; [|done].
    apply (not_elem_of_nil key), Hkeys. exists o. split; [by left|done].
  - exists k. intros fuel Hf. destruct (Hk fuel Hf) as (ok & info & Hcheck & Hiff). exists ok.
    unfold CheckOperations. rewrite Hcheck. split; [by destruct ok|]. rewrite Hiff. symmetry. by apply kv_local.
Qed.
End checker.
