(* ===== verification/KVLin.v ===== *)
(** The replicated key/value service with its clients, on top of one log.

    Clerks send their requests to any server, give up, and send them again; the
    servers run their handlers and appliers ([KVRaftSys]); Raft is what its
    contract says it is: [Start] hands out an index and a term at most once, the
    log grows by commands that were started for its next index, and every server
    is fed the log in order, or a snapshot of a longer prefix of it.  A server may
    crash and restart from a snapshot at any time; the calls it was serving then
    fail.  The history of completed calls is recorded with their times, as the
    tests record it for the checker. *)

From S2P Require Import Prelude Porcupine Models.
From S2P Require Import Gob Persister RaftTypes RaftApi KVRaft KVRaftSpec KVRaftSys.
Local Open Scope Z_scope.

Inductive Req := RGet (key : string) | RPut (key value : string) | RAppend (key value : string).

(** The operation a clerk's request becomes. *)
Definition op_of (c n : Z) (r : Req) : Op :=
  match r with
  | RGet k => mkOp c n "Get" k ""
  | RPut k v => mkOp c n "Put" k v
  | RAppend k v => mkOp c n "Append" k v
  end.

(** The RPC that carries it. *)
Definition call_of (o : Op) : Call :=
  if decide (OpType o = "Get") then CGet (mkGetArgs (Key o) (RequestId o) (ClientId o)) PStart
  else CPut (mkPutAppendArgs (Key o) (Value o) (OpType o) (RequestId o) (ClientId o)) None.

(** A clerk: its request number and, inside [Get] or [PutAppend], its operation,
    when it was called, and the server and call its last RPC is waiting for. *)
Record Clnt := mkClnt { c_req : Z; c_cur : option (Op * Z * option (Z * nat)) }.

Section system.
Context {R : Type} `{RaftApiLaws R Op} `{GobLaws kvmap} `{GobLaws reqmap}.

(** [glog] is the committed log with the terms of its entries, [proposed] what
    [Start] was ever given; a server has a position in the log. *)
Record LSys := mkLSys {
  glog : list (Z * Op);
  proposed : list (Z * Z * Op);
  srvs : gmap Z (Sys (R := R) * Z);
  clnts : gmap Z Clnt;
  lclock : Z;
  lhist : list (Operation KvVal)
}.

Definition ops (s : LSys) : list Op := (glog s).*2.

(** What the tests record. *)
Definition input_of (o : Op) : KvInput :=
  mkKvInput (if decide (OpType o = "Get") then 0 else if decide (OpType o = "Put") then 1 else 2)
    (Key o) (Value o).
Definition record_of (o : Op) (v : string) (call ret : Z) : Operation KvVal :=
  mkOperation (ClientId o) (VInput (input_of o)) call (VOutput (mkKvOutput v)) ret.

Definition set_srv (i : Z) (x : Sys * Z) (s : LSys) : LSys :=
  mkLSys (glog s) (proposed s) (<[i := x]> (srvs s)) (clnts s) (lclock s) (lhist s).
Definition set_clnt (c : Z) (x : Clnt) (s : LSys) : LSys :=
  mkLSys (glog s) (proposed s) (srvs s) (<[c := x]> (clnts s)) (lclock s) (lhist s).
Definition tick (s : LSys) : LSys :=
  mkLSys (glog s) (proposed s) (srvs s) (clnts s) (lclock s + 1) (lhist s).
Definition propose (l : list (Z * Z * Op)) (s : LSys) : LSys :=
  mkLSys (glog s) (l ++ proposed s) (srvs s) (clnts s) (lclock s) (lhist s).

(** The RPCs to a server that crashes fail. *)
Definition hang_up (i : Z) (x : Clnt) : Clnt :=
  match c_cur x with
  | Some (o, call, Some (j, k)) => if decide (j = i) then mkClnt (c_req x) (Some (o, call, None)) else x
  | _ => x
  end.

Inductive lstep : LSys -> LSys -> Prop :=
| l_invoke s c n r :
    clnts s !! c = Some (mkClnt n None) -> n < int64_max ->
    lstep s (tick (set_clnt c (mkClnt n (Some (op_of c n r, lclock s, None))) s))
| l_send s c n o call i S p :
    clnts s !! c = Some (mkClnt n (Some (o, call, None))) -> srvs s !! i = Some (S, p) ->
    lstep s (set_clnt c (mkClnt n (Some (o, call, Some (i, length (s_calls S)))))
      (set_srv i (mkSys (s_kv S) (s_calls S ++ [call_of o]) (s_started S) (s_notified S) (s_seen S), p) s))
| l_fail s c n o call a :
    clnts s !! c = Some (mkClnt n (Some (o, call, a))) ->
    lstep s (set_clnt c (mkClnt n (Some (o, call, None))) s)
| l_reply s c n o call i k S p cl e v :
    clnts s !! c = Some (mkClnt n (Some (o, call, Some (i, k)))) -> srvs s !! i = Some (S, p) ->
    s_calls S !! k = Some cl -> call_pc cl = Some (PDone (e, v)) -> (e = OK \/ e = ErrNoKey) ->
    lstep s (mkLSys (glog s) (proposed s) (srvs s) (<[c := mkClnt (wrap64 (n + 1)) None]> (clnts s)) (lclock s + 1)
      (lhist s ++ [record_of o v call (lclock s)]))
| l_handler s i S p k timeout cl cl' kv' :
    srvs s !! i = Some (S, p) -> s_calls S !! k = Some cl -> call_step timeout cl (s_kv S) = Ret (cl', kv') ->
    (forall idx t o o', (idx, t, o) ∈ started_by cl cl' -> (idx, t, o') ∉ proposed s) ->
    lstep s (propose (started_by cl cl') (set_srv i (mkSys kv' (<[k := cl']> (s_calls S)) (started_by cl cl' ++ s_started S)
      (s_notified S) (s_seen S), p) s))
| l_commit s t o :
    (zlen (glog s) + 1, t, o) ∈ proposed s ->
    lstep s (mkLSys (glog s ++ [(t, o)]) (proposed s) (srvs s) (clnts s) (lclock s) (lhist s))
| l_deliver s i S p t o kv' :
    srvs s !! i = Some (S, p) -> (glog s).[p] = Some (t, o) -> p + 1 <= rf_applied (rf (s_kv S)) ->
    applier (cmd_msg (p + 1) t o) (s_kv S) = Ret kv' ->
    lstep s (set_srv i (mkSys kv' (s_calls S) (s_started S)
       (if decide (lastIncludedIndex (s_kv S) < p + 1 /\ notifies t (s_kv S) = true)
        then (p + 1, t, o, KVDB (s_kv S)) :: s_notified S else s_notified S) ({[p + 1]} ∪ s_seen S), p + 1) s)
| l_snapshot s i S p j t data kv' :
    srvs s !! i = Some (S, p) -> p < j <= zlen (glog s) -> 0 < zlen data ->
    decode_snapshot data = Some (exec_log (take (Z.to_nat j) (ops s))) ->
    applier (snap_msg j t data) (s_kv S) = Ret kv' ->
    lstep s (set_srv i (mkSys kv' (s_calls S) (s_started S) (s_notified S) (s_seen S), j) s)
| l_raft s i S p r' :
    srvs s !! i = Some (S, p) -> rf_ok r' -> term_of S <= fst (rf_GetState r') ->
    rf_applied (rf (s_kv S)) <= rf_applied r' ->
    lstep s (set_srv i (mkSys (set_rf r' (s_kv S)) (s_calls S) (s_started S) (s_notified S) (s_seen S), p) s)
| l_restart s i r' j mx :
    rf_ok r' -> 0 <= j <= zlen (glog s) ->
    (j = 0 /\ ReadSnapshot (rf_persister r') = [] \/
     0 < zlen (ReadSnapshot (rf_persister r')) /\
     decode_snapshot (ReadSnapshot (rf_persister r')) = Some (exec_log (take (Z.to_nat j) (ops s)))) ->
    lstep s (mkLSys (glog s) (proposed s) (<[i := (sys_init (StartKVServer i r' mx), j)]> (srvs s))
      (hang_up i <$> clnts s) (lclock s) (lhist s)).

(** Servers start, clerks have request number 0. *)
Definition linit (rs : gmap Z R) (ids : gset Z) (mx : Z) : LSys :=
  mkLSys [] [] (map_imap (fun i r => Some (sys_init (StartKVServer i r mx), 0)) rs)
    (gset_to_gmap (mkClnt 0 None) ids) 0 [].

(** * The invariant *)

(** [G] maps client and request number to the operation and the length of the log
    when it was called. *)
Abbreviation issues := (gmap (Z * Z) (Op * Z)).
Definition issued (G : issues) (o : Op) : Prop := exists lc, G !! (ClientId o, RequestId o) = Some (o, lc).

Definition in_log (L : list (Z * Op)) (o : Op) : Prop := exists k t, L.[k] = Some (t, o).

(** An answered operation: its place [d_x] in the log. *)
Record Done := mkDone { d_op : Op; d_val : string; d_x : Z; d_lcall : Z; d_call : Z; d_ret : Z }.

Definition db_at (L : list (Z * Op)) (k : Z) : kvmap := (exec_log (take (Z.to_nat k) L.*2)).1.

Definition done_ok (L : list (Z * Op)) (G : issues) (d : Done) : Prop :=
  G !! (ClientId (d_op d), RequestId (d_op d)) = Some (d_op d, d_lcall d) /\
  (exists t, L.[d_x d - 1] = Some (t, d_op d)) /\
  (OpType (d_op d) = "Get" -> d_val d = map_get (db_at L (d_x d - 1)) (Key (d_op d))) /\
  (OpType (d_op d) <> "Get" -> d_val d = "" /\ forall k t o, k < d_x d - 1 -> L.[k] = Some (t, o) -> ~ same_request (d_op d) o).

(** A running call; a [PutAppend] answers [OK] when its operation is in the log. *)
Definition call_ok (L : list (Z * Op)) (G : issues) (cl : Call) : Prop :=
  issued G (call_op cl) /\
  match cl with
  | CGet _ pc => True
  | CPut args _ => paOp args = "Put" \/ paOp args = "Append"
  end /\
  match call_pc cl with
  | Some (PDelete _ (e, v)) | Some (PDone (e, v)) =>
      (e = OK \/ e = ErrWrongLeader) /\ match cl with CGet _ _ => True | CPut _ _ => v = "" end
  | _ => True
  end /\
  match cl with
  | CPut _ (Some (PDone (e, v))) => e = OK -> in_log L (call_op cl)
  | _ => True
  end.

Record srv_ok (L : list (Z * Op)) (G : issues) (P : list (Z * Z * Op)) (S : Sys (R := R)) (p : Z) : Prop := {
  so_inv : exists cidx, sys_inv S cidx;
  so_pos : 0 <= p <= zlen L;
  so_last : lastIncludedIndex (s_kv S) <= p;
  so_db : db_state (s_kv S) = exec_log (take (Z.to_nat p) L.*2);
  so_seen : forall i, i ∈ s_seen S -> i <= p;
  so_started : forall x, x ∈ s_started S -> x ∈ P;
  so_notified : forall i t o db, (i, t, o, db) ∈ s_notified S -> L.[i - 1] = Some (t, o) /\ db = db_at L (i - 1);
  so_calls : Forall (call_ok L G) (s_calls S)
}.

Record linv (s : LSys) (G : issues) (D : list Done) : Prop := {
  li_srv : forall i S p, srvs s !! i = Some (S, p) -> srv_ok (glog s) G (proposed s) S p;
  li_prop : forall i t o, (i, t, o) ∈ proposed s -> issued G o;
  li_once : forall i t o o', (i, t, o) ∈ proposed s -> (i, t, o') ∈ proposed s -> o = o';
  li_log : forall k t o, (glog s).[k] = Some (t, o) -> (k + 1, t, o) ∈ proposed s;
  li_after : forall k t o lc, (glog s).[k] = Some (t, o) -> G !! (ClientId o, RequestId o) = Some (o, lc) -> lc <= k;
  li_key : forall c n o lc, G !! (c, n) = Some (o, lc) -> ClientId o = c /\ RequestId o = n /\
    (OpType o = "Get" /\ Value o = "" \/ OpType o = "Put" \/ OpType o = "Append") /\
    exists x, clnts s !! c = Some x /\ n <= c_req x /\
      (n = c_req x -> exists call a, c_cur x = Some (o, call, a)) /\
      (n < c_req x -> exists d, d ∈ D /\ d_op d = o);
  li_clnt : forall c x, clnts s !! c = Some x -> 0 <= c_req x <= int64_max /\
    forall o call a, c_cur x = Some (o, call, a) -> c_req x < int64_max /\ call < lclock s /\
      (exists lc, G !! (c, c_req x) = Some (o, lc) /\ lc <= zlen (glog s) /\
         forall d, d ∈ D -> d_ret d < call -> d_x d <= lc) /\
      (forall i k, a = Some (i, k) -> forall S p, srvs s !! i = Some (S, p) ->
         exists cl, s_calls S !! k = Some cl /\ call_op cl = o);
  li_hist : lhist s = (fun d => record_of (d_op d) (d_val d) (d_call d) (d_ret d)) <$> D;
  li_done : forall d, d ∈ D -> done_ok (glog s) G d /\ d_call d < lclock s /\ d_ret d < lclock s /\
    exists x, clnts s !! ClientId (d_op d) = Some x /\ RequestId (d_op d) < c_req x;
  li_real : forall d d', d ∈ D -> d' ∈ D -> d_ret d < d_call d' -> d_x d <= d_lcall d';
  li_nodup : NoDup ((fun d => (ClientId (d_op d), RequestId (d_op d))) <$> D);
  li_order : clerk_order (ops s)
}.
(** ** Growth *)

Lemma issued_mono G G' o : G ⊆ G' -> issued G o -> issued G' o.
Proof. intros HG [lc Hlc]. exists lc. by eapply lookup_weaken. Qed.

Lemma in_log_app L l o : in_log L o -> in_log (L ++ l) o.
Proof. intros (k & t & Hk). exists k, t. rewrite go_index_app_l; [done|]. apply go_index_Some_lt in Hk. lia. Qed.

Lemma take_ops_app (L l : list (Z * Op)) k : k <= zlen L -> take (Z.to_nat k) (L ++ l).*2 = take (Z.to_nat k) L.*2.
Proof. intros Hk. rewrite fmap_app, take_app_le; [done|]. rewrite length_fmap. unfold zlen in Hk. lia. Qed.

Lemma db_at_app L l k : k <= zlen L -> db_at (L ++ l) k = db_at L k.
Proof. intros Hk. unfold db_at. by rewrite take_ops_app. Qed.

Lemma index_app_old {A} (L l : list A) k x : L.[k] = Some x -> (L ++ l).[k] = Some x.
Proof. intros Hk. rewrite go_index_app_l; [done|]. apply go_index_Some_lt in Hk. lia. Qed.

Lemma call_ok_mono L l G G' cl : G ⊆ G' -> call_ok L G cl -> call_ok (L ++ l) G' cl.
Proof.
  intros HG (Hi & Ht & He & Hp). split_and!; try done; [by eapply issued_mono|].
  destruct cl as [|args [[| | | | |[e v]]|]]; try done. intros He'. by apply in_log_app, Hp.
Qed.

Lemma srv_ok_mono L l G G' P P' S p : G ⊆ G' -> P ⊆ P' -> srv_ok L G P S p -> srv_ok (L ++ l) G' P' S p.
Proof.
  intros HG HP [? Hpos ? Hdb ? Hst Hn Hc]. split; try done.
  - rewrite zlen_app. pose proof (zlen_nonneg l). lia.
  - by rewrite take_ops_app by lia.
  - auto.
  - intros i t o db Hx. destruct (Hn i t o db Hx) as [HL ->]. pose proof (go_index_Some_lt _ _ _ HL).
    split; [by apply index_app_old|]. by rewrite db_at_app by lia.
  - eapply Forall_impl; [done|]. intros cl. by apply call_ok_mono.
Qed.

Lemma srv_ok_grow L G G' P P' S p : G ⊆ G' -> P ⊆ P' -> srv_ok L G P S p -> srv_ok L G' P' S p.
Proof. intros HG HP Hok. rewrite <- (app_nil_r L). by eapply srv_ok_mono. Qed.

Lemma done_ok_mono L l G G' d : G ⊆ G' -> done_ok L G d -> done_ok (L ++ l) G' d.
Proof.
  intros HG (Hg & (t & Hx) & Hget & Hput). pose proof (go_index_Some_lt _ _ _ Hx).
  split_and!; [by eapply lookup_weaken|exists t; by apply index_app_old|by rewrite db_at_app by lia|].
  intros Ht. destruct (Hput Ht) as [Hv Hfirst]. split; [done|]. intros k t' o Hk Ho.
  rewrite go_index_app_l in Ho by lia. eauto.
Qed.

Lemma done_ok_grow L G G' d : G ⊆ G' -> done_ok L G d -> done_ok L G' d.
Proof. intros HG Hok. rewrite <- (app_nil_r L). by eapply done_ok_mono. Qed.

(** ** One server *)

Lemma linv_srv s G D i S p S' p' l :
  linv s G D -> srvs s !! i = Some (S, p) -> srv_ok (glog s) G (l ++ proposed s) S' p' ->
  (forall k cl, s_calls S !! k = Some cl -> exists cl', s_calls S' !! k = Some cl' /\ call_op cl' = call_op cl) ->
  (forall idx t o, (idx, t, o) ∈ l -> issued G o) ->
  (forall idx t o o', (idx, t, o) ∈ l -> (idx, t, o') ∈ l ++ proposed s -> o = o') ->
  linv (propose l (set_srv i (S', p') s)) G D.
Proof.
  intros [Hsrv Hprop Honce Hlog Haft Hkey Hcl Hh Hd Hr Hnd Hord] Hi Hok Hcalls Hl Hlo. split; simpl; try done.
  - intros j S0 p0 [[<- [= <- <-]]|[_ Hj]]%lookup_insert_Some; [done|].
    eapply srv_ok_grow; [done| |by eapply Hsrv]. set_solver.
  - intros idx t o [Hin|Hin]%elem_of_app; eauto.
  - intros idx t o o' [Hin|Hin]%elem_of_app [Hin'|Hin']%elem_of_app; [eapply Hlo; [exact Hin|set_solver]|eapply Hlo; [exact Hin|set_solver]
      |symmetry; eapply Hlo; [exact Hin'|set_solver]|eauto].
  - intros k t o Hk. apply elem_of_app. right. eauto.
  - intros c x Hx. destruct (Hcl c x Hx) as [Hreq Hcur]. split; [done|]. intros o call a Ha.
    destruct (Hcur o call a Ha) as (? & ? & ? & Hatt). split_and!; try done.
    intros j k Hjk S0 p0 [[<- [= <- <-]]|[_ Hj]]%lookup_insert_Some; [|by eapply Hatt].
    destruct (Hatt i k Hjk S p Hi) as (cl & Hk & <-). by apply Hcalls.
Qed.

Lemma propose_nil s : propose [] s = s.
Proof. by destruct s. Qed.

(** Without a new proposal. *)
Lemma linv_srv_only s G D i S p S' p' :
  linv s G D -> srvs s !! i = Some (S, p) -> srv_ok (glog s) G (proposed s) S' p' -> s_calls S' = s_calls S ->
  linv (set_srv i (S', p') s) G D.
Proof.
  intros Hinv Hi Hok Hcalls. rewrite <- (propose_nil (set_srv _ _ _)). eapply linv_srv; try done; [|set_solver|set_solver].
  intros k cl Hk. rewrite Hcalls. eauto.
Qed.
(** ** Handlers *)

Lemma register_frame i (kv : KVServer R) :
  db_state (register i kv).2 = db_state kv /\ lastIncludedIndex (register i kv).2 = lastIncludedIndex kv.
Proof. unfold register. by destruct (waitChMap kv !! i). Qed.

Lemma recv_frame ch (kv : KVServer R) res kv' : recv_chan ch kv = Ret (res, kv') ->
  db_state kv' = db_state kv /\ lastIncludedIndex kv' = lastIncludedIndex kv.
Proof. unfold recv_chan. destruct (chans kv !! ch) as [[|]|]; try done. by intros [= <- <-]. Qed.

Lemma call_step_frame timeout cl (kv : KVServer R) cl' kv' : call_step timeout cl kv = Ret (cl', kv') ->
  db_state kv' = db_state kv /\ lastIncludedIndex kv' = lastIncludedIndex kv /\ call_op cl' = call_op cl.
Proof.
  intros Hs. destruct (call_pc cl) as [pc|] eqn:Hpc.
  - rewrite (call_step_phase _ _ _ _ Hpc) in Hs. apply go_bind_Ret in Hs as ([pc' kv1] & Hph & Hs). go_inv.
    assert (call_op (set_pc pc' cl) = call_op cl) as -> by (by destruct cl).
    destruct pc as [|i t|i t ch|i t res|i rep|rep]; simpl in Hph.
    + apply go_bind_Ret in Hph as ([r [[i t] b]] & _ & Hph). destruct b; by go_inv.
    + go_inv. destruct (register_frame i kv). done.
    + destruct timeout; go_inv; [done|]. destruct x as [res kv2]. go_inv.
      match goal with Hr : recv_chan _ _ = _ |- _ => by destruct (recv_frame _ _ _ _ Hr) end.
    + by go_inv.
    + by go_inv.
    + by go_inv.
  - destruct (call_step_check _ _ _ _ _ Hpc Hs) as (-> & (args & ->) & [->| ->]); done.
Qed.

(** A [PutAppend] that is answered at once: its operation is in the log. *)
Lemma covered_in_log s G D S p o : linv s G D -> srv_ok (glog s) G (proposed s) S p -> issued G o ->
  isInvalidRequest (ClientId o) (RequestId o) (LastRequestMap (s_kv S)) = true -> in_log (glog s) o.
Proof.
  intros Hinv Hok [lc Hlc] Hi. unfold isInvalidRequest in Hi.
  pose proof (so_db _ _ _ _ _ Hok) as Hdb. unfold db_state in Hdb.
  destruct (LastRequestMap (s_kv S) !! ClientId o) as [r|] eqn:Hr; [|done]. apply bool_decide_eq_true in Hi.
  assert (snd (exec_log (take (Z.to_nat p) (glog s).*2)) !! ClientId o = Some r) as Hr' by (rewrite <- Hdb; done).
  destruct (exec_log_last _ _ _ Hr') as [(o' & Hin & Hc & <-) _].
  assert (o' ∈ (glog s).*2) as Hin'.
  { rewrite <- (take_drop (Z.to_nat p)). apply elem_of_app. by left. }
  apply list_elem_of_fmap in Hin' as ([t o2] & -> & Hin'). apply list_elem_of_lookup in Hin' as [k Hk].
  rewrite <- go_index_of_nat in Hk. simpl in *. destruct (li_prop _ _ _ Hinv _ _ _ (li_log _ _ _ Hinv _ _ _ Hk)) as [lc2 Hlc2].
  rewrite Hc in Hlc2. destruct (decide (RequestId o2 = RequestId o)) as [Heq|Hne].
  - rewrite Heq in Hlc2. assert (o2 = o) as -> by congruence. by exists (Z.of_nat k), t.
  - destruct (li_key _ _ _ Hinv _ _ _ _ Hlc2) as (_ & _ & _ & x & Hx & Hle & _).
    destruct (li_key _ _ _ Hinv _ _ _ _ Hlc) as (_ & _ & _ & x' & Hx' & _ & _ & Hdone). assert (x' = x) as -> by congruence.
    destruct Hdone as (d & Hd & <-); [lia|]. destruct (li_done _ _ _ Hinv d Hd) as ((_ & (t' & Hx2) & _) & _). by eexists _, t'.
Qed.

Lemma call_ok_step s G D S p timeout cl cl' kv' k : linv s G D -> srv_ok (glog s) G (proposed s) S p ->
  s_calls S !! k = Some cl -> call_step timeout cl (s_kv S) = Ret (cl', kv') -> call_ok (glog s) G cl'.
Proof.
  intros Hinv Hok Hk Hs. pose proof (Forall_lookup_1 _ _ _ _ (so_calls _ _ _ _ _ Hok) Hk) as (Hiss & Hty & Hrep & Hput).
  destruct (call_step_frame _ _ _ _ _ Hs) as (_ & _ & Hop). destruct (so_inv _ _ _ _ _ Hok) as [cidx Hsys].
  pose proof (Forall_lookup_1 _ _ _ _ (si_calls _ _ Hsys) Hk) as Hci. unfold call_inv in Hci.
  unfold call_ok. rewrite Hop. split; [done|]. destruct (call_pc cl) as [pc|] eqn:Hpc; rewrite ?Hpc in Hci, Hrep.
  - rewrite (call_step_phase _ _ _ _ Hpc) in Hs. apply go_bind_Ret in Hs as ([pc' kv1] & Hph & Hs). go_inv.
    assert (call_pc (set_pc pc' cl) = Some pc') as -> by (by destruct cl).
    split; [by destruct cl|]. destruct pc as [|i t|i t ch|i t res|i [e v]|[e v]]; simpl in Hph.
    + apply go_bind_Ret in Hph as ([r [[i t] b]] & _ & Hph). destruct b; go_inv; [by destruct cl|].
      split; [split; [by right|by destruct cl]|by destruct cl].
    + go_inv. by destruct cl.
    + destruct timeout; go_inv; [|destruct x; go_inv; by destruct cl].
      split; [split; [by right|by destruct cl]|by destruct cl].
    + go_inv. split; [|by destruct cl]. split; [case_decide; auto|by destruct cl].
    + go_inv. split; [by destruct cl|]. destruct cl as [|args pc0]; [done|]. intros He.
      destruct (Hci He) as (t & res & (db & lr & Hn & _) & _).
      destruct (so_notified _ _ _ _ _ Hok _ _ _ _ Hn) as [HL _]. by eexists _, t.
    + go_inv. split; [by destruct cl|]. destruct cl as [|args pc0]; [done|]. simpl in Hpc. by subst pc0.
  - pose proof Hs as Hs2. destruct (call_step_check _ _ _ _ _ Hpc Hs) as (-> & (args & ->) & [->| ->]); simpl.
    + done.
    + split_and!; try done; [by left|]. intros _. simpl in Hs2. destruct (isInvalidRequest _ _ _) eqn:Hv; [|done].
      by eapply (covered_in_log s G D S p).
Qed.

Lemma linv_handler s G D i S p k timeout cl cl' kv' :
  linv s G D -> srvs s !! i = Some (S, p) -> s_calls S !! k = Some cl -> call_step timeout cl (s_kv S) = Ret (cl', kv') ->
  (forall idx t o o', (idx, t, o) ∈ started_by cl cl' -> (idx, t, o') ∉ proposed s) ->
  linv (propose (started_by cl cl') (set_srv i (mkSys kv' (<[k := cl']> (s_calls S)) (started_by cl cl' ++ s_started S)
      (s_notified S) (s_seen S), p) s)) G D.
Proof.
  intros Hinv Hi Hk Hs Hfresh. pose proof (li_srv _ _ _ Hinv _ _ _ Hi) as Hok.
  destruct (call_step_frame _ _ _ _ _ Hs) as (Hdb & Hlast & Hop).
  assert (started_by cl cl' = [] \/ exists idx t, started_by cl cl' = [(idx, t, call_op cl)]) as Hsb.
  { unfold started_by. destruct (call_pc cl) as [[]|]; auto. destruct (call_pc cl') as [[]|]; auto. right. eauto. }
  pose proof (call_ok_step _ _ _ _ _ _ _ _ _ _ Hinv Hok Hk Hs) as Hcl'. pose proof Hok as [[cidx Hsys] Hpos Hla Hd Hseen Hst Hn Hc].
  assert (issued G (call_op cl)) as Hiss by apply (Forall_lookup_1 _ _ _ _ Hc Hk).
  eapply linv_srv; try done.
  - split; simpl; try done; try congruence.
    + eapply (kv_step_inv S); [|done]. eapply step_handler; try done. intros idx t o o' Hin Hin'. eapply Hfresh; eauto.
    + set_solver.
    + by apply Forall_insert.
  - intros k' c0 Hk'. simpl. destruct (decide (k = k')) as [<-|Hne].
    + exists cl'. rewrite list_lookup_insert_eq by (by eapply lookup_lt_Some). split; [done|]. congruence.
    + exists c0. by rewrite list_lookup_insert_ne.
  - intros idx t o Hin. destruct Hsb as [Hsb|(? & ? & Hsb)]; rewrite Hsb in Hin; set_solver.
  - intros idx t o o' Hin [Hin'|Hin']%elem_of_app; [|by destruct (Hfresh idx t o o' Hin)].
    destruct Hsb as [Hsb|(? & ? & Hsb)]; rewrite Hsb in Hin, Hin'; set_solver.
Qed.
(** ** The applier, Raft and restarts *)

Lemma linv_deliver s G D i S p t o kv' :
  linv s G D -> srvs s !! i = Some (S, p) -> (glog s).[p] = Some (t, o) -> p + 1 <= rf_applied (rf (s_kv S)) ->
  applier (cmd_msg (p + 1) t o) (s_kv S) = Ret kv' ->
  linv (set_srv i (mkSys kv' (s_calls S) (s_started S)
       (if decide (lastIncludedIndex (s_kv S) < p + 1 /\ notifies t (s_kv S) = true)
        then (p + 1, t, o, KVDB (s_kv S)) :: s_notified S else s_notified S) ({[p + 1]} ∪ s_seen S), p + 1) s) G D.
Proof.
  intros Hinv Hi Hp Happ Hap. pose proof (li_srv _ _ _ Hinv _ _ _ Hi) as [[cidx Hsys] Hpos Hla Hd Hseen Hst Hn Hc].
  pose proof (go_index_Some_lt _ _ _ Hp) as Hlt. assert (p + 1 ∉ s_seen S) as Hns by (intros ?%Hseen; lia).
  assert (db_state kv' = sm_step (db_state (s_kv S)) o /\ lastIncludedIndex kv' = p + 1) as [Hdb' Hla'].
  { destruct (inv_applier_returns S cidx (p + 1) t o Hsys Hns Happ) as [[_ ?]|(_ & r' & Hr & _)]; [lia|].
    rewrite Hap in Hr. injection Hr as ->. unfold db_state. simpl. by rewrite <- surjective_pairing. }
  eapply linv_srv_only; try done. split; simpl; try done; try lia.
  - eapply (kv_step_inv S); [|done]. apply step_command; try done. intros o' Ho'. apply Hst in Ho'.
    eapply (li_once _ _ _ Hinv); [done|]. by apply (li_log _ _ _ Hinv).
  - rewrite Hdb', Hd. assert (((glog s).*2).[p] = Some o) as Ho.
    { rewrite go_index_lookup, list_lookup_fmap, <- go_index_lookup, Hp by lia. done. }
    by rewrite (take_snoc_index _ _ _ Ho), exec_log_snoc.
  - intros j [->%elem_of_singleton|?%Hseen]%elem_of_union; lia.
  - intros j t' o' db. case_decide; [|by apply Hn]. intros [[= -> -> -> ->]|?]%elem_of_cons; [|by apply Hn].
    replace (p + 1 - 1) with p by lia. split; [done|]. unfold db_at. by rewrite <- Hd.
Qed.

Lemma linv_snapshot s G D i S p j t data kv' :
  linv s G D -> srvs s !! i = Some (S, p) -> p < j <= zlen (glog s) -> 0 < zlen data ->
  decode_snapshot data = Some (exec_log (take (Z.to_nat j) (ops s))) -> applier (snap_msg j t data) (s_kv S) = Ret kv' ->
  linv (set_srv i (mkSys kv' (s_calls S) (s_started S) (s_notified S) (s_seen S), j) s) G D.
Proof.
  intros Hinv Hi Hj Hdata Hdec Hap. pose proof (li_srv _ _ _ Hinv _ _ _ Hi) as [[cidx Hsys] Hpos Hla Hd Hseen Hst Hn Hc].
  pose proof Hap as Hap2. rewrite (applier_snapshot _ _ _ _ (exec_log (take (Z.to_nat j) (ops s)))) in Hap by (done || lia).
  injection Hap as <-. eapply linv_srv_only; try done. split; simpl; try done; try lia.
  - exists cidx. by eapply KVRaftSys.inv_snapshot.
  - unfold db_state. simpl. by rewrite <- surjective_pairing.
  - intros k Hk%Hseen. lia.
Qed.

Lemma linv_raft s G D i S p r' :
  linv s G D -> srvs s !! i = Some (S, p) -> rf_ok r' -> term_of S <= fst (rf_GetState r') ->
  rf_applied (rf (s_kv S)) <= rf_applied r' ->
  linv (set_srv i (mkSys (set_rf r' (s_kv S)) (s_calls S) (s_started S) (s_notified S) (s_seen S), p) s) G D.
Proof.
  intros Hinv Hi Hok Ht Ha. pose proof (li_srv _ _ _ Hinv _ _ _ Hi) as [[cidx Hsys] Hpos Hla Hd Hseen Hst Hn Hc].
  eapply linv_srv_only; try done. split; simpl; try done. exists cidx. by apply KVRaftSys.inv_raft.
Qed.

(** A server as [StartKVServer] returns it. *)
Lemma srv_ok_start L G P i r' j mx : rf_ok r' -> 0 <= j <= zlen L ->
  (j = 0 /\ ReadSnapshot (rf_persister r') = [] \/
   0 < zlen (ReadSnapshot (rf_persister r')) /\
   decode_snapshot (ReadSnapshot (rf_persister r')) = Some (exec_log (take (Z.to_nat j) L.*2))) ->
  srv_ok L G P (sys_init (StartKVServer i r' mx)) j.
Proof.
  intros Hok Hj Hsnap.
  assert (exists db lr, StartKVServer i r' mx = set_db db lr (mkKVServer i r' 0 mx ∅ ∅ ∅ 0 ∅ O) /\
    (db, lr) = exec_log (take (Z.to_nat j) L.*2)) as (db & lr & -> & Hdb).
  { unfold StartKVServer. simpl. destruct Hsnap as [[-> ->]|[Hz Hdec]].
    - exists ∅, ∅. unfold readPersist. rewrite decide_True by done. done.
    - rewrite (readPersist_decodes _ _ _ Hz Hdec). eexists _, _. split; [done|]. by rewrite <- surjective_pairing. }
  split; simpl; try done; try set_solver; try lia.
  eapply kv_reachable_inv; [| | |apply rtc_refl]; done.
Qed.

Lemma hang_up_cur i x o call a : c_cur (hang_up i x) = Some (o, call, a) ->
  exists a', c_cur x = Some (o, call, a') /\ (a = a' /\ (forall k, a <> Some (i, k)) \/ a = None).
Proof.
  unfold hang_up. destruct (c_cur x) as [[[o' call'] [[j k]|]]|] eqn:E; [|rewrite E; intros [= -> -> ->]; eauto 10|by rewrite E].
  case_decide as Hj; simpl; [intros [= -> -> <-]; eauto 10|]. rewrite E. intros [= -> -> <-].
  eexists. split; [done|]. left. split; [done|]. congruence.
Qed.

Lemma hang_up_req i x : c_req (hang_up i x) = c_req x.
Proof. unfold hang_up. destruct (c_cur x) as [[[? ?] [[? ?]|]]|]; try done. by case_decide. Qed.

Lemma hang_up_some i x o call a : c_cur x = Some (o, call, a) -> exists a', c_cur (hang_up i x) = Some (o, call, a').
Proof. intros Hx. unfold hang_up. rewrite Hx. destruct a as [[j k]|]; [case_decide|]; rewrite ?Hx; simpl; eauto. Qed.

Lemma linv_restart s G D i r' j mx :
  linv s G D -> rf_ok r' -> 0 <= j <= zlen (glog s) ->
  (j = 0 /\ ReadSnapshot (rf_persister r') = [] \/
   0 < zlen (ReadSnapshot (rf_persister r')) /\
   decode_snapshot (ReadSnapshot (rf_persister r')) = Some (exec_log (take (Z.to_nat j) (ops s)))) ->
  linv (mkLSys (glog s) (proposed s) (<[i := (sys_init (StartKVServer i r' mx), j)]> (srvs s))
      (hang_up i <$> clnts s) (lclock s) (lhist s)) G D.
Proof.
  intros [Hsrv Hprop Honce Hlog Haft Hkey Hcl Hh Hd Hr Hnd Hord] Hok Hj Hsnap. split; simpl; try done.
  - intros k S0 p0 [[<- [= <- <-]]|[_ Hk]]%lookup_insert_Some; [by apply srv_ok_start|by eapply Hsrv].
  - intros c n o lc Hg. destruct (Hkey c n o lc Hg) as (? & ? & ? & x & Hx & Hle & Heq & Hlt). split_and!; try done.
    exists (hang_up i x). rewrite lookup_fmap, Hx, hang_up_req. split_and!; try done.
    intros Hn. destruct (Heq Hn) as (call & a & Ha). destruct (hang_up_some i x _ _ _ Ha) as [a' Ha']. eauto.
  - intros c x' Hx'. rewrite lookup_fmap in Hx'. destruct (clnts s !! c) as [x|] eqn:Hx; [|done]. injection Hx' as <-.
    destruct (Hcl c x Hx) as [Hreq Hcur]. rewrite hang_up_req. split; [done|]. intros o call a Ha.
    destruct (hang_up_cur _ _ _ _ _ Ha) as (a' & Ha' & Hcase). destruct (Hcur o call a' Ha') as (? & ? & ? & Hatt).
    split_and!; try done. intros k m -> S0 p0 HS. destruct Hcase as [[<- Hni]|?]; [|done].
    destruct (decide (k = i)) as [->|Hne]; [by destruct (Hni m)|]. rewrite lookup_insert_ne in HS by done. by eapply Hatt.
  - intros d Hin. destruct (Hd d Hin) as (? & ? & ? & x & Hx & Hlt). split_and!; try done.
    exists (hang_up i x). rewrite lookup_fmap, Hx, hang_up_req. done.
Qed.

(** ** The log *)

Lemma clerk_order_app (l : list Op) o : clerk_order l ->
  ((forall o', o' ∈ l -> ~ same_request o o') -> forall o', o' ∈ l -> ClientId o' = ClientId o -> RequestId o' < RequestId o) ->
  clerk_order (l ++ [o]).
Proof.
  intros Hord Hnew pre x post Heq Hfirst. destruct post as [|y post _] using rev_ind.
  - apply app_inj_tail in Heq as [-> ->]. apply Forall_forall. rewrite Forall_forall in Hfirst. intros o' Ho'.
    by apply Hnew.
  - rewrite app_comm_cons, app_assoc in Heq. apply app_inj_tail in Heq as [-> ->]. by apply (Hord pre x post).
Qed.

Lemma elem_of_ops s o : o ∈ ops s -> exists k t, (glog s).[k] = Some (t, o).
Proof.
  unfold ops. intros ([t o'] & -> & Hin)%list_elem_of_fmap. apply list_elem_of_lookup in Hin as [k Hk].
  exists (Z.of_nat k), t. by rewrite go_index_of_nat.
Qed.

Lemma linv_commit s G D t o : linv s G D -> (zlen (glog s) + 1, t, o) ∈ proposed s ->
  linv (mkLSys (glog s ++ [(t, o)]) (proposed s) (srvs s) (clnts s) (lclock s) (lhist s)) G D.
Proof.
  intros Hinv Hnew. pose proof Hinv as [Hsrv Hprop Honce Hlog Haft Hkey Hcl Hh Hd Hr Hnd Hord].
  assert (forall k t' o', (glog s ++ [(t, o)]).[k] = Some (t', o') ->
    (glog s).[k] = Some (t', o') \/ (k = zlen (glog s) /\ t' = t /\ o' = o)) as Hcase.
  { intros k t' o' Hk. pose proof (go_index_Some_lt _ _ _ Hk) as Hlt. rewrite zlen_snoc in Hlt.
    destruct (decide (k = zlen (glog s))) as [->|].
    - right. rewrite go_index_app_r, Z.sub_diag in Hk by lia. by injection Hk as <- <-.
    - left. by rewrite go_index_app_l in Hk by lia. }
  split; simpl; try done.
  - intros i S p Hi. eapply srv_ok_mono; [done|done|]. by eapply Hsrv.
  - intros k t' o' [Hk|(-> & -> & ->)]%Hcase; eauto.
  - intros k t' o' lc [Hk|(-> & -> & ->)]%Hcase Hg; [by eapply Haft|].
    destruct (Hkey _ _ _ _ Hg) as (_ & _ & _ & x & Hx & Hle & Heq & Hlt).
    destruct (decide (RequestId o = c_req x)) as [Hc|Hc].
    + destruct (Heq Hc) as (call & a & Ha). destruct (Hcl _ _ Hx) as [_ Hcur].
      destruct (Hcur _ _ _ Ha) as (_ & _ & (lc' & Hlc' & Hle' & _) & _). rewrite <- Hc in Hlc'. assert (lc' = lc) by congruence. lia.
    + destruct Hlt as (d & Hin & <-); [lia|]. destruct (Hd d Hin) as ((Hg' & (t' & Hx') & _) & _).
      assert (lc <= d_x d - 1) by (by eapply Haft). pose proof (go_index_Some_lt _ _ _ Hx'). lia.
  - intros c x Hx. destruct (Hcl c x Hx) as [Hreq Hcur]. split; [done|]. intros o' call a Ha.
    destruct (Hcur o' call a Ha) as (? & ? & (lc & ? & ? & ?) & ?). split_and!; try done. exists lc. rewrite zlen_snoc.
    split_and!; try done. lia.
  - intros d Hin. destruct (Hd d Hin) as (? & ?). split; [by eapply done_ok_mono|done].
  - unfold ops. simpl. rewrite fmap_app. change (([(t, o)] : list (Z * Op)).*2) with [o]. apply clerk_order_app; [done|]. intros Hfirst o' Ho' Hc.
    destruct (Hprop _ _ _ Hnew) as [lc Hlc]. destruct (Hkey _ _ _ _ Hlc) as (_ & _ & _ & x & Hx & Hle & Heq & Hlt).
    destruct (elem_of_ops s o' Ho') as (k & t' & Hk). destruct (Hprop _ _ _ (Hlog _ _ _ Hk)) as [lc' Hlc'].
    destruct (Hkey _ _ _ _ Hlc') as (_ & _ & _ & x' & Hx' & Hle' & _). rewrite Hc in Hx'. assert (x' = x) as -> by congruence.
    assert (RequestId o = c_req x) as Hcur.
    { destruct (decide (RequestId o = c_req x)); [done|]. destruct Hlt as (d & Hin & Hdo); [lia|].
      destruct (Hd d Hin) as ((_ & (t2 & Hx2) & _) & _). rewrite Hdo in Hx2. exfalso. apply (Hfirst o); [|done].
      apply list_elem_of_fmap. exists (t2, o). split; [done|]. pose proof (go_index_Some_lt _ _ _ Hx2).
      rewrite go_index_lookup in Hx2 by lia. by eapply list_elem_of_lookup_2. }
    assert (RequestId o' <> RequestId o); [|lia]. intros Hr'. by apply (Hfirst o').
Qed.

(** ** Clerks *)

Lemma linv_invoke s G D c n r :
  linv s G D -> clnts s !! c = Some (mkClnt n None) -> n < int64_max ->
  linv (tick (set_clnt c (mkClnt n (Some (op_of c n r, lclock s, None))) s)) (<[(c, n) := (op_of c n r, zlen (glog s))]> G) D.
Proof.
  intros [Hsrv Hprop Honce Hlog Haft Hkey Hcl Hh Hd Hr Hnd Hord] Hc Hn.
  assert (G !! (c, n) = None) as Hfresh.
  { apply eq_None_not_Some. intros [[o lc] Hg]. destruct (Hkey _ _ _ _ Hg) as (_ & _ & _ & x & Hx & _ & Heq & _).
    rewrite Hc in Hx. injection Hx as <-. destruct (Heq eq_refl) as (? & ? & ?). done. }
  assert (G ⊆ <[(c, n) := (op_of c n r, zlen (glog s))]> G) as HG by (by apply insert_subseteq).
  assert (forall c' x, <[c := mkClnt n (Some (op_of c n r, lclock s, None))]> (clnts s) !! c' = Some x ->
    c' <> c /\ clnts s !! c' = Some x \/ c' = c /\ x = mkClnt n (Some (op_of c n r, lclock s, None))) as Hcase.
  { intros c' x [[<- <-]|[? ?]]%lookup_insert_Some; auto. }
  split; simpl; try done.
  - intros i S p Hi. eapply srv_ok_grow; [done|done|]. by eapply Hsrv.
  - intros i t o Hi. eapply issued_mono; [done|]. by eapply Hprop.
  - intros k t o lc Hk [[Heq [= <- <-]]|[_ Hg]]%lookup_insert_Some; [|by eapply Haft].
    destruct (Hprop _ _ _ (Hlog _ _ _ Hk)) as [lc' Hg]. rewrite <- Heq in Hg. congruence.
  - intros c' n' o lc [[[= <- <-] [= <- <-]]|[Hne Hg]]%lookup_insert_Some.
    + split_and!; [by destruct r|by destruct r|destruct r; simpl; auto|]. eexists. rewrite lookup_insert_eq. split; [done|]. simpl.
      split_and!; [lia|eauto|lia].
    + destruct (Hkey _ _ _ _ Hg) as (? & ? & ? & x & Hx & Hle & Heq & Hlt). split_and!; try done.
      destruct (decide (c = c')) as [<-|Hcc].
      * rewrite Hc in Hx. injection Hx as <-. simpl in *. eexists. rewrite lookup_insert_eq. split; [done|]. simpl.
        split_and!; [done|congruence|done].
      * exists x. rewrite lookup_insert_ne by done. done.
  - intros c' x [[Hne Hx]|[-> ->]]%Hcase.
    + destruct (Hcl c' x Hx) as [Hreq Hcur]. split; [done|]. intros o call a Ha.
      destruct (Hcur o call a Ha) as (? & ? & (lc & Hg & ? & ?) & ?). split_and!; try done; [lia|]. exists lc. split; [|done].
      by eapply lookup_weaken.
    + split; [apply (Hcl c _ Hc)|]. simpl. intros o call a [= <- <- <-]. split_and!; [done|lia| |done].
      exists (zlen (glog s)). rewrite lookup_insert_eq. split_and!; [done|lia|]. intros d Hin _.
      destruct (Hd d Hin) as ((_ & (t & Hx) & _) & _). apply go_index_Some_lt in Hx. lia.
  - intros d Hin. destruct (Hd d Hin) as (Hok & ? & ? & x & Hx & Hlt). split; [by eapply done_ok_grow|].
    split_and!; [lia|lia|]. destruct (decide (c = ClientId (d_op d))) as [Hcc|Hcc]; [|exists x; by rewrite lookup_insert_ne].
    rewrite <- Hcc in *. eexists. rewrite lookup_insert_eq. split; [done|]. rewrite Hc in Hx. by injection Hx as <-.
Qed.

(** The clerk's RPC changes. *)
Lemma linv_attempt s G D c n o call a a' :
  linv s G D -> clnts s !! c = Some (mkClnt n (Some (o, call, a))) ->
  (forall i k, a' = Some (i, k) -> forall S p, srvs s !! i = Some (S, p) -> exists cl, s_calls S !! k = Some cl /\ call_op cl = o) ->
  linv (set_clnt c (mkClnt n (Some (o, call, a'))) s) G D.
Proof.
  intros [Hsrv Hprop Honce Hlog Haft Hkey Hcl Hh Hd Hr Hnd Hord] Hc Ha'. split; simpl; try done.
  - intros c' n' o' lc Hg. destruct (Hkey _ _ _ _ Hg) as (? & ? & ? & x & Hx & Hle & Heq & Hlt). split_and!; try done.
    destruct (decide (c = c')) as [<-|Hcc]; [|exists x; by rewrite lookup_insert_ne].
    rewrite Hc in Hx. injection Hx as <-. eexists. rewrite lookup_insert_eq. split; [done|]. simpl in *.
    split_and!; [done| |done]. intros Hn. destruct (Heq Hn) as (? & ? & [= -> -> ->]). eauto.
  - intros c' x [[<- <-]|[Hne Hx]]%lookup_insert_Some; [|by apply Hcl].
    destruct (Hcl c _ Hc) as [Hreq Hcur]. split; [done|]. simpl. intros o' call' a0 [= <- <- <-].
    destruct (Hcur o call a eq_refl) as (? & ? & ? & _). done.
  - intros d Hin. destruct (Hd d Hin) as (? & ? & ? & x & Hx & Hlt). split_and!; try done.
    destruct (decide (c = ClientId (d_op d))) as [Hcc|Hcc]; [|exists x; by rewrite lookup_insert_ne].
    rewrite <- Hcc in *. eexists. rewrite lookup_insert_eq. split; [done|]. rewrite Hc in Hx. by injection Hx as <-.
Qed.

Lemma call_op_of o : (OpType o = "Get" /\ Value o = "" \/ OpType o = "Put" \/ OpType o = "Append") -> call_op (call_of o) = o.
Proof. unfold call_of. intros Ht. destruct o as [c n t k v]. simpl in *. case_decide; [|done]. subst t. by destruct Ht as [[_ ->]|[|]]. Qed.

Lemma call_ok_of L G o : issued G o -> (OpType o = "Get" /\ Value o = "" \/ OpType o = "Put" \/ OpType o = "Append") ->
  call_ok L G (call_of o).
Proof.
  intros Hi Ht. unfold call_ok. rewrite call_op_of by done. unfold call_of. case_decide; simpl; [done|].
  split_and!; try done. destruct Ht as [[? _]|?]; done.
Qed.

Lemma linv_send s G D c n o call i S p :
  linv s G D -> clnts s !! c = Some (mkClnt n (Some (o, call, None))) -> srvs s !! i = Some (S, p) ->
  linv (set_clnt c (mkClnt n (Some (o, call, Some (i, length (s_calls S)))))
    (set_srv i (mkSys (s_kv S) (s_calls S ++ [call_of o]) (s_started S) (s_notified S) (s_seen S), p) s)) G D.
Proof.
  intros Hinv Hc Hi. destruct (li_clnt _ _ _ Hinv _ _ Hc) as [_ Hcur].
  destruct (Hcur o call None eq_refl) as (_ & _ & (lc & Hg & _) & _). simpl in Hg.
  destruct (li_key _ _ _ Hinv _ _ _ _ Hg) as (Hcid & Hrid & Hty & _).
  assert (issued G o) as Hiss by (exists lc; by rewrite Hcid, Hrid).
  pose proof (li_srv _ _ _ Hinv _ _ _ Hi) as [[cidx Hsys] Hpos Hla Hd Hseen Hst Hn Hcalls].
  eapply linv_attempt; [|done|].
  - rewrite <- (propose_nil (set_srv _ _ _)). eapply linv_srv; try done; [| |set_solver|set_solver].
    + split; simpl; try done.
      * eapply (kv_step_inv S); [|done]. apply step_invoke. unfold call_of. by case_decide.
      * apply Forall_app. split; [done|]. constructor; [|done]. by apply call_ok_of.
    + intros k cl Hk. exists cl. simpl. split; [|done]. by apply lookup_app_l_Some.
  - intros j k [= <- <-] S0 p0. simpl. rewrite lookup_insert_eq. intros [= <- <-]. exists (call_of o). simpl.
    rewrite lookup_app_r, Nat.sub_diag by lia. split; [done|]. by apply call_op_of.
Qed.

(** ** Answers *)

(** The first entry of a request in the log is the issued operation itself. *)
Lemma first_entry s G D o : linv s G D -> issued G o -> in_log (glog s) o -> exists x,
  (exists t, (glog s).[x] = Some (t, o)) /\ forall k t o', k < x -> (glog s).[k] = Some (t, o') -> ~ same_request o o'.
Proof.
  intros Hinv [lc Hlc] (k0 & t0 & Hk0). destruct (list_find (same_request o) (glog s).*2) as [[k o']|] eqn:Hf.
  - apply list_find_Some in Hf as (Hk & Hsame & Hmin). rewrite list_lookup_fmap in Hk.
    destruct (glog s !! k) as [[t o2]|] eqn:Hk2; [|done]. injection Hk as <-. rewrite <- go_index_of_nat in Hk2.
    destruct (li_prop _ _ _ Hinv _ _ _ (li_log _ _ _ Hinv _ _ _ Hk2)) as [lc' Hlc']. destruct Hsame as [Hc Hr].
    exists (Z.of_nat k). split; [exists t; rewrite Hk2; congruence|]. intros j t' o' Hj Hjo.
    pose proof (go_index_Some_lt _ _ _ Hjo). rewrite go_index_lookup in Hjo by lia.
    apply (Hmin (Z.to_nat j) o'); [by rewrite list_lookup_fmap, Hjo|lia].
  - apply list_find_None in Hf. rewrite Forall_fmap, Forall_forall in Hf. pose proof (go_index_Some_lt _ _ _ Hk0).
    rewrite go_index_lookup in Hk0 by lia. by destruct (Hf (t0, o) (list_elem_of_lookup_2 _ _ _ Hk0)).
Qed.

Lemma done_ok_answer s G D S p cl k o e v lc call ret :
  linv s G D -> srv_ok (glog s) G (proposed s) S p -> s_calls S !! k = Some cl -> call_op cl = o ->
  call_pc cl = Some (PDone (e, v)) -> (e = OK \/ e = ErrNoKey) ->
  G !! (ClientId o, RequestId o) = Some (o, lc) -> exists x, done_ok (glog s) G (mkDone o v x lc call ret).
Proof.
  intros Hinv Hok Hk <- Hpc He Hg. pose proof (Forall_lookup_1 _ _ _ _ (so_calls _ _ _ _ _ Hok) Hk) as (Hiss & Hty & Hrep & Hput).
  rewrite Hpc in Hrep. destruct Hrep as [He' Hv]. assert (e = OK) as -> by (destruct He as [->| ->], He' as [He'|He']; done).
  destruct cl as [args pc|args pc]; simpl in Hpc.
  - injection Hpc as ->. destruct (so_inv _ _ _ _ _ Hok) as [cidx Hsys].
    pose proof (Forall_lookup_1 _ _ _ _ (si_calls _ _ Hsys) Hk) as Hci. destruct (Hci eq_refl) as (i & t & res & (db & lr & Hn & ->) & ->).
    destruct (so_notified _ _ _ _ _ Hok _ _ _ _ Hn) as [HL ->]. exists i. split_and!; simpl; [done|by eexists| |by intros []].
    intros _. unfold execute. simpl. done.
  - subst pc. destruct (first_entry s G D _ Hinv Hiss (Hput eq_refl)) as (x & [t Hx] & Hmin). exists (x + 1).
    unfold done_ok. simpl d_op. simpl d_x. simpl d_val. simpl d_lcall. replace (x + 1 - 1) with x by lia.
    split_and!; [done|by eexists|simpl; intros Hget; rewrite Hget in Hty; by destruct Hty|done].
Qed.

Lemma linv_reply s G D c n o call i k S p cl e v :
  linv s G D -> clnts s !! c = Some (mkClnt n (Some (o, call, Some (i, k)))) -> srvs s !! i = Some (S, p) ->
  s_calls S !! k = Some cl -> call_pc cl = Some (PDone (e, v)) -> (e = OK \/ e = ErrNoKey) ->
  exists D', linv (mkLSys (glog s) (proposed s) (srvs s) (<[c := mkClnt (wrap64 (n + 1)) None]> (clnts s)) (lclock s + 1)
      (lhist s ++ [record_of o v call (lclock s)])) G D'.
Proof.
  intros Hinv Hc Hi Hk Hpc He. pose proof Hinv as [Hsrv Hprop Honce Hlog Haft Hkey Hcl Hh Hd Hr Hnd Hord].
  destruct (Hcl c _ Hc) as [Hreq Hcur]. simpl in Hreq. destruct (Hcur o call _ eq_refl) as (Hn & Hcall & (lc & Hg & Hlc & Hbefore) & Hatt).
  simpl in Hn, Hg. rewrite wrap64_small by (unfold int64_min; lia). destruct (Hatt i k eq_refl S p Hi) as (cl' & Hk' & Hop).
  assert (cl' = cl) as -> by congruence. destruct (Hkey _ _ _ _ Hg) as (Hcid & Hrid & _). pose proof Hg as Hg'. rewrite <- Hcid, <- Hrid in Hg'.
  destruct (done_ok_answer s G D S p cl k o e v lc call (lclock s) Hinv (Hsrv _ _ _ Hi) Hk Hop Hpc He Hg') as [x Hdone].
  exists (D ++ [mkDone o v x lc call (lclock s)]). split; simpl; try done.
  - intros c' n' o' lc' Hg2. destruct (Hkey _ _ _ _ Hg2) as (? & ? & ? & y & Hy & Hle & Heq & Hlt). split_and!; try done.
    destruct (decide (c = c')) as [<-|Hcc].
    + rewrite Hc in Hy. injection Hy as <-. simpl in *. eexists. rewrite lookup_insert_eq. split; [done|]. simpl.
      split_and!; [lia|lia|]. intros _. destruct (decide (n' = n)) as [->|Hnn].
      * exists (mkDone o v x lc call (lclock s)). split; [set_solver|]. simpl. congruence.
      * destruct Hlt as (d & Hin & Hdo); [lia|]. exists d. split; [set_solver|done].
    + exists y. rewrite lookup_insert_ne by done. split_and!; try done. intros Hl. destruct (Hlt Hl) as (d & Hin & Hdo).
      exists d. split; [set_solver|done].
  - intros c' y [[<- <-]|[Hne Hy]]%lookup_insert_Some; [simpl; split; [lia|done]|].
    destruct (Hcl c' y Hy) as [Hreq' Hcur']. split; [done|]. intros o' call' a' Ha'.
    destruct (Hcur' o' call' a' Ha') as (? & ? & (lc' & ? & ? & Hb) & ?). split_and!; try done; [lia|]. exists lc'. split_and!; try done.
    intros d [Hin| ->%list_elem_of_singleton]%elem_of_app; [by apply Hb|simpl; lia].
  - rewrite fmap_app, Hh. done.
  - intros d [Hin| ->%list_elem_of_singleton]%elem_of_app.
    + destruct (Hd d Hin) as (Hok & ? & ? & y & Hy & Hlt). split; [done|]. split_and!; [lia|lia|].
      destruct (decide (c = ClientId (d_op d))) as [Hcc|Hcc]; [|exists y; by rewrite lookup_insert_ne].
      rewrite <- Hcc in *. eexists. rewrite lookup_insert_eq. split; [done|]. rewrite Hc in Hy. injection Hy as <-. simpl in *. lia.
    + split; [done|]. simpl. split_and!; [lia|lia|]. rewrite Hcid, lookup_insert_eq. eexists. split; [done|]. simpl. lia.
  - intros d d' [Hin| ->%list_elem_of_singleton]%elem_of_app [Hin'| ->%list_elem_of_singleton]%elem_of_app; simpl; intros Hlt; [eauto|eauto| |lia].
    destruct (Hd d' Hin') as (_ & ? & _). lia.
  - rewrite fmap_app. apply NoDup_app. split_and!; [done| |apply NoDup_singleton].
    intros key (d & -> & Hin)%list_elem_of_fmap. simpl. rewrite list_elem_of_singleton, Hcid, Hrid. intros [= Hc2 Hr2].
    destruct (Hd d Hin) as (_ & _ & _ & y & Hy & Hlt). rewrite Hc2, Hc in Hy. injection Hy as <-. simpl in Hlt. lia.
Qed.

(** ** Runs *)

Lemma linv_step s G D s' : linv s G D -> lstep s s' -> exists G' D', linv s' G' D'.
Proof.
  intros Hinv Hs. destruct Hs.
  - eexists _, _. by apply linv_invoke.
  - eexists _, _. by apply linv_send.
  - eexists _, _. by eapply linv_attempt.
  - destruct (linv_reply s G D c n o call i k S p cl e v) as [D' ?]; eauto.
  - eexists _, _. by eapply linv_handler.
  - eexists _, _. by apply linv_commit.
  - eexists _, _. by apply linv_deliver.
  - eexists _, _. by eapply linv_snapshot.
  - eexists _, _. by apply linv_raft.
  - eexists _, _. by apply linv_restart.
Qed.

Definition fresh_peers (rs : gmap Z R) : Prop :=
  forall i r, rs !! i = Some r -> rf_ok r /\ ReadSnapshot (rf_persister r) = [].

Lemma linv_init rs ids mx : fresh_peers rs -> linv (linit rs ids mx) ∅ [].
Proof.
  intros Hrs. split; simpl; try done; try set_solver.
  - intros i S p Hi. rewrite map_lookup_imap in Hi. destruct (rs !! i) as [r|] eqn:Hr; [|done]. injection Hi as <- <-.
    destruct (Hrs i r Hr). apply srv_ok_start; [done|done|by left].
  - intros k t o Hk. by apply go_index_nil in Hk.
  - intros c x [_ <-]%lookup_gset_to_gmap_Some. done.
  - constructor.
  - intros pre op post Heq. by destruct pre.
Qed.

Lemma linv_run s s' G D : rtc lstep s s' -> linv s G D -> exists G' D', linv s' G' D'.
Proof.
  intros Hr. revert G D. induction Hr as [|s s1 s2 Hs _ IH]; intros G D Hinv; [eauto|].
  destruct (linv_step _ _ _ _ Hinv Hs) as (G' & D' & ?). eauto.
Qed.
End system.
