(* ===== verification/KVLinSpec.v ===== *)
(** The replicated key/value service is linearizable.

    In a state where every call has returned, the operations take effect in the
    order of their places in the log ([KVLin]): an entry of the log is the place
    of its operation, or it is a [Get] or a repeated request and leaves the
    database alone. *)

From S2P Require Import Prelude Porcupine PorcupineOps Models.
From S2P Require Import Gob Persister RaftTypes RaftApi KVRaft KVRaftSpec KVRaftSys KVLin.
Local Open Scope Z_scope.

Section spec.
Context {R : Type} `{RaftApiLaws R Op} `{GobLaws kvmap} `{GobLaws reqmap}.
Implicit Types (s : LSys (R := R)).

(** Operations with places in the log: the answered ones, and those of calls that have
    not returned although their effect is in the log. *)
Record full s (G : gmap (Z * Z) (Op * Z)) (D : list Done) : Prop := {
  fu_done : forall d, d ∈ D -> done_ok (glog s) G d;
  fu_log : forall k t o, (glog s).[k] = Some (t, o) -> OpType o <> "Get" -> exists d, d ∈ D /\ d_op d = o;
  fu_real : forall d d', d ∈ D -> d' ∈ D -> d_ret d < d_call d' -> d_x d <= d_lcall d';
  fu_nodup : NoDup ((fun d => (ClientId (d_op d), RequestId (d_op d))) <$> D)
}.

Section quiet.
Context s G D0 (Hinv : linv s G D0) D (Hfull : full s G D).
Local Abbreviation L := (glog s).

Lemma db_at_next k t o : L.[k] = Some (t, o) -> db_at L (k + 1) = (sm_step (exec_log (take (Z.to_nat k) L.*2)) o).1.
Proof.
  intros Hk. pose proof (go_index_Some_lt _ _ _ Hk). assert ((L.*2).[k] = Some o) as Ho.
  { by rewrite go_index_lookup, list_lookup_fmap, <- go_index_lookup, Hk by lia. }
  unfold db_at. by rewrite (take_snoc_index _ _ _ Ho), exec_log_snoc.
Qed.

Lemma sm_step_get st o : OpType o = "Get" -> (sm_step st o).1 = st.1.
Proof.
  intros Hg. destruct st as [db lr]. unfold sm_step, execute. rewrite decide_False by (intros [? _]; done).
  by rewrite decide_True.
Qed.

(** An entry before [k] is among the first [k]. *)
Lemma elem_of_before j k t o : L.[j] = Some (t, o) -> j < k -> o ∈ take (Z.to_nat k) L.*2.
Proof.
  intros Hj Hjk. pose proof (go_index_Some_lt _ _ _ Hj). rewrite go_index_lookup in Hj by lia.
  apply list_elem_of_lookup. exists (Z.to_nat j). rewrite lookup_take_lt by lia. by rewrite list_lookup_fmap, Hj.
Qed.

Lemma elem_of_take_ops k o : o ∈ take (Z.to_nat k) L.*2 -> exists j t, j < k /\ L.[j] = Some (t, o).
Proof.
  intros [j Hj]%list_elem_of_lookup. pose proof (lookup_lt_Some _ _ _ Hj) as Hlt. rewrite length_take in Hlt.
  rewrite lookup_take_lt, list_lookup_fmap in Hj by lia. destruct (L !! j) as [[t o']|] eqn:E; [|done]. injection Hj as <-.
  exists (Z.of_nat j), t. rewrite go_index_of_nat. split; [lia|done].
Qed.

(** Entries that are nobody's place leave the database alone. *)
Lemma db_at_quiet p q : 0 <= p <= q -> q <= zlen L -> (forall d, d ∈ D -> p < d_x d -> q < d_x d) -> db_at L q = db_at L p.
Proof.
  intros Hp. replace q with (p + (q - p)) by lia. assert (0 <= q - p) as Hn by lia. revert Hn. generalize (q - p).
  apply (natlike_ind (fun n => p + n <= zlen L -> _ -> _)); [by rewrite Z.add_0_r|].
  intros n Hn IH Hle Hq. rewrite <- IH; [|lia|intros d Hin Hd; specialize (Hq d Hin Hd); lia].
  destruct (go_index_is_Some L (p + n)) as [[t o] Hk]; [lia|]. replace (p + Z.succ n) with (p + n + 1) in * by lia.
  rewrite (db_at_next _ _ _ Hk). destruct (decide (OpType o = "Get")) as [Hg|Hg]; [by rewrite sm_step_get|].
  destruct (fu_log _ _ _ Hfull _ _ _ Hk Hg) as (d & Hin & <-). destruct (fu_done _ _ _ Hfull d Hin) as (_ & (t' & Hx) & _ & Hput).
  destruct (Hput Hg) as [_ Hfirst]. rewrite sm_step_covered; [done|]. apply exec_log_covers.
  apply (elem_of_before (d_x d - 1) _ t'); [done|]. destruct (decide (d_x d - 1 < p + n)) as [|Hnot]; [done|].
  exfalso. destruct (decide (p < d_x d)) as [Hd|]; [|lia]. specialize (Hq d Hin Hd).
  apply (Hfirst (p + n) t (d_op d)); [lia|done|done].
Qed.

(** At its place an operation does to the store what the model says. *)
Lemma place_step d (st : gmap string string) : d ∈ D -> same_store (db_at L (d_x d - 1)) st -> exists st',
  store_step st (VInput (input_of (d_op d))) (VOutput (mkKvOutput (d_val d))) = Some (true, st') /\ same_store (db_at L (d_x d)) st'.
Proof.
  intros Hin Hst. destruct (fu_done _ _ _ Hfull d Hin) as (Hg & (t & Hx) & Hget & Hput).
  destruct (li_key _ _ _ Hinv _ _ _ _ Hg) as (_ & _ & Hty & _). pose proof (db_at_next _ _ _ Hx) as Hnext.
  replace (d_x d - 1 + 1) with (d_x d) in Hnext by lia. unfold store_step, input_of. simpl.
  destruct (decide (OpType (d_op d) = "Get")) as [Hg'|Hg']; simpl.
  - rewrite (Hget Hg'), bool_decide_eq_true_2 by apply Hst. eexists. split; [done|]. rewrite Hnext, sm_step_get by done.
    by apply same_store_read.
  - destruct (Hput Hg') as [_ Hfirst]. rewrite sm_step_fresh in Hnext.
    2:{ apply exec_log_fresh. assert ((ops s).[d_x d - 1] = Some (d_op d)) as Ho.
        { pose proof (go_index_Some_lt _ _ _ Hx). unfold ops. by rewrite go_index_lookup, list_lookup_fmap, <- go_index_lookup, Hx by lia. }
        pose proof (take_snoc_index _ _ _ Ho) as Htake. eapply (li_order _ _ _ Hinv _ _ (drop (Z.to_nat (d_x d - 1 + 1)) (ops s))).
        - rewrite <- (take_drop (Z.to_nat (d_x d - 1 + 1)) (ops s)) at 1. unfold ops in *. by rewrite Htake, <- app_assoc.
        - apply Forall_forall. intros o (j & t' & Hj & Ho')%elem_of_take_ops. by eapply Hfirst. }
    rewrite Hnext. simpl. unfold effect_on. destruct Hty as [[? _]|[Hty|Hty]]; [done| |]; rewrite Hty; simpl.
    + eexists. split; [done|]. by apply same_store_insert.
    + eexists. split; [done|]. rewrite <- Hst. by apply same_store_insert.
Qed.

Definition rec (d : Done) : Operation KvVal := record_of (d_op d) (d_val d) (d_call d) (d_ret d).

Lemma places_legal l : forall p st, StronglySorted (fun a b => d_x a < d_x b) l -> l ⊆ D ->
  (forall d, d ∈ D -> p < d_x d -> d ∈ l) -> (forall d, d ∈ l -> p < d_x d) -> 0 <= p ->
  same_store (db_at L p) st -> legal store_step st (rec <$> l).
Proof.
  induction l as [|d l IH]; intros p st Hs Hl Hall Hlt Hp Hst; [done|].
  apply StronglySorted_inv in Hs as [Hs Hhd]. rewrite Forall_forall in Hhd. assert (d ∈ D) as Hd by set_solver.
  assert (p < d_x d) as Hpd by (apply Hlt; set_solver).
  destruct (fu_done _ _ _ Hfull d Hd) as (_ & (t & Hx) & _). pose proof (go_index_Some_lt _ _ _ Hx).
  destruct (place_step d st Hd) as (st' & Hstep & Hst').
  { rewrite (db_at_quiet p (d_x d - 1)); [done|lia|lia|]. intros d' Hd' Hp'.
    pose proof (Hall d' Hd' Hp') as [->|Hin]%elem_of_cons; [lia|]. specialize (Hhd d' Hin). lia. }
  simpl. exists st'. split; [done|]. apply (IH (d_x d)); try done; [set_solver| |lia].
  intros d' Hd' Hlt'. pose proof (Hall d' Hd' ltac:(lia)) as [->|Hin]%elem_of_cons; [lia|done].
Qed.

(** Different operations have different places. *)
Lemma place_inj d d' : d ∈ D -> d' ∈ D -> d_x d = d_x d' -> d_op d = d_op d'.
Proof.
  intros Hd Hd' Heq. destruct (fu_done _ _ _ Hfull d Hd) as (_ & (t & Hx) & _).
  destruct (fu_done _ _ _ Hfull d' Hd') as (_ & (t' & Hx') & _). rewrite Heq in Hx. congruence.
Qed.

Lemma places_precede d d' : d ∈ D -> d' ∈ D -> d_x d <= d_x d' -> may_precede (rec d) (rec d').
Proof.
  intros Hd Hd' Hle Hlt. simpl in Hlt. pose proof (fu_real _ _ _ Hfull _ _ Hd' Hd Hlt).
  destruct (fu_done _ _ _ Hfull d Hd) as (Hg & (t & Hx) & _). pose proof (li_after _ _ _ Hinv _ _ _ _ Hx Hg). lia.
Qed.

Lemma places_strict l : l ⊆ D -> NoDup ((fun d => (ClientId (d_op d), RequestId (d_op d))) <$> l) ->
  StronglySorted (fun a b => d_x a <= d_x b) l -> StronglySorted (fun a b => d_x a < d_x b) l.
Proof.
  induction l as [|d l IH]; intros Hl Hnd Hs; [constructor|]. apply StronglySorted_inv in Hs as [Hs Hhd].
  apply NoDup_cons in Hnd as [Hnot Hnd]. constructor; [apply IH; set_solver|]. rewrite Forall_forall in *. intros d' Hd'.
  specialize (Hhd d' Hd'). assert (d_x d <> d_x d'); [|lia]. intros Heq%place_inj; [|set_solver|set_solver].
  apply Hnot, list_elem_of_fmap. exists d'. by rewrite Heq.
Qed.

Lemma places_sorted l : l ⊆ D -> StronglySorted (fun a b => d_x a <= d_x b) l -> StronglySorted may_precede (rec <$> l).
Proof.
  induction l as [|d l IH]; intros Hl Hs; [constructor|]. apply StronglySorted_inv in Hs as [Hs Hhd].
  constructor; [apply IH; set_solver|]. rewrite Forall_forall in Hhd. apply Forall_forall. intros r (d' & -> & Hd')%list_elem_of_fmap.
  apply places_precede; [set_solver|set_solver|auto].
Qed.
End quiet.

#[local] Instance place_le_dec : RelDecision (fun a b : Done => d_x a <= d_x b).
Proof. intros a b. apply _. Defined.
#[local] Instance place_le_total : Total (fun a b : Done => d_x a <= d_x b).
Proof. intros a b. lia. Qed.
#[local] Instance place_le_trans : Transitive (fun a b : Done => d_x a <= d_x b).
Proof. intros a b c. lia. Qed.

Lemma full_linearizable s G D0 D : linv s G D0 -> full s G D -> linearizable store_step ∅ (rec <$> D).
Proof.
  intros Hinv Hfull.
  set (l := merge_sort (fun a b => d_x a <= d_x b) D). assert (l ≡ₚ D) as Hperm by apply merge_sort_Permutation.
  assert (l ⊆ D) as Hsub by (intros d; by rewrite Hperm).
  assert (StronglySorted (fun a b => d_x a <= d_x b) l) as Hs by (apply StronglySorted_merge_sort; apply _).
  exists (rec <$> l). split_and!; [by rewrite Hperm|by eapply places_sorted|].
  eapply (places_legal s G D0 Hinv D Hfull l 0); try done.
  - eapply places_strict; try done. rewrite Hperm. apply (fu_nodup _ _ _ Hfull).
  - intros d Hd _. by rewrite Hperm.
  - intros d Hd%Hsub. destruct (fu_done _ _ _ Hfull d Hd) as (_ & (t & Hx) & _). apply go_index_Some_lt in Hx. lia.
Qed.

(** ** Calls that have not returned *)

(** Operations for some of the updates that have not returned: at most one for a clerk,
    with its call, and the present as the time of return. *)
Definition completion (cl : gmap Z Clnt) (now : Z) (ext : list (Operation KvVal)) : Prop :=
  NoDup (oClientId <$> ext) /\ forall x, x ∈ ext -> exists c ck o call a, cl !! c = Some ck /\ c_cur ck = Some (o, call, a) /\
    OpType o <> "Get" /\ oClientId x = c /\ x = record_of o "" call now.

(** [d] is the operation of the call that clerk [c] has not finished. *)
Definition open_call s (G : gmap (Z * Z) (Op * Z)) (D : list Done) (c : Z) (d : Done) : Prop :=
  done_ok (glog s) G d /\ (exists ck a, clnts s !! c = Some ck /\ c_cur ck = Some (d_op d, d_call d, a) /\
    ClientId (d_op d) = c /\ RequestId (d_op d) = c_req ck) /\ OpType (d_op d) <> "Get" /\ d_val d = ""%string /\
  d_ret d = lclock s /\ d_call d < lclock s /\ forall d', d' ∈ D -> d_ret d' < d_call d -> d_x d' <= d_lcall d.

Lemma open_exists s G D c ck o call a : linv s G D -> clnts s !! c = Some ck -> c_cur ck = Some (o, call, a) ->
  OpType o <> "Get" -> in_log (glog s) o -> exists d, d_op d = o /\ open_call s G D c d.
Proof.
  intros Hinv Hc Hcur Hg Hin. destruct (li_clnt _ _ _ Hinv c ck Hc) as [_ Hk].
  destruct (Hk o call a Hcur) as (_ & Hcall & (lc & HG & _ & Hb) & _).
  destruct (li_key _ _ _ Hinv _ _ _ _ HG) as (Hcid & Hrid & Hty & _). pose proof HG as HG'. rewrite <- Hcid, <- Hrid in HG'.
  destruct (first_entry s G D o Hinv) as (x & [t Hx] & Hmin); [by eexists|done|].
  exists (mkDone o "" (x + 1) lc call (lclock s)). split; [done|]. unfold open_call, done_ok. simpl. rewrite Z.add_simpl_r.
  split_and!; try done; [by eexists|by exists ck, a].
Qed.

(** Either clerk [c] has such a call or it has no update in the log. *)
Lemma open_or_not s G D c : linv s G D ->
  (exists d, open_call s G D c d /\ forall ck o call a, clnts s !! c = Some ck -> c_cur ck = Some (o, call, a) -> d_op d = o) \/
  (forall ck o call a, clnts s !! c = Some ck -> c_cur ck = Some (o, call, a) -> OpType o <> "Get" -> ~ in_log (glog s) o).
Proof.
  intros Hinv. destruct (clnts s !! c) as [ck|] eqn:Hc; [|by right]. destruct (c_cur ck) as [[[o call] a]|] eqn:Hcur; [|right; congruence].
  destruct (decide (OpType o = "Get")) as [Hg|Hg]; [right; congruence|].
  destruct (decide (o ∈ ops s)) as [Hin|Hin].
  - left. apply elem_of_ops in Hin as (k & t & Hk). destruct (open_exists s G D c ck o call a) as (d & Hd & Ho); try done; [by exists k, t|].
    exists d. split; [done|]. congruence.
  - right. intros ck' o' call' a' [= <-] Hcur' _ (k & t & Hk). assert (o' = o) as -> by congruence. apply Hin.
    apply list_elem_of_fmap. exists (t, o). split; [done|]. pose proof (go_index_Some_lt _ _ _ Hk).
    rewrite go_index_lookup in Hk by lia. by eapply list_elem_of_lookup_2.
Qed.

Lemma open_all s G D (cs : list Z) : linv s G D -> NoDup cs -> exists E,
  (forall d, d ∈ E -> open_call s G D (ClientId (d_op d)) d /\ ClientId (d_op d) ∈ cs) /\ NoDup ((fun d => ClientId (d_op d)) <$> E) /\
  forall c ck o call a, c ∈ cs -> clnts s !! c = Some ck -> c_cur ck = Some (o, call, a) -> OpType o <> "Get" -> in_log (glog s) o ->
    exists d, d ∈ E /\ d_op d = o.
Proof.
  intros Hinv. induction cs as [|c cs IH]; intros Hnd.
  { exists []. split_and!; [by intros d ?%elem_of_nil|constructor|by intros c ck o call a ?%elem_of_nil]. }
  apply NoDup_cons in Hnd as [Hnew Hnd]. destruct (IH Hnd) as (E & HE & HndE & Hall).
  destruct (open_or_not s G D c Hinv) as [(d & Hd & Hcur)|Hno].
  - assert (ClientId (d_op d) = c) as Hcd by (destruct Hd as (_ & (ck & a & _ & _ & ? & _) & _); done). exists (d :: E). split_and!.
    + intros d' [->|Hin]%elem_of_cons; [rewrite Hcd; split; [done|by left]|]. destruct (HE d' Hin). split; [done|by right].
    + simpl. apply NoDup_cons. split; [|done]. rewrite Hcd. intros (d' & Hc' & Hin)%list_elem_of_fmap. apply Hnew. rewrite Hc'. by apply HE.
    + intros c' ck o call a [->|Hin]%elem_of_cons Hc Hk Hg Hlog; [exists d; split; [by left|by eapply Hcur]|].
      destruct (Hall c' ck o call a) as (d' & ? & ?); try done. exists d'. split; [by right|done].
  - exists E. split_and!; [|done|].
    + intros d Hin. destruct (HE d Hin). split; [done|by right].
    + intros c' ck o call a [->|Hin]%elem_of_cons Hc Hk Hg Hlog; [by destruct (Hno _ _ _ _ Hc Hk Hg)|by eapply Hall].
Qed.

(** With them the operations of a state are complete. *)
Lemma full_open s G D E : linv s G D -> (forall d, d ∈ E -> open_call s G D (ClientId (d_op d)) d) ->
  NoDup ((fun d => ClientId (d_op d)) <$> E) ->
  (forall c ck o call a, clnts s !! c = Some ck -> c_cur ck = Some (o, call, a) -> OpType o <> "Get" -> in_log (glog s) o ->
    exists d, d ∈ E /\ d_op d = o) -> full s G (D ++ E).
Proof.
  intros Hinv HE Hnd Hall. split.
  - intros d [Hin|Hin]%elem_of_app; [by apply (li_done _ _ _ Hinv)|by apply HE].
  - intros k t o Hk Hg. destruct (li_prop _ _ _ Hinv _ _ _ (li_log _ _ _ Hinv _ _ _ Hk)) as [lc Hlc].
    destruct (li_key _ _ _ Hinv _ _ _ _ Hlc) as (_ & _ & _ & x & Hx & Hle & Heq & Hlt).
    destruct (decide (RequestId o = c_req x)) as [Hr|Hr].
    + destruct (Heq Hr) as (call & a & Ha). destruct (Hall _ _ _ _ _ Hx Ha Hg) as (d & ? & ?); [by exists k, t|].
      exists d. split; [apply elem_of_app; by right|done].
    + destruct Hlt as (d & ? & ?); [lia|]. exists d. split; [apply elem_of_app; by left|done].
  - intros d d' [Hin|Hin]%elem_of_app [Hin'|Hin']%elem_of_app; [by apply (li_real _ _ _ Hinv)| | |].
    + intros Hlt. destruct (HE d' Hin') as (_ & _ & _ & _ & _ & _ & Hb). by apply Hb.
    + intros Hlt. destruct (HE d Hin) as (_ & _ & _ & _ & Hr & _). destruct (li_done _ _ _ Hinv d' Hin') as (_ & ? & _). lia.
    + intros Hlt. destruct (HE d Hin) as (_ & _ & _ & _ & Hr & _). destruct (HE d' Hin') as (_ & _ & _ & _ & _ & ? & _). lia.
  - rewrite fmap_app. apply NoDup_app. split_and!; [apply (li_nodup _ _ _ Hinv)| |].
    + intros key (d & -> & Hin)%list_elem_of_fmap (d' & [= Hc Hr] & Hin')%list_elem_of_fmap.
      destruct (HE d' Hin') as (_ & (ck & a & Hk & _ & _ & Hreq) & _). destruct (li_done _ _ _ Hinv d Hin) as (_ & _ & _ & x & Hx & Hlt).
      rewrite Hc, Hk in Hx. injection Hx as <-. lia.
    + apply (NoDup_fmap_1 fst). by rewrite <- list_fmap_compose.
Qed.

Lemma linv_linearizable s G D : linv s G D -> exists ext,
  completion (clnts s) (lclock s) ext /\ linearizable store_step ∅ (lhist s ++ ext).
Proof.
  intros Hinv. destruct (open_all s G D (elements (dom (clnts s))) Hinv (NoDup_elements _)) as (E & HE & Hnd & Hall).
  exists (rec <$> E). split.
  - split; [by rewrite <- list_fmap_compose|]. intros x (d & -> & Hin)%list_elem_of_fmap.
    destruct (HE d Hin) as [(_ & (ck & a & Hc & Hcur & Hcid & _) & Hg & Hv & Hr & _) _]. exists (ClientId (d_op d)), ck, (d_op d), (d_call d), a.
    unfold rec. by rewrite Hv, Hr.
  - rewrite (li_hist _ _ _ Hinv). change (linearizable store_step ∅ ((rec <$> D) ++ (rec <$> E))). rewrite <- fmap_app. apply (full_linearizable s G D); [done|].
    apply full_open; [done|intros d Hin; by apply HE|done|]. intros c ck o call a Hc Hk. apply (Hall c ck o call a); [|done|done]. by apply elem_of_elements, elem_of_dom_2 with ck.
Qed.

(** A completion where every clerk is between two calls is empty. *)
Lemma completion_idle cl now ext : (forall c x, cl !! c = Some x -> c_cur x = None) -> completion cl now ext -> ext = [].
Proof.
  intros Hidle [_ Hext]. destruct ext as [|x ext]; [done|]. destruct (Hext x ltac:(by left)) as (c & ck & o & call & a & Hc & Hcur & _).
  by rewrite (Hidle c ck Hc) in Hcur.
Qed.

(** The replicated key/value service is linearizable.  Any number of clerks
    call [Get], [Put] and [Append]; each sends its request to any server, gives
    up and sends it again as often as it likes; handlers, appliers, leader
    changes, snapshots, crashes and restarts interleave in any way; the log
    gives what Raft promises.  In every run the recorded history of calls, results
    and times, together with some of the updates that have not returned, is
    linearizable for a store of all the keys. *)
Theorem kvraft_linearizable rs ids mx s :
  fresh_peers rs -> rtc lstep (linit rs ids mx) s ->
  exists ext, completion (clnts s) (lclock s) ext /\ linearizable store_step ∅ (lhist s ++ ext).
Proof.
  intros Hrs Hrun. destruct (linv_run _ _ _ _ Hrun (linv_init rs ids mx Hrs)) as (G & D & Hinv).
  by eapply linv_linearizable.
Qed.
End spec.
