(* ===== verification/KVLinWitness.v ===== *)
(** A run of the replicated key/value service with two servers and two clerks:
    a retried [Put], an [Append] that waits for its entry, a snapshot installed at
    the second server, a change of leader, a crash, and a [Get]. *)

From S2P Require Import Prelude Porcupine PorcupineOps Models.
From S2P Require Import Gob Persister RaftTypes RaftNode RaftInv RaftWitness RaftApi KVRaft KVRaftSpec KVRaftSys KVLin KVLinSpec.
Local Open Scope Z_scope.

#[local] Instance lin_gob `{Countable A} : Gob A := countable_gob.
#[local] Instance lin_gob_laws `{Countable A} : GobLaws A := countable_gob_laws.

Abbreviation Peer := (Raft Op * list (Effect Op))%type.
Abbreviation St := (LSys (R := Peer)).

(** The steps as events; a Raft peer changes by a function of itself, and a
    snapshot is the encoding of a prefix of the log. *)
Inductive LEvent :=
| EvInvoke (c : Z) (r : Req)
| EvSend (c i : Z)
| EvFail (c : Z)
| EvReply (c : Z)
| EvHandler (i : Z) (k : nat) (timeout : bool)
| EvCommit (t : Z) (o : Op)
| EvDeliver (i : Z)
| EvSnapshot (i j t : Z)
| EvRaft (i : Z) (f : Peer -> Peer)
| EvRestart (i : Z) (r : Peer) (j mx : Z).

Definition snap_of (s : St) (j : Z) : bytes :=
  let '(db, lr) := exec_log (take (Z.to_nat j) (ops s)) in gob_encode (A := kvmap) db ++ gob_encode (A := reqmap) lr.


Definition lexec (e : LEvent) (s : St) : option St :=
  match e with
  | EvInvoke c r =>
      x ← clnts s !! c;
      match c_cur x with
      | None => guard (c_req x < int64_max);; Some (tick (set_clnt c (mkClnt (c_req x) (Some (op_of c (c_req x) r, lclock s, None))) s))
      | Some _ => None
      end
  | EvSend c i =>
      x ← clnts s !! c;
      '(sv, p) ← srvs s !! i;
      match c_cur x with
      | Some (o, call, None) =>
          Some (set_clnt c (mkClnt (c_req x) (Some (o, call, Some (i, length (s_calls sv)))))
            (set_srv i (mkSys (s_kv sv) (s_calls sv ++ [call_of o]) (s_started sv) (s_notified sv) (s_seen sv), p) s))
      | _ => None
      end
  | EvFail c =>
      x ← clnts s !! c;
      '(o, call, a) ← c_cur x;
      Some (set_clnt c (mkClnt (c_req x) (Some (o, call, None))) s)
  | EvReply c =>
      x ← clnts s !! c;
      match c_cur x with
      | Some (o, call, Some (i, k)) =>
          '(sv, p) ← srvs s !! i;
          cl ← s_calls sv !! k;
          match call_pc cl with
          | Some (PDone (e, v)) =>
              guard (e = OK \/ e = ErrNoKey);;
              Some (mkLSys (glog s) (proposed s) (srvs s) (<[c := mkClnt (wrap64 (c_req x + 1)) None]> (clnts s)) (lclock s + 1)
                (lhist s ++ [record_of o v call (lclock s)]))
          | _ => None
          end
      | _ => None
      end
  | EvHandler i k timeout =>
      '(sv, p) ← srvs s !! i;
      cl ← s_calls sv !! k;
      '(cl', kv') ← go_opt (call_step timeout cl (s_kv sv));
      guard (Forall (fun x => x.1 ∉ (proposed s).*1) (started_by cl cl'));;
      Some (propose (started_by cl cl') (set_srv i (mkSys kv' (<[k := cl']> (s_calls sv)) (started_by cl cl' ++ s_started sv)
        (s_notified sv) (s_seen sv), p) s))
  | EvCommit t o =>
      guard ((zlen (glog s) + 1, t, o) ∈ proposed s);;
      Some (mkLSys (glog s ++ [(t, o)]) (proposed s) (srvs s) (clnts s) (lclock s) (lhist s))
  | EvDeliver i =>
      '(sv, p) ← srvs s !! i;
      '(t, o) ← (glog s).[p];
      guard (p + 1 <= rf_applied (rf (s_kv sv)));;
      kv' ← go_opt (applier (cmd_msg (p + 1) t o) (s_kv sv));
      Some (set_srv i (mkSys kv' (s_calls sv) (s_started sv)
       (if decide (lastIncludedIndex (s_kv sv) < p + 1 /\ notifies t (s_kv sv) = true)
        then (p + 1, t, o, KVDB (s_kv sv)) :: s_notified sv else s_notified sv) ({[p + 1]} ∪ s_seen sv), p + 1) s)
  | EvSnapshot i j t =>
      '(sv, p) ← srvs s !! i;
      guard (p < j <= zlen (glog s));;
      guard (0 < zlen (snap_of s j));;
      kv' ← go_opt (applier (snap_msg j t (snap_of s j)) (s_kv sv));
      Some (set_srv i (mkSys kv' (s_calls sv) (s_started sv) (s_notified sv) (s_seen sv), j) s)
  | EvRaft i f =>
      '(sv, p) ← srvs s !! i;
      let r' := f (rf (s_kv sv)) in
      guard (node_okb (fst r') = true);;
      guard (term_of sv <= fst (rf_GetState r'));;
      guard (rf_applied (rf (s_kv sv)) <= rf_applied r');;
      Some (set_srv i (mkSys (set_rf r' (s_kv sv)) (s_calls sv) (s_started sv) (s_notified sv) (s_seen sv), p) s)
  | EvRestart i r' j mx =>
      guard (node_okb (fst r') = true);;
      guard (0 <= j <= zlen (glog s));;
      guard (j = 0 /\ zlen (ReadSnapshot (persister (fst r'))) = 0 \/
             0 < zlen (ReadSnapshot (persister (fst r'))) /\
             decode_snapshot (ReadSnapshot (persister (fst r'))) = Some (exec_log (take (Z.to_nat j) (ops s))));;
      Some (mkLSys (glog s) (proposed s) (<[i := (sys_init (StartKVServer i r' mx), j)]> (srvs s))
        (hang_up i <$> clnts s) (lclock s) (lhist s))
  end.

Fixpoint lexec_all (es : list LEvent) (s : St) : option St :=
  match es with [] => Some s | e :: es => s ← lexec e s; lexec_all es s end.

Lemma snap_of_decodes s j : decode_snapshot (snap_of s j) = Some (exec_log (take (Z.to_nat j) (ops s))).
Proof.
  unfold snap_of. destruct (exec_log _) as [db lr]. unfold decode_snapshot. rewrite gob_roundtrip. cbn [mbind option_bind].
  by rewrite <- (app_nil_r (gob_encode (A := reqmap) lr)), gob_roundtrip.
Qed.

Lemma go_opt_Some {A} (x : Go A) a : go_opt x = Some a -> x = Ret a.
Proof. destruct x; by intros [= <-]. Qed.

Ltac guard_inv He Hg :=
  match type of He with
  | guard ?P ≫= _ = _ => destruct (guard P) as [Hg|]; [cbn [mbind option_bind] in He|done]
  end.

Lemma lexec_step e s s' : lexec e s = Some s' -> lstep s s'.
Proof.
  destruct e as [c r|c i|c|c|i k timeout|t o|i|i j t|i f|i r j mx]; simpl; intros He.
  - apply bind_Some in He as ([n [|]] & Hc & He); [done|]. simpl in He. guard_inv He Hg1. injection He as <-. by apply l_invoke.
  - apply bind_Some in He as ([n [[[o call] [?|]]|]] & Hc & He); apply bind_Some in He as ([sv q] & Hi & He); try done.
    injection He as <-. by apply l_send.
  - apply bind_Some in He as ([n cur] & Hc & He). apply bind_Some in He as ([[o call] a] & Ha & He). simpl in *. subst cur.
    injection He as <-. by eapply l_fail.
  - apply bind_Some in He as ([n [[[o call] [[i k]|]]|]] & Hc & He); try done. simpl in He.
    apply bind_Some in He as ([sv p] & Hi & He). apply bind_Some in He as (cl & Hk & He).
    destruct (call_pc cl) as [[| | | | |[e v]]|] eqn:Hpc; try done. guard_inv He Hg2. injection He as <-. by eapply l_reply.
  - apply bind_Some in He as ([sv p] & Hi & He). apply bind_Some in He as (cl & Hk & He).
    apply bind_Some in He as ([cl' kv'] & Hs%go_opt_Some & He). guard_inv He Hg. injection He as <-.
    eapply l_handler; try done. intros idx t o o' Hin Hin'. rewrite Forall_forall in Hg. apply (Hg _ Hin).
    apply list_elem_of_fmap. by exists (idx, t, o').
  - guard_inv He Hg3. injection He as <-. by apply l_commit.
  - apply bind_Some in He as ([sv p] & Hi & He). apply bind_Some in He as ([t o] & Hk & He). guard_inv He Hg4.
    apply bind_Some in He as (kv' & Hs%go_opt_Some & He). injection He as <-. by apply l_deliver.
  - apply bind_Some in He as ([sv p] & Hi & He). guard_inv He Hg5. guard_inv He Hg6.
    apply bind_Some in He as (kv' & Hs%go_opt_Some & He). injection He as <-. eapply l_snapshot; try done. apply snap_of_decodes.
  - apply bind_Some in He as ([sv p] & Hi & He). guard_inv He Ha; guard_inv He Hb; guard_inv He Hc. injection He as <-.
    apply l_raft; try done. by apply node_okb_sound.
  - guard_inv He Ha; guard_inv He Hb. guard_inv He Hsn. injection He as <-.
    eapply l_restart; try done; [by apply node_okb_sound|]. destruct Hsn as [[-> Hz]|?]; [left|by right]. split; [done|].
    simpl. destruct (ReadSnapshot _) as [|b l]; [done|]. rewrite zlen_cons in Hz. pose proof (zlen_nonneg l). lia.
Qed.

Lemma lexec_all_run es : forall s s', lexec_all es s = Some s' -> rtc lstep s s'.
Proof.
  induction es as [|e es IH]; intros s s'; simpl; [intros [= <-]; apply rtc_refl|].
  intros (s1 & H1%lexec_step & H2)%bind_Some. eapply rtc_l; [done|]. by apply IH.
Qed.

(** * The run *)

Definition peer_start (i : Z) : Peer :=
  (mkRaft 2 MakePersister i 0 0 (-1) [zeroEntry] Follower 0 0 [1; 1] [0; 0] 0, []).
Definition ent (t i : Z) (o : Op) : LogEntry Op := mkLogEntry (Some o) t i.
(** The peer wins the election of term [t] with the log [l], all of it applied. *)
Definition elected (i t : Z) (l : list (LogEntry Op)) (_ : Peer) : Peer :=
  (mkRaft 2 MakePersister i 0 t i l Leader (zlen l - 1) (zlen l - 1) [zlen l; zlen l] [0; 0] 0, []).
(** It commits and applies up to [n]. *)
Definition applied_to (n : Z) (r : Peer) : Peer := (set_lastApplied n (set_commitIndex n (fst r)), snd r).

Definition put_a : Op := mkOp 7 0 "Put" "k" "a".
Definition app_b : Op := mkOp 8 0 "Append" "k" "b".
Definition get_k : Op := mkOp 7 1 "Get" "k" "".

Definition lin_events : list LEvent :=
  [EvRaft 0 (elected 0 1 [zeroEntry]);
   EvInvoke 7 (RPut "k" "a"); EvSend 7 0; EvHandler 0 0 false; EvHandler 0 0 false; EvHandler 0 0 false;
   EvInvoke 8 (RAppend "k" "b"); EvSend 8 0; EvHandler 0 1 false; EvHandler 0 1 false; EvHandler 0 1 false;
   EvCommit 1 put_a; EvRaft 0 (applied_to 1); EvDeliver 0;
   EvFail 7; EvSend 7 0; EvHandler 0 2 false; EvReply 7;
   EvCommit 1 app_b; EvRaft 0 (applied_to 2); EvDeliver 0;
   EvHandler 0 1 false; EvHandler 0 1 false; EvHandler 0 1 false; EvReply 8;
   EvSnapshot 1 2 1; EvRaft 1 (elected 1 2 [zeroEntry; ent 1 1 put_a; ent 1 2 app_b]);
   EvRestart 0 (peer_start 0) 0 (-1);
   EvInvoke 7 (RGet "k"); EvSend 7 0; EvHandler 0 0 false; EvFail 7; EvSend 7 1;
   EvHandler 1 0 false; EvHandler 1 0 false; EvCommit 2 get_k; EvRaft 1 (applied_to 3); EvDeliver 1;
   EvHandler 1 0 false; EvHandler 1 0 false; EvHandler 1 0 false; EvReply 7].

Definition lin_peers : gmap Z Peer := {[0 := peer_start 0; 1 := peer_start 1]}.
Definition lin_start : St := linit lin_peers {[7; 8]} (-1).
Definition lin_end : St := default lin_start (lexec_all lin_events lin_start).

Example lin_results : map (fun r => (oClientId r, Output r)) (lhist lin_end) =
  [(7, VOutput (mkKvOutput "")); (8, VOutput (mkKvOutput "")); (7, VOutput (mkKvOutput "ab"))].
Proof. vm_compute. reflexivity. Qed.

Lemma lin_peers_fresh : fresh_peers lin_peers.
Proof.
  intros i r Hr. unfold lin_peers in Hr. apply lookup_insert_Some in Hr as [[<- <-]|[_ [<- <-]%lookup_singleton_Some]];
    (split; [apply node_okb_sound; by vm_compute|by vm_compute]).
Qed.

(** All calls have returned; and an [Append] that has not, though it is in the log. *)
Definition lin_open : St := default lin_start (lexec_all (firstn 12 lin_events ++ [EvCommit 1 app_b]) lin_start).

Lemma kvraft_linearizable_witness : length (lhist lin_end) = 3%nat /\ linearizable store_step ∅ (lhist lin_end) /\
  exists ext, completion (clnts lin_open) (lclock lin_open) ext /\ linearizable store_step ∅ (lhist lin_open ++ ext).
Proof.
  split; [vm_compute; reflexivity|]. split.
  - destruct (kvraft_linearizable lin_peers {[7; 8]} (-1) lin_end) as (ext & Hext & Hlin).
    + apply lin_peers_fresh.
    + apply (lexec_all_run lin_events). vm_compute. reflexivity.
    + rewrite (completion_idle (clnts lin_end) (lclock lin_end) ext), app_nil_r in Hlin; [exact Hlin| |exact Hext].
      apply (bool_decide_unpack (map_Forall (fun _ x => c_cur x = None) (clnts lin_end))). vm_compute. exact I.
  - apply (kvraft_linearizable lin_peers {[7; 8]} (-1) lin_open).
    + apply lin_peers_fresh.
    + apply (lexec_all_run (firstn 12 lin_events ++ [EvCommit 1 app_b])). vm_compute. reflexivity.
Defined.
