(* ===== verification/KVWorld.v ===== *)
(** The whole replicated key/value service: clerks, servers and the Raft cluster.

    Every server runs on a peer of the cluster ([RaftCluster]): its handlers call
    [Start] and [GetState] of that peer, its applier reads the peer's channel and
    hands snapshots back to it, and a crash takes server and peer down together.
    The messages of a peer wait on the channel in the goroutines that send them, and
    the applier reads any one that [sendable] allows.  Clerks and their RPCs are
    those of [KVLin].

    Nothing in [wexec] is restricted; the two restrictions of the linearizability
    theorem are predicates on runs.  [finds_term]: a replication goroutine finds the
    term it captured (the run of [RaftRuns] that violates it lets services diverge).
    [oldest_first]: the applier reads the messages in the order in which they were
    posted (the run of [KVWorldWitness] that violates it loses a write).  In such
    runs the system takes the steps of [KVLin], whose log is what the peers have
    delivered.  That appliers never get stuck needs the first restriction only. *)

From S2P Require Import Prelude Porcupine PorcupineOps Models.
From S2P Require Import Gob Persister RaftTypes RaftNode RaftInv RaftCluster RaftSafety RaftServices RaftApi RaftPromise.
From S2P Require Import KVRaft KVRaftSpec KVRaftSys KVLin KVLinSpec.
Local Open Scope Z_scope.

Abbreviation Peer := (Raft Op * list (Effect Op))%type.

(** A server: its fields (the peer among them is read from the cluster), its
    running RPCs, and what its applier has not read. *)
Record WSrv := mkWSrv { w_kv : KVServer Peer; w_calls : list Call; w_queue : Queue Op }.

Record World := mkWorld {
  w_raft : Cluster Op;
  w_srvs : gmap Z WSrv;
  w_clnts : gmap Z Clnt;
  w_clock : Z;
  w_hist : list (Operation KvVal)
}.


Section world.
Context `{GobLaws Z} `{GobLaws (list (LogEntry Op))} `{GobLaws kvmap} `{GobLaws reqmap} (n : nat).

(** The server with its peer, and the cluster after the server used it. *)
Definition with_node (r : Raft Op) (kv : KVServer Peer) : KVServer Peer := set_rf (r, []) kv.
Definition flush (i : Z) (kv : KVServer Peer) (c : Cluster Op) : Cluster Op :=
  update_node i (fst (rf kv)) (snd (rf kv)) (rpcs c) c.

(** What the cluster does by itself. *)
Definition raft_only (a : Action Op) : bool :=
  match a with AStart _ _ | ASnapshot _ _ _ | ARestart _ _ => false | _ => true end.

Inductive WEvent :=
| WInvoke (c : Z) (r : Req)
| WSend (c i : Z)
| WFail (c : Z)
| WReply (c : Z)
| WRaft (a : Action Op)
| WHandler (i : Z) (k : nat) (timeout : bool)
| WApply (i : Z) (k : nat)
| WRestart (i now : Z) (mx : Z).

Definition wexec (e : WEvent) (w : World) : option World :=
  match e with
  | WInvoke c r =>
      x ← w_clnts w !! c;
      match c_cur x with
      | None =>
          guard (c_req x < int64_max);;
          Some (mkWorld (w_raft w) (w_srvs w)
            (<[c := mkClnt (c_req x) (Some (op_of c (c_req x) r, w_clock w, None))]> (w_clnts w)) (w_clock w + 1) (w_hist w))
      | Some _ => None
      end
  | WSend c i =>
      x ← w_clnts w !! c;
      v ← w_srvs w !! i;
      match c_cur x with
      | Some (o, call, None) =>
          Some (mkWorld (w_raft w) (<[i := mkWSrv (w_kv v) (w_calls v ++ [call_of o]) (w_queue v)]> (w_srvs w))
            (<[c := mkClnt (c_req x) (Some (o, call, Some (i, length (w_calls v))))]> (w_clnts w)) (w_clock w) (w_hist w))
      | _ => None
      end
  | WFail c =>
      x ← w_clnts w !! c;
      '(o, call, _) ← c_cur x;
      Some (mkWorld (w_raft w) (w_srvs w) (<[c := mkClnt (c_req x) (Some (o, call, None))]> (w_clnts w)) (w_clock w) (w_hist w))
  | WReply c =>
      x ← w_clnts w !! c;
      match c_cur x with
      | Some (o, call, Some (i, k)) =>
          v ← w_srvs w !! i;
          cl ← w_calls v !! k;
          match call_pc cl with
          | Some (PDone (e, val)) =>
              guard (e = OK \/ e = ErrNoKey);;
              Some (mkWorld (w_raft w) (w_srvs w) (<[c := mkClnt (wrap64 (c_req x + 1)) None]> (w_clnts w)) (w_clock w + 1)
                (w_hist w ++ [record_of o val call (w_clock w)]))
          | _ => None
          end
      | _ => None
      end
  | WRaft a =>
      guard (raft_only a = true);;
      c' ← RaftCluster.exec a (w_raft w);
      Some (mkWorld c' (w_srvs w) (w_clnts w) (w_clock w) (w_hist w))
  | WHandler i k timeout =>
      v ← w_srvs w !! i;
      r ← nodes (w_raft w) !! i;
      cl ← w_calls v !! k;
      '(cl', kv') ← go_opt (call_step timeout cl (with_node r (w_kv v)));
      Some (mkWorld (flush i kv' (w_raft w)) (<[i := mkWSrv kv' (<[k := cl']> (w_calls v)) (w_queue v)]> (w_srvs w))
        (w_clnts w) (w_clock w) (w_hist w))
  | WApply i k =>
      v ← w_srvs w !! i;
      r ← nodes (w_raft w) !! i;
      guard (sendable (unread i (w_queue v) (w_raft w)) k = true);;
      m ← unread i (w_queue v) (w_raft w) !! k;
      kv' ← go_opt (applier m (with_node r (w_kv v)));
      Some (mkWorld (flush i kv' (w_raft w))
        (<[i := mkWSrv kv' (w_calls v) (read_queue i (w_queue v) k (w_raft w))]> (w_srvs w))
        (w_clnts w) (w_clock w) (w_hist w))
  | WRestart i now mx =>
      c' ← RaftCluster.exec (ARestart i now) (w_raft w);
      r ← nodes c' !! i;
      Some (mkWorld c' (<[i := mkWSrv (StartKVServer i (r, []) mx) [] (new_queue i c')]> (w_srvs w))
        (hang_up i <$> w_clnts w) (w_clock w) (w_hist w))
  end.

Fixpoint wrun (es : list WEvent) (w : World) : option World :=
  match es with [] => Some w | e :: es => w ← wexec e w; wrun es w end.

(** The restrictions of the theorems. *)
Definition finds_term (e : WEvent) (w : World) : bool :=
  match e with WRaft a => admissible a (w_raft w) | _ => true end.
Definition oldest_first (e : WEvent) (w : World) : bool :=
  match e with WApply _ k => bool_decide (k = 0%nat) | _ => true end.

Definition wstart (now mx : Z) (ids : gset Z) : World :=
  mkWorld (cluster_init n now)
    (map_imap (fun i r => Some (mkWSrv (StartKVServer i (r, []) mx) [] (mkQueue 0 []))) (nodes (cluster_init n now)))
    (gset_to_gmap (mkClnt 0 None) ids) 0 [].

Definition widle (w : World) : Prop := forall c x, w_clnts w !! c = Some x -> c_cur x = None.

(** * The relation to the service over a log *)

Definition srv_rel (c : Cluster Op) (i : Z) (v : WSrv) (x : Sys (R := Peer) * Z) : Prop := exists r,
  nodes c !! i = Some r /\ s_kv x.1 = with_node r (w_kv v) /\ s_calls x.1 = w_calls v /\
  in_order x.2 (unread i (w_queue v) c) (lastApplied r) /\ queue_ok i (w_queue v) c.

Definition srvs_rel (c : Cluster Op) (ws : gmap Z WSrv) (ss : gmap Z (Sys (R := Peer) * Z)) : Prop :=
  forall i, option_Forall2 (srv_rel c i) (ws !! i) (ss !! i).

Definition good_snaps (s : LSys (R := Peer)) (K : list (Z * bytes)) : Prop := forall j data, (j, data) ∈ K ->
  0 <= j <= zlen (glog s) /\ 0 < zlen data /\ decode_snapshot data = Some (exec_log (take (Z.to_nat j) (ops s))).

(** Everything in the log has been delivered to somebody. *)
Definition log_delivered (c : Cluster Op) (L : list (Z * Op)) : Prop := forall k t o,
  L.[k] = Some (t, o) -> exists i, (i, cmd_msg (k + 1) t o) ∈ delivered c.

Record wrel (w : World) (s : LSys (R := Peer)) (K : list (Z * bytes)) : Prop := {
  wr_prom : promised n (w_raft w) (proposed s) K;
  wr_snaps : good_snaps s K;
  wr_log : log_delivered (w_raft w) (glog s);
  wr_srvs : srvs_rel (w_raft w) (w_srvs w) (srvs s);
  wr_clnts : w_clnts w = clnts s;
  wr_clock : w_clock w = lclock s;
  wr_hist : w_hist w = lhist s
}.

(** ** Frame lemmas *)

Lemma srvs_rel_lookup c ws ss i v : srvs_rel c ws ss -> ws !! i = Some v ->
  exists S p r, ss !! i = Some (S, p) /\ nodes c !! i = Some r /\ s_kv S = with_node r (w_kv v) /\ s_calls S = w_calls v /\
    in_order p (unread i (w_queue v) c) (lastApplied r) /\ queue_ok i (w_queue v) c.
Proof.
  intros Hs Hi. specialize (Hs i). rewrite Hi in Hs. inversion Hs as [? [S p] (r & ?)|]; subst. eauto 10.
Qed.

Lemma srvs_rel_insert c c' ws ss i v x : srvs_rel c ws ss -> srv_rel c' i v x ->
  (forall j, j <> i -> nodes c' !! j = nodes c !! j /\ received j c' = received j c) ->
  srvs_rel c' (<[i := v]> ws) (<[i := x]> ss).
Proof.
  intros Hs Hx Hrest j. destruct (decide (j = i)) as [->|Hne]; [by rewrite !lookup_insert_eq; constructor|].
  rewrite !lookup_insert_ne by done. destruct (Hrest j Hne) as [Hn Hr]. specialize (Hs j).
  destruct Hs as [v0 x0 (r & Hrel)|]; constructor. exists r. unfold queue_ok, unread in *. by rewrite Hn, Hr.
Qed.

Lemma srvs_rel_insert_same c ws ss i v x : srvs_rel c ws ss -> srv_rel c i v x ->
  srvs_rel c (<[i := v]> ws) (<[i := x]> ss).
Proof. intros. by eapply srvs_rel_insert. Qed.

Lemma set_rf_id (kv : KVServer Peer) r : rf kv = r -> set_rf r kv = kv.
Proof. intros <-. by destruct kv. Qed.

Lemma flush_id i kv c r : nodes c !! i = Some r -> rf kv = (r, []) -> flush i kv c = c.
Proof.
  intros Hi Hr. unfold flush, update_node. rewrite Hr. simpl. rewrite insert_id, !app_nil_r by done. by destruct c.
Qed.

Lemma with_node_rf r (kv : KVServer Peer) : rf (with_node r kv) = (r, []).
Proof. done. Qed.
End world.
