(* ===== verification/KVWorldSim.v ===== *)
(** The service on the cluster takes the steps of the service over a log. *)

From S2P Require Import Prelude Porcupine PorcupineOps Models.
From S2P Require Import Gob Persister RaftTypes RaftNode RaftInv RaftSpec RaftCluster RaftElection RaftSim RaftSteps RaftLead RaftSafety RaftServices RaftApi RaftPromise.
From S2P Require Import KVRaft KVRaftSpec KVRaftSys KVLin KVLinSpec KVWorld.
Local Open Scope Z_scope.

Section sim.
Context `{GobLaws Z} `{GobLaws (list (LogEntry Op))} `{GobLaws kvmap} `{GobLaws reqmap} (n : nat).
Implicit Types (r : Raft Op) (c : Cluster Op) (kv : KVServer Peer).
#[local] Arguments flush : simpl never.

(** ** What a server does to its peer *)

Lemma notify_frame i o kv kv' : notifyWaitCh i o kv = Ret kv' ->
  rf kv' = rf kv /\ KVDB kv' = KVDB kv /\ LastRequestMap kv' = LastRequestMap kv /\ maxraftstate kv' = maxraftstate kv.
Proof.
  unfold notifyWaitCh. destruct (waitChMap kv !! i); [|by intros [= <-]]. unfold send_chan.
  destruct (chans kv !! _) as [[|]|]; try done. by intros [= <-].
Qed.

(** A command: at most a snapshot at its index, of the state with the command. *)
Lemma applier_raft k t o kv r kv' : applier (cmd_msg k t o) (with_node r kv) = Ret kv' ->
  rf kv' = (r, []) \/ exists data r', Snapshot k data r = Some r' /\ rf kv' = (r', []) /\ 0 < zlen data /\
    decode_snapshot data = Some (sm_step (db_state kv) o).
Proof.
  unfold applier. simpl. case_decide; [intros [= <-]; by left|]. unfold sm_step. simpl.
  destruct (execute o (KVDB kv) (LastRequestMap kv)) as [[o' db] lr] eqn:He. simpl. intros Ha.
  apply go_bind_Ret in Ha as (kv1 & Hn & Ha). apply go_bind_Ret in Ha as (kv2 & Hs & Ha). injection Ha as <-.
  assert (rf kv1 = (r, []) /\ KVDB kv1 = db /\ LastRequestMap kv1 = lr) as (Hrf & Hdb & Hlr).
  { clear Hs. case_decide; [|by injection Hn as <-]. destruct (notify_frame _ _ _ _ Hn) as (? & ? & ? & _). done. }
  simpl. case_decide; [|injection Hs as <-; by left]. rewrite Hrf in Hs. simpl in Hs.
  destruct (Snapshot k (encodeState kv1) r) as [r'|] eqn:HS; [|done]. simpl in Hs. injection Hs as <-. right.
  destruct (encodeState_decodes kv1) as [Hd Hz]. exists (encodeState kv1), r'. split_and!; try done.
  rewrite Hd. unfold db_state. simpl. by rewrite Hdb, Hlr.
Qed.

Lemma applier_snapshot_raft j t data kv kv' : applier (snap_msg j t data) kv = Ret kv' -> rf kv' = rf kv.
Proof.
  unfold applier. simpl. case_decide; [by intros [= <-]|]. intros [= <-]. simpl. unfold readPersist.
  case_decide; [done|]. by destruct (gob_decode data ≫= _) as [[? ?]|].
Qed.

Lemma recv_rf ch kv res kv' : recv_chan ch kv = Ret (res, kv') -> rf kv' = rf kv.
Proof. unfold recv_chan. destruct (chans kv !! ch) as [[|]|]; try done. by intros [= <- <-]. Qed.

(** A handler: nothing, or [Start]. *)
Lemma call_step_raft timeout cl cl' kv r kv' : call_step timeout cl (with_node r kv) = Ret (cl', kv') ->
  (rf kv' = (r, []) /\ started_by cl cl' = []) \/
  exists res eff r', Start (call_op cl) r = Some (r', res, eff) /\ rf kv' = (r', eff) /\
    started_by cl cl' = match res with (i, t, true) => [(i, t, call_op cl)] | _ => [] end.
Proof.
  intros Hs. destruct (call_pc cl) as [pc|] eqn:Hpc.
  - rewrite (call_step_phase _ _ _ _ Hpc) in Hs. apply go_bind_Ret in Hs as ([pc' kv1] & Hph & Hs). go_inv.
    unfold started_by. rewrite Hpc. assert (call_pc (set_pc pc' cl) = Some pc') as -> by (by destruct cl).
    destruct pc as [|i t|i t ch|i t res|i rep|rep]; simpl in Hph; try (left; go_inv; by split).
    + right. destruct (Start (call_op cl) r) as [[[r' [[i t] ld]] eff]|] eqn:HS; [|done]. simpl in Hph.
      eexists _, _, _. split; [done|]. destruct ld; by go_inv.
    + left. go_inv. split; [|done]. unfold register. by destruct (waitChMap _ !! i).
    + left. destruct timeout; go_inv; [done|]. split; [|done]. destruct x as [res kv2]. go_inv.
      match goal with Hr : recv_chan _ _ = _ |- _ => by apply recv_rf in Hr end.
  - left. destruct (call_step_check _ _ _ _ _ Hpc Hs) as (-> & (args & ->) & [->| ->]); done.
Qed.

(** The cluster after a handler: unchanged, or after [AStart]. *)
Lemma flush_handler c P K i k timeout cl cl' kv r kv' : promised n c P K -> nodes c !! i = Some r ->
  call_step timeout cl (with_node r kv) = Ret (cl', kv') -> k = flush i kv' c ->
  promised n k (started_by cl cl' ++ P) K /\ (forall idx t o o', (idx, t, o) ∈ started_by cl cl' -> (idx, t, o') ∉ P) /\
  delivered k = delivered c /\ exists r' eff, rf kv' = (r', eff) /\ nodes k = <[i := r']> (nodes c) /\
    GetState r' = GetState r /\ lastApplied r' = lastApplied r.
Proof.
  intros HP Hi Hs ->. pose proof (promised_node_ok n c P K i r HP Hi) as Hok.
  destruct (call_step_raft _ _ _ _ _ _ Hs) as [[Hrf ->]|(res & eff & r' & HS & Hrf & Hst)].
  - rewrite (flush_id i kv' c r Hi Hrf). split_and!; [done|by intros idx t o o' ?%elem_of_nil|done|].
    exists r, []. rewrite insert_id by done. done.
  - destruct (Start_result _ _ _ _ _ Hok HS) as (Hres & Hg & Ha & _).
    destruct (Start_stems P K _ _ _ _ _ Hok HS) as (_ & Hmsgs & _).
    { destruct HP as (s & V & L & _ & O & _). by apply (or_node _ _ _ O i). }
    assert (started_by cl cl' = asked (call_op cl) r) as Hask.
    { rewrite Hst, Hres. unfold asked. by destruct (decide (state r = Leader)); [rewrite bool_decide_eq_true_2|rewrite bool_decide_eq_false_2]. }
    assert (RaftCluster.exec (AStart i (call_op cl)) c = Some (flush i kv' c)) as He.
    { simpl. rewrite Hi. simpl. rewrite HS. unfold flush. by rewrite Hrf. }
    pose proof (promised_exec n c P K (AStart i (call_op cl)) _ HP eq_refl He) as HP'. simpl in HP'. rewrite Hi, <- Hask in HP'.
    split_and!; [done| |unfold flush, update_node; simpl; rewrite Hrf; simpl; by rewrite emit_apply_msgs, Hmsgs, app_nil_r|].
    + rewrite Hask. unfold asked. case_decide as Hl; [|by intros idx t o o' ?%elem_of_nil].
      intros idx t o o' [= -> -> ->]%list_elem_of_singleton. by eapply promised_fresh.
    + exists r', eff. split_and!; try done. unfold flush, update_node. simpl. by rewrite Hrf.
Qed.

(** The cluster after the applier: unchanged, or after [ASnapshot]. *)
Lemma flush_applier c P K i m t o kv r kv' k : promised n c P K -> nodes c !! i = Some r -> m <= lastApplied r ->
  applier (cmd_msg m t o) (with_node r kv) = Ret kv' -> k = flush i kv' c ->
  exists K' r', promised n k P K' /\ rf kv' = (r', []) /\ nodes k = <[i := r']> (nodes c) /\
    delivered k = delivered c /\ lastApplied r' = lastApplied r /\
    forall jd, jd ∈ K' -> jd ∈ K \/ (jd.1 = m /\ 0 < zlen jd.2 /\ decode_snapshot jd.2 = Some (sm_step (db_state kv) o)).
Proof.
  intros HP Hi Hm Ha ->. destruct (applier_raft _ _ _ _ _ _ Ha) as [Hrf|(data & r' & HS & Hrf & Hz & Hd)].
  - exists K, r. rewrite (flush_id i kv' c r Hi Hrf). split_and!; try done; [by rewrite insert_id|auto].
  - exists ((m, data) :: K), r'. assert (RaftCluster.exec (ASnapshot i m data) c = Some (flush i kv' c)) as He.
    { simpl. rewrite Hi. simpl. rewrite HS. unfold flush. by rewrite Hrf. }
    split_and!; [|done|unfold flush, update_node; simpl; by rewrite Hrf|unfold flush, update_node; simpl; rewrite Hrf; by rewrite app_nil_r| |].
    + apply (promised_exec n c P K _ _ HP) in He; [done|]. simpl. rewrite Hi. by apply bool_decide_eq_true.
    + unfold Snapshot in HS. handler_cases; done.
    + intros jd [->|Hin]%elem_of_cons; auto.
Qed.

(** ** The steps *)

Lemma good_snaps_app s K x P cs l h : good_snaps s K -> good_snaps (mkLSys (glog s ++ [x]) P cs l h (lhist s)) K.
Proof.
  intros Hs j data Hin. destruct (Hs j data Hin) as (Hj & Hz & Hd). unfold ops in *. simpl.
  rewrite zlen_snoc, take_ops_app by lia. split_and!; try done; lia.
Qed.

(** What a peer delivers next is in the log, or is committed now. *)
Lemma sim_commit w s K i p t o : wrel n w s K -> (i, cmd_msg (p + 1) t o) ∈ delivered (w_raft w) -> 0 <= p <= zlen (glog s) ->
  exists s', rtc lstep s s' /\ wrel n w s' K /\ (glog s').[p] = Some (t, o) /\ srvs s' = srvs s.
Proof.
  intros [HP Hsn Hlog Hsrv Hcl Hck Hh] Hd Hp. destruct (decide (p = zlen (glog s))) as [->|Hne].
  - eexists. split_and!; [eapply rtc_once, (l_commit s t o)| | |].
    + destruct (promised_msg _ _ _ _ _ _ HP Hd) as [(cmd & k & t' & [= <- <- <-] & Hin)|(? & ? & ? & ? & _)]; done.
    + split; simpl; try done; [by apply good_snaps_app|]. intros k t' o' Hk.
      destruct (decide (k = zlen (glog s))) as [->|Hk'].
      * rewrite go_index_app_r, Z.sub_diag in Hk by lia. injection Hk as <- <-. eauto.
      * pose proof (go_index_Some_lt _ _ _ Hk) as Hlt. rewrite zlen_snoc in Hlt. rewrite go_index_app_l in Hk by lia. eauto.
    + simpl. by rewrite go_index_app_r, Z.sub_diag by lia.
    + done.
  - exists s. split_and!; [done|done| |done]. destruct (go_index_is_Some (glog s) p) as [[t' o'] Hk]; [lia|].
    destruct (Hlog _ _ _ Hk) as [j Hj]. destruct (promised_agree _ _ _ _ _ _ _ _ _ _ _ HP Hj Hd) as [-> ->]. done.
Qed.

Lemma in_order_head a m ms b : in_order a (m :: ms) b ->
  (exists (cmd : option Op) t, m = mkApplyMsg true cmd (a + 1) t false [] 0 0 /\ in_order (a + 1) ms b) \/
  (exists data t j, m = mkApplyMsg false None 0 0 true data t j /\ a < j /\ in_order j ms b).
Proof. inversion 1; subst; eauto 10. Qed.

Lemma delivered_mono_log c c' L l : delivered c' = delivered c ++ l -> log_delivered c L -> log_delivered c' L.
Proof. intros Hd HL k t o Hk. destruct (HL k t o Hk) as [i Hi]. exists i. rewrite Hd. set_solver. Qed.

Lemma received_same c c' i : delivered c' = delivered c -> received i c' = received i c.
Proof. intros Hd. unfold received. by rewrite Hd. Qed.

(** The clerks. *)
Lemma sim_clerks e w s K w' : wrel n w s K -> wexec e w = Some w' ->
  match e with WInvoke _ _ | WSend _ _ | WFail _ | WReply _ => True | _ => False end ->
  exists s', rtc lstep s s' /\ wrel n w' s' K.
Proof.
  intros [HP Hsn Hlog Hsrv Hcl Hck Hh] He Hc. destruct e as [c r|c i|c|c| | | |]; try done; simpl in He; rewrite Hcl in He.
  - apply bind_Some in He as ([m [|]] & Hx & He); [done|]. simpl in He. case_guard; [|done]. injection He as <-.
    eexists. split; [by eapply rtc_once, (l_invoke s c m r)|]. split; simpl; try done; by rewrite ?Hck, ?Hcl.
  - apply bind_Some in He as ([m [[[o call] [?|]]|]] & Hx & He); apply bind_Some in He as (v & Hi & He); try done.
    destruct (srvs_rel_lookup _ _ _ _ _ Hsrv Hi) as (S & p & r & HS & Hr & Hkv & Hcs & Hq & Hle). injection He as <-.
    eexists. split; [by eapply rtc_once, (l_send s c m o call i S p)|]. rewrite Hcs. split; simpl; try done.
    eapply srvs_rel_insert_same; [done|]. exists r. done.
  - apply bind_Some in He as ([m cur] & Hx & He). apply bind_Some in He as ([[o call] a] & Ha & He). simpl in *. subst cur.
    injection He as <-. eexists. split; [by eapply rtc_once, (l_fail s c m o call a)|]. split; simpl; done.
  - apply bind_Some in He as ([m [[[o call] [[i k]|]]|]] & Hx & He); try done. simpl in He.
    apply bind_Some in He as (v & Hi & He). apply bind_Some in He as (cl & Hk & He).
    destruct (call_pc cl) as [[| | | | |[er val]]|] eqn:Hpc; try done. case_guard; [|done]. injection He as <-.
    destruct (srvs_rel_lookup _ _ _ _ _ Hsrv Hi) as (S & p & r & HS & Hr & Hkv & Hcs & Hq & Hle).
    eexists. split; [eapply rtc_once, (l_reply s c m o call i k S p cl er val); try done; by rewrite Hcs|].
    split; simpl; try done; by rewrite ?Hcl, ?Hck, ?Hh.
Qed.

(** The cluster by itself. *)
Lemma sim_raft a w s K w' : wrel n w s K -> admissible a (w_raft w) = true -> wexec (WRaft a) w = Some w' ->
  exists s', rtc lstep s s' /\ wrel n w' s' K.
Proof.
  intros [HP Hsn Hlog Hsrv Hcl Hck Hh] Hadm He. cbn [wexec] in He.
  apply bind_Some in He as (Hro & _ & He). apply bind_Some in He as (c' & He & Hw). injection Hw as <-.
  pose proof (promised_exec n _ _ _ _ _ HP Hadm He) as HP'.
  assert (asked_by a (w_raft w) = [] /\ taken_by a = [] /\ forall i, restarts i a = false) as (Hask & Htk & Hre) by (by destruct a).
  rewrite Hask, Htk in HP'. simpl in HP'. destruct (promised_delivered n _ _ _ _ _ HP He) as [l Hdl].
  destruct (promised_step n _ _ _ _ _ HP Hadm He Hre) as [(j & r & r' & ms & Hj & Hn & Hrec & Hio & Hterm)|[Hn Hrec]].
  - pose proof (Hsrv j) as Hjs. destruct (w_srvs w !! j) as [v|] eqn:Hv.
    + destruct (srvs_rel_lookup _ _ _ _ _ Hsrv Hv) as (S & p & r0 & HS & Hr & Hkv & Hcs & Hq & Hle).
      assert (r0 = r) as -> by congruence. eexists. split.
      { eapply rtc_once, (l_raft s j S p (r', [])); [done| |unfold term_of; by rewrite Hkv|rewrite Hkv; simpl; by eapply in_order_le].
        simpl. apply (promised_node_ok n c' _ _ j r' HP'). rewrite Hn. apply lookup_insert_eq. }
      split; simpl; try done; [by eapply delivered_mono_log|]. rewrite <- (insert_id (w_srvs w) j v) by done.
      eapply srvs_rel_insert; [done| |].
      * specialize (Hrec j). rewrite decide_True in Hrec by done. destruct (queue_posted _ _ _ _ _ Hle Hrec) as [Hq' Hu].
        exists r'. simpl. rewrite Hn, lookup_insert_eq, Hu. split_and!; [done|by rewrite Hkv|done|by eapply in_order_app|done].
      * intros k Hk. rewrite Hn, lookup_insert_ne, Hrec, decide_False, app_nil_r by done. done.
    + exists s. split; [done|]. split; simpl; try done; [by eapply delivered_mono_log|]. intros k. specialize (Hsrv k).
      destruct (decide (k = j)) as [->|Hk]; [rewrite Hv in *; inversion Hsrv; constructor|].
      destruct Hsrv as [v0 x0 (r0 & Hrel)|]; constructor. exists r0. unfold queue_ok, unread in *.
      rewrite Hn, lookup_insert_ne, Hrec, decide_False, app_nil_r by done. done.
  - exists s. split; [done|]. split; simpl; try done; [by eapply delivered_mono_log|]. intros k. specialize (Hsrv k).
    destruct Hsrv as [v0 x0 (r0 & Hrel)|]; constructor. exists r0. unfold queue_ok, unread in *. by rewrite Hn, Hrec.
Qed.

(** A handler. *)
Lemma sim_handler i k timeout w s K w' : wrel n w s K -> wexec (WHandler i k timeout) w = Some w' ->
  exists s', rtc lstep s s' /\ wrel n w' s' K.
Proof.
  intros [HP Hsn Hlog Hsrv Hcl Hck Hh] He. simpl in He. apply bind_Some in He as (v & Hv & He).
  apply bind_Some in He as (r & Hr & He). apply bind_Some in He as (cl & Hk & He).
  apply bind_Some in He as ([cl' kv'] & Hs & He). injection He as <-.
  destruct (call_step timeout cl (with_node r (w_kv v))) as [[cl0 kv0]| |] eqn:Hcs; try done. injection Hs as -> ->.
  destruct (srvs_rel_lookup _ _ _ _ _ Hsrv Hv) as (S & p & r0 & HS & Hr0 & Hkv & Hcalls & Hq & Hle).
  assert (r0 = r) as -> by congruence.
  destruct (flush_handler _ _ _ _ _ _ _ _ _ _ _ HP Hr Hcs eq_refl) as (HP' & Hfresh & Hdl & r' & eff & Hrf & Hn & Hg & Hla).
  pose proof (promised_node_ok n _ _ _ i r' HP' ltac:(rewrite Hn; apply lookup_insert_eq)) as Hok.
  eexists. split.
  - eapply rtc_l; [eapply (l_handler s i S p k timeout cl cl' kv'); [done|by rewrite Hcalls|by rewrite Hkv|done]|].
    eapply rtc_once, (l_raft _ i _ p (r', [])); [apply lookup_insert_eq|done|unfold term_of; simpl; by rewrite Hrf|simpl; by rewrite Hrf].
  - split; simpl; try done; [intros k' t o Hk'; rewrite Hdl; by apply Hlog|].
    rewrite insert_insert_eq. eapply srvs_rel_insert; [done| |].
    + exists r'. split; [by rewrite Hn, lookup_insert_eq|]. simpl.
      destruct (queue_same _ _ _ _ Hle (received_same _ _ i Hdl)) as [Hq' Hu]. simpl. rewrite Hu, Hla, Hcalls. done.
    + intros j Hj. split; [by rewrite Hn, lookup_insert_ne|by apply received_same].
Qed.

Lemma StartKVServer_rf i (x : Peer) mx : rf (StartKVServer i x mx) = x.
Proof.
  unfold StartKVServer, KVRaft.readPersist. case_decide; [done|]. by destruct (gob_decode _ ≫= _) as [[? ?]|].
Qed.

(** A crash and a restart. *)
Lemma sim_restart i now mx w s K w' : wrel n w s K -> wexec (WRestart i now mx) w = Some w' ->
  exists s', rtc lstep s s' /\ wrel n w' s' K.
Proof.
  intros [HP Hsn Hlog Hsrv Hcl Hck Hh] He. cbn [wexec] in He. apply bind_Some in He as (c' & He & Hw).
  apply bind_Some in Hw as (r' & Hr' & Hw). injection Hw as <-.
  pose proof (promised_exec n _ _ _ (ARestart i now) _ HP eq_refl He) as HP'. simpl in HP'.
  destruct (promised_delivered n _ _ _ _ _ HP He) as [l Hdl].
  simpl in He. apply bind_Some in He as (r & Hi & He). apply bind_Some in He as ([r2 eff] & Hm & Hc'). injection Hc' as Hc'.
  assert (r2 = r') as -> by (rewrite <- Hc' in Hr'; simpl in Hr'; rewrite lookup_insert_eq in Hr'; congruence).
  destruct (Make_recovers _ _ _ _ _ _ Hm) as (_ & _ & _ & _ & _ & _ & Happ).
  destruct (Make_tables _ _ _ _ _ _ Hm) as (_ & _ & ->).
  assert (delivered c' = delivered (w_raft w)) as Hd by (rewrite <- Hc'; simpl; by rewrite app_nil_r).
  pose proof (promised_node_ok n _ _ _ i r' HP' Hr') as Hok. pose proof (ok_first _ Hok) as Hfirst.
  assert (firstIdx (log r') = 0 /\ ReadSnapshot (persister r') = [] \/
    0 <= firstIdx (log r') <= zlen (glog s) /\ 0 < zlen (ReadSnapshot (persister r')) /\
    decode_snapshot (ReadSnapshot (persister r')) = Some (exec_log (take (Z.to_nat (firstIdx (log r'))) (ops s)))) as Hsnap.
  { destruct (promised_snapshot n _ _ _ i r' HP' Hr') as [?|Hin]; [by left|right]. by apply Hsn. }
  eexists. split.
  - eapply rtc_once, (l_restart s i (r', []) (firstIdx (log r')) mx); [done| |].
    + destruct Hsnap as [[-> _]|[? _]]; [pose proof (zlen_nonneg (glog s)); lia|done].
    + destruct Hsnap as [?|[_ ?]]; [by left|by right].
  - split; simpl; try done; [by eapply delivered_mono_log|  |by rewrite Hcl]. eapply srvs_rel_insert; [done| |].
    + exists r'. simpl. rewrite unread_new.
      split_and!; [done| |done|rewrite Happ; constructor|apply queue_new].
      symmetry. apply set_rf_id, StartKVServer_rf.
    + intros j Hj. rewrite (received_same _ _ j Hd). rewrite <- Hc'. simpl. by rewrite lookup_insert_ne.
Qed.

(** The applier. *)
Lemma db_state_with r kv : db_state (with_node r kv) = db_state kv.
Proof. done. Qed.

(** The state of a server whose applier has read the oldest message. *)
Definition read_oldest (i : Z) (v : WSrv) c kv' : WSrv :=
  mkWSrv kv' (w_calls v) (read_queue i (w_queue v) 0 c).

Lemma sim_command i t o w s K v r kv' S p rest G D : wrel n w s K -> linv s G D -> w_srvs w !! i = Some v ->
  nodes (w_raft w) !! i = Some r -> srvs s !! i = Some (S, p) -> s_kv S = with_node r (w_kv v) -> s_calls S = w_calls v ->
  unread i (w_queue v) (w_raft w) = cmd_msg (p + 1) t o :: rest -> queue_ok i (w_queue v) (w_raft w) -> in_order (p + 1) rest (lastApplied r) ->
  applier (cmd_msg (p + 1) t o) (with_node r (w_kv v)) = Ret kv' ->
  exists s' K', rtc lstep s s' /\
    wrel n (mkWorld (flush i kv' (w_raft w)) (<[i := read_oldest i v (w_raft w) kv']> (w_srvs w))
      (w_clnts w) (w_clock w) (w_hist w)) s' K'.
Proof.
  intros W I Hv Hr HS Hkv Hcalls Hm Hqok Hio Ha. pose proof (queue_read i (w_queue v) 0 _ Hqok) as Hqok'.
  assert ((i, cmd_msg (p + 1) t o) ∈ delivered (w_raft w)) as Hd.
  { apply elem_of_received, (proj2 Hqok). rewrite Hm. by left. }
  pose proof (so_pos _ _ _ _ _ (li_srv _ _ _ I _ _ _ HS)) as Hpos.
  destruct (sim_commit w s K i p t o W Hd Hpos) as (s1 & Hs1 & W1 & Hk & Hsr).
  destruct (linv_run _ _ _ _ Hs1 I) as (G1 & D1 & I1). rewrite <- Hsr in HS.
  pose proof (li_srv _ _ _ I1 _ _ _ HS) as Hok. pose proof (so_db _ _ _ _ _ Hok) as Hdb.
  rewrite Hkv, db_state_with in Hdb. destruct W1 as [HP Hsn Hlog Hsrv Hcl Hck Hh].
  assert (p + 1 <= lastApplied r) as Hle by (by eapply in_order_le).
  destruct (flush_applier _ _ _ _ _ _ _ _ _ _ _ HP Hr Hle Ha eq_refl) as (K' & r' & HP' & Hrf & Hn & Hdl & Hla & HK').
  assert ((ops s1).[p] = Some o) as Ho.
  { unfold ops. by rewrite go_index_lookup, list_lookup_fmap, <- go_index_lookup, Hk by lia. }
  pose proof (go_index_Some_lt _ _ _ Hk) as Hlt.
  eexists _, K'. split.
  - etrans; [exact Hs1|]. eapply rtc_once, (l_deliver s1 i S p t o kv'); [done|done|by rewrite Hkv|by rewrite Hkv].
  - split; simpl; try done.
    + intros j data Hin. destruct (HK' _ Hin) as [Hin'|(Hj & Hz & Hdec)]; [by apply Hsn|]. simpl in Hj, Hz, Hdec. subst j.
      simpl; split_and!; [lia|lia|done|]. unfold ops in *. simpl. by rewrite Hdec, Hdb, (take_snoc_index _ _ _ Ho), exec_log_snoc.
    + intros k t' o' Hk'. rewrite Hdl. by apply Hlog.
    + eapply srvs_rel_insert; [done| |].
      * exists r'. split; [by rewrite Hn, lookup_insert_eq|]. simpl.
        destruct (queue_same _ _ _ _ Hqok' (received_same _ _ i Hdl)) as [Hq' Hu].
        unfold read_oldest. rewrite Hu, unread_read, Hla. split_and!; [symmetry; by apply set_rf_id|done|by rewrite Hm|done].
      * intros j Hj. split; [by rewrite Hn, lookup_insert_ne|by apply received_same].
Qed.

Lemma sim_apply i w s K w' G D : wrel n w s K -> linv s G D -> wexec (WApply i 0) w = Some w' ->
  exists s' K', rtc lstep s s' /\ wrel n w' s' K'.
Proof.
  intros W I He. simpl in He. apply bind_Some in He as (v & Hv & He).
  apply bind_Some in He as (r & Hr & He). apply bind_Some in He as (_ & _ & He).
  apply bind_Some in He as (m & Hm & He). apply bind_Some in He as (kv' & Ha & He). injection He as <-.
  destruct (applier m (with_node r (w_kv v))) as [kv0| |] eqn:Hap; try done. injection Ha as ->.
  destruct (srvs_rel_lookup _ _ _ _ _ (wr_srvs _ _ _ _ W) Hv) as (S & p & r0 & HS & Hr0 & Hkv & Hcalls & Hq & Hqok).
  assert (r0 = r) as -> by congruence. fold (read_oldest i v (w_raft w) kv').
  destruct (unread i (w_queue v) (w_raft w)) as [|m' rest] eqn:Hu; [done|]. injection Hm as ->.
  assert ((i, m) ∈ delivered (w_raft w)) as Hd by (apply elem_of_received, (proj2 Hqok); rewrite Hu; by left).
  pose proof (promised_msg n _ _ _ _ _ (wr_prom _ _ _ _ W) Hd) as Hstem.
  destruct (in_order_head _ _ _ _ Hq) as [(cmd & t & -> & Hio)|(data & t & j & -> & Hj & Hio)].
  - destruct Hstem as [(o & k & t' & [= -> <- ->] & _)|(? & ? & ? & ? & _)]; [|done].
    by eapply (sim_command i t' o w s K v r kv' S p rest G D).
  - destruct Hstem as [(? & ? & ? & ? & _)|(data' & t' & j' & [= <- <- <-] & HK)]; [done|].
    pose proof (queue_read i (w_queue v) 0 _ Hqok) as Hqok'. 
    destruct W as [HP Hsn Hlog Hsrv Hcl Hck Hh]. destruct (Hsn _ _ HK) as (Hjl & Hz & Hdec).
    pose proof (applier_snapshot_raft j t data _ _ Hap) as Hrf. rewrite with_node_rf in Hrf.
    rewrite (flush_id i kv' _ r Hr Hrf). unfold read_oldest. eexists _, K. split.
    + eapply rtc_once, (l_snapshot s i S p j t data kv'); [done|lia|done|done|by rewrite Hkv].
    + split; simpl; try done. eapply srvs_rel_insert_same; [done|]. exists r. split; [done|]. simpl. rewrite unread_read, Hu.
      split_and!; [symmetry; by apply set_rf_id|done|done|done].
Qed.

Lemma sim_step e w s K w' G D : wrel n w s K -> linv s G D -> finds_term e w = true -> oldest_first e w = true ->
  wexec e w = Some w' -> exists s' K', rtc lstep s s' /\ wrel n w' s' K'.
Proof.
  intros W I Hf Ho He. destruct e as [c r|c i|c|c|a|i k timeout|i k|i now mx].
  1-4: destruct (sim_clerks _ _ _ _ _ W He Logic.I) as (s' & ? & ?); eauto.
  - destruct (sim_raft _ _ _ _ _ W Hf He) as (s' & ? & ?); eauto.
  - destruct (sim_handler _ _ _ _ _ _ _ W He) as (s' & ? & ?); eauto.
  - apply bool_decide_eq_true in Ho as ->. by eapply sim_apply.
  - destruct (sim_restart _ _ _ _ _ _ _ W He) as (s' & ? & ?); eauto.
Qed.

Lemma sim_run es : forall w s K w' G D, wrel n w s K -> linv s G D ->
  along wexec finds_term es w = true -> along wexec oldest_first es w = true -> wrun es w = Some w' ->
  exists s' K', rtc lstep s s' /\ wrel n w' s' K'.
Proof.
  induction es as [|e es IH]; intros w s K w' G D W I Hf Ho Hr; simpl in *; [injection Hr as <-; eexists _, _; split; [apply rtc_refl|done]|].
  apply bind_Some in Hr as (w1 & He & Hr). rewrite He in Hf, Ho.
  apply andb_prop in Hf as [Hf1 Hf]. apply andb_prop in Ho as [Ho1 Ho].
  destruct (sim_step _ _ _ _ _ _ _ W I Hf1 Ho1 He) as (s1 & K1 & Hs1 & W1).
  destruct (linv_run _ _ _ _ Hs1 I) as (G1 & D1 & I1). destruct (IH _ _ _ _ _ _ W1 I1 Hf Ho Hr) as (s' & K' & Hs' & W').
  exists s', K'. split; [by etrans|done].
Qed.

(** ** The appliers, in whatever order they read

    For each server the system of [KVRaftSys]: it tells which results were put on
    which channels.  A command that waits has not been read before, and its peer has
    applied its index. *)

Definition srv_live c (P : list (Z * Z * Op)) (i : Z) (v : WSrv) : Prop := exists r (S : Sys (R := Peer)) cidx,
  nodes c !! i = Some r /\ s_kv S = with_node r (w_kv v) /\ s_calls S = w_calls v /\ sys_inv S cidx /\
  (forall x, x ∈ s_started S -> x ∈ P) /\ queue_ok i (w_queue v) c /\ Forall proper (unread i (w_queue v) c) /\
  StronglySorted Z.lt (cmd_indices (unread i (w_queue v) c)) /\
  forall k, k ∈ cmd_indices (unread i (w_queue v) c) -> (k ∉ s_seen S) /\ k <= lastApplied r.

Definition lives c (ws : gmap Z WSrv) (P : list (Z * Z * Op)) : Prop := forall i v, ws !! i = Some v -> srv_live c P i v.

Lemma srv_live_frame c c' P P' i v : srv_live c P i v -> nodes c' !! i = nodes c !! i -> received i c' = received i c ->
  P ⊆ P' -> srv_live c' P' i v.
Proof.
  intros (r & S & cidx & Hi & Hkv & Hcs & Hinv & Hst & Hq & Hp & Hs & Hk) Hn Hr HP.
  destruct (queue_same _ _ _ _ Hq Hr) as [Hq' Hu]. exists r, S, cidx. rewrite Hn, Hu. split_and!; auto.
Qed.

Lemma lives_insert c c' ws P P' i v : lives c ws P -> srv_live c' P' i v -> P ⊆ P' ->
  (forall j, j <> i -> nodes c' !! j = nodes c !! j /\ received j c' = received j c) -> lives c' (<[i := v]> ws) P'.
Proof.
  intros Hall Hv HP Hrest j u [[<- <-]|[Hne Hu]]%lookup_insert_Some; [done|].
  destruct (Hrest j (not_eq_sym Hne)) as [Hn Hr]. eapply srv_live_frame; [by apply Hall|done..].
Qed.

(** A request arrives. *)
Lemma live_send c P i v cl : srv_live c P i v -> is_initial cl = true ->
  srv_live c P i (mkWSrv (w_kv v) (w_calls v ++ [cl]) (w_queue v)).
Proof.
  intros (r & S & cidx & Hi & Hkv & Hcs & Hinv & Hst & Hq) Hc.
  destruct (kv_step_inv _ _ _ (step_invoke S cl Hc) Hinv) as [cidx' Hinv'].
  eexists r, _, cidx'. split_and!; [done| | |exact Hinv'|done|apply Hq..]; simpl; [done|by rewrite Hcs].
Qed.

(** The peer posts messages. *)
Lemma live_posted c c' P i v r r' ms : srv_live c P i v -> nodes c !! i = Some r -> nodes c' !! i = Some r' -> node_ok r' ->
  received i c' = received i c ++ ms -> in_order (lastApplied r) ms (lastApplied r') -> currentTerm r <= currentTerm r' ->
  srv_live c' P i v.
Proof.
  intros (r0 & S & cidx & Hi & Hkv & Hcs & Hinv & Hst & Hq & Hp & Hs & Hk) Hr Hr' Hok Hrec Hio Ht. assert (r0 = r) as -> by congruence.
  destruct (queue_posted _ _ _ _ _ Hq Hrec) as [Hq' Hu]. destruct (in_order_indices _ _ _ Hio) as [Hms Hb].
  pose proof (in_order_le _ _ _ Hio) as Hle. rewrite Forall_forall in Hb.
  eexists r', (mkSys (set_rf (r', []) (s_kv S)) _ _ _ _), cidx. rewrite Hu, cmd_indices_app.
  split_and!; [done|by rewrite Hkv|exact Hcs| |exact Hst|done| | |]; simpl.
  - eapply inv_raft; [done|done|unfold term_of; by rewrite Hkv|by rewrite Hkv].
  - apply Forall_app. split; [done|by eapply in_order_proper].
  - apply sorted_app; [done|done|]. intros x y Hx Hy. specialize (Hb y Hy). destruct (Hk x Hx). simpl in *. lia.
  - intros k [Hin|Hin]%elem_of_app; [destruct (Hk k Hin); split; [done|lia]|]. specialize (Hb k Hin). simpl in Hb.
    split; [|lia]. intros Hseen%(si_seen _ _ Hinv). rewrite Hkv in Hseen. simpl in Hseen. lia.
Qed.

(** A handler. *)
Lemma live_handler c P K i v r k timeout cl cl' kv' : promised n c P K -> srv_live c P i v -> nodes c !! i = Some r ->
  w_calls v !! k = Some cl -> call_step timeout cl (with_node r (w_kv v)) = Ret (cl', kv') ->
  exists P', promised n (flush i kv' c) P' K /\ P ⊆ P' /\
    srv_live (flush i kv' c) P' i (mkWSrv kv' (<[k := cl']> (w_calls v)) (w_queue v)) /\
    delivered (flush i kv' c) = delivered c /\ forall j, j <> i -> nodes (flush i kv' c) !! j = nodes c !! j.
Proof.
  intros HP (r0 & S & cidx & Hi & Hkv & Hcs & Hinv & Hst & Hq & Hp & Hs & Hk) Hr Hcl Hstep. assert (r0 = r) as -> by congruence.
  destruct (flush_handler _ _ _ _ _ _ _ _ _ _ _ HP Hr Hstep eq_refl) as (HP' & Hfresh & Hdl & r' & eff & Hrf & Hn & Hg & Hla).
  exists (started_by cl cl' ++ P). split_and!; [done|set_solver| |done|intros j Hj; by rewrite Hn, lookup_insert_ne].
  pose proof (promised_node_ok n _ _ _ i r' HP' ltac:(rewrite Hn; apply lookup_insert_eq)) as Hok.
  assert (exists cidx', sys_inv (mkSys kv' (<[k := cl']> (s_calls S)) (started_by cl cl' ++ s_started S) (s_notified S) (s_seen S)) cidx')
    as [cidx' Hinv'].
  { eapply kv_step_inv, Hinv. eapply (step_handler S k timeout cl cl' kv'); [by rewrite Hcs|by rewrite Hkv|].
    intros idx t op op' Hin Hin'. eapply Hfresh; [done|]. by apply Hst. }
  destruct (queue_same _ _ _ _ Hq (received_same _ _ i Hdl)) as [Hq' Hu].
  eexists r', (mkSys (set_rf (r', []) kv') _ _ _ _), cidx'. cbn [w_queue]. rewrite Hu, Hla.
  split_and!; [by rewrite Hn, lookup_insert_eq|done|simpl; by rewrite <- Hcs| | |done..|exact Hk].
  - eapply (inv_raft _ cidx' (r', [])) in Hinv'; [exact Hinv'|done|unfold term_of; simpl; by rewrite Hrf|simpl; by rewrite Hrf].
  - simpl. set_solver.
Qed.

(** What the applier can read, it processes. *)
Lemma live_processes c P K i v r k m : promised n c P K -> srv_live c P i v -> nodes c !! i = Some r ->
  unread i (w_queue v) c !! k = Some m -> exists kv', applier m (with_node r (w_kv v)) = Ret kv'.
Proof.
  intros HP (r0 & S & cidx & Hi & Hkv & Hcs & Hinv & Hst & [_ Hq] & Hp & Hs & Hk) Hr Hm. assert (r0 = r) as -> by congruence.
  apply list_elem_of_lookup_2 in Hm.
  destruct (promised_msg n _ _ _ i m HP) as [(o & j & t & -> & _)|(data & t & j & -> & _)]; [by apply elem_of_received, Hq|..].
  - destruct (Hk j) as [Hns Hle]; [apply elem_of_cmd_indices; by eexists|].
    destruct (inv_applier_returns S cidx j t o Hinv Hns) as [[Hap _]|(_ & r' & Hap & _)]; [by rewrite Hkv|rewrite Hkv in Hap; by eexists..].
  - unfold applier. simpl. case_decide; by eexists.
Qed.

(** The applier reads. *)
Lemma live_read c P K i v r k m kv' : promised n c P K -> srv_live c P i v -> nodes c !! i = Some r ->
  sendable (unread i (w_queue v) c) k = true -> unread i (w_queue v) c !! k = Some m -> applier m (with_node r (w_kv v)) = Ret kv' ->
  exists K', promised n (flush i kv' c) P K' /\
    srv_live (flush i kv' c) P i (mkWSrv kv' (w_calls v) (read_queue i (w_queue v) k c)) /\
    delivered (flush i kv' c) = delivered c /\ (forall j, j <> i -> nodes (flush i kv' c) !! j = nodes c !! j).
Proof.
  intros HP (r0 & S & cidx & Hi & Hkv & Hcs & Hinv & Hst & Hq & Hp & Hs & Hk) Hr Hsend Hm Ha. assert (r0 = r) as -> by congruence.
  pose proof (sendable_commands _ _ _ Hp Hsend Hm) as Hcmd. pose proof (queue_read i (w_queue v) k c Hq) as Hq'.
  assert (Forall proper (delete k (unread i (w_queue v) c))) as Hp'.
  { apply Forall_forall. intros x Hx%list_elem_of_delete_inv. rewrite Forall_forall in Hp. by apply Hp. }
  destruct (promised_msg n _ _ _ i m HP) as [(o & j & t & -> & Hin)|(data & t & j & -> & _)];
    [apply elem_of_received, Hq; by eapply list_elem_of_lookup_2|..]; simpl in Hcmd; rewrite Hcmd in Hs, Hk.
  - destruct (Hk j ltac:(by left)) as [Hns Hle]. apply StronglySorted_inv in Hs as [Hs Hj].
    destruct (flush_applier _ _ _ _ _ _ _ _ _ _ _ HP Hr Hle Ha eq_refl) as (K' & r' & HP' & Hrf & Hn & Hdl & Hla & _).
    exists K'. split_and!; [done| |done|intros x Hx; by rewrite Hn, lookup_insert_ne].
    destruct (queue_same _ _ _ _ Hq' (received_same _ _ i Hdl)) as [Hq2 Hu]. rewrite <- Hkv in Ha.
    eexists r', (mkSys kv' _ _ _ _), cidx. cbn [w_queue]. rewrite Hu, unread_read, Hla.
    split_and!; [by rewrite Hn, lookup_insert_eq|symmetry; by apply set_rf_id|exact Hcs|eapply (kv_inv_command S cidx j t o); try done|..]; try done.
    + by rewrite Hkv.
    + intros op' Hop'. eapply (promised_fun n); [done|by apply Hst|done].
    + intros x Hx. destruct (Hk x ltac:(by right)) as [Hx1 Hx2]. split; [|done]. simpl. rewrite Forall_forall in Hj.
      specialize (Hj x Hx). apply not_elem_of_union. split; [|done]. intros ->%elem_of_singleton. lia.
  - pose proof (applier_snapshot_raft j t data _ _ Ha) as Hrf. rewrite with_node_rf in Hrf.
    rewrite (flush_id i kv' c r Hr Hrf). exists K. split_and!; [done| |done|done]. rewrite <- Hkv in Ha.
    eexists r, (mkSys kv' _ _ _ _), cidx. cbn [w_queue]. rewrite unread_read.
    split_and!; [done|symmetry; by apply set_rf_id|exact Hcs|by eapply (inv_snapshot S cidx j t data)|exact Hst|done..|exact Hk].
Qed.

(** A server starts. *)
Lemma live_start c P i r mx : nodes c !! i = Some r -> node_ok r ->
  srv_live c P i (mkWSrv (StartKVServer i (r, []) mx) [] (new_queue i c)).
Proof.
  intros Hi Hok. exists r, (sys_init (StartKVServer i (r, []) mx)), (fun _ => 0). simpl. rewrite unread_new.
  assert (waitChMap (StartKVServer i (r, []) mx) = ∅ /\ chans (StartKVServer i (r, []) mx) = ∅) as [Hw Hc].
  { unfold StartKVServer, KVRaft.readPersist. case_decide; [done|]. by destruct (gob_decode _ ≫= _) as [[? ?]|]. }
  split_and!; try done; [symmetry; apply set_rf_id, StartKVServer_rf| |by intros x ?%elem_of_nil|apply queue_new|constructor..|
    by intros k ?%elem_of_nil].
  split; simpl; rewrite ?Hw, ?Hc, ?StartKVServer_rf; try done; set_solver.
Qed.

Lemma lives_same c c' ws P : lives c ws P -> (forall j, nodes c' !! j = nodes c !! j /\ received j c' = received j c) -> lives c' ws P.
Proof. intros Hall Hj i v Hv. destruct (Hj i). by eapply srv_live_frame; [by apply Hall|..]. Qed.

(** The cluster by itself. *)
Lemma lives_raft a c P K c' ws : promised n c P K -> lives c ws P -> raft_only a = true -> admissible a c = true ->
  RaftCluster.exec a c = Some c' -> promised n c' P K /\ lives c' ws P.
Proof.
  intros HP Hall Hro Hadm He. pose proof (promised_exec n _ _ _ _ _ HP Hadm He) as HP'.
  assert (asked_by a c = [] /\ taken_by a = [] /\ forall i, restarts i a = false) as (Hask & Htk & Hre) by (by destruct a).
  rewrite Hask, Htk in HP'. simpl in HP'. split; [done|].
  destruct (promised_step n _ _ _ _ _ HP Hadm He Hre) as [(j & r & r' & ms & Hj & Hn & Hrec & Hio & Hterm)|[Hn Hrec]].
  - intros i v Hv. specialize (Hrec i). destruct (decide (j = i)) as [->|Hne].
    + eapply (live_posted c c' P i v r r' ms); [by apply Hall|done| | |done..]; [by rewrite Hn, lookup_insert_eq|].
      eapply (promised_node_ok n); [done|]. rewrite Hn. apply lookup_insert_eq.
    + rewrite app_nil_r in Hrec. eapply srv_live_frame; [by apply Hall|by rewrite Hn, lookup_insert_ne|done|done].
  - eapply lives_same; [done|]. intros j. by rewrite Hn.
Qed.

(** A crash and a restart. *)
Lemma lives_restart i now mx c P K c' r ws : promised n c P K -> lives c ws P ->
  RaftCluster.exec (ARestart i now) c = Some c' -> nodes c' !! i = Some r ->
  promised n c' P K /\ lives c' (<[i := mkWSrv (StartKVServer i (r, []) mx) [] (new_queue i c')]> ws) P.
Proof.
  intros HP Hall He Hr. pose proof (promised_exec n _ _ _ (ARestart i now) _ HP eq_refl He) as HP'. split; [done|].
  simpl in He. apply bind_Some in He as (r0 & Hi & He). apply bind_Some in He as ([r2 eff] & Hm & Hc'). injection Hc' as Hc'.
  destruct (Make_tables _ _ _ _ _ _ Hm) as (_ & _ & ->).
  assert (delivered c' = delivered c) as Hd by (rewrite <- Hc'; simpl; by rewrite app_nil_r).
  eapply lives_insert; [done| |done|].
  - apply live_start; [done|]. by eapply (promised_node_ok n).
  - intros j Hj. split; [rewrite <- Hc'; simpl; by rewrite lookup_insert_ne|by apply received_same].
Qed.

Lemma call_of_initial o : is_initial (call_of o) = true.
Proof. unfold call_of. by case_match. Qed.

Lemma lives_step e w P K w' : promised n (w_raft w) P K -> lives (w_raft w) (w_srvs w) P -> finds_term e w = true ->
  wexec e w = Some w' -> exists P' K', promised n (w_raft w') P' K' /\ lives (w_raft w') (w_srvs w') P'.
Proof.
  intros HP Hall Hf He. destruct e as [c r|c i|c|c|a|i k timeout|i k|i now mx]; cbn [wexec] in He.
  - apply bind_Some in He as (x & _ & He). destruct (c_cur x); [done|]. case_guard; [|done]. injection He as <-. by exists P, K.
  - apply bind_Some in He as (x & _ & He). apply bind_Some in He as (v & Hv & He).
    destruct (c_cur x) as [[[o call] [?|]]|]; try done. injection He as <-. exists P, K. split; [done|].
    eapply lives_insert; [done|apply live_send; [by apply Hall|apply call_of_initial]|done|done].
  - apply bind_Some in He as (x & _ & He). apply bind_Some in He as ([[o call] a] & _ & He). injection He as <-. by exists P, K.
  - apply bind_Some in He as (x & _ & He). destruct (c_cur x) as [[[o call] [[i k]|]]|]; try done.
    apply bind_Some in He as (v & _ & He). apply bind_Some in He as (cl & _ & He).
    destruct (call_pc cl) as [[| | | | |[er val]]|]; try done. case_guard; [|done]. injection He as <-. by exists P, K.
  - apply bind_Some in He as (Hro & _ & He). apply bind_Some in He as (c' & He & Hw). injection Hw as <-.
    exists P, K. by eapply lives_raft.
  - apply bind_Some in He as (v & Hv & He). apply bind_Some in He as (r & Hr & He). apply bind_Some in He as (cl & Hk & He).
    apply bind_Some in He as ([cl' kv'] & Hs & He). injection He as <-.
    destruct (call_step timeout cl (with_node r (w_kv v))) as [[cl0 kv0]| |] eqn:Hcs; try done. injection Hs as -> ->.
    destruct (live_handler _ _ _ i v r k timeout cl cl' kv' HP (Hall i v Hv) Hr Hk Hcs) as (P' & HP' & Hsub & Hv' & Hd & Hn).
    exists P', K. split; [done|]. eapply lives_insert; [done|done|done|]. intros j Hj. split; [by apply Hn|by apply received_same].
  - apply bind_Some in He as (v & Hv & He). apply bind_Some in He as (r & Hr & He). case_guard as Hsend; [|done]. simpl in He.
    apply bind_Some in He as (m & Hm & He). apply bind_Some in He as (kv' & Ha & He). injection He as <-.
    destruct (applier m (with_node r (w_kv v))) as [kv0| |] eqn:Hap; try done. injection Ha as ->.
    destruct (live_read _ _ _ i v r k m kv' HP (Hall i v Hv) Hr Hsend Hm Hap) as (K' & HP' & Hv' & Hd & Hn).
    exists P, K'. split; [done|]. eapply lives_insert; [done|done|done|]. intros j Hj. split; [by apply Hn|by apply received_same].
  - apply bind_Some in He as (c' & He & Hw). apply bind_Some in Hw as (r & Hr & Hw). injection Hw as <-.
    exists P, K. by eapply lives_restart.
Qed.

Lemma lives_run es : forall w P K w', promised n (w_raft w) P K -> lives (w_raft w) (w_srvs w) P ->
  along wexec finds_term es w = true -> wrun es w = Some w' -> exists P' K', promised n (w_raft w') P' K' /\ lives (w_raft w') (w_srvs w') P'.
Proof.
  induction es as [|e es IH]; intros w P K w' HP Hall Hf Hr; simpl in *; [injection Hr as <-; by exists P, K|].
  apply bind_Some in Hr as (w1 & He & Hr). rewrite He in Hf. apply andb_prop in Hf as [Hf1 Hf].
  destruct (lives_step _ _ _ _ _ HP Hall Hf1 He) as (P1 & K1 & HP1 & Hall1). by eapply IH.
Qed.

Lemma lives_start now mx ids : lives (w_raft (wstart n now mx ids)) (w_srvs (wstart n now mx ids)) [].
Proof.
  intros i v Hv. simpl in *. rewrite map_lookup_imap in Hv. apply bind_Some in Hv as (r & Hi & Hv). injection Hv as <-.
  apply (live_start (cluster_init n now) [] i r mx Hi). by eapply (promised_node_ok n (cluster_init n now)), Hi; apply promised_init.
Qed.

(** C3. The appliers never get stuck.  In every state of a run in which replication
    goroutines find the term they captured, whatever an applier reads next (the next
    command of its peer, or any snapshot that is being sent, overtaken or not), it
    processes it: it does not panic, neither on a message without command nor in the
    peer's [Snapshot], and it does not block on the channel of a handler, whatever
    handlers have timed out, however leaders and snapshots have changed. *)
Theorem appliers_never_stuck now mx ids es w i v k :
  wrun es (wstart n now mx ids) = Some w -> along wexec finds_term es (wstart n now mx ids) = true ->
  w_srvs w !! i = Some v -> sendable (unread i (w_queue v) (w_raft w)) k = true -> exists w', wexec (WApply i k) w = Some w'.
Proof.
  intros Hrun Hf Hv Hs. destruct (lives_run es (wstart n now mx ids) _ _ _ (promised_init n now) (lives_start now mx ids) Hf Hrun) as (P & K & HP & Hall).
  pose proof (Hall i v Hv) as Hlive. pose proof Hlive as (r & _ & _ & Hr & _).
  destruct (unread i (w_queue v) (w_raft w) !! k) as [m|] eqn:Hm; [|unfold sendable in Hs; by rewrite Hm in Hs].
  destruct (live_processes _ _ _ i v r k m HP Hlive Hr Hm) as [kv' Ha].
  cbn [wexec]. rewrite Hv. simpl. rewrite Hr. simpl. rewrite option_guard_True by done. simpl. rewrite Hm. simpl. rewrite Ha. simpl. eauto.
Qed.

(** ** The start *)

Definition peers_of (now : Z) : gmap Z Peer := (fun r => (r, [])) <$> nodes (cluster_init n now).

Lemma peers_fresh now : fresh_peers (peers_of now).
Proof.
  intros i r Hr. unfold peers_of in Hr. rewrite lookup_fmap in Hr. destruct (nodes _ !! i) as [rf|] eqn:Hi; [|done].
  injection Hr as <-. split; [by eapply promised_node_ok, Hi; apply promised_init|]. simpl.
  destruct (promised_snapshot n _ _ _ i rf (promised_init n now) Hi) as [[_ ?]|Hin]; [done|by apply elem_of_nil in Hin].
Qed.

Lemma srvs_rel_start c mx ids : (forall i r, nodes c !! i = Some r -> received i c = [] /\ lastApplied r = 0) ->
  srvs_rel c (map_imap (fun i r => Some (mkWSrv (StartKVServer i (r, []) mx) [] (mkQueue 0 []))) (nodes c))
    (srvs (linit ((fun r => (r, [])) <$> nodes c) ids mx)).
Proof.
  intros Hc i. simpl. rewrite !map_lookup_imap, lookup_fmap. destruct (nodes c !! i) as [r|] eqn:Hi; simpl; constructor.
  destruct (Hc i r Hi) as [Hrec Ha]. exists r. unfold queue_ok, unread. simpl. rewrite Hrec, Ha.
  split_and!; try done; [|constructor]. symmetry. apply set_rf_id, StartKVServer_rf.
Qed.

Lemma wrel_start now mx ids : wrel n (wstart n now mx ids) (linit (peers_of now) ids mx) [].
Proof.
  split; try done.
  - apply promised_init.
  - intros j data Hin. by apply elem_of_nil in Hin.
  - intros k t o Hk. by apply go_index_nil in Hk.
  - apply srvs_rel_start. intros i r Hi. split; [done|].
    destruct (init_node n now i r Hi) as (eff & Hm & _). destruct (Make_recovers _ _ _ _ _ _ Hm) as (Hrec & _ & _ & _ & _ & _ & ->).
    rewrite recovered_empty in Hrec. by injection Hrec as _ _ ->.
Qed.

Lemma world_rel es now mx ids w : wrun es (wstart n now mx ids) = Some w ->
  along wexec finds_term es (wstart n now mx ids) = true -> along wexec oldest_first es (wstart n now mx ids) = true ->
  exists s K G D, wrel n w s K /\ linv s G D.
Proof.
  intros Hr Hf Ho. pose proof (linv_init (peers_of now) ids mx (peers_fresh now)) as I0.
  destruct (sim_run _ _ _ _ _ _ _ (wrel_start now mx ids) I0 Hf Ho Hr) as (s & K & Hs & W).
  destruct (linv_run _ _ _ _ Hs I0) as (G & D & I). eauto 10.
Qed.

(** C2. The replicated key/value service is linearizable, from clerk to disk.  Start
    [n] Raft peers with a key/value server on each and any number of clerks; let
    clerks call, RPCs of both layers be lost, delayed, reordered and repeated, timers
    fire, servers crash and restart from what they persisted, and appliers take and
    install snapshots.  If every replication goroutine finds the term it captured and
    every applier reads the messages of its peer in the order in which they were
    posted, then the history of calls, results and times, together with some of the
    updates that have not returned, is linearizable for a store of all keys. *)
Theorem kvraft_cluster_linearizable now mx ids es w :
  wrun es (wstart n now mx ids) = Some w ->
  along wexec finds_term es (wstart n now mx ids) = true -> along wexec oldest_first es (wstart n now mx ids) = true ->
  exists ext, completion (w_clnts w) (w_clock w) ext /\ linearizable store_step ∅ (w_hist w ++ ext).
Proof.
  intros Hr Hf Ho. destruct (world_rel _ _ _ _ _ Hr Hf Ho) as (s & K & G & D & W & I).
  rewrite (wr_hist _ _ _ _ W), (wr_clnts _ _ _ _ W), (wr_clock _ _ _ _ W). apply (linv_linearizable s G D I).
Qed.
End sim.
