(* ===== verification/KVWorldWitness.v ===== *)
(** A run of the whole service: three peers with servers, two clerks.  Peer 0 is
    elected and serves a [Put] and an [Append] that has to be repeated, taking a
    snapshot after every command; it crashes and restarts from its snapshot, peer 1
    takes over and serves a [Get]. *)

From S2P Require Import Prelude Porcupine PorcupineOps Models.
From S2P Require Import Gob Persister RaftTypes RaftNode RaftCluster RaftSafety RaftServices RaftRuns RaftApi.
From S2P Require Import KVRaft KVRaftSpec KVRaftSys KVLin KVLinSpec KVWorld KVWorldSim.
Local Open Scope Z_scope.

#[local] Instance world_gob `{Countable A} : Gob A := countable_gob.
#[local] Instance world_gob_laws `{Countable A} : GobLaws A := countable_gob_laws.

(** A script: events, and moves of the cluster by the names of [RaftRuns]. *)
Inductive Scene := Ev (e : WEvent) | Mv (m : Move Op).

Definition scene_event (x : Scene) (w : World) : WEvent :=
  match x with
  | Ev e => e
  | Mv (Do a) => WRaft a
  | Mv (Hand k src dst term) => WRaft (ADeliver (position (k, src, dst, term) (rpcs (w_raft w))) 5000)
  end.

Fixpoint perform (xs : list Scene) (w : World) : list WEvent :=
  match xs with
  | [] => []
  | x :: xs =>
      let e := scene_event x w in
      e :: match wexec e w with Some w' => perform xs w' | None => [] end
  end.

Definition handler (i : Z) (k m : nat) : list Scene := repeat (Ev (WHandler i k false)) m.
Definition script : list Scene :=
  (Mv <$> elect 0 1 [1]) ++
  [Ev (WInvoke 7 (RPut "k" "a")); Ev (WSend 7 0)] ++ handler 0 0 3 ++
  (Mv <$> push 0 1 1) ++ [Mv (Do (AApply 0)); Ev (WApply 0 0)] ++ handler 0 0 3 ++ [Ev (WReply 7)] ++
  [Ev (WInvoke 8 (RAppend "k" "b")); Ev (WSend 8 1)] ++ handler 1 0 2 ++ [Ev (WFail 8); Ev (WSend 8 0)] ++ handler 0 1 3 ++
  (Mv <$> push 0 1 1) ++ [Mv (Do (AApply 0)); Ev (WApply 0 0); Ev (WHandler 0 1 true)] ++ handler 0 1 1 ++
  [Ev (WFail 8); Ev (WSend 8 0)] ++ handler 0 2 1 ++ [Ev (WReply 8)] ++
  [Ev (WRestart 0 20000 0)] ++ (Mv <$> elect 1 2 [2]) ++
  [Ev (WInvoke 7 (RGet "k")); Ev (WSend 7 1)] ++ handler 1 1 2 ++
  (Mv <$> push 1 2 2 ++ push 1 2 2) ++ [Mv (Do (AApply 1)); Ev (WApply 1 0); Ev (WApply 1 0); Ev (WApply 1 0)] ++ handler 1 1 3 ++ [Ev (WReply 7)].

Definition world0 : World := wstart 3 0 0 {[7; 8]}.
Definition events : list WEvent := perform script world0.
Definition world1 : World := default world0 (wrun events world0).

(** All events happened; the history. *)
Example all_played : length events = length script /\ is_Some (wrun events world0).
Proof. vm_compute. split; [reflexivity|eexists; reflexivity]. Qed.
Example world_results : map (fun r => (oClientId r, Output r)) (w_hist world1) =
  [(7, VOutput (mkKvOutput "")); (8, VOutput (mkKvOutput "")); (7, VOutput (mkKvOutput "ab"))].
Proof. vm_compute. reflexivity. Qed.

(** Client 8 appends, and the command is executed, before it hears of it. *)
Definition world_open : World := default world0 (wrun (firstn 33 events) world0).
Example world_open_calls : length (w_hist world_open) = 1%nat /\ (fun x => bool_decide (is_Some (c_cur x))) <$> w_clnts world_open !! 8 = Some true.
Proof. vm_compute. split; reflexivity. Qed.

Lemma kvraft_cluster_linearizable_witness :
  length (w_hist world1) = 3%nat /\ linearizable store_step ∅ (w_hist world1) /\
  exists ext, completion (w_clnts world_open) (w_clock world_open) ext /\ linearizable store_step ∅ (w_hist world_open ++ ext).
Proof.
  split; [vm_compute; reflexivity|]. split.
  - destruct (kvraft_cluster_linearizable 3 0 0 {[7; 8]} events world1) as (ext & Hext & Hlin).
    + vm_compute. reflexivity.
    + vm_compute. reflexivity.
    + vm_compute. reflexivity.
    + rewrite (completion_idle (w_clnts world1) (w_clock world1) ext), app_nil_r in Hlin; [exact Hlin| |exact Hext].
      apply (bool_decide_unpack (map_Forall (fun _ x => c_cur x = None) (w_clnts world1))). vm_compute. exact I.
  - apply (kvraft_cluster_linearizable 3 0 0 {[7; 8]} (firstn 33 events) world_open); vm_compute; reflexivity.
Defined.

(** * A snapshot that is overtaken

    Server 2 is brought up to date with two snapshots, of index 1 and of index 2.
    Each is sent by the goroutine of its own RPC, after the lock is released, and the
    second is read first.  The applier then installs the first as well, because it
    sets [lastIncludedIndex] to the [CommandIndex] of a snapshot message, which is 0.
    Server 2 is elected and answers a [Get] from the state of index 1. *)
Definition lossy_script : list Scene :=
  (Mv <$> elect 0 1 [1]) ++
  [Ev (WInvoke 7 (RPut "k" "a")); Ev (WSend 7 0)] ++ handler 0 0 3 ++
  (Mv <$> push 0 1 1) ++ [Mv (Do (AApply 0)); Ev (WApply 0 0)] ++ handler 0 0 3 ++ [Ev (WReply 7)] ++
  (Mv <$> [Do (AHeartBeat 0 1); Hand Goroutine 0 2 1; Hand InstallReq 0 2 1; Hand InstallRep 0 2 1]) ++
  [Ev (WInvoke 8 (RAppend "k" "b")); Ev (WSend 8 0)] ++ handler 0 1 3 ++
  (Mv <$> push 0 1 1) ++ [Mv (Do (AApply 0)); Ev (WApply 0 0)] ++ handler 0 1 3 ++ [Ev (WReply 8)] ++
  (Mv <$> [Do (AHeartBeat 0 1); Hand Goroutine 0 2 1; Hand InstallReq 0 2 1; Hand InstallRep 0 2 1]) ++
  [Ev (WApply 2 1); Ev (WApply 2 0)] ++ (Mv <$> elect 2 2 [1]) ++
  [Ev (WInvoke 7 (RGet "k")); Ev (WSend 7 2)] ++ handler 2 0 2 ++
  (Mv <$> push 2 1 2) ++ [Mv (Do (AApply 2)); Ev (WApply 2 0)] ++ handler 2 0 3 ++ [Ev (WReply 7)].

Definition lossy_events : list WEvent := perform lossy_script world0.
Definition lossy : World := default world0 (wrun lossy_events world0).
Example lossy_played : length lossy_events = length lossy_script /\ is_Some (wrun lossy_events world0).
Proof. vm_compute. split; [reflexivity|eexists; reflexivity]. Qed.
Example lossy_results : map (fun r => (oClientId r, Output r)) (w_hist lossy) =
  [(7, VOutput (mkKvOutput "")); (8, VOutput (mkKvOutput "")); (7, VOutput (mkKvOutput "a"))].
Proof. vm_compute. reflexivity. Qed.

(** Whether an order of operations respects real time, and replays. *)
Fixpoint timely (l : list (Operation KvVal)) : bool :=
  match l with [] => true | o :: l => forallb (fun o' => bool_decide (~ Porcupine.Return o' < Porcupine.Call o)) l && timely l end.
Fixpoint replays (d : gmap string string) (l : list (Operation KvVal)) : bool :=
  match l with
  | [] => true
  | o :: l => match store_step d (Input o) (Output o) with Some (true, d) => replays d l | _ => false end
  end.

Lemma timely_sorted l : StronglySorted may_precede l -> timely l = true.
Proof.
  induction 1 as [|o l _ IH Hall]; [done|]. simpl. rewrite IH, andb_true_r. apply forallb_forall. intros o' Ho'%list_elem_of_In.
  rewrite Forall_forall in Hall. by apply bool_decide_eq_true, Hall.
Qed.
Lemma legal_replays l : forall d, legal store_step d l -> replays d l = true.
Proof. induction l as [|o l IH]; intros d; simpl; [done|]. intros (d' & -> & Hl). by apply IH. Qed.

Lemma not_linearizable ops : existsb (fun l => timely l && replays ∅ l) (permutations ops) = false ->
  ~ linearizable store_step ∅ ops.
Proof.
  intros Hno (l & Hp & Hs & Hl). apply not_true_iff_false in Hno. apply Hno, existsb_exists. exists l.
  rewrite (timely_sorted _ Hs), (legal_replays _ _ Hl). split; [|done]. by apply list_elem_of_In, permutations_Permutation.
Qed.

(** C40. Snapshots that overtake each other lose writes.  raft.go sends a snapshot after
    it has released the lock and kvraft/server.go records 0 as its index.  In a run of
    three servers in which every goroutine finds its term, no message is lost and no
    server crashes, one server reads two snapshots in the opposite order, goes back to
    the state of the older one, is elected, and answers a [Get] without an [Append] that
    had returned: the history is not linearizable. *)
Theorem overtaken_snapshot_loses_write : exists es w,
  wrun es (wstart 3 0 0 {[7; 8]}) = Some w /\ along wexec finds_term es (wstart 3 0 0 {[7; 8]}) = true /\
  widle w /\ ~ linearizable store_step ∅ (w_hist w).
Proof.
  exists lossy_events, lossy. split; [vm_compute; reflexivity|]. split; [vm_compute; reflexivity|]. split.
  - apply (bool_decide_unpack (map_Forall (fun _ x => c_cur x = None) (w_clnts lossy))). vm_compute. exact I.
  - apply not_linearizable. vm_compute. reflexivity.
Qed.

(** Before server 2 reads the second snapshot first. *)
Definition two_snapshots : World := default world0 (wrun (firstn 39 lossy_events) world0).

Lemma appliers_never_stuck_witness : exists w', wexec (WApply 2 1) two_snapshots = Some w'.
Proof.
  destruct (w_srvs two_snapshots !! 2) as [v|] eqn:Hv; [|exfalso; vm_compute in Hv; discriminate Hv].
  apply (appliers_never_stuck 3 0 0 {[7; 8]} (firstn 39 lossy_events) two_snapshots 2 v 1);
    [vm_compute; reflexivity|vm_compute; reflexivity|exact Hv|].
  assert ((fun v => sendable (unread 2 (w_queue v) (w_raft two_snapshots)) 1) <$> w_srvs two_snapshots !! 2 = Some true) as Hs by (vm_compute; reflexivity).
  rewrite Hv in Hs. by injection Hs.
Defined.
