(* ===== verification/PorcupineWitness.v ===== *)
(** The checker on small histories of two keys. *)

From Stdlib Require Import String.
From S2P Require Import Prelude Bitset Porcupine PorcupineHeap PorcupineSearch PorcupineSpec PorcupineOps PorcupineCheck PorcupineViz Models.
Local Open Scope Z_scope.

(** * A concrete sort *)

Definition rank {V} (e : entry V) : Z := 2 * time e + match kind e with callEntry => 0 | returnEntry => 1 end.

Lemma Less_rank {V} (a b : entry V) : Less a b = bool_decide (rank a < rank b).
Proof.
  unfold Less, rank. destruct a as [ka va ia ta ca], b as [kb vb ib tb cb]. simpl.
  case_decide as E.
  - apply bool_decide_ext. destruct ka, kb; lia.
  - destruct ka, kb; simpl; symmetry; (apply bool_decide_eq_true || apply bool_decide_eq_false); lia.
Qed.

Definition by_time {V} (a b : entry V) : Prop := Less b a = false.
#[local] Instance by_time_dec {V} (a b : entry V) : Decision (by_time a b).
Proof. unfold by_time. apply _. Defined.

Lemma by_time_rank {V} (a b : entry V) : by_time a b <-> rank a <= rank b.
Proof. unfold by_time. rewrite Less_rank, bool_decide_eq_false. lia. Qed.

Definition ex_sort_time {V} (l : list (entry V)) : list (entry V) := merge_sort by_time l.
Lemma ex_sort_time_perm {V} (l : list (entry V)) : ex_sort_time l ≡ₚ l.
Proof. apply merge_sort_Permutation. Qed.
Lemma ex_sort_time_sorted {V} (l : list (entry V)) :
  StronglySorted (fun a b => Less b a = false) (ex_sort_time l).
Proof.
  assert (Transitive (@by_time V)) by (intros a b c; rewrite !by_time_rank; lia).
  assert (Total (@by_time V)) by (intros a b; rewrite !by_time_rank; lia).
  apply (StronglySorted_merge_sort by_time).
Qed.

(** * Histories *)

Definition get_op (k v : string) (c r : Z) : Operation KvVal :=
  mkOperation 0 (VInput (mkKvInput 0 k "")) c (VOutput (mkKvOutput v)) r.
Definition put_op (k v : string) (c r : Z) : Operation KvVal :=
  mkOperation 0 (VInput (mkKvInput 1 k v)) c (VOutput (mkKvOutput "")) r.
Definition append_op (k v : string) (c r : Z) : Operation KvVal :=
  mkOperation 0 (VInput (mkKvInput 2 k v)) c (VOutput (mkKvOutput "")) r.

(** The get overlaps the appends: it may see the first without the second. *)
Definition good_history : list (Operation KvVal) :=
  [append_op "x" "b" 0 10; append_op "x" "a" 1 6; get_op "x" "a" 5 12; put_op "y" "1" 2 3; get_op "y" "1" 4 5].
(** The last get returns a value that was overwritten before it was called. *)
Definition stale_history : list (Operation KvVal) :=
  [put_op "x" "1" 0 1; put_op "y" "1" 0 9; put_op "x" "2" 2 3; get_op "x" "1" 4 5].

Definition ex_fmt_op (i o : KvVal) : string := "".
Definition ex_fmt_state (s : string) : string := "".
Abbreviation ex_check := (CheckOperations VNil ex_fmt_op ex_fmt_state ex_sort_time KvModel).
Abbreviation never := (fun _ _ : nat => false).

(** The executable checker on both. *)
Example check_good : ex_check 100 good_history never [SResult 1; SResult 0] = Some true.
Proof. vm_compute. reflexivity. Qed.
Example check_stale : ex_check 100 stale_history never [SResult 1; SResult 0] = Some false.
Proof. vm_compute. reflexivity. Qed.

Lemma typed_ops (l : list (Operation KvVal)) :
  forallb (fun o => match Input o, Output o with VInput _, VOutput _ => Call o <=? Return o | _, _ => false end) l = true ->
  Forall typed l /\ Forall (fun o => Call o <= Return o) l.
Proof.
  induction l as [|o l IH]; simpl; [done|]. intros [Ho Hl]%andb_true_iff. destruct (IH Hl).
  destruct (Input o) as [i| |] eqn:Ei; try done. destruct (Output o) as [|r|] eqn:Er; try done.
  split; constructor; try done; [by exists i, r|lia].
Qed.

Definition stale_parts : list (list (Operation KvVal)) :=
  [[put_op "x" "1" 0 1; put_op "x" "2" 2 3; get_op "x" "1" 4 5]; [put_op "y" "1" 0 9]].

Lemma kv_checker_correct_witness :
  exists k, forall fuel, (k <= fuel)%nat -> exists b,
    ex_check fuel stale_history never (map SResult [1; 0]%nat) = Some b /\
    (b = true <-> linearizable store_step ∅ stale_history).
Proof.
  apply (kv_checker_correct ex_fmt_op ex_fmt_state ex_sort_time ex_sort_time_perm ex_sort_time_sorted
    stale_history stale_parts [1; 0]%nat).
  - discriminate.
  - by apply typed_ops.
  - by apply typed_ops.
  - vm_compute. reflexivity.
  - apply perm_swap.
Defined.

Lemma ex_equal_sound s t : default ShallowEqual (Equal KvModel) s t = true -> s = t.
Proof. apply bool_decide_eq_true. Qed.

Lemma stale_parts_typed p : p ∈ stale_parts -> Forall typed p /\ Forall (fun o => Call o <= Return o) p.
Proof.
  intros Hp. apply typed_ops. apply elem_of_cons in Hp as [->|Hp]; [done|].
  apply elem_of_cons in Hp as [->|Hp]; [done|]. by apply not_elem_of_nil in Hp.
Qed.

Lemma stale_parts_ok p : p ∈ stale_parts -> part_ok KvModel p.
Proof.
  intros Hp. destruct (stale_parts_typed p Hp) as [Ht Hc].
  split; [done|]. intros s o Ho. rewrite Forall_forall in Ht. by apply KvStep_typed, Ht.
Qed.

Lemma CheckOperations_decides_witness :
  exists k, forall fuel, (k <= fuel)%nat -> exists b,
    ex_check fuel stale_history never (map SResult [0; 1]%nat) = Some b /\
    (b = true <-> forall p, p ∈ stale_parts -> linearizable KvStep "" p).
Proof.
  refine (CheckOperations_decides VNil ex_fmt_op ex_fmt_state ex_sort_time ex_sort_time_perm ex_sort_time_sorted
    KvModel ex_equal_sound stale_history stale_parts _ stale_parts_ok [0; 1]%nat _ _).
  - vm_compute. reflexivity.
  - discriminate.
  - reflexivity.
Defined.

(** The goroutine of key [x] answers before the time-out. *)
Lemma CheckOperationsTimeout_sound_witness :
  exists p, p ∈ stale_parts /\ ~ linearizable KvStep "" p.
Proof.
  refine (CheckOperationsTimeout_sound VNil ex_fmt_op ex_fmt_state ex_sort_time ex_sort_time_perm
    ex_sort_time_sorted KvModel ex_equal_sound stale_history stale_parts _ stale_parts_ok 100 5
    (fun i _ => bool_decide (i = 1%nat)) [SResult 0; STimeout] Illegal _ _ _).
  - vm_compute. reflexivity.
  - simpl. apply NoDup_singleton.
  - intros i Hi. simpl in Hi. apply list_elem_of_singleton in Hi as ->. reflexivity.
  - vm_compute. reflexivity.
Defined.

Lemma empty_history_blocks_witness :
  ex_check 100 [] never [SResult 0] = None /\
  CheckOperationsTimeout VNil ex_fmt_op ex_fmt_state ex_sort_time KvModel 100 [] 1000 never [STimeout] = Some Unknown.
Proof.
  destruct (empty_history_blocks VNil ex_fmt_op ex_fmt_state ex_sort_time KvModel [] [] eq_refl 100 never eq_refl) as [H1 H2].
  split; [exact (H1 [SResult 0%nat])|]. exact (proj1 (H2 1000 eq_refl) []).
Defined.

(** A verbose check of the stale history, and its visualization. *)
Definition ex_sort_partials (l : list (list Z)) : list (list Z) := l.
Definition ex_verbose : option (CheckResult * linearizationInfo KvVal) :=
  CheckOperationsVerbose VNil ex_fmt_op ex_fmt_state ex_sort_time KvModel 100 stale_history 0 never [SResult 1; SResult 0].
Definition ex_info : linearizationInfo KvVal := match ex_verbose with Some (_, i) => i | None => mkInfo [] [] end.

Lemma visualization_never_panics_witness :
  is_Some (computeVisualizationData VNil ex_fmt_op ex_fmt_state ex_sort_partials KvModel ex_info).
Proof.
  refine (visualization_never_panics VNil ex_fmt_op ex_fmt_state ex_sort_time ex_sort_time_perm ex_sort_time_sorted
    ex_sort_partials (fun _ => reflexivity _) KvModel ex_equal_sound stale_history stale_parts _ stale_parts_ok _
    100 0 [SResult 1; SResult 0] Illegal ex_info _).
  - vm_compute. reflexivity.
  - intros p o Hp Ho. destruct (stale_parts_typed p Hp) as [Ht _]. rewrite Forall_forall in Ht.
    destruct (Ht o Ho) as (i & r & Hi & Hr). simpl. rewrite Hi, Hr. by eexists.
  - vm_compute. reflexivity.
Defined.

(** The longest prefixes found: both puts, and the get after the first put is
    never reached because the second put comes before it. *)
Example ex_partials : partialLinearizations ex_info = [[[0; 1]]; [[0]]].
Proof. vm_compute. reflexivity. Qed.
