(* ===== verification/KVSrvLin.v ===== *)
(** The key/value server of lab 2 is linearizable.

    Any number of clients call [Get], [Put] and [Append] through their clerks, at
    their own pace and with requests and replies lost, and the history of the
    completed calls is recorded with the times of call and return, as the tests
    record it for the checker. *)

From Stdlib Require Import String.
From S2P Require Import Prelude KVSrv Bitset Porcupine PorcupineOps Models.
Local Open Scope Z_scope.

(** * Clients and server *)

Inductive Req := RGet (key : string) | RPut (key value : string) | RAppend (key value : string).

(** Where a clerk is in [Get] or [PutAppend]: in the loop of the first call, in
    the loop of [Finish], or about to return. *)
Inductive Phase := Calling | Finishing (v : string) | Returning (v : string).

Record Client := mkClient { creq : Req; cid : Z; ccall : Z; cphase : Phase }.

Record Sys := mkSys {
  srv : KVServer;
  clock : Z;
  ids : Z;
  clients : gmap nat Client;
  hist : list (Operation KvVal)
}.

Inductive Act :=
| Invoke (c : nat) (r : Req)
| Deliver (c : nat) (replied : bool)
| Acknowledge (c : nat) (replied : bool)
| Respond (c : nat).

Definition with_client (c : nat) (x : Client) (kv : KVServer) (s : Sys) : Sys :=
  mkSys kv (clock s) (ids s) (<[c := x]> (clients s)) (hist s).
Definition set_phase (p : Phase) (x : Client) : Client := mkClient (creq x) (cid x) (ccall x) p.

(** The request a clerk repeats, as an event of the server. *)
Definition event_of (x : Client) : option KVSrv.Event :=
  match creq x with
  | RGet _ => None
  | RPut k v => Some (EPut (mkPutAppendArgs k v (cid x)))
  | RAppend k v => Some (EAppend (mkPutAppendArgs k v (cid x)))
  end.
Definition finish_of (x : Client) : KVSrv.Event :=
  match creq x with
  | RGet k => EFinish (mkPutAppendArgs k "" (cid x))
  | RPut k v | RAppend k v => EFinish (mkPutAppendArgs k v (cid x))
  end.

(** What the tests record: an append is checked with its return value. *)
Definition input_of (x : Client) : KvInput :=
  match creq x with
  | RGet k => mkKvInput 0 k ""
  | RPut k v => mkKvInput 1 k v
  | RAppend k v => mkKvInput 3 k v
  end.
Definition output_of (x : Client) (v : string) : KvOutput :=
  match creq x with RPut _ _ => mkKvOutput "" | _ => mkKvOutput v end.

Definition step (a : Act) (s : Sys) : option Sys :=
  match a with
  | Invoke c r =>
      if decide (clients s !! c = None /\ ids s < int64_max) then
        let id := match r with RGet _ => ids s | _ => wrap64 (ids s + 1) end in
        Some (mkSys (srv s) (clock s + 1) id (<[c := mkClient r id (clock s) Calling]> (clients s)) (hist s))
      else None
  | Deliver c replied =>
      x ← clients s !! c;
      match cphase x with
      | Calling =>
          match event_of x, creq x with
          | Some e, _ =>
              let '(reply, kv) := exec e (srv s) in
              Some (with_client c (if (replied : bool) then set_phase (Finishing (rValue reply)) x else x) kv s)
          | None, RGet k =>
              let reply := Get (mkGetArgs k) (srv s) in
              Some (with_client c (if (replied : bool) then set_phase (Returning (gValue reply)) x else x) (srv s) s)
          | None, _ => None
          end
      | _ => None
      end
  | Acknowledge c replied =>
      x ← clients s !! c;
      match cphase x with
      | Finishing v =>
          Some (with_client c (if (replied : bool) then set_phase (Returning v) x else x)
                  (exec (finish_of x) (srv s)).2 s)
      | _ => None
      end
  | Respond c =>
      x ← clients s !! c;
      match cphase x with
      | Returning v =>
          Some (mkSys (srv s) (clock s + 1) (ids s) (delete c (clients s))
            (hist s ++ [mkOperation (Z.of_nat c) (VInput (input_of x)) (ccall x) (VOutput (output_of x v)) (clock s)]))
      | _ => None
      end
  end.

Definition start : Sys := mkSys StartKVServer 0 0 ∅ [].
Fixpoint run_acts (l : list Act) (s : Sys) : option Sys :=
  match l with [] => Some s | a :: l => s ← step a s; run_acts l s end.
Definition reachable (s : Sys) : Prop := exists l, run_acts l start = Some s.

(** * Effects *)

(** When and with which answer a request took effect. *)
Record Eff := mkEff { ete : Z; einp : KvInput; eout : KvOutput; ecall : Z }.

(** The store accepts the effects in order, from [d] to [d']. *)
Fixpoint effects (d : gmap string string) (L : list Eff) (d' : gmap string string) : Prop :=
  match L with
  | [] => d' = d
  | e :: L => exists d1, store_step d (VInput (einp e)) (VOutput (eout e)) = Some (true, d1) /\ effects d1 L d'
  end.

Lemma effects_snoc L e d d1 d' : effects d L d1 ->
  store_step d1 (VInput (einp e)) (VOutput (eout e)) = Some (true, d') -> effects d (L ++ [e]) d'.
Proof.
  revert d. induction L as [|x L IH]; simpl; intros d.
  - intros -> Hs. eauto.
  - intros (d2 & Hd & Hl) Hs. eauto.
Qed.

Definition completes (e : Eff) (o : Operation KvVal) : Prop :=
  Input o = VInput (einp e) /\ Output o = VOutput (eout e) /\ Call o = ecall e /\ ete e <= Return o.

(** What is known of a client whose request has, or has not, taken effect. *)
Definition client_ok (kv : KVServer) (x : Client) (eff : option Eff) : Prop :=
  match eff with
  | None => cphase x = Calling /\ (is_Some (event_of x) -> request kv !! cid x = None)
  | Some e =>
      einp e = input_of x /\ ecall e = ccall x /\
      match cphase x with
      | Calling => exists v, is_Some (event_of x) /\ request kv !! cid x = Some v /\ eout e = output_of x v
      | Finishing v => is_Some (event_of x) /\ eout e = output_of x v
      | Returning v => eout e = output_of x v
      end
  end.

Arguments client_ok : simpl never.

Record inv (s : Sys) (L done : list Eff) (E : gmap nat Eff) : Prop := {
  i_perm : L ≡ₚ done ++ (map_to_list E).*2;
  i_done : Forall2 completes done (hist s);
  i_sorted : StronglySorted (fun a b => ete a <= ete b) L;
  i_time : forall e, e ∈ L -> ecall e <= ete e <= clock s;
  i_store : exists d, effects ∅ L d /\ same_store (data (srv s)) d;
  i_clients : forall c x, clients s !! c = Some x -> ccall x <= clock s /\ client_ok (srv s) x (E !! c);
  i_dom : forall c, is_Some (E !! c) -> is_Some (clients s !! c);
  i_ids : 0 <= ids s <= int64_max;
  i_bound : forall c x, clients s !! c = Some x -> is_Some (event_of x) -> cid x <= ids s;
  i_uniq : forall c1 c2 x1 x2, clients s !! c1 = Some x1 -> clients s !! c2 = Some x2 ->
    is_Some (event_of x1) -> is_Some (event_of x2) -> cid x1 = cid x2 -> c1 = c2;
  i_known : forall i, is_Some (request (srv s) !! i) -> i <= ids s
}.

Lemma srv_inv_start : inv start [] [] ∅.
Proof.
  split; simpl.
  - by rewrite map_to_list_empty.
  - constructor.
  - constructor.
  - intros e He. by apply not_elem_of_nil in He.
  - exists ∅. done.
  - intros c x Hx. by rewrite lookup_empty in Hx.
  - intros c [e He]. by rewrite lookup_empty in He.
  - unfold int64_max. lia.
  - intros c x Hx. by rewrite lookup_empty in Hx.
  - intros c1 c2 x1 x2 Hx. by rewrite lookup_empty in Hx.
  - intros i [v Hv]. by rewrite lookup_empty in Hv.
Qed.

(** ** The steps *)

(** A clerk and the server change together; [L'] and [E'] are the effects after
    it.  The other clients' requests are remembered as before. *)
Lemma inv_with s L L' done E E' c x x' kv' :
  inv s L done E -> clients s !! c = Some x ->
  creq x' = creq x -> cid x' = cid x -> ccall x' = ccall x ->
  (forall i, is_Some (request kv' !! i) -> is_Some (request (srv s) !! i) \/ (i = cid x /\ is_Some (event_of x))) ->
  (forall i, i <> cid x \/ event_of x = None -> request kv' !! i = request (srv s) !! i) ->
  client_ok kv' x' (E' !! c) -> (forall c', c' <> c -> E' !! c' = E !! c') ->
  L' ≡ₚ done ++ (map_to_list E').*2 -> StronglySorted (fun a b => ete a <= ete b) L' ->
  (forall e, e ∈ L' -> ecall e <= ete e <= clock s) ->
  (exists d, effects ∅ L' d /\ same_store (data kv') d) ->
  inv (with_client c x' kv' s) L' done E'.
Proof.
  intros [Hp Hd Hs Ht Hst Hc Hdom Hids Hb Hu Hk] Hx Hreq Hid Hcall Hreqs Hsame Hok HE Hp' Hs' Ht' Hst'.
  assert (event_of x' = event_of x) as Hev by (unfold event_of; by rewrite Hreq, Hid).
  assert (forall c' y, <[c := x']> (clients s) !! c' = Some y ->
    exists y0, clients s !! c' = Some y0 /\ event_of y = event_of y0 /\ cid y = cid y0 /\ ccall y = ccall y0) as Hold.
  { intros c' y [[<- <-]|[_ Hy]]%lookup_insert_Some; eauto 10. }
  split; simpl; try done.
  - intros c' y Hy. destruct (Hold c' y Hy) as (y0 & Hy0 & _ & _ & ->). split; [by apply (Hc c' y0)|].
    apply lookup_insert_Some in Hy as [[<- <-]|[Hne Hy]]; [done|]. rewrite HE by done.
    destruct (Hc c' y Hy) as [_ Hcy]. unfold client_ok in *.
    assert (is_Some (event_of y) -> request kv' !! cid y = request (srv s) !! cid y) as Hr.
    { intros He. apply Hsame. destruct (event_of x) as [ex|] eqn:Ex; [|by right]. left. intros Heq.
      apply Hne. symmetry. by eapply (Hu c' c y x); try rewrite Ex. }
    destruct (E !! c') as [e|].
    + destruct Hcy as (? & ? & Hph). split_and!; try done. destruct (cphase y); try done.
      destruct Hph as (v & ? & ? & ?). exists v. by rewrite Hr.
    + destruct Hcy as [? Hn]. split; [done|]. intros He. rewrite Hr by done. auto.
  - intros c' He. apply lookup_insert_is_Some. destruct (decide (c = c')) as [|Hne]; [by left|].
    right. split; [done|]. rewrite HE in He by done. auto.
  - intros c' y Hy He. destruct (Hold c' y Hy) as (y0 & Hy0 & Hev0 & -> & _). rewrite Hev0 in He. eauto.
  - intros c1 c2 x1 x2 H1 H2 He1 He2. destruct (Hold c1 x1 H1) as (y1 & Hy1 & Hv1 & -> & _).
    destruct (Hold c2 x2 H2) as (y2 & Hy2 & Hv2 & -> & _). rewrite Hv1 in He1. rewrite Hv2 in He2. eauto.
  - intros i Hi. destruct (Hreqs i Hi) as [|[-> ?]]; eauto.
Qed.

(** Without a new effect. *)
Lemma srv_inv_quiet s L done E c x x' kv' :
  inv s L done E -> clients s !! c = Some x ->
  creq x' = creq x -> cid x' = cid x -> ccall x' = ccall x -> data kv' = data (srv s) ->
  (forall i, is_Some (request kv' !! i) -> is_Some (request (srv s) !! i)) ->
  (forall i, i <> cid x \/ event_of x = None -> request kv' !! i = request (srv s) !! i) ->
  client_ok kv' x' (E !! c) ->
  inv (with_client c x' kv' s) L done E.
Proof.
  intros Hinv Hx ? ? ? Hdata Hreqs Hsame Hok. pose proof Hinv as [].
  eapply inv_with; try done; [by auto|by rewrite Hdata].
Qed.

(** With an effect now. *)
Lemma inv_effect s L done E c x x' kv' e :
  inv s L done E -> clients s !! c = Some x -> E !! c = None ->
  creq x' = creq x -> cid x' = cid x -> ccall x' = ccall x ->
  ecall e = ccall x -> ete e = clock s ->
  (forall d, same_store (data (srv s)) d -> exists d',
     store_step d (VInput (einp e)) (VOutput (eout e)) = Some (true, d') /\ same_store (data kv') d') ->
  (forall i, is_Some (request kv' !! i) -> is_Some (request (srv s) !! i) \/ (i = cid x /\ is_Some (event_of x))) ->
  (forall i, i <> cid x \/ event_of x = None -> request kv' !! i = request (srv s) !! i) ->
  client_ok kv' x' (Some e) ->
  inv (with_client c x' kv' s) (L ++ [e]) done (<[c := e]> E).
Proof.
  intros Hinv Hx HE ? ? ? Hcall Hte Hstore Hreqs Hsame Hok.
  pose proof Hinv as [Hp Hd Hs Ht (d & Hd1 & Hd2) Hc _ _ _ _ _].
  eapply inv_with; try done.
  - by rewrite lookup_insert_eq.
  - intros c' Hne. by rewrite lookup_insert_ne.
  - rewrite map_to_list_insert by done. simpl. rewrite Hp, <- app_assoc. f_equiv.
    by rewrite Permutation_app_comm.
  - apply StronglySorted_app_2; [|done|by repeat constructor].
    intros a b Ha ->%list_elem_of_singleton. rewrite Hte. by apply Ht.
  - intros a [Ha| ->%list_elem_of_singleton]%elem_of_app; [by apply Ht|].
    rewrite Hcall, Hte. destruct (Hc c x Hx). lia.
  - destruct (Hstore d Hd2) as (d' & Hd' & Hsm). exists d'. split; [|done]. by eapply effects_snoc.
Qed.

Lemma inv_invoke s L done E c r s' : inv s L done E -> step (Invoke c r) s = Some s' -> inv s' L done E.
Proof.
  intros [Hp Hd Hs Ht Hst Hc Hdom Hids Hb Hu Hk] Hstep. simpl in Hstep. case_decide as Hn; [|done].
  destruct Hn as [Hnone Hlt]. injection Hstep as <-.
  set (id := match r with RGet _ => ids s | _ => wrap64 (ids s + 1) end). set (x := mkClient r id (clock s) Calling).
  assert (E !! c = None) as HE by (apply eq_None_not_Some; intros [? ?]%Hdom; congruence).
  assert (ids s <= id <= int64_max /\ (is_Some (event_of x) -> id = ids s + 1)) as [Hid Hnew].
  { subst id x. unfold event_of. destruct r; simpl; rewrite ?wrap64_small by (unfold int64_min; lia); split; try lia; done || by intros []. }
  split; simpl; try done.
  - intros e He. specialize (Ht e He). lia.
  - intros c' y [[<- <-]|[_ Hy]]%lookup_insert_Some.
    + rewrite HE. split; [simpl; lia|]. split; [done|]. intros He%Hnew. apply eq_None_not_Some.
      intros Hi%Hk. simpl in Hi. lia.
    + destruct (Hc c' y Hy). split; [lia|done].
  - intros c' He. apply lookup_insert_is_Some'. right. auto.
  - lia.
  - intros c' y [[<- <-]|[_ Hy]]%lookup_insert_Some He; [done|]. specialize (Hb c' y Hy He). lia.
  - intros c1 c2 x1 x2 [[<- <-]|[_ H1]]%lookup_insert_Some [[<- <-]|[_ H2]]%lookup_insert_Some He1 He2 Heq; try done.
    + specialize (Hb c2 x2 H2 He2). specialize (Hnew He1). simpl in Heq. lia.
    + specialize (Hb c1 x1 H1 He1). specialize (Hnew He2). simpl in Heq. lia.
    + by eapply Hu.
  - intros i Hi%Hk. lia.
Qed.

(** The store of the specification does what the server does. *)
Lemma store_event x e dat d : event_of x = Some e -> same_store dat d -> exists d',
  store_step d (VInput (input_of x)) (VOutput (output_of x (answer_of dat e))) = Some (true, d') /\
  same_store (effect_of dat e) d'.
Proof.
  intros He Hsame. unfold event_of in He. unfold input_of, output_of. destruct (creq x) as [k|k v|k v]; [done| |];
    injection He as <-; unfold store_step; simpl.
  - eexists. split; [done|]. by apply same_store_insert.
  - rewrite bool_decide_eq_true_2 by (simpl; apply Hsame). eexists. split; [done|].
    intros k'. destruct (decide (k = k')) as [->|]; [|by rewrite !lookup_insert_ne].
    rewrite !lookup_insert_eq. simpl. by rewrite (Hsame k').
Qed.

Lemma event_of_update x e : event_of x = Some e -> ~ is_finish e /\ event_id e = cid x.
Proof. unfold event_of. destruct (creq x); intros [= <-]; simpl; auto. Qed.

(** A clerk in its loops after the effect of its request. *)
Lemma client_replied kv x (b : bool) v eff :
  is_Some (event_of x) ->
  match eff with
  | Some e => einp e = input_of x /\ ecall e = ccall x /\ eout e = output_of x v /\
      (b = false -> cphase x = Calling /\ request kv !! cid x = Some v)
  | None => False
  end ->
  client_ok kv (if b then set_phase (Finishing v) x else x) eff.
Proof.
  intros Hev H. unfold client_ok. destruct eff as [e|]; [|done]. destruct H as (? & ? & ? & Hb).
  destruct b; [done|]. destruct (Hb eq_refl) as [-> ?]. eauto 10.
Qed.

Lemma inv_deliver s L done E c b s' : inv s L done E -> step (Deliver c b) s = Some s' ->
  exists L' E', inv s' L' done E'.
Proof.
  intros Hinv Hstep. simpl in Hstep. destruct (clients s !! c) as [x|] eqn:Hx; [|done]. simpl in Hstep.
  destruct (cphase x) eqn:Hph; [|done|done].
  destruct (i_clients _ _ _ _ Hinv c x Hx) as [_ Hok]. unfold client_ok in Hok. rewrite Hph in Hok.
  destruct (event_of x) as [e|] eqn:He.
  - destruct (event_of_update x e He) as [Hf Hid].
    destruct (E !! c) as [eff|] eqn:HE.
    + destruct Hok as (Hin & Hcall & v & _ & Hreq & Hout). rewrite <- Hid in Hreq.
      rewrite (exec_known e (srv s) v Hf Hreq) in Hstep. injection Hstep as <-. exists L, E.
      eapply srv_inv_quiet; try done; try (by destruct b). apply client_replied; [by eexists|].
      rewrite HE, <- Hid. done.
    + destruct Hok as [_ Hnone]. specialize (Hnone ltac:(by eexists)). rewrite <- Hid in Hnone.
      rewrite (exec_new e (srv s) Hf Hnone) in Hstep. injection Hstep as <-.
      eexists _, _. eapply (inv_effect s L done E c x) with
        (e := mkEff (clock s) (input_of x) (output_of x (answer_of (data (srv s)) e)) (ccall x));
        try done; try (by destruct b); simpl.
      * intros d. by apply store_event.
      * intros i [<-|[_ ?]]%lookup_insert_is_Some; [right; rewrite Hid, He; by eauto|by left].
      * intros i [Hi|Hi]; [|congruence]. rewrite lookup_insert_ne by congruence. done.
      * apply client_replied; [by eexists|]. simpl. by rewrite <- Hid, lookup_insert_eq.
  - unfold event_of in He. destruct (creq x) as [k| |] eqn:Hr; try done. injection Hstep as <-.
    assert (event_of x = None) as He' by (unfold event_of; by rewrite Hr).
    destruct (E !! c) as [eff|] eqn:HE; [destruct Hok as (_ & _ & v & [? Hs] & _); congruence|].
    destruct b.
    + eexists _, _. eapply (inv_effect s L done E c x) with
        (e := mkEff (clock s) (input_of x) (output_of x (gValue (Get (mkGetArgs k) (srv s)))) (ccall x)); try done; simpl.
      * intros d Hsame. unfold input_of, output_of. rewrite Hr. unfold store_step. simpl.
        rewrite bool_decide_eq_true_2 by (simpl; apply Hsame). eexists. split; [done|]. by apply same_store_read.
      * auto.
    + exists L, E. eapply srv_inv_quiet; try done. unfold client_ok. rewrite HE, Hph, He'. split; [done|]. by intros [].
Qed.

Lemma inv_acknowledge s L done E c b s' : inv s L done E -> step (Acknowledge c b) s = Some s' -> inv s' L done E.
Proof.
  intros Hinv Hstep. simpl in Hstep. destruct (clients s !! c) as [x|] eqn:Hx; [|done]. simpl in Hstep.
  destruct (cphase x) as [|v|] eqn:Hph; [done| |done]. injection Hstep as <-.
  destruct (i_clients _ _ _ _ Hinv c x Hx) as [_ Hok]. unfold client_ok in Hok. rewrite Hph in Hok.
  destruct (E !! c) as [eff|] eqn:HE; [|by destruct Hok]. destruct Hok as (Hin & Hcall & Hev & Hout).
  assert ((exec (finish_of x) (srv s)).2 = mkKVServer (data (srv s)) (delete (cid x) (request (srv s)))) as ->
    by (unfold finish_of; by destruct (creq x)).
  eapply srv_inv_quiet; try done; try (by destruct b); simpl.
  - intros i [_ ?]%lookup_delete_is_Some. done.
  - intros i [Hi|Hi]; [by rewrite lookup_delete_ne|]. rewrite Hi in Hev. by destruct Hev.
  - unfold client_ok. rewrite HE. destruct b; simpl; rewrite ?Hph; done.
Qed.

Lemma inv_respond s L done E c s' : inv s L done E -> step (Respond c) s = Some s' ->
  exists done', inv s' L done' (delete c E).
Proof.
  intros [Hp Hd Hs Ht Hst Hc Hdom Hids Hb Hu Hk] Hstep. simpl in Hstep.
  destruct (clients s !! c) as [x|] eqn:Hx; [|done]. simpl in Hstep.
  destruct (cphase x) as [| |v] eqn:Hph; [done|done|]. injection Hstep as <-.
  destruct (Hc c x Hx) as [_ Hok]. unfold client_ok in Hok. rewrite Hph in Hok.
  destruct (E !! c) as [eff|] eqn:HE; [|by destruct Hok]. destruct Hok as (Hin & Hcall & Hout).
  exists (done ++ [eff]).
  assert (L ≡ₚ (done ++ [eff]) ++ (map_to_list (delete c E)).*2) as Hp'.
  { rewrite Hp, <- (map_to_list_delete E c eff HE), <- app_assoc. done. }
  split; simpl; try done.
  - apply Forall2_app; [done|]. constructor; [|constructor]. unfold completes. simpl.
    rewrite Hin, Hout, Hcall. split_and!; try done. apply Ht. rewrite Hp'. set_solver.
  - intros e He. specialize (Ht e He). lia.
  - intros c' y [Hne Hy]%lookup_delete_Some. destruct (Hc c' y Hy). rewrite lookup_delete_ne by done. split; [lia|done].
  - intros c' [Hne He]%lookup_delete_is_Some. apply lookup_delete_is_Some. auto.
  - intros c' y [_ Hy]%lookup_delete_Some. eauto.
  - intros c1 c2 x1 x2 [_ H1]%lookup_delete_Some [_ H2]%lookup_delete_Some. eauto.
Qed.

Lemma srv_inv_step a s s' L done E : inv s L done E -> step a s = Some s' ->
  exists L' done' E', inv s' L' done' E'.
Proof.
  intros Hinv Hs. destruct a as [c r|c b|c b|c].
  - eauto using inv_invoke.
  - destruct (inv_deliver _ _ _ _ _ _ _ Hinv Hs) as (? & ? & ?). eauto.
  - eauto using inv_acknowledge.
  - destruct (inv_respond _ _ _ _ _ _ Hinv Hs) as [? ?]. eauto.
Qed.

Lemma inv_run l : forall s s' L done E, inv s L done E -> run_acts l s = Some s' ->
  exists L' done' E', inv s' L' done' E'.
Proof.
  induction l as [|a l IH]; intros s s' L done E Hinv; simpl; [intros [= <-]; eauto|].
  intros (s1 & H1 & H2)%bind_Some. destruct (srv_inv_step _ _ _ _ _ _ Hinv H1) as (? & ? & ? & ?). eauto.
Qed.

(** The effects give the linearization of the operations they complete. *)
Lemma completes_sorted L l : (forall e, e ∈ L -> ecall e <= ete e) -> Forall2 completes L l ->
  StronglySorted (fun a b => ete a <= ete b) L -> StronglySorted may_precede l.
Proof.
  intros Ht H. induction H as [|e o L l (_ & _ & Hc & _) Hl IH]; intros Hs; [constructor|].
  apply StronglySorted_inv in Hs as [Hs Hall]. constructor.
  - apply IH; [|done]. intros; apply Ht; by right.
  - apply Forall_forall. intros o' Ho'. apply list_elem_of_lookup in Ho' as [i Hi].
    destruct (Forall2_lookup_r _ _ _ _ _ Hl Hi) as (e' & He' & (_ & _ & _ & Hret)).
    rewrite Forall_forall in Hall. specialize (Hall e' ltac:(by eapply list_elem_of_lookup_2)).
    specialize (Ht e ltac:(by left)). unfold may_precede. lia.
Qed.

Lemma completes_legal L l : Forall2 completes L l -> forall d d', effects d L d' -> legal store_step d l.
Proof.
  induction 1 as [|e o L l (Hi & Ho & _ & _) _ IH]; intros d d'; simpl; [done|].
  intros (d1 & Hs & He). exists d1. rewrite Hi, Ho. split; [done|]. eauto.
Qed.

(** Calls that have not returned, completed: at most one operation for a client, with
    its request, its time of call, the present as its time of return, and the result
    the client already has, if it has one. *)
Definition completion (s : Sys) (ext : list (Operation KvVal)) : Prop :=
  NoDup (oClientId <$> ext) /\ forall o, o ∈ ext -> exists c x, clients s !! c = Some x /\
    oClientId o = Z.of_nat c /\ Input o = VInput (input_of x) /\ Porcupine.Call o = ccall x /\ Return o = clock s /\
    forall v, cphase x = Finishing v \/ cphase x = Returning v -> Output o = VOutput (output_of x v).

Definition pending_op (now : Z) (ce : nat * Eff) : Operation KvVal :=
  mkOperation (Z.of_nat ce.1) (VInput (einp ce.2)) (ecall ce.2) (VOutput (eout ce.2)) now.

Lemma pending_completion s L done E : inv s L done E -> completion s (pending_op (clock s) <$> map_to_list E).
Proof.
  intros [_ _ _ _ _ Hc Hdom _ _ _ _]. split.
  - rewrite <- list_fmap_compose. pose proof (NoDup_fst_map_to_list E) as Hnd.
    rewrite (list_fmap_ext _ (Z.of_nat ∘ fst)), list_fmap_compose by done. apply NoDup_fmap_2; [by intros ? ? ?%Nat2Z.inj|done].
  - intros o ([c e] & -> & Hin%elem_of_map_to_list)%list_elem_of_fmap. destruct (Hdom c) as [x Hx]; [by eexists|].
    exists c, x. destruct (Hc c x Hx) as [_ Hok]. unfold client_ok in Hok. rewrite Hin in Hok. destruct Hok as (Hi & Hcall & Hph).
    split_and!; simpl; try done; [by rewrite Hi|]. intros v [Hv|Hv]; rewrite Hv in Hph; [by destruct Hph as [_ ->]|by rewrite Hph].
Qed.

(** C34. The key/value server is linearizable: in every run of any number of clerks,
    with requests and replies lost and repeated, the recorded history (every [Get],
    [Put] and [Append] that has returned, with its result and the times of its call and
    its return), together with operations for some of the calls that have not returned,
    is linearizable for a store of all the keys.  The number of updates stays below the
    range of the request counter. *)
Theorem kvsrv_linearizable s : reachable s ->
  exists ext, completion s ext /\ linearizable store_step ∅ (hist s ++ ext).
Proof.
  intros [acts Hacts]. destruct (inv_run _ _ _ _ _ _ srv_inv_start Hacts) as (L & done & E & Hinv).
  exists (pending_op (clock s) <$> map_to_list E). split; [by eapply pending_completion|].
  pose proof Hinv as [Hp Hd Hs Ht (d & Heff & _) _ _ _ _ _ _].
  assert (Forall2 completes (done ++ (map_to_list E).*2) (hist s ++ (pending_op (clock s) <$> map_to_list E))) as HF.
  { apply Forall2_app; [done|]. apply Forall2_fmap. apply Forall_Forall2_diag, Forall_forall. intros [c e] Hin.
    unfold completes. simpl. split_and!; try done. apply Ht. rewrite Hp. apply elem_of_app. right.
    apply list_elem_of_fmap. by exists (c, e). }
  destruct (Permutation_Forall2 (Permutation_sym Hp) HF) as (l & Hl & HF').
  exists l. split_and!; [by symmetry| |].
  - apply (completes_sorted L); [|done|done]. intros e He. by apply Ht.
  - by eapply completes_legal.
Qed.

(** * A run *)

(** Two clients append to a key at the same time; the first reply of client 0 and
    the first acknowledgement of client 1 are lost, and client 2 reads in between. *)
Definition ex_run : list Act :=
  [Invoke 0 (RAppend "k" "x"); Deliver 0 false; Invoke 2 (RGet "k"); Invoke 1 (RAppend "k" "y");
   Deliver 2 false; Deliver 1 true; Deliver 0 true; Deliver 2 true; Acknowledge 1 false; Respond 2;
   Acknowledge 1 true; Acknowledge 0 true; Respond 0; Respond 1; Invoke 2 (RPut "k" "z"); Deliver 2 true;
   Acknowledge 2 true; Respond 2].
Definition ex_sys : Sys := default start (run_acts ex_run start).

(** Client 0 has appended but not heard of it, and client 1 reads its value. *)
Definition ex_open : Sys := default start (run_acts [Invoke 0 (RAppend "k" "x"); Deliver 0 false; Invoke 1 (RGet "k"); Deliver 1 true; Respond 1] start).

Lemma kvsrv_linearizable_witness :
  map (fun o => Output o) (hist ex_open) = [VOutput (mkKvOutput "x")] /\ is_Some (clients ex_open !! 0%nat) /\
  exists ext, completion ex_open ext /\ linearizable store_step ∅ (hist ex_open ++ ext).
Proof.
  split; [vm_compute; reflexivity|]. split; [vm_compute; by eexists|]. apply (kvsrv_linearizable ex_open).
  exists [Invoke 0 (RAppend "k" "x"); Deliver 0 false; Invoke 1 (RGet "k"); Deliver 1 true; Respond 1]. vm_compute. reflexivity.
Defined.

Example ex_results : map (fun o => Output o) (hist ex_sys) =
  [VOutput (mkKvOutput "xy"); VOutput (mkKvOutput ""); VOutput (mkKvOutput "x"); VOutput (mkKvOutput "")].
Proof. vm_compute. reflexivity. Qed.
